(* ===== verification/_CoqProject ===== *)
-Q . S2P
Prelude.v
GoTime.v
Errors.v
Work.v
Db.v
Fingerprint.v
Store.v
Instances.v
StoreSpec.v
StoreRun.v
StoreStep.v
RowInv.v
RowRead.v
Samples.v
StoreLease.v
StoreDelivery.v
StoreExec.v
StoreCreate.v
StoreSafe.v
Normalize.v
Retry.v
Names.v
Failure.v
World.v
Worker.v
Pipeline.v
Follow.v
Protocol.v
Attempt.v
Stages.v
Process.v
AttemptSafe.v
Codec.v
WorkerSafe.v
System.v
Ingress.v
Main.v
Vault.v
Migrate.v
Opening.v
Kube.v
Progress.v
Service.v
Overlap.v
Redelivery.v
Shared.v
Own.v
Triple.v
Round.v
Healthy.v
Keeps.v
Settles.v
Accounts.v
Drain.v
Verdicts.v
Deliver.v
Prompt.v
EndToEnd.v
Metrics.v
Supervise.v
