(* ===== verification/Prelude.v ===== *)
(** * NodeSentinel: verification development

    NodeSentinel validates container tools. A gRPC ingress accepts a validation
    request and stores it as a job; worker processes lease jobs, check the
    tool's image and manifest on a Kubernetes cluster (L3 dry run, L4 smoke run,
    L5-a validation run, L5-b vulnerability scan) and report the outcome to
    NodeVault over HTTP; a redelivery loop sends again what NodeVault did not
    take. All state between these parts is one SQLite table. This development
    translates the Go code of the repository into Rocq, function by function,
    and proves what the parts promise each other.

    ** How the parts interact

    - The ingress calls CreateJob; a request id makes a resend harmless.
    - LeaseJob hands a due job to a worker as a numbered attempt. Every write of
      the attempt is fenced by the owner and the attempt number, so an attempt
      that lost its lease changes nothing more.
    - EnsureExecution gives the attempts of a job one execution identity. The
      names of their Kubernetes Jobs derive from it, so that a second attempt
      meets the Job of the first and adopts it. The identity is released
      (MarkExecutionTerminal) once the attempt concludes that nothing runs under
      it any more.
    - ClaimTerminal grants one attempt of a job the right to send the one
      terminal record. If sending fails, the record is stored with the job, and
      the redelivery loop claims, sends and settles it.

    ** Files

    Foundations.
    - Prelude: results of fallible functions, [int64], text order, decimals.
    - GoTime: the timestamps of the store, formatTS and time.Parse.
    - Errors: error values, errors.Is, errors.As, the texts of wrapped errors.

    The store ([pkg/work], [pkg/work/sqlite]).
    - Work: [Job], [JobRequest] and the enumerations of [pkg/work/store.go].
    - Db: the jobs table, single statements, transactions, ORDER BY, crypto/rand,
      and the failure of any statement.
    - Fingerprint: requestFingerprint, with SHA-256.
    - Store: one definition per method of [Store], statements in source order.
    - Instances: a concrete ORDER BY and JSON codec, for the concrete runs; Codec:
      one for stored deliveries.
    - StoreSpec: the contract of the store as a step relation on one row.
    - StoreRun, StoreStep: the methods implement it; histories and induction.
    - RowInv, RowRead: what every stored row satisfies, and that it scans.
    - StoreCreate, StoreLease, StoreExec, StoreDelivery, StoreSafe: theorems.
    - Normalize: normalizeTimestamps. Migrate: initSchema and the migrations.
    - Opening: New and Close, the directory probe and the writer lock.
    - Progress: retries end, due jobs are reached.
    - Samples: the concrete tables of the witnesses.

    The worker ([pkg/worker]).
    - Retry: RetryDelay ([pkg/work/retry.go]) and backoffDuration.
    - Names: Job names, labels, record identifiers ([jobspec.go] and others).
    - Failure: failure classes ([failureclass.go], [classify.go]), decideRetry.
    - World: the state monad of an attempt, its environment and its trace.
    - Worker, Pipeline: [worker.go], [l5a.go], [l5b.go], [delivery.go].
    - Protocol: what an attempt may do and when, as an automaton over its
      actions; the abstract specification of process.
    - Attempt, Stages, Process: process keeps to it, by a calculus of weakest
      preconditions. AttemptSafe, WorkerSafe: what follows for its actions.
    - Follow: every function of an attempt respects any preorder on worlds that
      the calls it makes respect; Service, Own and Metrics are instances.
    - Shared: the steps on a store that others use in between, and the clock.
    - Own: a preorder on tables that an attempt's own store calls and those of
      others respect holds of a whole attempt (class OnStore); Drain, Verdicts and
      Prompt have one each.
    - Triple: triples over worlds while the store works and its other users, the
      redelivery loop, the ingress and the probes, act in between, up to the end
      of Run's context. Round: a round
      of Run hands out a job that is due, or none is. Keeps: a condition that
      all steps of an attempt keep until its last calls end it (classes Kept
      and Ends). Healthy: an attempt that nothing disturbs
      succeeds. Settles: no attempt leaves its job hanging. Accounts: no attempt
      ends its job without an account of the verdict.
    - Drain: Run works the queue off. Verdicts: what Run leaves behind. Deliver:
      RunDeliveryLoop delivers what is owed to NodeVault. Prompt: when what Run
      leaves is due. EndToEnd: requests in, Run, RunDeliveryLoop, verdicts out.
    - System: attempts that follow each other at one job, cut short anywhere,
      and the Kubernetes cluster they act on.
    - Service: attempts, redelivery loops and clients that share the store, at
      the same time; the traces of attempts tied to the table.
    - Overlap: attempts that overlap, on the store and the cluster at once.
    - Redelivery: from a failed delivery to its redelivery, and the pool of
      goroutines of retryPendingDeliveries.

    The edges.
    - Ingress: [pkg/ingress/server.go]. Vault: [pkg/vaultclient/client.go].
    - Main: ports, worker identity and readiness of [cmd/nodesentinel/main.go].
      Supervise: its start-up and the group of goroutines it supervises.
    - Metrics: [pkg/metrics/metrics.go], and what its counters tell of a run.
    - Kube: [k8sclient.go], the configuration of the Kubernetes clients.

    ** How the code is rendered

    A store method is a function [M A], from a [db] to a result and a [db]. A
    [db] holds the rows by job id, store_meta, a script of which of the next
    statements fail and with what error, and a script of what crypto/rand
    returns. The clock reading [s.now()] of a call is its argument [now]; a
    transaction that fails restores the tables. A [history] is any sequence of
    operations under any scripts and clock readings: the store theorems assume
    no order among operations, no monotone clock, and no statement that
    succeeds.

    A function of the worker is a [W A], from a [world] to a result and a
    [world]. At every call the environment [E] says what other workers did to
    the store just before, the clock, the answer of the API server or of
    NodeVault, the ready case of a select, and the jitter; and whether the
    context Run was called with is cancelled by then ([e_ended]). Everything the
    attempt does outside itself is appended to the trace as an [action] with its
    answer; the theorems on process are about that trace, for every [E].

    Every call carries the context the code gives it ([call_ctx]): that of the
    loop, the attempt's, which derives from it and which a lost lease cancels as
    well, or context.Background; on a cancelled context it fails, and a store
    method does at its first statement. So a shutdown reaches into the attempt
    that is under way. The theorems that say what an attempt must not do hold for
    any end of the context; those that say what it achieves are about attempts
    that end before it.

    ** Theorems

    - One Job at a time: Overlap.one_job_at_a_time_overlapping, for attempts
      that overlap, stall and repeat, over the store of Store.v itself and under
      the conditions listed below. It rests on System.v, which composes the
      protocol of an attempt with the cluster.
    - One writer: Opening.one_writer, for any openers of one database file, and
      New_outcomes, what New returns on every branch.
    - An attempt: attempt_follows_protocol and its consequences in WorkerSafe on
      releases, Creates, reports, lease loss and closing. That it also gets
      something done: Healthy.healthy_attempt_succeeds; that it ends with its
      job given back, whatever the cluster and NodeVault do, while the store
      works and Run is not told to stop: Settles.attempt_gives_back.
    - Verdicts: Verdicts.no_verdict_lost, every finished job took its terminal
      slot, and its record was taken by NodeVault or is kept as it was sent,
      except for the job in hand when Run was told to stop; that its verdict can
      be lost: verdict_lost_to_shutdown.
      EndToEnd.every_verdict_settled composes the queue, the worker and the
      redelivery loop: every job ends, and every verdict reaches NodeVault or is
      a dead letter.
    - Many attempts: Service.terminal_record_once, at most one terminal record
      per job from any number of overlapping attempts; settled_once, what the
      store grants only once, whoever asks.
    - The store: store_refines_spec, and per contract the theorems on leases,
      fences, executions, terminal slots and claims; the behaviour of the
      methods on every branch.
    - Redelivery: redeliverOne_outcomes, redelivery_claim_exclusive,
      redelivered_as_sent, pool_redelivers_all.
    - Ingress and NodeVault: exactly one job per answered request; which
      failures of a submission are final.
    - Opening: migrations resume after any interruption, old rows load, old
      timestamps are rewritten to the same instants.
    - Progress: retries are bounded (retries_end), and
      Drain.queue_drains: a worker on a working store finishes every job within
      a number of rounds known beforehand, and Deliver.deliveries_end: once
      NodeVault answers again, every record owed to it reaches its end. The
      process does not run on with a part missing: Supervise.group_supervised;
      what its two loops return is what Run and RunDeliveryLoop do
      (loops_may_return).
      What can be seen of it from outside: Metrics.counters_tell.
    - Values: timestamps, delays and failure classes.

    ** Bounds and fuel

    - [rounds] bounds the turns of the select loops of L4 and L5-a. It stands
      for the deadline of the context: when it is used up the loop behaves as
      on a deadline. The theorems hold for every value of it; that a healthy
      attempt succeeds, for every positive one.
    - reconcile_create has the number of probes of the source as its fuel.
    - Run and RunDeliveryLoop have a number of rounds as fuel; [None] says that
      the loop still runs. queue_drains and deliveries_end say how many rounds
      are enough for what: a fresh job takes at most 156 rounds of Run, for its
      attempts and for the waits until a lease or a backoff runs out; redelivery
      takes the 61 ticks of the longest backoff and one for every ten records
      owed.
    - retry_cap has fuel for the doublings that exceed the cap; more change
      nothing, since it stops there (Retry.v).
    - Timestamps: theorems that need years 0 to 9999 say so; outside, the text
      of formatTS does not sort and does not parse.

    ** Parameters

    - [SqlOrder]: ORDER BY returns a sorted permutation; ties are SQLite's.
    - [ActionsJson]: encoding/json on arrays of strings, with a round trip on
      plain strings. [DeliveryJson]: encoding/json on a stored record, with a
      round trip on ASCII texts.
    - [valid_label_value]: label validation of apimachinery.
    - [float_overflow]: Go's conversion of a float beyond [int64].
    - [FileLock]: the locks SQLite documents for one file and its connections;
      in Opening also the answers of the file system. [Meter]: OpenTelemetry's
      counters with the Prometheus exporter. In Kube, client-go.
    - In Ingress, the iteration order of a Go map and what a failed rand.Read
      left in the buffer; in Vault, net/http and encoding/json.

    ** Assumptions

    - [conditions_exclusive]: the API server never shows one Job as both
      Complete and Failed.
    - Overlap: a call that creates a Job, or that takes or releases the execution
      identity, is answered before the lease its attempt last obtained runs out,
      and a Create of unknown outcome is persisted or lost before the next lease;
      the API server refuses the Create of an L5-a Job only while there is no such
      Job ([telling]); one deployment configuration. Without the first, an
      adopted identity can be released (adopted_identity_released); without the
      third, that of a running L5-a Job (running_l5a_released). Single attempts
      (WorkerSafe) and many on one store (Service) need none of these.
    - Healthy, Settles, Accounts: [store_works], the statements of the attempt
      succeed and only one worker leases and finishes jobs; and the context of
      Run is not cancelled before the attempt ends ([cut]). Healthy also: no call
      fails, every Job looked up is Complete, every select polls, no legacy Job.
    - Drain: also [clock_ok], a clock that never goes back, no new job arrives,
      and the context is never cancelled. Verdicts: [clock_ok], jobs may arrive,
      and the context stays cancelled once it is.
    - Deliver: one redelivery loop, no further delivery fails, NodeVault takes
      each record or refuses it for good, and no signal arrives. EndToEnd: Run under Drain's
      assumptions, later the loop under Deliver's; what other redelivery loops
      claimed or put off meanwhile is due within the longest backoff.

    ** Not modelled

    - Logging, ticker periods, HTTP and gRPC server wiring in [main.go],
      generated protobuf code: I/O and libraries. Of errgroup, Supervise has
      what its documentation says: the first error cancels the context and is
      what Wait returns.
    - A lease found lost in the very moment in which the timed context of L4 or
      L5-a reaches its deadline: the code tells the two apart by context.Cause,
      the model by whether the loss was found first.
    - The pool settings of New: one connection, never retired, is the one that
      Opening gives each opener.
    - [quoted] is %q exactly on ASCII texts; of other texts it assumes that they
      are printable UTF-8. *)

From Stdlib Require Export ZArith Lia.
From stdpp Require Export base gmap strings list fin_maps pretty sorting.
From Stdlib Require Export Ascii.
From Stdlib Require String.

#[global] Open Scope Z_scope.
#[global] Set Default Goal Selector "!".
#[export] Set Warnings "-clear-no-such-hyp,-register-all".

(** [lia] also sees through division and modulo by constants. *)
Ltac Zify.zify_post_hook ::= Z.to_euclidean_division_equations.

(** ** Results of fallible Go functions

    A Go function returning [(T, error)] yields [Ok v] when the error is nil
    and [Err e] otherwise; its value is never read in the second case. *)

Inductive res (E A : Type) : Type :=
| Ok (a : A)
| Err (e : E).
Arguments Ok {E A} a.
Arguments Err {E A} e.

Definition res_bind {E A B} (m : res E A) (f : A → res E B) : res E B :=
  match m with
  | Ok a => f a
  | Err e => Err e
  end.

Definition is_ok {E A} (m : res E A) : bool :=
  match m with Ok _ => true | Err _ => false end.

Declare Scope ns_scope.
Delimit Scope ns_scope with ns.
Notation "'try' x <- m ; k" := (res_bind m (fun x => k))
  (at level 10, x pattern, m at level 100, k at level 200) : ns_scope.
#[global] Open Scope ns_scope.

(** ** Machine integers *)

(** Two's complement wrap-around of Go's [int64] (and of [time.Duration]). *)
Definition wrap64 (z : Z) : Z := (z + 2 ^ 63) mod 2 ^ 64 - 2 ^ 63.

Definition int64_range (z : Z) : Prop := - 2 ^ 63 ≤ z < 2 ^ 63.

Lemma wrap64_id z : int64_range z → wrap64 z = z.
Proof. unfold int64_range, wrap64. intros H. rewrite Z.mod_small; lia. Qed.

Lemma wrap64_range z : int64_range (wrap64 z).
Proof.
  unfold int64_range, wrap64.
  pose proof (Z.mod_pos_bound (z + 2 ^ 63) (2 ^ 64)). lia.
Qed.

(** ** Byte strings: order and length

    SQLite's default BINARY collation compares text with memcmp, which is the
    lexicographic byte order of [String.compare]. *)

Definition text_ltb (a b : string) : bool := String.ltb a b.
Definition text_leb (a b : string) : bool := String.leb a b.

Lemma ascii_compare_refl c : Ascii.compare c c = Eq.
Proof. unfold Ascii.compare. apply N.compare_refl. Qed.

Lemma string_compare_refl s : String.compare s s = Eq.
Proof. induction s as [|c s IH]; simpl; [done|]. by rewrite ascii_compare_refl. Qed.

Lemma string_app_nil_l (b : string) : "" +:+ b = b.
Proof. done. Qed.

Lemma string_app_cons c (a b : string) : String c a +:+ b = String c (a +:+ b).
Proof. done. Qed.

Lemma string_length_app (a b : string) :
  String.length (a +:+ b) = (String.length a + String.length b)%nat.
Proof. induction a as [|c a IH]; [done|]. rewrite string_app_cons. simpl. by rewrite IH. Qed.

Lemma string_app_assoc (a b c : string) : (a +:+ b) +:+ c = a +:+ (b +:+ c).
Proof. induction a as [|x a IH]; [done|]. by rewrite !string_app_cons, IH. Qed.

Lemma string_app_nil_r (a : string) : a +:+ "" = a.
Proof. induction a as [|x a IH]; [done|]. by rewrite string_app_cons, IH. Qed.

(** Texts whose prefixes have the same width compare prefix first. *)
Lemma string_compare_app (a1 a2 b1 b2 : string) :
  String.length a1 = String.length a2 →
  String.compare (a1 +:+ b1) (a2 +:+ b2) =
    match String.compare a1 a2 with
    | Eq => String.compare b1 b2
    | c => c
    end.
Proof.
  revert a2. induction a1 as [|c1 a1 IH]; intros [|c2 a2] Hlen; simpl in Hlen; try done.
  rewrite !string_app_cons. simpl.
  destruct (Ascii.compare c1 c2); [|done..]. apply IH. lia.
Qed.

Lemma text_leb_total a b : text_leb a b = true ∨ text_leb b a = true.
Proof.
  unfold text_leb, String.leb. rewrite (String.compare_antisym a b).
  destruct (String.compare b a); simpl; auto.
Qed.

Lemma text_ltb_leb a b : text_ltb a b = negb (text_leb b a).
Proof.
  unfold text_ltb, text_leb, String.ltb, String.leb.
  rewrite (String.compare_antisym b a). by destruct (String.compare a b).
Qed.

Lemma text_leb_refl a : text_leb a a = true.
Proof. unfold text_leb, String.leb. by rewrite string_compare_refl. Qed.

(** Go's %q: ASCII as strconv.Quote writes it; bytes from 128 on are taken for
    printable UTF-8 and stay. *)
Definition escape (c : ascii) : string :=
  let n := N_of_ascii c in
  let short (x : ascii) := String "092" (String x "") in
  let hex (d : N) := ascii_of_N (if d <? 10 then 48 + d else 87 + d)%N in
  match n with
  | 7%N => short "a"%char | 8%N => short "b"%char | 12%N => short "f"%char | 10%N => short "n"%char
  | 13%N => short "r"%char | 9%N => short "t"%char | 11%N => short "v"%char
  | 34%N => short "034"%char | 92%N => short "092"%char
  | _ =>
      if ((n <? 32) || (n =? 127))%N
      then String "092" (String "x" (String (hex (n / 16)%N) (String (hex (n mod 16)%N) "")))
      else String c ""
  end.

Fixpoint escaped (s : string) : string :=
  match s with
  | EmptyString => ""
  | String c s' => escape c +:+ escaped s'
  end.

Definition quoted (s : string) : string := String "034" (escaped s +:+ String "034" "").

Example quoted_escapes :
  quoted (String "a" (String "034" (String "010" (String "127" "b")))) =
  String "034" (String "a" (String "092" (String "034" (String "092" (String "n" (String "092"
    (String "x" (String "7" (String "f" (String "b" (String "034" ""))))))))))).
Proof. reflexivity. Qed.

(** ** Decimal digits *)

Definition digit (n : Z) : ascii := ascii_of_N (48 + Z.to_N n).

Definition is_digit (c : ascii) : bool := (48 <=? N_of_ascii c)%N && (N_of_ascii c <=? 57)%N.

Definition digit_val (c : ascii) : Z := Z.of_N (N_of_ascii c) - 48.

Lemma N_of_digit n : 0 ≤ n < 10 → N_of_ascii (digit n) = (48 + Z.to_N n)%N.
Proof. intros H. unfold digit. apply N_ascii_embedding. lia. Qed.

Lemma is_digit_digit n : 0 ≤ n < 10 → is_digit (digit n) = true.
Proof.
  intros H. unfold is_digit. rewrite N_of_digit by done.
  apply andb_true_intro. split; apply N.leb_le; lia.
Qed.

Lemma digit_val_digit n : 0 ≤ n < 10 → digit_val (digit n) = n.
Proof. intros H. unfold digit_val. rewrite N_of_digit by done. lia. Qed.

Lemma digit_compare x y :
  0 ≤ x < 10 → 0 ≤ y < 10 → Ascii.compare (digit x) (digit y) = (x ?= y).
Proof.
  intros Hx Hy. unfold Ascii.compare. rewrite !N_of_digit by done.
  destruct (Z.compare_spec x y) as [->| |].
  - apply N.compare_refl.
  - apply N.compare_lt_iff. lia.
  - apply N.compare_gt_iff. lia.
Qed.

(** [pad w x]: the last [w] decimal digits of [x], zero padded on the left. *)
Fixpoint pad (w : nat) (x : Z) : string :=
  match w with
  | O => ""
  | S w' => String (digit (x / 10 ^ Z.of_nat w' mod 10)) (pad w' x)
  end.

Lemma pad_length w x : String.length (pad w x) = w.
Proof. induction w as [|w IH]; simpl; [done|]. by rewrite IH. Qed.

Lemma mod10_range z : 0 ≤ z mod 10 < 10.
Proof. apply Z.mod_pos_bound. lia. Qed.

Lemma mod_pow_succ x w :
  x mod 10 ^ Z.of_nat (S w) =
    x / 10 ^ Z.of_nat w mod 10 * 10 ^ Z.of_nat w + x mod 10 ^ Z.of_nat w.
Proof.
  rewrite Nat2Z.inj_succ, Z.pow_succ_r by lia.
  set (p := 10 ^ Z.of_nat w). assert (0 < p) by (apply Z.pow_pos_nonneg; lia).
  rewrite (Z.mul_comm 10 p), Z.rem_mul_r by lia. ring.
Qed.

(** Equal-width decimals compare as the numbers they show. *)
Lemma pad_compare w x y :
  String.compare (pad w x) (pad w y) = (x mod 10 ^ Z.of_nat w ?= y mod 10 ^ Z.of_nat w).
Proof.
  induction w as [|w IH]; [by rewrite !Z.mod_1_r|].
  simpl. rewrite digit_compare by apply mod10_range. rewrite IH, !mod_pow_succ.
  set (p := 10 ^ Z.of_nat w). assert (0 < p) by (apply Z.pow_pos_nonneg; lia).
  pose proof (Z.mod_pos_bound x p ltac:(lia)). pose proof (Z.mod_pos_bound y p ltac:(lia)).
  set (a := x / p mod 10). set (b := y / p mod 10).
  destruct (Z.compare_spec a b) as [->| |].
  - by rewrite Zcompare_plus_compat.
  - symmetry. apply Z.compare_lt_iff. nia.
  - symmetry. apply Z.compare_gt_iff. nia.
Qed.

Lemma pad_compare_small w x y :
  0 ≤ x < 10 ^ Z.of_nat w → 0 ≤ y < 10 ^ Z.of_nat w →
  String.compare (pad w x) (pad w y) = (x ?= y).
Proof. intros Hx Hy. rewrite pad_compare, !Z.mod_small by done. done. Qed.

(** ** Lists *)

Lemma Forall2_impl_elem {A B} (P Q : A → B → Prop) l k :
  Forall2 P l k → (∀ x y, x ∈ l → P x y → Q x y) → Forall2 Q l k.
Proof.
  induction 1 as [|x y l k Hxy Hlk IH]; intros HPQ; constructor.
  - apply HPQ; [left|done].
  - apply IH. intros x' y' Hin. apply HPQ. by right.
Qed.

Lemma NoDup_fmap_filter {A B} (f : A → B) (P : A → Prop) `{∀ x, Decision (P x)} (l : list A) :
  NoDup (f <$> l) → NoDup (f <$> filter P l).
Proof. intros Hl. eapply sublist_NoDup; [exact Hl|]. apply fmap_sublist, sublist_filter. Qed.

Lemma NoDup_take {A} n (l : list A) : NoDup l → NoDup (take n l).
Proof. intros Hl. eapply sublist_NoDup; [exact Hl|]. apply sublist_take. Qed.

(** ** Tactics *)

(** Names the hypothesis that says boolean test [f] holds of something. *)
Ltac take f H' :=
  match goal with
  | H : f _ = true |- _ => rename H into H'
  | H : f _ _ = true |- _ => rename H into H'
  | H : f _ _ _ = true |- _ => rename H into H'
  end.
