(* ===== verification/GoTime.v ===== *)
(** * GoTime: the timestamps of the work store

    What [pkg/work/sqlite/store.go] uses of Go's [time] package: instants,
    [formatTS] with [timestampLayout], and [time.Parse] with
    [time.RFC3339Nano]. Every timestamp column of the [jobs] table is text, and
    SQLite compares that text; the theorems of this file show when the text
    order is the time order. *)

From S2P Require Import Prelude.

(** A [time.Time] is the instant it denotes: nanoseconds since the Unix epoch.
    The location only matters to [Format], which [formatTS] always reaches
    through [UTC()]. *)
Abbreviation instant := Z (only parsing).

(** [time.Duration] values, in nanoseconds. *)
Definition nanosecond : Z := 1.
Definition second : Z := 10 ^ 9.
Definition minute : Z := 60 * second.

(** [Time.Add]. Go saturates only at the ends of its 292-billion-year range,
    which no clock reading approaches. *)
Definition time_add (t d : Z) : Z := t + d.

(** [Time.UnixNano]: an [int64], wrapping outside the years 1678 to 2262. *)
Definition unix_nano (t : instant) : Z := wrap64 t.

(** ** The proleptic Gregorian calendar *)

Definition is_leap (y : Z) : bool :=
  (y mod 4 =? 0) && (negb (y mod 100 =? 0) || (y mod 400 =? 0)).

(** Days from 0000-01-01 to the first day of year [y]. *)
Definition days_before_year (y : Z) : Z :=
  365 * y + (y + 3) / 4 - (y + 99) / 100 + (y + 399) / 400.

Definition epoch_days : Z := days_before_year 1970.

Definition year_of_days (d : Z) : Z :=
  let y := 400 * d / 146097 in
  if d <? days_before_year y then y - 1
  else if days_before_year (y + 1) <=? d then y + 1 else y.

(** Days of a year before month [m] (1 to 13). *)
Definition days_before_month (leap : bool) (m : Z) : Z :=
  let l := if leap then 1 else 0 in
  if m <=? 1 then 0 else if m =? 2 then 31 else
  l + (if m =? 3 then 59 else if m =? 4 then 90 else if m =? 5 then 120
       else if m =? 6 then 151 else if m =? 7 then 181 else if m =? 8 then 212
       else if m =? 9 then 243 else if m =? 10 then 273 else if m =? 11 then 304
       else if m =? 12 then 334 else 365).

(** [daysIn]. *)
Definition days_in (leap : bool) (m : Z) : Z :=
  days_before_month leap (m + 1) - days_before_month leap m.

Fixpoint month_search (leap : bool) (yd : Z) (fuel : nat) (m : Z) : Z :=
  match fuel with
  | O => m
  | S fuel => if yd <? days_before_month leap (m + 1) then m
              else month_search leap yd fuel (m + 1)
  end.

Definition month_of (leap : bool) (yd : Z) : Z := month_search leap yd 11 1.

Record civil := Civil {
  c_year : Z; c_month : Z; c_day : Z;
  c_hour : Z; c_min : Z; c_sec : Z; c_nsec : Z }.

Definition civil_of (t : instant) : civil :=
  let s := t / second in
  let d := s / 86400 + epoch_days in
  let sod := s mod 86400 in
  let y := year_of_days d in
  let yd := d - days_before_year y in
  let m := month_of (is_leap y) yd in
  Civil y m (yd - days_before_month (is_leap y) m + 1)
        (sod / 3600) (sod / 60 mod 60) (sod mod 60) (t mod second).

Definition civil_days (c : civil) : Z :=
  days_before_year (c_year c) + days_before_month (is_leap (c_year c)) (c_month c) + c_day c - 1.

(** [time.Date] for in-range fields. *)
Definition instant_of (c : civil) : instant :=
  ((civil_days c - epoch_days) * 86400 + c_hour c * 3600 + c_min c * 60 + c_sec c) * second
  + c_nsec c.

Definition civil_valid (c : civil) : Prop :=
  1 ≤ c_month c ≤ 12 ∧ 1 ≤ c_day c ≤ days_in (is_leap (c_year c)) (c_month c) ∧
  0 ≤ c_hour c < 24 ∧ 0 ≤ c_min c < 60 ∧ 0 ≤ c_sec c < 60 ∧ 0 ≤ c_nsec c < second.

(** ** Formatting *)

(** Go's [appendInt]: zero padded to width [w], wider values in full. *)
Definition append_int (x : Z) (w : nat) : string :=
  (if x <? 0 then "-" else "") +:+
  (if Z.abs x <? 10 ^ Z.of_nat w then pad w (Z.abs x) else pretty (Z.abs x)).

(** [formatTS]: UTC, layout 2006-01-02T15:04:05.000000000Z07:00. *)
Definition formatTS (t : instant) : string :=
  let c := civil_of t in
  append_int (c_year c) 4 +:+ "-" +:+ append_int (c_month c) 2 +:+ "-" +:+
  append_int (c_day c) 2 +:+ "T" +:+ append_int (c_hour c) 2 +:+ ":" +:+
  append_int (c_min c) 2 +:+ ":" +:+ append_int (c_sec c) 2 +:+ "." +:+
  pad 9 (c_nsec c) +:+ "Z".

(** ** Parsing: [time.Parse(time.RFC3339Nano, s)] *)

(** [getnum]: one or two digits; exactly two when [fixed]. *)
Definition getnum (s : string) (fixed : bool) : option (Z * string) :=
  match s with
  | String a s1 =>
      if negb (is_digit a) then None else
      match s1 with
      | String b s2 =>
          if is_digit b then Some (digit_val a * 10 + digit_val b, s2)
          else if fixed then None else Some (digit_val a, s1)
      | EmptyString => if fixed then None else Some (digit_val a, s1)
      end
  | EmptyString => None
  end.

(** Skips one literal byte of the layout. *)
Definition skip (c : ascii) (s : string) : option string :=
  match s with
  | String a s' => if Ascii.eqb a c then Some s' else None
  | EmptyString => None
  end.

(** The four-digit year. *)
Definition get_year (s : string) : option (Z * string) :=
  match s with
  | String a (String b (String c (String d s'))) =>
      if is_digit a && is_digit b && is_digit c && is_digit d
      then Some (((digit_val a * 10 + digit_val b) * 10 + digit_val c) * 10 + digit_val d, s')
      else None
  | _ => None
  end.

Definition comma_or_period (c : ascii) : bool := Ascii.eqb c "." || Ascii.eqb c ",".

(** The digits after the separator: their value cut at nine digits, how many
    of the nine were present, and the rest. *)
Fixpoint frac_digits (s : string) (n : nat) (acc : Z) : Z * nat * string :=
  match s with
  | String a s' =>
      if is_digit a then
        if (n <? 9)%nat then frac_digits s' (S n) (acc * 10 + digit_val a)
        else frac_digits s' n acc
      else (acc, n, s)
  | EmptyString => (acc, n, s)
  end.

Definition get_frac (s : string) : Z * string :=
  match s with
  | String p (String a _ as s') =>
      if comma_or_period p && is_digit a then
        let '(v, n, rest) := frac_digits s' 0 0 in
        (v * 10 ^ (9 - Z.of_nat n), rest)
      else (0, s)
  | _ => (0, s)
  end.

(** The zone: "Z" or a signed hh:mm offset; the result is in seconds. *)
Definition get_zone (s : string) : option (Z * string) :=
  match s with
  | String c s' =>
      if Ascii.eqb c "Z" then Some (0, s') else
      match getnum s' true with
      | Some (hh, s1) =>
          match skip ":" s1 with
          | Some s2 =>
              match getnum s2 true with
              | Some (mm, s3) =>
                  if (hh <=? 24) && (mm <=? 60) then
                    if Ascii.eqb c "+" then Some ((hh * 60 + mm) * 60, s3)
                    else if Ascii.eqb c "-" then Some (- ((hh * 60 + mm) * 60), s3)
                    else None
                  else None
              | None => None
              end
          | None => None
          end
      | None => None
      end
  | EmptyString => None
  end.

Notation "'opt' x <- m ; k" := (match m with Some x => k | None => None end)
  (at level 10, x pattern, m at level 100, k at level 200).

Definition time_parse (s : string) : option instant :=
  opt (y, s) <- get_year s; opt s <- skip "-" s;
  opt (mo, s) <- getnum s true; opt s <- skip "-" s;
  opt (d, s) <- getnum s true; opt s <- skip "T" s;
  opt (h, s) <- getnum s false; opt s <- skip ":" s;
  opt (mi, s) <- getnum s true; opt s <- skip ":" s;
  opt (sec, s) <- getnum s true;
  let '(ns, s) := get_frac s in
  opt (off, s) <- get_zone s;
  match s with
  | EmptyString =>
      if (1 <=? mo) && (mo <=? 12) && (h <? 24) && (mi <? 60) && (sec <? 60)
         && (1 <=? d) && (d <=? days_in (is_leap y) mo)
      then Some (instant_of (Civil y mo d h mi sec ns) - off * second)
      else None
  | _ => None
  end.

(** ** The calendar is a bijection *)

Lemma div_round_up y k :
  0 < k → (y + (k - 1)) / k = y / k + (if y mod k =? 0 then 0 else 1).
Proof.
  intros Hk. pose proof (Z.div_mod y k ltac:(lia)). pose proof (Z.mod_pos_bound y k Hk).
  destruct (Z.eqb_spec (y mod k) 0);
    symmetry; [apply (Z.div_unique _ _ _ (k - 1))|apply (Z.div_unique _ _ _ (y mod k - 1))]; nia.
Qed.

Lemma days_before_year_succ y :
  days_before_year (y + 1) = days_before_year y + (if is_leap y then 366 else 365).
Proof.
  unfold days_before_year, is_leap.
  replace ((y + 1 + 3) / 4) with (y / 4 + 1) by lia.
  replace ((y + 1 + 99) / 100) with (y / 100 + 1) by lia.
  replace ((y + 1 + 399) / 400) with (y / 400 + 1) by lia.
  pose proof (div_round_up y 4 ltac:(lia)) as H4.
  pose proof (div_round_up y 100 ltac:(lia)) as H100.
  pose proof (div_round_up y 400 ltac:(lia)) as H400.
  change (4 - 1) with 3 in H4. change (100 - 1) with 99 in H100.
  change (400 - 1) with 399 in H400.
  rewrite H4, H100, H400. clear H4 H100 H400.
  destruct (Z.eqb_spec (y mod 4) 0), (Z.eqb_spec (y mod 100) 0), (Z.eqb_spec (y mod 400) 0);
    simpl; lia.
Qed.

Lemma days_before_year_mono y1 y2 : y1 ≤ y2 → days_before_year y1 ≤ days_before_year y2.
Proof. unfold days_before_year. lia. Qed.

Lemma year_of_days_spec d :
  days_before_year (year_of_days d) ≤ d < days_before_year (year_of_days d + 1).
Proof.
  unfold year_of_days. set (y := 400 * d / 146097).
  assert (146097 * y ≤ 400 * d < 146097 * y + 146097) by (subst y; lia).
  clearbody y.
  destruct (Z.ltb_spec d (days_before_year y)) as [Hlt|Hge].
  { replace (y - 1 + 1) with y by lia. split; [|done]. unfold days_before_year in *. lia. }
  destruct (Z.leb_spec (days_before_year (y + 1)) d); [|lia].
  split; [done|]. unfold days_before_year in *. lia.
Qed.

Ltac month_cases m :=
  assert (m = 1 ∨ m = 2 ∨ m = 3 ∨ m = 4 ∨ m = 5 ∨ m = 6 ∨ m = 7 ∨ m = 8 ∨ m = 9 ∨
          m = 10 ∨ m = 11 ∨ m = 12)
    as [->|[->|[->|[->|[->|[->|[->|[->|[->|[->|[->| ->]]]]]]]]]]] by lia.

Lemma month_search_spec leap yd fuel m :
  1 ≤ m → m + Z.of_nat fuel = 12 →
  days_before_month leap m ≤ yd < days_before_month leap 13 →
  1 ≤ month_search leap yd fuel m ≤ 12 ∧
  days_before_month leap (month_search leap yd fuel m) ≤ yd <
    days_before_month leap (month_search leap yd fuel m + 1).
Proof.
  revert m. induction fuel as [|fuel IH]; intros m Hm Hf Hle.
  - simpl. assert (m = 12) as -> by lia. done.
  - cbn -[days_before_month]. destruct (Z.ltb_spec yd (days_before_month leap (m + 1))).
    + lia.
    + apply IH; lia.
Qed.

Lemma days_before_month_13 leap :
  days_before_month leap 13 = if leap then 366 else 365.
Proof. by destruct leap. Qed.

Lemma month_of_spec (leap : bool) yd :
  0 ≤ yd < (if leap then 366 else 365) →
  1 ≤ month_of leap yd ≤ 12 ∧
  days_before_month leap (month_of leap yd) ≤ yd < days_before_month leap (month_of leap yd + 1).
Proof.
  intros Hyd. apply month_search_spec; [lia..|]. by rewrite days_before_month_13.
Qed.

Lemma days_before_month_mono leap m1 m2 :
  1 ≤ m1 → m1 < m2 → m2 ≤ 12 → days_before_month leap (m1 + 1) ≤ days_before_month leap m2.
Proof.
  intros H1 H2 H3. month_cases m1; month_cases m2; try lia;
    destruct leap; unfold days_before_month; simpl; lia.
Qed.

Lemma day_in_year c :
  civil_valid c →
  days_before_year (c_year c) ≤ civil_days c < days_before_year (c_year c + 1).
Proof.
  intros (Hm & Hd & _). unfold civil_days, days_in in *. rewrite days_before_year_succ.
  set (leap := is_leap (c_year c)) in *. clearbody leap.
  pose proof (days_before_month_13 leap) as H13.
  assert (0 ≤ days_before_month leap (c_month c)) by
    (month_cases (c_month c); destruct leap; unfold days_before_month; simpl; lia).
  assert (days_before_month leap (c_month c + 1) ≤ days_before_month leap 13).
  { month_cases (c_month c); destruct leap; unfold days_before_month; simpl; lia. }
  lia.
Qed.

Lemma civil_of_valid t : civil_valid (civil_of t).
Proof.
  unfold civil_of. set (d := t / second / 86400 + epoch_days).
  pose proof (year_of_days_spec d) as Hy. rewrite days_before_year_succ in Hy.
  set (y := year_of_days d) in *. set (yd := d - days_before_year y).
  destruct (month_of_spec (is_leap y) yd) as [Hm Hmd]; [subst yd; lia|].
  unfold civil_valid, days_in, second; simpl. repeat split; lia.
Qed.

Lemma civil_days_of t : civil_days (civil_of t) = t / second / 86400 + epoch_days.
Proof. unfold civil_days, civil_of; simpl. lia. Qed.

Theorem instant_of_civil_of t : instant_of (civil_of t) = t.
Proof.
  unfold instant_of. rewrite civil_days_of. unfold civil_of; simpl. unfold second. lia.
Qed.

(** Lexicographic order on calendar fields. *)
Definition lex (a b : comparison) : comparison := match a with Eq => b | _ => a end.

Definition civil_compare (c1 c2 : civil) : comparison :=
  lex (c_year c1 ?= c_year c2) $ lex (c_month c1 ?= c_month c2) $
  lex (c_day c1 ?= c_day c2) $ lex (c_hour c1 ?= c_hour c2) $
  lex (c_min c1 ?= c_min c2) $ lex (c_sec c1 ?= c_sec c2) (c_nsec c1 ?= c_nsec c2).

Ltac lex_step :=
  match goal with
  | |- lex (?x ?= ?y) _ = _ => destruct (Z.compare_spec x y); simpl lex
  end.

Lemma civil_days_compare c1 c2 :
  civil_valid c1 → civil_valid c2 →
  lex (c_year c1 ?= c_year c2) (lex (c_month c1 ?= c_month c2) (c_day c1 ?= c_day c2)) =
  (civil_days c1 ?= civil_days c2).
Proof.
  intros H1 H2. pose proof (day_in_year _ H1). pose proof (day_in_year _ H2).
  destruct H1 as (? & ? & _), H2 as (? & ? & _). unfold days_in in *.
  lex_step.
  - lex_step.
    + unfold civil_days in *. rewrite H5, H6 in *.
      destruct (Z.compare_spec (c_day c1) (c_day c2)); symmetry;
        [apply Z.compare_eq_iff|apply Z.compare_lt_iff|apply Z.compare_gt_iff]; lia.
    + symmetry. apply Z.compare_lt_iff. unfold civil_days in *. rewrite H5 in *.
      pose proof (days_before_month_mono (is_leap (c_year c2)) (c_month c1) (c_month c2)). lia.
    + symmetry. apply Z.compare_gt_iff. unfold civil_days in *. rewrite H5 in *.
      pose proof (days_before_month_mono (is_leap (c_year c2)) (c_month c2) (c_month c1)). lia.
  - symmetry. apply Z.compare_lt_iff.
    pose proof (days_before_year_mono (c_year c1 + 1) (c_year c2)). lia.
  - symmetry. apply Z.compare_gt_iff.
    pose proof (days_before_year_mono (c_year c2 + 1) (c_year c1)). lia.
Qed.

Lemma lex_assoc a b c : lex (lex a b) c = lex a (lex b c).
Proof. by destruct a, b. Qed.

Theorem civil_compare_instant c1 c2 :
  civil_valid c1 → civil_valid c2 →
  civil_compare c1 c2 = (instant_of c1 ?= instant_of c2).
Proof.
  intros H1 H2. unfold civil_compare. rewrite <- !lex_assoc, (lex_assoc (c_year c1 ?= c_year c2)).
  rewrite civil_days_compare, !lex_assoc by done.
  destruct H1 as (_ & _ & ?), H2 as (_ & _ & ?). unfold instant_of, second in *.
  repeat lex_step;
    repeat match goal with |- (?x ?= ?y) = _ => destruct (Z.compare_spec x y) end; symmetry;
    first [apply Z.compare_eq_iff; lia|apply Z.compare_lt_iff; lia|apply Z.compare_gt_iff; lia].
Qed.

(** ** Text order is time order

    Years 0 to 9999 are written with four digits, so every formatted value has
    the same width. *)

Definition ts_in_range (t : instant) : Prop := 0 ≤ c_year (civil_of t) ≤ 9999.

#[export] Instance ts_in_range_dec t : Decision (ts_in_range t).
Proof. unfold ts_in_range. apply _. Defined.

Definition civil_text (c : civil) : string :=
  pad 4 (c_year c) +:+ "-" +:+ pad 2 (c_month c) +:+ "-" +:+ pad 2 (c_day c) +:+ "T" +:+
  pad 2 (c_hour c) +:+ ":" +:+ pad 2 (c_min c) +:+ ":" +:+ pad 2 (c_sec c) +:+ "." +:+
  pad 9 (c_nsec c) +:+ "Z".

Lemma append_int_pad x w : 0 ≤ x < 10 ^ Z.of_nat w → append_int x w = pad w x.
Proof.
  intros H. unfold append_int. rewrite Z.abs_eq by lia.
  destruct (Z.ltb_spec x 0); [lia|]. destruct (Z.ltb_spec x (10 ^ Z.of_nat w)); [done|lia].
Qed.

Lemma days_in_le leap m : 1 ≤ m ≤ 12 → days_in leap m ≤ 31.
Proof.
  intros H. unfold days_in.
  month_cases m; destruct leap; unfold days_before_month; simpl; lia.
Qed.

Lemma civil_widths c :
  civil_valid c → 0 ≤ c_year c ≤ 9999 →
  0 ≤ c_year c < 10 ^ Z.of_nat 4 ∧ 0 ≤ c_month c < 10 ^ Z.of_nat 2 ∧
  0 ≤ c_day c < 10 ^ Z.of_nat 2 ∧ 0 ≤ c_hour c < 10 ^ Z.of_nat 2 ∧
  0 ≤ c_min c < 10 ^ Z.of_nat 2 ∧ 0 ≤ c_sec c < 10 ^ Z.of_nat 2 ∧
  0 ≤ c_nsec c < 10 ^ Z.of_nat 9.
Proof.
  intros (Hm & Hd & ?) Hy. pose proof (days_in_le (is_leap (c_year c)) _ Hm).
  unfold second in *. simpl. lia.
Qed.

Lemma formatTS_civil_text t : ts_in_range t → formatTS t = civil_text (civil_of t).
Proof.
  intros Hr. destruct (civil_widths _ (civil_of_valid t) Hr) as (?&?&?&?&?&?&?).
  unfold formatTS, civil_text. by rewrite !append_int_pad.
Qed.

Lemma civil_text_length c : String.length (civil_text c) = 30%nat.
Proof. unfold civil_text. rewrite !string_length_app, !pad_length. done. Qed.

Lemma compare_pad_app w x y r1 r2 :
  0 ≤ x < 10 ^ Z.of_nat w → 0 ≤ y < 10 ^ Z.of_nat w →
  String.compare (pad w x +:+ r1) (pad w y +:+ r2) = lex (x ?= y) (String.compare r1 r2).
Proof.
  intros Hx Hy. rewrite string_compare_app by (by rewrite !pad_length).
  rewrite pad_compare_small by done. by destruct (x ?= y).
Qed.

Lemma compare_same_prefix p r1 r2 :
  String.compare (p +:+ r1) (p +:+ r2) = String.compare r1 r2.
Proof. rewrite string_compare_app by done. by rewrite string_compare_refl. Qed.

Lemma civil_text_compare c1 c2 :
  civil_valid c1 → civil_valid c2 → 0 ≤ c_year c1 ≤ 9999 → 0 ≤ c_year c2 ≤ 9999 →
  String.compare (civil_text c1) (civil_text c2) = civil_compare c1 c2.
Proof.
  intros H1 H2 Hy1 Hy2. destruct (civil_widths c1 H1 Hy1) as (?&?&?&?&?&?&?).
  destruct (civil_widths c2 H2 Hy2) as (?&?&?&?&?&?&?). clear H1 H2 Hy1 Hy2.
  unfold civil_text, civil_compare.
  do 6 (rewrite compare_pad_app by done; rewrite compare_same_prefix).
  rewrite compare_pad_app by done. by destruct (c_nsec c1 ?= c_nsec c2).
Qed.

Lemma formatTS_compare t1 t2 :
  ts_in_range t1 → ts_in_range t2 →
  String.compare (formatTS t1) (formatTS t2) = (t1 ?= t2).
Proof.
  intros H1 H2. rewrite !formatTS_civil_text by done.
  rewrite civil_text_compare by (done || apply civil_of_valid).
  rewrite civil_compare_instant by apply civil_of_valid. by rewrite !instant_of_civil_of.
Qed.

Lemma formatTS_ltb t1 t2 :
  ts_in_range t1 → ts_in_range t2 → text_ltb (formatTS t1) (formatTS t2) = (t1 <? t2).
Proof.
  intros H1 H2. unfold text_ltb, String.ltb, Z.ltb. by rewrite formatTS_compare.
Qed.

Lemma formatTS_leb t1 t2 :
  ts_in_range t1 → ts_in_range t2 → text_leb (formatTS t1) (formatTS t2) = (t1 <=? t2).
Proof.
  intros H1 H2. unfold text_leb, String.leb, Z.leb. by rewrite formatTS_compare.
Qed.

(** The range has no gaps. *)
Lemma ts_in_range_between lo hi t : ts_in_range lo → ts_in_range hi → lo ≤ t ≤ hi → ts_in_range t.
Proof.
  assert (∀ t1 t2, t1 ≤ t2 → c_year (civil_of t1) ≤ c_year (civil_of t2)) as Hmono.
  { intros t1 t2 Ht. unfold civil_of. cbn [c_year].
    assert (t1 / second / 86400 ≤ t2 / second / 86400) as Hd by (repeat apply Z.div_le_mono; done).
    pose proof (year_of_days_spec (t1 / second / 86400 + epoch_days)) as H1.
    pose proof (year_of_days_spec (t2 / second / 86400 + epoch_days)) as H2.
    set (y1 := year_of_days _) in H1 |- *. set (y2 := year_of_days _) in H2 |- *.
    destruct (Z.le_gt_cases y1 y2) as [|Hlt]; [done|].
    pose proof (days_before_year_mono (y2 + 1) y1 ltac:(lia)). lia. }
  unfold ts_in_range. intros Hlo Hhi [H1 H2]. apply Hmono in H1, H2. lia.
Qed.

(** ** Parsing what was formatted *)

Lemma pad2_app x s :
  pad 2 x +:+ s = String (digit (x / 10 mod 10)) (String (digit (x mod 10)) s).
Proof. cbn [pad]. rewrite !string_app_cons. simpl. by rewrite Z.div_1_r. Qed.

Lemma getnum_pad2 x s fixed : 0 ≤ x < 100 → getnum (pad 2 x +:+ s) fixed = Some (x, s).
Proof.
  intros Hx. rewrite pad2_app. unfold getnum.
  rewrite !is_digit_digit, !digit_val_digit by (apply mod10_range). simpl.
  do 2 f_equal. lia.
Qed.

Lemma get_year_pad4 y s : 0 ≤ y ≤ 9999 → get_year (pad 4 y +:+ s) = Some (y, s).
Proof.
  intros Hy. cbn [pad]. rewrite !string_app_cons, string_app_nil_l. unfold get_year.
  rewrite !is_digit_digit, !digit_val_digit by (apply mod10_range). simpl.
  do 2 f_equal. change (Z.pow_pos 10 3) with 1000. change (Z.pow_pos 10 2) with 100.
  change (Z.pow_pos 10 1) with 10. lia.
Qed.

Lemma skip_app c s : skip c (String c "" +:+ s) = Some s.
Proof. rewrite string_app_cons. simpl. by rewrite Ascii.eqb_refl. Qed.

Lemma frac_digits_pad w x n acc s :
  (n + w ≤ 9)%nat → (∀ a s', s = String a s' → is_digit a = false) →
  frac_digits (pad w x +:+ s) n acc =
    (acc * 10 ^ Z.of_nat w + x mod 10 ^ Z.of_nat w, (n + w)%nat, s).
Proof.
  intros Hn Hs. revert n acc Hn. induction w as [|w IH]; intros n acc Hn.
  - simpl. rewrite string_app_nil_l, Z.mod_1_r, Nat.add_0_r, Z.mul_1_r, Z.add_0_r.
    destruct s as [|a s]; simpl; [done|]. by rewrite (Hs a s).
  - cbn [pad]. rewrite string_app_cons. cbn [frac_digits].
    rewrite is_digit_digit, digit_val_digit by apply mod10_range.
    destruct (Nat.ltb_spec n 9); [|lia]. rewrite IH by lia. rewrite mod_pow_succ.
    rewrite Nat2Z.inj_succ, Z.pow_succ_r by lia. do 2 f_equal; [ring|lia].
Qed.

Lemma get_frac_pad9 x s :
  0 ≤ x < second → (∀ a s', s = String a s' → is_digit a = false) →
  get_frac ("." +:+ pad 9 x +:+ s) = (x, s).
Proof.
  intros Hx Hs. rewrite string_app_cons, string_app_nil_l.
  pose proof (frac_digits_pad 9 x 0 0 s ltac:(lia) Hs) as Hf.
  cbn [pad] in *. rewrite string_app_cons in *. cbn [get_frac].
  rewrite is_digit_digit by apply mod10_range. cbn [comma_or_period andb orb Ascii.eqb].
  rewrite Hf. simpl. rewrite Z.mul_1_r. change (Z.pow_pos 10 9) with second.
  by rewrite Z.mod_small.
Qed.

Lemma time_parse_civil_text c :
  civil_valid c → 0 ≤ c_year c ≤ 9999 → time_parse (civil_text c) = Some (instant_of c).
Proof.
  intros (Hm & Hd & Hh & Hmi & Hs & Hns) Hy.
  pose proof (days_in_le (is_leap (c_year c)) _ Hm). unfold time_parse, civil_text.
  rewrite get_year_pad4 by done. rewrite skip_app, getnum_pad2 by lia.
  rewrite skip_app, getnum_pad2 by lia. rewrite skip_app, getnum_pad2 by lia.
  rewrite skip_app, getnum_pad2 by lia. rewrite skip_app, getnum_pad2 by lia.
  rewrite get_frac_pad9; [|done|by intros a s' [= <- _]]. cbn [get_zone Ascii.eqb].
  simpl get_zone.
  replace (_ && _) with true; [destruct c; f_equal; apply Z.sub_0_r|].
  symmetry. rewrite !andb_true_iff, !Z.leb_le, !Z.ltb_lt. lia.
Qed.

Lemma time_parse_formatTS t : ts_in_range t → time_parse (formatTS t) = Some t.
Proof.
  intros Hr. rewrite formatTS_civil_text by done.
  rewrite time_parse_civil_text by (apply civil_of_valid || done).
  by rewrite instant_of_civil_of.
Qed.
