(* ===== verification/Errors.v ===== *)
(** * Errors: the error values of the program

    Go errors as data: the sentinels the packages export and test with
    [errors.Is], the typed errors they test with [errors.As], and the
    [fmt.Errorf("...%w...")] chains built around them. *)

From S2P Require Import Prelude.

(** The reasons of a Kubernetes [StatusError] the worker distinguishes
    ([apierrors.IsXxx]); [ApiOther] covers conflicts, timeouts, 5xx and the
    like, and transport failures that carry no status at all. *)
Inductive api_reason :=
| ApiNotFound | ApiAlreadyExists | ApiInvalid | ApiBadRequest | ApiForbidden
| ApiUnauthorized | ApiMethodNotSupported | ApiNotAcceptable
| ApiUnsupportedMediaType | ApiRequestEntityTooLarge | ApiTooManyRequests
| ApiOther.

Inductive error :=
(* pkg/work sentinels *)
| ErrNotFound
| ErrNoAvailableJob
| ErrValidationRequestConflict
| ErrExecutionSuperseded
| ErrDeliveryFenced
(* pkg/worker sentinels *)
| ErrLeaseLost
| ErrLegacyRetireSuperseded
(* context *)
| CtxCanceled
| CtxDeadlineExceeded
(* typed errors *)
| SubmitError (StatusCode : Z) (Body : string)
| ApiError (reason : api_reason) (msg : string)
(* errors.New, driver and decoding errors *)
| ErrText (msg : string)
(* fmt.Errorf with one %w between two texts *)
| Wrapf (before : string) (e : error) (after : string).

#[export] Instance api_reason_eq_dec : EqDecision api_reason.
Proof. solve_decision. Defined.
#[export] Instance error_eq_dec : EqDecision error.
Proof. solve_decision. Defined.

(** [fmt.Errorf("msg: %w", e)]. *)
Definition wrap_err (msg : string) (e : error) : error := Wrapf (msg +:+ ": ") e "".

(** [errors.Is] against a sentinel. *)
Fixpoint errors_is (e target : error) : bool :=
  bool_decide (e = target) ||
  match e with
  | Wrapf _ e' _ => errors_is e' target
  | _ => false
  end.

(** [errors.As] into a SubmitError pointer: the status code of the first
    submit error of the chain. *)
Fixpoint errors_as_submit (e : error) : option Z :=
  match e with
  | SubmitError c _ => Some c
  | Wrapf _ e' _ => errors_as_submit e'
  | _ => None
  end.

(** [apierrors.ReasonForError], which looks through wrapping too. *)
Fixpoint api_reason_of (e : error) : option api_reason :=
  match e with
  | ApiError r _ => Some r
  | Wrapf _ e' _ => api_reason_of e'
  | _ => None
  end.

Definition is_api (r : api_reason) (e : error) : bool := bool_decide (api_reason_of e = Some r).

(** [err.Error()]. *)
Fixpoint error_text (e : error) : string :=
  match e with
  | ErrNotFound => "workstore: job not found"
  | ErrNoAvailableJob => "workstore: no available job"
  | ErrValidationRequestConflict =>
      "workstore: validation_request_id already used with a different request"
  | ErrExecutionSuperseded => "workstore: execution identity superseded"
  | ErrDeliveryFenced => "workstore: delivery write fenced: caller does not own this delivery"
  | ErrLeaseLost => "lease lost: the job was re-leased by another attempt"
  | ErrLegacyRetireSuperseded => "execution identity minted by another worker"
  | CtxCanceled => "context canceled"
  | CtxDeadlineExceeded => "context deadline exceeded"
  | SubmitError c b => "HTTP " +:+ pretty c +:+ ": " +:+ b
  | ApiError _ m => m
  | ErrText m => m
  | Wrapf b e' a => b +:+ error_text e' +:+ a
  end.

Lemma errors_is_refl e : errors_is e e = true.
Proof.
  assert (bool_decide (e = e) = true) as He by by apply bool_decide_eq_true_2.
  destruct e; cbn [errors_is]; by rewrite He.
Qed.

Lemma errors_is_wrap b e a t : errors_is e t = true → errors_is (Wrapf b e a) t = true.
Proof. intros H. cbn [errors_is]. rewrite H. apply orb_true_r. Qed.
