(* ===== verification/Work.v ===== *)
(** * Work: the data of pkg/work

    The job request, the job, their enumerations, as declared in
    [pkg/work/store.go]. *)

From S2P Require Import Prelude.

Inductive Status :=
| StatusQueued | StatusLeased | StatusRunning | StatusSucceeded | StatusFailed.

Definition Status_text (s : Status) : string :=
  match s with
  | StatusQueued => "queued"
  | StatusLeased => "leased"
  | StatusRunning => "running"
  | StatusSucceeded => "succeeded"
  | StatusFailed => "failed"
  end.

(** [Action] is a string type: callers may send any value. *)
Abbreviation Action := string (only parsing).

Definition ActionSmokeRun : Action := "smoke_run".
Definition ActionProfile : Action := "profile".
Definition ActionSecurityScan : Action := "security_scan".

Record JobRequest := {
  req_JobID : string;
  req_ArtifactKind : string;
  req_ImageRepository : string;
  req_ImageDigest : string;
  req_StableRef : string;
  req_ToolName : string;
  req_Version : string;
  req_CasHash : string;
  req_RequestedActions : list Action;
  req_RequestedFixtureSet : string;
  req_ValidationRequestID : string;
}.

Inductive DeliveryStatus :=
| DeliveryNotApplicable | DeliveryPending | DeliveryDelivering
| DeliveryAcknowledged | DeliveryDeadLetter.

#[export] Instance Status_eq_dec : EqDecision Status.
Proof. solve_decision. Defined.
#[export] Instance DeliveryStatus_eq_dec : EqDecision DeliveryStatus.
Proof. solve_decision. Defined.

(** The statuses of a job a worker currently holds. *)
Definition status_held (s : Status) : bool :=
  match s with StatusLeased | StatusRunning => true | _ => false end.

(** Instants are nanoseconds since the Unix epoch; a nil time is [None]. *)
Record Job := {
  JobID : string;
  ArtifactKind : string;
  ImageRepository : string;
  ImageDigest : string;
  StableRef : string;
  ToolName : string;
  Version : string;
  CasHash : string;
  RequestedActions : list Action;
  RequestedFixtureSet : string;
  ValidationRequestID : string;
  JobStatus : Status;
  Attempt : Z;
  LeaseOwner : string;
  LeaseUntil : option Z;
  LastError : string;
  ResultSummary : string;
  CreatedAt : Z;
  UpdatedAt : Z;
  ResultDeliveryStatus : DeliveryStatus;
  ResultDeliveryPayload : string;
  ResultDeliveryAttempts : Z;
  ResultDeliveryLastError : string;
  NextAttemptAt : option Z;
  ResultDeliveryClaimToken : string;
  TerminalSubmitted : bool;
  ExecutionID : string;
  ExecutionTerminal : bool;
  RetryNotBefore : option Z;
}.
