(* ===== verification/Db.v ===== *)
(** * Db: the jobs table and the statements run on it

    The schema of [pkg/work/sqlite/store.go] and the part of SQLite and
    [database/sql] the store relies on: single statements, transactions that
    roll back as a whole, ORDER BY, and failures of any statement. *)

From S2P Require Import Prelude Errors Work.

(** ** The jobs table

    One record field per column, grouped by what writes them. Timestamp columns
    hold text ([formatTS]); [retry_not_before] is an INTEGER. *)

(** Written by CreateJob and never updated (apart from the created_at
    rewrite of normalizeTimestamps). *)
Record ident_cols := Ident {
  job_id : string;
  artifact_kind : string;
  image_repository : string;
  image_digest : string;
  stable_ref : string;
  tool_name : string;
  version : string;
  cas_hash : string;
  requested_actions : string;
  requested_fixture_set : string;
  validation_request_id : option string;
  request_fingerprint : string;
  created_at : string;
}.

Record lease_cols := Lease {
  status : Status;
  attempt : Z;
  lease_owner : string;
  lease_until : option string;
  retry_not_before : option Z;
  last_error : string;
  result_summary : string;
}.

Record delivery_cols := Delivery {
  result_delivery_status : DeliveryStatus;
  result_delivery_payload : string;
  result_delivery_attempts : Z;
  result_delivery_last_error : string;
  next_attempt_at : option string;
  result_delivery_claimed_until : option string;
  result_delivery_claim_token : string;
}.

Record terminal_cols := Terminal {
  terminal_submitted : bool;
  terminal_owner : string;
  terminal_attempt : Z;
}.

Record exec_cols := Exec {
  execution_id : string;
  execution_terminal : bool;
}.

Record row := Row {
  r_ident : ident_cols;
  r_lease : lease_cols;
  r_delivery : delivery_cols;
  r_terminal : terminal_cols;
  r_exec : exec_cols;
  updated_at : string;
}.

#[export] Instance ident_cols_eq_dec : EqDecision ident_cols.
Proof. solve_decision. Defined.
#[export] Instance lease_cols_eq_dec : EqDecision lease_cols.
Proof. solve_decision. Defined.
#[export] Instance delivery_cols_eq_dec : EqDecision delivery_cols.
Proof. solve_decision. Defined.
#[export] Instance terminal_cols_eq_dec : EqDecision terminal_cols.
Proof. solve_decision. Defined.
#[export] Instance exec_cols_eq_dec : EqDecision exec_cols.
Proof. solve_decision. Defined.
#[export] Instance row_eq_dec : EqDecision row.
Proof. solve_decision. Defined.

(** SET clauses: every UPDATE also sets updated_at. *)
Definition set_lease (f : lease_cols → lease_cols) (ts : string) (r : row) : row :=
  Row (r_ident r) (f (r_lease r)) (r_delivery r) (r_terminal r) (r_exec r) ts.
Definition set_delivery (f : delivery_cols → delivery_cols) (ts : string) (r : row) : row :=
  Row (r_ident r) (r_lease r) (f (r_delivery r)) (r_terminal r) (r_exec r) ts.
Definition set_terminal (f : terminal_cols → terminal_cols) (ts : string) (r : row) : row :=
  Row (r_ident r) (r_lease r) (r_delivery r) (f (r_terminal r)) (r_exec r) ts.
Definition set_exec (f : exec_cols → exec_cols) (ts : string) (r : row) : row :=
  Row (r_ident r) (r_lease r) (r_delivery r) (r_terminal r) (f (r_exec r)) ts.

(** ** The database handle

    [faults] scripts the outcome of the coming statements ([None]: the
    statement runs; [Some e]: it fails with [e] and has no effect); when it is
    used up, statements run. [rng] scripts the values crypto/rand returns. *)
Record db := Db {
  jobs : gmap string row;
  store_meta : gmap string string;
  faults : list (option error);
  rng : list (option N);
}.

Definition set_jobs (t : gmap string row) (d : db) : db :=
  Db t (store_meta d) (faults d) (rng d).
Definition set_meta (t : gmap string string) (d : db) : db :=
  Db (jobs d) t (faults d) (rng d).

(** ** Store computations: state, error, fault script *)

Definition M (A : Type) : Type := db → res error A * db.

#[export] Instance M_ret : MRet M := λ A a d, (Ok a, d).
#[export] Instance M_bind : MBind M := λ A B f m d,
  match m d with
  | (Ok a, d') => f a d'
  | (Err e, d') => (Err e, d')
  end.

Definition throw {A} (e : error) : M A := λ d, (Err e, d).

(** [if err != nil { return fmt.Errorf("msg: %w", err) }]. *)
Definition wrap {A} (msg : string) (m : M A) : M A := λ d,
  match m d with
  | (Ok a, d') => (Ok a, d')
  | (Err e, d') => (Err (wrap_err msg e), d')
  end.

Definition lift {A} (r : res error A) : M A := λ d, (r, d).

(** One statement: it consumes one entry of the fault script. *)
Definition stmt {A} (run : db → A * db) : M A := λ d,
  match faults d with
  | Some e :: fs => (Err e, Db (jobs d) (store_meta d) fs (rng d))
  | None :: fs => let '(a, d') := run (Db (jobs d) (store_meta d) fs (rng d)) in (Ok a, d')
  | [] => let '(a, d') := run d in (Ok a, d')
  end.

(** [UPDATE jobs SET f WHERE job_id = id AND p]; the result is RowsAffected
    ([job_id] is the primary key, so at most one row). *)
Definition sql_update (id : string) (p : row → bool) (f : row → row) : M Z :=
  stmt (λ d, match jobs d !! id with
             | Some r => if p r then (1, set_jobs (<[id := f r]> (jobs d)) d) else (0, d)
             | None => (0, d)
             end).

(** [SELECT ... FROM jobs WHERE job_id = id]. *)
Definition sql_get (id : string) : M (option row) := stmt (λ d, (jobs d !! id, d)).

(** Result order of [ORDER BY key ASC]: SQLite sorts by the key and leaves
    ties in an order of its own choosing. *)
Class SqlOrder := {
  sql_order_by : (row → string) → list row → list row;
  sql_order_perm key l : sql_order_by key l ≡ₚ l;
  sql_order_sorted key l :
    StronglySorted (λ a b, text_leb (key a) (key b) = true) (sql_order_by key l);
}.

Definition table_rows (t : gmap string row) : list row := (map_to_list t).*2.

(** [SELECT ... WHERE p ORDER BY key ASC LIMIT n]; a negative LIMIT is none. *)
Definition sql_limit (n : Z) (l : list row) : list row :=
  if n <? 0 then l else take (Z.to_nat n) l.

Definition select_rows `{SqlOrder} (p : row → bool) (key : row → string)
    (n : Z) (t : gmap string row) : list row :=
  sql_limit n (sql_order_by key (filter (λ r, p r = true) (table_rows t))).

Definition sql_select `{SqlOrder} (p : row → bool) (key : row → string) (n : Z) : M (list row) :=
  stmt (λ d, (select_rows p key n (jobs d), d)).

(** BEGIN IMMEDIATE ... COMMIT. The pool has one connection, so no other
    statement runs in between. Any error, a failed COMMIT included, restores
    the tables as they were at BEGIN. *)
Definition in_tx {A} (begin_msg : string) (commit_msg : A → string) (body : M A) : M A := λ d,
  match wrap begin_msg (stmt (λ d, (tt, d))) d with
  | (Err e, d1) => (Err e, d1)
  | (Ok _, d1) =>
      let rollback d2 := Db (jobs d1) (store_meta d1) (faults d2) (rng d2) in
      match body d1 with
      | (Err e, d2) => (Err e, rollback d2)
      | (Ok a, d2) =>
          match wrap (commit_msg a) (stmt (λ d, (tt, d))) d2 with
          | (Err e, d3) => (Err e, rollback d3)
          | (Ok _, d3) => (Ok a, d3)
          end
      end
  end.

(** ** crypto/rand and hex *)

Definition hex_digit (n : N) : ascii :=
  if (n <? 10)%N then ascii_of_N (48 + n) else ascii_of_N (87 + n).

(** [hex.EncodeToString] of the [n] bytes whose big-endian value is [v]. *)
Fixpoint hex_encode (w : nat) (v : N) : string :=
  match w with
  | O => ""
  | S w' => String (hex_digit (v / 16 ^ N.of_nat w' mod 16)) (hex_encode w' v)
  end.

(** [rand.Read(buf[:])] for a buffer of [n] bytes, hex encoded. *)
Definition rand_hex (n : nat) : M string := λ d,
  match rng d with
  | Some v :: vs => (Ok (hex_encode (2 * n) v), Db (jobs d) (store_meta d) (faults d) vs)
  | None :: vs => (Err (ErrText "crypto/rand: read failed"), Db (jobs d) (store_meta d) (faults d) vs)
  | [] => (Err (ErrText "crypto/rand: read failed"), d)
  end.
