(* ===== verification/Fingerprint.v ===== *)
(** * Fingerprint: requestFingerprint of pkg/work/sqlite

    The digest CreateJob compares to tell a retried request from a reused
    validation_request_id. SHA-256 is computed, not assumed. *)

From S2P Require Import Prelude Work Db.

(** ** SHA-256 (FIPS 180-4) on bytes given as numbers below 256 *)

Module Sha256.

Definition w32 (x : N) : N := N.land x 4294967295.
Definition rotr (n x : N) : N := N.lor (N.shiftr x n) (w32 (N.shiftl x (32 - n))).
Definition ch (x y z : N) : N := N.lxor (N.land x y) (N.land (N.lxor x 4294967295) z).
Definition maj (x y z : N) : N := N.lxor (N.lxor (N.land x y) (N.land x z)) (N.land y z).
Definition bsig0 (x : N) : N := N.lxor (N.lxor (rotr 2 x) (rotr 13 x)) (rotr 22 x).
Definition bsig1 (x : N) : N := N.lxor (N.lxor (rotr 6 x) (rotr 11 x)) (rotr 25 x).
Definition ssig0 (x : N) : N := N.lxor (N.lxor (rotr 7 x) (rotr 18 x)) (N.shiftr x 3).
Definition ssig1 (x : N) : N := N.lxor (N.lxor (rotr 17 x) (rotr 19 x)) (N.shiftr x 10).

Definition round_constants : list N := [
  1116352408; 1899447441; 3049323471; 3921009573; 961987163; 1508970993; 2453635748;
  2870763221; 3624381080; 310598401; 607225278; 1426881987; 1925078388; 2162078206;
  2614888103; 3248222580; 3835390401; 4022224774; 264347078; 604807628; 770255983;
  1249150122; 1555081692; 1996064986; 2554220882; 2821834349; 2952996808; 3210313671;
  3336571891; 3584528711; 113926993; 338241895; 666307205; 773529912; 1294757372;
  1396182291; 1695183700; 1986661051; 2177026350; 2456956037; 2730485921; 2820302411;
  3259730800; 3345764771; 3516065817; 3600352804; 4094571909; 275423344; 430227734;
  506948616; 659060556; 883997877; 958139571; 1322822218; 1537002063; 1747873779;
  1955562222; 2024104815; 2227730452; 2361852424; 2428436474; 2756734187; 3204031479;
  3329325298]%N.

Definition initial_hash : list N := [
  1779033703; 3144134277; 1013904242; 2773480762; 1359893119; 2600822924; 528734635;
  1541459225]%N.

(** The message schedule, newest word first. *)
Fixpoint schedule (n : nat) (w : list N) : list N :=
  match n with
  | O => w
  | S n' =>
      let w' := (ssig1 (w !!! 1%nat) + (w !!! 6%nat) + ssig0 (w !!! 14%nat) + (w !!! 15%nat))%N in
      schedule n' (w32 w' :: w)
  end.

Definition round (st : list N) (kw : N * N) : list N :=
  match st with
  | [a; b; c; d; e; f; g; h] =>
      let t1 := (h + bsig1 e + ch e f g + kw.1 + kw.2)%N in
      let t2 := (bsig0 a + maj a b c)%N in
      [w32 (t1 + t2); a; b; c; w32 (d + t1); e; f; g]
  | _ => st
  end.

Definition compress (st : list N) (block : list N) : list N :=
  let w := rev (schedule 48 (rev block)) in
  let st' := fold_left round (zip round_constants w) st in
  zip_with (λ x y, w32 (x + y)) st st'.

Fixpoint words (bs : list N) : list N :=
  match bs with
  | a :: b :: c :: d :: bs' => (((a * 256 + b) * 256 + c) * 256 + d)%N :: words bs'
  | _ => []
  end.

Fixpoint blocks (n : nat) (ws : list N) (st : list N) : list N :=
  match n with
  | O => st
  | S n' => blocks n' (drop 16 ws) (compress st (take 16 ws))
  end.

Definition padding (len : nat) : list N :=
  let z := ((119 - len mod 64) mod 64)%nat in
  128%N :: replicate z 0%N ++
  ((λ i, N.land (N.shiftr (N.of_nat len * 8) (8 * i)) 255) <$> [7; 6; 5; 4; 3; 2; 1; 0]%N).

Definition sum (msg : list N) : list N :=
  let m := msg ++ padding (length msg) in
  blocks (length m / 64) (words m) initial_hash.

(** The digest in lower-case hexadecimal. *)
Definition hex_sum (msg : string) : string :=
  foldr (λ w s, hex_encode 8 w +:+ s) "" (sum (N_of_ascii <$> String.list_ascii_of_string msg)).

Example sha256_abc :
  hex_sum "abc" = "ba7816bf8f01cfea414140de5dae2223b00361a396177a9cb410ff61f20015ad".
Proof. vm_compute. reflexivity. Qed.

Example sha256_two_blocks :
  hex_sum "abcdbcdecdefdefgefghfghighijhijkijkljklmklmnlmnomnopnopq" =
  "248d6a61d20638b8e5c026930c3e6039a33ce45964ff2167f6ecedd419db06c1".
Proof. vm_compute. reflexivity. Qed.

End Sha256.

(** ** The fingerprint *)

Definition text_le (a b : string) : Prop := text_leb a b = true.
#[export] Instance text_le_dec : RelDecision text_le.
Proof. intros a b. unfold text_le. apply _. Defined.

(** [sort.Strings]. *)
Definition sort_strings (l : list string) : list string := merge_sort text_le l.

Definition fingerprint_fields (req : JobRequest) : list string :=
  [req_ArtifactKind req; req_ImageRepository req; req_ImageDigest req; req_StableRef req;
   req_ToolName req; req_Version req; req_CasHash req]
  ++ sort_strings (req_RequestedActions req) ++ [req_RequestedFixtureSet req].

(** What is written to the hash: every field followed by a zero byte. *)
Definition fingerprint_input (fields : list string) : string :=
  foldr (λ f s, f +:+ String "000" s) "" fields.

Definition requestFingerprint (req : JobRequest) : string :=
  Sha256.hex_sum (fingerprint_input (fingerprint_fields req)).

(** ** What the fingerprint distinguishes *)

Fixpoint nul_free (s : string) : bool :=
  match s with
  | EmptyString => true
  | String c s' => negb (Ascii.eqb c "000") && nul_free s'
  end.

#[export] Instance text_le_total : Total text_le.
Proof. intros a b. apply text_leb_total. Qed.

#[export] Instance text_le_trans : Transitive text_le.
Proof.
  intros a b c. unfold text_le, text_leb, String.leb. revert b c.
  induction a as [|x a IH]; intros [|y b] [|z c]; simpl; try done.
  unfold Ascii.compare.
  destruct (N.compare_spec (N_of_ascii x) (N_of_ascii y)) as [He1|H1|H1];
    destruct (N.compare_spec (N_of_ascii y) (N_of_ascii z)) as [He2|H2|H2]; try done;
    destruct (N.compare_spec (N_of_ascii x) (N_of_ascii z)); try lia; try done.
  apply IH.
Qed.

#[export] Instance text_le_antisymm : AntiSymm (=) text_le.
Proof.
  intros a b. unfold text_le, text_leb, String.leb. rewrite (String.compare_antisym a b).
  destruct (String.compare b a) eqn:E; try done. intros _ _.
  symmetry. by apply String.compare_eq_iff.
Qed.

Lemma sort_strings_perm l : sort_strings l ≡ₚ l.
Proof. apply merge_sort_Permutation. Qed.

(** Sorting gives one result per set with multiplicities. *)
Lemma sort_strings_unique l1 l2 : l1 ≡ₚ l2 → sort_strings l1 = sort_strings l2.
Proof.
  intros Hp. apply (StronglySorted_unique text_le).
  - apply StronglySorted_merge_sort; apply _.
  - apply StronglySorted_merge_sort; apply _.
  - by rewrite !sort_strings_perm.
Qed.

Lemma nul_app_inj f1 f2 s1 s2 :
  nul_free f1 = true → nul_free f2 = true →
  f1 +:+ String "000" s1 = f2 +:+ String "000" s2 → f1 = f2 ∧ s1 = s2.
Proof.
  revert f2. induction f1 as [|c f1 IH]; intros [|c2 f2] H1 H2 E; simpl in H1, H2;
    rewrite ?string_app_cons, ?string_app_nil_l in E.
  - by injection E as ->.
  - injection E as <- _. done.
  - injection E as -> _. done.
  - apply andb_true_iff in H1 as [_ H1], H2 as [_ H2]. injection E as -> E.
    by destruct (IH f2 H1 H2 E) as [-> ->].
Qed.

Lemma fingerprint_input_inj l1 l2 :
  Forall (λ f, nul_free f = true) l1 → Forall (λ f, nul_free f = true) l2 →
  fingerprint_input l1 = fingerprint_input l2 → l1 = l2.
Proof.
  intros H1 H2. revert l1 H1. induction H2 as [|f2 l2 Hf2 Hl2 IH];
    intros l1 H1 E; destruct H1 as [|f1 l1' Hf1 Hl1]; simpl in E.
  - done.
  - by destruct f1.
  - by destruct f2.
  - destruct (nul_app_inj _ _ _ _ Hf1 Hf2 E) as [-> E']. f_equal. by apply IH.
Qed.

(** The fields CreateJob treats as the identity of a request. *)
Definition same_request (r1 r2 : JobRequest) : Prop :=
  req_ArtifactKind r1 = req_ArtifactKind r2 ∧ req_ImageRepository r1 = req_ImageRepository r2 ∧
  req_ImageDigest r1 = req_ImageDigest r2 ∧ req_StableRef r1 = req_StableRef r2 ∧
  req_ToolName r1 = req_ToolName r2 ∧ req_Version r1 = req_Version r2 ∧
  req_CasHash r1 = req_CasHash r2 ∧ req_RequestedActions r1 ≡ₚ req_RequestedActions r2 ∧
  req_RequestedFixtureSet r1 = req_RequestedFixtureSet r2.

Lemma same_request_fields r1 r2 :
  same_request r1 r2 ↔ fingerprint_fields r1 = fingerprint_fields r2.
Proof.
  unfold same_request, fingerprint_fields. split.
  - intros (-> & -> & -> & -> & -> & -> & -> & Hp & ->). by rewrite (sort_strings_unique _ _ Hp).
  - intros [= ? ? ? ? ? ? ? E]. apply app_inj_tail in E as [E ?].
    repeat split; try done. by rewrite <- (sort_strings_perm (req_RequestedActions r1)), E,
      sort_strings_perm.
Qed.

Lemma same_request_fingerprint r1 r2 :
  same_request r1 r2 → requestFingerprint r1 = requestFingerprint r2.
Proof. intros H%same_request_fields. unfold requestFingerprint. by rewrite H. Qed.

Definition request_nul_free (r : JobRequest) : Prop :=
  Forall (λ f, nul_free f = true) (fingerprint_fields r).

Lemma fingerprint_input_same_request r1 r2 :
  request_nul_free r1 → request_nul_free r2 →
  fingerprint_input (fingerprint_fields r1) = fingerprint_input (fingerprint_fields r2) ↔
  same_request r1 r2.
Proof.
  intros H1 H2. rewrite same_request_fields. split; [|by intros ->].
  by apply fingerprint_input_inj.
Qed.
