(* ===== verification/Store.v ===== *)
(** * Store: the operations of the SQLite work store

    [pkg/work/sqlite/store.go], one definition per method, each statement and
    transaction in the order of the source. The clock reading [s.now()] of a
    call is its [now] argument. Definitions only; StoreStep.v relates them to
    the per-row steps, the theorem files prove properties. *)

From S2P Require Import Prelude GoTime Errors Work Db Fingerprint.

(** encoding/json on the requested_actions column. The law is only assumed of
    plain text: printable ASCII without the characters JSON or Go's HTML-safe
    encoder escapes. *)
Definition json_plain_char (c : ascii) : bool :=
  let n := N_of_ascii c in
  (32 <=? n)%N && (n <=? 126)%N &&
  negb (existsb (λ k, (n =? k)%N) [34; 38; 60; 62; 92]%N).

Fixpoint json_plain (s : string) : bool :=
  match s with
  | EmptyString => true
  | String c s' => json_plain_char c && json_plain s'
  end.

Class ActionsJson := {
  json_marshal_actions : list Action → string;
  json_unmarshal_actions : string → option (list Action);
  json_actions_roundtrip l :
    Forall (λ a, json_plain a = true) l →
    json_unmarshal_actions (json_marshal_actions l) = Some l;
}.

Section Store.
Context {SO : SqlOrder} {AJ : ActionsJson}.

(** ** Reading a row: scanJob *)

(** A nullable timestamp column: NULL and '' are nil. *)
Definition scan_time (what : string) (v : option string) : res error (option Z) :=
  match v with
  | None | Some EmptyString => Ok None
  | Some s =>
      match time_parse s with
      | Some t => Ok (Some t)
      | None => Err (wrap_err ("parse " +:+ what) (ErrText "parsing time"))
      end
  end.

Definition scan_time_required (what s : string) : res error Z :=
  match time_parse s with
  | Some t => Ok t
  | None => Err (wrap_err ("parse " +:+ what) (ErrText "parsing time"))
  end.

Definition scanJob (r : row) : res error Job :=
  let i := r_ident r in let l := r_lease r in let d := r_delivery r in
  try actions <- match json_unmarshal_actions (requested_actions i) with
                 | Some a => Ok a
                 | None => Err (wrap_err "unmarshal actions" (ErrText "invalid JSON"))
                 end;
  try created <- scan_time_required "created_at" (created_at i);
  try updated <- scan_time_required "updated_at" (updated_at r);
  try leaseUntil <- scan_time "lease_until" (lease_until l);
  try nextAttemptAt <- scan_time "next_attempt_at" (next_attempt_at d);
  Ok {| JobID := job_id i;
        ArtifactKind := artifact_kind i;
        ImageRepository := image_repository i;
        ImageDigest := image_digest i;
        StableRef := stable_ref i;
        ToolName := tool_name i;
        Version := version i;
        CasHash := cas_hash i;
        RequestedActions := actions;
        RequestedFixtureSet := requested_fixture_set i;
        ValidationRequestID := default "" (validation_request_id i);
        JobStatus := status l;
        Attempt := attempt l;
        LeaseOwner := lease_owner l;
        LeaseUntil := leaseUntil;
        LastError := last_error l;
        ResultSummary := result_summary l;
        CreatedAt := created;
        UpdatedAt := updated;
        ResultDeliveryStatus := result_delivery_status d;
        ResultDeliveryPayload := result_delivery_payload d;
        ResultDeliveryAttempts := result_delivery_attempts d;
        ResultDeliveryLastError := result_delivery_last_error d;
        NextAttemptAt := nextAttemptAt;
        ResultDeliveryClaimToken := result_delivery_claim_token d;
        TerminalSubmitted := terminal_submitted (r_terminal r);
        ExecutionID := execution_id (r_exec r);
        ExecutionTerminal := execution_terminal (r_exec r);
        RetryNotBefore := retry_not_before l |}.

Definition GetJob (jobID : string) : M Job :=
  r ← wrap "get job" (sql_get jobID);
  match r with
  | None => throw ErrNotFound
  | Some r => wrap "get job" (lift (scanJob r))
  end.

Fixpoint scan_all (rows : list row) : res error (list Job) :=
  match rows with
  | [] => Ok []
  | r :: rows =>
      try j <- scanJob r;
      try js <- scan_all rows;
      Ok (j :: js)
  end.

(** [status = ""] lists every job. *)
Definition ListJobs (st : option Status) : M (list Job) :=
  rows ← wrap "list jobs" (sql_select
    (λ r, match st with None => true | Some s => bool_decide (status (r_lease r) = s) end)
    (λ r, created_at (r_ident r)) (-1));
  wrap "scan listed job" (lift (scan_all rows)).

(** ** CreateJob *)

(** Rows the partial unique index on validation_request_id covers. *)
Definition owns_request_id (v : string) (r : row) : bool :=
  bool_decide (validation_request_id (r_ident r) = Some v ∧ v ≠ "").

(** The inserted row: named columns from the request, the others at their
    schema defaults. *)
Definition new_row (req : JobRequest) (fingerprint : string) (now : instant) : row :=
  Row (Ident (req_JobID req) (req_ArtifactKind req) (req_ImageRepository req)
         (req_ImageDigest req) (req_StableRef req) (req_ToolName req) (req_Version req)
         (req_CasHash req) (json_marshal_actions (req_RequestedActions req))
         (req_RequestedFixtureSet req)
         (if bool_decide (req_ValidationRequestID req = "") then None
          else Some (req_ValidationRequestID req))
         fingerprint (formatTS now))
      (Lease StatusQueued 0 "" None None "" "")
      (Delivery DeliveryNotApplicable "" 0 "" None None "")
      (Terminal false "" 0)
      (Exec "" false)
      (formatTS now).

(** INSERT ... ON CONFLICT(validation_request_id) DO NOTHING. The conflict
    target is checked before the primary key; a duplicate job_id is an error. *)
Definition sql_insert (r : row) : M Z := λ d,
  match stmt (λ d, (tt, d)) d with
  | (Err e, d') => (Err e, d')
  | (Ok _, d') =>
      match validation_request_id (r_ident r) with
      | Some v =>
          if existsb (owns_request_id v) (table_rows (jobs d')) then (Ok 0, d')
          else match jobs d' !! job_id (r_ident r) with
               | Some _ => (Err (ErrText "UNIQUE constraint failed: jobs.job_id"), d')
               | None => (Ok 1, set_jobs (<[job_id (r_ident r) := r]> (jobs d')) d')
               end
      | None =>
          match jobs d' !! job_id (r_ident r) with
          | Some _ => (Err (ErrText "UNIQUE constraint failed: jobs.job_id"), d')
          | None => (Ok 1, set_jobs (<[job_id (r_ident r) := r]> (jobs d')) d')
          end
      end
  end.

(** SELECT job_id, request_fingerprint WHERE validation_request_id = v. *)
Definition jobByValidationRequestID (v : string) : M (string * string) :=
  rows ← wrap "select job by validation_request_id" (stmt (λ d,
    (filter (λ r, validation_request_id (r_ident r) = Some v) (table_rows (jobs d)), d)));
  match rows with
  | [] => throw (wrap_err "select job by validation_request_id"
                   (ErrText "sql: no rows in result set"))
  | r :: _ => mret (job_id (r_ident r), request_fingerprint (r_ident r))
  end.

Definition CreateJob (req : JobRequest) (now : instant) : M Job :=
  let fingerprint := requestFingerprint req in
  rows ← wrap "create job" (sql_insert (new_row req fingerprint now));
  if bool_decide (req_ValidationRequestID req = "") then GetJob (req_JobID req)
  else if rows =? 1 then GetJob (req_JobID req)
  else
    existing ← wrap ("lookup existing job for validation_request_id " +:+
                     quoted (req_ValidationRequestID req))
                 (jobByValidationRequestID (req_ValidationRequestID req));
    if negb (bool_decide (existing.2 = fingerprint)) then throw ErrValidationRequestConflict
    else GetJob existing.1.

(** ** Leases *)

(** WHERE (status = queued AND (retry_not_before IS NULL OR <= now))
       OR (status IN (leased, running) AND (lease_until IS NULL OR < now)). *)
Definition leaseable (now : instant) (r : row) : bool :=
  let l := r_lease r in
  (bool_decide (status l = StatusQueued) &&
     match retry_not_before l with None => true | Some t => t <=? unix_nano now end)
  || (status_held (status l) &&
     match lease_until l with None => true | Some u => text_ltb u (formatTS now) end).

Definition lease_row (worker : string) (ttl : Z) (now : instant) : row → row :=
  set_lease (λ l, Lease StatusLeased (attempt l + 1) worker
                    (Some (formatTS (time_add now ttl))) None (last_error l) (result_summary l))
            (formatTS now).

Definition LeaseJob (worker : string) (ttl : Z) (now : instant) : M Job :=
  jobID ← in_tx "begin lease tx" (λ _, "commit lease tx") (
    rows ← wrap "select leaseable job"
             (sql_select (leaseable now) (λ r, created_at (r_ident r)) 1);
    match rows with
    | [] => throw ErrNoAvailableJob
    | r :: _ =>
        _ ← wrap "update leased job"
              (sql_update (job_id (r_ident r)) (λ _, true) (lease_row worker ttl now));
        mret (job_id (r_ident r))
    end);
  GetJob jobID.

(** RowsAffected() == 0 means the WHERE clause matched nothing. *)
Definition ensureAffected (rows : Z) : M unit :=
  if rows =? 0 then throw ErrNotFound else mret tt.

(** lease_owner = worker AND attempt = n. *)
Definition generation (worker : string) (n : Z) (r : row) : bool :=
  bool_decide (lease_owner (r_lease r) = worker) && (attempt (r_lease r) =? n).

Definition held_generation (worker : string) (n : Z) (r : row) : bool :=
  generation worker n r && status_held (status (r_lease r)).

Definition heartbeat_row (ttl : Z) (now : instant) : row → row :=
  set_lease (λ l, Lease StatusRunning (attempt l) (lease_owner l)
                    (Some (formatTS (time_add now ttl))) (retry_not_before l)
                    (last_error l) (result_summary l))
            (formatTS now).

Definition Heartbeat (jobID worker : string) (n : Z) (ttl : Z) (now : instant) : M unit :=
  rows ← wrap "heartbeat" (sql_update jobID (held_generation worker n) (heartbeat_row ttl now));
  ensureAffected rows.

Definition finish_row (st : Status) (lastError resultSummary : string) (now : instant) : row → row :=
  set_lease (λ l, Lease st (attempt l) "" None (retry_not_before l) lastError resultSummary)
            (formatTS now).

Definition finishJob (jobID worker : string) (n : Z) (st : Status)
    (lastError resultSummary : string) (now : instant) : M unit :=
  rows ← wrap "finish job"
           (sql_update jobID (generation worker n) (finish_row st lastError resultSummary now));
  ensureAffected rows.

Definition CompleteJob (jobID worker : string) (n : Z) (resultSummary : string)
    (now : instant) : M unit :=
  finishJob jobID worker n StatusSucceeded "" resultSummary now.

Definition requeue_row (lastError : string) (retryNotBefore : option Z) (now : instant) : row → row :=
  set_lease (λ l, Lease StatusQueued (attempt l) "" None retryNotBefore lastError
                    (result_summary l))
            (formatTS now).

(** NULL, due at once, unless the delay is positive. *)
Definition retry_due (retryDelay : Z) (now : instant) : option Z :=
  if 0 <? retryDelay then Some (unix_nano (time_add now retryDelay)) else None.

Definition FailJob (jobID worker : string) (n : Z) (lastError : string)
    (retryable : bool) (retryDelay : Z) (now : instant) : M unit :=
  if retryable then
    rows ← wrap "retryable fail"
             (sql_update jobID (held_generation worker n)
                (requeue_row lastError (retry_due retryDelay now) now));
    ensureAffected rows
  else
    rows ← wrap "fail job"
             (sql_update jobID (generation worker n) (finish_row StatusFailed lastError "" now));
    ensureAffected rows.

(** ** Result delivery *)

Definition ensureDeliveryAffected (rows : Z) : M unit :=
  if rows =? 0 then throw ErrDeliveryFenced else mret tt.

Definition firstDeliveryFence (worker : string) (n : Z) (r : row) : bool :=
  terminal_submitted (r_terminal r) && bool_decide (terminal_owner (r_terminal r) = worker) &&
  (terminal_attempt (r_terminal r) =? n) &&
  bool_decide (result_delivery_status (r_delivery r) = DeliveryNotApplicable).

Definition first_pending_row (payload lastError : string) (nextAttemptAt now : instant) : row → row :=
  set_delivery (λ d, Delivery DeliveryPending payload (result_delivery_attempts d + 1) lastError
                       (Some (formatTS nextAttemptAt)) None "")
               (formatTS now).

Definition MarkFirstDeliveryPending (jobID worker : string) (n : Z) (payload lastError : string)
    (nextAttemptAt now : instant) : M unit :=
  rows ← wrap "mark first delivery pending"
           (sql_update jobID (firstDeliveryFence worker n)
              (first_pending_row payload lastError nextAttemptAt now));
  ensureDeliveryAffected rows.

Definition first_dead_letter_row (payload lastError : string) (now : instant) : row → row :=
  set_delivery (λ d, Delivery DeliveryDeadLetter payload (result_delivery_attempts d + 1)
                       lastError None None "")
               (formatTS now).

Definition MarkFirstDeliveryDeadLetter (jobID worker : string) (n : Z)
    (payload lastError : string) (now : instant) : M unit :=
  rows ← wrap "mark first delivery dead letter"
           (sql_update jobID (firstDeliveryFence worker n)
              (first_dead_letter_row payload lastError now));
  ensureDeliveryAffected rows.

Definition redeliveryFence (claimToken : string) (r : row) : bool :=
  bool_decide (result_delivery_status (r_delivery r) = DeliveryDelivering) &&
  negb (bool_decide (result_delivery_claim_token (r_delivery r) = "")) &&
  bool_decide (result_delivery_claim_token (r_delivery r) = claimToken).

Definition redelivery_pending_row (lastError : string) (nextAttemptAt now : instant) : row → row :=
  set_delivery (λ d, Delivery DeliveryPending (result_delivery_payload d)
                       (result_delivery_attempts d + 1) lastError
                       (Some (formatTS nextAttemptAt)) None "")
               (formatTS now).

Definition MarkResultDeliveryPending (jobID claimToken lastError : string)
    (nextAttemptAt now : instant) : M unit :=
  rows ← wrap "mark result delivery pending"
           (sql_update jobID (redeliveryFence claimToken)
              (redelivery_pending_row lastError nextAttemptAt now));
  ensureDeliveryAffected rows.

Definition acknowledged_row (now : instant) : row → row :=
  set_delivery (λ d, Delivery DeliveryAcknowledged "" (result_delivery_attempts d) "" None None "")
               (formatTS now).

Definition MarkResultDeliveryAcknowledged (jobID claimToken : string) (now : instant) : M unit :=
  rows ← wrap "mark result delivery acknowledged"
           (sql_update jobID (redeliveryFence claimToken) (acknowledged_row now));
  ensureDeliveryAffected rows.

Definition dead_letter_row (lastError : string) (now : instant) : row → row :=
  set_delivery (λ d, Delivery DeliveryDeadLetter (result_delivery_payload d)
                       (result_delivery_attempts d) lastError None None "")
               (formatTS now).

Definition MarkResultDeliveryDeadLetter (jobID claimToken lastError : string)
    (now : instant) : M unit :=
  rows ← wrap "mark result delivery dead letter"
           (sql_update jobID (redeliveryFence claimToken) (dead_letter_row lastError now));
  ensureDeliveryAffected rows.

Definition newClaimToken : M string := wrap "generate delivery claim token" (rand_hex 16).

(** (pending AND (next_attempt_at IS NULL OR <= now))
    OR (delivering AND claimed_until < now); a NULL claimed_until is not < now. *)
Definition claimable (nowStr : string) (r : row) : bool :=
  let d := r_delivery r in
  (bool_decide (result_delivery_status d = DeliveryPending) &&
     match next_attempt_at d with None => true | Some t => text_leb t nowStr end)
  || (bool_decide (result_delivery_status d = DeliveryDelivering) &&
     match result_delivery_claimed_until d with None => false | Some t => text_ltb t nowStr end).

Definition claim_row (claimedUntil token nowStr : string) : row → row :=
  set_delivery (λ d, Delivery DeliveryDelivering (result_delivery_payload d)
                       (result_delivery_attempts d) (result_delivery_last_error d)
                       (next_attempt_at d) (Some claimedUntil) token)
               nowStr.

Fixpoint claim_each (claimedUntil nowStr : string) (ids : list string) : M (list Job) :=
  match ids with
  | [] => mret []
  | id :: ids =>
      token ← newClaimToken;
      _ ← wrap ("claim job " +:+ quoted id)
            (sql_update id (λ _, true) (claim_row claimedUntil token nowStr));
      r ← wrap ("scan claimed job " +:+ quoted id) (sql_get id);
      job ← match r with
            | None => throw (wrap_err ("scan claimed job " +:+ quoted id)
                               (ErrText "sql: no rows in result set"))
            | Some r => wrap ("scan claimed job " +:+ quoted id) (lift (scanJob r))
            end;
      rest ← claim_each claimedUntil nowStr ids;
      mret (job :: rest)
  end.

Definition ClaimPendingDeliveries (limit claimTTL : Z) (now : instant) : M (list Job) :=
  in_tx "begin claim tx"
    (λ out, match out with [] => "commit empty claim tx" | _ => "commit claim tx" end) (
    rows ← wrap "select claimable deliveries"
             (sql_select (claimable (formatTS now)) updated_at limit);
    claim_each (formatTS (time_add now claimTTL)) (formatTS now)
      ((λ r, job_id (r_ident r)) <$> rows)).

(** ** The terminal-submission slot *)

Definition jobExists (jobID : string) : M bool :=
  r ← wrap "check job exists" (sql_get jobID);
  mret (bool_decide (is_Some r)).

Definition claim_terminal_row (worker : string) (n : Z) (now : instant) : row → row :=
  set_terminal (λ _, Terminal true worker n) (formatTS now).

Definition ClaimTerminal (jobID worker : string) (n : Z) (now : instant) : M bool :=
  rows ← wrap "claim terminal"
           (sql_update jobID (λ r, negb (terminal_submitted (r_terminal r)))
              (claim_terminal_row worker n now));
  if rows =? 1 then mret true
  else
    exists_ ← jobExists jobID;
    if negb exists_ then throw ErrNotFound else mret false.

(** ** Execution identity *)

(** [a<attempt>-<16 hex digits>]. *)
Definition newExecutionID (n : Z) : M string :=
  suffix ← wrap "generate execution id" (rand_hex 8);
  mret ("a" +:+ pretty n +:+ "-" +:+ suffix).

Definition mint_row (newID : string) (now : instant) : row → row :=
  set_exec (λ _, Exec newID false) (formatTS now).

Definition EnsureExecution (jobID : string) (now : instant) : M (string * bool) :=
  in_tx "begin execution tx" (λ _, "commit execution tx") (
    r ← wrap "select execution identity" (sql_get jobID);
    match r with
    | None => throw ErrNotFound
    | Some r =>
        let e := r_exec r in
        if negb (bool_decide (execution_id e = "")) && negb (execution_terminal e)
        then mret (execution_id e, true)
        else
          newID ← newExecutionID (attempt (r_lease r));
          _ ← wrap "mint execution identity" (sql_update jobID (λ _, true) (mint_row newID now));
          mret (newID, false)
    end).

Definition executing (executionID : string) (r : row) : bool :=
  bool_decide (execution_id (r_exec r) = executionID) &&
  negb (bool_decide (execution_id (r_exec r) = "")).

Definition mark_terminal_row (now : instant) : row → row :=
  set_exec (λ e, Exec (execution_id e) true) (formatTS now).

Definition MarkExecutionTerminal (jobID executionID : string) (now : instant) : M unit :=
  rows ← wrap "mark execution terminal"
           (sql_update jobID (executing executionID) (mark_terminal_row now));
  if rows =? 1 then mret tt
  else
    r ← wrap "select execution identity" (sql_get jobID);
    match r with
    | None => throw ErrNotFound
    | Some r =>
        let current := execution_id (r_exec r) in
        if bool_decide (current = "") then mret tt
        else throw (Wrapf "" ErrExecutionSuperseded
                     (": job " +:+ jobID +:+ " is on execution " +:+ quoted current +:+
                      ", not " +:+ quoted executionID))
    end.

(** ** Readiness probe *)

Definition CheckWritable (now : instant) : M unit :=
  wrap "write probe" (stmt (λ d,
    (tt, set_meta (<["readiness_probe" := formatTS now]> (store_meta d)) d))).

End Store.
