(* ===== verification/Instances.v ===== *)
(** * Instances: concrete parameters

    The model takes SQLite's ORDER BY and encoding/json's treatment of the
    requested actions as interfaces. Here each is implemented once, for the
    concrete runs of the development: a stable merge sort, and a JSON codec for
    arrays of plain strings. *)

From S2P Require Import Prelude GoTime Errors Work Db Fingerprint Store.

(** ** ORDER BY: merge sort on the key *)

Definition by_key (key : row → string) (a b : row) : Prop := text_leb (key a) (key b) = true.

#[export] Instance by_key_dec key : RelDecision (by_key key).
Proof. intros a b. unfold by_key. apply _. Defined.
#[export] Instance by_key_total key : Total (by_key key).
Proof. intros a b. apply text_leb_total. Qed.
#[export] Instance by_key_trans key : Transitive (by_key key).
Proof. intros a b c. exact (text_le_trans (key a) (key b) (key c)). Qed.

#[export] Instance merge_order : SqlOrder := {|
  sql_order_by key l := merge_sort (by_key key) l;
  sql_order_perm key l := merge_sort_Permutation (by_key key) l;
  sql_order_sorted key l := StronglySorted_merge_sort (by_key key) l;
|}.

(** ** JSON arrays of plain strings *)

Definition dquote : ascii := "034".
Definition dquoted (s : string) : string := String dquote (s +:+ String dquote "").

Fixpoint read_string (s : string) : option (string * string) :=
  match s with
  | EmptyString => None
  | String c s =>
      if Ascii.eqb c dquote then Some ("", s)
      else if json_plain_char c then
        match read_string s with
        | Some (a, rest) => Some (String c a, rest)
        | None => None
        end
      else None
  end.

Fixpoint marshal_items (l : list string) : string :=
  match l with
  | [] => "]"
  | [a] => dquoted a +:+ "]"
  | a :: l => dquoted a +:+ String "," (marshal_items l)
  end.

Definition marshal_strings (l : list string) : string := String "[" (marshal_items l).

(** After an opening bracket or a comma. *)
Fixpoint unmarshal_items (fuel : nat) (s : string) : option (list string) :=
  match fuel, s with
  | S fuel, String c s =>
      if Ascii.eqb c dquote then
        match read_string s with
        | Some (a, String "]" "") => Some [a]
        | Some (a, String "," rest) =>
            match unmarshal_items fuel rest with
            | Some l => Some (a :: l)
            | None => None
            end
        | _ => None
        end
      else None
  | _, _ => None
  end.

Definition unmarshal_strings (s : string) : option (list string) :=
  match s with
  | String "[" "]" => Some []
  | String "[" s => unmarshal_items (String.length s) s
  | _ => None
  end.

Lemma read_string_quoted a rest :
  json_plain a = true → read_string (a +:+ String dquote rest) = Some (a, rest).
Proof.
  induction a as [|c a IH]; intros Ha; [done|].
  cbn [json_plain] in Ha. apply andb_true_iff in Ha as [Hc Ha].
  rewrite string_app_cons. cbn [read_string].
  destruct (Ascii.eqb_spec c dquote) as [->|_]; [done|]. by rewrite Hc, IH.
Qed.

Lemma dquoted_app a rest : dquoted a +:+ rest = String dquote (a +:+ String dquote rest).
Proof. unfold dquoted. by rewrite string_app_cons, string_app_assoc. Qed.

Lemma unmarshal_marshal_items l fuel :
  l ≠ [] → Forall (λ a, json_plain a = true) l → (length l ≤ fuel)%nat →
  unmarshal_items fuel (marshal_items l) = Some l.
Proof.
  revert fuel. induction l as [|a l IH]; intros fuel Hne Hl Hf; [done|].
  inversion_clear Hl as [|? ? Ha Hl']. destruct fuel as [|fuel]; [simpl in Hf; lia|].
  destruct l as [|b l]; cbn [marshal_items]; rewrite dquoted_app; cbn [unmarshal_items];
    rewrite read_string_quoted by done; [done|].
  simpl in Hf. rewrite IH; [done..|simpl; lia].
Qed.

Lemma marshal_items_length l : (length l ≤ String.length (marshal_items l))%nat.
Proof.
  induction l as [|a l IH]; [simpl; lia|].
  destruct l as [|b l]; cbn [marshal_items]; rewrite string_length_app; simpl in *; lia.
Qed.

Lemma marshal_items_quoted a l : ∃ s, marshal_items (a :: l) = String dquote s.
Proof. destruct l; cbn [marshal_items]; rewrite dquoted_app; eauto. Qed.

#[export] Program Instance plain_actions : ActionsJson := {|
  json_marshal_actions := marshal_strings;
  json_unmarshal_actions := unmarshal_strings;
|}.
Next Obligation.
  intros l Hl. destruct l as [|a l]; [done|].
  pose proof (marshal_items_length (a :: l)) as Hlen.
  destruct (marshal_items_quoted a l) as [s E]. unfold marshal_strings, unmarshal_strings.
  transitivity (unmarshal_items (String.length (marshal_items (a :: l))) (marshal_items (a :: l))).
  - by rewrite E.
  - by apply unmarshal_marshal_items.
Qed.

Example actions_text : json_marshal_actions [ActionSmokeRun; ActionProfile] =
  "[" +:+ dquoted "smoke_run" +:+ "," +:+ dquoted "profile" +:+ "]".
Proof. reflexivity. Qed.
