(* ===== verification/StoreSpec.v ===== *)
(** * StoreSpec: an abstract specification of the work store

    The contract of [work.Store] (pkg/work/store.go) seen from one row: a step
    relation with one rule for each documented transition of each operation.
    StoreStep.v proves that the operations of Store.v implement it. *)

From S2P Require Import Prelude GoTime Errors Work Db Fingerprint Store.

Create HintDb store.

(** ** The operations of the store *)

Inductive op :=
| OpCreateJob (req : JobRequest)
| OpLeaseJob (worker : string) (ttl : Z)
| OpHeartbeat (jobID worker : string) (n ttl : Z)
| OpCompleteJob (jobID worker : string) (n : Z) (resultSummary : string)
| OpFailJob (jobID worker : string) (n : Z) (lastError : string) (retryable : bool) (delay : Z)
| OpGetJob (jobID : string)
| OpListJobs (st : option Status)
| OpMarkFirstDeliveryPending (jobID worker : string) (n : Z) (payload lastError : string) (at_ : instant)
| OpMarkFirstDeliveryDeadLetter (jobID worker : string) (n : Z) (payload lastError : string)
| OpMarkResultDeliveryPending (jobID token lastError : string) (at_ : instant)
| OpMarkResultDeliveryAcknowledged (jobID token : string)
| OpMarkResultDeliveryDeadLetter (jobID token lastError : string)
| OpClaimPendingDeliveries (limit claimTTL : Z)
| OpEnsureExecution (jobID : string)
| OpMarkExecutionTerminal (jobID executionID : string)
| OpClaimTerminal (jobID worker : string) (n : Z)
| OpCheckWritable.

(** Worker identities are never empty (see workerIdentity). *)
Definition op_ok (o : op) : Prop :=
  match o with
  | OpLeaseJob w _ | OpCompleteJob _ w _ _ | OpFailJob _ w _ _ _ _ => w ≠ ""
  | _ => True
  end.

(** The identity minted by attempt [n] from random value [v]. *)
Definition minted (n : Z) (v : N) : string := "a" +:+ pretty n +:+ "-" +:+ hex_encode 16 v.

(** ** The steps of a row *)

Section Steps.
Context {SO : SqlOrder} {AJ : ActionsJson}.

(** [row_step o now id before after]: what operation [o], called when the clock
    reads [now], may do to the row of job [id]. *)
Inductive row_step : op → instant → string → option row → option row → Prop :=
| step_create req now :
    row_step (OpCreateJob req) now (req_JobID req)
      None (Some (new_row req (requestFingerprint req) now))
| step_lease id r w ttl now :
    w ≠ "" → leaseable now r = true →
    row_step (OpLeaseJob w ttl) now id (Some r) (Some (lease_row w ttl now r))
| step_heartbeat id r w n ttl now :
    held_generation w n r = true →
    row_step (OpHeartbeat id w n ttl) now id (Some r) (Some (heartbeat_row ttl now r))
| step_complete id r w n s now :
    w ≠ "" → generation w n r = true →
    row_step (OpCompleteJob id w n s) now id
      (Some r) (Some (finish_row StatusSucceeded "" s now r))
| step_fail id r w n le delay now :
    w ≠ "" → generation w n r = true →
    row_step (OpFailJob id w n le false delay) now id
      (Some r) (Some (finish_row StatusFailed le "" now r))
| step_requeue id r w n le delay now :
    held_generation w n r = true →
    row_step (OpFailJob id w n le true delay) now id
      (Some r) (Some (requeue_row le (retry_due delay now) now r))
| step_first_pending id r w n p le at_ now :
    firstDeliveryFence w n r = true →
    row_step (OpMarkFirstDeliveryPending id w n p le at_) now id
      (Some r) (Some (first_pending_row p le at_ now r))
| step_first_dead_letter id r w n p le now :
    firstDeliveryFence w n r = true →
    row_step (OpMarkFirstDeliveryDeadLetter id w n p le) now id
      (Some r) (Some (first_dead_letter_row p le now r))
| step_redelivery_pending id r tok le at_ now :
    redeliveryFence tok r = true →
    row_step (OpMarkResultDeliveryPending id tok le at_) now id
      (Some r) (Some (redelivery_pending_row le at_ now r))
| step_acknowledged id r tok now :
    redeliveryFence tok r = true →
    row_step (OpMarkResultDeliveryAcknowledged id tok) now id
      (Some r) (Some (acknowledged_row now r))
| step_dead_letter id r tok le now :
    redeliveryFence tok r = true →
    row_step (OpMarkResultDeliveryDeadLetter id tok le) now id
      (Some r) (Some (dead_letter_row le now r))
| step_claim id r limit ttl v now :
    claimable (formatTS now) r = true →
    row_step (OpClaimPendingDeliveries limit ttl) now id
      (Some r) (Some (claim_row (formatTS (time_add now ttl)) (hex_encode 32 v) (formatTS now) r))
| step_claim_terminal id r w n now :
    terminal_submitted (r_terminal r) = false →
    row_step (OpClaimTerminal id w n) now id (Some r) (Some (claim_terminal_row w n now r))
| step_mint id r v now :
    execution_id (r_exec r) = "" ∨ execution_terminal (r_exec r) = true →
    row_step (OpEnsureExecution id) now id
      (Some r) (Some (mint_row (minted (attempt (r_lease r)) v) now r))
| step_mark_terminal id r e now :
    executing e r = true →
    row_step (OpMarkExecutionTerminal id e) now id (Some r) (Some (mark_terminal_row now r)).

(** Every row keeps its state or takes one step of [o]. *)
Definition table_step (o : op) (now : instant) (t t' : gmap string row) : Prop :=
  ∀ id, t' !! id = t !! id ∨ row_step o now id (t !! id) (t' !! id).

(** The primary key: a row is stored under its job_id. *)
Definition table_keyed (t : gmap string row) : Prop :=
  ∀ id r, t !! id = Some r → job_id (r_ident r) = id.

Lemma table_keyed_insert t id r r' :
  table_keyed t → t !! id = Some r → r_ident r' = r_ident r → table_keyed (<[id := r']> t).
Proof.
  intros Hk Hr Hi id' r''. destruct (decide (id = id')) as [<-|Hne].
  - rewrite lookup_insert_eq. intros [= <-]. rewrite Hi. by apply Hk.
  - rewrite lookup_insert_ne by done. apply Hk.
Qed.

Lemma table_step_refl o now t : table_step o now t t.
Proof. intros id. by left. Qed.

Lemma table_step_insert o now t id r r' :
  t !! id = Some r → row_step o now id (Some r) (Some r') → table_step o now t (<[id := r']> t).
Proof.
  intros Hr Hs id'. destruct (decide (id = id')) as [<-|Hne].
  - right. by rewrite lookup_insert_eq, Hr.
  - left. by rewrite lookup_insert_ne.
Qed.

(** The primary key survives every step. *)
Lemma row_step_ident o now id r r' : row_step o now id (Some r) (Some r') → r_ident r' = r_ident r.
Proof. by inversion 1. Qed.

(** Rows are never deleted. *)
Lemma row_step_some o now id r a : row_step o now id (Some r) a → ∃ r', a = Some r'.
Proof. inversion 1; eauto. Qed.

Lemma table_step_keyed o now t t' : table_keyed t → table_step o now t t' → table_keyed t'.
Proof.
  intros Hk Hs id r' Hr'. destruct (Hs id) as [E|E]; rewrite Hr' in E; [by apply Hk|].
  destruct (t !! id) as [r|] eqn:Hr.
  - rewrite (row_step_ident _ _ _ _ _ E). by apply Hk.
  - by inversion E.
Qed.
End Steps.

#[export] Hint Resolve table_step_refl : store.
#[export] Hint Constructors row_step : store.
