(* ===== verification/StoreRun.v ===== *)
(** * StoreRun: running store computations

    How the statements, transactions and queries of Db.v behave, and what the
    transaction bodies of Store.v do when they succeed. *)

From S2P Require Import Prelude GoTime Errors Work Db Fingerprint Store StoreSpec.

(** ** Read-only computations *)

Class ReadOnly {A} (m : M A) : Prop := read_only d : jobs (m d).2 = jobs d.

#[export] Instance ro_ret {A} (a : A) : ReadOnly (mret a : M A).
Proof. done. Qed.
#[export] Instance ro_throw {A} e : ReadOnly (throw e : M A).
Proof. done. Qed.
#[export] Instance ro_lift {A} (r : res error A) : ReadOnly (lift r).
Proof. done. Qed.
#[export] Instance ro_bind {A B} (m : M A) (f : A → M B) :
  ReadOnly m → (∀ a, ReadOnly (f a)) → ReadOnly (m ≫= f).
Proof.
  intros Hm Hf d. unfold mbind, M_bind. specialize (Hm d).
  destruct (m d) as [[a|e] d']; simpl in *; [|done]. by rewrite (Hf a d').
Qed.
#[export] Instance ro_wrap {A} msg (m : M A) : ReadOnly m → ReadOnly (wrap msg m).
Proof. intros Hm d. unfold wrap. specialize (Hm d). by destruct (m d) as [[a|e] d']. Qed.
#[export] Instance ro_stmt {A} (run : db → A * db) :
  (∀ d, jobs (run d).2 = jobs d) → ReadOnly (stmt run).
Proof.
  intros Hr d. unfold stmt. destruct (faults d) as [|[e|] fs]; simpl; [|done|].
  - specialize (Hr d). by destruct (run d).
  - specialize (Hr (Db (jobs d) (store_meta d) fs (rng d))). by destruct (run _).
Qed.
#[export] Instance ro_get id : ReadOnly (sql_get id).
Proof. by apply ro_stmt. Qed.
#[export] Instance ro_select `{SqlOrder} p key n : ReadOnly (sql_select p key n).
Proof. by apply ro_stmt. Qed.
#[export] Instance ro_rand n : ReadOnly (rand_hex n).
Proof. intros d. unfold rand_hex. by destruct (rng d) as [|[v|] vs]. Qed.
#[export] Instance ro_if {A} (b : bool) (m1 m2 : M A) :
  ReadOnly m1 → ReadOnly m2 → ReadOnly (if b then m1 else m2).
Proof. by destruct b. Qed.
#[export] Instance ro_option {A B} (o : option A) (m1 : M B) (m2 : A → M B) :
  ReadOnly m1 → (∀ a, ReadOnly (m2 a)) →
  ReadOnly (match o with None => m1 | Some a => m2 a end).
Proof. by destruct o. Qed.

(** ** Fenced updates

    The shape of every single-statement write of the store: one UPDATE whose
    WHERE clause is the fence, and an error when it matched nothing. *)

Definition fenced (msg : string) (e : error) (id : string) (p : row → bool)
    (f : row → row) : M unit :=
  rows ← wrap msg (sql_update id p f); if rows =? 0 then throw e else mret tt.

(** The database with the next scripted statement outcome consumed. *)
Definition next_stmt (d : db) : db := Db (jobs d) (store_meta d) (tail (faults d)) (rng d).

Definition stmt_fault (d : db) : option error :=
  match faults d with Some e :: _ => Some e | _ => None end.

Lemma next_stmt_no_faults d : faults d = [] → next_stmt d = d.
Proof. destruct d; simpl. by intros ->. Qed.

Lemma stmt_run {A} (run : db → A * db) d :
  stmt run d = match stmt_fault d with
               | Some e => (Err e, next_stmt d)
               | None => let '(a, d') := run (next_stmt d) in (Ok a, d')
               end.
Proof.
  unfold stmt, stmt_fault. destruct (faults d) as [|[e|] fs] eqn:E.
  - by rewrite next_stmt_no_faults.
  - unfold next_stmt. by rewrite E.
  - unfold next_stmt. by rewrite E.
Qed.

Lemma fenced_run msg e id p f d :
  fenced msg e id p f d =
    match stmt_fault d with
    | Some x => (Err (wrap_err msg x), next_stmt d)
    | None =>
        match jobs d !! id with
        | Some r => if p r then (Ok tt, set_jobs (<[id := f r]> (jobs d)) (next_stmt d))
                    else (Err e, next_stmt d)
        | None => (Err e, next_stmt d)
        end
    end.
Proof.
  unfold fenced, mbind, M_bind, wrap, sql_update. rewrite stmt_run.
  destruct (stmt_fault d); [done|]. simpl.
  destruct (jobs d !! id) as [r|]; [|done]. by destruct (p r).
Qed.

(** A fenced write whose fence does not hold leaves the tables alone. *)
Lemma fenced_out msg e id p f d :
  (∀ r, jobs d !! id = Some r → p r = false) →
  jobs (fenced msg e id p f d).2 = jobs d ∧
  (fenced msg e id p f d).1 = Err (from_option (wrap_err msg) e (stmt_fault d)).
Proof.
  intros Hp. rewrite fenced_run. destruct (stmt_fault d); [done|].
  destruct (jobs d !! id) as [r|] eqn:E; [|done]. by rewrite Hp.
Qed.

Lemma CompleteJob_fenced id w n s now :
  CompleteJob id w n s now =
    fenced "finish job" ErrNotFound id (generation w n) (finish_row StatusSucceeded "" s now).
Proof. done. Qed.

Lemma Heartbeat_fenced id w n ttl now :
  Heartbeat id w n ttl now =
    fenced "heartbeat" ErrNotFound id (held_generation w n) (heartbeat_row ttl now).
Proof. done. Qed.

Lemma FailJob_fenced id w n le (rt : bool) delay now :
  FailJob id w n le rt delay now =
    if rt then fenced "retryable fail" ErrNotFound id (held_generation w n)
                 (requeue_row le (retry_due delay now) now)
    else fenced "fail job" ErrNotFound id (generation w n) (finish_row StatusFailed le "" now).
Proof. by destruct rt. Qed.

Section Run.
Context {SO : SqlOrder} {AJ : ActionsJson}.

Definition rollback (d d' : db) : db := Db (jobs d) (store_meta d) (faults d') (rng d').

Lemma in_tx_run {A} b c (body : M A) d :
  in_tx b c body d =
    match stmt_fault d with
    | Some e => (Err (wrap_err b e), next_stmt d)
    | None =>
        match body (next_stmt d) with
        | (Err e, d2) => (Err e, rollback d d2)
        | (Ok a, d2) =>
            match stmt_fault d2 with
            | Some e => (Err (wrap_err (c a) e), rollback d (next_stmt d2))
            | None => (Ok a, next_stmt d2)
            end
        end
    end.
Proof.
  unfold in_tx, wrap at 1. rewrite stmt_run. destruct (stmt_fault d); [done|].
  destruct (body (next_stmt d)) as [[a|e] d2]; [|done].
  unfold wrap. rewrite stmt_run. by destruct (stmt_fault d2).
Qed.

(** A transaction ends in the state of its body or in the one it began with. *)
Lemma in_tx_jobs {A} b c (body : M A) d :
  (jobs (in_tx b c body d).2 = jobs d ∧ is_ok (in_tx b c body d).1 = false) ∨
  ∃ a d2, body (next_stmt d) = (Ok a, d2) ∧ in_tx b c body d = (Ok a, next_stmt d2).
Proof.
  rewrite in_tx_run. destruct (stmt_fault d); [by left|].
  destruct (body (next_stmt d)) as [[a|e] d2]; [|by left].
  destruct (stmt_fault d2); [by left|]. right. by exists a, d2.
Qed.

Lemma elem_of_select p key n t r :
  r ∈ select_rows p key n t → p r = true ∧ ∃ id, t !! id = Some r.
Proof.
  intros Hr. unfold select_rows, sql_limit in Hr.
  set (l := filter _ _) in Hr. assert (r ∈ sql_order_by key l) as Hl.
  { destruct (n <? 0); [done|]. by apply (subseteq_take (Z.to_nat n)). }
  rewrite (sql_order_perm key l) in Hl. subst l.
  apply list_elem_of_filter in Hl as [Hp Hin]. split; [done|].
  unfold table_rows in Hin. apply list_elem_of_fmap in Hin as ([id r'] & -> & Hin).
  exists id. by apply elem_of_map_to_list.
Qed.

Lemma table_rows_ids t :
  table_keyed t → ((λ r, job_id (r_ident r)) <$> table_rows t) = (map_to_list t).*1.
Proof.
  intros Hk. unfold table_rows. rewrite <- list_fmap_compose.
  apply list_fmap_ext. intros i [id r] Hi. simpl. apply Hk.
  apply elem_of_map_to_list, list_elem_of_lookup. eauto.
Qed.

Lemma select_ids_nodup p key n t :
  table_keyed t → NoDup ((λ r, job_id (r_ident r)) <$> select_rows p key n t).
Proof.
  intros Hk. assert (NoDup ((λ r, job_id (r_ident r)) <$> table_rows t)) as Hn.
  { rewrite table_rows_ids by done. apply NoDup_fst_map_to_list. }
  unfold select_rows, sql_limit. set (l := filter _ _).
  assert (NoDup ((λ r, job_id (r_ident r)) <$> sql_order_by key l)) as Hs.
  { rewrite (sql_order_perm key l). subst l.
    by apply NoDup_fmap_filter. }
  destruct (n <? 0); [done|]. rewrite fmap_take. by apply NoDup_take.
Qed.

(** ** Inversion of successful computations *)

Lemma bind_ok {A B} (m : M A) (k : A → M B) d b d2 :
  (m ≫= k) d = (Ok b, d2) → ∃ a d1, m d = (Ok a, d1) ∧ k a d1 = (Ok b, d2).
Proof.
  unfold mbind, M_bind. destruct (m d) as [[a|e] d1]; intros E; [|done]. by exists a, d1.
Qed.

Lemma wrap_ok {A} msg (m : M A) d a d' : wrap msg m d = (Ok a, d') → m d = (Ok a, d').
Proof. unfold wrap. by destruct (m d) as [[?|?] ?]. Qed.

Lemma select_ok p key n d rows d' :
  sql_select p key n d = (Ok rows, d') → rows = select_rows p key n (jobs d) ∧ d' = next_stmt d.
Proof. unfold sql_select. rewrite stmt_run. destruct (stmt_fault d); [done|]. by intros [= <- <-]. Qed.

Lemma get_ok id d r d' : sql_get id d = (Ok r, d') → r = jobs d !! id ∧ d' = next_stmt d.
Proof. unfold sql_get. rewrite stmt_run. destruct (stmt_fault d); [done|]. by intros [= <- <-]. Qed.

Lemma update_ok id p f d n d' :
  sql_update id p f d = (Ok n, d') →
  match jobs d !! id with
  | Some r => if p r then n = 1 ∧ jobs d' = <[id := f r]> (jobs d)
              else n = 0 ∧ jobs d' = jobs d
  | None => n = 0 ∧ jobs d' = jobs d
  end.
Proof.
  unfold sql_update. rewrite stmt_run. destruct (stmt_fault d); [done|]. simpl.
  destruct (jobs d !! id) as [r|]; [destruct (p r)|]; by intros [= <- <-].
Qed.

Lemma rand_hex_ok n d s d' :
  rand_hex n d = (Ok s, d') → ∃ v, s = hex_encode (2 * n) v ∧ jobs d' = jobs d.
Proof. unfold rand_hex. destruct (rng d) as [|[v|] vs]; intros [= <- <-]. by exists v. Qed.
End Run.

(** Unfolds one successful bind, naming its value and intermediate state. *)
Ltac bind_inv H a d1 H1 :=
  apply bind_ok in H as (a & d1 & H1 & H);
  repeat first [apply wrap_ok in H1 | apply wrap_ok in H].

Section Bodies.
Context {SO : SqlOrder} {AJ : ActionsJson}.

#[export] Instance ro_GetJob id : ReadOnly (GetJob id).
Proof. unfold GetJob. apply _. Qed.
#[export] Instance ro_ListJobs st : ReadOnly (ListJobs st).
Proof. unfold ListJobs. apply _. Qed.
#[export] Instance ro_jobExists id : ReadOnly (jobExists id).
Proof. unfold jobExists. apply _. Qed.
#[export] Instance ro_newClaimToken : ReadOnly newClaimToken.
Proof. unfold newClaimToken. apply _. Qed.
#[export] Instance ro_newExecutionID n : ReadOnly (newExecutionID n).
Proof. unfold newExecutionID. apply _. Qed.
#[export] Instance ro_jobByValidationRequestID v : ReadOnly (jobByValidationRequestID v).
Proof.
  unfold jobByValidationRequestID. apply ro_bind.
  - apply ro_wrap. by apply ro_stmt.
  - intros [|r rows]; apply _.
Qed.

(** *** LeaseJob *)

Definition lease_body (worker : string) (ttl : Z) (now : instant) : M string :=
  rows ← wrap "select leaseable job"
           (sql_select (leaseable now) (λ r, created_at (r_ident r)) 1);
  match rows with
  | [] => throw ErrNoAvailableJob
  | r :: _ =>
      _ ← wrap "update leased job"
            (sql_update (job_id (r_ident r)) (λ _, true) (lease_row worker ttl now));
      mret (job_id (r_ident r))
  end.

Lemma LeaseJob_body worker ttl now :
  LeaseJob worker ttl now =
    (jobID ← in_tx "begin lease tx" (λ _, "commit lease tx") (lease_body worker ttl now);
     GetJob jobID).
Proof. done. Qed.

Lemma lease_body_ok worker ttl now d id d2 :
  table_keyed (jobs d) →
  lease_body worker ttl now d = (Ok id, d2) →
  ∃ r rest, select_rows (leaseable now) (λ r, created_at (r_ident r)) 1 (jobs d) = r :: rest ∧
    id = job_id (r_ident r) ∧ jobs d !! id = Some r ∧ leaseable now r = true ∧
    jobs d2 = <[id := lease_row worker ttl now r]> (jobs d).
Proof.
  intros Hk H. unfold lease_body in H. bind_inv H rows d1 H1.
  apply select_ok in H1 as [-> ->].
  destruct (select_rows _ _ _ _) as [|r rest] eqn:E; [done|].
  bind_inv H n d3 H3. injection H as <- <-. apply update_ok in H3. simpl in H3.
  destruct (elem_of_select (leaseable now) (λ r, created_at (r_ident r)) 1 (jobs d) r)
    as (Hl & id & Hid); [rewrite E; left|].
  rewrite <- (Hk _ _ Hid) in Hid. rewrite Hid in H3. destruct H3 as [_ H3]. eauto 10.
Qed.

(** *** ClaimPendingDeliveries *)

Definition claim_body (limit claimTTL : Z) (now : instant) : M (list Job) :=
  rows ← wrap "select claimable deliveries"
           (sql_select (claimable (formatTS now)) updated_at limit);
  claim_each (formatTS (time_add now claimTTL)) (formatTS now)
    ((λ r, job_id (r_ident r)) <$> rows).

Lemma ClaimPendingDeliveries_body limit claimTTL now :
  ClaimPendingDeliveries limit claimTTL now =
    in_tx "begin claim tx"
      (λ out, match out with [] => "commit empty claim tx" | _ => "commit claim tx" end)
      (claim_body limit claimTTL now).
Proof. done. Qed.

(** The row one claim leaves and the job it hands out. *)
Definition claimed (until nowStr : string) (t t' : gmap string row) (id : string) (j : Job) : Prop :=
  ∃ r v, t !! id = Some r ∧
         t' !! id = Some (claim_row until (hex_encode 32 v) nowStr r) ∧
         scanJob (claim_row until (hex_encode 32 v) nowStr r) = Ok j.

Lemma claim_each_ok until nowStr ids d js d' :
  NoDup ids →
  claim_each until nowStr ids d = (Ok js, d') →
  Forall2 (claimed until nowStr (jobs d) (jobs d')) ids js ∧
  ∀ id, id ∉ ids → jobs d' !! id = jobs d !! id.
Proof.
  intros Hn. revert d js d'. induction Hn as [|id ids Hid Hn IH]; intros d js d' H.
  { injection H as <- <-. by split; [constructor|]. }
  cbn [claim_each] in H. bind_inv H token d1 H1.
  apply rand_hex_ok in H1 as (v & -> & E1).
  bind_inv H n d2 H2. apply update_ok in H2. rewrite E1 in H2.
  bind_inv H r d3 H3. apply get_ok in H3 as [-> ->].
  bind_inv H job d4 H4.
  destruct (jobs d !! id) as [r0|] eqn:Er.
  2:{ destruct H2 as [_ H2]. rewrite H2, Er in H4. done. }
  destruct H2 as [_ H2]. rewrite H2, lookup_insert_eq in H4. apply wrap_ok in H4.
  unfold lift in H4. injection H4 as H4 <-.
  bind_inv H rest d5 H5. injection H as <- <-.
  destruct (IH _ _ _ H5) as [IH1 IH2]. simpl in *. rewrite H2 in IH1, IH2. split.
  - constructor.
    + exists r0, v. rewrite IH2, lookup_insert_eq by done. done.
    + eapply Forall2_impl_elem; [exact IH1|]. intros id' j Hin (r & v' & Hr & ?).
      exists r, v'. assert (id ≠ id') by (by intros ->).
      by rewrite lookup_insert_ne in Hr.
  - intros id' Hid'. apply not_elem_of_cons in Hid' as [Hne Hin].
    rewrite IH2 by done. by rewrite lookup_insert_ne.
Qed.

Lemma claim_body_ok limit claimTTL now d js d' :
  table_keyed (jobs d) →
  claim_body limit claimTTL now d = (Ok js, d') →
  let rows := select_rows (claimable (formatTS now)) updated_at limit (jobs d) in
  let ids := (λ r, job_id (r_ident r)) <$> rows in
  Forall2 (claimed (formatTS (time_add now claimTTL)) (formatTS now) (jobs d) (jobs d')) ids js ∧
  ∀ id, id ∉ ids → jobs d' !! id = jobs d !! id.
Proof.
  intros Hk H. unfold claim_body in H. bind_inv H rows d1 H1. apply select_ok in H1 as [-> ->].
  apply claim_each_ok in H; [done|]. by apply select_ids_nodup.
Qed.

Lemma select_ids_lookup p key n t id :
  table_keyed t → id ∈ ((λ r, job_id (r_ident r)) <$> select_rows p key n t) →
  ∃ r, t !! id = Some r ∧ p r = true.
Proof.
  intros Hk (r & -> & Hr)%list_elem_of_fmap.
  apply elem_of_select in Hr as (Hp & id & Hid). exists r. by rewrite (Hk _ _ Hid).
Qed.

(** *** EnsureExecution *)

Definition ensure_body (jobID : string) (now : instant) : M (string * bool) :=
  r ← wrap "select execution identity" (sql_get jobID);
  match r with
  | None => throw ErrNotFound
  | Some r =>
      let e := r_exec r in
      if negb (bool_decide (execution_id e = "")) && negb (execution_terminal e)
      then mret (execution_id e, true)
      else
        newID ← newExecutionID (attempt (r_lease r));
        _ ← wrap "mint execution identity" (sql_update jobID (λ _, true) (mint_row newID now));
        mret (newID, false)
  end.

Lemma EnsureExecution_body jobID now :
  EnsureExecution jobID now =
    in_tx "begin execution tx" (λ _, "commit execution tx") (ensure_body jobID now).
Proof. done. Qed.

(** Adopt or mint: the two ways EnsureExecution succeeds. *)
Lemma ensure_body_ok jobID now d id (adopted : bool) d' :
  ensure_body jobID now d = (Ok (id, adopted), d') →
  ∃ r, jobs d !! jobID = Some r ∧
    if adopted then
      id = execution_id (r_exec r) ∧ id ≠ "" ∧ execution_terminal (r_exec r) = false ∧
      jobs d' = jobs d
    else
      (execution_id (r_exec r) = "" ∨ execution_terminal (r_exec r) = true) ∧
      (∃ v, id = minted (attempt (r_lease r)) v) ∧
      jobs d' = <[jobID := mint_row id now r]> (jobs d).
Proof.
  unfold ensure_body. intros H. bind_inv H r d1 H1. apply get_ok in H1 as [-> ->].
  destruct (jobs d !! jobID) as [r|] eqn:Er; [|done]. exists r. split; [done|].
  destruct (bool_decide_reflect (execution_id (r_exec r) = "")) as [He|He];
    destruct (execution_terminal (r_exec r)) eqn:Et; simpl in H.
  all: try (injection H as <- <- <-; done).
  all: bind_inv H newID d2 H2; bind_inv H2 sfx d3 H3;
    apply rand_hex_ok in H3 as (v & -> & E3); injection H2 as <- <-;
    bind_inv H n d4 H4; injection H as <- <- <-; apply update_ok in H4;
    rewrite E3 in H4; simpl in H4; rewrite Er in H4; destruct H4 as [_ H4]; eauto.
Qed.
End Bodies.

(** ** Runs in which no statement fails *)

Section Healthy.
Context {SO : SqlOrder} {AJ : ActionsJson}.

Lemma stmt_healthy {A} (run : db → A * db) d :
  faults d = [] → stmt run d = let '(a, d') := run d in (Ok a, d').
Proof. intros H. unfold stmt. by rewrite H. Qed.

Lemma select_healthy p key n d :
  faults d = [] → sql_select p key n d = (Ok (select_rows p key n (jobs d)), d).
Proof. intros H. unfold sql_select. by rewrite stmt_healthy. Qed.

Lemma get_healthy id d : faults d = [] → sql_get id d = (Ok (jobs d !! id), d).
Proof. intros H. unfold sql_get. by rewrite stmt_healthy. Qed.

Lemma update_healthy id p f d :
  faults d = [] →
  sql_update id p f d =
    match jobs d !! id with
    | Some r => if p r then (Ok 1, set_jobs (<[id := f r]> (jobs d)) d) else (Ok 0, d)
    | None => (Ok 0, d)
    end.
Proof.
  intros H. unfold sql_update. rewrite stmt_healthy by done.
  destruct (jobs d !! id) as [r|]; [|done]. by destruct (p r).
Qed.

Lemma in_tx_healthy {A} b c (body : M A) d :
  faults d = [] →
  in_tx b c body d =
    match body d with
    | (Ok a, d2) => match stmt_fault d2 with
                    | None => (Ok a, next_stmt d2)
                    | Some e => (Err (wrap_err (c a) e), rollback d (next_stmt d2))
                    end
    | (Err e, d2) => (Err e, rollback d d2)
    end.
Proof.
  intros H. rewrite in_tx_run. unfold stmt_fault at 1. rewrite H, next_stmt_no_faults by done.
  destruct (body d) as [[a|e] d2]; [|done]. by destruct (stmt_fault d2).
Qed.

Lemma fenced_healthy msg e id p f d :
  faults d = [] →
  fenced msg e id p f d =
    match jobs d !! id with
    | Some r => if p r then (Ok tt, set_jobs (<[id := f r]> (jobs d)) d) else (Err e, d)
    | None => (Err e, d)
    end.
Proof. intros H. rewrite fenced_run. unfold stmt_fault. by rewrite H, next_stmt_no_faults. Qed.

Lemma GetJob_healthy id d :
  faults d = [] →
  GetJob id d =
    match jobs d !! id with
    | None => (Err ErrNotFound, d)
    | Some r => (match scanJob r with Ok j => Ok j | Err e => Err (wrap_err "get job" e) end, d)
    end.
Proof.
  intros H. unfold GetJob, mbind, M_bind, wrap at 1. rewrite get_healthy by done.
  destruct (jobs d !! id) as [r|]; [|done]. unfold wrap, lift. by destruct (scanJob r).
Qed.

Lemma rollback_id d : rollback d d = d.
Proof. by destruct d. Qed.

Lemma LeaseJob_healthy worker ttl now d :
  faults d = [] → table_keyed (jobs d) →
  LeaseJob worker ttl now d =
    match select_rows (leaseable now) (λ r, created_at (r_ident r)) 1 (jobs d) with
    | [] => (Err ErrNoAvailableJob, d)
    | r :: _ => GetJob (job_id (r_ident r))
                  (set_jobs (<[job_id (r_ident r) := lease_row worker ttl now r]> (jobs d)) d)
    end.
Proof.
  intros H Hk. rewrite LeaseJob_body. unfold mbind, M_bind at 1. rewrite in_tx_healthy by done.
  unfold lease_body, mbind, M_bind, wrap. rewrite select_healthy by done.
  destruct (select_rows _ _ _ _) as [|r rows] eqn:E; simpl; [by rewrite rollback_id|].
  destruct (elem_of_select (leaseable now) (λ r, created_at (r_ident r)) 1 (jobs d) r)
    as (_ & id & Hid); [rewrite E; left|].
  rewrite update_healthy by done. rewrite (Hk _ _ Hid), Hid. simpl.
  unfold stmt_fault. simpl. by rewrite H, next_stmt_no_faults.
Qed.
End Healthy.

(** ** What ORDER BY and LIMIT select *)

Section Select.
Context {SO : SqlOrder}.

Definition matching (p : row → bool) (t : gmap string row) : list row :=
  filter (λ r, p r = true) (table_rows t).

Lemma elem_of_matching p t r : r ∈ matching p t ↔ p r = true ∧ ∃ id, t !! id = Some r.
Proof.
  unfold matching, table_rows. rewrite list_elem_of_filter, list_elem_of_fmap. split.
  - intros (Hp & [id r'] & -> & Hin). split; [done|]. exists id. by apply elem_of_map_to_list.
  - intros (Hp & id & Hid). split; [done|]. exists (id, r). by rewrite elem_of_map_to_list.
Qed.

Lemma select_rows_length p key n t :
  0 ≤ n → length (select_rows p key n t) = Nat.min (Z.to_nat n) (length (matching p t)).
Proof.
  intros Hn. unfold select_rows, sql_limit. destruct (Z.ltb_spec n 0); [lia|].
  rewrite length_take. fold (matching p t). by rewrite (sql_order_perm key (matching p t)).
Qed.

(** A selected row comes no later than a matching row that was left out. *)
Lemma select_rows_first p key n t r r' :
  r ∈ select_rows p key n t → r' ∈ matching p t → r' ∉ select_rows p key n t →
  text_leb (key r) (key r') = true.
Proof.
  unfold select_rows, sql_limit. fold (matching p t). intros Hr Hm Hr'.
  rewrite <- (sql_order_perm key (matching p t)) in Hm.
  destruct (n <? 0); [done|]. pose proof (sql_order_sorted key (matching p t)) as Hs.
  rewrite <- (take_drop (Z.to_nat n) (sql_order_by _ _)) in Hs, Hm.
  apply elem_of_app in Hm as [Hm|Hm]; [done|].
  exact (StronglySorted_app_1_elem_of _ _ _ _ _ Hs Hr Hm).
Qed.

Lemma select_one p key t :
  match select_rows p key 1 t with
  | [] => ∀ id r, t !! id = Some r → p r = false
  | r :: _ => p r = true ∧ (∃ id, t !! id = Some r) ∧
              ∀ id r', t !! id = Some r' → p r' = true → text_leb (key r) (key r') = true
  end.
Proof.
  destruct (select_rows p key 1 t) as [|r rest] eqn:E.
  - intros id r Hr. destruct (p r) eqn:Ep; [|done].
    pose proof (select_rows_length p key 1 t ltac:(lia)) as Hl. rewrite E in Hl. simpl in Hl.
    assert (r ∈ matching p t) as Hm by (apply elem_of_matching; eauto).
    destruct (matching p t); [by apply not_elem_of_nil in Hm|]. simpl in Hl. lia.
  - assert (r ∈ select_rows p key 1 t) as Hin by (rewrite E; left).
    destruct (elem_of_select p key 1 t r Hin) as [Hp Hex]. split_and!; [done..|].
    intros id r' Hr' Hp'. destruct (decide (r' = r)) as [->|Hne]; [apply text_leb_refl|].
    apply (select_rows_first p key 1 t); [done|apply elem_of_matching; eauto|].
    pose proof (select_rows_length p key 1 t ltac:(lia)) as Hl. rewrite E in *.
    assert (length (r :: rest) ≤ 1)%nat as Hl1 by (rewrite Hl; change (Z.to_nat 1) with 1%nat; lia).
    destruct rest; [|simpl in Hl1; lia]. by rewrite list_elem_of_singleton.
Qed.
End Select.
