(* ===== verification/StoreStep.v ===== *)
(** * StoreStep: the operations implement the specification

    Every operation of Store.v, whatever statements fail, takes every row
    through at most one step of StoreSpec.v; histories of operations and the
    induction principles the invariants use. *)

From S2P Require Import Prelude GoTime Errors Work Db Fingerprint Store StoreSpec.
From S2P Require Import StoreRun.

Section Refinement.
Context {SO : SqlOrder} {AJ : ActionsJson}.

Lemma read_only_step {A} o now (m : M A) d :
  ReadOnly m → table_step o now (jobs d) (jobs (m d).2).
Proof. intros Hm. rewrite (Hm d). apply table_step_refl. Qed.

Lemma fenced_step o now msg e id p f d :
  (∀ r, p r = true → row_step o now id (Some r) (Some (f r))) →
  table_step o now (jobs d) (jobs (fenced msg e id p f d).2).
Proof.
  intros Hf. rewrite fenced_run.
  destruct (stmt_fault d); [apply table_step_refl|].
  destruct (jobs d !! id) as [r|] eqn:E; [|apply table_step_refl].
  destruct (p r) eqn:Ep; [|apply table_step_refl].
  simpl. eapply table_step_insert; eauto.
Qed.

(** An UPDATE followed by reads. *)
Lemma update_then_read_step {B} o now msg id p f (k : Z → M B) d :
  (∀ r, p r = true → row_step o now id (Some r) (Some (f r))) → (∀ n, ReadOnly (k n)) →
  table_step o now (jobs d) (jobs ((wrap msg (sql_update id p f) ≫= k) d).2).
Proof.
  intros Hf Hk. unfold mbind, M_bind, wrap, sql_update. rewrite stmt_run.
  destruct (stmt_fault d); [apply table_step_refl|]. simpl.
  destruct (jobs d !! id) as [r|] eqn:E; [|rewrite Hk; apply table_step_refl].
  destruct (p r) eqn:Ep; rewrite Hk; [|apply table_step_refl].
  simpl. eapply table_step_insert; eauto.
Qed.

Lemma in_tx_step {A} o now b c (body : M A) d :
  (∀ a d2, body (next_stmt d) = (Ok a, d2) → table_step o now (jobs d) (jobs d2)) →
  table_step o now (jobs d) (jobs (in_tx b c body d).2).
Proof.
  intros Hb. destruct (in_tx_jobs b c body d) as [[-> _]|(a & d2 & E & ->)].
  - apply table_step_refl.
  - exact (Hb a d2 E).
Qed.

Lemma then_read_step {A B} o now (m : M A) (k : A → M B) d :
  table_step o now (jobs d) (jobs (m d).2) → (∀ a, ReadOnly (k a)) →
  table_step o now (jobs d) (jobs ((m ≫= k) d).2).
Proof.
  intros Hm Hk. unfold mbind, M_bind. destruct (m d) as [[a|e] d1]; [|done].
  by rewrite (Hk a d1).
Qed.

Lemma LeaseJob_step worker ttl now d :
  worker ≠ "" → table_keyed (jobs d) →
  table_step (OpLeaseJob worker ttl) now (jobs d) (jobs (LeaseJob worker ttl now d).2).
Proof.
  intros Hw Hk. rewrite LeaseJob_body. apply then_read_step; [|apply _].
  apply in_tx_step. intros id d2 H. apply lease_body_ok in H; [|done].
  destruct H as (r & rest & _ & _ & Hr & Hl & ->). eauto using table_step_insert, step_lease.
Qed.

Lemma claim_body_step limit claimTTL now d js d' :
  table_keyed (jobs d) →
  claim_body limit claimTTL now d = (Ok js, d') →
  table_step (OpClaimPendingDeliveries limit claimTTL) now (jobs d) (jobs d').
Proof.
  intros Hk H. destruct (claim_body_ok _ _ _ _ _ _ Hk H) as [Hin Hout].
  set (ids := _ <$> _) in *. intros id. destruct (decide (id ∈ ids)) as [Hid|Hid].
  - right. destruct (select_ids_lookup _ _ _ _ _ Hk Hid) as (r & Hr & Hc).
    apply list_elem_of_lookup in Hid as [i Hi].
    destruct (Forall2_lookup_l _ _ _ _ _ Hin Hi) as (j & _ & (r' & v & Hr' & Hnew & _)).
    rewrite Hr in Hr'. injection Hr' as <-. rewrite Hr, Hnew. by constructor.
  - left. by apply Hout.
Qed.

Lemma ClaimPendingDeliveries_step limit claimTTL now d :
  table_keyed (jobs d) →
  table_step (OpClaimPendingDeliveries limit claimTTL) now
    (jobs d) (jobs (ClaimPendingDeliveries limit claimTTL now d).2).
Proof.
  intros Hk. rewrite ClaimPendingDeliveries_body. apply in_tx_step.
  intros js d2 H. by eapply claim_body_step in H.
Qed.

Lemma EnsureExecution_step jobID now d :
  table_step (OpEnsureExecution jobID) now (jobs d) (jobs (EnsureExecution jobID now d).2).
Proof.
  rewrite EnsureExecution_body. apply in_tx_step. intros [id adopted] d2 H.
  apply ensure_body_ok in H as (r & Hr & H). destruct adopted.
  - destruct H as (_ & _ & _ & ->). apply table_step_refl.
  - destruct H as (Hm & [v ->] & ->). eapply table_step_insert; [exact Hr|]. by apply step_mint.
Qed.

(** *** CreateJob, ClaimTerminal, MarkExecutionTerminal *)

Lemma sql_insert_step req now d :
  table_step (OpCreateJob req) now (jobs d)
    (jobs (sql_insert (new_row req (requestFingerprint req) now) d).2).
Proof.
  unfold sql_insert. rewrite stmt_run. destruct (stmt_fault d); [apply table_step_refl|].
  set (r := new_row _ _ _).
  assert (∀ o, table_step (OpCreateJob req) now (jobs d) (jobs (match jobs d !! job_id (r_ident r) with
      | Some _ => (Err o, next_stmt d)
      | None => (Ok 1, set_jobs (<[job_id (r_ident r) := r]> (jobs d)) (next_stmt d))
      end : res error Z * db).2)) as Hins.
  { intros o. destruct (jobs d !! job_id (r_ident r)) eqn:E; [apply table_step_refl|].
    simpl. intros id. destruct (decide (id = job_id (r_ident r))) as [->|Hne].
    - right. rewrite lookup_insert_eq, E. by constructor.
    - left. by rewrite lookup_insert_ne. }
  cbv beta iota zeta. clearbody r. destruct (validation_request_id (r_ident r));
    [|exact (Hins (ErrText "UNIQUE constraint failed: jobs.job_id"))].
  destruct (existsb _ _); [apply table_step_refl|].
  exact (Hins (ErrText "UNIQUE constraint failed: jobs.job_id")).
Qed.

Lemma CreateJob_step req now d :
  table_step (OpCreateJob req) now (jobs d) (jobs (CreateJob req now d).2).
Proof.
  unfold CreateJob. apply then_read_step.
  - pose proof (sql_insert_step req now d) as Hs. unfold wrap.
    by destruct (sql_insert _ d) as [[n|e] d'].
  - intros n. apply ro_if; [apply _|]. apply ro_if; [apply _|].
    apply ro_bind; [apply _|]. intros ?. apply ro_if; apply _.
Qed.

Lemma ClaimTerminal_step jobID worker n now d :
  table_step (OpClaimTerminal jobID worker n) now
    (jobs d) (jobs (ClaimTerminal jobID worker n now d).2).
Proof.
  unfold ClaimTerminal. apply update_then_read_step; [|intros ?; apply _].
  intros r Hr%negb_true_iff. by constructor.
Qed.

Lemma MarkExecutionTerminal_step jobID e now d :
  table_step (OpMarkExecutionTerminal jobID e) now
    (jobs d) (jobs (MarkExecutionTerminal jobID e now d).2).
Proof.
  unfold MarkExecutionTerminal. apply update_then_read_step.
  - intros r Hr. by eapply step_mark_terminal.
  - intros ?. apply ro_if; [apply _|]. apply ro_bind; [apply _|].
    intros [r|]; [|apply _]. simpl. apply ro_if; apply _.
Qed.

(** ** All operations of the store *)

(** The state an operation called at clock reading [now] leaves. *)
Definition run_op (o : op) (now : instant) (d : db) : db :=
  match o with
  | OpCreateJob req => (CreateJob req now d).2
  | OpLeaseJob w ttl => (LeaseJob w ttl now d).2
  | OpHeartbeat id w n ttl => (Heartbeat id w n ttl now d).2
  | OpCompleteJob id w n s => (CompleteJob id w n s now d).2
  | OpFailJob id w n le rt delay => (FailJob id w n le rt delay now d).2
  | OpGetJob id => (GetJob id d).2
  | OpListJobs st => (ListJobs st d).2
  | OpMarkFirstDeliveryPending id w n p le at_ =>
      (MarkFirstDeliveryPending id w n p le at_ now d).2
  | OpMarkFirstDeliveryDeadLetter id w n p le =>
      (MarkFirstDeliveryDeadLetter id w n p le now d).2
  | OpMarkResultDeliveryPending id tok le at_ =>
      (MarkResultDeliveryPending id tok le at_ now d).2
  | OpMarkResultDeliveryAcknowledged id tok =>
      (MarkResultDeliveryAcknowledged id tok now d).2
  | OpMarkResultDeliveryDeadLetter id tok le =>
      (MarkResultDeliveryDeadLetter id tok le now d).2
  | OpClaimPendingDeliveries limit ttl => (ClaimPendingDeliveries limit ttl now d).2
  | OpEnsureExecution id => (EnsureExecution id now d).2
  | OpMarkExecutionTerminal id e => (MarkExecutionTerminal id e now d).2
  | OpClaimTerminal id w n => (ClaimTerminal id w n now d).2
  | OpCheckWritable => (CheckWritable now d).2
  end.

Lemma run_op_step o now d :
  op_ok o → table_keyed (jobs d) → table_step o now (jobs d) (jobs (run_op o now d)).
Proof.
  intros Hok Hk. destruct o; simpl in *.
  - apply CreateJob_step.
  - by apply LeaseJob_step.
  - rewrite Heartbeat_fenced. apply fenced_step. eauto with store.
  - rewrite CompleteJob_fenced. apply fenced_step. eauto with store.
  - rewrite FailJob_fenced. destruct retryable; apply fenced_step; eauto with store.
  - apply read_only_step, _.
  - apply read_only_step, _.
  - apply (fenced_step _ _ "mark first delivery pending" ErrDeliveryFenced). eauto with store.
  - apply (fenced_step _ _ "mark first delivery dead letter" ErrDeliveryFenced). eauto with store.
  - apply (fenced_step _ _ "mark result delivery pending" ErrDeliveryFenced). eauto with store.
  - apply (fenced_step _ _ "mark result delivery acknowledged" ErrDeliveryFenced). eauto with store.
  - apply (fenced_step _ _ "mark result delivery dead letter" ErrDeliveryFenced). eauto with store.
  - by apply ClaimPendingDeliveries_step.
  - apply EnsureExecution_step.
  - apply MarkExecutionTerminal_step.
  - apply ClaimTerminal_step.
  - apply read_only_step, ro_wrap, ro_stmt. done.
Qed.

(** ** Histories

    Any sequence of operations satisfying [P]. Between two operations nothing
    but the scripts of the environment changes: which statements will fail and
    what crypto/rand will return. *)
Inductive history (P : op → instant → Prop) : db → db → Prop :=
| history_refl d : history P d d
| history_op d d' o now fs vs :
    history P d d' → op_ok o → P o now →
    history P d (run_op o now (Db (jobs d') (store_meta d') fs vs)).

Definition any_op : op → instant → Prop := λ _ _, True.

Definition initial_db (fs : list (option error)) (vs : list (option N)) : db := Db ∅ ∅ fs vs.

Definition reachable (P : op → instant → Prop) (d : db) : Prop :=
  ∃ fs vs, history P (initial_db fs vs) d.

Section Histories.
Context (P : op → instant → Prop).

Lemma history_keyed d d' : table_keyed (jobs d) → history P d d' → table_keyed (jobs d').
Proof.
  intros Hk. induction 1 as [|d d' o now fs vs Hh IH Hok HP]; [done|].
  eapply table_step_keyed; [by apply IH|]. apply (run_op_step o now (Db _ _ fs vs)); auto.
Qed.

Lemma reachable_keyed d : reachable P d → table_keyed (jobs d).
Proof. intros (fs & vs & H). eapply history_keyed; [|done]. done. Qed.

(** What each step keeps of a row, histories keep. *)
Lemma history_table_ind (Q : string → row → Prop) :
  (∀ req now, P (OpCreateJob req) now →
     Q (req_JobID req) (new_row req (requestFingerprint req) now)) →
  (∀ o now id r r', P o now → Q id r → row_step o now id (Some r) (Some r') → Q id r') →
  ∀ d d', table_keyed (jobs d) → history P d d' →
  (∀ id r, jobs d !! id = Some r → Q id r) → ∀ id r, jobs d' !! id = Some r → Q id r.
Proof.
  intros Hnew Hstep d d' Hk Hh H0. induction Hh as [|d d' o now fs vs Hh IH Hok HP]; [done|].
  specialize (IH Hk H0). intros id r Hr.
  pose proof (history_keyed _ _ Hk Hh) as Hk'.
  destruct (run_op_step o now (Db (jobs d') (store_meta d') fs vs) Hok Hk' id) as [E|E];
    rewrite Hr in E; simpl in E; [by apply IH|].
  destruct (jobs d' !! id) as [r0|] eqn:Er0; [eauto|].
  inversion E; subst; auto.
Qed.

Lemma reachable_row_ind (Q : string → row → Prop) :
  (∀ req now, P (OpCreateJob req) now →
     Q (req_JobID req) (new_row req (requestFingerprint req) now)) →
  (∀ o now id r r', P o now → Q id r → row_step o now id (Some r) (Some r') → Q id r') →
  ∀ d id r, reachable P d → jobs d !! id = Some r → Q id r.
Proof.
  intros Hnew Hstep d id r (fs & vs & H) Hr.
  eapply (history_table_ind Q Hnew Hstep); [|exact H| |exact Hr]; done.
Qed.

(** A relation kept by every step is kept by every history. *)
Lemma history_row_ind id (R : row → row → Prop) `{!Reflexive R, !Transitive R} :
  (∀ o now r r', P o now → row_step o now id (Some r) (Some r') → R r r') →
  ∀ d d' r, table_keyed (jobs d) → history P d d' → jobs d !! id = Some r →
  ∃ r', jobs d' !! id = Some r' ∧ R r r'.
Proof.
  intros Hstep d d' r Hk Hh Hr.
  induction Hh as [|d d' o now fs vs Hh IH Hok HP]; [eauto|].
  destruct (IH Hk Hr) as (r1 & Hr1 & HR).
  pose proof (history_keyed _ _ Hk Hh) as Hk'.
  destruct (run_op_step o now (Db (jobs d') (store_meta d') fs vs) Hok Hk' id) as [E|E];
    simpl in E; rewrite Hr1 in E; [eauto|].
  destruct (row_step_some _ _ _ _ _ E) as [r2 E2]. rewrite E2 in E.
  exists r2. split; [done|]. etrans; eauto.
Qed.

(** What the steps of one job's row keep, its row keeps. *)
Lemma history_row_keep id (Q : row → Prop) :
  (∀ o now r r', P o now → Q r → row_step o now id (Some r) (Some r') → Q r') →
  ∀ d d' r, table_keyed (jobs d) → history P d d' → jobs d !! id = Some r → Q r →
  ∃ r', jobs d' !! id = Some r' ∧ Q r'.
Proof.
  intros Hstep d d' r Hk Hh Hr HQ.
  assert (Reflexive (λ r r', Q r → Q r')) by (intros ?; done).
  assert (Transitive (λ r r', Q r → Q r')) by (intros ? ? ?; auto).
  destruct (history_row_ind id (λ r r', Q r → Q r')) with (d := d) (d' := d') (r := r)
    as (r' & Hr' & H'); eauto.
Qed.

Lemma history_trans d1 d2 d3 : history P d1 d2 → history P d2 d3 → history P d1 d3.
Proof. intros H1 H2. induction H2; [done|]. constructor; auto. Qed.

Lemma reachable_history d d' : reachable P d → history P d d' → reachable P d'.
Proof. intros (fs & vs & H) H'. exists fs, vs. by eapply history_trans. Qed.
End Histories.

Lemma history_mono (P Q : op → instant → Prop) d d' :
  (∀ o now, P o now → Q o now) → history P d d' → history Q d d'.
Proof. intros HPQ. induction 1; constructor; auto. Qed.
End Refinement.
