(* ===== verification/RowInv.v ===== *)
(** * RowInv: the well-formedness invariant of a jobs row

    What is true of every row of a reachable table, whichever operations ran
    and whichever of their statements failed. *)

From S2P Require Import Prelude GoTime Errors Work Db Fingerprint Store StoreSpec.
From S2P Require Import StoreRun StoreStep.

Record lease_ok (l : lease_cols) : Prop := {
  (* a lease owner exactly while the job is leased or running *)
  ok_owner : status_held (status l) = true ↔ lease_owner l ≠ "";
  (* and then with a deadline *)
  ok_until : status_held (status l) = true ↔ lease_until l ≠ None;
  ok_attempt : 0 ≤ attempt l;
  ok_attempt_held : status_held (status l) = true → 1 ≤ attempt l;
  (* only a queued job waits out a retry delay *)
  ok_retry : retry_not_before l ≠ None → status l = StatusQueued;
}.

Record delivery_ok (d : delivery_cols) (t : terminal_cols) : Prop := {
  (* a claim token and a claim deadline exactly while delivering *)
  ok_token : result_delivery_status d = DeliveryDelivering ↔ result_delivery_claim_token d ≠ "";
  ok_claimed : result_delivery_status d = DeliveryDelivering ↔
               result_delivery_claimed_until d ≠ None;
  (* a record is only tracked for the attempt that took the terminal slot *)
  ok_terminal : result_delivery_status d ≠ DeliveryNotApplicable → terminal_submitted t = true;
  ok_attempts : 0 ≤ result_delivery_attempts d;
  ok_counted : result_delivery_status d ≠ DeliveryNotApplicable → 1 ≤ result_delivery_attempts d;
  ok_no_payload : result_delivery_status d = DeliveryNotApplicable ∨
                  result_delivery_status d = DeliveryAcknowledged → result_delivery_payload d = "";
}.

(** Only a minted execution can be terminal. *)
Definition exec_ok (e : exec_cols) : Prop := execution_terminal e = true → execution_id e ≠ "".

Record row_ok (r : row) : Prop := {
  row_lease_ok : lease_ok (r_lease r);
  row_delivery_ok : delivery_ok (r_delivery r) (r_terminal r);
  row_exec_ok : exec_ok (r_exec r);
}.

(** Reads the fences of the UPDATE statements as propositions. *)
Ltac fence_props :=
  repeat match goal with
  | H : _ && _ = true |- _ => apply andb_true_iff in H as [? ?]
  | H : _ || _ = true |- _ => apply orb_true_iff in H as [?|?]
  | H : negb _ = true |- _ => apply negb_true_iff in H
  | H : bool_decide _ = true |- _ => apply bool_decide_eq_true_1 in H
  | H : bool_decide _ = false |- _ => apply bool_decide_eq_false_1 in H
  | H : (_ =? _) = true |- _ => apply Z.eqb_eq in H
  | H : (_ <=? _) = true |- _ => apply Z.leb_le in H
  | H : (_ <? _) = true |- _ => apply Z.ltb_lt in H
  end.

Ltac unfold_fences :=
  unfold held_generation, generation, firstDeliveryFence, redeliveryFence, executing,
    leaseable, claimable in *.

Section Invariant.
Context {SO : SqlOrder} {AJ : ActionsJson}.

Lemma held_generation_iff w n r :
  held_generation w n r = true ↔
  lease_owner (r_lease r) = w ∧ attempt (r_lease r) = n ∧ status_held (status (r_lease r)) = true.
Proof.
  unfold held_generation, generation.
  rewrite !andb_true_iff, bool_decide_eq_true, Z.eqb_eq. tauto.
Qed.

(** Once leases have owners, the fence on owner and attempt alone, which
    finishJob and the permanent FailJob use, implies the job is still held. *)
Lemma generation_held w n r :
  lease_ok (r_lease r) → w ≠ "" → generation w n r = held_generation w n r.
Proof.
  intros Hok Hw. unfold held_generation. destruct (generation w n r) eqn:E; [|done].
  symmetry. unfold generation in E. fence_props. apply (ok_owner _ Hok). congruence.
Qed.

(** ** Leases *)

Lemma lease_ok_queued n due le s :
  0 ≤ n → lease_ok (Lease StatusQueued n "" None due le s).
Proof. intros Hn. constructor; simpl; try done; try lia; by split. Qed.

Lemma lease_ok_held st n w until le s :
  status_held st = true → 1 ≤ n → w ≠ "" → lease_ok (Lease st n w (Some until) None le s).
Proof. intros Hst Hn Hw. constructor; simpl; try done; try lia; by split. Qed.

Lemma lease_ok_finished st n le s :
  st = StatusSucceeded ∨ st = StatusFailed → 0 ≤ n → lease_ok (Lease st n "" None None le s).
Proof. intros [->| ->] Hn; constructor; simpl; try done; try lia; by split. Qed.

Lemma lease_ok_no_retry l : lease_ok l → status_held (status l) = true → retry_not_before l = None.
Proof.
  intros Hok Hh. destruct (retry_not_before l) eqn:E; [|done].
  assert (status l = StatusQueued) as Hq by (apply (ok_retry _ Hok); by rewrite E).
  by rewrite Hq in Hh.
Qed.

Lemma row_ok_lease_step r f ts :
  row_ok r → lease_ok (f (r_lease r)) → row_ok (set_lease f ts r).
Proof. intros []. by constructor. Qed.

Lemma row_ok_delivery_step r f ts :
  row_ok r → delivery_ok (f (r_delivery r)) (r_terminal r) → row_ok (set_delivery f ts r).
Proof. intros []. by constructor. Qed.

Lemma row_ok_new req fp now : row_ok (new_row req fp now).
Proof.
  constructor; [by apply lease_ok_queued| |done].
  constructor; simpl; try done; try lia; by split.
Qed.

(** ** Deliveries *)

Lemma delivery_ok_settled st p n le at_ t :
  st ≠ DeliveryDelivering → st ≠ DeliveryNotApplicable → st ≠ DeliveryAcknowledged →
  1 ≤ n → terminal_submitted t = true →
  delivery_ok (Delivery st p n le at_ None "") t.
Proof. intros ?????. constructor; simpl; try done; try lia; [by split..|by intros [?|?]]. Qed.

Lemma delivery_ok_claimed p n le at_ until tok t :
  1 ≤ n → tok ≠ "" → terminal_submitted t = true →
  delivery_ok (Delivery DeliveryDelivering p n le at_ (Some until) tok) t.
Proof. intros ???. constructor; simpl; try done; try lia; [by split..|by intros [?|?]]. Qed.

Lemma redelivery_pre tok r :
  row_ok r → redeliveryFence tok r = true →
  1 ≤ result_delivery_attempts (r_delivery r) ∧ terminal_submitted (r_terminal r) = true.
Proof.
  intros [_ [] _] H. unfold redeliveryFence in H. fence_props.
  rewrite H in *. auto.
Qed.

Lemma claimable_pre nowStr r :
  row_ok r → claimable nowStr r = true →
  1 ≤ result_delivery_attempts (r_delivery r) ∧ terminal_submitted (r_terminal r) = true.
Proof.
  intros [_ [] _] H. unfold claimable in H. fence_props; rewrite H in *; auto.
Qed.

Lemma row_ok_finish w n st le s now r :
  row_ok r → w ≠ "" → generation w n r = true → st = StatusSucceeded ∨ st = StatusFailed →
  row_ok (finish_row st le s now r).
Proof.
  intros Hok Hw Hg Hst. pose proof (row_lease_ok r Hok) as Hl.
  rewrite generation_held in Hg by done. apply held_generation_iff in Hg as (Ho & Hn & Hh).
  apply row_ok_lease_step; [done|]. rewrite lease_ok_no_retry by done.
  apply lease_ok_finished; [done|]. apply (ok_attempt _ Hl).
Qed.

Lemma row_ok_step o now id r r' :
  row_ok r → row_step o now id (Some r) (Some r') → row_ok r'.
Proof.
  intros Hok Hs. pose proof (row_lease_ok r Hok) as Hl. pose proof (row_delivery_ok r Hok) as Hd.
  inversion Hs; subst; clear Hs.
  - apply row_ok_lease_step, lease_ok_held; try done. pose proof (ok_attempt _ Hl). lia.
  - take held_generation Hg.
    apply held_generation_iff in Hg as (Ho & Hn & Hh). apply row_ok_lease_step; [done|].
    rewrite lease_ok_no_retry by done. apply lease_ok_held; [done| |].
    + by apply (ok_attempt_held _ Hl).
    + by apply (ok_owner _ Hl).
  - take generation Hg. eapply row_ok_finish; eauto.
  - take generation Hg. eapply row_ok_finish; eauto.
  - apply row_ok_lease_step, lease_ok_queued; [done|]. apply (ok_attempt _ Hl).
  - take firstDeliveryFence Hf. unfold firstDeliveryFence in Hf. fence_props.
    apply row_ok_delivery_step, delivery_ok_settled; try done. pose proof (ok_attempts _ _ Hd). lia.
  - take firstDeliveryFence Hf. unfold firstDeliveryFence in Hf. fence_props.
    apply row_ok_delivery_step, delivery_ok_settled; try done. pose proof (ok_attempts _ _ Hd). lia.
  - take redeliveryFence Hf. apply redelivery_pre in Hf as [? ?]; [|done].
    apply row_ok_delivery_step, delivery_ok_settled; try done. lia.
  - take redeliveryFence Hf. apply redelivery_pre in Hf as [? ?]; [|done].
    apply row_ok_delivery_step; [done|]. constructor; simpl; try done; try lia; by split.
  - take redeliveryFence Hf. apply redelivery_pre in Hf as [? ?]; [|done].
    by apply row_ok_delivery_step, delivery_ok_settled.
  - take claimable Hf. apply claimable_pre in Hf as [? ?]; [|done].
    by apply row_ok_delivery_step, delivery_ok_claimed.
  - constructor; [apply Hok| |apply Hok]. destruct Hd. by constructor.
  - constructor; [apply Hok..|]. by intros ?.
  - constructor; [apply Hok..|]. intros _. simpl.
    take executing Hf. unfold executing in Hf. by fence_props.
Qed.

Lemma reachable_row_ok P d id r : reachable P d → jobs d !! id = Some r → row_ok r.
Proof.
  apply (reachable_row_ind P (λ _, row_ok)).
  - intros req now _. apply row_ok_new.
  - intros o now id' r0 r' _ Hok Hs. by eapply row_ok_step.
Qed.
End Invariant.
