(* ===== verification/RowRead.v ===== *)
(** * RowRead: every stored row can be read back

    The store writes timestamps with formatTS and the requested actions with
    json.Marshal; scanJob parses them. As long as clock readings and deadlines
    stay within years 0 to 9999 every row of a reachable table scans. *)

From S2P Require Import Prelude GoTime Errors Work Db Fingerprint Store StoreSpec.
From S2P Require Import StoreRun StoreStep RowInv.

(** Operations whose times SQL text comparison orders correctly and whose
    actions are plain text. *)
Definition op_in_range (o : op) (now : instant) : Prop :=
  ts_in_range now ∧
  match o with
  | OpCreateJob req => Forall (λ a, json_plain a = true) (req_RequestedActions req)
  | OpLeaseJob _ ttl | OpHeartbeat _ _ _ ttl | OpClaimPendingDeliveries _ ttl =>
      ts_in_range (time_add now ttl)
  | OpMarkFirstDeliveryPending _ _ _ _ _ at_ | OpMarkResultDeliveryPending _ _ _ at_ =>
      ts_in_range at_
  | _ => True
  end.

(** A value formatTS writes. *)
Definition canonical_ts (s : string) : Prop := ∃ t, ts_in_range t ∧ s = formatTS t.

Definition canonical_opt (v : option string) : Prop :=
  match v with None => True | Some s => canonical_ts s end.

Section Readable.
Context {SO : SqlOrder} {AJ : ActionsJson}.

Record row_canonical (r : row) : Prop := {
  can_actions : is_Some (json_unmarshal_actions (requested_actions (r_ident r)));
  can_created : canonical_ts (created_at (r_ident r));
  can_updated : canonical_ts (updated_at r);
  can_lease : canonical_opt (lease_until (r_lease r));
  can_next : canonical_opt (next_attempt_at (r_delivery r));
  can_claimed : canonical_opt (result_delivery_claimed_until (r_delivery r));
}.

Lemma canonical_formatTS t : ts_in_range t → canonical_ts (formatTS t).
Proof. by exists t. Qed.

Lemma canonical_parse s : canonical_ts s → ∃ t, ts_in_range t ∧ s = formatTS t ∧ time_parse s = Some t.
Proof. intros (t & Ht & ->). exists t. by rewrite time_parse_formatTS. Qed.

Lemma canonical_not_empty s : canonical_ts s → s ≠ "".
Proof. intros H ->. by destruct (canonical_parse _ H) as (t & _ & _ & Hp). Qed.
End Readable.

#[export] Hint Resolve canonical_formatTS : store.

Section ReadableRows.
Context {SO : SqlOrder} {AJ : ActionsJson}.

Lemma row_canonical_new req now :
  op_in_range (OpCreateJob req) now →
  row_canonical (new_row req (requestFingerprint req) now).
Proof.
  intros [Hnow Hact]. constructor; simpl; auto with store.
  rewrite json_actions_roundtrip; eauto.
Qed.

Lemma row_canonical_step o now id r r' :
  op_in_range o now → row_canonical r → row_step o now id (Some r) (Some r') →
  row_canonical r'.
Proof.
  intros [Hnow Ho] [] Hs. inversion Hs; subst; simpl in Ho; constructor; simpl;
    auto with store.
Qed.

Lemma reachable_row_canonical d id r :
  reachable op_in_range d → jobs d !! id = Some r → row_canonical r.
Proof.
  apply (reachable_row_ind op_in_range (λ _, row_canonical)).
  - intros req now H. by apply row_canonical_new.
  - intros o now id' r0 r' Ho Hr Hs. by eapply row_canonical_step.
Qed.

(** ** Scanning canonical rows *)

Lemma scan_time_canonical what v :
  canonical_opt v → ∃ o, scan_time what v = Ok o ∧ v = formatTS <$> o ∧ from_option ts_in_range True o.
Proof.
  destruct v as [s|]; intros H; [|by exists None].
  pose proof (canonical_not_empty _ H) as Hne.
  destruct (canonical_parse _ H) as (t & Ht & E & Hp). exists (Some t).
  unfold scan_time. rewrite Hp. destruct s; [done|]. by rewrite E.
Qed.

Lemma scan_time_required_canonical what s :
  canonical_ts s → ∃ t, scan_time_required what s = Ok t ∧ s = formatTS t ∧ ts_in_range t.
Proof.
  intros H. destruct (canonical_parse _ H) as (t & Ht & E & Hp). exists t.
  unfold scan_time_required. by rewrite Hp.
Qed.

(** What a scan of a canonical row returns: the columns, with instants for
    the texts. *)
Record scanned (r : row) (j : Job) : Prop := {
  sc_id : JobID j = job_id (r_ident r);
  sc_kind : ArtifactKind j = artifact_kind (r_ident r);
  sc_repo : ImageRepository j = image_repository (r_ident r);
  sc_digest : ImageDigest j = image_digest (r_ident r);
  sc_stable : StableRef j = stable_ref (r_ident r);
  sc_tool : ToolName j = tool_name (r_ident r);
  sc_version : Version j = version (r_ident r);
  sc_cas : CasHash j = cas_hash (r_ident r);
  sc_actions : Some (RequestedActions j) = json_unmarshal_actions (requested_actions (r_ident r));
  sc_fixture : RequestedFixtureSet j = requested_fixture_set (r_ident r);
  sc_request : ValidationRequestID j = default "" (validation_request_id (r_ident r));
  sc_status : JobStatus j = status (r_lease r);
  sc_attempt : Attempt j = attempt (r_lease r);
  sc_owner : LeaseOwner j = lease_owner (r_lease r);
  sc_until : scan_time "lease_until" (lease_until (r_lease r)) = Ok (LeaseUntil j);
  sc_error : LastError j = last_error (r_lease r);
  sc_summary : ResultSummary j = result_summary (r_lease r);
  sc_created : scan_time_required "created_at" (created_at (r_ident r)) = Ok (CreatedAt j);
  sc_updated : scan_time_required "updated_at" (updated_at r) = Ok (UpdatedAt j);
  sc_delivery : ResultDeliveryStatus j = result_delivery_status (r_delivery r);
  sc_payload : ResultDeliveryPayload j = result_delivery_payload (r_delivery r);
  sc_attempts : ResultDeliveryAttempts j = result_delivery_attempts (r_delivery r);
  sc_derror : ResultDeliveryLastError j = result_delivery_last_error (r_delivery r);
  sc_next : scan_time "next_attempt_at" (next_attempt_at (r_delivery r)) = Ok (NextAttemptAt j);
  sc_token : ResultDeliveryClaimToken j = result_delivery_claim_token (r_delivery r);
  sc_terminal : TerminalSubmitted j = terminal_submitted (r_terminal r);
  sc_exec : ExecutionID j = execution_id (r_exec r);
  sc_exec_terminal : ExecutionTerminal j = execution_terminal (r_exec r);
  sc_retry : RetryNotBefore j = retry_not_before (r_lease r);
}.

Lemma scanJob_scanned r j : scanJob r = Ok j → scanned r j.
Proof.
  unfold scanJob. destruct (json_unmarshal_actions _) as [acts|] eqn:Ea; simpl; [|done].
  destruct (scan_time_required "created_at" _) as [c|] eqn:Ec; simpl; [|done].
  destruct (scan_time_required "updated_at" _) as [u|] eqn:Eu; simpl; [|done].
  destruct (scan_time "lease_until" _) as [l|] eqn:El; simpl; [|done].
  destruct (scan_time "next_attempt_at" _) as [n|] eqn:En; simpl; [|done].
  intros [= <-]. by constructor.
Qed.

Lemma scanJob_canonical r : row_canonical r → ∃ j, scanJob r = Ok j ∧ scanned r j.
Proof.
  intros []. destruct can_actions0 as [acts Ea].
  destruct (scan_time_required_canonical "created_at" _ can_created0) as (c & Ec & _).
  destruct (scan_time_required_canonical "updated_at" _ can_updated0) as (u & Eu & _).
  destruct (scan_time_canonical "lease_until" _ can_lease0) as (l & El & _).
  destruct (scan_time_canonical "next_attempt_at" _ can_next0) as (n & En & _).
  assert (∃ j, scanJob r = Ok j) as [j Hj].
  { unfold scanJob. rewrite Ea. simpl. rewrite Ec. simpl. rewrite Eu. simpl. rewrite El. simpl.
    rewrite En. simpl. eauto. }
  exists j. auto using scanJob_scanned.
Qed.

Lemma scan_time_formatTS what t : ts_in_range t → scan_time what (Some (formatTS t)) = Ok (Some t).
Proof.
  intros Ht. pose proof (canonical_not_empty _ (canonical_formatTS t Ht)) as Hne.
  unfold scan_time. rewrite time_parse_formatTS by done. by destruct (formatTS t).
Qed.

Lemma scan_time_required_formatTS what t : ts_in_range t → scan_time_required what (formatTS t) = Ok t.
Proof. intros Ht. unfold scan_time_required. by rewrite time_parse_formatTS. Qed.

(** The deadline of a scanned row, as the instant its text shows. *)
Lemma scanned_until r j :
  row_canonical r → scanned r j → lease_until (r_lease r) = formatTS <$> LeaseUntil j ∧
  from_option ts_in_range True (LeaseUntil j).
Proof.
  intros [] []. destruct (scan_time_canonical "lease_until" _ can_lease0) as (l & El & E & Hr).
  rewrite El in sc_until0. injection sc_until0 as <-. done.
Qed.

Lemma scanned_created r j :
  row_canonical r → scanned r j → created_at (r_ident r) = formatTS (CreatedAt j) ∧
  ts_in_range (CreatedAt j).
Proof.
  intros [] []. destruct (scan_time_required_canonical "created_at" _ can_created0) as (c & Ec & E & Hr).
  rewrite Ec in sc_created0. injection sc_created0 as <-. done.
Qed.
End ReadableRows.
