(* ===== verification/Samples.v ===== *)
(** * Samples: one concrete run of the store

    A request, a few instants and the tables after the first operations on it,
    for the concrete instances of the theorems. *)

From S2P Require Import Prelude GoTime Errors Work Db Fingerprint Store Instances.
From S2P Require Import StoreSpec StoreRun StoreStep RowInv RowRead.

(** 2024-07-03T09:46:40Z. *)
Definition t0 : instant := 1720000000 * second.
Definition at_s (n : Z) : instant := t0 + n * second.

Definition sample_req : JobRequest := {|
  req_JobID := "job-1";
  req_ArtifactKind := "tool";
  req_ImageRepository := "registry/tool";
  req_ImageDigest := "sha256:00";
  req_StableRef := "tool@v1";
  req_ToolName := "tool";
  req_Version := "v1";
  req_CasHash := "cas";
  req_RequestedActions := [ActionSmokeRun];
  req_RequestedFixtureSet := "";
  req_ValidationRequestID := "req-1";
|}.

(** One more operation, with no failing statement and random values [vs]. *)
Definition after (d : db) (o : op) (now : instant) (vs : list (option N)) : db :=
  run_op o now (Db (jobs d) (store_meta d) [] vs).

Definition d_empty : db := initial_db [] [].
Definition d_created : db := after d_empty (OpCreateJob sample_req) t0 [].
Definition d_leased : db := after d_created (OpLeaseJob "w1" (60 * second)) (at_s 1) [].
Definition d_executing : db := after d_leased (OpEnsureExecution "job-1") (at_s 2) [Some 7%N].
Definition d_claimed : db := after d_executing (OpClaimTerminal "job-1" "w1" 1) (at_s 3) [].
Definition d_pending : db :=
  after d_claimed (OpMarkFirstDeliveryPending "job-1" "w1" 1 "{}" "timeout" (at_s 10)) (at_s 4) [].
Definition d_delivering : db :=
  after d_pending (OpClaimPendingDeliveries 10 (30 * second)) (at_s 20) [Some 9%N].

(** The row of the sample job in [d]. *)
Definition sample_row (d : db) : row :=
  default (new_row sample_req "" t0) (jobs d !! "job-1").

Lemma sample_row_lookup d :
  bool_decide (is_Some (jobs d !! "job-1")) = true → jobs d !! "job-1" = Some (sample_row d).
Proof. intros [r Hr]%bool_decide_eq_true_1. unfold sample_row. by rewrite Hr. Qed.

(** A table that holds no other job. *)
Lemma only_sample d id r :
  forallb (λ x, bool_decide (x.1 = "job-1")) (map_to_list (jobs d)) = true → jobs d !! id = Some r →
  id = "job-1" ∧ r = sample_row d.
Proof.
  intros H Hid. rewrite forallb_forall in H. specialize (H (id, r)). rewrite <- list_elem_of_In, elem_of_map_to_list in H.
  specialize (H Hid). apply bool_decide_eq_true_1 in H. cbn [fst] in H. subst id. split; [done|].
  unfold sample_row. by rewrite Hid.
Qed.

Lemma history_after P d d' o now vs :
  history P d d' → op_ok o → P o now → history P d (after d' o now vs).
Proof. intros. by constructor. Qed.

Lemma reachable_empty P : reachable P d_empty.
Proof. exists [], []. constructor. Qed.

Lemma reachable_after P d o now vs :
  reachable P d → op_ok o → P o now → reachable P (after d o now vs).
Proof. intros (fs & v & H) Hok HP. exists fs, v. by constructor. Qed.

Ltac in_range := split; vm_compute; repeat constructor; discriminate.

Lemma created_reachable : reachable op_in_range d_created.
Proof. apply reachable_after; [apply reachable_empty|done|in_range]. Qed.
Lemma leased_reachable : reachable op_in_range d_leased.
Proof. apply reachable_after; [apply created_reachable|done|in_range]. Qed.
Lemma executing_reachable : reachable op_in_range d_executing.
Proof. apply reachable_after; [apply leased_reachable|done|in_range]. Qed.
Lemma claimed_reachable : reachable op_in_range d_claimed.
Proof. apply reachable_after; [apply executing_reachable|done|in_range]. Qed.
Lemma pending_reachable : reachable op_in_range d_pending.
Proof. apply reachable_after; [apply claimed_reachable|done|in_range]. Qed.
Lemma delivering_reachable : reachable op_in_range d_delivering.
Proof. apply reachable_after; [apply pending_reachable|done|in_range]. Qed.

Lemma reachable_any P d : reachable P d → reachable any_op d.
Proof. intros (fs & vs & H). exists fs, vs. by eapply history_mono; [|exact H]. Qed.
