(* ===== verification/StoreLease.v ===== *)
(** * StoreLease: who may run a job

    LeaseJob, Heartbeat, CompleteJob and FailJob: what each does, that a lease
    excludes other workers until it expires, and that an attempt that lost its
    lease can write no more. *)

From S2P Require Import Prelude GoTime Errors Work Db Fingerprint Store Instances.
From S2P Require Import StoreSpec StoreRun StoreStep RowInv RowRead Samples.

Section Lease.
Context {SO : SqlOrder} {AJ : ActionsJson}.

(** ** Which jobs LeaseJob considers, in instants *)

Definition leaseable_job (now : instant) (j : Job) : Prop :=
  (JobStatus j = StatusQueued ∧
     match RetryNotBefore j with None => True | Some due => due ≤ unix_nano now end) ∨
  (status_held (JobStatus j) = true ∧
     match LeaseUntil j with None => True | Some until => until < now end).

Lemma leaseable_scanned now r j :
  row_canonical r → scanned r j → ts_in_range now →
  (leaseable now r = true ↔ leaseable_job now j).
Proof.
  intros Hc Hj Hnow. destruct (scanned_until r j Hc Hj) as [Hu Hin].
  unfold leaseable, leaseable_job.
  rewrite orb_true_iff, !andb_true_iff, bool_decide_eq_true, (sc_status _ _ Hj),
    (sc_retry _ _ Hj), Hu.
  destruct (retry_not_before (r_lease r)) as [due|]; destruct (LeaseUntil j) as [u|];
    simpl in *; rewrite ?formatTS_ltb, ?Z.leb_le, ?Z.ltb_lt by done; tauto.
Qed.

(** ** Generations *)

(** The generation [(w, n)] no longer holds the row, and never will again. *)
Definition generation_over (w : string) (n : Z) (r : row) : Prop :=
  n ≤ attempt (r_lease r) ∧ generation w n r = false.

Lemma generation_true w n r :
  generation w n r = true ↔ lease_owner (r_lease r) = w ∧ attempt (r_lease r) = n.
Proof. unfold generation. by rewrite andb_true_iff, bool_decide_eq_true, Z.eqb_eq. Qed.

Lemma generation_false w n r :
  generation w n r = false ↔ ¬ (lease_owner (r_lease r) = w ∧ attempt (r_lease r) = n).
Proof. rewrite <- generation_true. by destruct (generation w n r). Qed.

Lemma generation_over_step o now id w n r r' :
  w ≠ "" → generation_over w n r → row_step o now id (Some r) (Some r') →
  generation_over w n r'.
Proof.
  unfold generation_over. rewrite !generation_false. intros Hw [Hn Hg] Hs.
  inversion Hs; subst; simpl; try (split; [done|]; tauto).
  all: split; [lia|]; intros [He Ha]; first [lia|congruence].
Qed.

Lemma held_generation_over w n r : generation_over w n r → held_generation w n r = false.
Proof. intros [_ H]. unfold held_generation. by rewrite H. Qed.

(** ** Held leases *)

(** Row [r] is held by [(w, n)] at least until [u]. *)
Definition held_until (w : string) (n : Z) (u : instant) (r : row) : Prop :=
  held_generation w n r = true ∧
  ∃ v, ts_in_range v ∧ u ≤ v ∧ lease_until (r_lease r) = Some (formatTS v).

(** Operations before [u] that neither end the lease of [(w, n)] on [id] nor
    shorten it below [u]. *)
Definition keeps_lease (id w : string) (n : Z) (u : instant) (o : op) (now : instant) : Prop :=
  op_in_range o now ∧ now ≤ u ∧
  match o with
  | OpHeartbeat id' w' n' ttl => (id', w', n') = (id, w, n) → u ≤ time_add now ttl
  | OpCompleteJob id' w' n' _ | OpFailJob id' w' n' _ _ _ => (id', w', n') ≠ (id, w, n)
  | _ => True
  end.

Lemma held_not_leaseable w n u now r :
  held_until w n u r → ts_in_range now → now ≤ u → leaseable now r = false.
Proof.
  intros [Hg (v & Hv & Huv & Hl)] Hnow Hu. apply held_generation_iff in Hg as (_ & _ & Hst).
  unfold leaseable. rewrite Hl, formatTS_ltb by done.
  destruct (Z.ltb_spec v now); [lia|]. rewrite andb_false_r, orb_false_r.
  by destruct (status (r_lease r)).
Qed.

Lemma held_until_step o now id w n u r r' :
  keeps_lease id w n u o now → held_until w n u r → row_step o now id (Some r) (Some r') →
  held_until w n u r'.
Proof.
  intros ([Hnow Ho] & Hu & Hk) Hh Hs.
  pose proof (held_not_leaseable _ _ _ now _ Hh Hnow Hu) as Hn.
  destruct Hh as [Hg Hv]. pose proof Hg as Hg'. apply held_generation_iff in Hg' as (Ho' & Ha & Hst).
  inversion Hs; subst; simpl in Ho, Hk; try (split; [exact Hg|exact Hv]).
  - congruence.
  - take held_generation Hf. apply held_generation_iff in Hf as (Hw' & Hn' & _). subst.
    split; [apply held_generation_iff; done|]. exists (time_add now ttl).
    split_and!; [done| |done]. by apply Hk.
  - take generation Hf. apply generation_true in Hf as [<- <-]. done.
  - take generation Hf. apply generation_true in Hf as [<- <-]. done.
  - take held_generation Hf. apply held_generation_iff in Hf as (<- & <- & _). done.
Qed.

(** ** Finished jobs *)

Definition finished (r : row) : Prop :=
  (status (r_lease r) = StatusSucceeded ∨ status (r_lease r) = StatusFailed) ∧
  lease_owner (r_lease r) = "".

Lemma finished_step o now id r r' :
  finished r → row_step o now id (Some r) (Some r') → r_lease r' = r_lease r.
Proof.
  intros [Hst Ho] Hs. inversion Hs; subst; simpl; try done.
  - take leaseable Hf. unfold leaseable in Hf. by destruct Hst as [E|E]; rewrite E in Hf.
  - take held_generation Hf. apply held_generation_iff in Hf as (_ & _ & Hf).
    by destruct Hst as [E|E]; rewrite E in Hf.
  - take generation Hf. apply generation_true in Hf as [? _]. congruence.
  - take generation Hf. apply generation_true in Hf as [? _]. congruence.
  - take held_generation Hf. apply held_generation_iff in Hf as (_ & _ & Hf).
    by destruct Hst as [E|E]; rewrite E in Hf.
Qed.

Lemma finished_row_ok r :
  row_ok r → status (r_lease r) = StatusSucceeded ∨ status (r_lease r) = StatusFailed → finished r.
Proof.
  intros Hok Hst. split; [done|]. pose proof (ok_owner _ (row_lease_ok _ Hok)) as Ho.
  destruct (decide (lease_owner (r_lease r) = "")) as [|Hne]; [done|].
  apply Ho in Hne. destruct Hst as [E|E]; by rewrite E in Hne.
Qed.

(** ** Properties *)

(** What LeaseJob answers when no statement fails, on the rows. *)
Lemma LeaseJob_answers worker ttl now d :
  table_keyed (jobs d) → (∀ id r, jobs d !! id = Some r → row_canonical r) →
  faults d = [] → op_in_range (OpLeaseJob worker ttl) now →
  match LeaseJob worker ttl now d with
  | (Ok j, d') =>
      ∃ r, jobs d !! JobID j = Some r ∧ leaseable now r = true ∧
        (∀ id' r', jobs d !! id' = Some r' → leaseable now r' = true →
           text_leb (created_at (r_ident r)) (created_at (r_ident r')) = true) ∧
        jobs d' = <[JobID j := lease_row worker ttl now r]> (jobs d) ∧
        row_canonical (lease_row worker ttl now r) ∧ scanned (lease_row worker ttl now r) j
  | (Err e, d') =>
      e = ErrNoAvailableJob ∧ d' = d ∧ ∀ id r, jobs d !! id = Some r → leaseable now r = false
  end.
Proof.
  intros Hk Hcan Hf Ho. rewrite LeaseJob_healthy by done.
  pose proof (select_one (leaseable now) (λ r, created_at (r_ident r)) (jobs d)) as Hs.
  destruct (select_rows _ _ _ _) as [|r rest]; [done|].
  destruct Hs as (Hlr & [id Hid] & Hmin). rewrite GetJob_healthy by done.
  rewrite (Hk _ _ Hid). cbn [jobs set_jobs]. rewrite lookup_insert_eq.
  pose proof (Hcan _ _ Hid) as Hc. assert (row_canonical (lease_row worker ttl now r)) as Hc'.
  { destruct Hc. destruct Ho. constructor; simpl; auto with store. }
  destruct (scanJob_canonical _ Hc') as (j & Hj & Hsc). rewrite Hj.
  pose proof (sc_id _ _ Hsc) as Ej. cbn in Ej. rewrite (Hk _ _ Hid) in Ej. rewrite Ej. by exists r.
Qed.

(** C17: with no failing statement, LeaseJob hands out the oldest job that is
    due (queued and past its retry delay, or held under an expired lease),
    to the caller alone, as its next attempt, until now + ttl, and changes no
    other row; it answers ErrNoAvailableJob exactly when no job is due, and then
    changes nothing. It never fails otherwise. *)
Theorem LeaseJob_oldest_due worker ttl now d :
  reachable op_in_range d → faults d = [] → op_in_range (OpLeaseJob worker ttl) now →
  match LeaseJob worker ttl now d with
  | (Ok j, d') =>
      ∃ r, jobs d !! JobID j = Some r ∧ leaseable now r = true ∧
        (∀ id' r' j', jobs d !! id' = Some r' → scanJob r' = Ok j' →
           leaseable_job now j' → CreatedAt j ≤ CreatedAt j') ∧
        jobs d' = <[JobID j := lease_row worker ttl now r]> (jobs d) ∧
        JobStatus j = StatusLeased ∧ Attempt j = attempt (r_lease r) + 1 ∧
        LeaseOwner j = worker ∧ LeaseUntil j = Some (time_add now ttl) ∧ RetryNotBefore j = None
  | (Err e, d') =>
      e = ErrNoAvailableJob ∧ d' = d ∧
      ∀ id' r' j', jobs d !! id' = Some r' → scanJob r' = Ok j' → ¬ leaseable_job now j'
  end.
Proof.
  intros Hr Hf Ho. pose proof (reachable_keyed _ _ Hr) as Hk. pose proof (proj1 Ho) as Hnow.
  assert (∀ id r j, jobs d !! id = Some r → scanJob r = Ok j →
    (leaseable now r = true ↔ leaseable_job now j)) as Hl.
  { intros id r j Hid Hj. apply leaseable_scanned; [|by apply scanJob_scanned|done].
    by eapply reachable_row_canonical. }
  pose proof (LeaseJob_answers worker ttl now d Hk (λ id r, reachable_row_canonical d id r Hr) Hf Ho) as H.
  destruct (LeaseJob worker ttl now d) as [[j|e] d'].
  - destruct H as (r & Hid & Hlr & Hmin & Hj & Hc' & Hsc). exists r. split_and!; try done.
    + intros id' r' j' Hr' Hj' Hl'. apply (Hl id' r' j') in Hl'; [|done..].
      pose proof (Hmin _ _ Hr' Hl') as Ht.
      destruct (scanned_created _ _ Hc' Hsc) as [E1 H1]. simpl in E1.
      destruct (scanned_created r' j') as [E2 H2];
        [by eapply reachable_row_canonical|by apply scanJob_scanned|].
      rewrite E1, E2, formatTS_leb in Ht by done. by apply Z.leb_le.
    + by rewrite (sc_status _ _ Hsc).
    + by rewrite (sc_attempt _ _ Hsc).
    + by rewrite (sc_owner _ _ Hsc).
    + pose proof (sc_until _ _ Hsc) as E. cbn [lease_row set_lease r_lease lease_until] in E.
      rewrite scan_time_formatTS in E by apply Ho. by injection E as <-.
    + by rewrite (sc_retry _ _ Hsc).
  - destruct H as (-> & -> & Hno). split_and!; [done..|]. intros id' r' j' Hr' Hj' Hl'.
    apply (Hl id' r' j') in Hl'; [|done..]. by rewrite (Hno _ _ Hr') in Hl'.
Qed.

(** C15: a lease excludes other workers. From the moment (worker, attempt) holds
    a job until instant [u], as long as that attempt neither ends its own lease
    nor shortens it, it still holds the job after any operations up to [u] by
    anyone: no LeaseJob hands the job to somebody else. *)
Theorem lease_exclusive w n u d d' id r :
  reachable op_in_range d → jobs d !! id = Some r →
  held_generation w n r = true → lease_until (r_lease r) = Some (formatTS u) → ts_in_range u →
  history (keeps_lease id w n u) d d' →
  ∃ r', jobs d' !! id = Some r' ∧ held_generation w n r' = true ∧ r_ident r' = r_ident r.
Proof.
  intros Hr Hid Hg Hu Hin Hh.
  destruct (history_row_keep (keeps_lease id w n u) id (λ r', held_until w n u r' ∧ r_ident r' = r_ident r))
    with (d := d) (d' := d') (r := r) as (r' & Hr' & [Hg' _] & Hi); try done.
  - intros o now r1 r2 Ho [H1 H2] Hs. split; [by eapply held_until_step|].
    by rewrite (row_step_ident _ _ _ _ _ Hs).
  - by eapply reachable_keyed.
  - split; [|done]. split; [done|]. by exists u.
  - by exists r'.
Qed.

(** C16: an attempt that lost its job is fenced for good. Once the row of a job
    has moved past generation (w, n) - leased again, requeued or finished -
    every later Heartbeat, CompleteJob and FailJob of that generation fails,
    with ErrNotFound unless the statement itself failed, and changes no row,
    whatever happened in between. *)
Theorem stale_attempt_fenced w n d d' id r :
  reachable any_op d → jobs d !! id = Some r → w ≠ "" → generation_over w n r →
  history any_op d d' →
  ∀ m, (∃ now ttl, m = Heartbeat id w n ttl now) ∨
       (∃ now s, m = CompleteJob id w n s now) ∨
       (∃ now le rt delay, m = FailJob id w n le rt delay now) →
  jobs (m d').2 = jobs d' ∧ is_ok (m d').1 = false ∧
  (stmt_fault d' = None → (m d').1 = Err ErrNotFound).
Proof.
  intros Hr Hid Hw Ho Hh m Hm.
  destruct (history_row_keep any_op id (generation_over w n)) with (d := d) (d' := d') (r := r)
    as (r' & Hr' & Ho'); try done.
  { intros o now r1 r2 _ H1 Hs. by eapply generation_over_step. }
  { by eapply reachable_keyed. }
  assert (∀ msg p f, (p = generation w n ∨ p = held_generation w n) →
    let m := fenced msg ErrNotFound id p f in
    jobs (m d').2 = jobs d' ∧ is_ok (m d').1 = false ∧
    (stmt_fault d' = None → (m d').1 = Err ErrNotFound)) as Hf.
  { intros msg p f Hp. destruct (fenced_out msg ErrNotFound id p f d') as [E1 E2].
    - intros r0 Hr0. rewrite Hr' in Hr0. injection Hr0 as <-.
      destruct Hp as [-> | ->]; [apply Ho'|by apply held_generation_over].
    - cbv zeta. rewrite E1, E2. split_and!; [done..|]. by intros ->. }
  destruct Hm as [(now & ttl & ->)|[(now & s & ->)|(now & le & rt & delay & ->)]].
  - rewrite Heartbeat_fenced. auto.
  - rewrite CompleteJob_fenced. auto.
  - rewrite FailJob_fenced. destruct rt; auto.
Qed.

(** A finished job stays finished. Once a job is succeeded or failed no
    operation changes its status, attempt, owner, deadline, error or summary. *)
Theorem finished_forever d d' id r :
  reachable any_op d → jobs d !! id = Some r →
  status (r_lease r) = StatusSucceeded ∨ status (r_lease r) = StatusFailed →
  history any_op d d' →
  ∃ r', jobs d' !! id = Some r' ∧ r_lease r' = r_lease r.
Proof.
  intros Hr Hid Hst Hh.
  assert (finished r) as Hfin by (apply finished_row_ok; [by eapply reachable_row_ok|done]).
  destruct (history_row_keep any_op id (λ r', finished r' ∧ r_lease r' = r_lease r))
    with (d := d) (d' := d') (r := r) as (r' & Hr' & _ & E); try done.
  - intros o now r1 r2 _ [H1 E] Hs. pose proof (finished_step _ _ _ _ _ H1 Hs) as E2.
    split; [|congruence]. unfold finished. by rewrite E2.
  - by eapply reachable_keyed.
  - by exists r'.
Qed.

(** Retry pacing. A retryable FailJob that succeeds requeues the job, keeps
    its attempt number, and makes it due exactly [delay] later: LeaseJob does
    not consider it before now + delay and does from then on (at once when the
    delay is not positive). *)
Theorem retry_pacing id w n le delay now d d' t :
  int64_range (time_add now delay) → int64_range t →
  FailJob id w n le true delay now d = (Ok tt, d') →
  ∃ r r', jobs d !! id = Some r ∧ held_generation w n r = true ∧
    jobs d' = <[id := r']> (jobs d) ∧ status (r_lease r') = StatusQueued ∧
    lease_owner (r_lease r') = "" ∧ attempt (r_lease r') = n ∧ last_error (r_lease r') = le ∧
    (leaseable t r' = true ↔ delay ≤ 0 ∨ time_add now delay ≤ t).
Proof.
  intros Hd Ht. rewrite FailJob_fenced, fenced_run.
  destruct (stmt_fault d); [done|]. destruct (jobs d !! id) as [r|] eqn:Hr; [|done].
  destruct (held_generation w n r) eqn:Hg; [|done]. intros [= <-].
  exists r, (requeue_row le (retry_due delay now) now r).
  pose proof Hg as Hg'. apply held_generation_iff in Hg' as (_ & Ha & _).
  split_and!; try done. unfold leaseable, retry_due, unix_nano. simpl.
  destruct (Z.ltb_spec 0 delay); simpl.
  - rewrite !wrap64_id, orb_false_r, Z.leb_le by done. lia.
  - split; [lia|done].
Qed.

End Lease.

(** The sample job is leased by w1 from second 1 to second 61. *)
Lemma LeaseJob_oldest_due_witness :
  ∃ j, (LeaseJob "w1" (60 * second) (at_s 1) d_created).1 = Ok j ∧
    LeaseOwner j = "w1" ∧ LeaseUntil j = Some (at_s 61).
Proof.
  pose proof (LeaseJob_oldest_due "w1" (60 * second) (at_s 1) d_created
    created_reachable eq_refl ltac:(in_range)) as H.
  destruct (LeaseJob "w1" (60 * second) (at_s 1) d_created) as [[j|e] d'] eqn:E.
  - destruct H as (r & _ & _ & _ & _ & _ & _ & Ho & Hu & _). exists j. auto.
  - exfalso. vm_compute in E. discriminate.
Defined.

Lemma lease_exclusive_witness :
  ∃ r', jobs (after d_leased (OpLeaseJob "w2" (60 * second)) (at_s 61) []) !! "job-1" = Some r' ∧
    held_generation "w1" 1 r' = true ∧ r_ident r' = r_ident (sample_row d_leased).
Proof.
  apply (lease_exclusive "w1" 1 (at_s 61) d_leased).
  - apply leased_reachable.
  - apply sample_row_lookup. vm_compute. reflexivity.
  - vm_compute. reflexivity.
  - vm_compute. reflexivity.
  - vm_compute. split; discriminate.
  - apply history_after; [constructor|done|].
    split; [in_range|]. split; [vm_compute; discriminate|exact I].
Defined.

(** w1's attempt 1 after w2 took the job over at second 100. *)
Lemma stale_attempt_fenced_witness :
  let d := after d_leased (OpLeaseJob "w2" (60 * second)) (at_s 100) [] in
  (CompleteJob "job-1" "w1" 1 "done" (at_s 101) d).1 = Err ErrNotFound.
Proof.
  intros d.
  assert (reachable any_op d) as Hr.
  { apply reachable_after; [|done|done]. eapply reachable_any, leased_reachable. }
  apply (stale_attempt_fenced "w1" 1 d d "job-1" (sample_row d)).
  - exact Hr.
  - apply sample_row_lookup. vm_compute. reflexivity.
  - discriminate.
  - split; vm_compute; [discriminate|reflexivity].
  - constructor.
  - right. left. eauto.
  - vm_compute. reflexivity.
Defined.

Definition d_completed : db :=
  after d_claimed (OpCompleteJob "job-1" "w1" 1 "ok") (at_s 5) [].

Lemma completed_reachable : reachable any_op d_completed.
Proof. apply reachable_after; [|done|done]. eapply reachable_any, claimed_reachable. Qed.

Lemma finished_forever_witness :
  ∃ r', jobs (after d_completed (OpLeaseJob "w2" second) (at_s 1000) []) !! "job-1" = Some r' ∧
    r_lease r' = r_lease (sample_row d_completed).
Proof.
  apply (finished_forever d_completed).
  - apply completed_reachable.
  - apply sample_row_lookup. vm_compute. reflexivity.
  - left. vm_compute. reflexivity.
  - apply history_after; [constructor|done|done].
Defined.

Lemma retry_pacing_witness :
  ∃ r r', jobs d_leased !! "job-1" = Some r ∧ held_generation "w1" 1 r = true ∧
    jobs (after d_leased (OpFailJob "job-1" "w1" 1 "boom" true (30 * second)) (at_s 2) []) =
      <["job-1" := r']> (jobs d_leased) ∧ status (r_lease r') = StatusQueued ∧
    lease_owner (r_lease r') = "" ∧ attempt (r_lease r') = 1 ∧ last_error (r_lease r') = "boom" ∧
    (leaseable (at_s 32) r' = true ↔ 30 * second ≤ 0 ∨ time_add (at_s 2) (30 * second) ≤ at_s 32).
Proof.
  apply (retry_pacing "job-1" "w1" 1 "boom" (30 * second) (at_s 2) d_leased).
  - vm_compute. split; [discriminate|reflexivity].
  - vm_compute. split; [discriminate|reflexivity].
  - vm_compute. reflexivity.
Defined.
