(* ===== verification/StoreDelivery.v ===== *)
(** * StoreDelivery: who may submit a terminal record, and how often

    The terminal-submission slot (ClaimTerminal), the first delivery outcome of
    its owner, and the claims of the redelivery loop. *)

From S2P Require Import Prelude GoTime Errors Work Db Fingerprint Store Instances.
From S2P Require Import StoreSpec StoreRun StoreStep RowInv RowRead Samples.

(** ** Random bytes, as text *)

Lemma hex_digit_inj a b : (a < 16)%N → (b < 16)%N → hex_digit a = hex_digit b → a = b.
Proof.
  intros Ha Hb. unfold hex_digit.
  assert (∀ x, (x < 256)%N → N_of_ascii (ascii_of_N x) = x) as He by apply N_ascii_embedding.
  intros E. apply (f_equal N_of_ascii) in E.
  destruct (N.ltb_spec a 10), (N.ltb_spec b 10); rewrite !He in E by lia; lia.
Qed.

Lemma hex_encode_mod w v1 v2 :
  hex_encode w v1 = hex_encode w v2 → (v1 mod 16 ^ N.of_nat w = v2 mod 16 ^ N.of_nat w)%N.
Proof.
  induction w as [|w IH]; intros E; [by rewrite !N.mod_1_r|].
  cbn [hex_encode] in E. injection E as Ed E. specialize (IH E).
  apply hex_digit_inj in Ed; [|by apply N.mod_lt..].
  rewrite Nat2N.inj_succ, N.pow_succ_r'. set (q := (16 ^ N.of_nat w)%N) in *.
  rewrite (N.mul_comm 16 q).
  assert (q ≠ 0)%N by (by apply N.pow_nonzero).
  rewrite !N.Div0.mod_mul_r. by rewrite Ed, IH.
Qed.

Lemma hex_encode_inj w v1 v2 :
  (v1 < 16 ^ N.of_nat w)%N → (v2 < 16 ^ N.of_nat w)%N → hex_encode w v1 = hex_encode w v2 → v1 = v2.
Proof. intros H1 H2 E%hex_encode_mod. by rewrite !N.mod_small in E. Qed.

Section Delivery.
Context {SO : SqlOrder} {AJ : ActionsJson}.

(** ** The terminal slot *)

(** A taken slot keeps its owner. *)
Lemma terminal_step o now id r r' :
  terminal_submitted (r_terminal r) = true → row_step o now id (Some r) (Some r') →
  r_terminal r' = r_terminal r.
Proof. intros Ht Hs. inversion Hs; subst; simpl; try done. congruence. Qed.

Lemma ClaimTerminal_run id w n now d :
  ClaimTerminal id w n now d =
    match stmt_fault d with
    | Some e => (Err (wrap_err "claim terminal" e), next_stmt d)
    | None =>
        match jobs d !! id with
        | Some r =>
            if terminal_submitted (r_terminal r) then
              (match stmt_fault (next_stmt d) with
               | Some e => Err (wrap_err "check job exists" e)
               | None => Ok false
               end, next_stmt (next_stmt d))
            else (Ok true, set_jobs (<[id := claim_terminal_row w n now r]> (jobs d)) (next_stmt d))
        | None =>
            (match stmt_fault (next_stmt d) with
             | Some e => Err (wrap_err "check job exists" e)
             | None => Err ErrNotFound
             end, next_stmt (next_stmt d))
        end
    end.
Proof.
  unfold ClaimTerminal, jobExists, mbind, M_bind, wrap, sql_update, sql_get.
  rewrite stmt_run. destruct (stmt_fault d); [done|]. simpl.
  destruct (jobs d !! id) as [r|] eqn:Hr; simpl.
  - destruct (terminal_submitted (r_terminal r)); [|done]. simpl.
    rewrite stmt_run. destruct (stmt_fault (next_stmt d)); [done|]. simpl. by rewrite Hr.
  - rewrite stmt_run. destruct (stmt_fault (next_stmt d)); [done|]. simpl. by rewrite Hr.
Qed.

(** ** Deliveries *)

Definition delivery_settled (r : row) : Prop :=
  result_delivery_status (r_delivery r) = DeliveryAcknowledged ∨
  result_delivery_status (r_delivery r) = DeliveryDeadLetter.

Ltac delivery_fence H :=
  unfold firstDeliveryFence, redeliveryFence, claimable in H; fence_props.

Lemma settled_step o now id r r' :
  delivery_settled r → row_step o now id (Some r) (Some r') → r_delivery r' = r_delivery r.
Proof.
  intros [E|E] Hs; inversion Hs; subst; simpl; try done;
    repeat match goal with
    | H : firstDeliveryFence _ _ _ = true |- _ => delivery_fence H
    | H : redeliveryFence _ _ = true |- _ => delivery_fence H
    | H : claimable _ _ = true |- _ => delivery_fence H
    end; congruence.
Qed.

(** The row is being redelivered under claim [tok] at least until [u]. *)
Definition claimed_until (tok : string) (u : instant) (r : row) : Prop :=
  result_delivery_status (r_delivery r) = DeliveryDelivering ∧
  result_delivery_claim_token (r_delivery r) = tok ∧
  result_delivery_claimed_until (r_delivery r) = Some (formatTS u).

(** Operations up to [u] other than the redelivery writes of claim [tok]. *)
Definition keeps_claim (id tok : string) (u : instant) (o : op) (now : instant) : Prop :=
  op_in_range o now ∧ now ≤ u ∧
  match o with
  | OpMarkResultDeliveryPending id' tok' _ _ | OpMarkResultDeliveryAcknowledged id' tok'
  | OpMarkResultDeliveryDeadLetter id' tok' _ => (id', tok') ≠ (id, tok)
  | _ => True
  end.

Lemma claimed_until_step o now id tok u r r' :
  ts_in_range u → keeps_claim id tok u o now → claimed_until tok u r →
  row_step o now id (Some r) (Some r') → claimed_until tok u r'.
Proof.
  intros Hin ([Hnow _] & Hu & Hk) (Hst & Htok & Hun) Hs.
  inversion Hs; subst; simpl in Hk; try done.
  - take firstDeliveryFence Hf. delivery_fence Hf. congruence.
  - take firstDeliveryFence Hf. delivery_fence Hf. congruence.
  - take redeliveryFence Hf. delivery_fence Hf. congruence.
  - take redeliveryFence Hf. delivery_fence Hf. congruence.
  - take redeliveryFence Hf. delivery_fence Hf. congruence.
  - take claimable Hf. unfold claimable in Hf. rewrite Hst, Hun in Hf. simpl in Hf.
    rewrite formatTS_ltb in Hf by done. apply Z.ltb_lt in Hf. lia.
Qed.

Lemma redeliveryFence_true tok r :
  redeliveryFence tok r = true ↔
  result_delivery_status (r_delivery r) = DeliveryDelivering ∧
  result_delivery_claim_token (r_delivery r) = tok ∧ tok ≠ "".
Proof.
  unfold redeliveryFence.
  rewrite !andb_true_iff, negb_true_iff, !bool_decide_eq_true, bool_decide_eq_false.
  split; [intros [[? ?] <-]|intros (? & <- & ?)]; done.
Qed.

(** The three writes of one redelivery attempt. *)
Inductive redelivery_write (id tok : string) : M unit → (row → row) → Prop :=
| write_pending le at_ now :
    redelivery_write id tok (MarkResultDeliveryPending id tok le at_ now)
      (redelivery_pending_row le at_ now)
| write_acknowledged now :
    redelivery_write id tok (MarkResultDeliveryAcknowledged id tok now) (acknowledged_row now)
| write_dead_letter le now :
    redelivery_write id tok (MarkResultDeliveryDeadLetter id tok le now) (dead_letter_row le now).

Lemma redelivery_write_fenced id tok m f :
  redelivery_write id tok m f →
  (∃ msg, m = fenced msg ErrDeliveryFenced id (redeliveryFence tok) f) ∧
  ∀ r, result_delivery_status (r_delivery (f r)) ≠ DeliveryDelivering ∧
       result_delivery_claim_token (r_delivery (f r)) = "".
Proof. intros []; (split; [by eexists|done]). Qed.

(** The two first-delivery writes of an attempt. *)
Inductive first_write (id w : string) (n : Z) : M unit → Prop :=
| write_first_pending p le at_ now :
    first_write id w n (MarkFirstDeliveryPending id w n p le at_ now)
| write_first_dead_letter p le now :
    first_write id w n (MarkFirstDeliveryDeadLetter id w n p le now).

Lemma first_write_fenced id w n m :
  first_write id w n m →
  ∃ msg f, m = fenced msg ErrDeliveryFenced id (firstDeliveryFence w n) f ∧
    ∀ r, result_delivery_status (r_delivery (f r)) ≠ DeliveryNotApplicable ∧
         r_ident (f r) = r_ident r ∧ r_terminal (f r) = r_terminal r.
Proof.
  intros [].
  - by exists "mark first delivery pending", (first_pending_row p le at_ now).
  - by exists "mark first delivery dead letter", (first_dead_letter_row p le now).
Qed.

(** Once an outcome is recorded the row never goes back to not_applicable. *)
Lemma recorded_step o now id r r' :
  result_delivery_status (r_delivery r) ≠ DeliveryNotApplicable →
  row_step o now id (Some r) (Some r') →
  result_delivery_status (r_delivery r') ≠ DeliveryNotApplicable.
Proof. intros H Hs. by inversion Hs; subst. Qed.

(** An outcome is recorded, and the record stays with the row until it is
    acknowledged. *)
Definition keeps_payload (p : string) (r : row) : Prop :=
  result_delivery_status (r_delivery r) ≠ DeliveryNotApplicable ∧
  (result_delivery_payload (r_delivery r) = p ∨ result_delivery_status (r_delivery r) = DeliveryAcknowledged).

Lemma keeps_payload_step p o now id r r' :
  keeps_payload p r → row_step o now id (Some r) (Some r') → keeps_payload p r'.
Proof.
  intros [Hn Hp] Hs. split; [by eapply recorded_step|].
  inversion Hs; subst; cbn; auto.
  - take firstDeliveryFence Hf. unfold firstDeliveryFence in Hf. by fence_props.
  - take firstDeliveryFence Hf. unfold firstDeliveryFence in Hf. by fence_props.
  - take redeliveryFence Hf. apply redeliveryFence_true in Hf as (Hd & _).
    destruct Hp as [Hp|Hp]; [by left|congruence].
  - take redeliveryFence Hf. apply redeliveryFence_true in Hf as (Hd & _).
    destruct Hp as [Hp|Hp]; [by left|congruence].
  - take claimable Hf. unfold claimable in Hf. destruct Hp as [Hp|Hp]; [by left|].
    by rewrite Hp in Hf.
Qed.

(** ** Properties *)

(** At most one attempt gets to submit a job's terminal record. Once
    ClaimTerminal answered true to (w, n), the slot stays with (w, n) through
    any operations, and no later ClaimTerminal on the job answers true. *)
Theorem ClaimTerminal_at_most_once id w n now d d1 d2 w' n' now' :
  table_keyed (jobs d) → ClaimTerminal id w n now d = (Ok true, d1) → history any_op d1 d2 →
  (ClaimTerminal id w' n' now' d2).1 ≠ Ok true ∧
  jobs (ClaimTerminal id w' n' now' d2).2 = jobs d2 ∧
  ∃ r, jobs d2 !! id = Some r ∧ r_terminal r = Terminal true w n.
Proof.
  intros Hk Hc Hh. rewrite ClaimTerminal_run in Hc.
  destruct (stmt_fault d); [done|]. destruct (jobs d !! id) as [r|] eqn:Hr.
  2:{ by destruct (stmt_fault (next_stmt d)). }
  destruct (terminal_submitted (r_terminal r)) eqn:Ht.
  { by destruct (stmt_fault (next_stmt d)). }
  injection Hc as <-.
  destruct (history_row_keep any_op id (λ r, r_terminal r = Terminal true w n)) with
    (d := set_jobs (<[id := claim_terminal_row w n now r]> (jobs d)) (next_stmt d)) (d' := d2)
    (r := claim_terminal_row w n now r) as (r2 & Hr2 & E2); try done.
  - intros o t r1 r1' _ E Hs. rewrite <- E. apply (terminal_step _ _ _ _ _ ltac:(by rewrite E) Hs).
  - by apply (table_keyed_insert _ _ r).
  - simpl. by rewrite lookup_insert_eq.
  - rewrite ClaimTerminal_run, Hr2, E2. simpl. split_and!.
    + destruct (stmt_fault d2); [done|]. by destruct (stmt_fault (next_stmt d2)).
    + by destruct (stmt_fault d2).
    + by exists r2.
Qed.

(** The first delivery outcome is recorded at most once, by the owner of
    the terminal slot. A MarkFirstDelivery call that succeeds was made by the
    attempt the slot names, and from then on every MarkFirstDelivery call by
    anyone fails with ErrDeliveryFenced, unless its statement itself failed,
    and changes no row. *)
Theorem first_delivery_once id w n m d d1 d2 w' n' m' :
  reachable any_op d → first_write id w n m → m d = (Ok tt, d1) → history any_op d1 d2 →
  first_write id w' n' m' →
  (∃ r, jobs d !! id = Some r ∧ r_terminal r = Terminal true w n) ∧
  jobs (m' d2).2 = jobs d2 ∧ is_ok (m' d2).1 = false ∧
  (stmt_fault d2 = None → (m' d2).1 = Err ErrDeliveryFenced).
Proof.
  intros Hre Hm Hrun Hh Hm'.
  pose proof (reachable_keyed _ _ Hre) as Hk.
  apply first_write_fenced in Hm as (msg & f & -> & Hf).
  apply first_write_fenced in Hm' as (msg' & f' & -> & _).
  pose proof (fenced_run msg ErrDeliveryFenced id (firstDeliveryFence w n) f d) as Hrun'.
  rewrite Hrun in Hrun'. destruct (stmt_fault d); [done|].
  destruct (jobs d !! id) as [r|] eqn:Hr; [|done].
  destruct (firstDeliveryFence w n r) eqn:Hfe; [|done]. injection Hrun' as ->.
  destruct (Hf r) as (Hst & Hi & Hte).
  destruct (history_row_keep any_op id
      (λ r, result_delivery_status (r_delivery r) ≠ DeliveryNotApplicable)) with
    (d := set_jobs (<[id := f r]> (jobs d)) (next_stmt d)) (d' := d2) (r := f r)
    as (r2 & Hr2 & E2); try done.
  { intros o t r1 r1' _ H1 Hs. by eapply recorded_step. }
  { by apply (table_keyed_insert _ _ r). }
  { simpl. by rewrite lookup_insert_eq. }
  split.
  { exists r. split; [done|]. delivery_fence Hfe. destruct (r_terminal r); simpl in *. congruence. }
  destruct (fenced_out msg' ErrDeliveryFenced id (firstDeliveryFence w' n') f' d2) as [-> ->].
  { intros r0. rewrite Hr2. intros [= <-]. unfold firstDeliveryFence.
    rewrite (bool_decide_eq_false_2 _ E2). by rewrite !andb_false_r. }
  split_and!; [done..|]. by intros ->.
Qed.

(** A settled delivery is final. Once a record is acknowledged or dead
    lettered, no operation changes any delivery column of the job. *)
Theorem delivery_settled_forever d d' id r :
  table_keyed (jobs d) → jobs d !! id = Some r → delivery_settled r → history any_op d d' →
  ∃ r', jobs d' !! id = Some r' ∧ r_delivery r' = r_delivery r.
Proof.
  intros Hk Hr Hs Hh.
  destruct (history_row_keep any_op id (λ r', delivery_settled r' ∧ r_delivery r' = r_delivery r))
    with (d := d) (d' := d') (r := r) as (r' & Hr' & _ & E); try done.
  - intros o t r1 r2 _ [H1 E] Hst. pose proof (settled_step _ _ _ _ _ H1 Hst) as E2.
    split; [|congruence]. unfold delivery_settled. by rewrite E2.
  - by exists r'.
Qed.

(** C20: a redelivery claim excludes other replicas. Between the claim of
    record [id] with token [tok] and its expiry at [u], no operations other
    than the writes of that claim, not even further claims, move the record or
    change its token: it is still being delivered under [tok], and a write of
    any other token fails and changes nothing. *)
Theorem redelivery_claim_exclusive id tok tok' u d d' r m f :
  table_keyed (jobs d) → jobs d !! id = Some r → claimed_until tok u r → ts_in_range u →
  history (keeps_claim id tok u) d d' →
  tok' ≠ tok → redelivery_write id tok' m f →
  (∃ r', jobs d' !! id = Some r' ∧ claimed_until tok u r') ∧
  jobs (m d').2 = jobs d' ∧ (stmt_fault d' = None → (m d').1 = Err ErrDeliveryFenced).
Proof.
  intros Hk Hr Hc Hu Hh Hne Hm.
  destruct (history_row_keep (keeps_claim id tok u) id (claimed_until tok u))
    with (d := d) (d' := d') (r := r) as (r' & Hr' & Hc'); try done.
  { intros o t r1 r2 Ho H1 Hs. by eapply claimed_until_step. }
  split; [by exists r'|]. apply redelivery_write_fenced in Hm as [[msg ->] _].
  destruct (fenced_out msg ErrDeliveryFenced id (redeliveryFence tok') f d') as [-> ->].
  { intros r0. rewrite Hr'. intros [= <-]. destruct Hc' as (_ & Ht & _).
    destruct (redeliveryFence tok' r') eqn:E; [|done].
    apply redeliveryFence_true in E as (_ & Ht' & _). congruence. }
  split; [done|]. by intros ->.
Qed.

(** A claim token pays for one write. A redelivery write with token [tok]
    either finds the record being delivered under [tok], applies its outcome and
    spends the token, so that a second write with it fails; or it fails with
    ErrDeliveryFenced (or its statement's error) and changes no row. *)
Theorem redelivery_token_spent id tok m f m' f' d :
  redelivery_write id tok m f → redelivery_write id tok m' f' →
  match m d with
  | (Ok _, d1) =>
      tok ≠ "" ∧
      (∃ r, jobs d !! id = Some r ∧ result_delivery_status (r_delivery r) = DeliveryDelivering ∧
            result_delivery_claim_token (r_delivery r) = tok ∧
            jobs d1 = <[id := f r]> (jobs d)) ∧
      jobs (m' d1).2 = jobs d1 ∧ is_ok (m' d1).1 = false
  | (Err e, d1) =>
      jobs d1 = jobs d ∧ (stmt_fault d = None → e = ErrDeliveryFenced)
  end.
Proof.
  intros Hm Hm'. apply redelivery_write_fenced in Hm as [[msg ->] Hf].
  apply redelivery_write_fenced in Hm' as [[msg' ->] _].
  pose proof (fenced_run msg ErrDeliveryFenced id (redeliveryFence tok) f d) as E.
  destruct (stmt_fault d) as [x|]; [by rewrite E|].
  destruct (jobs d !! id) as [r|] eqn:Hr; [|by rewrite E].
  destruct (redeliveryFence tok r) eqn:Hfe; rewrite E; [|done].
  apply redeliveryFence_true in Hfe as (H1 & H2 & H3).
  split; [done|]. split; [by exists r|].
  set (d1 := set_jobs _ _).
  destruct (fenced_out msg' ErrDeliveryFenced id (redeliveryFence tok) f' d1) as [-> ->]; [|done].
  intros r0. simpl. rewrite lookup_insert_eq. intros [= <-].
  destruct (redeliveryFence tok (f r)) eqn:E'; [|done].
  apply redeliveryFence_true in E' as (Hd & _). by destruct (Hf r).
Qed.

(** ** Claiming *)

(** crypto/rand answers the next [k] reads. *)
Definition rand_ready (k : nat) (d : db) : Prop :=
  (k ≤ length (rng d))%nat ∧ Forall (λ v, is_Some v) (take k (rng d)).

Lemma claim_row_canonical until tok now r :
  ts_in_range now → ts_in_range until → row_canonical r →
  row_canonical (claim_row (formatTS until) tok (formatTS now) r).
Proof. intros ?? []. constructor; simpl; auto with store. Qed.

Lemma newClaimToken_ready k d :
  rand_ready (S k) d →
  ∃ v d1, newClaimToken d = (Ok (hex_encode 32 v), d1) ∧ rand_ready k d1 ∧
    jobs d1 = jobs d ∧ faults d1 = faults d.
Proof.
  intros [Hl Hf]. unfold newClaimToken, wrap, rand_hex.
  destruct (rng d) as [|v vs] eqn:E; [simpl in Hl; lia|]. simpl in Hl, Hf.
  apply Forall_cons in Hf as [[x ->] Hf].
  exists x. eexists. split; [reflexivity|]. split; [|done]. split; [simpl; lia|done].
Qed.

(** With no failing statement and enough randomness the loop of
    ClaimPendingDeliveries claims every job it was given. *)
Lemma claim_each_healthy until now ids d :
  ts_in_range now → ts_in_range until → faults d = [] → rand_ready (length ids) d →
  (∀ id r, jobs d !! id = Some r → row_canonical r) →
  Forall (λ id, is_Some (jobs d !! id)) ids →
  ∃ js d', claim_each (formatTS until) (formatTS now) ids d = (Ok js, d') ∧ faults d' = [].
Proof.
  intros Hn Hu. revert d. induction ids as [|id ids IH]; intros d Hf Hr Hc Hids; [by exists [], d|].
  apply Forall_cons in Hids as [[r Hid] Hids].
  destruct (newClaimToken_ready _ _ Hr) as (v & d1 & E1 & Hr1 & Ej & Ef). rewrite Hf in Ef.
  set (r' := claim_row (formatTS until) (hex_encode 32 v) (formatTS now) r).
  assert (row_canonical r') as Hc' by (apply claim_row_canonical; eauto).
  destruct (scanJob_canonical _ Hc') as (j & Hj & _).
  set (d2 := set_jobs (<[id := r']> (jobs d1)) d1).
  destruct (IH d2) as (js & d3 & E3 & Hf3); try done.
  - intros id' r0. simpl. rewrite Ej. destruct (decide (id = id')) as [<-|Hne].
    + rewrite lookup_insert_eq. by intros [= <-].
    + rewrite lookup_insert_ne by done. apply Hc.
  - eapply Forall_impl; [exact Hids|]. intros id' [r0 H0]. simpl. rewrite Ej.
    rewrite lookup_insert_is_Some. destruct (decide (id = id')); [by left|right; eauto].
  - exists (j :: js), d3. split; [|done].
    cbn [claim_each]. unfold mbind at 1, M_bind at 1. rewrite E1.
    unfold mbind at 1, M_bind at 1, wrap at 1. rewrite update_healthy, Ej, Hid by done.
    fold r'. rewrite <- Ej. fold d2.
    unfold mbind at 1, M_bind at 1, wrap at 1. rewrite get_healthy by done.
    simpl (jobs d2). rewrite lookup_insert_eq. unfold mbind, M_bind, wrap, lift. rewrite Hj, E3. done.
Qed.

(** The jobs a claim returns are those it was asked for, in order. *)
Lemma claimed_ids until nowStr t t' ids js :
  table_keyed t → Forall2 (claimed until nowStr t t') ids js → JobID <$> js = ids.
Proof.
  intros Hk. induction 1 as [|id j ids js (r & v & Hr & _ & Hj) _ IH]; [done|].
  csimpl. rewrite IH. f_equal. rewrite (sc_id _ _ (scanJob_scanned _ _ Hj)). simpl. by apply Hk.
Qed.

Lemma claimed_job until now t t' id j :
  ts_in_range until → table_keyed t → claimed (formatTS until) (formatTS now) t t' id j →
  ∃ r r', t !! id = Some r ∧ t' !! id = Some r' ∧
    claimed_until (ResultDeliveryClaimToken j) until r' ∧ ResultDeliveryClaimToken j ≠ "" ∧
    ResultDeliveryPayload j = result_delivery_payload (r_delivery r).
Proof.
  intros Hu Hk (r & v & Hr & Hr' & Hj). pose proof (scanJob_scanned _ _ Hj) as Hs.
  exists r. eexists. split; [done|]. split; [exact Hr'|].
  rewrite (sc_token _ _ Hs), (sc_payload _ _ Hs). done.
Qed.

Lemma claim_body_healthy limit ttl now d :
  reachable op_in_range d → op_in_range (OpClaimPendingDeliveries limit ttl) now → 0 ≤ limit →
  faults d = [] → rand_ready (Z.to_nat limit) d →
  ∃ js d', claim_body limit ttl now d = (Ok js, d') ∧ faults d' = [].
Proof.
  intros Hr [Hn Hu] Hl Hf Hrand. pose proof (reachable_keyed _ _ Hr) as Hk.
  unfold claim_body, mbind, M_bind, wrap. rewrite select_healthy by done.
  apply claim_each_healthy; try done.
  - destruct Hrand as [Hlen Hall]. rewrite length_fmap, select_rows_length by done.
    set (k := Nat.min _ _). assert (k ≤ Z.to_nat limit)%nat by lia. split; [lia|].
    rewrite <- (Nat.min_l k (Z.to_nat limit)), <- take_take by lia. by apply Forall_take.
  - intros id r. by apply reachable_row_canonical.
  - apply Forall_forall. intros id Hin.
    destruct (select_ids_lookup _ _ _ _ _ Hk Hin) as (r & Hid & _). eauto.
Qed.

(** Each claim reads a token of its own. *)
Lemma claim_each_tokens until now ids d js d' :
  claim_each until now ids d = (Ok js, d') →
  ∃ vs, rng d = (Some <$> vs) ++ rng d' ∧ ResultDeliveryClaimToken <$> js = hex_encode 32 <$> vs.
Proof.
  revert d js. induction ids as [|id ids IH]; intros d js H; cbn [claim_each] in H.
  { injection H as <- <-. by exists []. }
  bind_inv H tok d1 H1. bind_inv H n d2 H2. bind_inv H o d3 H3. bind_inv H j d4 H4. bind_inv H rest d5 H5.
  injection H as <- <-. apply get_ok in H3 as [-> ->].
  assert (∃ v, tok = hex_encode 32 v ∧ rng d = Some v :: rng d1) as (v & -> & Hv).
  { unfold rand_hex in H1.
    destruct (rng d) as [|[v|] vs] eqn:Hrng; try discriminate. injection H1 as <- <-. by exists v. }
  assert (rng d2 = rng d1) as Hd2.
  { unfold sql_update in H2. rewrite stmt_run in H2. destruct (stmt_fault d1); [done|].
    cbn in H2. by destruct (jobs d1 !! id); injection H2 as <- <-. }
  apply update_ok in H2. destruct (jobs d2 !! id) as [r'|] eqn:Hr'; [|done].
  apply wrap_ok in H4. destruct (scanJob r') as [j'|e] eqn:Hs; [|done]. injection H4 as -> <-.
  destruct (IH _ _ H5) as (vs & Hrng & Htok). exists (v :: vs). split.
  - rewrite Hv, <- Hd2. cbn. by rewrite <- Hrng.
  - cbn. rewrite Htok. f_equal. apply scanJob_scanned in Hs. rewrite (sc_token _ _ Hs).
    destruct (jobs d1 !! id) as [r|] eqn:Hr; destruct H2 as [_ Hj]; [|by rewrite Hj, Hr in Hr'].
    rewrite Hj, lookup_insert_eq in Hr'. by injection Hr' as <-.
Qed.

Lemma ClaimPendingDeliveries_tokens limit ttl now d js d' :
  ClaimPendingDeliveries limit ttl now d = (Ok js, d') →
  ∃ vs, rng d = (Some <$> vs) ++ rng d' ∧ ResultDeliveryClaimToken <$> js = hex_encode 32 <$> vs.
Proof.
  rewrite ClaimPendingDeliveries_body, in_tx_run. destruct (stmt_fault d); [done|].
  destruct (claim_body limit ttl now (next_stmt d)) as [[js1|e] d2] eqn:Hb; [|done].
  destruct (stmt_fault d2); [done|]. intros [= <- <-].
  unfold claim_body in Hb. bind_inv Hb rows d1 H1. apply select_ok in H1 as [_ ->].
  by apply claim_each_tokens in Hb.
Qed.

Lemma tokens_distinct js vs :
  ResultDeliveryClaimToken <$> js = hex_encode 32 <$> vs →
  Forall (λ v, (v < 2 ^ 128)%N) vs → NoDup vs → NoDup (ResultDeliveryClaimToken <$> js).
Proof.
  intros -> Hv Hnd. apply NoDup_fmap_2_strong; [|done]. intros v1 v2 H1 H2.
  rewrite Forall_forall in Hv. apply hex_encode_inj; by apply Hv.
Qed.

Lemma ClaimPendingDeliveries_answers limit ttl now d :
  reachable op_in_range d → op_in_range (OpClaimPendingDeliveries limit ttl) now → 0 ≤ limit →
  let due := matching (claimable (formatTS now)) (jobs d) in
  match ClaimPendingDeliveries limit ttl now d with
  | (Ok js, d') =>
      length js = Nat.min (Z.to_nat limit) (length due) ∧ NoDup (JobID <$> js) ∧
      (∀ j, j ∈ js → ∃ r r', jobs d !! JobID j = Some r ∧ r ∈ due ∧
         jobs d' !! JobID j = Some r' ∧
         claimed_until (ResultDeliveryClaimToken j) (time_add now ttl) r' ∧
         ResultDeliveryClaimToken j ≠ "" ∧
         ResultDeliveryPayload j = result_delivery_payload (r_delivery r) ∧
         ∀ r2, r2 ∈ due → job_id (r_ident r2) ∉ JobID <$> js →
               text_leb (updated_at r) (updated_at r2) = true) ∧
      (∀ id, id ∉ JobID <$> js → jobs d' !! id = jobs d !! id)
  | (Err e, d') => jobs d' = jobs d ∧ ¬ (faults d = [] ∧ rand_ready (Z.to_nat limit) d)
  end.
Proof.
  intros Hr Ho Hl due. pose proof (reachable_keyed _ _ Hr) as Hk. subst due.
  rewrite ClaimPendingDeliveries_body.
  destruct (in_tx_jobs "begin claim tx" (λ out : list Job, match out with
    | [] => "commit empty claim tx" | _ => "commit claim tx" end) (claim_body limit ttl now) d)
    as [[Ej Eok]|(js & d2 & Hb & ->)].
  - destruct (in_tx _ _ _ d) as [[js|e] d'] eqn:E; [done|]. split; [done|]. intros [Hf Hrand].
    destruct (claim_body_healthy _ _ _ _ Hr Ho Hl Hf Hrand) as (js & d2 & Hb & Hf2).
    rewrite in_tx_healthy, Hb in E by done. unfold stmt_fault in E. by rewrite Hf2 in E.
  - apply claim_body_ok in Hb; [|done]. simpl in Hb. destruct Hb as [Hin Hout].
    pose proof (claimed_ids _ _ _ _ _ _ Hk Hin) as Hids. rewrite Hids.
    split_and!.
    + rewrite <- select_rows_length with (key := updated_at) by done.
      apply Forall2_length in Hin. by rewrite length_fmap in Hin.
    + by apply select_ids_nodup.
    + intros j Hj. assert (JobID j ∈ JobID <$> js) as Hid by by apply list_elem_of_fmap_2.
      apply list_elem_of_lookup in Hj as [i Hi].
      destruct (Forall2_lookup_r _ _ _ _ _ Hin Hi) as (id & Hidi & Hc).
      rewrite <- Hids in Hidi. rewrite list_lookup_fmap, Hi in Hidi. injection Hidi as <-.
      destruct (claimed_job _ _ _ _ _ _ (proj2 Ho) Hk Hc) as (r & r' & H1 & H2 & H3 & H4 & H5).
      exists r, r'. rewrite Hids in Hid. apply list_elem_of_fmap in Hid as (r0 & E0 & Hr0).
      destruct (elem_of_select _ _ _ _ _ Hr0) as (Hp & id0 & Hid0).
      rewrite <- (Hk _ _ Hid0), <- E0 in Hid0. simpl in H1. rewrite H1 in Hid0. injection Hid0 as <-.
      split_and!; try done.
      * apply elem_of_matching. eauto.
      * intros r2 Hr2 Hnot. eapply select_rows_first; [exact Hr0|exact Hr2|].
        intros Hin2. apply Hnot. by apply (list_elem_of_fmap_2 (λ r, job_id (r_ident r))).
    + intros id Hid. by apply Hout.
Qed.

(** C34: ClaimPendingDeliveries. A successful call claims min(limit, due)
    records, oldest update first, each once: it was due (pending and past its
    retry time, or delivering under an expired claim), is now delivering under
    the token the returned job carries, until now + ttl, and keeps its payload;
    every other row is unchanged. The tokens are the next values of crypto/rand,
    one for each job, so that no two jobs of a call, nor of two, share one unless
    it repeats a value. A failed call changes no row, and none fails unless a
    statement or crypto/rand did. *)
Theorem ClaimPendingDeliveries_claims limit ttl now d :
  reachable op_in_range d → op_in_range (OpClaimPendingDeliveries limit ttl) now → 0 ≤ limit →
  let due := matching (claimable (formatTS now)) (jobs d) in
  match ClaimPendingDeliveries limit ttl now d with
  | (Ok js, d') =>
      length js = Nat.min (Z.to_nat limit) (length due) ∧ NoDup (JobID <$> js) ∧
      (∀ j, j ∈ js → ∃ r r', jobs d !! JobID j = Some r ∧ r ∈ due ∧
         jobs d' !! JobID j = Some r' ∧
         claimed_until (ResultDeliveryClaimToken j) (time_add now ttl) r' ∧
         ResultDeliveryPayload j = result_delivery_payload (r_delivery r) ∧
         ∀ r2, r2 ∈ due → job_id (r_ident r2) ∉ JobID <$> js →
               text_leb (updated_at r) (updated_at r2) = true) ∧
      (∃ vs, rng d = (Some <$> vs) ++ rng d' ∧ ResultDeliveryClaimToken <$> js = hex_encode 32 <$> vs ∧
         (Forall (λ v, (v < 2 ^ 128)%N) vs → NoDup vs → NoDup (ResultDeliveryClaimToken <$> js))) ∧
      (∀ id, id ∉ JobID <$> js → jobs d' !! id = jobs d !! id)
  | (Err e, d') => jobs d' = jobs d ∧ ¬ (faults d = [] ∧ rand_ready (Z.to_nat limit) d)
  end.
Proof.
  intros Hr Ho Hl due. pose proof (ClaimPendingDeliveries_answers limit ttl now d Hr Ho Hl) as H.
  destruct (ClaimPendingDeliveries limit ttl now d) as [[js|e] d'] eqn:E; [|exact H].
  destruct H as (H1 & H2 & H3 & H4). split_and!; [done|done| | |done].
  - intros j Hj. destruct (H3 j Hj) as (r & r' & ? & ? & ? & ? & _ & ?). eauto 10.
  - destruct (ClaimPendingDeliveries_tokens _ _ _ _ _ _ E) as (vs & Hv & Ht). exists vs. split_and!; [done..|].
    by apply tokens_distinct.
Qed.

End Delivery.

(** ** Concrete runs *)

Lemma ClaimTerminal_at_most_once_witness :
  (ClaimTerminal "job-1" "w2" 2 (at_s 50) d_delivering).1 ≠ Ok true.
Proof.
  apply (ClaimTerminal_at_most_once "job-1" "w1" 1 (at_s 3)
           (Db (jobs d_executing) (store_meta d_executing) [] []) d_claimed).
  - apply (reachable_keyed op_in_range). apply executing_reachable.
  - vm_compute. reflexivity.
  - unfold d_delivering, d_pending. apply history_after; [|done|done].
    apply history_after; [constructor|done|done].
Defined.

Lemma first_delivery_once_witness :
  is_ok (MarkFirstDeliveryDeadLetter "job-1" "w1" 1 "{}" "late" (at_s 40) d_delivering).1 = false.
Proof.
  apply (first_delivery_once "job-1" "w1" 1
           (MarkFirstDeliveryPending "job-1" "w1" 1 "{}" "timeout" (at_s 10) (at_s 4))
           (Db (jobs d_claimed) (store_meta d_claimed) [] []) d_pending d_delivering "w1" 1
           (MarkFirstDeliveryDeadLetter "job-1" "w1" 1 "{}" "late" (at_s 40))).
  - eapply reachable_any. apply claimed_reachable.
  - constructor.
  - vm_compute. reflexivity.
  - unfold d_delivering. apply history_after; [constructor|done|done].
  - constructor.
Defined.

Definition d_acknowledged : db :=
  after d_delivering (OpMarkResultDeliveryAcknowledged "job-1" (hex_encode 32 9)) (at_s 21) [].

Lemma delivery_settled_forever_witness :
  ∃ r', jobs (after d_acknowledged (OpClaimPendingDeliveries 10 second) (at_s 99) [Some 3%N])
          !! "job-1" = Some r' ∧ r_delivery r' = r_delivery (sample_row d_acknowledged).
Proof.
  apply (delivery_settled_forever d_acknowledged).
  - apply (reachable_keyed any_op). apply reachable_after; [|done|done].
    eapply reachable_any, delivering_reachable.
  - apply sample_row_lookup. vm_compute. reflexivity.
  - left. vm_compute. reflexivity.
  - apply history_after; [constructor|done|done].
Defined.

Lemma redelivery_claim_exclusive_witness :
  let d' := after d_delivering (OpClaimPendingDeliveries 10 second) (at_s 49) [Some 3%N] in
  jobs (MarkResultDeliveryAcknowledged "job-1" (hex_encode 32 3) (at_s 49) d').2 = jobs d'.
Proof.
  intros d'.
  apply (redelivery_claim_exclusive "job-1" (hex_encode 32 9) (hex_encode 32 3) (at_s 50)
           d_delivering d' (sample_row d_delivering) _ (acknowledged_row (at_s 49))).
  - apply (reachable_keyed op_in_range), delivering_reachable.
  - apply sample_row_lookup. vm_compute. reflexivity.
  - vm_compute. repeat split.
  - vm_compute. split; discriminate.
  - apply history_after; [constructor|done|].
    split; [in_range|]. split; [vm_compute; discriminate|exact I].
  - vm_compute. discriminate.
  - constructor.
Defined.

Lemma redelivery_token_spent_witness :
  is_ok (MarkResultDeliveryDeadLetter "job-1" (hex_encode 32 9) "HTTP 400" (at_s 22)
           d_acknowledged).1 = false.
Proof.
  pose proof (redelivery_token_spent "job-1" (hex_encode 32 9)
    (MarkResultDeliveryAcknowledged "job-1" (hex_encode 32 9) (at_s 21)) (acknowledged_row (at_s 21))
    (MarkResultDeliveryDeadLetter "job-1" (hex_encode 32 9) "HTTP 400" (at_s 22))
    (dead_letter_row "HTTP 400" (at_s 22))
    (Db (jobs d_delivering) (store_meta d_delivering) [] [])
    ltac:(constructor) ltac:(constructor)) as H.
  change d_acknowledged with (MarkResultDeliveryAcknowledged "job-1" (hex_encode 32 9) (at_s 21)
    (Db (jobs d_delivering) (store_meta d_delivering) [] [])).2.
  destruct (MarkResultDeliveryAcknowledged "job-1" (hex_encode 32 9) (at_s 21) _)
    as [[x|e] d1] eqn:E; [apply H|]. exfalso. vm_compute in E. discriminate.
Defined.

Lemma ClaimPendingDeliveries_claims_witness :
  ∃ js d', ClaimPendingDeliveries 10 (30 * second) (at_s 20)
             (Db (jobs d_pending) (store_meta d_pending) [] [Some 9%N]) = (Ok js, d') ∧
           length js = 1%nat ∧ ResultDeliveryClaimToken <$> js = [hex_encode 32 9].
Proof.
  assert (reachable op_in_range (Db (jobs d_pending) (store_meta d_pending) [] [Some 9%N])) as Hr.
  { exact (reachable_after op_in_range _ (OpGetJob "job-1") (at_s 5) [Some 9%N]
      pending_reachable I ltac:(in_range)). }
  pose proof (ClaimPendingDeliveries_claims 10 (30 * second) (at_s 20) _ Hr
    ltac:(in_range) ltac:(discriminate)) as H.
  destruct (ClaimPendingDeliveries 10 (30 * second) (at_s 20) _) as [[js|e] d'] eqn:E.
  - exists js, d'. destruct H as (Hlen & _ & _ & (vs & Hv & Ht & _) & _). split; [done|].
    assert (length js = 1%nat) as H1 by (rewrite Hlen; vm_compute; reflexivity). split; [exact H1|].
    rewrite Ht. apply (f_equal length) in Ht. rewrite !length_fmap, H1 in Ht.
    destruct vs as [|v [|v2 vs]]; [discriminate| |discriminate]. injection Hv as <- _. reflexivity.
  - exfalso. vm_compute in E. discriminate.
Defined.
