(* ===== verification/StoreExec.v ===== *)
(** * StoreExec: execution identities

    EnsureExecution and MarkExecutionTerminal: an execution is minted only when
    none is live, every attempt adopts the live one, and a superseded execution
    cannot be closed in place of the current one. *)

From S2P Require Import Prelude GoTime Errors Work Db Fingerprint Store Instances.
From S2P Require Import StoreSpec StoreRun StoreStep RowInv RowRead Samples.

(** The execution identity a row is on, when it has a live one. *)
Definition live_execution (r : row) : option string :=
  if bool_decide (execution_id (r_exec r) = "") || execution_terminal (r_exec r) then None
  else Some (execution_id (r_exec r)).

Lemma live_execution_some r e :
  live_execution r = Some e ↔
  execution_id (r_exec r) = e ∧ e ≠ "" ∧ execution_terminal (r_exec r) = false.
Proof.
  unfold live_execution. destruct (bool_decide_reflect (execution_id (r_exec r) = "")) as [E|E];
    destruct (execution_terminal (r_exec r)); simpl; split; intros H; try done;
    try (destruct H as (<- & ? & ?); done).
  injection H as <-. done.
Qed.

Lemma minted_not_empty n v : minted n v ≠ "".
Proof. done. Qed.

Section Exec.
Context {SO : SqlOrder} {AJ : ActionsJson}.

Lemma live_execution_step o now id e r r' :
  (∀ e', o = OpMarkExecutionTerminal id e' → e' ≠ e) →
  live_execution r = Some e → row_step o now id (Some r) (Some r') → live_execution r' = Some e.
Proof.
  intros Ho He Hs. inversion Hs; subst; try exact He.
  - apply live_execution_some in He as (E1 & E2 & E3).
    match goal with H : _ ∨ _ |- _ => destruct H; congruence end.
  - apply live_execution_some in He as (E1 & E2 & E3). take executing Hf.
    unfold executing in Hf. fence_props. destruct (Ho e0); [done|congruence].
Qed.

(** EnsureExecution, whatever fails: adopt the live identity, or mint one when
    there is none, or change nothing. *)
Lemma EnsureExecution_cases id now d :
  match EnsureExecution id now d with
  | (Ok (e, adopted), d') =>
      ∃ r, jobs d !! id = Some r ∧
        match live_execution r with
        | Some e0 => e = e0 ∧ adopted = true ∧ jobs d' = jobs d
        | None => adopted = false ∧ (∃ v, e = minted (attempt (r_lease r)) v) ∧
                  jobs d' = <[id := mint_row e now r]> (jobs d)
        end
  | (Err _, d') => jobs d' = jobs d
  end.
Proof.
  rewrite EnsureExecution_body.
  destruct (in_tx_jobs "begin execution tx" (λ _, "commit execution tx") (ensure_body id now) d)
    as [[Ej Eok]|([e adopted] & d2 & Hb & ->)].
  - by destruct (in_tx _ _ _ d) as [[[e a]|x] d'].
  - apply ensure_body_ok in Hb as (r & Hr & H). exists r. split; [done|].
    destruct adopted; simpl in *.
    + destruct H as (-> & Hne & Ht & ->).
      assert (live_execution r = Some (execution_id (r_exec r))) as -> by
        by apply live_execution_some. done.
    + destruct H as (Hm & Hv & ->).
      assert (live_execution r = None) as ->.
      { destruct (live_execution r) as [e0|] eqn:E; [|done].
        apply live_execution_some in E as (? & ? & ?). destruct Hm; congruence. }
      done.
Qed.

Lemma ensure_body_healthy id now d r :
  faults d = [] → jobs d !! id = Some r →
  (∃ v vs, rng d = Some v :: vs) →
  ∃ x d2, ensure_body id now d = (Ok x, d2) ∧ faults d2 = [].
Proof.
  intros Hf Hr (v & vs & Hrng). unfold ensure_body, mbind at 1, M_bind at 1, wrap at 1.
  rewrite get_healthy, Hr by done. simpl.
  destruct (negb _ && negb _); [by exists (execution_id (r_exec r), true), d|].
  unfold newExecutionID, mbind, M_bind, wrap, rand_hex. rewrite Hrng. simpl.
  rewrite update_healthy by done. simpl. rewrite Hr. eauto.
Qed.

(** ** Properties *)

(** EnsureExecution. With no failing statement it succeeds on every
    existing job: it returns the live execution identity and leaves the row
    alone, or, when there is none, records a new one named after the current
    attempt; no other row changes. *)
Theorem EnsureExecution_adopts_or_mints id now d r :
  faults d = [] → jobs d !! id = Some r → (∃ v vs, rng d = Some v :: vs) →
  ∃ e adopted d', EnsureExecution id now d = (Ok (e, adopted), d') ∧
    match live_execution r with
    | Some e0 => e = e0 ∧ adopted = true ∧ jobs d' = jobs d
    | None =>
        adopted = false ∧ (∃ v, e = minted (attempt (r_lease r)) v) ∧
        ∃ r', jobs d' = <[id := r']> (jobs d) ∧ live_execution r' = Some e ∧
              r_ident r' = r_ident r ∧ r_lease r' = r_lease r ∧
              r_delivery r' = r_delivery r ∧ r_terminal r' = r_terminal r
    end.
Proof.
  intros Hf Hr Hrng. pose proof (EnsureExecution_cases id now d) as H.
  destruct (ensure_body_healthy id now d r Hf Hr Hrng) as (x & d2 & Hb & Hf2).
  assert (EnsureExecution id now d = (Ok x, d2)) as E.
  { rewrite EnsureExecution_body, in_tx_healthy, Hb by done. unfold stmt_fault.
    by rewrite Hf2, next_stmt_no_faults. }
  rewrite E in H. destruct x as [e adopted]. exists e, adopted, d2. split; [done|].
  destruct H as (r0 & Hr0 & H). rewrite Hr in Hr0. injection Hr0 as <-.
  destruct (live_execution r); [done|]. destruct H as (-> & [v ->] & Hj).
  split; [done|]. split; [eauto|].
  exists (mint_row (minted (attempt (r_lease r)) v) now r). split; [done|]. split; [|done].
  by apply live_execution_some.
Qed.

(** C18: at most one execution of a job is live, and every attempt works on it.
    After EnsureExecution returned identity [e], any operations by anyone other
    than marking [e] terminal leave it live, so that the next EnsureExecution, by
    whichever attempt, adopts exactly [e] and changes nothing. *)
Theorem execution_agreed id now d e adopted d1 d2 now' e' adopted' d3 :
  table_keyed (jobs d) → EnsureExecution id now d = (Ok (e, adopted), d1) →
  history (λ o _, o ≠ OpMarkExecutionTerminal id e) d1 d2 →
  EnsureExecution id now' d2 = (Ok (e', adopted'), d3) →
  e' = e ∧ adopted' = true ∧ jobs d3 = jobs d2.
Proof.
  intros Hk H1 Hh H2. pose proof (EnsureExecution_cases id now d) as H. rewrite H1 in H.
  destruct H as (r & Hr & H).
  assert (∃ r1, jobs d1 !! id = Some r1 ∧ live_execution r1 = Some e) as (r1 & Hr1 & Hl1).
  { destruct (live_execution r) as [e0|] eqn:El.
    - destruct H as (-> & _ & ->). by exists r.
    - destruct H as (_ & [v ->] & ->). eexists. rewrite lookup_insert_eq. split; [done|].
      by apply live_execution_some. }
  assert (table_keyed (jobs d1)) as Hk1.
  { pose proof (run_op_step (OpEnsureExecution id) now d I Hk) as Hs. simpl in Hs.
    rewrite H1 in Hs. by eapply table_step_keyed. }
  destruct (history_row_keep (λ o _, o ≠ OpMarkExecutionTerminal id e) id
              (λ r, live_execution r = Some e))
    with (d := d1) (d' := d2) (r := r1) as (r2 & Hr2 & Hl2); try done.
  { intros o t ra rb Ho Ha Hs. eapply live_execution_step; [|exact Ha|exact Hs].
    intros e2 -> ->. done. }
  pose proof (EnsureExecution_cases id now' d2) as H'. rewrite H2 in H'.
  destruct H' as (r2' & Hr2' & H'). rewrite Hr2 in Hr2'. injection Hr2' as <-.
  by rewrite Hl2 in H'.
Qed.

(** MarkExecutionTerminal, on every branch, with no failing statement: it
    closes the execution it names when the job is on it; it is a no-op on a job
    that never had one; it answers ErrNotFound for an unknown job and an error
    wrapping ErrExecutionSuperseded when the job has moved on to another
    execution, and then changes nothing. *)
Theorem MarkExecutionTerminal_closes_own id e now d :
  faults d = [] →
  let out := MarkExecutionTerminal id e now d in
  match jobs d !! id with
  | None => out = (Err ErrNotFound, d)
  | Some r =>
      if bool_decide (execution_id (r_exec r) = "") then out = (Ok tt, d)
      else if bool_decide (execution_id (r_exec r) = e) then
        out.1 = Ok tt ∧
        ∃ r', jobs out.2 = <[id := r']> (jobs d) ∧ r_exec r' = Exec e true ∧
              r_lease r' = r_lease r ∧ r_delivery r' = r_delivery r ∧ r_terminal r' = r_terminal r
      else out.2 = d ∧ ∃ x, out.1 = Err x ∧ errors_is x ErrExecutionSuperseded = true
  end.
Proof.
  intros Hf. unfold MarkExecutionTerminal, mbind, M_bind, wrap. rewrite update_healthy by done.
  destruct (jobs d !! id) as [r|] eqn:Hr; simpl.
  2:{ rewrite get_healthy, Hr by done. done. }
  unfold executing.
  destruct (bool_decide_reflect (execution_id (r_exec r) = "")) as [E|E].
  { cbn [negb]. rewrite andb_false_r. simpl. rewrite get_healthy, Hr by done. simpl.
    rewrite bool_decide_eq_true_2 by done. done. }
  cbn [negb]. rewrite andb_true_r.
  destruct (bool_decide_reflect (execution_id (r_exec r) = e)) as [<-|Hne].
  - split; [done|]. by exists (mark_terminal_row now r).
  - simpl. rewrite get_healthy, Hr by done. simpl. rewrite bool_decide_eq_false_2 by done.
    split; [done|]. by eexists.
Qed.

End Exec.

Lemma EnsureExecution_adopts_or_mints_witness :
  ∃ e adopted d', EnsureExecution "job-1" (at_s 9)
      (Db (jobs d_executing) (store_meta d_executing) [] [Some 1%N]) = (Ok (e, adopted), d') ∧
    e = "a1-0000000000000007" ∧ adopted = true.
Proof.
  assert (live_execution (sample_row d_executing) = Some "a1-0000000000000007") as El
    by (vm_compute; reflexivity).
  destruct (EnsureExecution_adopts_or_mints "job-1" (at_s 9)
      (Db (jobs d_executing) (store_meta d_executing) [] [Some 1%N]) (sample_row d_executing))
    as (e & a & d' & E & H).
  - reflexivity.
  - apply (sample_row_lookup d_executing). vm_compute. reflexivity.
  - exists 1%N, []. reflexivity.
  - exists e, a, d'. rewrite El in H. destruct H as (-> & -> & _). auto.
Defined.

(** A second attempt, by w2 after w1's lease expired, adopts w1's execution. *)
Lemma execution_agreed_witness :
  ∃ e' a' d3,
    EnsureExecution "job-1" (at_s 101)
      (after d_executing (OpLeaseJob "w2" (60 * second)) (at_s 100) []) = (Ok (e', a'), d3) ∧
    e' = "a1-0000000000000007" ∧ a' = true.
Proof.
  destruct (EnsureExecution "job-1" (at_s 101)
    (after d_executing (OpLeaseJob "w2" (60 * second)) (at_s 100) [])) as [[[e' a']|x] d3] eqn:E3.
  2:{ exfalso. vm_compute in E3. discriminate. }
  destruct (execution_agreed "job-1" (at_s 2)
    (Db (jobs d_leased) (store_meta d_leased) [] [Some 7%N]) "a1-0000000000000007" false
    d_executing (after d_executing (OpLeaseJob "w2" (60 * second)) (at_s 100) [])
    (at_s 101) e' a' d3) as (He & Ha & _).
  - exact (reachable_keyed op_in_range d_leased leased_reachable).
  - vm_compute. reflexivity.
  - apply history_after; [constructor|done|done].
  - exact E3.
  - exists e', a', d3. auto.
Defined.

Lemma MarkExecutionTerminal_closes_own_witness :
  ∃ x, (MarkExecutionTerminal "job-1" "a0-0000000000000001" (at_s 9) d_executing).1 = Err x ∧
    errors_is x ErrExecutionSuperseded = true.
Proof.
  pose proof (MarkExecutionTerminal_closes_own "job-1" "a0-0000000000000001" (at_s 9) d_executing
    eq_refl) as H. cbv zeta in H.
  rewrite (sample_row_lookup d_executing) in H by (vm_compute; reflexivity).
  rewrite bool_decide_eq_false_2 in H by (vm_compute; discriminate).
  rewrite bool_decide_eq_false_2 in H by (vm_compute; discriminate).
  apply H.
Defined.
