(* ===== verification/StoreCreate.v ===== *)
(** * StoreCreate: registering a validation request

    CreateJob on every branch: insertion, retransmission, conflict; at most one
    job per validation_request_id; what GetJob reads back. *)

From S2P Require Import Prelude GoTime Errors Work Db Fingerprint Store Instances.
From S2P Require Import StoreSpec StoreRun StoreStep RowInv RowRead Samples.

Section Create.
Context {SO : SqlOrder} {AJ : ActionsJson}.

Lemma owns_request_id_true v r :
  owns_request_id v r = true ↔ validation_request_id (r_ident r) = Some v ∧ v ≠ "".
Proof. unfold owns_request_id. apply bool_decide_eq_true. Qed.

Lemma elem_of_table_rows t r : r ∈ table_rows t ↔ ∃ id, t !! id = Some r.
Proof.
  unfold table_rows. rewrite list_elem_of_fmap. split.
  - intros ([id r'] & -> & H). exists id. by apply elem_of_map_to_list.
  - intros [id H]. exists (id, r). by rewrite elem_of_map_to_list.
Qed.

Lemma existsb_rows p t :
  existsb p (table_rows t) = true ↔ ∃ id r, t !! id = Some r ∧ p r = true.
Proof.
  rewrite existsb_exists. split.
  - intros (r & Hin & Hp). apply list_elem_of_In, elem_of_table_rows in Hin as [id Hid]. eauto.
  - intros (id & r & Hid & Hp). exists r. split; [|done].
    apply list_elem_of_In, elem_of_table_rows. eauto.
Qed.

(** The unique index. *)
Definition request_ids_unique (t : gmap string row) : Prop :=
  ∀ id1 id2 r1 r2 v, t !! id1 = Some r1 → t !! id2 = Some r2 →
    owns_request_id v r1 = true → owns_request_id v r2 = true → id1 = id2.

(** An INSERT adds one row under a new key, with a request id nobody has, or
    nothing. *)
Lemma sql_insert_jobs r d :
  jobs (sql_insert r d).2 = jobs d ∨
  jobs (sql_insert r d).2 = <[job_id (r_ident r) := r]> (jobs d) ∧
  jobs d !! job_id (r_ident r) = None ∧
  ∀ v id r', validation_request_id (r_ident r) = Some v → jobs d !! id = Some r' →
    owns_request_id v r' = false.
Proof.
  unfold sql_insert. rewrite stmt_run. destruct (stmt_fault d); [by left|]. simpl.
  destruct (validation_request_id (r_ident r)) as [v|] eqn:Ev.
  - destruct (existsb _ _) eqn:Ee; [by left|].
    destruct (jobs d !! job_id (r_ident r)) eqn:El; [by left|]. right. split_and!; try done.
    intros v' id r' [= <-] Hr'. destruct (owns_request_id v r') eqn:Eo; [|done].
    assert (existsb (owns_request_id v) (table_rows (jobs d)) = true) by
      (apply existsb_rows; eauto). congruence.
  - destruct (jobs d !! job_id (r_ident r)) eqn:El; [by left|]. by right.
Qed.

Lemma CreateJob_jobs req now d :
  jobs (CreateJob req now d).2 =
    jobs (sql_insert (new_row req (requestFingerprint req) now) d).2.
Proof.
  unfold CreateJob, mbind at 1, M_bind at 1, wrap at 1.
  destruct (sql_insert _ d) as [[n|e] d']; [|done]. simpl.
  apply ro_if; [apply _|]. apply ro_if; [apply _|].
  apply ro_bind; [apply _|]. intros ?. apply ro_if; apply _.
Qed.

Lemma request_ids_unique_op o now d :
  op_ok o → table_keyed (jobs d) → request_ids_unique (jobs d) →
  request_ids_unique (jobs (run_op o now d)).
Proof.
  intros Hok Hk Hu.
  assert ((∃ req, o = OpCreateJob req) ∨ ¬ ∃ req, o = OpCreateJob req) as [[req ->]|Hno]
    by (destruct o; first [by left; eauto|right; by intros [? ?]]).
  - simpl. rewrite CreateJob_jobs.
    destruct (sql_insert_jobs (new_row req (requestFingerprint req) now) d)
      as [->|(-> & Hnone & Hfresh)]; [done|]. set (r := new_row _ _ _) in *.
    assert (∀ v id r', owns_request_id v r = true → jobs d !! id = Some r' →
      owns_request_id v r' = false) as Hf.
    { intros v id r' Hv Hr'. apply owns_request_id_true in Hv as [Hv _]. eauto. }
    intros id1 id2 r1 r2 v. rewrite !lookup_insert_Some.
    intros [[<- <-]|[Hn1 H1]] [[<- <-]|[Hn2 H2]] O1 O2; [done| | |by eapply Hu].
    + by rewrite (Hf _ _ _ O1 H2) in O2.
    + by rewrite (Hf _ _ _ O2 H1) in O1.
  - pose proof (run_op_step o now d Hok Hk) as Hs.
    assert (∀ id r', jobs (run_op o now d) !! id = Some r' →
      ∃ r, jobs d !! id = Some r ∧ r_ident r' = r_ident r) as Hold.
    { intros id r' Hr'. destruct (Hs id) as [E|E]; rewrite Hr' in E; [eauto|].
      destruct (jobs d !! id) as [r|] eqn:Hr.
      - exists r. split; [done|]. by rewrite (row_step_ident _ _ _ _ _ E).
      - inversion E; subst. destruct Hno. eauto. }
    intros id1 id2 r1 r2 v H1 H2 O1 O2.
    destruct (Hold _ _ H1) as (s1 & S1 & E1). destruct (Hold _ _ H2) as (s2 & S2 & E2).
    apply (Hu id1 id2 s1 s2 v); try done; rewrite owns_request_id_true in *;
      by rewrite <- ?E1, <- ?E2.
Qed.

Lemma reachable_ids_unique P d : reachable P d → request_ids_unique (jobs d).
Proof.
  intros (fs & vs & H). remember (initial_db fs vs) as d0 eqn:E0.
  induction H as [|d d' o now fs' vs' Hh IH Hok HP]; [by subst|].
  apply request_ids_unique_op; [done| |by apply IH].
  simpl. apply (history_keyed P d d'); [by subst|done].
Qed.

(** ** CreateJob when no statement fails *)

(** What a fresh job reads back as. *)
Definition job_of (req : JobRequest) (now : instant) : Job := {|
  JobID := req_JobID req;
  ArtifactKind := req_ArtifactKind req;
  ImageRepository := req_ImageRepository req;
  ImageDigest := req_ImageDigest req;
  StableRef := req_StableRef req;
  ToolName := req_ToolName req;
  Version := req_Version req;
  CasHash := req_CasHash req;
  RequestedActions := req_RequestedActions req;
  RequestedFixtureSet := req_RequestedFixtureSet req;
  ValidationRequestID := req_ValidationRequestID req;
  JobStatus := StatusQueued;
  Attempt := 0;
  LeaseOwner := "";
  LeaseUntil := None;
  LastError := "";
  ResultSummary := "";
  CreatedAt := now;
  UpdatedAt := now;
  ResultDeliveryStatus := DeliveryNotApplicable;
  ResultDeliveryPayload := "";
  ResultDeliveryAttempts := 0;
  ResultDeliveryLastError := "";
  NextAttemptAt := None;
  ResultDeliveryClaimToken := "";
  TerminalSubmitted := false;
  ExecutionID := "";
  ExecutionTerminal := false;
  RetryNotBefore := None;
|}.

Lemma scanJob_new_row req fp now :
  op_in_range (OpCreateJob req) now → scanJob (new_row req fp now) = Ok (job_of req now).
Proof.
  intros [Hn Ha]. unfold scanJob. cbn -[time_parse formatTS].
  rewrite json_actions_roundtrip by done. unfold res_bind at 1.
  rewrite !scan_time_required_formatTS by done. cbn -[time_parse formatTS].
  unfold job_of. f_equal.
  destruct (bool_decide_reflect (req_ValidationRequestID req = "")) as [->|]; done.
Qed.

Lemma sql_insert_healthy r d :
  faults d = [] →
  sql_insert r d =
    let fresh := match jobs d !! job_id (r_ident r) with
                 | Some _ => (Err (ErrText "UNIQUE constraint failed: jobs.job_id"), d)
                 | None => (Ok 1, set_jobs (<[job_id (r_ident r) := r]> (jobs d)) d)
                 end in
    match validation_request_id (r_ident r) with
    | Some v => if existsb (owns_request_id v) (table_rows (jobs d)) then (Ok 0, d) else fresh
    | None => fresh
    end.
Proof. intros Hf. unfold sql_insert. by rewrite stmt_healthy. Qed.

Lemma new_row_request_id req fp now :
  validation_request_id (r_ident (new_row req fp now)) =
    if bool_decide (req_ValidationRequestID req = "") then None
    else Some (req_ValidationRequestID req).
Proof. done. Qed.

(** The lookup of the existing owner of a request id. *)
Lemma jobByValidationRequestID_healthy v d id r :
  faults d = [] → table_keyed (jobs d) → request_ids_unique (jobs d) →
  jobs d !! id = Some r → owns_request_id v r = true →
  jobByValidationRequestID v d = (Ok (id, request_fingerprint (r_ident r)), d).
Proof.
  intros Hf Hk Hu Hid Ho. pose proof Ho as Ho'. apply owns_request_id_true in Ho' as [Hv Hne].
  unfold jobByValidationRequestID, mbind, M_bind, wrap. rewrite stmt_healthy by done. simpl.
  destruct (filter _ _) as [|r0 rest] eqn:E.
  - assert (r ∈ filter (λ r, validation_request_id (r_ident r) = Some v) (table_rows (jobs d))) as Hin.
    { apply list_elem_of_filter. split; [done|]. apply elem_of_table_rows. eauto. }
    rewrite E in Hin. by apply not_elem_of_nil in Hin.
  - assert (r0 ∈ filter (λ r, validation_request_id (r_ident r) = Some v) (table_rows (jobs d))) as Hin
      by (rewrite E; left).
    apply list_elem_of_filter in Hin as [Hv0 [id0 Hid0]%elem_of_table_rows].
    assert (id0 = id) as -> by (eapply Hu; eauto; by apply owns_request_id_true).
    rewrite Hid in Hid0. injection Hid0 as <-. by rewrite (Hk _ _ Hid).
Qed.

Lemma CreateJob_taken req now d id r :
  faults d = [] → table_keyed (jobs d) → request_ids_unique (jobs d) →
  jobs d !! id = Some r → owns_request_id (req_ValidationRequestID req) r = true →
  CreateJob req now d =
    if bool_decide (request_fingerprint (r_ident r) = requestFingerprint req)
    then GetJob id d else (Err ErrValidationRequestConflict, d).
Proof.
  intros Hf Hk Hu Hid Ho. pose proof Ho as Ho'. apply owns_request_id_true in Ho' as [Hv Hne].
  unfold CreateJob, mbind at 1, M_bind at 1, wrap at 1.
  rewrite sql_insert_healthy, new_row_request_id by done.
  rewrite bool_decide_eq_false_2 by done. cbv zeta.
  assert (existsb (owns_request_id (req_ValidationRequestID req)) (table_rows (jobs d)) = true) as ->
    by (apply existsb_rows; eauto).
  unfold mbind, M_bind, wrap.
  change (0 =? 1) with false. cbv iota.
  cbv beta.
  rewrite (jobByValidationRequestID_healthy _ _ _ _ Hf Hk Hu Hid Ho). cbn [fst snd].
  by destruct (bool_decide_reflect (request_fingerprint (r_ident r) = requestFingerprint req)).
Qed.

Lemma CreateJob_fresh req now d :
  faults d = [] →
  (∀ id r, jobs d !! id = Some r → owns_request_id (req_ValidationRequestID req) r = false) →
  CreateJob req now d =
    match jobs d !! req_JobID req with
    | Some _ =>
        (Err (wrap_err "create job" (ErrText "UNIQUE constraint failed: jobs.job_id")), d)
    | None =>
        GetJob (req_JobID req)
          (set_jobs (<[req_JobID req := new_row req (requestFingerprint req) now]> (jobs d)) d)
    end.
Proof.
  intros Hf Hno. unfold CreateJob, mbind at 1, M_bind at 1, wrap at 1.
  rewrite sql_insert_healthy, new_row_request_id by done. cbv zeta.
  assert (existsb (owns_request_id (req_ValidationRequestID req)) (table_rows (jobs d)) = false) as Hex.
  { destruct (existsb _ _) eqn:E; [|done]. apply existsb_rows in E as (id & r & Hid & Ho).
    by rewrite (Hno _ _ Hid) in Ho. }
  change (job_id (r_ident (new_row req (requestFingerprint req) now))) with (req_JobID req).
  destruct (bool_decide_reflect (req_ValidationRequestID req = "")) as [E|E]; [|rewrite Hex];
    by destruct (jobs d !! req_JobID req).
Qed.


(** Where the job a successful CreateJob returns is stored. *)
Lemma CreateJob_row req now d j d1 :
  table_keyed (jobs d) → request_ids_unique (jobs d) → faults d = [] →
  req_ValidationRequestID req ≠ "" → CreateJob req now d = (Ok j, d1) →
  ∃ r1, jobs d1 !! JobID j = Some r1 ∧
    owns_request_id (req_ValidationRequestID req) r1 = true ∧
    request_fingerprint (r_ident r1) = requestFingerprint req.
Proof.
  intros Hk Hu Hf Hne.
  destruct (existsb (owns_request_id (req_ValidationRequestID req)) (table_rows (jobs d))) eqn:Ex.
  - apply existsb_rows in Ex as (id & r & Hid & Hown).
    rewrite (CreateJob_taken _ _ _ _ _ Hf Hk Hu Hid Hown).
    destruct (bool_decide_reflect (request_fingerprint (r_ident r) = requestFingerprint req)); [|done].
    rewrite GetJob_healthy, Hid by done. destruct (scanJob r) eqn:Es; [|done].
    intros [= -> <-]. exists r.
    by rewrite (sc_id _ _ (scanJob_scanned _ _ Es)), (Hk _ _ Hid).
  - rewrite CreateJob_fresh; [|done|].
    2:{ intros id r Hid. destruct (owns_request_id _ r) eqn:E; [|done].
        assert (existsb (owns_request_id (req_ValidationRequestID req)) (table_rows (jobs d)) = true)
          by (apply existsb_rows; eauto). congruence. }
    destruct (jobs d !! req_JobID req); [done|]. rewrite GetJob_healthy by done. simpl.
    rewrite lookup_insert_eq. set (r := new_row _ _ _). destruct (scanJob r) eqn:Es; [|done].
    intros [= -> <-]. exists r. rewrite (sc_id _ _ (scanJob_scanned _ _ Es)).
    split_and!; [apply lookup_insert_eq| |done].
    apply owns_request_id_true. split; [|done]. subst r. rewrite new_row_request_id.
    by rewrite bool_decide_eq_false_2.
Qed.

(** Successful calls, whatever the other statements of the history did. *)
Lemma GetJob_ok id d j d' :
  GetJob id d = (Ok j, d') → ∃ r, jobs d !! id = Some r ∧ scanned r j ∧ jobs d' = jobs d.
Proof.
  intros H. pose proof (ro_GetJob id d) as Hro. rewrite H in Hro. unfold GetJob in H.
  bind_inv H r d1 H1. apply get_ok in H1 as [-> ->]. destruct (jobs d !! id) as [r|]; [|done].
  apply wrap_ok in H. unfold lift in H. injection H as Hs _. exists r.
  split; [done|]. split; [by apply scanJob_scanned|done].
Qed.

Lemma sql_insert_ok r d n d1 :
  sql_insert r d = (Ok n, d1) →
  (n = 1 ∧ jobs d !! job_id (r_ident r) = None ∧ jobs d1 = <[job_id (r_ident r) := r]> (jobs d)) ∨
  (n = 0 ∧ jobs d1 = jobs d ∧ ∃ v id r', validation_request_id (r_ident r) = Some v ∧
     jobs d !! id = Some r' ∧ owns_request_id v r' = true).
Proof.
  unfold sql_insert. rewrite stmt_run. destruct (stmt_fault d); [done|]. simpl.
  destruct (validation_request_id (r_ident r)) as [v|].
  - destruct (existsb _ _) eqn:Ee.
    + intros [= <- <-]. right. split; [done|]. split; [done|].
      apply existsb_rows in Ee as (id & r' & Hid & Ho). by exists v, id, r'.
    + destruct (jobs d !! job_id (r_ident r)); [done|]. intros [= <- <-]. by left.
  - destruct (jobs d !! job_id (r_ident r)); [done|]. intros [= <- <-]. by left.
Qed.

Lemma jobByValidationRequestID_ok v d e d' :
  v ≠ "" → jobByValidationRequestID v d = (Ok e, d') → table_keyed (jobs d) →
  jobs d' = jobs d ∧ ∃ r, jobs d !! e.1 = Some r ∧ owns_request_id v r = true ∧
    request_fingerprint (r_ident r) = e.2.
Proof.
  intros Hne H Hk. pose proof (ro_jobByValidationRequestID v d) as Hro. rewrite H in Hro. split; [done|].
  unfold jobByValidationRequestID in H. bind_inv H rows d1 H1. rewrite stmt_run in H1.
  destruct (stmt_fault d); [done|]. injection H1 as Hrows <-.
  destruct rows as [|r rows]; [done|]. injection H as <- _. cbn.
  assert (r ∈ filter (λ r, validation_request_id (r_ident r) = Some v) (table_rows (jobs d))) as Hin.
  { assert (jobs (next_stmt d) = jobs d) as Hj by (unfold next_stmt; by destruct (faults d)).
    rewrite <- Hj. by rewrite (Hrows : filter _ (table_rows (jobs (next_stmt d))) = _); left. }
  apply list_elem_of_filter in Hin as [Hv [id Hid]%elem_of_table_rows].
  exists r. rewrite (Hk _ _ Hid). split; [done|]. split; [by apply owns_request_id_true|done].
Qed.

(** A successful CreateJob with a request id returns the one job that owns it. *)
Lemma CreateJob_ok req now d j d' :
  table_keyed (jobs d) → req_ValidationRequestID req ≠ "" → CreateJob req now d = (Ok j, d') →
  ∃ r, jobs d' !! JobID j = Some r ∧ scanned r j ∧
    owns_request_id (req_ValidationRequestID req) r = true ∧
    request_fingerprint (r_ident r) = requestFingerprint req.
Proof.
  intros Hk Hne H. unfold CreateJob in H. bind_inv H n d1 H1.
  rewrite bool_decide_eq_false_2 in H by done.
  apply sql_insert_ok in H1 as [(-> & Hnone & Hj1)|(-> & Hj1 & _)]; cbn [Z.eqb] in H.
  - apply GetJob_ok in H as (r & Hr & Hs & Hj). rewrite Hj.
    set (r0 := new_row _ _ _) in *. change (job_id (r_ident r0)) with (req_JobID req) in Hj1.
    rewrite Hj1, lookup_insert_eq in Hr. injection Hr as <-.
    exists r0. rewrite (sc_id _ _ Hs), Hj1. split; [apply lookup_insert_eq|]. split; [done|]. split; [|done].
    apply owns_request_id_true. split; [|done]. unfold r0. rewrite new_row_request_id.
    by rewrite bool_decide_eq_false_2.
  - bind_inv H e d2 H2. apply jobByValidationRequestID_ok in H2 as (Hj2 & r & Hr & Ho & Hfp);
      [|done|by rewrite Hj1].
    case_bool_decide as Hfe; [|done]. cbn [negb] in H. rewrite Hfe in Hfp.
    apply GetJob_ok in H as (r' & Hr' & Hs & Hj). rewrite Hj2, Hr in Hr'. injection Hr' as <-.
    rewrite Hj1 in Hr. exists r. rewrite (sc_id _ _ Hs), (Hk _ _ Hr), Hj, Hj2, Hj1. done.
Qed.

(** ** Properties *)

(** C35: CreateJob on every branch, with no failing statement. A request id
    already owned by a job yields that job, unchanged, when the request hashes
    to the stored fingerprint and ErrValidationRequestConflict otherwise;
    a free request id with a used job id is an error; in both cases nothing
    changes. Otherwise one row is added, and the job read back is exactly the
    request, queued, with attempt 0 and no lease, delivery or execution. *)
Theorem CreateJob_outcomes req now d :
  reachable op_in_range d → faults d = [] → op_in_range (OpCreateJob req) now →
  let v := req_ValidationRequestID req in
  let out := CreateJob req now d in
  (∃ id r, jobs d !! id = Some r ∧ owns_request_id v r = true ∧ out.2 = d ∧
     if bool_decide (request_fingerprint (r_ident r) = requestFingerprint req)
     then ∃ j, out.1 = Ok j ∧ scanJob r = Ok j ∧ JobID j = id
     else out.1 = Err ErrValidationRequestConflict) ∨
  ((∀ id r, jobs d !! id = Some r → owns_request_id v r = false) ∧
   match jobs d !! req_JobID req with
   | Some _ => out.2 = d ∧ is_ok out.1 = false
   | None => out.1 = Ok (job_of req now) ∧
             jobs out.2 = <[req_JobID req := new_row req (requestFingerprint req) now]> (jobs d)
   end).
Proof.
  intros Hr Hf Ho v out. pose proof (reachable_keyed _ _ Hr) as Hk.
  pose proof (reachable_ids_unique _ _ Hr) as Hu. subst v out.
  destruct (existsb (owns_request_id (req_ValidationRequestID req)) (table_rows (jobs d))) eqn:Ex.
  - left. apply existsb_rows in Ex as (id & r & Hid & Hown). exists id, r.
    rewrite (CreateJob_taken _ _ _ _ _ Hf Hk Hu Hid Hown).
    destruct (bool_decide _); [|done]. rewrite GetJob_healthy, Hid by done.
    destruct (scanJob_canonical r) as (j & Hj & Hs); [by eapply reachable_row_canonical|].
    rewrite Hj. split_and!; try done. exists j. split_and!; [done..|].
    rewrite (sc_id _ _ Hs). by apply Hk.
  - right. assert (∀ id r, jobs d !! id = Some r →
      owns_request_id (req_ValidationRequestID req) r = false) as Hno.
    { intros id r Hid. destruct (owns_request_id _ r) eqn:E; [|done].
      assert (existsb (owns_request_id (req_ValidationRequestID req)) (table_rows (jobs d)) = true)
        by (apply existsb_rows; eauto). congruence. }
    split; [exact Hno|]. rewrite CreateJob_fresh by done.
    destruct (jobs d !! req_JobID req) eqn:E; [done|].
    rewrite GetJob_healthy by done. simpl. rewrite lookup_insert_eq.
    by rewrite scanJob_new_row.
Qed.

(** At-least-once delivery of a request creates one job. Once CreateJob
    answered a request carrying a validation_request_id, resending it after any
    operations returns the same job and changes nothing, and reusing its id for
    a request with another fingerprint is refused. *)
Theorem CreateJob_idempotent req now d j d1 d2 req' now' :
  reachable op_in_range d → faults d = [] → op_in_range (OpCreateJob req) now →
  req_ValidationRequestID req ≠ "" → CreateJob req now d = (Ok j, d1) →
  history op_in_range d1 d2 → faults d2 = [] →
  req_ValidationRequestID req' = req_ValidationRequestID req →
  let out := CreateJob req' now' d2 in
  out.2 = d2 ∧
  if bool_decide (requestFingerprint req' = requestFingerprint req)
  then ∃ j', out.1 = Ok j' ∧ JobID j' = JobID j
  else out.1 = Err ErrValidationRequestConflict.
Proof.
  intros Hr Hf Ho Hne Hc Hh Hf2 Hv out. subst out.
  assert (reachable op_in_range d1) as Hr1.
  { destruct Hr as (fs & vs & Hd). exists fs, vs.
    replace d1 with (run_op (OpCreateJob req) now (Db (jobs d) (store_meta d) (faults d) (rng d))).
    - by constructor.
    - simpl. replace (Db _ _ _ _) with d by (by destruct d). by rewrite Hc. }
  destruct (CreateJob_row req now d j d1) as (r1 & H1 & Ho1 & Hfp); try done.
  { by eapply reachable_keyed. }
  { by eapply reachable_ids_unique. }
  destruct (history_row_keep op_in_range (JobID j) (λ r, r_ident r = r_ident r1))
    with (d := d1) (d' := d2) (r := r1) as (r2 & H2 & Ei); try done.
  { intros o t ra rb _ Ea Hs. by rewrite (row_step_ident _ _ _ _ _ Hs). }
  { by eapply reachable_keyed. }
  pose proof (reachable_history _ _ _ Hr1 Hh) as Hr2.
  assert (owns_request_id (req_ValidationRequestID req') r2 = true) as Ho2.
  { rewrite Hv, owns_request_id_true, Ei. by apply owns_request_id_true. }
  rewrite (CreateJob_taken req' now' d2 (JobID j) r2);
    [|done|by eapply reachable_keyed|by eapply reachable_ids_unique|done..].
  rewrite Ei, Hfp. rewrite (bool_decide_ext _ (requestFingerprint req' = requestFingerprint req)) by done.
  destruct (bool_decide_reflect (requestFingerprint req' = requestFingerprint req)); [|done].
  rewrite GetJob_healthy, H2 by done.
  destruct (scanJob_canonical r2) as (j2 & Hj2 & Hs2); [by eapply reachable_row_canonical|].
  rewrite Hj2. split; [done|]. exists j2. split; [done|]. rewrite (sc_id _ _ Hs2).
  apply (reachable_keyed _ _ Hr2 _ _ H2).
Qed.

(** No two jobs share a validation_request_id, whatever operations ran and
    whichever of their statements failed. *)
Theorem validation_request_ids_unique d id1 id2 r1 r2 v :
  reachable any_op d → jobs d !! id1 = Some r1 → jobs d !! id2 = Some r2 → v ≠ "" →
  validation_request_id (r_ident r1) = Some v → validation_request_id (r_ident r2) = Some v →
  id1 = id2.
Proof.
  intros Hr H1 H2 Hv E1 E2. eapply (reachable_ids_unique any_op d Hr); eauto;
    by apply owns_request_id_true.
Qed.

End Create.

(** C39: the fingerprint identifies a request. Requests with the same fields
    and the same actions in any order have one fingerprint; of requests whose
    fields hold no NUL byte, two with one fingerprint are the same request, or
    exhibit a SHA-256 collision. *)
Theorem fingerprint_identifies_request r1 r2 :
  request_nul_free r1 → request_nul_free r2 →
  (same_request r1 r2 → requestFingerprint r1 = requestFingerprint r2) ∧
  (requestFingerprint r1 = requestFingerprint r2 →
   same_request r1 r2 ∨
   let a := fingerprint_input (fingerprint_fields r1) in
   let b := fingerprint_input (fingerprint_fields r2) in
   a ≠ b ∧ Sha256.hex_sum a = Sha256.hex_sum b).
Proof.
  intros H1 H2. split; [apply same_request_fingerprint|]. intros E.
  destruct (decide (fingerprint_input (fingerprint_fields r1) =
                    fingerprint_input (fingerprint_fields r2))) as [Ei|Hne].
  - left. by apply fingerprint_input_same_request.
  - right. by split.
Qed.

Definition with_kind_repo (kind repo : string) (r : JobRequest) : JobRequest := {|
  req_JobID := req_JobID r; req_ArtifactKind := kind; req_ImageRepository := repo;
  req_ImageDigest := req_ImageDigest r; req_StableRef := req_StableRef r;
  req_ToolName := req_ToolName r; req_Version := req_Version r; req_CasHash := req_CasHash r;
  req_RequestedActions := req_RequestedActions r;
  req_RequestedFixtureSet := req_RequestedFixtureSet r;
  req_ValidationRequestID := req_ValidationRequestID r |}.

(** Without that proviso the zero-byte separator does not keep fields
    apart: a NUL byte inside a field moves the boundary, and two different
    requests have one fingerprint. *)
Theorem fingerprint_nul_collision r :
  let nul := String "000" "" in
  let r1 := with_kind_repo ("a" +:+ nul +:+ "b") "c" r in
  let r2 := with_kind_repo "a" ("b" +:+ nul +:+ "c") r in
  ¬ same_request r1 r2 ∧ requestFingerprint r1 = requestFingerprint r2.
Proof. split; [by intros [? _]|]. reflexivity. Qed.

(** ** Concrete runs *)

Lemma CreateJob_outcomes_witness : (CreateJob sample_req t0 d_empty).1 = Ok (job_of sample_req t0).
Proof.
  destruct (CreateJob_outcomes sample_req t0 d_empty (reachable_empty _) eq_refl ltac:(in_range))
    as [(id & r & H & _)|[_ [H _]]]; [discriminate|exact H].
Defined.

(** The same request again, after the job was leased. *)
Lemma CreateJob_idempotent_witness :
  ∃ j', (CreateJob sample_req (at_s 99) d_leased).1 = Ok j' ∧ JobID j' = "job-1".
Proof.
  destruct (CreateJob_idempotent sample_req t0 d_empty (job_of sample_req t0) d_created d_leased
    sample_req (at_s 99)) as [_ H].
  - apply reachable_empty.
  - reflexivity.
  - in_range.
  - discriminate.
  - vm_compute. reflexivity.
  - unfold d_leased. apply history_after; [constructor|done|in_range].
  - reflexivity.
  - reflexivity.
  - rewrite bool_decide_eq_true_2 in H by reflexivity. exact H.
Defined.

Lemma validation_request_ids_unique_witness : "job-1" = "job-1".
Proof.
  apply (validation_request_ids_unique d_created "job-1" "job-1" (sample_row d_created)
    (sample_row d_created) "req-1").
  - eapply reachable_any, created_reachable.
  - apply sample_row_lookup. vm_compute. reflexivity.
  - apply sample_row_lookup. vm_compute. reflexivity.
  - discriminate.
  - vm_compute. reflexivity.
  - vm_compute. reflexivity.
Defined.

Lemma fingerprint_identifies_request_witness :
  requestFingerprint (with_kind_repo "k1" "r" sample_req) ≠
  requestFingerprint (with_kind_repo "k2" "r" sample_req).
Proof.
  intros E.
  destruct (fingerprint_identifies_request (with_kind_repo "k1" "r" sample_req)
              (with_kind_repo "k2" "r" sample_req)) as [_ H].
  - vm_compute. repeat constructor.
  - vm_compute. repeat constructor.
  - destruct (H E) as [[Hk _]|[_ Hc]]; [discriminate|]. vm_compute in Hc. discriminate.
Defined.
