(* ===== verification/StoreSafe.v ===== *)
(** * StoreSafe: what holds of every history of the store

    The refinement of the specification, the row invariant, the readability of
    stored rows, and the atomicity of failed operations. *)

From S2P Require Import Prelude GoTime Errors Work Db Fingerprint Store Instances.
From S2P Require Import StoreSpec StoreRun StoreStep RowInv RowRead Samples.
From S2P Require Import StoreCreate.

Section Safe.
Context {SO : SqlOrder} {AJ : ActionsJson}.

(** C13: the store implements its specification. Whatever operations ran before
    and whichever of its statements fail, an operation takes every row through
    at most the one step StoreSpec.v allows it: rows appear only by CreateJob,
    never disappear, and change only by the documented transition of that
    operation, under its fence. *)
Theorem store_refines_spec d o now :
  reachable any_op d → op_ok o →
  ∀ id, jobs (run_op o now d) !! id = jobs d !! id ∨
        row_step o now id (jobs d !! id) (jobs (run_op o now d) !! id).
Proof.
  intros Hr Hok. apply run_op_step; [done|]. by eapply reachable_keyed.
Qed.

(** Every row of every reachable table is well formed: an owner and a
    deadline exactly while leased or running, attempts counted from the first
    lease, a retry time only while queued, a claim token exactly while
    delivering, a tracked delivery only under a taken terminal slot, a terminal
    mark only on a minted execution. *)
Theorem rows_well_formed d id r :
  reachable any_op d → jobs d !! id = Some r → row_ok r ∧ job_id (r_ident r) = id.
Proof.
  intros Hr Hid. split; [by eapply reachable_row_ok|]. by eapply reachable_keyed.
Qed.

(** ** Reading *)

Lemma scan_all_ok rows :
  (∀ r, r ∈ rows → row_canonical r) → ∃ js, scan_all rows = Ok js ∧ Forall2 scanned rows js.
Proof.
  induction rows as [|r rows IH]; intros Hc; [by exists []|].
  destruct (scanJob_canonical r) as (j & Hj & Hs); [apply Hc; left|].
  destruct IH as (js & Hjs & HF). { intros r' Hr'. apply Hc. by right. }
  exists (j :: js). cbn [scan_all]. rewrite Hj. simpl. rewrite Hjs. split; [done|]. by constructor.
Qed.

Definition has_status (st : option Status) (r : row) : bool :=
  match st with None => true | Some s => bool_decide (status (r_lease r) = s) end.

(** C36: every stored job can be read. As long as the clock and the deadlines
    stay within years 0 to 9999, GetJob returns every job of a reachable table
    with its columns, and ListJobs returns exactly the jobs of the status asked
    for, oldest first, when their statement succeeds. *)
Theorem stored_jobs_readable d st :
  reachable op_in_range d → faults d = [] →
  (∀ id r, jobs d !! id = Some r → ∃ j, GetJob id d = (Ok j, d) ∧ scanned r j ∧ JobID j = id) ∧
  (∀ id, jobs d !! id = None → GetJob id d = (Err ErrNotFound, d)) ∧
  ∃ rows js, ListJobs st d = (Ok js, d) ∧ Forall2 scanned rows js ∧
    rows ≡ₚ matching (has_status st) (jobs d) ∧
    StronglySorted (λ a b, text_leb (created_at (r_ident a)) (created_at (r_ident b)) = true) rows.
Proof.
  intros Hr Hf. split_and!.
  - intros id r Hid. rewrite GetJob_healthy, Hid by done.
    destruct (scanJob_canonical r) as (j & Hj & Hs); [by eapply reachable_row_canonical|].
    rewrite Hj. exists j. split_and!; [done..|]. rewrite (sc_id _ _ Hs). by eapply reachable_keyed.
  - intros id Hid. by rewrite GetJob_healthy, Hid.
  - set (rows := sql_order_by (λ r, created_at (r_ident r)) (matching (has_status st) (jobs d))).
    destruct (scan_all_ok rows) as (js & Hjs & HF).
    { intros r Hin. subst rows. rewrite sql_order_perm in Hin.
      apply elem_of_matching in Hin as (_ & id & Hid). by eapply reachable_row_canonical. }
    exists rows, js. split_and!; [|done|apply sql_order_perm|apply sql_order_sorted].
    unfold ListJobs, mbind, M_bind, wrap. rewrite select_healthy by done. simpl.
    fold (has_status st). change (select_rows _ _ (-1) (jobs d)) with rows.
    unfold lift. by rewrite Hjs.
Qed.

(** ** Errors *)

(** The error an operation returns. *)
Definition err_of {A} (m : res error A * db) : option error :=
  match m.1 with Ok _ => None | Err e => Some e end.

Definition op_error (o : op) (now : instant) (d : db) : option error :=
  match o with
  | OpCreateJob req => err_of (CreateJob req now d)
  | OpLeaseJob w ttl => err_of (LeaseJob w ttl now d)
  | OpHeartbeat id w n ttl => err_of (Heartbeat id w n ttl now d)
  | OpCompleteJob id w n s => err_of (CompleteJob id w n s now d)
  | OpFailJob id w n le rt delay => err_of (FailJob id w n le rt delay now d)
  | OpGetJob id => err_of (GetJob id d)
  | OpListJobs st => err_of (ListJobs st d)
  | OpMarkFirstDeliveryPending id w n p le at_ =>
      err_of (MarkFirstDeliveryPending id w n p le at_ now d)
  | OpMarkFirstDeliveryDeadLetter id w n p le =>
      err_of (MarkFirstDeliveryDeadLetter id w n p le now d)
  | OpMarkResultDeliveryPending id tok le at_ =>
      err_of (MarkResultDeliveryPending id tok le at_ now d)
  | OpMarkResultDeliveryAcknowledged id tok => err_of (MarkResultDeliveryAcknowledged id tok now d)
  | OpMarkResultDeliveryDeadLetter id tok le =>
      err_of (MarkResultDeliveryDeadLetter id tok le now d)
  | OpClaimPendingDeliveries limit ttl => err_of (ClaimPendingDeliveries limit ttl now d)
  | OpEnsureExecution id => err_of (EnsureExecution id now d)
  | OpMarkExecutionTerminal id e => err_of (MarkExecutionTerminal id e now d)
  | OpClaimTerminal id w n => err_of (ClaimTerminal id w n now d)
  | OpCheckWritable => err_of (CheckWritable now d)
  end.

Lemma fenced_error msg x id p f d e :
  err_of (fenced msg x id p f d) = Some e → jobs (fenced msg x id p f d).2 = jobs d.
Proof.
  rewrite fenced_run. destruct (stmt_fault d); [done|].
  destruct (jobs d !! id) as [r|]; [|done]. by destruct (p r).
Qed.

Lemma in_tx_error {A} b c (body : M A) d e :
  err_of (in_tx b c body d) = Some e → jobs (in_tx b c body d).2 = jobs d.
Proof.
  intros He. destruct (in_tx_jobs b c body d) as [[Hj _]|(a & d2 & _ & E)]; [done|].
  by rewrite E in He.
Qed.

(** An UPDATE whose success ends the operation. *)
Lemma update_or_read_error {A} msg id p f (k : Z → M A) d e :
  (∃ a, k 1 = mret a) → (∀ n, ReadOnly (k n)) →
  err_of ((wrap msg (sql_update id p f) ≫= k) d) = Some e →
  jobs ((wrap msg (sql_update id p f) ≫= k) d).2 = jobs d.
Proof.
  intros [a Ha] Hk. unfold mbind, M_bind, wrap, sql_update. rewrite stmt_run.
  destruct (stmt_fault d); [done|]. simpl.
  destruct (jobs d !! id) as [r|]; [|intros _; by rewrite Hk].
  destruct (p r); [|intros _; by rewrite Hk]. by rewrite Ha.
Qed.

Lemma bind_read_error {A B} (m : M A) (k : A → M B) d e :
  err_of ((m ≫= k) d) = Some e →
  err_of (m d) = Some e ∧ jobs ((m ≫= k) d).2 = jobs (m d).2 ∨
  ∃ a d1, m d = (Ok a, d1) ∧ err_of (k a d1) = Some e ∧ ((m ≫= k) d).2 = (k a d1).2.
Proof.
  unfold mbind, M_bind. destruct (m d) as [[a|x] d1]; intros He; [right; by exists a, d1|by left].
Qed.

Lemma LeaseJob_error w ttl now d e :
  err_of (LeaseJob w ttl now d) = Some e →
  jobs (LeaseJob w ttl now d).2 = jobs d ∨
  ∃ id d1, err_of (GetJob id d1) = Some e ∧ jobs (LeaseJob w ttl now d).2 = jobs d1.
Proof.
  rewrite LeaseJob_body. intros [[He ->]|(id & d1 & E & He & ->)]%bind_read_error.
  - left. by eapply in_tx_error.
  - right. exists id, d1. split; [done|]. apply read_only.
Qed.

Lemma sql_insert_changes r d :
  match sql_insert r d with
  | (Ok n, d') => n = 1 ∨ jobs d' = jobs d
  | (Err _, d') => jobs d' = jobs d
  end.
Proof.
  unfold sql_insert. rewrite stmt_run. destruct (stmt_fault d); [done|]. simpl.
  destruct (validation_request_id (r_ident r)); [destruct (existsb _ _); [by right|]|];
    (destruct (jobs d !! job_id (r_ident r)); [done|by left]).
Qed.

Lemma CreateJob_error req now d e :
  err_of (CreateJob req now d) = Some e →
  jobs (CreateJob req now d).2 = jobs d ∨
  ∃ id d1, err_of (GetJob id d1) = Some e ∧ jobs (CreateJob req now d).2 = jobs d1.
Proof.
  rewrite CreateJob_jobs. unfold CreateJob, mbind at 1, M_bind at 1, wrap at 1.
  pose proof (sql_insert_changes (new_row req (requestFingerprint req) now) d) as Hi.
  destruct (sql_insert _ d) as [[n|x] d1]; simpl; [|by left].
  destruct Hi as [->|Hj]; [|by left]. simpl.
  intros He. right. exists (req_JobID req), d1.
  destruct (bool_decide _); by split.
Qed.

(** A failed operation changes no job. For the two operations that
    re-read the job after committing, LeaseJob and CreateJob, the one other
    case is that this read failed: the error then is the read's. *)
Theorem failed_operation_changes_nothing o now d e :
  op_error o now d = Some e →
  jobs (run_op o now d) = jobs d ∨
  ((∃ w ttl, o = OpLeaseJob w ttl) ∨ (∃ req, o = OpCreateJob req)) ∧
  ∃ id d1, err_of (GetJob id d1) = Some e ∧ jobs (run_op o now d) = jobs d1.
Proof.
  intros He. destruct o; simpl in *.
  - destruct (CreateJob_error _ _ _ _ He); [by left|]. right. eauto.
  - destruct (LeaseJob_error _ _ _ _ _ He); [by left|]. right. eauto.
  - left. rewrite Heartbeat_fenced in *. by eapply fenced_error.
  - left. rewrite CompleteJob_fenced in *. by eapply fenced_error.
  - left. rewrite FailJob_fenced in *. destruct retryable; by eapply fenced_error.
  - left. apply read_only.
  - left. apply read_only.
  - left. by eapply (fenced_error "mark first delivery pending" ErrDeliveryFenced).
  - left. by eapply (fenced_error "mark first delivery dead letter" ErrDeliveryFenced).
  - left. by eapply (fenced_error "mark result delivery pending" ErrDeliveryFenced).
  - left. by eapply (fenced_error "mark result delivery acknowledged" ErrDeliveryFenced).
  - left. by eapply (fenced_error "mark result delivery dead letter" ErrDeliveryFenced).
  - left. rewrite ClaimPendingDeliveries_body in *. by eapply in_tx_error.
  - left. rewrite EnsureExecution_body in *. by eapply in_tx_error.
  - left. eapply update_or_read_error; [by eexists| |exact He].
    intros k. apply ro_if; [apply _|]. apply ro_bind; [apply _|].
    intros [r|]; [|apply _]. simpl. apply ro_if; apply _.
  - left. eapply update_or_read_error; [by eexists| |exact He]. intros k. apply _.
  - left. apply ro_wrap, ro_stmt. done.
Qed.
End Safe.

(** ** Concrete runs *)

Lemma store_refines_spec_witness :
  let d := after d_leased (OpHeartbeat "job-1" "w1" 1 second) (at_s 5) [] in
  jobs d !! "job-1" = jobs d_leased !! "job-1" ∨
  row_step (OpHeartbeat "job-1" "w1" 1 second) (at_s 5) "job-1"
    (jobs d_leased !! "job-1") (jobs d !! "job-1").
Proof.
  apply (store_refines_spec (Db (jobs d_leased) (store_meta d_leased) [] [])
           (OpHeartbeat "job-1" "w1" 1 second) (at_s 5)); [|exact I].
  exact (reachable_after any_op _ (OpGetJob "job-1") (at_s 5) [] (reachable_any _ _ leased_reachable)
           I I).
Defined.

Lemma rows_well_formed_witness :
  row_ok (sample_row d_delivering) ∧ job_id (r_ident (sample_row d_delivering)) = "job-1".
Proof.
  apply (rows_well_formed d_delivering).
  - eapply reachable_any, delivering_reachable.
  - apply sample_row_lookup. vm_compute. reflexivity.
Defined.

Lemma stored_jobs_readable_witness :
  ∃ rows js, ListJobs (Some StatusLeased) d_leased = (Ok js, d_leased) ∧ Forall2 scanned rows js.
Proof.
  destruct (stored_jobs_readable d_leased (Some StatusLeased) leased_reachable eq_refl)
    as (_ & _ & rows & js & H1 & H2 & _).
  exists rows, js. split; [exact H1|exact H2].
Defined.

Lemma failed_operation_changes_nothing_witness :
  jobs (run_op (OpHeartbeat "job-1" "w2" 1 second) (at_s 5) d_leased) = jobs d_leased.
Proof.
  destruct (failed_operation_changes_nothing (OpHeartbeat "job-1" "w2" 1 second) (at_s 5) d_leased
    ErrNotFound) as [H|[[(w & ttl & H)|(req & H)] _]].
  - vm_compute. reflexivity.
  - exact H.
  - discriminate.
  - discriminate.
Defined.
