(* ===== verification/Normalize.v ===== *)
(** * Normalize: rewriting old timestamps when the store opens

    normalizeTimestamps of [pkg/work/sqlite/store.go]: every timestamp an
    earlier binary wrote in another RFC 3339 form is rewritten to the form
    formatTS writes, in one transaction, or the open fails. *)

From S2P Require Import Prelude GoTime Errors Work Db Fingerprint Store Instances.
From S2P Require Import StoreSpec StoreRun StoreStep RowInv RowRead Samples.
From S2P Require Import StoreCreate.

(** ** The operations *)

Inductive timestampColumn :=
| ColCreatedAt | ColUpdatedAt | ColLeaseUntil | ColNextAttemptAt | ColClaimedUntil.

#[export] Instance timestampColumn_eq_dec : EqDecision timestampColumn.
Proof. solve_decision. Defined.

Definition timestampColumns : list timestampColumn :=
  [ColCreatedAt; ColUpdatedAt; ColLeaseUntil; ColNextAttemptAt; ColClaimedUntil].

Definition column_name (c : timestampColumn) : string :=
  match c with
  | ColCreatedAt => "created_at"
  | ColUpdatedAt => "updated_at"
  | ColLeaseUntil => "lease_until"
  | ColNextAttemptAt => "next_attempt_at"
  | ColClaimedUntil => "result_delivery_claimed_until"
  end.

(** The column read by selectSQL: NULL and '' are skipped. *)
Definition column_raw (c : timestampColumn) (r : row) : option string :=
  match c with
  | ColCreatedAt => Some (created_at (r_ident r))
  | ColUpdatedAt => Some (updated_at r)
  | ColLeaseUntil => lease_until (r_lease r)
  | ColNextAttemptAt => next_attempt_at (r_delivery r)
  | ColClaimedUntil => result_delivery_claimed_until (r_delivery r)
  end.

Definition column_get (c : timestampColumn) (r : row) : option string :=
  match column_raw c r with
  | Some EmptyString | None => None
  | v => v
  end.

(** updateSQL. *)
Definition column_set (c : timestampColumn) (v : string) (r : row) : row :=
  let i := r_ident r in let l := r_lease r in let d := r_delivery r in
  match c with
  | ColCreatedAt =>
      Row (Ident (job_id i) (artifact_kind i) (image_repository i) (image_digest i) (stable_ref i)
             (tool_name i) (version i) (cas_hash i) (requested_actions i)
             (requested_fixture_set i) (validation_request_id i) (request_fingerprint i) v)
          l d (r_terminal r) (r_exec r) (updated_at r)
  | ColUpdatedAt => Row i l d (r_terminal r) (r_exec r) v
  | ColLeaseUntil =>
      Row i (Lease (status l) (attempt l) (lease_owner l) (Some v) (retry_not_before l)
               (last_error l) (result_summary l)) d (r_terminal r) (r_exec r) (updated_at r)
  | ColNextAttemptAt =>
      Row i l (Delivery (result_delivery_status d) (result_delivery_payload d)
                 (result_delivery_attempts d) (result_delivery_last_error d) (Some v)
                 (result_delivery_claimed_until d) (result_delivery_claim_token d))
          (r_terminal r) (r_exec r) (updated_at r)
  | ColClaimedUntil =>
      Row i l (Delivery (result_delivery_status d) (result_delivery_payload d)
                 (result_delivery_attempts d) (result_delivery_last_error d) (next_attempt_at d)
                 (Some v) (result_delivery_claim_token d))
          (r_terminal r) (r_exec r) (updated_at r)
  end.

(** The loop over the selected rows of nonCanonicalTimestamps. *)
Fixpoint scan_fixes (c : timestampColumn) (rows : list row) : res error (list (string * string)) :=
  match rows with
  | [] => Ok []
  | r :: rows =>
      match column_get c r with
      | None => scan_fixes c rows
      | Some raw =>
          match time_parse raw with
          | None => Err (wrap_err ("job " +:+ job_id (r_ident r) +:+ ": parse " +:+ column_name c +:+
                                   " " +:+ quoted raw) (ErrText "parsing time"))
          | Some ts =>
              try fixes <- scan_fixes c rows;
              let canonical := formatTS ts in
              Ok (if bool_decide (canonical = raw) then fixes
                  else (job_id (r_ident r), canonical) :: fixes)
          end
      end
  end.

Definition nonCanonicalTimestamps (c : timestampColumn) : M (list (string * string)) :=
  rows ← wrap ("select " +:+ column_name c) (stmt (λ d, (table_rows (jobs d), d)));
  lift (scan_fixes c rows).

Fixpoint apply_fixes (c : timestampColumn) (fixes : list (string * string)) : M unit :=
  match fixes with
  | [] => mret tt
  | f :: fixes =>
      _ ← wrap ("rewrite " +:+ column_name c +:+ " for job " +:+ f.1)
            (sql_update f.1 (λ _, true) (column_set c f.2));
      apply_fixes c fixes
  end.

Definition normalizeColumn (c : timestampColumn) : M unit :=
  fixes ← nonCanonicalTimestamps c;
  apply_fixes c fixes.

Fixpoint normalize_columns (cs : list timestampColumn) : M unit :=
  match cs with
  | [] => mret tt
  | c :: cs => _ ← normalizeColumn c; normalize_columns cs
  end.

Definition normalizeTimestamps : M unit :=
  in_tx "begin normalize tx" (λ _, "commit normalize tx") (normalize_columns timestampColumns).

(** ** What it should do to a row *)

(** The canonical form of a value that parses. *)
Definition canonical_form (s : string) : string :=
  match time_parse s with Some t => formatTS t | None => s end.

Definition normalize_cell (c : timestampColumn) (r : row) : row :=
  match column_get c r with
  | Some raw => column_set c (canonical_form raw) r
  | None => r
  end.

Definition normalize_row (r : row) : row := foldl (λ r c, normalize_cell c r) r timestampColumns.

(** A row without the columns a rewrite may touch. *)
Definition untimed (r : row) : row :=
  foldl (λ r c, column_set c "" r) r timestampColumns.

(** Every set timestamp of the row parses to an instant formatTS can show. *)
Definition cell_readable (c : timestampColumn) (r : row) : Prop :=
  match column_get c r with
  | Some raw => ∃ t, time_parse raw = Some t ∧ ts_in_range t
  | None => True
  end.

#[export] Instance cell_readable_dec c r : Decision (cell_readable c r).
Proof.
  unfold cell_readable. destruct (column_get c r) as [raw|]; [|by left].
  destruct (time_parse raw) as [t|]; [|right; by intros (t & ? & _)].
  destruct (decide (ts_in_range t)) as [H|H]; [left; by exists t|].
  right. intros (t' & [= <-] & ?). done.
Defined.

Definition timestamps_readable (r : row) : Prop := ∀ c, cell_readable c r.

Lemma column_set_get_ne c c' v r : c ≠ c' → column_get c (column_set c' v r) = column_get c r.
Proof. by destruct c, c'. Qed.

Lemma column_set_id c r s : column_get c r = Some s → column_set c s r = r.
Proof.
  unfold column_get. destruct (column_raw c r) as [[|a s']|] eqn:E; [done| |done]. intros [= <-].
  destruct r as [[] [] [] [] [] ?]; destruct c; simpl in *; congruence.
Qed.

Lemma normalize_row_untimed r : untimed (normalize_row r) = untimed r.
Proof.
  assert (∀ c v r, untimed (column_set c v r) = untimed r) as Hset by by intros [].
  unfold normalize_row. induction timestampColumns as [|c cs IH] using rev_ind; [done|].
  rewrite foldl_app. simpl. rewrite <- IH. unfold normalize_cell.
  by destruct (column_get c _).
Qed.

(** NULL stays NULL, and an empty text stays one. *)
Lemma normalize_row_unset c r : column_get c r = None → column_raw c (normalize_row r) = column_raw c r.
Proof.
  assert (∀ c' r, column_get c r = None →
    column_raw c (normalize_cell c' r) = column_raw c r ∧ column_get c (normalize_cell c' r) = None) as Hcell.
  { intros c' r' Hc. destruct (decide (c = c')) as [<-|Hne].
    - unfold normalize_cell. by rewrite Hc.
    - unfold normalize_cell. destruct (column_get c' r'); [|done].
      rewrite column_set_get_ne by done. split; [by destruct c, c'|done]. }
  intros Hc. unfold normalize_row. revert r Hc.
  induction timestampColumns as [|c' cs IH]; intros r Hc; [done|]. simpl.
  destruct (Hcell c' r Hc) as [<- Hn]. by apply IH.
Qed.

Lemma normalize_cell_ident c r : job_id (r_ident (normalize_cell c r)) = job_id (r_ident r).
Proof. unfold normalize_cell. destruct (column_get c r); [by destruct c|done]. Qed.

Lemma normalize_row_ident r : job_id (r_ident (normalize_row r)) = job_id (r_ident r).
Proof. unfold normalize_row. simpl. by rewrite !normalize_cell_ident. Qed.

Lemma normalize_cell_readable c c' r :
  cell_readable c r → c ≠ c' → cell_readable c (normalize_cell c' r).
Proof.
  intros H Hne. unfold cell_readable, normalize_cell in *.
  destruct (column_get c' r); [by rewrite column_set_get_ne|done].
Qed.

(** ** The loops *)

Definition table_fix (c : timestampColumn) (fixes : list (string * string))
    (t : gmap string row) : gmap string row :=
  foldl (λ t f, alter (column_set c f.2) f.1 t) t fixes.

Lemma normalize_cell_parsed c r raw ts :
  column_get c r = Some raw → time_parse raw = Some ts →
  normalize_cell c r = if bool_decide (formatTS ts = raw) then r else column_set c (formatTS ts) r.
Proof.
  intros Hg Hp. unfold normalize_cell, canonical_form. rewrite Hg, Hp.
  destruct (bool_decide_reflect (formatTS ts = raw)) as [->|]; [|done]. by apply column_set_id.
Qed.

(** The fixes of some rows, applied to a table that holds them, normalize
    exactly these rows. *)
Lemma scan_fixes_ok c rows :
  (∀ r, r ∈ rows → cell_readable c r) →
  ∃ fixes, scan_fixes c rows = Ok fixes ∧
    ∀ t, NoDup ((λ r, job_id (r_ident r)) <$> rows) →
      (∀ r, r ∈ rows → t !! job_id (r_ident r) = Some r) →
      ∀ id, table_fix c fixes t !! id =
        if decide (id ∈ (λ r, job_id (r_ident r)) <$> rows) then normalize_cell c <$> t !! id
        else t !! id.
Proof.
  induction rows as [|r rows IH]; intros Hr.
  { exists []. split; [done|]. intros t _ _ id. by rewrite decide_False by apply not_elem_of_nil. }
  destruct IH as (fixes & Hs & IH); [intros r' Hr'; apply Hr; by right|].
  assert (∀ t, NoDup ((λ r, job_id (r_ident r)) <$> r :: rows) →
    (∀ r', r' ∈ r :: rows → t !! job_id (r_ident r') = Some r') → normalize_cell c r = r →
    ∀ id, table_fix c fixes t !! id =
        if decide (id ∈ (λ r, job_id (r_ident r)) <$> r :: rows) then normalize_cell c <$> t !! id
        else t !! id) as Hsame.
  { intros t Hnd Ht Hn id. csimpl in *. apply NoDup_cons in Hnd as [Hnin Hnd].
    rewrite IH; [|done|intros r' Hr'; apply Ht; by right].
    destruct (decide (id = job_id (r_ident r))) as [->|Hne].
    - rewrite decide_False by done. rewrite decide_True by left.
      rewrite (Ht r) by left. simpl. by rewrite Hn.
    - apply decide_ext. rewrite elem_of_cons. tauto. }
  cbn [scan_fixes]. pose proof (Hr r ltac:(left)) as Hc. unfold cell_readable in Hc.
  destruct (column_get c r) as [raw|] eqn:Eg.
  2:{ exists fixes. split; [done|]. intros t Hnd Ht. apply Hsame; try done.
      unfold normalize_cell. by rewrite Eg. }
  destruct Hc as (ts & Hp & Hin). rewrite Hp, Hs. simpl.
  pose proof (normalize_cell_parsed _ _ _ _ Eg Hp) as Hn.
  destruct (bool_decide (formatTS ts = raw)); eexists; (split; [reflexivity|]); intros t Hnd Ht.
  { by apply Hsame. }
  intros id. csimpl in *. apply NoDup_cons in Hnd as [Hnin Hnd]. cbn [table_fix foldl fst snd].
  change (foldl _ ?t' fixes) with (table_fix c fixes t').
  rewrite IH; [|done|].
  - destruct (decide (id = job_id (r_ident r))) as [->|Hne].
    + rewrite decide_False by done. rewrite decide_True by left.
      rewrite lookup_alter_eq, (Ht r) by left. simpl. by rewrite Hn.
    + rewrite lookup_alter_ne by done. apply decide_ext. rewrite elem_of_cons. tauto.
  - intros r' Hr'. rewrite lookup_alter_ne; [apply Ht; by right|].
    intros E. apply Hnin. rewrite E. by apply (list_elem_of_fmap_2 (λ r, job_id (r_ident r))).
Qed.

Lemma apply_fixes_healthy c fixes d :
  faults d = [] →
  apply_fixes c fixes d = (Ok tt, set_jobs (table_fix c fixes (jobs d)) d).
Proof.
  revert d. induction fixes as [|[id v] fixes IH]; intros d Hf; [by destruct d|].
  cbn [apply_fixes]. unfold mbind, M_bind, wrap. rewrite update_healthy by done. cbn [fst snd].
  cbn [table_fix foldl fst snd]. change (foldl _ ?t' fixes) with (table_fix c fixes t').
  destruct (jobs d !! id) as [r|] eqn:E.
  - rewrite IH by done. simpl.
    assert (<[id := column_set c v r]> (jobs d) = alter (column_set c v) id (jobs d)) as ->; [|done].
    apply map_eq. intros id'. destruct (decide (id = id')) as [<-|Hne].
    + by rewrite lookup_insert_eq, lookup_alter_eq, E.
    + by rewrite lookup_insert_ne, lookup_alter_ne.
  - rewrite IH by done.
    assert (alter (column_set c v) id (jobs d) = jobs d) as ->; [|done].
    apply map_eq. intros id'. destruct (decide (id = id')) as [<-|Hne].
    + by rewrite lookup_alter_eq, E.
    + by rewrite lookup_alter_ne.
Qed.

Lemma normalizeColumn_healthy c d :
  faults d = [] → table_keyed (jobs d) →
  (∀ id r, jobs d !! id = Some r → cell_readable c r) →
  normalizeColumn c d = (Ok tt, set_jobs (normalize_cell c <$> jobs d) d).
Proof.
  intros Hf Hk Hc.
  destruct (scan_fixes_ok c (table_rows (jobs d))) as (fixes & Hs & Hfix).
  { intros r [id Hid]%elem_of_table_rows. by eapply Hc. }
  unfold normalizeColumn, nonCanonicalTimestamps, mbind, M_bind, wrap, lift.
  rewrite stmt_healthy by done. simpl. rewrite Hs, apply_fixes_healthy by done.
  do 2 f_equal. apply map_eq. intros id. rewrite lookup_fmap, Hfix.
  - destruct (decide _) as [|Hnin]; [done|]. destruct (jobs d !! id) as [r|] eqn:E; [|done].
    destruct Hnin. rewrite <- (Hk _ _ E).
    apply (list_elem_of_fmap_2 (λ r, job_id (r_ident r))), elem_of_table_rows. eauto.
  - rewrite table_rows_ids by done. apply NoDup_fst_map_to_list.
  - intros r [id0 Hid]%elem_of_table_rows. by rewrite (Hk _ _ Hid).
Qed.

Lemma table_keyed_cell c t : table_keyed t → table_keyed (normalize_cell c <$> t).
Proof.
  intros Hk id r. rewrite lookup_fmap_Some. intros (r0 & <- & Hr0).
  rewrite normalize_cell_ident. by apply Hk.
Qed.

Lemma normalize_columns_healthy cs d :
  NoDup cs → faults d = [] → table_keyed (jobs d) →
  (∀ c id r, c ∈ cs → jobs d !! id = Some r → cell_readable c r) →
  normalize_columns cs d =
    (Ok tt, set_jobs ((λ r, foldl (λ r c, normalize_cell c r) r cs) <$> jobs d) d).
Proof.
  intros Hn. revert d. induction Hn as [|c cs Hnin Hn IH]; intros d Hf Hk Hc.
  { simpl. rewrite map_fmap_id. by destruct d. }
  cbn [normalize_columns]. unfold mbind, M_bind.
  rewrite normalizeColumn_healthy; [|done..|intros id r; apply Hc; left].
  rewrite IH.
  - simpl. rewrite <- map_fmap_compose. done.
  - done.
  - by apply table_keyed_cell.
  - intros c' id r Hc'. simpl. rewrite lookup_fmap_Some. intros (r0 & <- & Hr0).
    apply normalize_cell_readable; [|by intros ->]. eapply Hc; [by right|done].
Qed.

(** ** Normalized rows *)

Lemma canonical_form_formatTS raw t :
  time_parse raw = Some t → canonical_form raw = formatTS t.
Proof. intros H. unfold canonical_form. by rewrite H. Qed.

Lemma normalize_cell_get c r :
  cell_readable c r → column_get c (normalize_cell c r) = canonical_form <$> column_get c r.
Proof.
  unfold cell_readable, normalize_cell. destruct (column_get c r) as [raw|] eqn:E; [|done].
  intros (t & Hp & Hin). rewrite (canonical_form_formatTS _ _ Hp). simpl.
  rewrite (canonical_form_formatTS _ _ Hp).
  pose proof (canonical_not_empty _ (canonical_formatTS t Hin)) as Hne.
  unfold column_get. destruct c; simpl; by destruct (formatTS t).
Qed.

Lemma normalize_cell_get_ne c c' r :
  c ≠ c' → column_get c (normalize_cell c' r) = column_get c r.
Proof.
  intros Hne. unfold normalize_cell. destruct (column_get c' r); [by apply column_set_get_ne|done].
Qed.

Lemma normalize_cells_get c cs r :
  NoDup cs → cell_readable c r →
  column_get c (foldl (λ r c, normalize_cell c r) r cs) =
    if decide (c ∈ cs) then canonical_form <$> column_get c r else column_get c r.
Proof.
  intros Hn. revert r. induction Hn as [|c' cs Hnin Hn IH]; intros r Hr.
  { by rewrite decide_False by apply not_elem_of_nil. }
  cbn [foldl]. destruct (decide (c = c')) as [<-|Hne].
  - rewrite (decide_True (P := c ∈ c :: cs)) by left.
    clear IH. induction cs as [|c2 cs IH] using rev_ind; [by apply normalize_cell_get|].
    apply not_elem_of_app in Hnin as [Hnin Hc2]. apply NoDup_app in Hn as (Hn & _ & _).
    rewrite foldl_app. simpl. rewrite normalize_cell_get_ne by (intros ->; apply Hc2; left).
    by apply IH.
  - rewrite IH by by apply normalize_cell_readable. rewrite normalize_cell_get_ne by done.
    apply decide_ext. rewrite elem_of_cons. tauto.
Qed.

Lemma timestampColumns_nodup : NoDup timestampColumns.
Proof. by apply (bool_decide_eq_true_1 (NoDup timestampColumns)). Qed.

Lemma timestampColumns_all c : c ∈ timestampColumns.
Proof. by apply (bool_decide_eq_true_1 (c ∈ timestampColumns)); destruct c. Qed.

Lemma normalize_row_get c r :
  timestamps_readable r → column_get c (normalize_row r) = canonical_form <$> column_get c r.
Proof.
  intros Hr. unfold normalize_row.
  rewrite normalize_cells_get by (apply timestampColumns_nodup || apply Hr).
  by rewrite decide_True by apply timestampColumns_all.
Qed.

(** A row whose set timestamps are canonical is left alone. *)
Lemma normalize_row_id r :
  (∀ c s, column_get c r = Some s → canonical_ts s) → normalize_row r = r.
Proof.
  intros Hc. unfold normalize_row. induction timestampColumns as [|c cs IH]; [done|]. simpl.
  assert (normalize_cell c r = r) as ->; [|done].
  destruct (column_get c r) as [s|] eqn:E; [|unfold normalize_cell; by rewrite E].
  destruct (canonical_parse _ (Hc _ _ E)) as (t & _ & Es & Hp).
  rewrite (normalize_cell_parsed _ _ _ _ E Hp), bool_decide_eq_true_2; done.
Qed.

Lemma normalizeTimestamps_healthy d :
  faults d = [] → table_keyed (jobs d) →
  (∀ id r, jobs d !! id = Some r → timestamps_readable r) →
  normalizeTimestamps d = (Ok tt, set_jobs (normalize_row <$> jobs d) d).
Proof.
  intros Hf Hk Hc. unfold normalizeTimestamps. rewrite in_tx_healthy by done.
  rewrite normalize_columns_healthy.
  - unfold stmt_fault. simpl. rewrite Hf. by rewrite next_stmt_no_faults.
  - apply timestampColumns_nodup.
  - done.
  - done.
  - intros c id r _ Hr. by apply (Hc id).
Qed.

Lemma normalized_readable r :
  timestamps_readable r → ∀ c s, column_get c (normalize_row r) = Some s → canonical_ts s.
Proof.
  intros Hr c s. rewrite normalize_row_get by done. specialize (Hr c). unfold cell_readable in Hr.
  destruct (column_get c r) as [raw|]; [|done]. destruct Hr as (t & Hp & Hin). intros [= <-].
  rewrite (canonical_form_formatTS _ _ Hp). by exists t.
Qed.

Lemma canonical_readable r :
  (∀ c s, column_get c r = Some s → canonical_ts s) → timestamps_readable r.
Proof.
  intros Hc c. unfold cell_readable. destruct (column_get c r) as [s|] eqn:E; [|done].
  destruct (canonical_parse _ (Hc _ _ E)) as (t & Hin & _ & Hp). by exists t.
Qed.

(** ** Properties *)

(** C37: opening a store whose timestamps all parse, to instants of the years 0
    to 9999, rewrites each to the canonical text of the same instant, in every
    timestamp column of every row; a timestamp that is not set stays unset, and
    no other column of any row changes; opening it again changes nothing. *)
Theorem normalizeTimestamps_canonical d :
  faults d = [] → table_keyed (jobs d) →
  (∀ id r, jobs d !! id = Some r → timestamps_readable r) →
  ∃ d', normalizeTimestamps d = (Ok tt, d') ∧ dom (jobs d') = dom (jobs d) ∧
    (∀ id r r', jobs d !! id = Some r → jobs d' !! id = Some r' → untimed r' = untimed r ∧ ∀ c,
       match column_get c r with
       | None => column_raw c r' = column_raw c r
       | Some raw => ∃ t, time_parse raw = Some t ∧ column_get c r' = Some (formatTS t)
       end) ∧
    (∀ id r, jobs d !! id = Some r → (∀ c s, column_get c r = Some s → canonical_ts s) →
       jobs d' !! id = Some r) ∧
    normalizeTimestamps d' = (Ok tt, d').
Proof.
  intros Hf Hk Hc. exists (set_jobs (normalize_row <$> jobs d) d).
  split; [by apply normalizeTimestamps_healthy|]. simpl. split_and!.
  - apply dom_fmap_L.
  - intros id r r' Hr. rewrite lookup_fmap, Hr. intros [= <-].
    split; [apply normalize_row_untimed|]. intros c.
    specialize (Hc _ _ Hr). pose proof (normalize_row_get c r Hc) as Hg. specialize (Hc c).
    unfold cell_readable in Hc. destruct (column_get c r) as [raw|] eqn:Ec; [|by apply normalize_row_unset].
    rewrite Hg. destruct Hc as (t & Hp & _). exists t. split; [done|]. simpl.
    by rewrite (canonical_form_formatTS _ _ Hp).
  - intros id r Hr Hcan. rewrite lookup_fmap, Hr. simpl. by rewrite normalize_row_id.
  - rewrite normalizeTimestamps_healthy; [|done| |].
    + assert (normalize_row <$> (normalize_row <$> jobs d) = normalize_row <$> jobs d) as E.
      { rewrite <- map_fmap_compose. apply map_fmap_ext. intros id r Hr. simpl.
        apply normalize_row_id. eapply normalized_readable; eauto. }
      simpl. rewrite E. by destruct d.
    + simpl. intros id r. rewrite lookup_fmap_Some. intros (r0 & <- & Hr0).
      rewrite normalize_row_ident. by apply Hk.
    + simpl. intros id r. rewrite lookup_fmap_Some. intros (r0 & <- & Hr0).
      apply canonical_readable, normalized_readable. by eapply Hc.
Qed.

(** Rows are only rewritten by a transaction that read every value. *)
Lemma scan_fixes_unparsed c rows r raw :
  r ∈ rows → column_get c r = Some raw → time_parse raw = None → is_ok (scan_fixes c rows) = false.
Proof.
  intros Hin Hg Hp. induction Hin as [|r r' rows Hin IH]; cbn [scan_fixes].
  - by rewrite Hg, Hp.
  - destruct (column_get c r') as [raw'|]; [|by apply IH].
    destruct (time_parse raw'); [|done]. destruct (scan_fixes c rows); [|done]. by apply IH.
Qed.

(** Rewriting one column keeps the others. *)
Definition keeps_column (c : timestampColumn) (t t' : gmap string row) : Prop :=
  ∀ id r, t !! id = Some r → ∃ r', t' !! id = Some r' ∧ column_get c r' = column_get c r.

Lemma apply_fixes_keeps c c' fixes d :
  c ≠ c' → keeps_column c (jobs d) (jobs (apply_fixes c' fixes d).2).
Proof.
  intros Hne. revert d. induction fixes as [|[id v] fixes IH]; intros d id0 r Hr; [eauto|].
  cbn [apply_fixes]. unfold mbind, M_bind, wrap, sql_update. rewrite stmt_run.
  destruct (stmt_fault d); [eauto|]. simpl.
  destruct (jobs d !! id) as [r1|] eqn:E; [|by apply IH].
  destruct (decide (id = id0)) as [->|Hi].
  - rewrite Hr in E. injection E as <-.
    destruct (IH (set_jobs (<[id0 := column_set c' v r]> (jobs d)) (next_stmt d)) id0
                (column_set c' v r)) as (r' & Hr' & E').
    + simpl. by rewrite lookup_insert_eq.
    + exists r'. split; [done|]. by rewrite E', column_set_get_ne.
  - apply IH. simpl. by rewrite lookup_insert_ne.
Qed.

Lemma normalizeColumn_keeps c c' d :
  c ≠ c' → keeps_column c (jobs d) (jobs (normalizeColumn c' d).2).
Proof.
  intros Hne. unfold normalizeColumn, nonCanonicalTimestamps, mbind, M_bind, wrap, lift.
  rewrite stmt_run. destruct (stmt_fault d); [intros ? ?; eauto|]. simpl.
  destruct (scan_fixes c' _) as [fixes|e]; [|intros ? ?; eauto].
  apply (apply_fixes_keeps c c' fixes (next_stmt d) Hne).
Qed.

Lemma normalizeColumn_unparsed c d id r raw :
  jobs d !! id = Some r → column_get c r = Some raw → time_parse raw = None →
  is_ok (normalizeColumn c d).1 = false.
Proof.
  intros Hr Hg Hp. unfold normalizeColumn, nonCanonicalTimestamps, mbind, M_bind, wrap, lift.
  rewrite stmt_run. destruct (stmt_fault d); [done|]. simpl.
  assert (is_ok (scan_fixes c (table_rows (jobs d))) = false) as Hs.
  { eapply scan_fixes_unparsed; [|done..]. apply elem_of_table_rows. eauto. }
  by destruct (scan_fixes c (table_rows (jobs d))).
Qed.

Lemma normalize_columns_unparsed c cs d id r raw :
  c ∈ cs → jobs d !! id = Some r → column_get c r = Some raw → time_parse raw = None →
  is_ok (normalize_columns cs d).1 = false.
Proof.
  revert d r. induction cs as [|c' cs IH]; intros d r Hin Hr Hg Hp.
  { by apply not_elem_of_nil in Hin. }
  cbn [normalize_columns]. unfold mbind, M_bind.
  pose proof (normalizeColumn_keeps c c' d) as Hk.
  destruct (decide (c = c')) as [<-|Hne].
  - pose proof (normalizeColumn_unparsed c d id r raw Hr Hg Hp) as Hf.
    by destruct (normalizeColumn c d) as [[u|e] d1].
  - destruct (Hk Hne id r Hr) as (r' & Hr' & Eg).
    destruct (normalizeColumn c' d) as [[u|e] d1]; [|done].
    apply (IH d1 r'); [|done|congruence|done]. by apply elem_of_cons in Hin as [->|].
Qed.

(** A store with a timestamp that does not parse is not opened, and is left
    as it was: normalizeTimestamps fails and changes no row, whatever else was
    to be rewritten. *)
Theorem normalizeTimestamps_refuses d id r c raw :
  jobs d !! id = Some r → column_get c r = Some raw → time_parse raw = None →
  is_ok (normalizeTimestamps d).1 = false ∧ jobs (normalizeTimestamps d).2 = jobs d.
Proof.
  intros Hr Hg Hp. unfold normalizeTimestamps.
  destruct (in_tx_jobs "begin normalize tx" (λ _ : unit, "commit normalize tx")
    (normalize_columns timestampColumns) d) as [[Hj Ho]|(u & d2 & Hb & _)]; [done|].
  pose proof (normalize_columns_unparsed c timestampColumns (next_stmt d) id r raw
    (timestampColumns_all c) Hr Hg Hp) as Hf. by rewrite Hb in Hf.
Qed.

(** ** Timestamps *)

(** C38: the text form of timestamps. Within years 0 to 9999 SQLite's
    comparison of two stored timestamps is the comparison of the instants, and
    parsing a stored timestamp gives back its instant. *)
Theorem timestamps_order_and_parse t1 t2 :
  ts_in_range t1 → ts_in_range t2 →
  (text_ltb (formatTS t1) (formatTS t2) = true ↔ t1 < t2) ∧
  (text_leb (formatTS t1) (formatTS t2) = true ↔ t1 ≤ t2) ∧
  (formatTS t1 = formatTS t2 → t1 = t2) ∧
  time_parse (formatTS t1) = Some t1.
Proof.
  intros H1 H2. rewrite formatTS_ltb, formatTS_leb, Z.ltb_lt, Z.leb_le by done.
  split_and!; [done..| |by apply time_parse_formatTS].
  intros E. apply (f_equal time_parse) in E. rewrite !time_parse_formatTS in E by done. congruence.
Qed.

(** The boundary: a value of year 9999 behind UTC parses, but its UTC form
    falls in year 10000, which does not parse back. *)
Example normalized_out_of_range :
  ∃ t, time_parse "9999-12-31T23:59:59-23:59" = Some t ∧ ¬ ts_in_range t ∧
       time_parse (formatTS t) = None.
Proof.
  eexists. split; [vm_compute; reflexivity|]. split; [|vm_compute; reflexivity].
  apply (bool_decide_eq_false_1 (ts_in_range _)). vm_compute. reflexivity.
Qed.

(** ** Concrete runs *)

(** The sample row as an earlier binary, local time zone +02:00, would have
    left it. *)
Definition old_row : row :=
  column_set ColCreatedAt "2024-07-03T11:46:40.5+02:00"
    (column_set ColUpdatedAt "2024-07-03T09:46:41Z" (sample_row d_created)).

Definition d_old : db := Db {["job-1" := old_row]} ∅ [] [].

Lemma old_keyed : table_keyed (jobs d_old).
Proof. intros id r. simpl. rewrite lookup_singleton_Some. by intros [<- <-]. Qed.

Lemma normalizeTimestamps_canonical_witness :
  ∃ d', normalizeTimestamps d_old = (Ok tt, d') ∧ normalizeTimestamps d' = (Ok tt, d').
Proof.
  destruct (normalizeTimestamps_canonical d_old eq_refl old_keyed) as (d' & H & _ & _ & _ & H').
  - intros id r Hr. assert (r = old_row) as ->.
    { simpl in Hr. apply lookup_singleton_Some in Hr as [_ <-]. reflexivity. }
    intros c. apply (bool_decide_eq_true_1 (cell_readable c old_row)). destruct c; vm_compute; reflexivity.
  - exists d'. split; [exact H|exact H'].
Defined.

Lemma normalizeTimestamps_refuses_witness :
  let d := Db {["job-1" := column_set ColLeaseUntil "soon" old_row]} ∅ [] [] in
  is_ok (normalizeTimestamps d).1 = false ∧ jobs (normalizeTimestamps d).2 = jobs d.
Proof.
  intros d.
  apply (normalizeTimestamps_refuses d "job-1" (column_set ColLeaseUntil "soon" old_row)
    ColLeaseUntil "soon").
  - simpl. apply lookup_singleton_eq.
  - vm_compute. reflexivity.
  - vm_compute. reflexivity.
Defined.

Lemma timestamps_order_and_parse_witness :
  text_ltb (formatTS t0) (formatTS (at_s 1)) = true ↔ t0 < at_s 1.
Proof.
  apply (timestamps_order_and_parse t0 (at_s 1)); vm_compute; split; discriminate.
Defined.
