(* ===== verification/Retry.v ===== *)
(** * Retry: the delays between attempts

    RetryDelay of [pkg/work/retry.go], which paces requeued jobs, and
    backoffDuration of [pkg/worker/delivery.go], which paces redeliveries. The
    jitter source, math/rand.Int63n, is an argument. *)

From S2P Require Import Prelude GoTime.

Definition RetryBaseDelay : Z := second.
Definition RetryMaxDelay : Z := 30 * second.

(** The doubling loop, on 64-bit durations. *)
Fixpoint retry_cap (fuel : nat) (i attempt capDelay : Z) : Z :=
  match fuel with
  | O => capDelay
  | S fuel =>
      if (i <? attempt) && (capDelay <? RetryMaxDelay)
      then retry_cap fuel (i + 1) attempt (wrap64 (capDelay * 2))
      else capDelay
  end.

(** Five doublings pass RetryMaxDelay (see retry_cap_done). *)
Definition retry_fuel : nat := 5.

Definition RetryDelay (attempt : Z) (randInt63n : Z → Z) : Z :=
  let capDelay := retry_cap retry_fuel 1 attempt RetryBaseDelay in
  let capDelay := if RetryMaxDelay <? capDelay then RetryMaxDelay else capDelay in
  let half := Z.quot capDelay 2 in
  wrap64 (half + randInt63n (wrap64 (capDelay - half + 1))).

Definition deliveryBaseBackoff : Z := 10 * second.
Definition deliveryMaxBackoff : Z := 5 * minute.

Definition backoffDuration (attempts : Z) (randInt63n : Z → Z) : Z :=
  let attempts := if attempts <? 1 then 1 else attempts in
  let shift := attempts - 1 in
  let shift := if 8 <? shift then 8 else shift in
  let d := wrap64 (deliveryBaseBackoff * Z.shiftl 1 shift) in
  let d := if (deliveryMaxBackoff <? d) || (d <=? 0) then deliveryMaxBackoff else d in
  let jitter := randInt63n (wrap64 (Z.quot d 4 + 1)) in
  let total := wrap64 (d + jitter) in
  if deliveryMaxBackoff <? total then deliveryMaxBackoff else total.

(** math/rand.Int63n: in [0, n) for a positive n. *)
Definition int63n_ok (rnd : Z → Z) : Prop := ∀ n, 0 < n → 0 ≤ rnd n < n.

(** The caps, in closed form. *)
Definition retry_cap_spec (attempt : Z) : Z :=
  Z.min RetryMaxDelay (RetryBaseDelay * 2 ^ (Z.max 1 attempt - 1)).

Definition backoff_base_spec (attempts : Z) : Z :=
  Z.min deliveryMaxBackoff (deliveryBaseBackoff * 2 ^ (Z.max 1 attempts - 1)).

(** ** The loop *)

(** Attempts behave alike from 6 on: the cap is reached. *)
Lemma small_or_large attempt :
  attempt ≤ 1 ∨ attempt = 2 ∨ attempt = 3 ∨ attempt = 4 ∨ attempt = 5 ∨ 6 ≤ attempt.
Proof. lia. Qed.

Lemma retry_cap_step fuel i attempt c :
  i < attempt → c < RetryMaxDelay →
  retry_cap (S fuel) i attempt c = retry_cap fuel (i + 1) attempt (wrap64 (c * 2)).
Proof.
  intros H1 H2. cbn [retry_cap]. apply Z.ltb_lt in H1, H2. by rewrite H1, H2.
Qed.

Lemma retry_cap_stop fuel i attempt c :
  attempt ≤ i ∨ RetryMaxDelay ≤ c → retry_cap fuel i attempt c = c.
Proof.
  destruct fuel; [done|]. cbn [retry_cap].
  intros [H|H]; apply Z.ltb_ge in H; rewrite H; by rewrite ?andb_false_r.
Qed.

(** The value the loop ends with, and that it ended by its own condition:
    more fuel changes nothing. *)
Lemma retry_cap_done k attempt :
  retry_cap (retry_fuel + k) 1 attempt RetryBaseDelay =
    if attempt <=? 1 then second
    else if attempt <=? 5 then second * 2 ^ (attempt - 1) else 32 * second.
Proof.
  change (retry_fuel + k)%nat with (S (S (S (S (S k))))).
  destruct (small_or_large attempt) as [H|[->|[->|[->|[->|H]]]]].
  - rewrite retry_cap_stop by lia. destruct (Z.leb_spec attempt 1); [done|lia].
  - rewrite retry_cap_step, retry_cap_stop by done || lia. done.
  - do 2 rewrite retry_cap_step by done. rewrite retry_cap_stop by lia. done.
  - do 3 rewrite retry_cap_step by done. rewrite retry_cap_stop by lia. done.
  - do 4 rewrite retry_cap_step by done. rewrite retry_cap_stop by lia. done.
  - do 5 rewrite retry_cap_step by done || lia. rewrite retry_cap_stop by by right.
    destruct (Z.leb_spec attempt 1); [lia|]. destruct (Z.leb_spec attempt 5); [lia|done].
Qed.

Lemma retry_capped attempt :
  (let c := retry_cap retry_fuel 1 attempt RetryBaseDelay in
   if RetryMaxDelay <? c then RetryMaxDelay else c) = retry_cap_spec attempt.
Proof.
  pose proof (retry_cap_done 0 attempt) as E. rewrite Nat.add_0_r in E. cbv zeta. rewrite E.
  unfold retry_cap_spec.
  destruct (small_or_large attempt) as [H|[->|[->|[->|[->|H]]]]]; try reflexivity.
  - rewrite Z.max_l by lia. destruct (Z.leb_spec attempt 1); [reflexivity|lia].
  - destruct (Z.leb_spec attempt 1); [lia|]. destruct (Z.leb_spec attempt 5); [lia|].
    rewrite Z.max_r by lia. rewrite Z.min_l; [reflexivity|].
    transitivity (RetryBaseDelay * 2 ^ 5); [by vm_compute|].
    apply Z.mul_le_mono_nonneg_l; [by vm_compute|]. apply Z.pow_le_mono_r; lia.
Qed.

Lemma retry_cap_spec_range attempt :
  RetryBaseDelay ≤ retry_cap_spec attempt ≤ RetryMaxDelay.
Proof.
  unfold retry_cap_spec. split; [|lia].
  assert (1 ≤ 2 ^ (Z.max 1 attempt - 1)) as H.
  { change 1 with (2 ^ 0) at 1. apply Z.pow_le_mono_r; lia. }
  unfold RetryBaseDelay, RetryMaxDelay, second in *. nia.
Qed.

(** ** Properties *)

Lemma retry_delay_parts attempt rnd :
  int63n_ok rnd →
  let cap := retry_cap_spec attempt in
  RetryDelay attempt rnd = cap / 2 + rnd (cap - cap / 2 + 1) ∧
  0 ≤ rnd (cap - cap / 2 + 1) < cap - cap / 2 + 1.
Proof.
  intros Hr cap. pose proof (retry_cap_spec_range attempt) as Hcap.
  unfold RetryDelay. pose proof (retry_capped attempt) as E. cbv zeta in E |- *. rewrite E.
  fold cap in Hcap |- *. clearbody cap. clear E.
  unfold RetryBaseDelay, RetryMaxDelay, second in *.
  rewrite (Z.quot_div_nonneg cap 2) by lia.
  assert (0 ≤ cap / 2 ≤ cap) as Hh by lia.
  pose proof (Hr (cap - cap / 2 + 1) ltac:(lia)) as Hj.
  rewrite (wrap64_id (cap - cap / 2 + 1)) by (unfold int64_range; lia).
  rewrite wrap64_id by (unfold int64_range; lia). lia.
Qed.

Lemma retry_delay_range attempt rnd :
  int63n_ok rnd → RetryBaseDelay / 2 ≤ RetryDelay attempt rnd ≤ RetryMaxDelay.
Proof.
  intros Hr. destruct (retry_delay_parts attempt rnd Hr) as [-> Hj].
  pose proof (retry_cap_spec_range attempt) as Hcap.
  unfold RetryBaseDelay, RetryMaxDelay, second in *. lia.
Qed.


(** C40: RetryDelay. For every attempt number, however large or negative, the
    delay lies between half the capped exponential
    min(30 s, 1 s * 2^(attempt-1)) and that cap, is positive, asks the jitter
    source for a positive bound, and never overflows. *)
Theorem RetryDelay_bounds attempt rnd :
  int63n_ok rnd →
  let cap := retry_cap_spec attempt in
  cap / 2 ≤ RetryDelay attempt rnd ≤ cap ∧ 0 < RetryDelay attempt rnd ∧
  RetryBaseDelay ≤ cap ≤ RetryMaxDelay ∧
  RetryDelay attempt rnd = cap / 2 + rnd (cap - cap / 2 + 1).
Proof.
  intros Hr cap. pose proof (retry_cap_spec_range attempt) as Hcap.
  destruct (retry_delay_parts attempt rnd Hr) as [E Hj]. fold cap in E, Hj, Hcap. rewrite E.
  unfold RetryBaseDelay, RetryMaxDelay, second in *. lia.
Qed.

Lemma attempts_cases attempts :
  attempts ≤ 1 ∨ attempts ∈ [2; 3; 4; 5; 6; 7; 8] ∨ 9 ≤ attempts.
Proof. rewrite !list_elem_of_In. simpl. lia. Qed.

(** The base delay before jitter. *)
Lemma backoff_based attempts :
  (let a := if attempts <? 1 then 1 else attempts in
   let shift := a - 1 in
   let shift := if 8 <? shift then 8 else shift in
   let d := wrap64 (deliveryBaseBackoff * Z.shiftl 1 shift) in
   if (deliveryMaxBackoff <? d) || (d <=? 0) then deliveryMaxBackoff else d) =
  backoff_base_spec attempts.
Proof.
  cbv zeta. unfold backoff_base_spec.
  destruct (attempts_cases attempts) as [H|[H|H]].
  - rewrite Z.max_l by lia. destruct (Z.ltb_spec attempts 1); [done|].
    replace attempts with 1 by lia. reflexivity.
  - rewrite !list_elem_of_In in H. simpl in H.
    repeat (destruct H as [<-|H]; [reflexivity|]). done.
  - destruct (Z.ltb_spec attempts 1); [lia|].
    assert ((if 8 <? attempts - 1 then 8 else attempts - 1) = 8) as ->
      by (destruct (Z.ltb_spec 8 (attempts - 1)); lia).
    rewrite Z.max_r by lia. rewrite Z.min_l; [reflexivity|].
    transitivity (deliveryBaseBackoff * 2 ^ 8); [by vm_compute|].
    apply Z.mul_le_mono_nonneg_l; [by vm_compute|]. apply Z.pow_le_mono_r; lia.
Qed.

Lemma backoff_base_range attempts :
  deliveryBaseBackoff ≤ backoff_base_spec attempts ≤ deliveryMaxBackoff.
Proof.
  unfold backoff_base_spec. split; [|lia].
  assert (1 ≤ 2 ^ (Z.max 1 attempts - 1)) as H.
  { change 1 with (2 ^ 0) at 1. apply Z.pow_le_mono_r; lia. }
  unfold deliveryBaseBackoff, deliveryMaxBackoff, minute, second in *. nia.
Qed.

(** backoffDuration. For every attempt count the wait is at least the
    capped exponential min(5 min, 10 s * 2^(attempts-1)), at most a quarter more,
    never above five minutes, and the computation never overflows. *)
Theorem backoffDuration_bounds attempts rnd :
  int63n_ok rnd →
  let d := backoff_base_spec attempts in
  d ≤ backoffDuration attempts rnd ≤ Z.min deliveryMaxBackoff (d + d / 4) ∧
  deliveryBaseBackoff ≤ d ∧
  backoffDuration attempts rnd = Z.min deliveryMaxBackoff (d + rnd (d / 4 + 1)).
Proof.
  intros Hr d. pose proof (backoff_base_range attempts) as Hd.
  unfold backoffDuration. pose proof (backoff_based attempts) as E. cbv zeta in E |- *. rewrite E.
  fold d in Hd |- *. clearbody d. clear E.
  unfold deliveryBaseBackoff, deliveryMaxBackoff, minute, second in *.
  rewrite (Z.quot_div_nonneg d 4) by lia.
  assert (0 ≤ d / 4 ≤ d) as Hq by lia.
  pose proof (Hr (d / 4 + 1) ltac:(lia)) as Hj.
  rewrite (wrap64_id (d / 4 + 1)) by (unfold int64_range; lia).
  rewrite wrap64_id by (unfold int64_range; lia).
  destruct (Z.ltb_spec (5 * (60 * 10 ^ 9)) (d + rnd (d / 4 + 1))); lia.
Qed.

(** ** Concrete runs *)

Lemma zero_jitter_ok : int63n_ok (λ _, 0).
Proof. intros n Hn. lia. Qed.

Lemma RetryDelay_bounds_witness :
  RetryBaseDelay * 4 / 2 ≤ RetryDelay 3 (λ _, 0) ≤ RetryBaseDelay * 4 ∧ RetryDelay 3 (λ _, 0) = 2 * second.
Proof.
  destruct (RetryDelay_bounds 3 (λ _, 0) zero_jitter_ok) as (H & _ & _ & E).
  split; [exact H|]. rewrite E. reflexivity.
Defined.

Lemma backoffDuration_bounds_witness :
  backoffDuration 2 (λ n, n - 1) = 25 * second ∧ backoffDuration 100 (λ n, n - 1) = 5 * minute.
Proof.
  assert (int63n_ok (λ n, n - 1)) as Hok by (intros n Hn; lia).
  destruct (backoffDuration_bounds 2 (λ n, n - 1) Hok) as (_ & _ & E2).
  destruct (backoffDuration_bounds 100 (λ n, n - 1) Hok) as (_ & _ & E100).
  rewrite E2, E100. split; vm_compute; reflexivity.
Defined.
