(* ===== verification/Names.v ===== *)
(** * Names: Kubernetes Job names and NodeVault record identifiers

    [pkg/worker/jobspec.go], l5aJobName of [pkg/worker/l5a.go] and
    isLegacyJobName of [pkg/worker/worker.go]. *)

From S2P Require Import Prelude Db StoreSpec.

(** ** The operations *)

(** The byte switch of sanitizeDNSLabelMax. *)
Definition sanitize_byte (c : ascii) : ascii :=
  let n := N_of_ascii c in
  if ((97 <=? n)%N && (n <=? 122)%N) || ((48 <=? n)%N && (n <=? 57)%N) || (n =? 45)%N then c
  else if (65 <=? n)%N && (n <=? 90)%N then ascii_of_N (n - 65 + 97)
  else "-"%char.

Fixpoint map_string (f : ascii → ascii) (s : string) : string :=
  match s with
  | EmptyString => EmptyString
  | String c s => String (f c) (map_string f s)
  end.

(** [out[:n]]. *)
Fixpoint take_string (n : nat) (s : string) : string :=
  match n, s with
  | S n, String c s => String c (take_string n s)
  | _, _ => EmptyString
  end.

Definition sanitizeDNSLabelMax (s : string) (maxLen : nat) : string :=
  let out := map_string sanitize_byte s in
  if (maxLen <? String.length out)%nat then take_string maxLen out else out.

Definition sanitizeDNSLabel (s : string) : string := sanitizeDNSLabelMax s 30.

Definition legacySanitizedIDMaxLen : nat := 50.

Definition recordIDLabel (jobID : string) : string :=
  sanitizeDNSLabelMax jobID legacySanitizedIDMaxLen.

(** The Job names, from the job ID and the execution identity. *)
Definition smokeJobName (jobID executionID : string) : string :=
  "smoke-" +:+ sanitizeDNSLabel jobID +:+ "-" +:+ executionID.

Definition l5aJobName (jobID executionID : string) : string :=
  "l5a-" +:+ sanitizeDNSLabel jobID +:+ "-" +:+ executionID.

(** [strings.CutPrefix]. *)
Fixpoint cut_prefix (p s : string) : option string :=
  match p, s with
  | EmptyString, _ => Some s
  | String a p, String b s => if Ascii.eqb a b then cut_prefix p s else None
  | String _ _, EmptyString => None
  end.

(** [strings.Trim(s, "0123456789") == ""]: nothing but digits. *)
Fixpoint all_digits (s : string) : bool :=
  match s with
  | EmptyString => true
  | String c s => is_digit c && all_digits s
  end.

Definition legacy_suffix (name prefix : string) : bool :=
  match cut_prefix prefix name with
  | Some attempt => negb (bool_decide (attempt = "")) && all_digits attempt
  | None => false
  end.

Definition isLegacyJobName (name jobID : string) : bool :=
  existsb (λ id, existsb (λ prefix, legacy_suffix name (prefix +:+ id +:+ "-")) ["smoke-"; "l5a-"])
    [sanitizeDNSLabelMax jobID legacySanitizedIDMaxLen; sanitizeDNSLabel jobID].

(** The identifiers EnqueueValidationWork makes: 16 random bytes in hex. *)
Definition ingress_id (v : N) : string := "job-" +:+ hex_encode 32 v.

(** ** DNS labels *)

(** The characters of a DNS-1123 label. *)
Definition dns_char (c : ascii) : bool :=
  let n := N_of_ascii c in
  ((97 <=? n)%N && (n <=? 122)%N) || is_digit c || (n =? 45)%N.

Fixpoint all_chars (p : ascii → bool) (s : string) : bool :=
  match s with
  | EmptyString => true
  | String c s => p c && all_chars p s
  end.

Lemma all_chars_app p a b : all_chars p (a +:+ b) = all_chars p a && all_chars p b.
Proof.
  induction a as [|c a IH]; [done|]. rewrite string_app_cons. cbn [all_chars].
  by rewrite IH, andb_assoc.
Qed.

(** A property of every byte holds if it holds of the 256 of them. *)
Lemma byte_check (p : ascii → bool) :
  forallb p (map ascii_of_nat (seq 0 256)) = true → ∀ c, p c = true.
Proof.
  intros H c. rewrite forallb_forall in H. apply H. rewrite <- (ascii_nat_embedding c).
  apply in_map, in_seq. pose proof (nat_ascii_bounded c). lia.
Qed.

Lemma sanitize_byte_dns c : dns_char (sanitize_byte c) = true.
Proof. revert c. apply byte_check. vm_compute. reflexivity. Qed.

Lemma sanitize_byte_id c : dns_char c = true → sanitize_byte c = c.
Proof.
  intros H. pose proof (byte_check (λ c, negb (dns_char c) || Ascii.eqb (sanitize_byte c) c)) as Hc.
  specialize (Hc ltac:(vm_compute; reflexivity) c). simpl in Hc. rewrite H in Hc.
  by apply Ascii.eqb_eq.
Qed.

Lemma map_string_length f s : String.length (map_string f s) = String.length s.
Proof. induction s as [|c s IH]; simpl; [done|by rewrite IH]. Qed.

Lemma take_string_length n s : String.length (take_string n s) = Nat.min n (String.length s).
Proof. revert s. induction n as [|n IH]; intros [|c s]; simpl; [done..|by rewrite IH]. Qed.

Lemma take_string_all p n s : all_chars p s = true → all_chars p (take_string n s) = true.
Proof.
  revert s. induction n as [|n IH]; intros [|c s] H; simpl in *; [done..|].
  apply andb_true_iff in H as [-> H]. by apply IH.
Qed.

Lemma map_string_all p f s : (∀ c, p (f c) = true) → all_chars p (map_string f s) = true.
Proof. intros H. induction s as [|c s IH]; simpl; [done|]. by rewrite H, IH. Qed.

Lemma map_string_id p f s :
  (∀ c, p c = true → f c = c) → all_chars p s = true → map_string f s = s.
Proof.
  intros Hf. induction s as [|c s IH]; simpl; [done|]. intros [Hc Hs]%andb_true_iff.
  by rewrite Hf, IH.
Qed.

Lemma sanitizeDNSLabelMax_dns s n : all_chars dns_char (sanitizeDNSLabelMax s n) = true.
Proof.
  unfold sanitizeDNSLabelMax. destruct (_ <? _)%nat; [apply take_string_all|];
    apply map_string_all, sanitize_byte_dns.
Qed.

Lemma sanitizeDNSLabelMax_length s n : (String.length (sanitizeDNSLabelMax s n) ≤ n)%nat.
Proof.
  unfold sanitizeDNSLabelMax. destruct (Nat.ltb_spec n (String.length (map_string sanitize_byte s)));
    [rewrite take_string_length|]; lia.
Qed.

(** ** Hex digits *)

Definition hex_char (c : ascii) : bool :=
  let n := N_of_ascii c in is_digit c || ((97 <=? n)%N && (n <=? 102)%N).

(** A property of every hex digit holds if it holds of the sixteen. *)
Lemma hex_digit_check (p : N → bool) :
  forallb p (map N.of_nat (seq 0 16)) = true → ∀ n, (n < 16)%N → p n = true.
Proof.
  intros H n Hn. rewrite forallb_forall in H. apply H.
  rewrite <- (N2Nat.id n). apply in_map, in_seq. lia.
Qed.

Lemma hex_digit_char n : (n < 16)%N → hex_char (hex_digit n) = true.
Proof. apply (hex_digit_check (λ n, hex_char (hex_digit n))). vm_compute. reflexivity. Qed.

Lemma hex_encode_length w v : String.length (hex_encode w v) = w.
Proof. induction w as [|w IH]; simpl; [done|by rewrite IH]. Qed.

Lemma hex_encode_chars w v : all_chars hex_char (hex_encode w v) = true.
Proof.
  induction w as [|w IH]; [done|]. cbn [hex_encode all_chars]. rewrite IH, andb_true_r.
  apply hex_digit_char. apply N.mod_lt. lia.
Qed.

Lemma hex_char_dns c : hex_char c = true → dns_char c = true.
Proof.
  intros H. pose proof (byte_check (λ c, negb (hex_char c) || dns_char c)
    ltac:(vm_compute; reflexivity) c) as Hc. simpl in Hc. by rewrite H in Hc.
Qed.

Lemma hex_char_not_dash c : hex_char c = true → c ≠ "-"%char.
Proof. by intros H ->. Qed.

Lemma all_chars_impl (p q : ascii → bool) s :
  (∀ c, p c = true → q c = true) → all_chars p s = true → all_chars q s = true.
Proof.
  intros Hpq. induction s as [|c s IH]; simpl; [done|]. intros [Hc Hs]%andb_true_iff.
  by rewrite Hpq, IH.
Qed.

(** ** Legacy names *)

Lemma cut_prefix_app p s : cut_prefix p (p +:+ s) = Some s.
Proof.
  induction p as [|c p IH]; [by destruct s|]. rewrite string_app_cons. cbn [cut_prefix].
  by rewrite Ascii.eqb_refl.
Qed.

Lemma cut_prefix_some p s r : cut_prefix p s = Some r → s = p +:+ r.
Proof.
  revert s. induction p as [|c p IH]; intros [|c' s]; cbn [cut_prefix]; try done.
  - by intros [= <-].
  - by intros [= <-].
  - destruct (Ascii.eqb_spec c c') as [->|]; [|done]. intros H.
    rewrite string_app_cons. by rewrite (IH s).
Qed.

(** Equal texts agree on prefixes of one length. *)
Lemma app_inj_length (a1 a2 b1 b2 : string) :
  String.length a1 = String.length a2 → a1 +:+ b1 = a2 +:+ b2 → a1 = a2 ∧ b1 = b2.
Proof.
  revert a2. induction a1 as [|c a1 IH]; intros [|c2 a2] Hl E; simpl in Hl; try done.
  rewrite !string_app_cons in E. injection E as -> E.
  destruct (IH a2 ltac:(lia) E) as [-> ->]. done.
Qed.

Lemma app_inj_suffix (a1 a2 b1 b2 : string) :
  String.length b1 = String.length b2 → a1 +:+ b1 = a2 +:+ b2 → a1 = a2 ∧ b1 = b2.
Proof.
  intros Hl E. apply app_inj_length; [|done].
  apply (f_equal String.length) in E. rewrite !string_length_app in E. lia.
Qed.

Lemma legacy_suffix_true name p :
  legacy_suffix name p = true → ∃ ds, name = p +:+ ds ∧ ds ≠ "" ∧ all_digits ds = true.
Proof.
  unfold legacy_suffix. destruct (cut_prefix p name) as [ds|] eqn:E; [|done].
  intros [Hn Hd]%andb_true_iff. apply cut_prefix_some in E. exists ds. split; [done|].
  split; [|done]. by apply negb_true_iff, bool_decide_eq_false_1 in Hn.
Qed.

(** An execution identity starts with a letter, so it is not an attempt number. *)
Lemma minted_not_digits n v : all_digits (minted n v) = false.
Proof. done. Qed.

Lemma isLegacyJobName_true name jobID :
  isLegacyJobName name jobID = true →
  ∃ p id ds, p ∈ ["smoke-"; "l5a-"] ∧
    id ∈ [sanitizeDNSLabelMax jobID legacySanitizedIDMaxLen; sanitizeDNSLabel jobID] ∧
    name = (p +:+ id +:+ "-") +:+ ds ∧ ds ≠ "" ∧ all_digits ds = true.
Proof.
  unfold isLegacyJobName. intros (id & Hid & (p & Hp & H)%existsb_exists)%existsb_exists.
  apply legacy_suffix_true in H as (ds & E & Hne & Hd). exists p, id, ds.
  by rewrite !list_elem_of_In.
Qed.

(** Ingress identifiers: 36 bytes the sanitizer keeps, the last 32 of them hex. *)
Lemma ingress_id_dns v : all_chars dns_char (ingress_id v) = true.
Proof.
  unfold ingress_id. rewrite all_chars_app. apply andb_true_iff. split; [done|].
  eapply all_chars_impl; [apply hex_char_dns|apply hex_encode_chars].
Qed.

Lemma ingress_id_length v : String.length (ingress_id v) = 36%nat.
Proof. unfold ingress_id. rewrite string_length_app, hex_encode_length. done. Qed.

Lemma sanitize_ingress v n :
  sanitizeDNSLabelMax (ingress_id v) n = if (n <? 36)%nat then take_string n (ingress_id v) else ingress_id v.
Proof.
  unfold sanitizeDNSLabelMax.
  by rewrite (map_string_id dns_char _ _ sanitize_byte_id (ingress_id_dns v)), ingress_id_length.
Qed.

Lemma take_string_split n s : ∃ r, s = take_string n s +:+ r.
Proof.
  revert s. induction n as [|n IH]; intros [|c s]; [by exists ""|by eexists|by exists ""|].
  destruct (IH s) as [r E]. exists r. cbn [take_string]. rewrite string_app_cons. by rewrite <- E.
Qed.

(** Byte 30 of an ingress identifier is a hex digit. *)
Lemma ingress_tail v : ∃ c r, ingress_id v = take_string 30 (ingress_id v) +:+ String c r ∧ hex_char c = true.
Proof.
  destruct (take_string_split 26 (hex_encode 32 v)) as [r E].
  pose proof (hex_encode_chars 32 v) as Hh. rewrite E, all_chars_app in Hh.
  apply andb_true_iff in Hh as [_ Hh].
  pose proof (f_equal String.length E) as Hl.
  rewrite string_length_app, take_string_length, hex_encode_length in Hl.
  destruct r as [|c r]; [simpl in Hl; lia|]. exists c, r. cbn [all_chars] in Hh.
  apply andb_true_iff in Hh as [Hc _]. split; [|done].
  unfold ingress_id. change (take_string 30 ("job-" +:+ hex_encode 32 v))
    with ("job-" +:+ take_string 26 (hex_encode 32 v)).
  rewrite string_app_assoc. by rewrite <- E.
Qed.

(** A name made of prefix, the 30-byte label of an ingress job and an execution
    identity is not of the legacy form. *)
Lemma current_name_not_legacy id ds v n x :
  id ∈ [sanitizeDNSLabelMax (ingress_id v) legacySanitizedIDMaxLen; sanitizeDNSLabel (ingress_id v)] →
  all_digits ds = true →
  sanitizeDNSLabel (ingress_id v) +:+ "-" +:+ minted n x ≠ id +:+ "-" +:+ ds.
Proof.
  intros Hid Hd E. unfold sanitizeDNSLabel in *. rewrite !sanitize_ingress in *. simpl in Hid.
  cbn [Nat.ltb Nat.leb] in E.
  apply elem_of_cons in Hid as [->|Hid]; [|apply list_elem_of_singleton in Hid as ->].
  - destruct (ingress_tail v) as (c & r & Ev & Hc). rewrite Ev in E at 2.
    rewrite string_app_assoc in E. apply app_inj_length in E as [_ E]; [|done].
    rewrite string_app_cons in E. injection E as Ec _. by subst.
  - apply app_inj_length in E as [_ E]; [|done]. apply app_inj_length in E as [_ E]; [|done].
    by rewrite <- E, minted_not_digits in Hd.
Qed.

(** ** Properties *)

Lemma all_digits_app a b : all_digits (a +:+ b) = all_digits a && all_digits b.
Proof.
  induction a as [|c a IH]; [done|]. rewrite string_app_cons. cbn [all_digits]. by rewrite IH, andb_assoc.
Qed.

(** Printing a number of at most [k] digits puts at most [k] digits in front. *)
Lemma pretty_N_go_digits k x s :
  (x < 10 ^ N.of_nat k)%N →
  ∃ d, pretty_N_go x s = d +:+ s ∧ all_digits d = true ∧ (String.length d ≤ k)%nat.
Proof.
  revert x s. induction k as [|k IH]; intros x s Hx.
  { replace x with 0%N by (simpl in Hx; lia). by exists "". }
  assert (x = 0 ∨ 0 < x)%N as [->|Hpos] by lia; [exists ""; split_and!; [done..|simpl; lia]|].
  rewrite pretty_N_go_step by done.
  rewrite Nat2N.inj_succ, N.pow_succ_r' in Hx.
  destruct (IH (x `div` 10)%N (String (pretty_N_char (x `mod` 10)) s)) as (d & Hd & Hall & Hlen).
  { apply N.Div0.div_lt_upper_bound. lia. }
  exists (d +:+ String (pretty_N_char (x `mod` 10)) ""). rewrite Hd, string_app_assoc. split; [done|].
  split; [|rewrite string_length_app; simpl; lia].
  rewrite all_digits_app, Hall. unfold pretty_N_char. by repeat case_match.
Qed.

(** What the digits of an attempt number contribute to a name. *)
Lemma small_attempt_digits n :
  0 ≤ n ≤ 9999 → all_digits (pretty n) = true ∧ (String.length (pretty n) ≤ 4)%nat.
Proof.
  intros Hn. destruct n as [|p|p]; [split; [done|simpl; lia]| |lia].
  change (pretty (Zpos p)) with (pretty_N_go (Npos p) "").
  destruct (pretty_N_go_digits 4 (Npos p) "") as (d & -> & Hd & Hl); [simpl; lia|].
  by rewrite string_app_nil_r.
Qed.

Lemma all_digits_dns s : all_digits s = true → all_chars dns_char s = true.
Proof.
  induction s as [|c s IH]; [done|]. cbn [all_digits all_chars]. intros [Hc Hs]%andb_true_iff.
  rewrite IH by done. unfold dns_char. by rewrite Hc, orb_true_r.
Qed.

Lemma minted_dns n v : 0 ≤ n ≤ 9999 → all_chars dns_char (minted n v) = true.
Proof.
  intros Hn. destruct (small_attempt_digits n Hn) as [Hd _]. unfold minted.
  rewrite !all_chars_app, (all_digits_dns _ Hd).
  rewrite (all_chars_impl hex_char dns_char (hex_encode 16 v) hex_char_dns) by apply hex_encode_chars.
  done.
Qed.

Lemma minted_length n v : 0 ≤ n ≤ 9999 → (String.length (minted n v) ≤ 22)%nat.
Proof.
  intros Hn. destruct (small_attempt_digits n Hn) as [_ Hl]. unfold minted.
  rewrite !string_length_app, hex_encode_length. simpl. lia.
Qed.

(** Job names are valid. For any job ID, whatever its bytes and length,
    and any identity minted by one of its first 9999 attempts, both Job names fit
    the 63 bytes of a DNS label and use only its characters; names of two
    identities of one job differ, and an L5-a name is never a smoke-run name. *)
Theorem job_names_valid jobID n v :
  0 ≤ n ≤ 9999 →
  let e := minted n v in
  (String.length (smokeJobName jobID e) ≤ 63)%nat ∧ all_chars dns_char (smokeJobName jobID e) = true ∧
  (String.length (l5aJobName jobID e) ≤ 63)%nat ∧ all_chars dns_char (l5aJobName jobID e) = true ∧
  (∀ e', smokeJobName jobID e = smokeJobName jobID e' → e = e') ∧
  (∀ e', l5aJobName jobID e = l5aJobName jobID e' → e = e') ∧
  (∀ jobID' e', smokeJobName jobID e ≠ l5aJobName jobID' e').
Proof.
  intros Hn e. pose proof (minted_dns n v Hn) as Hd. pose proof (minted_length n v Hn) as Hl.
  pose proof (sanitizeDNSLabelMax_dns jobID 30) as Hs.
  pose proof (sanitizeDNSLabelMax_length jobID 30) as Hsl.
  fold e in Hd, Hl. unfold smokeJobName, l5aJobName.
  rewrite !string_length_app, !all_chars_app. fold (sanitizeDNSLabel jobID) in Hs, Hsl.
  rewrite Hd, Hs. cbn [String.length]. split_and!; [lia|done|lia|done| | |].
  - intros e' E. apply app_inj_length in E as [_ E]; [|done].
    apply app_inj_length in E as [_ E]; [|done]. by apply app_inj_length in E as [_ E].
  - intros e' E. apply app_inj_length in E as [_ E]; [|done].
    apply app_inj_length in E as [_ E]; [|done]. by apply app_inj_length in E as [_ E].
  - intros jobID' e' E. rewrite !string_app_cons in E. discriminate E.
Qed.

(** Retirement tells the two naming schemes apart. For a job with an
    ingress ID no name made from an execution identity is taken for a legacy
    name, and every attempt-derived name, under either truncation an old worker
    may have used, is. *)
Theorem legacy_names_recognized v n x ds :
  all_digits ds = true → ds ≠ "" →
  let jobID := ingress_id v in
  isLegacyJobName (smokeJobName jobID (minted n x)) jobID = false ∧
  isLegacyJobName (l5aJobName jobID (minted n x)) jobID = false ∧
  (∀ p max, p ∈ ["smoke-"; "l5a-"] → max ∈ [30%nat; 50%nat] →
     isLegacyJobName ((p +:+ sanitizeDNSLabelMax jobID max +:+ "-") +:+ ds) jobID = true).
Proof.
  intros Hd Hne jobID. subst jobID. split_and!.
  - destruct (isLegacyJobName _ _) eqn:E; [|done]. apply isLegacyJobName_true in E
      as (p & id & ds' & Hp & Hid & E & _ & Hd'). exfalso. unfold smokeJobName in E.
    apply elem_of_cons in Hp as [->|Hp]; [|apply list_elem_of_singleton in Hp as ->];
      rewrite !string_app_assoc in E.
    + apply app_inj_length in E as [_ E]; [|done]. by apply current_name_not_legacy in E.
    + rewrite !string_app_cons in E. discriminate E.
  - destruct (isLegacyJobName _ _) eqn:E; [|done]. apply isLegacyJobName_true in E
      as (p & id & ds' & Hp & Hid & E & _ & Hd'). exfalso. unfold l5aJobName in E.
    apply elem_of_cons in Hp as [->|Hp]; [|apply list_elem_of_singleton in Hp as ->];
      rewrite !string_app_assoc in E.
    + rewrite !string_app_cons in E. discriminate E.
    + apply app_inj_length in E as [_ E]; [|done]. by apply current_name_not_legacy in E.
  - intros p max Hp Hmax. unfold isLegacyJobName. apply existsb_exists.
    exists (sanitizeDNSLabelMax (ingress_id v) max). split.
    { apply elem_of_cons in Hmax as [->|Hmax]; [right; left; done|].
      apply list_elem_of_singleton in Hmax as ->. by left. }
    apply existsb_exists. exists p. split; [by apply list_elem_of_In|].
    unfold legacy_suffix. rewrite cut_prefix_app, Hd. by rewrite bool_decide_eq_false_2.
Qed.

(** That holds of ingress IDs only. A longer job ID whose bytes 31 to 33
    read -a1 makes the smoke-run Job of an identity minted by attempt 1 with a
    decimal suffix look like an attempt-derived name. *)
Theorem legacy_name_collision :
  let jobID := "xxxxxxxxxxxxxxxxxxxxxxxxxxxxxx-a1" in
  isLegacyJobName (smokeJobName jobID (minted 1 1)) jobID = true.
Proof. vm_compute. reflexivity. Qed.

(** Record identifiers keep ingress job IDs whole: the label of a record
    ID is the job ID itself, so records of different jobs have different IDs. *)
Theorem recordIDLabel_ingress v v' :
  recordIDLabel (ingress_id v) = ingress_id v ∧
  (recordIDLabel (ingress_id v) = recordIDLabel (ingress_id v') → ingress_id v = ingress_id v').
Proof.
  assert (∀ v, recordIDLabel (ingress_id v) = ingress_id v) as H.
  { intros w. unfold recordIDLabel. by rewrite sanitize_ingress. }
  split; [done|]. by rewrite !H.
Qed.

(** ** Concrete runs *)

Lemma job_names_valid_witness :
  (String.length (smokeJobName "Job/With Spaces" (minted 9999 5)) ≤ 63)%nat ∧
  all_chars dns_char (smokeJobName "Job/With Spaces" (minted 9999 5)) = true.
Proof.
  destruct (job_names_valid "Job/With Spaces" 9999 5) as (H1 & H2 & _); [lia|].
  split; [exact H1|exact H2].
Defined.

Lemma legacy_names_recognized_witness :
  isLegacyJobName (smokeJobName (ingress_id 5) (minted 1 1)) (ingress_id 5) = false.
Proof. apply (legacy_names_recognized 5 1 1 "3"); [reflexivity|discriminate]. Defined.
