(* ===== verification/Failure.v ===== *)
(** * Failure: classes of failures and the retry policy

    [pkg/worker/failureclass.go], the pod inspection of [pkg/worker/classify.go]
    and extractPodExitCode of [pkg/worker/l5a.go], on the part of the
    Kubernetes Job and Pod statuses they read. *)

From S2P Require Import Prelude GoTime Errors Work Retry.

(** ** Failure classes *)

Inductive FailureClass :=
| FailureClassDeterministic | FailureClassTransientInfra
| FailureClassResourceObservation | FailureClassUnknown.

#[export] Instance FailureClass_eq_dec : EqDecision FailureClass.
Proof. solve_decision. Defined.

Definition FailureKindInfrastructure : string := "infrastructure".
Definition FailureKindApplication : string := "application".

Definition wireStatus (c : FailureClass) : string * string :=
  match c with
  | FailureClassDeterministic | FailureClassResourceObservation => ("failed", FailureKindApplication)
  | FailureClassTransientInfra | FailureClassUnknown => ("infra_failed", FailureKindInfrastructure)
  end.

Definition maxAttempts : Z := 5.
Definition retryExhaustedReason : string := "RETRY_EXHAUSTED".
Definition unknownRetryLimitReason : string := "UNKNOWN_RETRY_LIMIT".
Definition unknownRetryMarker : string := "[unknown-retry]".

(** [strings.Contains]. *)
Fixpoint has_prefix (p s : string) : bool :=
  match p, s with
  | EmptyString, _ => true
  | String a p, String b s => Ascii.eqb a b && has_prefix p s
  | String _ _, EmptyString => false
  end.

Fixpoint strings_contains (s sub : string) : bool :=
  has_prefix sub s || match s with EmptyString => false | String _ s => strings_contains s sub end.

Record RetryDecision := {
  rd_Class : FailureClass;
  rd_Retry : bool;
  rd_Reason : string;
  rd_Delay : Z;
}.

(** [retryDelayFor], with the jitter source as an argument. *)
Definition retryDelayFor (rnd : Z → Z) (attempt : Z) : Z := RetryDelay attempt rnd.

Definition decideRetry (rnd : Z → Z) (class : FailureClass) (job : Job) (reason : string) : RetryDecision :=
  match class with
  | FailureClassDeterministic | FailureClassResourceObservation =>
      {| rd_Class := class; rd_Retry := false; rd_Reason := reason; rd_Delay := 0 |}
  | FailureClassUnknown =>
      if strings_contains (LastError job) unknownRetryMarker then
        {| rd_Class := class; rd_Retry := false;
           rd_Reason := unknownRetryLimitReason +:+
             ": UNKNOWN failure recurred immediately after its one permitted retry: " +:+ reason;
           rd_Delay := 0 |}
      else if maxAttempts <=? Attempt job then
        {| rd_Class := class; rd_Retry := false;
           rd_Reason := retryExhaustedReason +:+ ": " +:+ reason; rd_Delay := 0 |}
      else
        {| rd_Class := class; rd_Retry := true; rd_Reason := reason +:+ " " +:+ unknownRetryMarker;
           rd_Delay := retryDelayFor rnd (Attempt job) |}
  | FailureClassTransientInfra =>
      if maxAttempts <=? Attempt job then
        {| rd_Class := class; rd_Retry := false;
           rd_Reason := retryExhaustedReason +:+ ": " +:+ reason; rd_Delay := 0 |}
      else
        {| rd_Class := class; rd_Retry := true; rd_Reason := reason;
           rd_Delay := retryDelayFor rnd (Attempt job) |}
  end.

(** ** What the worker reads of Jobs and Pods *)

Record jobCondition := {
  cond_Type : string;
  cond_Status : string;
  cond_Reason : string;
  cond_Message : string;
}.

Record terminatedState := { term_Reason : string; term_ExitCode : Z }.
Record waitingState := { wait_Reason : string; wait_Message : string }.

Record containerStatus := {
  cs_Waiting : option waitingState;
  cs_Terminated : option terminatedState;
}.

Record pod := {
  pod_Phase : string;
  pod_Reason : string;
  pod_ContainerStatuses : list containerStatus;
}.

Record outcome := {
  o_success : bool;
  o_retryable : bool;
  o_class : FailureClass;
  o_reason : string;
}.

(** The failures the classifier reports. [class] is unset on success. *)
Definition failure (retryable : bool) (c : FailureClass) (reason : string) : outcome :=
  {| o_success := false; o_retryable := retryable; o_class := c; o_reason := reason |}.

Definition success : outcome :=
  {| o_success := true; o_retryable := false; o_class := FailureClassDeterministic; o_reason := "" |}.

(** The switch on a terminated container's reason. *)
Definition classify_terminated (term : terminatedState) : option outcome :=
  let exited detail :=
    if negb (term_ExitCode term =? 0) then
      Some (failure false FailureClassDeterministic
        ("application-level failure: container exited with code " +:+
         pretty (term_ExitCode term) +:+ detail))
    else None in
  if bool_decide (term_Reason term = "OOMKilled") then
    Some (failure true FailureClassResourceObservation "OOMKilled")
  else if bool_decide (term_Reason term = "DeadlineExceeded") then
    Some (failure true FailureClassTransientInfra "timeout: activeDeadlineSeconds exceeded")
  else if bool_decide (term_Reason term = "Error") || bool_decide (term_Reason term = "Completed") then
    exited ""
  else exited (" (" +:+ term_Reason term +:+ ")").

(** The classification one container status gives, if any. *)
Definition classify_container (cs : containerStatus) : option outcome :=
  let terminated :=
    match cs_Terminated cs with None => None | Some term => classify_terminated term end in
  match cs_Waiting cs with
  | Some w =>
      if bool_decide (wait_Reason w = "ImagePullBackOff") || bool_decide (wait_Reason w = "ErrImagePull")
      then Some (failure true FailureClassTransientInfra ("image pull failure: " +:+ wait_Message w))
      else terminated
  | None => terminated
  end.

(** The first result of a loop with early return. *)
Fixpoint first_some {A B} (f : A → option B) (l : list A) : option B :=
  match l with
  | [] => None
  | x :: l => match f x with Some y => Some y | None => first_some f l end
  end.

Definition classify_pod (p : pod) : option outcome :=
  if bool_decide (pod_Phase p = "Pending") then
    Some (failure true FailureClassTransientInfra "scheduling failure: pod did not start running")
  else
    match first_some classify_container (pod_ContainerStatuses p) with
    | Some o => Some o
    | None =>
        if bool_decide (pod_Phase p = "Failed") && negb (bool_decide (pod_Reason p = "")) then
          Some (failure true FailureClassTransientInfra ("infra-level failure: " +:+ pod_Reason p))
        else None
    end.

(** [pods] is the result of listing the Job's Pods. *)
Definition classifyFromPods (pods : res error (list pod)) (fallbackReason fallbackMessage : string) : outcome :=
  let unknown := failure true FailureClassUnknown (fallbackReason +:+ ": " +:+ fallbackMessage) in
  match pods with
  | Err _ | Ok [] => unknown
  | Ok ps => match first_some classify_pod ps with Some o => o | None => unknown end
  end.

Definition condition_true (ty : string) (c : jobCondition) : bool :=
  bool_decide (cond_Type c = ty) && bool_decide (cond_Status c = "True").

(** [deadline]: ctx.Err() is DeadlineExceeded. *)
Definition classifySmokeRun (deadline : bool) (pods : res error (list pod))
    (conds : list jobCondition) : outcome :=
  if existsb (condition_true "Complete") conds then success
  else if deadline then
    failure true FailureClassTransientInfra "timeout: smoke-run did not complete within the allotted time"
  else
    match find (condition_true "Failed") conds with
    | Some c => classifyFromPods pods (cond_Reason c) (cond_Message c)
    | None => classifyFromPods pods "Unknown" "smoke-run ended without a terminal Job condition"
    end.

Definition extractPodExitCode (pods : res error (list pod)) : Z :=
  match pods with
  | Err _ | Ok [] => -1
  | Ok ps =>
      match first_some (λ p, first_some (λ cs, term_ExitCode <$> cs_Terminated cs)
                               (pod_ContainerStatuses p)) ps with
      | Some c => c
      | None => -1
      end
  end.

(** ** Lemmas *)

Lemma first_some_in {A B} (f : A → option B) l y :
  first_some f l = Some y → ∃ x, x ∈ l ∧ f x = Some y.
Proof.
  induction l as [|x l IH]; [done|]. cbn [first_some]. destruct (f x) eqn:E.
  - intros [= ->]. exists x. split; [left|done].
  - intros H. destruct (IH H) as (x' & Hin & Hx). exists x'. split; [by right|done].
Qed.

Lemma has_prefix_refl p s : has_prefix p (p +:+ s) = true.
Proof.
  induction p as [|c p IH]; [by destruct s|]. rewrite string_app_cons. cbn [has_prefix].
  by rewrite Ascii.eqb_refl.
Qed.

Lemma strings_contains_app a sub b : strings_contains (a +:+ sub +:+ b) sub = true.
Proof.
  induction a as [|c a IH].
  - rewrite string_app_nil_l. destruct (sub +:+ b) eqn:E; cbn [strings_contains];
      rewrite <- E, has_prefix_refl; done.
  - rewrite string_app_cons. cbn [strings_contains]. by rewrite IH, orb_true_r.
Qed.

(** Which classes an outcome of the classifier can carry, and why. *)
Definition observed_exit (p : pod) (code : Z) : Prop :=
  ∃ cs t, cs ∈ pod_ContainerStatuses p ∧ cs_Terminated cs = Some t ∧ term_ExitCode t = code.

Definition observed_oom (p : pod) : Prop :=
  ∃ cs t, cs ∈ pod_ContainerStatuses p ∧ cs_Terminated cs = Some t ∧ term_Reason t = "OOMKilled".

Lemma classify_terminated_sound t o :
  classify_terminated t = Some o →
  o_success o = false ∧
  match o_class o with
  | FailureClassDeterministic => o_retryable o = false ∧ term_ExitCode t ≠ 0
  | FailureClassResourceObservation => o_retryable o = true ∧ term_Reason t = "OOMKilled"
  | FailureClassTransientInfra => o_retryable o = true
  | FailureClassUnknown => False
  end.
Proof.
  unfold classify_terminated.
  destruct (bool_decide_reflect (term_Reason t = "OOMKilled")); [by intros [= <-]|].
  destruct (bool_decide (term_Reason t = "DeadlineExceeded")); [by intros [= <-]|].
  destruct (_ || _); destruct (Z.eqb_spec (term_ExitCode t) 0); try done; by intros [= <-].
Qed.

Lemma classify_container_sound cs o :
  classify_container cs = Some o →
  o_success o = false ∧
  match o_class o with
  | FailureClassDeterministic =>
      o_retryable o = false ∧ ∃ t, cs_Terminated cs = Some t ∧ term_ExitCode t ≠ 0
  | FailureClassResourceObservation =>
      o_retryable o = true ∧ ∃ t, cs_Terminated cs = Some t ∧ term_Reason t = "OOMKilled"
  | FailureClassTransientInfra => o_retryable o = true
  | FailureClassUnknown => False
  end.
Proof.
  unfold classify_container. intros H.
  destruct (cs_Waiting cs) as [w|]; [destruct (_ || _); [injection H as <-; done|]|];
    (destruct (cs_Terminated cs) as [t|]; [|done]; apply classify_terminated_sound in H as [Hs Hc];
     split; [done|]; destruct (o_class o); [|done| |done]; destruct Hc; eauto).
Qed.

Lemma classify_pod_sound p o :
  classify_pod p = Some o →
  o_success o = false ∧
  match o_class o with
  | FailureClassDeterministic => o_retryable o = false ∧ ∃ code, code ≠ 0 ∧ observed_exit p code
  | FailureClassResourceObservation => o_retryable o = true ∧ observed_oom p
  | FailureClassTransientInfra => o_retryable o = true
  | FailureClassUnknown => False
  end.
Proof.
  unfold classify_pod. destruct (bool_decide _); [by intros [= <-]|].
  destruct (first_some _ _) as [o'|] eqn:E.
  - intros [= <-]. apply first_some_in in E as (cs & Hin & Hc).
    apply classify_container_sound in Hc as [Hs Hc]. split; [done|].
    destruct (o_class o'); [|done| |done].
    + destruct Hc as (Hr & t & Ht & Hne). split; [done|]. exists (term_ExitCode t).
      split; [done|]. by exists cs, t.
    + destruct Hc as (Hr & t & Ht & Hne). split; [done|]. by exists cs, t.
  - destruct (_ && _); [by intros [= <-]|done].
Qed.

Lemma classifyFromPods_ok ps fr fm :
  classifyFromPods (Ok ps) fr fm =
    match first_some classify_pod ps with
    | Some o => o
    | None => failure true FailureClassUnknown (fr +:+ ": " +:+ fm)
    end.
Proof. by destruct ps. Qed.

(** ** Properties *)

(** A retry is granted only while attempts are left. *)
Lemma decideRetry_bounded rnd class job reason :
  rd_Retry (decideRetry rnd class job reason) = true → Attempt job < maxAttempts.
Proof.
  unfold decideRetry. destruct class; try done; [|destruct (strings_contains _ _); [done|]];
    by destruct (Z.leb_spec maxAttempts (Attempt job)).
Qed.

(** The retry policy. Deterministic and resource failures are never
    retried; a retry is only granted while the attempt is below maxAttempts, and
    then waits at least half a second and at most 30; an unknown failure that
    recurs with the text its retry left behind is not retried again; and a
    refusal keeps the reason that was observed. *)
Theorem decideRetry_policy rnd class job reason :
  int63n_ok rnd →
  let dec := decideRetry rnd class job reason in
  rd_Class dec = class ∧
  (class = FailureClassDeterministic ∨ class = FailureClassResourceObservation →
     rd_Retry dec = false ∧ rd_Reason dec = reason) ∧
  (rd_Retry dec = true → Attempt job < maxAttempts ∧
     RetryBaseDelay / 2 ≤ rd_Delay dec ≤ RetryMaxDelay) ∧
  (class = FailureClassTransientInfra → (rd_Retry dec = true ↔ Attempt job < maxAttempts)) ∧
  (class = FailureClassUnknown → rd_Retry dec = true →
     ∀ job' reason', LastError job' = rd_Reason dec →
       rd_Retry (decideRetry rnd FailureClassUnknown job' reason') = false) ∧
  strings_contains (rd_Reason dec) reason = true.
Proof.
  intros Hr dec.
  assert (RetryBaseDelay / 2 ≤ retryDelayFor rnd (Attempt job) ≤ RetryMaxDelay) as Hd.
  { destruct (retry_delay_range (Attempt job) rnd Hr). unfold retryDelayFor. lia. }
  assert (∀ a, strings_contains (a +:+ reason) reason = true) as Hc.
  { intros a. pose proof (strings_contains_app a reason "") as H. by rewrite string_app_nil_r in H. }
  assert (strings_contains reason reason = true) as Hc0 by exact (Hc "").
  subst dec. unfold decideRetry.
  destruct class; cbn [rd_Class rd_Retry rd_Reason rd_Delay]; try (split_and!; try done; by intros [?|?]).
  - destruct (Z.leb_spec maxAttempts (Attempt job)); cbn [rd_Class rd_Retry rd_Reason rd_Delay].
    + split_and!; [done|by intros [?|?]|done|split; [done|lia]|done|].
      rewrite <- string_app_assoc. apply Hc.
    + split_and!; try done; [by intros [?|?]].
  - destruct (strings_contains (LastError job) unknownRetryMarker); cbn [rd_Class rd_Retry rd_Reason rd_Delay].
    { split_and!; try done; [by intros [?|?]|]. rewrite <- ?string_app_assoc. apply Hc. }
    destruct (Z.leb_spec maxAttempts (Attempt job)); cbn [rd_Class rd_Retry rd_Reason rd_Delay].
    { split_and!; try done; [by intros [?|?]|]. rewrite <- ?string_app_assoc. apply Hc. }
    split_and!; try done; [by intros [?|?]| |].
    + intros _ _ job' reason' ->.
      assert (strings_contains (reason +:+ " " +:+ unknownRetryMarker) unknownRetryMarker = true) as ->;
        [|done].
      pose proof (strings_contains_app (reason +:+ " ") unknownRetryMarker "") as H'.
      by rewrite string_app_nil_r, string_app_assoc in H'.
    + apply (strings_contains_app "" reason).
Qed.

Lemma classifyFromPods_fails pods fr fm : o_success (classifyFromPods pods fr fm) = false.
Proof.
  destruct pods as [ps|]; [|done]. rewrite classifyFromPods_ok.
  destruct (first_some classify_pod ps) eqn:E; [|done].
  apply first_some_in in E as (p & _ & Hp). by apply classify_pod_sound in Hp as [? _].
Qed.

Lemma classifySmokeRun_success deadline pods conds :
  o_success (classifySmokeRun deadline pods conds) = existsb (condition_true "Complete") conds.
Proof.
  unfold classifySmokeRun. destruct (existsb _ _); [done|]. destruct deadline; [done|].
  destruct (find _ _); apply classifyFromPods_fails.
Qed.

(** Classification is justified by what the Pods show. A failure is
    called deterministic only when some container exited with a non-zero code
    and a resource observation only when one was OOM-killed; otherwise it is
    retryable; nothing is called a success; and without Pods, or without any
    recognized sign in them, it is unknown. *)
Theorem classifyFromPods_sound pods fr fm :
  let o := classifyFromPods pods fr fm in
  o_success o = false ∧ (o_retryable o = false ↔ o_class o = FailureClassDeterministic) ∧
  (o_class o = FailureClassDeterministic →
     ∃ ps p code, pods = Ok ps ∧ p ∈ ps ∧ code ≠ 0 ∧ observed_exit p code) ∧
  (o_class o = FailureClassResourceObservation →
     ∃ ps p, pods = Ok ps ∧ p ∈ ps ∧ observed_oom p) ∧
  (o_class o = FailureClassUnknown ↔
     match pods with Ok ps => ∀ p, p ∈ ps → classify_pod p = None | Err _ => True end).
Proof.
  assert (let o := failure true FailureClassUnknown (fr +:+ ": " +:+ fm) in
    o_success o = false ∧ (o_retryable o = false ↔ o_class o = FailureClassDeterministic)) as Hu by done.
  intros o. subst o. destruct pods as [ps|e]; [|by split_and!]. rewrite classifyFromPods_ok.
  destruct (first_some classify_pod ps) as [o|] eqn:E.
  - apply first_some_in in E as (p & Hin & Hp).
    pose proof (classify_pod_sound _ _ Hp) as [Hs Hc]. destruct (o_class o) eqn:Ec; try done.
    + destruct Hc as (Hr & code & Hne & Ho). split_and!; try done; [eauto 10|].
      split; [done|]. intros H. by rewrite (H p Hin) in Hp.
    + split_and!; try done; [by rewrite Hc|]. split; [done|]. intros H. by rewrite (H p Hin) in Hp.
    + destruct Hc as [Hr Ho]. split_and!; try done; [by rewrite Hr|eauto|].
      split; [done|]. intros H. by rewrite (H p Hin) in Hp.
  - assert (∀ p, p ∈ ps → classify_pod p = None) as Hn.
    { clear Hu. induction ps as [|p0 ps IH]; intros p Hin; [by apply not_elem_of_nil in Hin|].
      cbn [first_some] in E. destruct (classify_pod p0) eqn:E0; [done|].
      apply elem_of_cons in Hin as [->|Hin]; [done|]. by apply IH. }
    by split_and!.
Qed.

(** A smoke-run succeeds exactly when the Job carries a true Complete
    condition, whatever else it carries; an attempt that ran out of time is a
    transient failure; and only these decide before the Pods are consulted. *)
Theorem classifySmokeRun_outcomes deadline pods conds :
  let o := classifySmokeRun deadline pods conds in
  (o_success o = true ↔ ∃ c, c ∈ conds ∧ cond_Type c = "Complete" ∧ cond_Status c = "True") ∧
  (o_success o = false → deadline = true → o_class o = FailureClassTransientInfra) ∧
  (o_success o = false → deadline = false →
     ∃ reason message, o = classifyFromPods pods reason message).
Proof.
  intros o. subst o. unfold classifySmokeRun.
  assert (existsb (condition_true "Complete") conds = true ↔
    ∃ c, c ∈ conds ∧ cond_Type c = "Complete" ∧ cond_Status c = "True") as Hex.
  { rewrite existsb_exists. unfold condition_true. split.
    - intros (c & Hin & H). rewrite andb_true_iff, !bool_decide_eq_true in H. exists c.
      rewrite list_elem_of_In. done.
    - intros (c & Hin & H). exists c. rewrite andb_true_iff, !bool_decide_eq_true.
      rewrite list_elem_of_In in Hin. done. }
  rewrite <- Hex. destruct (existsb _ _); [done|].
  destruct deadline; [done|].
  destruct (find _ _); rewrite classifyFromPods_fails; split_and!; try done; eauto.
Qed.

(** ** Concrete runs *)

Definition sample_job (attempt : Z) (lastError : string) : Job :=
  Build_Job "job-1" "" "" "" "" "" "" "" [] "" "" StatusLeased attempt "w" None lastError "" 0 0
    DeliveryNotApplicable "" 0 "" None "" false "" false None.

Lemma decideRetry_policy_witness :
  rd_Retry (decideRetry (λ _, 0) FailureClassTransientInfra (sample_job 4 "") "get: timeout") = true ∧
  rd_Retry (decideRetry (λ _, 0) FailureClassTransientInfra (sample_job 5 "") "get: timeout") = false.
Proof.
  split.
  - apply (decideRetry_policy (λ _, 0) FailureClassTransientInfra (sample_job 4 "") "get: timeout"
             zero_jitter_ok); reflexivity.
  - destruct (rd_Retry (decideRetry (λ _, 0) FailureClassTransientInfra (sample_job 5 "") "get: timeout"))
      eqn:E; [|reflexivity].
    apply (decideRetry_policy (λ _, 0) FailureClassTransientInfra (sample_job 5 "") "get: timeout"
             zero_jitter_ok) in E as [H _]. discriminate H.
Defined.
