(* ===== verification/World.v ===== *)
(** * World: what a worker attempt acts on

    The worker of [pkg/worker] shares the store with other workers and talks to
    the Kubernetes API and to NodeVault. A world holds the store, whether the
    attempt's context was cancelled for a lost lease (withLeaseFence), and the
    trace of everything the attempt did outside itself. What the outside answers
    comes from an environment: for every step, the operations other workers
    perform on the store just before it, the clock, whether the context Run was
    called with is cancelled by then, and the reply to whichever call the step
    makes. *)

From S2P Require Import Prelude GoTime Errors Work Db Fingerprint Store StoreSpec StoreStep.
From S2P Require Import Failure.

(** ** NodeVault records: [pkg/vaultclient/client.go] *)

Definition StageL3 : string := "L3".
Definition StageL4 : string := "L4".
Definition StageL5A : string := "L5A".
Definition StageL5B : string := "L5B".

(** The fields the worker sets; those it never sets are zero on the wire. *)
Record SubmitCheckRecordRequest := {
  cr_CheckID : string;
  cr_ToolSpecDigest : string;
  cr_ImageDigest : string;
  cr_ToolName : string;
  cr_Version : string;
  cr_ValidationRequestID : string;
  cr_SentinelJobID : string;
  cr_Stage : string;
  cr_Terminal : bool;
  cr_ValidationStatus : string;
  cr_ValidationHash : string;
  cr_Command : string;
  cr_ExitCode : Z;
  cr_DurationSeconds : Z;
  cr_AllOutputsPresent : bool;
  cr_ContractResult : string;
  cr_FailureKind : string;
  cr_Retryable : bool;
  cr_FailureReason : string;
}.

Record SubmitScanRecordRequest := {
  sr_ScanID : string;
  sr_ImageDigest : string;
  sr_ToolName : string;
  sr_ValidationRequestID : string;
  sr_SentinelJobID : string;
  sr_Stage : string;
  sr_Terminal : bool;
  sr_Scanner : string;
  sr_ScannerVersion : string;
  sr_ScannedAt : string;
  sr_Source : string;
  sr_CriticalCount : Z;
  sr_HighCount : Z;
  sr_MediumCount : Z;
  sr_LowCount : Z;
  sr_PolicyMode : string;
  sr_PolicyResult : string;
}.

(** vaultclient.Retryable. *)
Definition Retryable (e : error) : bool :=
  match errors_as_submit e with Some code => 500 <=? code | None => true end.

Record pendingDelivery := {
  pd_Kind : string;
  pd_Check : option SubmitCheckRecordRequest;
  pd_Scan : option SubmitScanRecordRequest;
}.

(** Text below 128, which is its own UTF-8. *)
Fixpoint ascii_text (s : string) : bool :=
  match s with
  | EmptyString => true
  | String c s' => (N_of_ascii c <? 128)%N && ascii_text s'
  end.

Definition is_int64 (z : Z) : bool := (- 2 ^ 63 <=? z) && (z <? 2 ^ 63).

Definition check_plain (r : SubmitCheckRecordRequest) : bool :=
  forallb ascii_text
    [cr_CheckID r; cr_ToolSpecDigest r; cr_ImageDigest r; cr_ToolName r; cr_Version r;
     cr_ValidationRequestID r; cr_SentinelJobID r; cr_Stage r; cr_ValidationStatus r;
     cr_ValidationHash r; cr_Command r; cr_ContractResult r; cr_FailureKind r; cr_FailureReason r] &&
  forallb is_int64 [cr_ExitCode r; cr_DurationSeconds r].

Definition scan_plain (r : SubmitScanRecordRequest) : bool :=
  forallb ascii_text
    [sr_ScanID r; sr_ImageDigest r; sr_ToolName r; sr_ValidationRequestID r; sr_SentinelJobID r;
     sr_Stage r; sr_Scanner r; sr_ScannerVersion r; sr_ScannedAt r; sr_Source r; sr_PolicyMode r;
     sr_PolicyResult r] &&
  forallb is_int64 [sr_CriticalCount r; sr_HighCount r; sr_MediumCount r; sr_LowCount r].

Definition delivery_plain (pd : pendingDelivery) : bool :=
  ascii_text (pd_Kind pd) && match pd_Check pd with Some r => check_plain r | None => true end
  && match pd_Scan pd with Some r => scan_plain r | None => true end.

(** encoding/json on a pendingDelivery: what it marshals it unmarshals again,
    stated for ASCII texts. *)
Class DeliveryJson := {
  json_marshal_delivery : pendingDelivery → string;
  json_unmarshal_delivery : string → res error pendingDelivery;
  json_delivery_roundtrip pd :
    delivery_plain pd = true → json_unmarshal_delivery (json_marshal_delivery pd) = Ok pd;
}.

(** ** Kubernetes objects *)

(** The Job manifests of jobspec.go and l5a.go. *)
Record k8sJob := {
  kj_Name : string;
  kj_Namespace : string;
  kj_App : string;
  kj_JobIDLabel : string;
  kj_BackoffLimit : Z;
  kj_ActiveDeadlineSeconds : Z;
  kj_TTLSecondsAfterFinished : Z;
  kj_RestartPolicy : string;
  kj_ContainerName : string;
  kj_Image : string;
  kj_Command : list string;
}.

#[export] Instance k8sJob_eq_dec : EqDecision k8sJob.
Proof. solve_decision. Defined.

(** Decoded JSON, as the dynamic client returns it; a float is [m * 2^e]. *)
Inductive json :=
| JNull | JBool (b : bool) | JInt (n : Z) | JFloat (m e : Z) | JString (s : string)
| JArray (l : list json) | JObject (fields : list (string * json)).

(** ** Actions and metrics *)

Inductive metric :=
| JobsLeased | JobsCompleted | JobsFailed
| L5aSubmitted | L5aErrors | L5bSubmitted | L5bErrors
| FailureClassified (class : FailureClass) (stage : string).

(** What the attempt did, with the answer it got. *)
Inductive action :=
| AStore (o : op) (e : option error)
| AEnsure (jobID : string) (r : res error (string * bool))
| AClaim (jobID worker : string) (n : Z) (r : res error bool)
| ACreate (dryRun : bool) (spec : k8sJob) (e : option error)
| AGet (name : string) (r : res error (list jobCondition))
| AListJobs (jobID : string) (r : res error (list string))
| AListPods (jobName : string) (r : res error (list pod))
| ADelete (name : string) (e : option error)
| AListReports (r : res error (list json))
| ASubmitCheck (r : SubmitCheckRecordRequest) (e : option error)
| ASubmitScan (r : SubmitScanRecordRequest) (e : option error)
| AMetric (m : metric).

(** The cases of the select statements. [EvDone deadline]: the context ended,
    by its deadline or, unless it has, by cancellation. *)
Inductive select_event := EvDone (deadline : bool) | EvHeartbeat | EvPoll.

(** ** The environment of one step *)

(** An operation of another worker or of the delivery loop. *)
Record foreign_op := Foreign {
  f_op : op;
  f_now : instant;
  f_faults : list (option error);
  f_rng : list (option N);
}.

Record step_env := {
  e_others : list foreign_op;
  e_now : instant;
  e_ended : bool;  (* the context of Run, or of RunDeliveryLoop, is cancelled *)
  e_faults : list (option error);
  e_rng : list (option N);
  e_create : option error;
  e_get : res error (list jobCondition);
  e_list : res error (list string);
  e_pods : res error (list pod);
  e_delete : option error;
  e_reports : res error (list json);
  e_submit : option error;
  e_event : select_event;
  e_rnd : Z → Z;
  e_elapsed : Z;
}.

Record world := World {
  w_db : db;
  w_lost : bool;
  w_step : nat;
  w_trace : list action; (* latest first *)
}.

(** ** The monad *)

Definition W (A : Type) : Type := world → A * world.

#[export] Instance W_ret : MRet W := λ A a w, (a, w).
#[export] Instance W_bind : MBind W := λ A B f m w, let '(a, w') := m w in f a w'.

Section World.
Context {SO : SqlOrder} {AJ : ActionsJson}.
Context (E : nat → step_env).

Definition run_foreign (f : foreign_op) (d : db) : db :=
  run_op (f_op f) (f_now f) (Db (jobs d) (store_meta d) (f_faults f) (f_rng f)).

(** Others act, then this step happens. *)
Definition step : W step_env := λ w,
  let e := E (w_step w) in
  (e, World (foldl (λ d f, run_foreign f d) (w_db w) (e_others e)) (w_lost w) (S (w_step w)) (w_trace w)).

Definition record (a : action) : W unit := λ w,
  (tt, World (w_db w) (w_lost w) (w_step w) (a :: w_trace w)).

(** leaseLost. *)
Definition leaseLost : W bool := λ w, (w_lost w, w).

Definition set_lost (b : bool) : W unit := λ w, (tt, World (w_db w) b (w_step w) (w_trace w)).

Definition metric_inc (m : metric) : W unit := record (AMetric m).

(** Which context a call carries: that of the loop, Run or RunDeliveryLoop; the
    attempt's, which derives from it and which a lost lease cancels too; or
    context.Background. *)
Inductive call_ctx := AttemptCtx | LoopCtx | Background.

Definition canceled (c : call_ctx) (e : step_env) : W bool := λ w,
  (match c with
   | AttemptCtx => w_lost w || e_ended e
   | LoopCtx => e_ended e
   | Background => false
   end, w).

Definition error_of {A} (r : res error A) : option error :=
  match r with Ok _ => None | Err e => Some e end.

(** A store call known by its operation and its error. *)
Definition did {A} (o : op) (r : res error A) : action := AStore o (error_of r).

(** One store method. On a cancelled context its first statement fails. *)
Definition store_call {A} (c : call_ctx) (act : res error A → action) (m : instant → M A) : W (res error A) := λ w,
  let '(e, w1) := step w in
  let '(stopped, w2) := canceled c e w1 in
  let d := w_db w2 in
  let fs := if stopped then [Some CtxCanceled] else e_faults e in
  let '(r, d') := m (e_now e) (Db (jobs d) (store_meta d) fs (e_rng e)) in
  (r, World d' (w_lost w2) (w_step w2) (act r :: w_trace w2)).

(** One API call whose reply is [reply]. *)
Definition api_call {A} (c : call_ctx) (reply : step_env → res error A)
    (act : res error A → action) : W (res error A) :=
  e ← step;
  stopped ← canceled c e;
  let r := if stopped : bool then Err CtxCanceled else reply e in
  _ ← record (act r);
  mret r.

Definition as_result (e : option error) : res error unit :=
  match e with None => Ok tt | Some x => Err x end.

Definition kube_create (c : call_ctx) (dryRun : bool) (spec : k8sJob) : W (res error unit) :=
  api_call c (λ e, as_result (e_create e)) (λ r, ACreate dryRun spec (error_of r)).
Definition kube_get (c : call_ctx) (name : string) : W (res error (list jobCondition)) :=
  api_call c e_get (AGet name).
Definition kube_list_jobs (c : call_ctx) (jobID : string) : W (res error (list string)) :=
  api_call c e_list (AListJobs jobID).
Definition kube_list_pods (c : call_ctx) (name : string) : W (res error (list pod)) :=
  api_call c e_pods (AListPods name).
Definition kube_delete (c : call_ctx) (name : string) : W (res error unit) :=
  api_call c (λ e, as_result (e_delete e)) (λ r, ADelete name (error_of r)).
Definition kube_list_reports (c : call_ctx) : W (res error (list json)) :=
  api_call c e_reports AListReports.
Definition vault_check (c : call_ctx) (req : SubmitCheckRecordRequest) : W (res error unit) :=
  api_call c (λ e, as_result (e_submit e)) (λ r, ASubmitCheck req (error_of r)).
Definition vault_scan (c : call_ctx) (req : SubmitScanRecordRequest) : W (res error unit) :=
  api_call c (λ e, as_result (e_submit e)) (λ r, ASubmitScan req (error_of r)).

(** The next case of a select statement. A context that ends uncancelled ends by
    its deadline. *)
Definition select : W select_event :=
  e ← step;
  mret (match e_event e with EvDone deadline => EvDone (deadline || negb (e_ended e)) | ev => ev end).
Definition clock_now : W instant := e ← step; mret (e_now e).
Definition jitter : W (Z → Z) := e ← step; mret (e_rnd e).
Definition elapsed_seconds : W Z := e ← step; mret (e_elapsed e).

End World.
