(* ===== verification/Worker.v ===== *)
(** * Worker: one attempt at a job

    [pkg/worker/worker.go], [jobspec.go], [l5a.go] and the first deliveries of
    [delivery.go], one definition per function, calls in the order of the
    source. Logging is left out. Definitions only. *)

From S2P Require Import Prelude GoTime Errors Work Db Fingerprint Store StoreSpec StoreStep.
From S2P Require Import Retry Names Failure World.

(** ** Configuration and constants *)

Record worker := {
  workerName : string;
  vaultClient : bool;   (* vaultClient != nil *)
  dynamicKube : bool;   (* dynamicKube != nil *)
  withMetrics : bool;   (* metrics != nil *)
}.

Definition smokeNamespace : string := "nodevault-smoke".
Definition smokeRunTimeout : Z := 5 * 60.
Definition l5aJobTimeout : Z := 10 * 60.
Definition leaseDuration : Z := 2 * 60 * second.
Definition l5aCommand : string := "/bin/sh -c true".
Definition l5aCommandSlice : list string := ["/bin/sh"; "-c"; "true"].
Definition l5aCreateReconcileAttempts : nat := 3.

(** ** Job manifests *)

Definition buildSmokeJobSpec (job : Job) : k8sJob := {|
  kj_Name := smokeJobName (JobID job) (ExecutionID job);
  kj_Namespace := smokeNamespace;
  kj_App := "nodevault-smoke";
  kj_JobIDLabel := JobID job;
  kj_BackoffLimit := 0;
  kj_ActiveDeadlineSeconds := smokeRunTimeout;
  kj_TTLSecondsAfterFinished := 120;
  kj_RestartPolicy := "Never";
  kj_ContainerName := "smoke";
  kj_Image := ImageRepository job +:+ "@" +:+ ImageDigest job;
  kj_Command := [];
|}.

Definition buildL5aJobSpec (job : Job) : k8sJob := {|
  kj_Name := l5aJobName (JobID job) (ExecutionID job);
  kj_Namespace := smokeNamespace;
  kj_App := "nodevault-l5a";
  kj_JobIDLabel := JobID job;
  kj_BackoffLimit := 0;
  kj_ActiveDeadlineSeconds := l5aJobTimeout;
  kj_TTLSecondsAfterFinished := 120;
  kj_RestartPolicy := "Never";
  kj_ContainerName := "validate";
  kj_Image := ImageRepository job +:+ "@" +:+ ImageDigest job;
  kj_Command := l5aCommandSlice;
|}.

(** [job.ExecutionID = executionID]. *)
Definition set_ExecutionID (e : string) (j : Job) : Job := {|
  JobID := JobID j; ArtifactKind := ArtifactKind j; ImageRepository := ImageRepository j;
  ImageDigest := ImageDigest j; StableRef := StableRef j; ToolName := ToolName j;
  Version := Version j; CasHash := CasHash j; RequestedActions := RequestedActions j;
  RequestedFixtureSet := RequestedFixtureSet j; ValidationRequestID := ValidationRequestID j;
  JobStatus := JobStatus j; Attempt := Attempt j; LeaseOwner := LeaseOwner j;
  LeaseUntil := LeaseUntil j; LastError := LastError j; ResultSummary := ResultSummary j;
  CreatedAt := CreatedAt j; UpdatedAt := UpdatedAt j;
  ResultDeliveryStatus := ResultDeliveryStatus j;
  ResultDeliveryPayload := ResultDeliveryPayload j;
  ResultDeliveryAttempts := ResultDeliveryAttempts j;
  ResultDeliveryLastError := ResultDeliveryLastError j; NextAttemptAt := NextAttemptAt j;
  ResultDeliveryClaimToken := ResultDeliveryClaimToken j;
  TerminalSubmitted := TerminalSubmitted j; ExecutionID := e;
  ExecutionTerminal := ExecutionTerminal j; RetryNotBefore := RetryNotBefore j |}.

(** ** The plan *)

Record stagePlan := { runL5a_ : bool; runL5b_ : bool }.

Fixpoint plan_actions (requested : list Action) (plan : stagePlan) : res error stagePlan :=
  match requested with
  | [] => Ok plan
  | a :: rest =>
      if bool_decide (a = ActionSmokeRun) then plan_actions rest plan
      else if bool_decide (a = ActionProfile) then
        plan_actions rest {| runL5a_ := true; runL5b_ := runL5b_ plan |}
      else if bool_decide (a = ActionSecurityScan) then
        plan_actions rest {| runL5a_ := runL5a_ plan; runL5b_ := true |}
      else Err (ErrText ("unknown requested action " +:+ quoted a))
  end.

Definition planStages (requested : list Action) : res error stagePlan :=
  match requested with
  | [] => Ok {| runL5a_ := true; runL5b_ := true |}
  | _ => plan_actions requested {| runL5a_ := false; runL5b_ := false |}
  end.

(** A Create error that proves nothing was persisted. *)
Definition createRejected (e : error) : bool :=
  existsb (λ r, is_api r e)
    [ApiInvalid; ApiBadRequest; ApiForbidden; ApiUnauthorized; ApiNotFound; ApiMethodNotSupported;
     ApiNotAcceptable; ApiUnsupportedMediaType; ApiRequestEntityTooLarge; ApiTooManyRequests].

Definition stageCheckIDPrefix (stage : string) : string :=
  if bool_decide (stage = StageL3) then "l3"
  else if bool_decide (stage = StageL4) then "l4" else "unknown".

Record checkRecordSubmission := {
  checkID : string;
  stage : string;
  terminal : bool;
  command : string;
  exitCode : Z;
  validationStatus : string;
  validationHash : string;
  failureKind : string;
  failureReason : string;
  retryable : bool;
  durationSec : Z;
  allOutputsPresent : bool;
}.

Definition l5aFailureSubmission (checkID command : string) (terminal : bool)
    (exitCode durationSec : Z) (result : outcome) : checkRecordSubmission :=
  let '(vs, fk) := wireStatus (o_class result) in
  {| checkID := checkID; stage := StageL5A; terminal := terminal; command := command;
     exitCode := exitCode; validationStatus := vs; validationHash := ""; failureKind := fk;
     failureReason := o_reason result;
     retryable := bool_decide (o_class result = FailureClassTransientInfra) ||
                  bool_decide (o_class result = FailureClassUnknown);
     durationSec := durationSec; allOutputsPresent := false |}.

Section Worker.
Context {SO : SqlOrder} {AJ : ActionsJson} {DJ : DeliveryJson}.
Context (E : nat → step_env) (wk : worker).
(** labels.ValidatedSelectorFromSet: is the job ID a valid label value? *)
Context (valid_label_value : string → bool).
(** How many select rounds a context's deadline allows at most. *)
Context (rounds : nat).

Definition inc (m : metric) : W unit :=
  if withMetrics wk then metric_inc m else mret tt.

(** ** The lease fence *)

Definition heartbeat (job : Job) : W unit :=
  r ← store_call E AttemptCtx (did (OpHeartbeat (JobID job) (workerName wk) (Attempt job) leaseDuration))
        (Heartbeat (JobID job) (workerName wk) (Attempt job) leaseDuration);
  match r with
  | Ok _ => mret tt
  | Err e => if errors_is e ErrNotFound then set_lost true else mret tt
  end.

Definition stillLeased (job : Job) : W bool :=
  lost ← leaseLost;
  if lost : bool then mret false
  else
    _ ← heartbeat job;
    lost ← leaseLost;
    mret (negb lost).

Definition FailJob_call (job : Job) (d : RetryDecision) : W (res error unit) :=
  store_call E AttemptCtx
    (did (OpFailJob (JobID job) (workerName wk) (Attempt job) (rd_Reason d) (rd_Retry d) (rd_Delay d)))
    (FailJob (JobID job) (workerName wk) (Attempt job) (rd_Reason d) (rd_Retry d) (rd_Delay d)).

Definition noteClassification (stage : string) (class : FailureClass) : W unit :=
  inc (FailureClassified class stage).

(** ** Reports to NodeVault *)

Definition claimTerminal (job : Job) : W bool :=
  r ← store_call E AttemptCtx (AClaim (JobID job) (workerName wk) (Attempt job))
        (ClaimTerminal (JobID job) (workerName wk) (Attempt job));
  match r with
  | Err _ => mret true
  | Ok claimed => mret claimed
  end.

Definition markFirstDeliveryFailure (job : Job) (payload : string) (deliverErr : error) : W unit :=
  if Retryable deliverErr then
    now ← clock_now E;
    rnd ← jitter E;
    let nextAttemptAt := time_add now (backoffDuration 1 rnd) in
    _ ← store_call E AttemptCtx
          (did (OpMarkFirstDeliveryPending (JobID job) (workerName wk) (Attempt job) payload
             (error_text deliverErr) nextAttemptAt))
          (MarkFirstDeliveryPending (JobID job) (workerName wk) (Attempt job) payload
             (error_text deliverErr) nextAttemptAt);
    mret tt
  else
    _ ← store_call E AttemptCtx
          (did (OpMarkFirstDeliveryDeadLetter (JobID job) (workerName wk) (Attempt job) payload
             (error_text deliverErr)))
          (MarkFirstDeliveryDeadLetter (JobID job) (workerName wk) (Attempt job) payload
             (error_text deliverErr));
    mret tt.

Definition markCheckDeliveryPending (job : Job) (req : SubmitCheckRecordRequest) (e : error) : W unit :=
  markFirstDeliveryFailure job
    (json_marshal_delivery {| pd_Kind := "check"; pd_Check := Some req; pd_Scan := None |}) e.

Definition contractResult (validationStatus : string) : string :=
  if bool_decide (validationStatus = "succeeded") then "passed"
  else if bool_decide (validationStatus = "infra_failed") then "not_applicable" else "failed".

Definition check_request (job : Job) (sub : checkRecordSubmission) : SubmitCheckRecordRequest := {|
  cr_CheckID := checkID sub;
  cr_ToolSpecDigest := CasHash job;
  cr_ImageDigest := ImageDigest job;
  cr_ToolName := ToolName job;
  cr_Version := Version job;
  cr_ValidationRequestID := ValidationRequestID job;
  cr_SentinelJobID := JobID job;
  cr_Stage := stage sub;
  cr_Terminal := terminal sub;
  cr_ValidationStatus := validationStatus sub;
  cr_ValidationHash := validationHash sub;
  cr_Command := command sub;
  cr_ExitCode := exitCode sub;
  cr_DurationSeconds := durationSec sub;
  cr_AllOutputsPresent := allOutputsPresent sub;
  cr_ContractResult := contractResult (validationStatus sub);
  cr_FailureKind := failureKind sub;
  cr_Retryable := retryable sub;
  cr_FailureReason := failureReason sub;
|}.

(** Sending the record once the fences allowed it. *)
Definition send_check (job : Job) (sub : checkRecordSubmission) : W (option error) :=
  let req := check_request job sub in
  r ← vault_check E AttemptCtx req;
  match r with
  | Ok _ => mret None
  | Err e =>
      _ ← (if terminal sub then markCheckDeliveryPending job req e else mret tt);
      mret (Some e)
  end.

Definition submitCheckRecord (job : Job) (sub : checkRecordSubmission) : W (option error) :=
  leased ← stillLeased job;
  if negb leased then mret (Some ErrLeaseLost)
  else if terminal sub then
    claimed ← claimTerminal job;
    if negb claimed then mret None else send_check job sub
  else send_check job sub.

Definition reportTerminalFailure (job : Job) (st cmd : string) (d : RetryDecision) : W unit :=
  if negb (vaultClient wk) then mret tt
  else
    let '(vs, fk) := wireStatus (rd_Class d) in
    _ ← submitCheckRecord job
          {| checkID := stageCheckIDPrefix st +:+ "-" +:+ recordIDLabel (JobID job);
             stage := st; terminal := negb (rd_Retry d); command := cmd; exitCode := 0;
             validationStatus := vs; validationHash := ""; failureKind := fk;
             failureReason := rd_Reason d; retryable := rd_Retry d; durationSec := 0;
             allOutputsPresent := false |};
    mret tt.

Definition reportTerminalSuccess (job : Job) (st cmd : string) : W unit :=
  if negb (vaultClient wk) then mret tt
  else
    _ ← submitCheckRecord job
          {| checkID := stageCheckIDPrefix st +:+ "-" +:+ recordIDLabel (JobID job);
             stage := st; terminal := true; command := cmd; exitCode := 0;
             validationStatus := "succeeded"; validationHash := ""; failureKind := "";
             failureReason := ""; retryable := false; durationSec := 0;
             allOutputsPresent := false |};
    mret tt.

(** The failure branch of process: decide, count, report, fail the job. *)
Definition fail_attempt (job : Job) (st cmd : string) (class : FailureClass) (reason : string) : W unit :=
  rnd ← jitter E;
  let d := decideRetry rnd class job reason in
  _ ← noteClassification st (rd_Class d);
  _ ← reportTerminalFailure job st cmd d;
  _ ← FailJob_call job d;
  inc JobsFailed.

(** ** Kubernetes Jobs *)

Definition jobExists (c : call_ctx) (name : string) : W (res error bool) :=
  r ← kube_get E c name;
  match r with
  | Ok _ => mret (Ok true)
  | Err e => if is_api ApiNotFound e then mret (Ok false) else mret (Err e)
  end.

Definition deleteJob (name : string) : W (res error unit) := kube_delete E Background name.

Fixpoint confirm_gone (fuel : nat) (name : string) : W (res error unit) :=
  r ← jobExists Background name;
  match r with
  | Ok false => mret (Ok tt)
  | _ =>
      let still_present :=
        Err (Wrapf ("job " +:+ name +:+ " still present after delete: ") CtxDeadlineExceeded "") in
      match fuel with
      | O => mret still_present
      | S fuel =>
          ev ← select E;
          match ev with
          | EvDone _ => mret still_present
          | _ => confirm_gone fuel name
          end
      end
  end.

Definition deleteAndConfirmGone (name : string) : W (res error unit) :=
  r ← deleteJob name;
  match r with
  | Err e =>
      if is_api ApiNotFound e then confirm_gone rounds name
      else mret (Err (wrap_err ("delete Job " +:+ name) e))
  | Ok _ => confirm_gone rounds name
  end.

Definition markExecutionTerminal (c : call_ctx) (job : Job) : W unit :=
  _ ← store_call E c (did (OpMarkExecutionTerminal (JobID job) (ExecutionID job)))
        (MarkExecutionTerminal (JobID job) (ExecutionID job));
  mret tt.

Definition runDryRun (spec : k8sJob) : W (res error unit) := kube_create E AttemptCtx true spec.

(** [None] when a Job now exists under the name. *)
Definition createSmokeJob (job : Job) (spec : k8sJob) (releaseOnReject : bool) : W (option outcome) :=
  r ← kube_create E AttemptCtx false spec;
  match r with
  | Ok _ => mret None
  | Err e =>
      if is_api ApiAlreadyExists e then mret None
      else if createRejected e && negb releaseOnReject then
        mret (Some (failure true FailureClassTransientInfra
                      ("re-create adopted smoke-run Job: " +:+ error_text e)))
      else if createRejected e then
        _ ← markExecutionTerminal AttemptCtx job;
        mret (Some (failure true FailureClassTransientInfra
                      ("failed to create smoke-run Job: " +:+ error_text e)))
      else
        found ← jobExists AttemptCtx (kj_Name spec);
        match found with
        | Ok true => mret None
        | _ => mret (Some (failure true FailureClassTransientInfra
                             ("create smoke-run Job (outcome unknown): " +:+ error_text e)))
        end
  end.

(** The loop over the conditions of a Job the poll saw; the first decisive one
    wins. *)
Fixpoint decisive (conds : list jobCondition) : option (jobCondition * bool) :=
  match conds with
  | [] => None
  | c :: conds =>
      if condition_true "Complete" c then Some (c, true)
      else if condition_true "Failed" c then Some (c, false)
      else decisive conds
  end.

(** The context ended: unless the lease was lost, delete the Job and release
    the identity once it is confirmed gone. The Pods are looked at only when the
    context did not time out, and then under a cancelled context. *)
Definition smoke_done (job : Job) (name : string) (deadline : bool) : W outcome :=
  lost ← leaseLost;
  if lost : bool then mret (failure true FailureClassTransientInfra (error_text ErrLeaseLost))
  else
    r ← deleteAndConfirmGone name;
    _ ← match r with Ok _ => markExecutionTerminal Background job | Err _ => mret tt end;
    mret (classifySmokeRun deadline (Err CtxCanceled) []).

(** classifySmokeRun on a failed Job, with the calls it makes. *)
Definition classify_failed (name : string) (conds : list jobCondition) : W outcome :=
  ctx_end ← select E;
  let deadline := match ctx_end with EvDone true => true | _ => false end in
  if existsb (condition_true "Complete") conds || deadline
  then mret (classifySmokeRun deadline (Ok []) conds)
  else
    pods ← kube_list_pods E AttemptCtx name;
    mret (classifySmokeRun false pods conds).

(** One poll; [again confirmed] continues the loop. *)
Definition smoke_poll (job : Job) (spec : k8sJob) (releaseOnSuccess confirmed : bool)
    (again : bool → W outcome) : W outcome :=
  r ← kube_get E AttemptCtx (kj_Name spec);
  match r with
  | Err e =>
      if is_api ApiNotFound e && negb confirmed then
        res ← createSmokeJob job spec false;
        match res with Some o => mret o | None => again true end
      else if is_api ApiNotFound e then
        _ ← markExecutionTerminal AttemptCtx job;
        mret (failure true FailureClassUnknown
                "smoke-run Job no longer exists; outcome was never observed")
      else
        mret (failure true FailureClassTransientInfra ("get smoke-run Job: " +:+ error_text e))
  | Ok conds =>
      match decisive conds with
      | Some (_, true) =>
          _ ← (if releaseOnSuccess then markExecutionTerminal AttemptCtx job else mret tt);
          _ ← deleteJob (kj_Name spec);
          mret success
      | Some (_, false) =>
          result ← classify_failed (kj_Name spec) conds;
          _ ← markExecutionTerminal AttemptCtx job;
          _ ← deleteJob (kj_Name spec);
          mret result
      | None => again true
      end
  end.

(** The select loop. Its context has a deadline, so after [fuel] rounds without
    a decision the deadline case is taken. *)
Fixpoint smoke_loop (fuel : nat) (job : Job) (spec : k8sJob) (releaseOnSuccess confirmed : bool) : W outcome :=
  match fuel with
  | O => smoke_done job (kj_Name spec) true
  | S fuel =>
      ev ← select E;
      match ev with
      | EvDone deadline => smoke_done job (kj_Name spec) deadline
      | EvHeartbeat =>
          _ ← heartbeat job;
          smoke_loop fuel job spec releaseOnSuccess confirmed
      | EvPoll =>
          smoke_poll job spec releaseOnSuccess confirmed
            (λ c, smoke_loop fuel job spec releaseOnSuccess c)
      end
  end.

Definition runSmokeRun (job : Job) (spec : k8sJob) (adopted releaseOnSuccess : bool) : W outcome :=
  if adopted then smoke_loop rounds job spec releaseOnSuccess false
  else
    res ← createSmokeJob job spec true;
    match res with
    | Some o => mret o
    | None => smoke_loop rounds job spec releaseOnSuccess true
    end.

(** ** Jobs of workers without execution identities *)

Fixpoint retire_each (job : Job) (names : list string) : W (res error unit) :=
  match names with
  | [] => mret (Ok tt)
  | name :: names =>
      if negb (isLegacyJobName name (JobID job)) then retire_each job names
      else
        stored ← store_call E AttemptCtx (did (OpGetJob (JobID job))) (λ _, GetJob (JobID job));
        match stored with
        | Err e => mret (Err (wrap_err ("re-read execution identity for " +:+ JobID job) e))
        | Ok stored =>
            if negb (bool_decide (ExecutionID stored = "")) then
              mret (Err (Wrapf "" ErrLegacyRetireSuperseded
                           (": " +:+ JobID job +:+ " now has execution " +:+ ExecutionID stored)))
            else
              r ← deleteAndConfirmGone name;
              match r with
              | Err e => mret (Err e)
              | Ok _ =>
                  leased ← stillLeased job;
                  if negb leased then mret (Err ErrLeaseLost) else retire_each job names
              end
        end
  end.

Definition retireLegacyExecutions (job : Job) : W (res error unit) :=
  if negb (valid_label_value (JobID job)) then mret (Ok tt)
  else
    names ← kube_list_jobs E AttemptCtx (JobID job);
    match names with
    | Err e => mret (Err (wrap_err ("list Jobs for " +:+ JobID job) e))
    | Ok names => retire_each job names
    end.

(** ** L5-a *)

(** Sleeps on ctx.Done or the poll interval between attempts. *)
Fixpoint reconcile_create (k : nat) (first : bool) (spec : k8sJob) : W bool :=
  match k with
  | O => mret false
  | S k =>
      ev ← (if first then mret EvPoll else select E);
      match ev with
      | EvDone _ => mret false
      | _ =>
          r ← kube_create E AttemptCtx false spec;
          match r with
          | Ok _ => mret true
          | Err e => if is_api ApiAlreadyExists e then mret true else reconcile_create k false spec
          end
      end
  end.

Definition reconcileL5aCreate (spec : k8sJob) : W bool :=
  reconcile_create l5aCreateReconcileAttempts true spec.

Definition extractPodExitCode_call (name : string) : W Z :=
  pods ← kube_list_pods E AttemptCtx name;
  mret (extractPodExitCode pods).

Definition l5a_done (job : Job) (name : string) : W (Z * outcome * option error) :=
  lost ← leaseLost;
  if lost : bool then
    mret (0, failure false FailureClassTransientInfra (error_text ErrLeaseLost), Some ErrLeaseLost)
  else
    r ← deleteAndConfirmGone name;
    _ ← match r with Ok _ => markExecutionTerminal Background job | Err _ => mret tt end;
    let reason := "L5-a timeout: job did not complete within allotted time" in
    mret (0, failure false FailureClassTransientInfra reason, Some (ErrText reason)).

Definition l5a_poll (job : Job) (name : string)
    (again : W (Z * outcome * option error)) : W (Z * outcome * option error) :=
  r ← kube_get E AttemptCtx name;
  match r with
  | Err e =>
      mret (0, failure false FailureClassTransientInfra ("get L5-a job: " +:+ error_text e),
            Some (wrap_err "get L5-a job" e))
  | Ok conds =>
      match decisive conds with
      | Some (_, true) =>
          _ ← markExecutionTerminal AttemptCtx job;
          mret (0, success, None)
      | Some (c, false) =>
          pods ← kube_list_pods E AttemptCtx name;
          let result := classifyFromPods pods (cond_Reason c) (cond_Message c) in
          code ← extractPodExitCode_call name;
          _ ← markExecutionTerminal AttemptCtx job;
          mret (code, result, Some (ErrText ("job failed: " +:+ cond_Message c)))
      | None => again
      end
  end.

Fixpoint waitL5aJob (fuel : nat) (job : Job) (name : string) : W (Z * outcome * option error) :=
  match fuel with
  | O => l5a_done job name
  | S fuel =>
      ev ← select E;
      match ev with
      | EvDone _ => l5a_done job name
      | EvHeartbeat => _ ← heartbeat job; waitL5aJob fuel job name
      | EvPoll => l5a_poll job name (waitL5aJob fuel job name)
      end
  end.

(** What follows a Job that exists under the identity. *)
Definition l5a_observe (job : Job) (checkID_ name : string) (terminal_ : bool) : W (option error) :=
  w ← waitL5aJob rounds job name;
  let '(code, result, runErr) := w in
  dur ← elapsed_seconds E;
  lost ← leaseLost;
  if lost : bool then mret (Some ErrLeaseLost)
  else
    _ ← deleteJob name;
    match runErr with
    | Some _ =>
        _ ← noteClassification StageL5A (o_class result);
        submitCheckRecord job (l5aFailureSubmission checkID_ l5aCommand terminal_ code dur result)
    | None =>
        submitCheckRecord job
          {| checkID := checkID_; stage := StageL5A; terminal := terminal_; command := l5aCommand;
             exitCode := code; validationStatus := "succeeded"; validationHash := "";
             failureKind := ""; failureReason := ""; retryable := false; durationSec := dur;
             allOutputsPresent := false |}
    end.

Definition l5a_not_created (job : Job) (checkID_ : string) (terminal_ : bool) (noted reason : string) : W (option error) :=
  _ ← noteClassification StageL5A FailureClassTransientInfra;
  submitCheckRecord job
    (l5aFailureSubmission checkID_ l5aCommand terminal_ 0 0
       (failure false FailureClassTransientInfra reason)).

Definition runL5a (job : Job) (terminal_ : bool) : W (option error) :=
  if negb (vaultClient wk) then mret None
  else
    let checkID_ := "l5a-" +:+ recordIDLabel (JobID job) in
    let spec := buildL5aJobSpec job in
    r ← kube_create E AttemptCtx false spec;
    match r with
    | Ok _ => l5a_observe job checkID_ (kj_Name spec) terminal_
    | Err e =>
        if is_api ApiAlreadyExists e then l5a_observe job checkID_ (kj_Name spec) terminal_
        else if createRejected e then
          _ ← markExecutionTerminal AttemptCtx job;
          l5a_not_created job checkID_ terminal_ (error_text e)
            ("infra-level: job creation failed: " +:+ error_text e)
        else
          settled ← reconcileL5aCreate spec;
          if settled : bool then l5a_observe job checkID_ (kj_Name spec) terminal_
          else
            let reason := "infra-level: L5-a Job create outcome unknown; a late Job would run unobserved: " +:+ error_text e in
            l5a_not_created job checkID_ terminal_ reason reason
    end.

End Worker.
