(* ===== verification/Pipeline.v ===== *)
(** * Pipeline: the stages of an attempt and the redelivery loop

    L5-b ([pkg/worker/l5b.go]), process, finishAfterL4 and the body of Run
    ([pkg/worker/worker.go]), and the redelivery half of
    [pkg/worker/delivery.go], over Worker.v. Definitions only. *)

From S2P Require Import Prelude GoTime Errors Work Db Fingerprint Store StoreSpec StoreStep.
From S2P Require Import Retry Names Failure World Worker.

(** ** Vulnerability reports *)

(** A decoded JSON object is a Go map: its keys are unique. *)
Definition field (obj : list (string * json)) (key : string) : option json :=
  snd <$> find (λ kv, bool_decide (kv.1 = key)) obj.

Fixpoint nestedStr (obj : list (string * json)) (fields : list string) : option string :=
  match fields with
  | [] => None
  | [f] => match field obj f with Some (JString s) => Some s | _ => None end
  | f :: fields =>
      match field obj f with Some (JObject o) => nestedStr o fields | _ => None end
  end.

Fixpoint nestedMap (obj : list (string * json)) (fields : list string) : option (list (string * json)) :=
  match fields with
  | [] => Some obj
  | f :: fields =>
      match field obj f with Some (JObject o) => nestedMap o fields | _ => None end
  end.

Definition firstNestedStr (obj : list (string * json)) (paths : list (list string)) : string :=
  default "" (first_some (nestedStr obj) paths).

(** [int(n)] drops the fraction of a float64. *)
Definition float_trunc (m e : Z) : Z :=
  if 0 <=? e then m * 2 ^ e else Z.quot m (2 ^ (- e)).

Record trivyVulnSummary := {
  Scanner : string;
  ScannerVersion : string;
  ScannedAt : string;
  CriticalCount : Z;
  HighCount : Z;
  MediumCount : Z;
  LowCount : Z;
}.

Section Reports.
(** What int(n) gives for a float64 outside the int range: Go leaves it to the
    implementation. *)
Context (float_overflow : Z → Z).

Definition int_of_float (m e : Z) : Z :=
  let n := float_trunc m e in
  if (- 2 ^ 63 <=? n) && (n <? 2 ^ 63) then n else float_overflow n.

Definition nestedInt (obj : list (string * json)) (key : string) : Z :=
  match field obj key with
  | Some (JFloat m e) => int_of_float m e
  | Some (JInt n) => n
  | _ => 0
  end.

Definition parseTrivySummary (obj : list (string * json)) : trivyVulnSummary :=
  let count key :=
    match nestedMap obj ["report"; "summary"] with
    | Some summary => nestedInt summary key
    | None => 0
    end in
  {| Scanner := default "" (nestedStr obj ["report"; "scanner"; "name"]);
     ScannerVersion := default "" (nestedStr obj ["report"; "scanner"; "version"]);
     ScannedAt := firstNestedStr obj
       [["report"; "scannedAt"]; ["report"; "scanned_at"]; ["report"; "updateTimestamp"]];
     CriticalCount := count "criticalCount";
     HighCount := count "highCount";
     MediumCount := count "mediumCount";
     LowCount := count "lowCount" |}.

(** The first report on the job's image digest. *)
Definition matching_report (digest : string) (reports : list (list (string * json))) : option trivyVulnSummary :=
  parseTrivySummary <$>
    find (λ obj, bool_decide (nestedStr obj ["report"; "artifact"; "digest"] = Some digest)) reports.

End Reports.

(** The Object of a listed item is always a JSON object. *)
Definition report_objects (items : list json) : list (list (string * json)) :=
  (λ j, match j with JObject o => o | _ => [] end) <$> items.

Definition scan_record (job : Job) (s : trivyVulnSummary) (source policyResult : string) : SubmitScanRecordRequest := {|
  sr_ScanID := "l5b-" +:+ recordIDLabel (JobID job);
  sr_ImageDigest := ImageDigest job;
  sr_ToolName := ToolName job;
  sr_ValidationRequestID := ValidationRequestID job;
  sr_SentinelJobID := JobID job;
  sr_Stage := StageL5B;
  sr_Terminal := true;
  sr_Scanner := Scanner s;
  sr_ScannerVersion := ScannerVersion s;
  sr_ScannedAt := ScannedAt s;
  sr_Source := source;
  sr_CriticalCount := CriticalCount s;
  sr_HighCount := HighCount s;
  sr_MediumCount := MediumCount s;
  sr_LowCount := LowCount s;
  sr_PolicyMode := "record_only";
  sr_PolicyResult := policyResult;
|}.

(** The summary of a record that only says no scan was available. *)
Definition no_scan : trivyVulnSummary := {|
  Scanner := "trivy-operator"; ScannerVersion := ""; ScannedAt := "";
  CriticalCount := 0; HighCount := 0; MediumCount := 0; LowCount := 0 |}.

Definition policyResult (s : trivyVulnSummary) : string :=
  if (0 <? CriticalCount s) || (0 <? HighCount s) then "warning" else "passed".

Section Pipeline.
Context {SO : SqlOrder} {AJ : ActionsJson} {DJ : DeliveryJson}.
Context (E : nat → step_env) (wk : worker).
Context (valid_label_value : string → bool) (rounds : nat) (float_overflow : Z → Z).

(** ** L5-b *)

Definition markScanDeliveryPending (job : Job) (req : SubmitScanRecordRequest) (e : error) : W unit :=
  markFirstDeliveryFailure E wk job
    (json_marshal_delivery {| pd_Kind := "scan"; pd_Check := None; pd_Scan := Some req |}) e.

(** The two submissions of l5b.go: lease check, terminal slot, send. *)
Definition submit_scan (job : Job) (req : SubmitScanRecordRequest) : W (option error) :=
  leased ← stillLeased E wk job;
  if negb leased then mret (Some ErrLeaseLost)
  else
    claimed ← claimTerminal E wk job;
    if negb claimed then mret None
    else
      r ← vault_scan E AttemptCtx req;
      match r with
      | Ok _ => mret None
      | Err e => _ ← markScanDeliveryPending job req e; mret (Some e)
      end.

Definition submitNotAvailableScanRecord (job : Job) : W (option error) :=
  submit_scan job (scan_record job no_scan "not-available" "not-available").

Definition runL5b (job : Job) : W (option error) :=
  if negb (vaultClient wk) then mret None
  else if negb (dynamicKube wk) then submitNotAvailableScanRecord job
  else
    reports ← kube_list_reports E AttemptCtx;
    match reports with
    | Err _ => submitNotAvailableScanRecord job
    | Ok items =>
        match matching_report float_overflow (ImageDigest job) (report_objects items) with
        | None => submitNotAvailableScanRecord job
        | Some s =>
            if bool_decide (Scanner s = "") then submitNotAvailableScanRecord job
            else submit_scan job (scan_record job s "trivy-operator" (policyResult s))
        end
    end.

(** ** The end of an attempt *)

(** One part of the completion summary. *)
Definition stage_summary (name : string) (planned : bool) (e : option error) : string :=
  match e with
  | Some e => "; " +:+ name +:+ " failed: " +:+ error_text e
  | None => if planned then "; " +:+ name +:+ " submitted"
            else "; " +:+ name +:+ " skipped (not requested)"
  end.

Definition completion_summary (plan : stagePlan) (l5aErr l5bErr : option error) : string :=
  "L3 dry-run passed; L4 smoke-run succeeded" +:+
  stage_summary "L5-a" (runL5a_ plan) l5aErr +:+ stage_summary "L5-b" (runL5b_ plan) l5bErr.

Definition complete_job (job : Job) (summary : string) : W unit :=
  lost ← leaseLost;
  if lost : bool then mret tt
  else
    r ← store_call E AttemptCtx
          (did (OpCompleteJob (JobID job) (workerName wk) (Attempt job) summary))
          (CompleteJob (JobID job) (workerName wk) (Attempt job) summary);
    match r with Ok _ => inc wk JobsCompleted | Err _ => mret tt end.

(** A best-effort stage: skipped when not planned, abandoned ([None]) when the
    lease is lost before or during it, counted otherwise. *)
Definition optional_stage (job : Job) (planned : bool) (run : W (option error))
    (submitted errored : metric) : W (option (option error)) :=
  if negb planned then mret (Some None)
  else
    leased ← stillLeased E wk job;
    if negb leased then mret None
    else
      e ← run;
      lost ← leaseLost;
      if lost : bool then mret None
      else
        _ ← inc wk (if bool_decide (e = None) then submitted else errored);
        mret (Some e).

Definition finishAfterL4 (job : Job) (plan : stagePlan) (isL5ALast : bool) : W unit :=
  l5a ← optional_stage job (runL5a_ plan) (runL5a E wk rounds job isL5ALast) L5aSubmitted L5aErrors;
  match l5a with
  | None => mret tt
  | Some l5aErr =>
      l5b ← optional_stage job (runL5b_ plan) (runL5b job) L5bSubmitted L5bErrors;
      match l5b with
      | None => mret tt
      | Some l5bErr => complete_job job (completion_summary plan l5aErr l5bErr)
      end
  end.

(** ** An attempt *)

Definition failed (job : Job) (st cmd : string) (class : FailureClass) (what : string) (e : error) : W unit :=
  fail_attempt E wk job st cmd class (what +:+ ": " +:+ error_text e).

(** L4 and what follows, once the identity exists and L3 is settled. *)
Definition run_l4 (job : Job) (plan : stagePlan) (adopted l5aFollows : bool) : W unit :=
  result ← runSmokeRun E wk rounds job (buildSmokeJobSpec job) adopted (negb l5aFollows);
  lost ← leaseLost;
  if lost : bool then mret tt
  else if negb (o_success result) then
    fail_attempt E wk job StageL4 "smoke-run" (o_class result) (o_reason result)
  else
    _ ← (if negb (runL5a_ plan) && negb (runL5b_ plan)
         then reportTerminalSuccess E wk job StageL4 "smoke-run" else mret tt);
    finishAfterL4 job plan (runL5a_ plan && negb (runL5b_ plan)).

(** L3, for an identity this attempt minted. *)
Definition run_l3 (job : Job) (plan : stagePlan) (adopted l5aFollows : bool) : W unit :=
  if adopted then run_l4 job plan adopted l5aFollows
  else
    r ← runDryRun E (buildSmokeJobSpec job);
    match r with
    | Err e =>
        _ ← markExecutionTerminal E AttemptCtx job;
        failed job StageL3 "kubectl apply --dry-run" FailureClassTransientInfra "L3 dry-run" e
    | Ok _ => run_l4 job plan adopted l5aFollows
    end.

(** With the execution identity [executionID] in hand. *)
Definition run_execution (job0 : Job) (plan : stagePlan) (executionID : string) (adopted : bool) : W unit :=
  let job := set_ExecutionID executionID job0 in
  let l5aFollows := runL5a_ plan && vaultClient wk in
  if adopted && l5aFollows then
    found ← jobExists E AttemptCtx (l5aJobName (JobID job) (ExecutionID job));
    match found with
    | Err e =>
        failed job StageL4 "observe adopted execution" FailureClassTransientInfra
          "get adopted L5-a Job" e
    | Ok true => finishAfterL4 job plan (runL5a_ plan && negb (runL5b_ plan))
    | Ok false => run_l3 job plan adopted l5aFollows
    end
  else run_l3 job plan adopted l5aFollows.

Definition ensure_execution (job : Job) (plan : stagePlan) : W unit :=
  r ← store_call E AttemptCtx (AEnsure (JobID job)) (EnsureExecution (JobID job));
  match r with
  | Err e =>
      failed job StageL3 "ensure execution identity" FailureClassTransientInfra "execution identity" e
  | Ok (executionID, adopted) => run_execution job plan executionID adopted
  end.

(** The attempt starts with a fresh context (withLeaseFence). *)
Definition process (job : Job) : W unit :=
  _ ← set_lost false;
  match planStages (RequestedActions job) with
  | Err e =>
      failed job StageL3 "validate requested_actions" FailureClassDeterministic
        "invalid requested_actions" e
  | Ok plan =>
      if bool_decide (ExecutionID job = "") then
        r ← retireLegacyExecutions E wk valid_label_value rounds job;
        match r with
        | Err e =>
            lost ← leaseLost;
            if lost : bool then mret tt
            else failed job StageL3 "retire legacy execution" FailureClassTransientInfra
                   "retire legacy execution" e
        | Ok _ => ensure_execution job plan
        end
      else ensure_execution job plan
  end.

(** ** Run *)

Definition pollFrequency : Z := 5 * second.

(** The Err of the loop's context, which main.go only ever cancels. *)
Definition ctx_err (e : step_env) : option error := if e_ended e then Some CtxCanceled else None.
Definition ctx_Err : W (option error) := λ w, (ctx_err (E (w_step w)), w).

(** The select between ctx.Done() and a timer; ctx.Err() when it takes the first. *)
Definition wait_or_done : W (option error) :=
  e ← step E;
  mret (match e_event e with EvDone _ => ctx_err e | _ => None end).

(** The loop's body: lease a job and process it, or wait. [Some e]: return e. *)
Definition Run_once : W (option error) :=
  stopped ← ctx_Err;
  match stopped with
  | Some e => mret (Some e)
  | None =>
      r ← store_call E LoopCtx (did (OpLeaseJob (workerName wk) leaseDuration))
            (LeaseJob (workerName wk) leaseDuration);
      match r with
      | Err _ => wait_or_done
      | Ok job => _ ← inc wk JobsLeased; _ ← process job; mret None
      end
  end.

(** [None]: still running after [fuel] rounds. *)
Fixpoint Run (fuel : nat) : W (option error) :=
  match fuel with
  | O => mret None
  | S fuel =>
      stopped ← Run_once;
      match stopped with Some e => mret (Some e) | None => Run fuel end
  end.

(** ** Redelivery: no lease is involved, the claim token fences each write *)

Definition deliveryBatchLimit : Z := 10.
Definition deliveryClaimTTL : Z := 2 * minute.

Definition resolveRedelivery (job : Job) (deliverErr : error) (deadLetter : bool) : W unit :=
  if deadLetter || negb (Retryable deliverErr) then
    _ ← store_call E LoopCtx
          (did (OpMarkResultDeliveryDeadLetter (JobID job) (ResultDeliveryClaimToken job) (error_text deliverErr)))
          (MarkResultDeliveryDeadLetter (JobID job) (ResultDeliveryClaimToken job) (error_text deliverErr));
    mret tt
  else
    now ← clock_now E;
    rnd ← jitter E;
    let nextAttemptAt := time_add now (backoffDuration (wrap64 (ResultDeliveryAttempts job + 1)) rnd) in
    _ ← store_call E LoopCtx
          (did (OpMarkResultDeliveryPending (JobID job) (ResultDeliveryClaimToken job)
             (error_text deliverErr) nextAttemptAt))
          (MarkResultDeliveryPending (JobID job) (ResultDeliveryClaimToken job)
             (error_text deliverErr) nextAttemptAt);
    mret tt.

(** The switch on the payload's kind: what to send, or why nothing can be. *)
Definition redelivery (payload : string) : res error (SubmitCheckRecordRequest + SubmitScanRecordRequest) :=
  match json_unmarshal_delivery payload with
  | Err e => Err (wrap_err "unmarshal pending delivery" e)
  | Ok pd =>
      if bool_decide (pd_Kind pd = "check") then
        match pd_Check pd with
        | None => Err (ErrText "pending check delivery payload missing check body")
        | Some r => Ok (inl r)
        end
      else if bool_decide (pd_Kind pd = "scan") then
        match pd_Scan pd with
        | None => Err (ErrText "pending scan delivery payload missing scan body")
        | Some r => Ok (inr r)
        end
      else Err (ErrText ("unknown pending delivery kind " +:+ quoted (pd_Kind pd)))
  end.

Definition redeliverOne (job : Job) : W unit :=
  match redelivery (ResultDeliveryPayload job) with
  | Err e => resolveRedelivery job e true
  | Ok req =>
      r ← match req with
          | inl req => vault_check E LoopCtx req
          | inr req => vault_scan E LoopCtx req
          end;
      match r with
      | Err e => resolveRedelivery job e false
      | Ok _ =>
          _ ← store_call E LoopCtx
                (did (OpMarkResultDeliveryAcknowledged (JobID job) (ResultDeliveryClaimToken job)))
                (MarkResultDeliveryAcknowledged (JobID job) (ResultDeliveryClaimToken job));
          mret tt
      end
  end.

(** The claimed jobs, one after the other. The code redelivers them in
    concurrent goroutines (Redelivery.v has their pool); what the others do
    meanwhile reaches each of them through the environment. *)
Fixpoint redeliver_all (claimed : list Job) : W unit :=
  match claimed with
  | [] => mret tt
  | job :: claimed => _ ← redeliverOne job; redeliver_all claimed
  end.

Definition retryPendingDeliveries : W unit :=
  if negb (vaultClient wk) then mret tt
  else
    r ← store_call E LoopCtx (did (OpClaimPendingDeliveries deliveryBatchLimit deliveryClaimTTL))
          (ClaimPendingDeliveries deliveryBatchLimit deliveryClaimTTL);
    match r with
    | Err _ => mret tt
    | Ok claimed => redeliver_all claimed
    end.

(** Ticks until the loop's context ends, as in Run. *)
Fixpoint RunDeliveryLoop (fuel : nat) : W (option error) :=
  match fuel with
  | O => mret None
  | S fuel =>
      stopped ← wait_or_done;
      match stopped with
      | Some e => mret (Some e)
      | None => _ ← retryPendingDeliveries; RunDeliveryLoop fuel
      end
  end.

End Pipeline.
