(* ===== verification/Follow.v ===== *)
(** * Follow: what every function of an attempt does

    The functions of Worker.v and Pipeline.v, followed once. Any preorder on
    worlds that the calls an attempt makes respect is respected by every
    function of the attempt: the calls are the obligations of a class, the
    functions are its instances. What an attempt logs, what its own store
    calls do to the table and what it counts are such preorders (Service.v,
    Own.v, Metrics.v). *)

From S2P Require Import Prelude GoTime Errors Work Db Fingerprint Store StoreSpec StoreStep.
From S2P Require Import Retry Names Failure World Worker Pipeline.

Definition calls_store (a : action) : bool :=
  match a with AStore _ _ | AEnsure _ _ | AClaim _ _ _ _ => true | _ => false end.

(** A counter that tells of a call to the store, and is moved beside it. *)
Definition beside_call (m : metric) : bool :=
  match m with JobsLeased | JobsCompleted | JobsFailed => true | _ => false end.

(** The stages a failure is counted under. *)
Class KnownStage (st : string) : Prop := known_stage : st = StageL3 ∨ st = StageL4 ∨ st = StageL5A.
#[export] Instance known_L3 : KnownStage StageL3.
Proof. by left. Qed.
#[export] Instance known_L4 : KnownStage StageL4.
Proof. by right; left. Qed.
#[export] Instance known_L5A : KnownStage StageL5A.
Proof. by right; right. Qed.

(** What a function may record anywhere. *)
Definition passing (a : action) : Prop :=
  match a with
  | AMetric (FailureClassified _ st) => KnownStage st
  | AMetric m => beside_call m = false
  | _ => calls_store a = false
  end.

(** The same attempt; process fills in the execution identity. *)
Class About (job J : Job) : Prop := {
  about_id : JobID J = JobID job;
  about_attempt : Attempt J = Attempt job;
}.

#[export] Instance about_self job : About job job.
Proof. done. Qed.
#[export] Instance about_set job J x : About job J → About job (set_ExecutionID x J).
Proof. by intros [? ?]. Qed.

Section Follow.
Context {SO : SqlOrder} {AJ : ActionsJson} {DJ : DeliveryJson}.
Context (E : nat → step_env) (wk : worker) (job : Job).
Context (R : world → world → Prop) {HR : PreOrder R}.

Class Does {A} (m : W A) : Prop := does w : R w (m w).2.

(** The store calls of an attempt, those that end it and heartbeats apart. *)
Inductive own_call (J : Job) : ∀ {A}, (res error A → action) → (instant → M A) → Prop :=
| own_claim :
    own_call J (AClaim (JobID J) (workerName wk) (Attempt J)) (ClaimTerminal (JobID J) (workerName wk) (Attempt J))
| own_pending p le n m (at_ := time_add (e_now (E n)) (backoffDuration 1 (e_rnd (E m)))) :
    own_call J (did (OpMarkFirstDeliveryPending (JobID J) (workerName wk) (Attempt J) p le at_))
      (MarkFirstDeliveryPending (JobID J) (workerName wk) (Attempt J) p le at_)
| own_dead p le :
    own_call J (did (OpMarkFirstDeliveryDeadLetter (JobID J) (workerName wk) (Attempt J) p le))
      (MarkFirstDeliveryDeadLetter (JobID J) (workerName wk) (Attempt J) p le)
| own_mark x : own_call J (did (OpMarkExecutionTerminal (JobID J) x)) (MarkExecutionTerminal (JobID J) x)
| own_get : own_call J (did (OpGetJob (JobID J))) (λ _, GetJob (JobID J))
| own_ensure : own_call J (AEnsure (JobID J)) (EnsureExecution (JobID J)).

(** Those that have nothing to do with reports. *)
Inductive work_call (J : Job) : ∀ {A}, (res error A → action) → (instant → M A) → Prop :=
| work_mark x : work_call J (did (OpMarkExecutionTerminal (JobID J) x)) (MarkExecutionTerminal (JobID J) x)
| work_get : work_call J (did (OpGetJob (JobID J))) (λ _, GetJob (JobID J))
| work_ensure : work_call J (AEnsure (JobID J)) (EnsureExecution (JobID J)).

Lemma work_call_own {A} J (act : res error A → action) m : work_call J act m → own_call J act m.
Proof. destruct 1; constructor. Qed.

(** What leaves the store alone. *)
Class Quiet : Prop := {
  quiet_step :: Does (step E);
  quiet_record a : passing a → Does (record a);
}.

(** What an attempt does short of reporting. *)
Class Works : Prop := {
  works_quiet :: Quiet;
  works_heartbeat J :: About job J → Does (heartbeat E wk J);
  works_call {A} c J (act : res error A → action) m :
    About job J → work_call J act m → Does (store_call E c act m);
}.

(** What an attempt does before it closes its job. *)
Class Acts : Prop := {
  acts_quiet :: Quiet;
  acts_heartbeat J :: About job J → Does (heartbeat E wk J);
  acts_call {A} c J (act : res error A → action) m :
    About job J → own_call J act m → Does (store_call E c act m);
}.

#[export] Instance acts_works : Acts → Works.
Proof. intros HA. split; [apply _..|]. intros A c J act m HJ Hm. by apply (acts_call c J), work_call_own. Qed.

(** How it closes it. *)
Class Closes : Prop := {
  closes_begin :: Does (set_lost false);
  closes_fail J n class reason :
    About job J →
    Does (_ ← FailJob_call E wk J (decideRetry (e_rnd (E n)) class J reason); inc wk JobsFailed);
  closes_complete J s :: About job J → Does (complete_job E wk J s);
}.

#[export] Instance ret_does {A} (a : A) : Does (mret a).
Proof. by intros w. Qed.
#[export] Instance bind_does {A B} (m : W A) (k : A → W B) : Does m → (∀ a, Does (k a)) → Does (m ≫= k).
Proof.
  intros Hm Hk w. pose proof (Hm w) as H. unfold mbind, W_bind. destruct (m w) as [a w'].
  etrans; [exact H|]. apply Hk.
Qed.
#[export] Instance leaseLost_does : Does leaseLost.
Proof. by intros w. Qed.
#[export] Instance canceled_does c e : Does (canceled c e).
Proof. by intros w. Qed.

Context (valid_label_value : string → bool) (rounds : nat) (float_overflow : Z → Z).

(** Follow the program; its calls are instances, its tests case distinctions. *)
Ltac follow :=
  repeat match goal with
  | |- Does (mbind _ _) => apply bind_does; [|intros ?]
  | |- Does (record _) => by apply quiet_record
  | H : About job ?J |- Does (store_call _ _ _ _) =>
      first [apply (works_call _ J); [exact H|constructor]|apply (acts_call _ J); [exact H|constructor]]
  | |- Does (match ?x with _ => _ end) => destruct x
  | |- Does (let '_ := ?x in _) => destruct x
  | |- Does _ => apply _
  end.

Section Quiet.
Context {HQ : Quiet}.

Lemma api_does {A} c (reply : step_env → res error A) act :
  (∀ r, passing (act r)) → Does (api_call E c reply act).
Proof.
  intros Ha. unfold api_call. apply bind_does; [apply _|]. intros e. apply bind_does; [apply _|].
  intros b. apply bind_does; [by apply quiet_record|apply _].
Qed.

#[export] Instance create_does c dry spec : Does (kube_create E c dry spec).
Proof. by apply api_does. Qed.
#[export] Instance get_does c n : Does (kube_get E c n).
Proof. by apply api_does. Qed.
#[export] Instance list_jobs_does c id : Does (kube_list_jobs E c id).
Proof. by apply api_does. Qed.
#[export] Instance list_pods_does c n : Does (kube_list_pods E c n).
Proof. by apply api_does. Qed.
#[export] Instance delete_does c n : Does (kube_delete E c n).
Proof. by apply api_does. Qed.
#[export] Instance list_reports_does c : Does (kube_list_reports E c).
Proof. by apply api_does. Qed.
#[export] Instance vault_check_does c r : Does (vault_check E c r).
Proof. by apply api_does. Qed.
#[export] Instance vault_scan_does c r : Does (vault_scan E c r).
Proof. by apply api_does. Qed.
#[export] Instance select_does : Does (select E).
Proof. unfold select. follow. Qed.
(** What follows a look at the environment depends on it alone. *)
Lemma step_then {A B} (f : step_env → A) (k : A → W B) :
  (∀ n, Does (k (f (E n)))) → Does (e ← step E; mret (f e)) → Does ((e ← step E; mret (f e)) ≫= k).
Proof.
  intros Hk Hm w. pose proof (Hm w) as Hw. unfold mbind, W_bind, step in *. cbn beta iota zeta in *.
  etrans; [exact Hw|]. apply Hk.
Qed.
#[export] Instance clock_does : Does (clock_now E).
Proof. unfold clock_now. follow. Qed.
#[export] Instance jitter_does : Does (jitter E).
Proof. unfold jitter. follow. Qed.
#[export] Instance elapsed_does : Does (elapsed_seconds E).
Proof. unfold elapsed_seconds. follow. Qed.
Lemma inc_does m : passing (AMetric m) → Does (inc wk m).
Proof. intros Hm. unfold inc, metric_inc. destruct (withMetrics wk); [by apply quiet_record|follow]. Qed.
#[export] Instance note_does st c : KnownStage st → Does (noteClassification wk st c).
Proof. intros Hs. by apply inc_does. Qed.
#[export] Instance jobExists_does c n : Does (Worker.jobExists E c n).
Proof. unfold Worker.jobExists. follow. Qed.
#[export] Instance confirm_gone_does fuel n : Does (confirm_gone E fuel n).
Proof. induction fuel; cbn [confirm_gone]; follow. Qed.
#[export] Instance delete_confirm_does n : Does (deleteAndConfirmGone E rounds n).
Proof. unfold deleteAndConfirmGone, deleteJob. follow. Qed.
#[export] Instance reconcile_does k b spec : Does (reconcile_create E k b spec).
Proof. revert b. induction k; intros b; cbn [reconcile_create]; follow. Qed.
End Quiet.

Section Works.
Context {HW : Works}.

Section Job.
Context (J : Job) {HJ : About job J}.

#[export] Instance stillLeased_does : Does (stillLeased E wk J).
Proof. unfold stillLeased. follow. Qed.
#[export] Instance mark_terminal_does c : Does (markExecutionTerminal E c J).
Proof. unfold markExecutionTerminal. follow. Qed.
#[export] Instance createSmoke_does spec b : Does (createSmokeJob E J spec b).
Proof. unfold createSmokeJob. follow. Qed.
#[export] Instance smoke_loop_does fuel spec r c : Does (smoke_loop E wk rounds fuel J spec r c).
Proof.
  revert c. induction fuel as [|fuel IH]; intros c; cbn [smoke_loop];
    unfold smoke_done, smoke_poll, classify_failed, deleteJob; follow.
Qed.
#[export] Instance runSmoke_does spec a r : Does (runSmokeRun E wk rounds J spec a r).
Proof. unfold runSmokeRun. follow. Qed.
#[export] Instance retire_each_does ns : Does (retire_each E wk rounds J ns).
Proof. induction ns; cbn [retire_each]; follow. Qed.
#[export] Instance retire_does : Does (retireLegacyExecutions E wk valid_label_value rounds J).
Proof. unfold retireLegacyExecutions. follow. Qed.
#[export] Instance waitL5a_does fuel n : Does (waitL5aJob E wk rounds fuel J n).
Proof. induction fuel; cbn [waitL5aJob]; unfold l5a_done, l5a_poll, extractPodExitCode_call; follow. Qed.
#[export] Instance ensure_call_does : Does (store_call E AttemptCtx (AEnsure (JobID J)) (EnsureExecution (JobID J))).
Proof. follow. Qed.
End Job.
End Works.

Section Acts.
Context {HA : Acts}.

Section Job.
Context (J : Job) {HJ : About job J}.

#[export] Instance claimTerminal_does : Does (claimTerminal E wk J).
Proof. unfold claimTerminal. follow. Qed.
#[export] Instance first_failure_does p e : Does (markFirstDeliveryFailure E wk J p e).
Proof.
  unfold markFirstDeliveryFailure. destruct (Retryable e); [|follow].
  apply (step_then e_now); [intros n|apply clock_does]. apply (step_then e_rnd); [intros m|apply jitter_does].
  cbv zeta. follow.
Qed.
#[export] Instance submit_check_does s : Does (submitCheckRecord E wk J s).
Proof. unfold submitCheckRecord, send_check, markCheckDeliveryPending. follow. Qed.
#[export] Instance report_failure_does st c d : Does (reportTerminalFailure E wk J st c d).
Proof. unfold reportTerminalFailure. follow. Qed.
#[export] Instance report_success_does st c : Does (reportTerminalSuccess E wk J st c).
Proof. unfold reportTerminalSuccess. follow. Qed.
#[export] Instance l5a_observe_does c n b : Does (l5a_observe E wk rounds J c n b).
Proof. unfold l5a_observe, deleteJob. follow. Qed.
#[export] Instance runL5a_does b : Does (runL5a E wk rounds J b).
Proof. unfold runL5a, reconcileL5aCreate, l5a_not_created. follow. Qed.
#[export] Instance submit_scan_does r : Does (submit_scan E wk J r).
Proof. unfold submit_scan, markScanDeliveryPending. follow. Qed.
#[export] Instance runL5b_does : Does (runL5b E wk float_overflow J).
Proof. unfold runL5b, submitNotAvailableScanRecord. follow. Qed.
Lemma optional_does b m k1 k2 :
  passing (AMetric k1) → passing (AMetric k2) → Does m → Does (optional_stage E wk J b m k1 k2).
Proof.
  intros H1 H2 Hm. unfold optional_stage. follow. case_bool_decide; by apply inc_does.
Qed.
End Job.

Section Closes.
Context {HC : Closes}.

#[local] Instance fail_attempt_does J st cmd class reason :
  About job J → KnownStage st → Does (fail_attempt E wk J st cmd class reason).
Proof.
  intros HJ Hst. unfold fail_attempt. apply (step_then e_rnd); [intros n|apply jitter_does].
  do 2 (apply bind_does; [apply _|intros _]). by apply closes_fail.
Qed.

Section Job.
Context (J : Job) {HJ : About job J}.
#[export] Instance finish_does p b : Does (finishAfterL4 E wk rounds float_overflow J p b).
Proof. unfold finishAfterL4. follow; (apply optional_does; first [done|apply _]). Qed.
#[export] Instance run_l4_does p a b : Does (run_l4 E wk rounds float_overflow J p a b).
Proof. unfold run_l4. follow. Qed.
#[export] Instance run_l3_does p a b : Does (run_l3 E wk rounds float_overflow J p a b).
Proof. unfold run_l3, runDryRun, failed. follow. Qed.
End Job.

#[export] Instance process_does : Does (process E wk valid_label_value rounds float_overflow job).
Proof. unfold process, ensure_execution, run_execution, failed. follow. Qed.
End Closes.

End Acts.
End Follow.
