(* ===== verification/Protocol.v ===== *)
(** * Protocol: what an attempt may do, and when

    The contract the comments of [pkg/worker] give an attempt at a job, as an
    automaton over its actions: which Kubernetes Jobs it may create and under
    which name, when it may release its execution identity, when it may report
    to NodeVault and how often, and how it may close the job. Attempt.v proves
    that process never leaves it. *)

From S2P Require Import Prelude GoTime Errors Work Db Fingerprint Store StoreSpec StoreStep.
From S2P Require Import Retry Names Failure World Worker Pipeline.

(** ** The state of an attempt *)

(** What the attempt knows of the Job of its current stage, L4 or L5-a, under
    its execution identity. *)
Inductive exec_phase :=
| Unused      (* minted by this attempt, no Create was sent *)
| Adopted     (* left by an earlier attempt, which may have reached L5-a *)
| Unseen      (* left by an earlier attempt in L4, whose Create may still land *)
| Ambiguous   (* a Create was sent and its outcome is unknown *)
| Present     (* a Job is known to have been persisted *)
| Deleting    (* a Delete was sent *)
| Over        (* taken to mean that nothing runs under the identity *)
| Released.   (* MarkExecutionTerminal was called *)

(** The identity, whether its stage is L5-a, the phase of that stage's Job, and
    whether L4 was seen to succeed. *)
Inductive execution :=
| NoExecution
| Exec (id : string) (l5a : bool) (ph : exec_phase) (l4 : bool).

(** The reports to NodeVault. *)
Inductive report :=
| Idle                    (* the terminal slot was not asked for *)
| Checked                 (* ... and the lease was just checked *)
| Granted                 (* the terminal slot was asked for and not refused *)
| Refused                 (* another attempt holds the terminal slot *)
| Sent (p : string) (e : option error)
                          (* the terminal record, stored as [p], was sent, with this answer *)
| Recorded.               (* ... and its failure was written to the store *)

Record pstate := PS {
  p_lost : bool;
  p_exec : execution;
  p_report : report;
  p_closed : bool;
}.

#[export] Instance exec_phase_eq_dec : EqDecision exec_phase.
Proof. solve_decision. Defined.

Definition p_init : pstate := PS false NoExecution Idle false.

(** Whether the terminal slot was asked for. *)
Definition asked (r : report) : bool := match r with Idle | Checked => false | _ => true end.

(** A lease check, and anything that makes an earlier check stale. *)
Definition check_report (r : report) : report := match r with Idle => Checked | r => r end.
Definition stale (r : report) : report := match r with Checked => Idle | r => r end.

Definition cancelled (e : option error) : bool :=
  match e with Some e => errors_is e CtxCanceled | None => false end.

(** What is left to do once the lease is lost: metrics, and heartbeats, lookups
    and a FailJob that the cancelled context refuses. *)
Definition harmless (a : action) : bool :=
  match a with
  | AMetric _ => true
  | AStore (OpHeartbeat _ _ _ _) e | AStore (OpFailJob _ _ _ _ _ _) e => cancelled e
  | AGet _ r => cancelled (error_of r)
  | _ => false
  end.

(** The answer that confirms a lost lease. *)
Definition lease_gone (e : option error) : bool :=
  match e with Some e => errors_is e ErrNotFound | None => false end.

(** ** What the answers of the API server mean *)

(** A Create refused with one of these statuses persisted nothing. *)
Definition refused (e : error) : bool :=
  match api_reason_of e with
  | Some ApiAlreadyExists | Some ApiOther | None => false
  | Some _ => true
  end.

Lemma createRejected_refused e : createRejected e = refused e.
Proof. unfold createRejected, refused, is_api. by destruct (api_reason_of e) as [[]|]. Qed.

(** A Job with one of these conditions has ended. *)
Definition has_condition (ty : string) (conds : list jobCondition) : bool :=
  existsb (λ c, bool_decide (cond_Type c = ty ∧ cond_Status c = "True")) conds.

Definition ended (conds : list jobCondition) : bool :=
  has_condition "Complete" conds || has_condition "Failed" conds.

Lemma has_condition_true ty conds : existsb (condition_true ty) conds = has_condition ty conds.
Proof.
  unfold has_condition. induction conds as [|c conds IH]; [done|]. cbn [existsb]. rewrite IH.
  f_equal. unfold condition_true. rewrite bool_decide_and. done.
Qed.

Lemma decisive_ended conds : is_Some (decisive conds) ↔ ended conds = true.
Proof.
  unfold ended. rewrite <- !has_condition_true. induction conds as [|c conds IH]; cbn [decisive existsb].
  { by split; [intros [? ?]|]. }
  destruct (condition_true "Complete" c), (condition_true "Failed" c); cbn [orb]; try (by split).
  - rewrite orb_true_r. by split.
  - exact IH.
Qed.

Lemma not_ended conds : decisive conds = None → ended conds = false.
Proof.
  intros H. destruct (ended conds) eqn:E; [|done]. apply decisive_ended in E as [? E]. congruence.
Qed.

(** ** The automaton *)

(** What is stored of a record whose delivery failed. *)
Definition check_payload `{DeliveryJson} (r : SubmitCheckRecordRequest) : string :=
  json_marshal_delivery {| pd_Kind := "check"; pd_Check := Some r; pd_Scan := None |}.
Definition scan_payload `{DeliveryJson} (r : SubmitScanRecordRequest) : string :=
  json_marshal_delivery {| pd_Kind := "scan"; pd_Check := None; pd_Scan := Some r |}.

Section Protocol.
Context {DJ : DeliveryJson}.
Context (wk : worker) (job : Job).

Definition smoke_name (id : string) : string := smokeJobName (JobID job) id.
Definition l5a_name (id : string) : string := l5aJobName (JobID job) id.
Definition stage_name (id : string) (l5a : bool) : string :=
  if l5a then l5a_name id else smoke_name id.
Definition own_name (id name : string) : bool :=
  bool_decide (name = smoke_name id) || bool_decide (name = l5a_name id).

(** Whether L5-a follows L4 under the same identity. *)
Definition l5a_follows : bool :=
  match planStages (RequestedActions job) with
  | Ok plan => runL5a_ plan && vaultClient wk
  | Err _ => false
  end.

#[local] Abbreviation smoke_spec id := (buildSmokeJobSpec (set_ExecutionID id job)).
#[local] Abbreviation l5a_spec id := (buildL5aJobSpec (set_ExecutionID id job)).

(** The phase of an identity the store just gave. *)
Definition adopted_phase (adopted : bool) : exec_phase :=
  if adopted then if l5a_follows then Adopted else Unseen else Unused.

(** The phase after a Create. *)
Definition created (l5a : bool) (e : option error) (ph : exec_phase) : exec_phase :=
  match e with
  | None => Present
  | Some e =>
      if is_api ApiAlreadyExists e then Present
      else if refused e then
        (* L5-a is created after L4 ended: refused, it leaves nothing behind *)
        if l5a && negb (bool_decide (ph = Ambiguous)) then Over else ph
      else Ambiguous
  end.

(** The phase after looking a Job up. *)
Definition observed (r : res error (list jobCondition)) (ph : exec_phase) : exec_phase :=
  match r with
  | Ok conds =>
      match ph with
      | Released => Released
      | _ => if ended conds then Over else Present
      end
  | Err e =>
      if is_api ApiNotFound e then
        match ph with Present | Deleting => Over | ph => ph end
      else ph
  end.

(** Evidence that L4 succeeded: its Job is complete, or the L5-a Job, which is
    only created afterwards, exists. *)
Definition l4_evidence (id name : string) (r : res error (list jobCondition)) : bool :=
  match r with
  | Ok conds =>
      (bool_decide (name = smoke_name id) && has_condition "Complete" conds)
      || bool_decide (name = l5a_name id)
  | Err _ => false
  end.

(** Looking for the L5-a Job of an adopted execution settles its stage. *)
Definition looked_for_l5a (id : string) (r : res error (list jobCondition)) : execution :=
  match r with
  | Ok _ => Exec id true (observed r Adopted) true
  | Err e => Exec id false (if is_api ApiNotFound e then Unseen else Adopted) false
  end.

Definition deleted (ph : exec_phase) : exec_phase :=
  match ph with Over => Over | Released => Released | _ => Deleting end.

Definition with_exec (s : pstate) (x : execution) : option pstate :=
  Some (PS (p_lost s) x (stale (p_report s)) (p_closed s)).
Definition with_report (s : pstate) (r : report) : option pstate :=
  Some (PS (p_lost s) (p_exec s) r (p_closed s)).
Definition closing (s : pstate) : option pstate :=
  Some (PS (p_lost s) (p_exec s) (p_report s) true).

(** The store operations of an attempt. *)
Definition pstep_store (s : pstate) (o : op) (e : option error) : option pstate :=
  match o, p_exec s, p_report s with
  | OpHeartbeat id w n ttl, _, r =>
      if bool_decide (id = JobID job ∧ w = workerName wk ∧ n = Attempt job) then
        if lease_gone e then Some (PS true (p_exec s) r (p_closed s))
        else with_report s (check_report r)
      else None
  | OpGetJob id, x, _ => with_exec s x
  | OpMarkExecutionTerminal id x', Exec x l5a ph l4, _ =>
      if bool_decide (id = JobID job ∧ x' = x ∧ ph ∈ [Unused; Over])
      then with_exec s (Exec x l5a Released l4) else None
  | OpMarkFirstDeliveryPending id w n p text _, _, Sent p' (Some e') =>
      if bool_decide (id = JobID job ∧ w = workerName wk ∧ n = Attempt job ∧ p = p' ∧ text = error_text e')
         && Retryable e'
      then with_report s Recorded else None
  | OpMarkFirstDeliveryDeadLetter id w n p text, _, Sent p' (Some e') =>
      if bool_decide (id = JobID job ∧ w = workerName wk ∧ n = Attempt job ∧ p = p' ∧ text = error_text e')
         && negb (Retryable e')
      then with_report s Recorded else None
  | OpFailJob id w n _ retry _, _, r =>
      (* a job that will be retried has attempts left and has not asked for its
         terminal slot; one that will not has, when there is somebody to report to *)
      if bool_decide (id = JobID job ∧ w = workerName wk ∧ n = Attempt job)
         && (if retry then (Attempt job <? maxAttempts) && negb (asked r)
             else implb (vaultClient wk) (asked r))
      then closing s else None
  | OpCompleteJob id w n _, Exec _ _ _ l4, r =>
      if bool_decide (id = JobID job ∧ w = workerName wk ∧ n = Attempt job)
         && l4 && implb (vaultClient wk) (asked r)
      then closing s else None
  | _, _, _ => None
  end.

(** A record about job [id], stored as [p] if it fails. *)
Definition submitted (s : pstate) (id : string) (terminal : bool) (p : string) (e : option error) : option pstate :=
  if bool_decide (id = JobID job) then
    match p_report s with
    | Checked => if terminal then None else with_report s Idle
    | Granted => if terminal then with_report s (Sent p e) else None
    | _ => None
    end
  else None.

Definition pstep (s : pstate) (a : action) : option pstate :=
  if p_lost s then if harmless a then Some s else None
  else if p_closed s then match a with AMetric _ => Some s | _ => None end
  else
    match a, p_exec s with
    | AMetric _, _ => Some s
    | AStore o e, _ => pstep_store s o e
    | AEnsure id r, NoExecution =>
        if bool_decide (id = JobID job) then
          match r with
          | Ok (x, adopted) => with_exec s (Exec x false (adopted_phase adopted) false)
          | Err _ => with_exec s NoExecution
          end
        else None
    | AClaim id w n r, _ =>
        match p_report s with
        | Checked =>
            if bool_decide (id = JobID job ∧ w = workerName wk ∧ n = Attempt job) then
              with_report s match r with Ok false => Refused | _ => Granted end
            else None
        | _ => None
        end
    | ACreate dryRun spec e, Exec x l5a ph l4 =>
        if dryRun then
          if bool_decide (ph = Unused ∧ spec = smoke_spec x) then with_exec s (p_exec s) else None
        else if bool_decide (ph ∈ [Unused; Unseen] ∧ l5a = false ∧ spec = smoke_spec x) then
          with_exec s (Exec x false (created false e ph) l4)
        else if l4 && l5a_follows && bool_decide (ph ∉ [Released; Unused; Adopted; Unseen] ∧
                                                  (l5a = true ∨ ph = Over) ∧ spec = l5a_spec x) then
          with_exec s (Exec x true (created true e ph) l4)
        else None
    | AGet name r, Exec x l5a ph l4 =>
        if bool_decide (ph = Adopted) then
          if bool_decide (name = l5a_name x) then with_exec s (looked_for_l5a x r) else None
        else if bool_decide (name = stage_name x l5a) then
          with_exec s (Exec x l5a (observed r ph) (l4 || l4_evidence x name r))
        else None
    | AGet _ _, NoExecution => with_exec s NoExecution
    | ADelete name _, Exec x l5a ph l4 =>
        if bool_decide (ph ∉ [Adopted; Ambiguous] ∧ name = stage_name x l5a)
        then with_exec s (Exec x l5a (deleted ph) l4) else None
    | ADelete name _, NoExecution =>
        if isLegacyJobName name (JobID job) then with_exec s NoExecution else None
    | (AListJobs _ _ | AListPods _ _ | AListReports _), x => with_exec s x
    | ASubmitCheck r e, _ => submitted s (cr_SentinelJobID r) (cr_Terminal r) (check_payload r) e
    | ASubmitScan r e, _ => submitted s (sr_SentinelJobID r) (sr_Terminal r) (scan_payload r) e
    | _, _ => None
    end.

(** The run of the automaton on a trace, which has its latest action first. *)
Fixpoint prun (tr : list action) : option pstate :=
  match tr with
  | [] => Some p_init
  | a :: tr => s ← prun tr; pstep s a
  end.

End Protocol.
