(* ===== verification/Attempt.v ===== *)
(** * Attempt: reasoning about the calls of an attempt

    A weakest-precondition calculus that runs the program of Worker.v and
    Pipeline.v against the automaton of Protocol.v, and the behaviour of every
    function up to the stages. *)

From S2P Require Import Prelude GoTime Errors Work Db Fingerprint Store StoreSpec StoreRun StoreStep.
From S2P Require Import Retry Names Failure World Worker Pipeline Protocol.

Create HintDb attempt.

(** Store operations that fail on a cancelled context. *)
Class Cancellable {A} (m : instant → M A) : Prop :=
  cancellable now d : faults d = [Some CtxCanceled] →
    ∃ e, (m now d).1 = Err e ∧ errors_is e CtxCanceled = true ∧ errors_is e ErrNotFound = false.

#[export] Instance Heartbeat_cancellable id w n ttl : Cancellable (Heartbeat id w n ttl).
Proof.
  intros now d Hf. rewrite Heartbeat_fenced, fenced_run. unfold stmt_fault. rewrite Hf.
  by eexists.
Qed.

#[export] Instance FailJob_cancellable id w n le rt delay : Cancellable (FailJob id w n le rt delay).
Proof.
  intros now d Hf. rewrite FailJob_fenced.
  destruct rt; rewrite fenced_run; unfold stmt_fault; rewrite Hf; by eexists.
Qed.

Section Attempt.
Context {SO : SqlOrder} {AJ : ActionsJson} {DJ : DeliveryJson}.
Context (E : nat → step_env) (wk : worker) (job : Job).

(** The automaton's state that goes with a world. *)
Definition view (w : world) (s : pstate) : Prop :=
  prun wk job (w_trace w) = Some s ∧ w_lost w = p_lost s.

Definition wpm {A} (m : W A) (s : pstate) (Q : A → pstate → Prop) : Prop :=
  ∀ w, view w s → ∃ s', view (m w).2 s' ∧ Q (m w).1 s'.

Lemma wpm_ret {A} (a : A) s (Q : A → pstate → Prop) : Q a s → wpm (mret a) s Q.
Proof. intros HQ w Hw. by exists s. Qed.

Lemma wpm_bind {A B} (m : W A) (k : A → W B) s Q :
  wpm m s (λ a s', wpm (k a) s' Q) → wpm (m ≫= k) s Q.
Proof.
  intros Hm w Hw. destruct (Hm w Hw) as (s' & Hs' & Hk).
  unfold mbind, W_bind. destruct (m w) as [a w']. by apply Hk.
Qed.

Lemma wpm_conseq {A} (m : W A) s (P Q : A → pstate → Prop) :
  wpm m s P → (∀ a s', P a s' → Q a s') → wpm m s Q.
Proof. intros Hm HPQ w Hw. destruct (Hm w Hw) as (s' & Hs' & HP). eauto. Qed.

(** ** Primitives *)

Lemma wpm_step s (Q : step_env → pstate → Prop) :
  (∀ n, Q (E n) s) → wpm (step E) s Q.
Proof. intros HQ w Hw. exists s. split; [exact Hw|apply HQ]. Qed.

Lemma wpm_leaseLost s (Q : bool → pstate → Prop) : Q (p_lost s) s → wpm leaseLost s Q.
Proof. intros HQ w [Hp Hl]. exists s. cbn. by rewrite Hl. Qed.

Lemma wpm_select s (Q : select_event → pstate → Prop) : (∀ e, Q e s) → wpm (select E) s Q.
Proof. intros HQ. apply wpm_bind, wpm_step. intros n. by apply wpm_ret. Qed.
Lemma wpm_clock s (Q : instant → pstate → Prop) : (∀ t, Q t s) → wpm (clock_now E) s Q.
Proof. intros HQ. apply wpm_bind, wpm_step. intros n. by apply wpm_ret. Qed.
Lemma wpm_jitter s (Q : (Z → Z) → pstate → Prop) : (∀ f, Q f s) → wpm (jitter E) s Q.
Proof. intros HQ. apply wpm_bind, wpm_step. intros n. by apply wpm_ret. Qed.
Lemma wpm_elapsed s (Q : Z → pstate → Prop) : (∀ t, Q t s) → wpm (elapsed_seconds E) s Q.
Proof. intros HQ. apply wpm_bind, wpm_step. intros n. by apply wpm_ret. Qed.

Lemma wpm_record a s s' (Q : unit → pstate → Prop) :
  pstep wk job s a = Some s' → p_lost s' = p_lost s → Q tt s' → wpm (record a) s Q.
Proof.
  intros Hstep Hl HQ w [Hp Hw]. exists s'. split; [|done]. split.
  - cbn [record fst snd w_trace prun]. rewrite Hp. done.
  - cbn. by rewrite Hw.
Qed.

(** What a call may be answered. *)
Definition answer_of {A} (reply : step_env → res error A) (r : res error A) : Prop :=
  r = Err CtxCanceled ∨ ∃ n, r = reply (E n).

Lemma wpm_canceled c e s (Q : bool → pstate → Prop) : (∀ b, Q b s) → wpm (canceled c e) s Q.
Proof. intros HQ w Hw. exists s. by split; [|apply HQ]. Qed.

(** A call while the lease is held: any answer. *)
Lemma wpm_api {A} c (reply : step_env → res error A) act s s' (Q : res error A → pstate → Prop) :
  p_lost s = false →
  (∀ r, answer_of reply r → pstep wk job s (act r) = Some (s' r) ∧ p_lost (s' r) = false ∧ Q r (s' r)) →
  wpm (api_call E c reply act) s Q.
Proof.
  intros Hl H. apply wpm_bind, wpm_step. intros n. apply wpm_bind, wpm_canceled. intros b. cbv zeta.
  set (r := if b then _ else _). destruct (H r) as (Hs & Hl' & HQ); [destruct b; [by left|right; by exists n]|].
  apply wpm_bind, wpm_record with (s' := s' r); [done|congruence|by apply wpm_ret].
Qed.

(** A call of the attempt after the lease was lost is refused. *)
Lemma wpm_api_lost {A} (reply : step_env → res error A) act s (Q : res error A → pstate → Prop) :
  p_lost s = true → harmless (act (Err CtxCanceled)) = true → Q (Err CtxCanceled) s →
  wpm (api_call E AttemptCtx reply act) s Q.
Proof.
  intros Hl Hh HQ. apply wpm_bind, wpm_step. intros n. apply wpm_bind.
  assert (wpm (canceled AttemptCtx (E n)) s (λ b s1, b = true ∧ s1 = s)) as Hc.
  { intros w [Hp Hw]. exists s. split; [done|]. cbn. by rewrite Hw, Hl. }
  apply (wpm_conseq _ _ _ _ Hc). intros _ _ [-> ->]. apply wpm_bind. apply wpm_record with (s' := s); [|done|by apply wpm_ret].
  unfold pstep. by rewrite Hl, Hh.
Qed.

Lemma wpm_store_lost {A} act (m : instant → M A) s (Q : res error A → pstate → Prop) :
  Cancellable m → p_lost s = true →
  (∀ e, errors_is e CtxCanceled = true → errors_is e ErrNotFound = false →
        harmless (act (Err e)) = true ∧ Q (Err e) s) →
  wpm (store_call E AttemptCtx act m) s Q.
Proof.
  intros Hm Hl H w [Hp Hw]. unfold store_call. cbn [step canceled w_lost].
  rewrite Hw, Hl. cbn [orb w_lost w_db w_trace w_step].
  match goal with |- context [m ?t ?d] => destruct (Hm t d eq_refl) as (e & He & Hc & Hn);
    destruct (m t d) as [r d'] end.
  cbn in He. subst r. destruct (H e Hc Hn) as [Hh HQ]. exists s. split; [|done].
  split; [|done]. cbn. rewrite Hp. cbn. unfold pstep. by rewrite Hl, Hh.
Qed.

Lemma wpm_store {A} c act (m : instant → M A) s s' (Q : res error A → pstate → Prop) :
  p_lost s = false →
  (∀ r, pstep wk job s (act r) = Some (s' r) ∧ p_lost (s' r) = false ∧ Q r (s' r)) →
  wpm (store_call E c act m) s Q.
Proof.
  intros Hl H w [Hp Hw]. unfold store_call. cbn [step canceled w_lost w_db w_trace w_step].
  match goal with |- context [m ?t ?d] => destruct (m t d) as [r d'] end.
  destruct (H r) as (Hs & Hl' & HQ). exists (s' r). split; [|done]. split.
  - cbn. rewrite Hp. done.
  - cbn. congruence.
Qed.

End Attempt.


(** ** Running a program *)

(** Undo binds, discard answers nobody looks at. *)
Ltac wp :=
  repeat match goal with
  | |- wpm _ _ (mbind _ _) _ _ => apply wpm_bind
  | |- wpm _ _ (mret _) _ _ => apply wpm_ret
  | |- wpm _ _ leaseLost _ _ => apply wpm_leaseLost; cbn [p_lost]
  | |- wpm _ _ (select _) _ _ => let ev := fresh "ev" in apply wpm_select; intros ev
  | |- wpm _ _ (clock_now _) _ _ => apply wpm_clock; intros ?
  | |- wpm _ _ (jitter _) _ _ => apply wpm_jitter; intros ?
  | |- wpm _ _ (elapsed_seconds _) _ _ => apply wpm_elapsed; intros ?
  end.

(** Use a proved specification of the call in front. *)
Tactic Notation "use" uconstr(H) := eapply wpm_conseq; [eapply H|cbn beta].

(** Decide a condition that holds. *)
Lemma bool_decide_if {A} (P : Prop) `{Decision P} (x y : A) : P → (if bool_decide P then x else y) = x.
Proof. intros HP. by rewrite bool_decide_eq_true_2. Qed.

Section Calls.
Context {SO : SqlOrder} {AJ : ActionsJson} {DJ : DeliveryJson}.
Context (E : nat → step_env) (wk : worker) (job : Job).

#[local] Abbreviation wp_ := (wpm wk job).

(** The job as the attempt passes it around: leased, then with its identity. *)
Definition same_job (J : Job) : Prop := JobID J = JobID job ∧ Attempt J = Attempt job.

Lemma same_job_refl : same_job job.
Proof. done. Qed.
Lemma same_job_set x : same_job (set_ExecutionID x job).
Proof. done. Qed.
#[local] Hint Resolve same_job_refl same_job_set : attempt.

Lemma inc_spec m s (Q : unit → pstate → Prop) : Q tt s → wp_ (inc wk m) s Q.
Proof.
  intros HQ. unfold inc, metric_inc. destruct (withMetrics wk); [|by apply wpm_ret].
  apply wpm_record with (s' := s); [|done|done].
  unfold pstep. destruct (p_lost s); [done|]. by destruct (p_closed s).
Qed.

(** *** The lease *)

Lemma heartbeat_spec J x r :
  same_job J →
  wp_ (heartbeat E wk J) (PS false x r false)
      (λ _ s', s' = PS true x r false ∨ s' = PS false x (check_report r) false).
Proof.
  intros [HI HA]. unfold heartbeat. intros w [Hp Hw].
  unfold mbind, W_bind, store_call. cbn [step canceled w_lost]. rewrite Hw. cbn [w_lost w_db w_trace w_step p_lost].
  match goal with |- context [Heartbeat ?a ?b ?c ?d ?t ?e] => destruct (Heartbeat a b c d t e) as [ans d'] end.
  assert (pstep wk job (PS false x r false) (did (OpHeartbeat (JobID J) (workerName wk) (Attempt J) leaseDuration) ans)
    = Some (if lease_gone (error_of ans) then PS true x r false else PS false x (check_report r) false)) as Hs.
  { cbn. rewrite bool_decide_if by done. by destruct (lease_gone (error_of ans)). }
  destruct ans as [[]|e]; cbn [error_of lease_gone] in Hs.
  - eexists. split; [|by right]. split; [|done]. cbn. rewrite Hp. exact Hs.
  - destruct (errors_is e ErrNotFound) eqn:He; eexists;
      (split; [split; [cbn; rewrite Hp; exact Hs|done]|auto]).
Qed.

Lemma heartbeat_lost J s : p_lost s = true → wp_ (heartbeat E wk J) s (λ _ s', s' = s).
Proof.
  intros Hl. unfold heartbeat. wp. apply wpm_store_lost; [apply _|done|].
  intros e Hc Hn. split; [done|]. rewrite Hn. by wp.
Qed.

Lemma stillLeased_spec J x r :
  same_job J →
  wp_ (stillLeased E wk J) (PS false x r false)
      (λ b s', if b : bool then s' = PS false x (check_report r) false else p_lost s' = true).
Proof.
  intros HJ. unfold stillLeased. wp. use (heartbeat_spec J x r HJ).
  intros _ s' [->| ->]; by wp.
Qed.

Lemma stillLeased_lost J s :
  p_lost s = true → wp_ (stillLeased E wk J) s (λ b s', b = false ∧ s' = s).
Proof. intros Hl. unfold stillLeased. wp. rewrite Hl. by wp. Qed.

(** *** Reports *)

Lemma claimTerminal_spec J x :
  same_job J →
  wp_ (claimTerminal E wk J) (PS false x Checked false)
      (λ b s', s' = PS false x (if b : bool then Granted else Refused) false).
Proof.
  intros [HI HA]. unfold claimTerminal. wp.
  apply wpm_store with (s' := λ r, PS false x (match r with Ok false => Refused | _ => Granted end) false);
    [done|].
  intros ans. split; [|split; [done|]].
  - cbn. by rewrite bool_decide_if.
  - destruct ans as [[]|e]; by wp.
Qed.

Lemma markFirstDeliveryFailure_spec J x payload e :
  same_job J →
  wp_ (markFirstDeliveryFailure E wk J payload e) (PS false x (Sent payload (Some e)) false)
      (λ _ s', s' = PS false x Recorded false).
Proof.
  intros [HI HA]. unfold markFirstDeliveryFailure. destruct (Retryable e) eqn:He; wp;
    (apply wpm_store with (s' := λ _, PS false x Recorded false); [done|]);
    (intros ans; split; [|split; [done|by wp]]); cbn; rewrite bool_decide_eq_true_2 by done;
    cbn; by rewrite He.
Qed.

Lemma send_check_spec J x sub :
  same_job J →
  wp_ (send_check E wk J sub)
      (PS false x (if terminal sub then Granted else Checked) false)
      (λ _ s', ∃ r', s' = PS false x r' false ∧ asked r' = terminal sub).
Proof.
  intros HJ. unfold send_check, vault_check. wp.
  apply wpm_api with
    (s' := λ ans, PS false x (if terminal sub then Sent (check_payload (check_request J sub)) (error_of ans)
                              else Idle) false); [done|].
  intros r _. split; [cbn; unfold submitted; rewrite bool_decide_eq_true_2 by apply HJ; by destruct (terminal sub)|]. split; [done|].
  destruct r as [[]|e]; cbn [error_of].
  - wp. eexists. split; [done|]. by destruct (terminal sub).
  - destruct (terminal sub) eqn:Ht; wp; [|by eexists].
    use markFirstDeliveryFailure_spec; [done|]. intros _ s' ->. wp. by eexists.
Qed.

(** From here on [rp] is a state in which the terminal slot was not asked for;
    [check_report] makes it [Checked]. *)
Lemma check_report_unasked rp : asked rp = false → check_report rp = Checked.
Proof. by destruct rp. Qed.
Lemma stale_unasked rp : asked rp = false → stale rp = Idle.
Proof. by destruct rp. Qed.

(** The lease is lost, or the report phase moved as given. *)
Definition reported (x : execution) (P : report → Prop) (s' : pstate) : Prop :=
  p_lost s' = true ∨ ∃ r', s' = PS false x r' false ∧ P r'.

Lemma submitCheckRecord_spec J x rp sub :
  same_job J → asked rp = false →
  wp_ (submitCheckRecord E wk J sub) (PS false x rp false)
      (λ _ s', reported x (λ r', asked r' = terminal sub) s').
Proof.
  intros HJ Hrp. unfold submitCheckRecord. wp. use (stillLeased_spec J x rp HJ).
  intros [] s' Hs'; cbn [negb]; [|by wp; left].
  rewrite check_report_unasked in Hs' by done. subst s'.
  pose proof (send_check_spec J x sub HJ) as Hsend.
  destruct (terminal sub) eqn:Ht.
  - wp. use (claimTerminal_spec J x HJ). intros [] s' ->; cbn [negb].
    + use Hsend. intros _ s' Hs'. by right.
    + wp. right. by eexists.
  - use Hsend. intros _ s' Hs'. by right.
Qed.

Lemma submit_scan_spec J x rp req :
  same_job J → asked rp = false → sr_Terminal req = true → sr_SentinelJobID req = JobID J →
  wp_ (submit_scan E wk J req) (PS false x rp false)
      (λ _ s', reported x (λ r', asked r' = true) s').
Proof.
  intros HJ Hrp Ht Hreq. unfold submit_scan. wp. use (stillLeased_spec J x rp HJ).
  intros [] s' Hs'; cbn [negb]; [|by wp; left].
  rewrite check_report_unasked in Hs' by done. subst s'.
  wp. use (claimTerminal_spec J x HJ). intros [] s' ->; cbn [negb]; [|wp; right; by eexists].
  unfold vault_scan. wp.
  apply wpm_api with (s' := λ ans, PS false x (Sent (scan_payload req) (error_of ans)) false); [done|].
  intros r _. split; [cbn; unfold submitted; rewrite Ht, Hreq, bool_decide_eq_true_2 by apply HJ; done|]. split; [done|].
  destruct r as [[]|e]; cbn [error_of]; [wp; right; by eexists|].
  unfold markScanDeliveryPending. wp. use markFirstDeliveryFailure_spec; [done|].
  intros _ s' ->. wp. right. by eexists.
Qed.

Lemma reportTerminalFailure_spec J x rp st cmd d :
  same_job J → asked rp = false →
  wp_ (reportTerminalFailure E wk J st cmd d) (PS false x rp false)
      (λ _ s', reported x (λ r', asked r' = vaultClient wk && negb (rd_Retry d)) s').
Proof.
  intros HJ Hrp. unfold reportTerminalFailure. destruct (vaultClient wk); cbn [negb andb].
  - destruct (wireStatus (rd_Class d)) as [vs fk]. wp.
    use submitCheckRecord_spec; [done..|]. intros _ s' Hs'. by wp.
  - wp. right. by eexists.
Qed.

Lemma reportTerminalSuccess_spec J x rp st cmd :
  same_job J → asked rp = false →
  wp_ (reportTerminalSuccess E wk J st cmd) (PS false x rp false)
      (λ _ s', reported x (λ r', asked r' = vaultClient wk) s').
Proof.
  intros HJ Hrp. unfold reportTerminalSuccess. destruct (vaultClient wk); cbn [negb].
  - wp. use submitCheckRecord_spec; [done..|]. intros _ s' Hs'. by wp.
  - wp. right. by eexists.
Qed.

(** *** Closing the job *)

Lemma FailJob_call_spec J x r d :
  same_job J → (if rd_Retry d then Attempt job < maxAttempts ∧ asked r = false else implb (vaultClient wk) (asked r) = true) →
  wp_ (FailJob_call E wk J d) (PS false x r false) (λ _ s', s' = PS false x r true).
Proof.
  intros [HI HA] Hr. unfold FailJob_call.
  apply wpm_store with (s' := λ _, PS false x r true); [done|].
  intros ans. split; [|done]. cbn. rewrite bool_decide_eq_true_2 by done.
  destruct (rd_Retry d); [|by rewrite Hr]. destruct Hr as [Hn ->].
  by rewrite (proj2 (Z.ltb_lt _ _) Hn).
Qed.

Lemma FailJob_call_lost J s d : p_lost s = true → wp_ (FailJob_call E wk J d) s (λ _ s', s' = s).
Proof.
  intros Hl. unfold FailJob_call. apply wpm_store_lost; [apply _|done|]. by intros e Hc _.
Qed.

(** Whatever happens, the failure branch ends in a legal state. *)
Definition ends : unit → pstate → Prop := λ _ _, True.

Lemma fail_attempt_spec J x rp st cmd class reason :
  same_job J → asked rp = false →
  wp_ (fail_attempt E wk J st cmd class reason) (PS false x rp false) ends.
Proof.
  intros HJ Hrp. unfold fail_attempt. wp. unfold noteClassification.
  apply inc_spec. wp. use reportTerminalFailure_spec; [done..|].
  set (d := decideRetry _ _ _ _). intros _ s' [Hl|(r' & -> & Hr')]; wp.
  - use FailJob_call_lost; [done|]. intros _ s'' ->. by apply inc_spec.
  - use FailJob_call_spec; [done| |intros _ s'' ->; by apply inc_spec].
    rewrite Hr'. destruct (rd_Retry d) eqn:Hretry; [|by destruct (vaultClient wk)].
    split; [|by destruct (vaultClient wk)]. rewrite <- (proj2 HJ). by apply decideRetry_bounded in Hretry.
Qed.

End Calls.

#[export] Hint Resolve same_job_refl same_job_set : attempt.
