(* ===== verification/Stages.v ===== *)
(** * Stages: every stage of an attempt keeps to the protocol

    The Kubernetes calls, L4, L5-a, L5-b and what surrounds them, run against
    the automaton of Protocol.v with the calculus of Attempt.v. *)

From S2P Require Import Prelude GoTime Errors Work Db Fingerprint Store StoreSpec StoreRun StoreStep.
From S2P Require Import Retry Names Failure World Worker Pipeline Protocol Attempt.

(** Kubernetes gives a Job at most one of its two terminal conditions. *)
Definition conditions_exclusive (E : nat → step_env) : Prop :=
  ∀ n conds, e_get (E n) = Ok conds →
    has_condition "Complete" conds = true → has_condition "Failed" conds = false.

Lemma decisive_some conds c b :
  decisive conds = Some (c, b) →
  existsb (condition_true (if b then "Complete" else "Failed")) conds = true.
Proof.
  induction conds as [|c' conds IH]; [done|]. cbn [decisive existsb].
  destruct (condition_true "Complete" c') eqn:E1.
  - intros [= -> <-]. by rewrite E1.
  - destruct (condition_true "Failed" c') eqn:E2.
    + intros [= -> <-]. by rewrite E2.
    + intros H. rewrite (IH H). apply orb_true_r.
Qed.

Section Stages.
Context {SO : SqlOrder} {AJ : ActionsJson} {DJ : DeliveryJson}.
Context (E : nat → step_env) (wk : worker) (job : Job).

#[local] Abbreviation wp_ := (wpm wk job).

(** The attempt holds its lease, is not closed, and has not asked for its
    terminal slot. *)
Definition live (x : execution) (s : pstate) : Prop :=
  ∃ rp, s = PS false x rp false ∧ asked rp = false.

(** The lease is lost, or the attempt is live and its execution is as given. *)
Definition alive (P : exec_phase → bool → Prop) (id : string) (s : pstate) : Prop :=
  p_lost s = true ∨ ∃ ph l4, live (Exec id false ph l4) s ∧ P ph l4.

(** Phases in which the Job of the stage was seen or deleted. *)
Definition seen_phase (ph : exec_phase) : Prop := ph ∈ [Present; Deleting; Over].

(** *** Kubernetes calls *)

(** A call that says nothing about the Jobs of the identity. *)
Lemma kube_other_spec {A} c (reply : step_env → res error A) act x rp :
  asked rp = false →
  (∀ r, pstep wk job (PS false x rp false) (act r) = with_exec (PS false x rp false) x) →
  wp_ (api_call E c reply act) (PS false x rp false) (λ _ s', live x s').
Proof.
  intros Hrp Hact.
  apply wpm_api with (s' := λ _, PS false x (stale rp) false); [done|]. intros r _.
  split; [by rewrite Hact|]. split; [done|]. exists (stale rp). by destruct rp.
Qed.

Lemma kube_list_pods_spec c name x rp :
  asked rp = false → wp_ (kube_list_pods E c name) (PS false x rp false) (λ _ s', live x s').
Proof. intros Hrp. by apply kube_other_spec; [|destruct x]. Qed.

Lemma kube_list_jobs_spec c id x rp :
  asked rp = false → wp_ (kube_list_jobs E c id) (PS false x rp false) (λ _ s', live x s').
Proof. intros Hrp. by apply kube_other_spec; [|destruct x]. Qed.

Lemma kube_list_reports_spec c x rp :
  asked rp = false → wp_ (kube_list_reports E c) (PS false x rp false) (λ _ s', live x s').
Proof. intros Hrp. by apply kube_other_spec; [|destruct x]. Qed.

Lemma kube_get_spec c id l5a ph l4 rp :
  ph ≠ Adopted → asked rp = false →
  wp_ (kube_get E c (stage_name job id l5a)) (PS false (Exec id l5a ph l4) rp false)
    (λ r s', live (Exec id l5a (observed r ph) (l4 || l4_evidence job id (stage_name job id l5a) r)) s' ∧
             answer_of E e_get r).
Proof.
  intros Hph Hrp. unfold kube_get.
  apply wpm_api with (s' := λ r,
    PS false (Exec id l5a (observed r ph) (l4 || l4_evidence job id (stage_name job id l5a) r)) (stale rp) false);
    [done|].
  intros r Hans. split; [cbn; rewrite bool_decide_eq_false_2, bool_decide_eq_true_2 by done; done|].
  split; [done|]. split; [|done]. exists (stale rp). by destruct rp.
Qed.

Lemma kube_delete_spec id l5a ph l4 rp :
  ph ∉ [Adopted; Ambiguous] → asked rp = false →
  wp_ (deleteJob E (stage_name job id l5a)) (PS false (Exec id l5a ph l4) rp false)
    (λ _ s', live (Exec id l5a (deleted ph) l4) s').
Proof.
  intros Hph Hrp. unfold deleteJob, kube_delete.
  apply wpm_api with (s' := λ r, PS false (Exec id l5a (deleted ph) l4) (stale rp) false); [done|].
  intros r Hans. split; [cbn; by rewrite bool_decide_eq_true_2|]. split; [done|]. exists (stale rp). by destruct rp.
Qed.

Lemma markExecutionTerminal_spec c id l5a ph l4 rp :
  ph ∈ [Unused; Over] → asked rp = false →
  wp_ (markExecutionTerminal E c (set_ExecutionID id job)) (PS false (Exec id l5a ph l4) rp false)
    (λ _ s', live (Exec id l5a Released l4) s').
Proof.
  intros Hph Hrp. unfold markExecutionTerminal. wp.
  apply wpm_store with (s' := λ _, PS false (Exec id l5a Released l4) (stale rp) false); [done|].
  intros r. split; [cbn; by rewrite bool_decide_eq_true_2|]. split; [done|]. wp.
  exists (stale rp). by destruct rp.
Qed.

Lemma kube_create_smoke_spec c id ph rp :
  ph ∈ [Unused; Unseen] → asked rp = false →
  wp_ (kube_create E c false (buildSmokeJobSpec (set_ExecutionID id job)))
    (PS false (Exec id false ph false) rp false)
    (λ r s', live (Exec id false (created false (error_of r) ph) false) s').
Proof.
  intros Hph Hrp. unfold kube_create.
  apply wpm_api with (s' := λ r,
    PS false (Exec id false (created false (error_of r) ph) false) (stale rp) false); [done|].
  intros r Hans. split; [cbn; by rewrite bool_decide_eq_true_2|]. split; [done|].
  exists (stale rp). by destruct rp.
Qed.

Lemma kube_create_l5a_spec c id l5a ph rp :
  l5a_follows wk job = true →
  ph ∉ [Released; Unused; Adopted; Unseen] → l5a = true ∨ ph = Over → asked rp = false →
  wp_ (kube_create E c false (buildL5aJobSpec (set_ExecutionID id job)))
    (PS false (Exec id l5a ph true) rp false)
    (λ r s', live (Exec id true (created true (error_of r) ph) true) s').
Proof.
  intros Hf Hph Hl5 Hrp. unfold kube_create.
  apply wpm_api with (s' := λ r,
    PS false (Exec id true (created true (error_of r) ph) true) (stale rp) false); [done|].
  intros r _. split; [|split; [done|exists (stale rp); by destruct rp]].
  cbn. rewrite bool_decide_eq_false_2 by (intros [H _]; set_solver).
  rewrite Hf. by rewrite bool_decide_eq_true_2.
Qed.

Lemma jobExists_spec c id l5a ph l4 rp :
  ph ∉ [Adopted; Released] → asked rp = false →
  wp_ (jobExists E c (stage_name job id l5a)) (PS false (Exec id l5a ph l4) rp false)
    (λ r s', match r with
     | Ok true => ∃ ph' l4', live (Exec id l5a ph' l4') s' ∧ ph' ∈ [Present; Over] ∧
         (l4 = true → l4' = true)
     | Ok false => live (Exec id l5a (match ph with Present | Deleting => Over | ph => ph end) l4) s'
     | Err _ => live (Exec id l5a ph l4) s'
     end).
Proof.
  intros Hph Hrp. unfold jobExists. wp. use kube_get_spec; [intros ->; set_solver|done|].
  intros r s' [Hs' _]. destruct r as [conds|e]; cbn [observed l4_evidence] in Hs'.
  - wp. eexists _, _. split; [exact Hs'|]. split; [|by intros ->].
    destruct ph; try (exfalso; set_solver); destruct (ended conds); set_solver.
  - rewrite orb_false_r in Hs'. destruct (is_api ApiNotFound e); wp; exact Hs'.
Qed.

(** Looking for the L5-a Job of an adopted execution. *)
Lemma jobExists_adopted c id rp :
  asked rp = false →
  wp_ (jobExists E c (l5a_name job id)) (PS false (Exec id false Adopted false) rp false)
    (λ r s', match r with
     | Ok true => ∃ ph', live (Exec id true ph' true) s' ∧ ph' ∈ [Present; Over]
     | Ok false => live (Exec id false Unseen false) s'
     | Err _ => ∃ ph', live (Exec id false ph' false) s'
     end).
Proof.
  intros Hrp. unfold jobExists, kube_get. wp.
  apply wpm_api with (s' := λ r, PS false (looked_for_l5a id r) (stale rp) false); [done|].
  intros r Hans. split; [cbn; repeat (rewrite bool_decide_eq_true_2 by done); done|]. split; [done|].
  destruct r as [conds|e]; cbn [looked_for_l5a observed].
  - wp. exists (if ended conds then Over else Present).
    split; [exists (stale rp); by destruct rp|destruct (ended conds); set_solver].
  - destruct (is_api ApiNotFound e); wp; [|eexists]; exists (stale rp); by destruct rp.
Qed.

(** Looking a Job up until it is gone, once it was seen or deleted. *)
Lemma confirm_gone_spec fuel id l5a ph l4 rp :
  asked rp = false → seen_phase ph →
  wp_ (confirm_gone E fuel (stage_name job id l5a)) (PS false (Exec id l5a ph l4) rp false)
    (λ r s', ∃ ph' l4', live (Exec id l5a ph' l4') s' ∧ seen_phase ph' ∧
       (l4 = true → l4' = true) ∧ (r = Ok tt → ph' = Over)).
Proof.
  unfold seen_phase. revert ph l4 rp. induction fuel as [|fuel IH]; intros ph l4 rp Hrp Hph;
    cbn [confirm_gone]; wp; (use jobExists_spec; [set_solver|done|]);
    intros [[]|e] s' Hs'.
  - destruct Hs' as (ph' & l4' & Hs' & Hph' & Hl4). wp. exists ph', l4'. set_solver.
  - wp. eexists _, _. split; [exact Hs'|]. destruct ph; set_solver.
  - wp. eexists _, _. split; [exact Hs'|]. done.
  - destruct Hs' as (ph' & l4' & (rp' & -> & Hrp') & Hph' & Hl4). wp.
    destruct ev; [wp; exists ph', l4'; split; [by eexists|set_solver]|..];
      (use IH; [done|set_solver|]); intros r s' (ph2 & l42 & ? & ? & ? & ?);
      exists ph2, l42; split_and!; try done; auto.
  - wp. eexists _, _. split; [exact Hs'|]. destruct ph; set_solver.
  - destruct Hs' as (rp' & -> & Hrp'). wp.
    destruct ev; [wp; exists ph, l4; split; [by eexists|done]|by apply IH..].
Qed.

Context (rounds : nat).

Lemma deleteAndConfirmGone_spec id l5a ph l4 rp :
  asked rp = false → ph ∉ [Adopted; Ambiguous; Released] →
  wp_ (deleteAndConfirmGone E rounds (stage_name job id l5a)) (PS false (Exec id l5a ph l4) rp false)
    (λ r s', ∃ ph' l4', live (Exec id l5a ph' l4') s' ∧ seen_phase ph' ∧
       (l4 = true → l4' = true) ∧ (r = Ok tt → ph' = Over)).
Proof.
  intros Hrp Hph. unfold deleteAndConfirmGone. wp. use kube_delete_spec; [set_solver|done|].
  intros r s' (rp' & -> & Hrp').
  assert (seen_phase (deleted ph)) as Hd by (unfold seen_phase; destruct ph; set_solver).
  assert (∀ r' : res error unit, (∃ e, r' = Err e) →
    wp_ (mret r') (PS false (Exec id l5a (deleted ph) l4) rp' false)
    (λ r s', ∃ ph' l4', live (Exec id l5a ph' l4') s' ∧ seen_phase ph' ∧
       (l4 = true → l4' = true) ∧ (r = Ok tt → ph' = Over))) as Herr.
  { intros r' [e ->]. wp. exists (deleted ph), l4. split; [by eexists|done]. }
  destruct r as [|e]; [|destruct (is_api ApiNotFound e); [|by apply Herr; eexists]];
    (use confirm_gone_spec; [done..|]); intros r' s' (ph' & l4' & ? & ? & ? & ?); by exists ph', l4'.
Qed.

(** *** Jobs of workers without execution identities *)

Lemma jobExists_legacy c name rp :
  asked rp = false →
  wp_ (jobExists E c name) (PS false NoExecution rp false) (λ _ s', live NoExecution s').
Proof.
  intros Hrp. unfold jobExists. wp. eapply wpm_conseq; [by apply kube_other_spec|].
  intros [|e] s' Hs'; cbn beta; [by wp|]. destruct (is_api ApiNotFound e); by wp.
Qed.

Lemma confirm_gone_legacy fuel name rp :
  asked rp = false →
  wp_ (confirm_gone E fuel name) (PS false NoExecution rp false) (λ _ s', live NoExecution s').
Proof.
  revert rp. induction fuel as [|fuel IH]; intros rp Hrp; cbn [confirm_gone]; wp;
    (use jobExists_legacy; [done|]); intros r s' Hs'.
  - destruct r as [[]|]; by wp.
  - destruct Hs' as (rp' & -> & Hrp').
    destruct r as [[]|]; wp; try (by eexists); destruct ev; wp; (by eexists) || by apply IH.
Qed.

Lemma retire_each_spec names rp :
  asked rp = false →
  wp_ (retire_each E wk rounds job names) (PS false NoExecution rp false)
    (λ r s', match r with Ok _ => live NoExecution s'
             | Err _ => p_lost s' = true ∨ live NoExecution s' end).
Proof.
  revert rp. induction names as [|name names IH]; intros rp Hrp; cbn [retire_each].
  { wp. by exists rp. }
  destruct (isLegacyJobName name (JobID job)) eqn:Hleg; cbn [negb]; [|by apply IH].
  wp. apply wpm_store with (s' := λ _, PS false NoExecution Idle false); [done|].
  intros stored. split; [by destruct rp|]. split; [done|].
  destruct stored as [stored|e]; [|wp; right; by exists Idle].
  destruct (bool_decide (ExecutionID stored = "")); cbn [negb]; [|wp; right; by exists Idle].
  unfold deleteAndConfirmGone, deleteJob, kube_delete. wp.
  apply wpm_api with (s' := λ _, PS false NoExecution Idle false); [done|].
  intros r Hans. split; [cbn -[isLegacyJobName]; by rewrite Hleg|]. split; [done|].
  assert (wp_ (confirm_gone E rounds name) (PS false NoExecution Idle false)
    (λ r s', wp_ match r with
                 | Err e => mret (Err e)
                 | Ok _ => leased ← stillLeased E wk job;
                           if negb leased then mret (Err ErrLeaseLost) else retire_each E wk rounds job names
                 end s' (λ r s', match r with Ok _ => live NoExecution s'
                         | Err _ => p_lost s' = true ∨ live NoExecution s' end))) as Hconfirm.
  { use confirm_gone_legacy; [done|]. intros [[]|e] s' (rp' & -> & Hrp'); [|wp; right; by exists rp'].
    wp. use stillLeased_spec; [apply same_job_refl|]. intros [] s' Hs'; cbn [negb]; [|wp; by left].
    subst s'. apply IH. by destruct rp'. }
  destruct r as [|e]; [exact Hconfirm|].
  destruct (is_api ApiNotFound e); [exact Hconfirm|]. wp. right. by exists Idle.
Qed.

Lemma retireLegacyExecutions_spec valid rp :
  asked rp = false →
  wp_ (retireLegacyExecutions E wk valid rounds job) (PS false NoExecution rp false)
    (λ r s', match r with Ok _ => live NoExecution s'
             | Err _ => p_lost s' = true ∨ live NoExecution s' end).
Proof.
  intros Hrp. unfold retireLegacyExecutions. destruct (valid (JobID job)); cbn [negb]; [|wp; by exists rp].
  wp. use kube_list_jobs_spec; [done|]. intros [names|e] s' Hs'.
  - destruct Hs' as (rp' & -> & Hrp'). by apply retire_each_spec.
  - wp. by right.
Qed.

(** *** L4 *)

(** What an L4 outcome says of the execution. *)
Definition l4_post (id : string) (releaseOnSuccess : bool) (o : outcome) (s : pstate) : Prop :=
  alive (λ ph l4, o_success o = true → l4 = true ∧ ph = if releaseOnSuccess then Released else Over) id s.

Lemma l4_post_failed id rel o ph l4 s : o_success o = false → live (Exec id false ph l4) s → l4_post id rel o s.
Proof. intros Ho Hs. right. exists ph, l4. split; [done|]. by rewrite Ho. Qed.

Lemma createSmokeJob_spec id (rel : bool) rp :
  asked rp = false →
  wp_ (createSmokeJob E (set_ExecutionID id job) (buildSmokeJobSpec (set_ExecutionID id job)) rel)
    (PS false (Exec id false (if rel then Unused else Unseen) false) rp false)
    (λ res s', ∃ ph' l4', live (Exec id false ph' l4') s' ∧
       match res with None => ph' ∈ [Present; Over] | Some o => o_success o = false end).
Proof.
  intros Hrp. unfold createSmokeJob. wp. use kube_create_smoke_spec; [destruct rel; set_solver|done|].
  intros [[]|e] s'; cbn [error_of created]; [intros Hs'; wp; eexists _, _; split; [exact Hs'|set_solver]|].
  destruct (is_api ApiAlreadyExists e); [intros Hs'; wp; eexists _, _; split; [exact Hs'|set_solver]|].
  rewrite createRejected_refused. destruct (refused e) eqn:Hrej; cbn [andb negb].
  - intros (rp' & -> & Hrp'). destruct rel; cbn [negb].
    + wp. use markExecutionTerminal_spec; [set_solver|done|]. intros _ s' Hs'. wp. by eexists _, _.
    + wp. eexists _, _. split; [by exists rp'|done].
  - intros (rp' & -> & Hrp'). wp. use (jobExists_spec AttemptCtx id false); [set_solver|done|].
    intros [[]|e'] s' Hs'; wp; [destruct Hs' as (ph' & l4' & Hs' & Hph & _)|..]; by eexists _, _.
Qed.

Lemma smoke_done_spec id rel deadline ph l4 rp :
  asked rp = false → ph ∉ [Adopted; Ambiguous; Released] →
  wp_ (smoke_done E rounds (set_ExecutionID id job) (smoke_name job id) deadline)
    (PS false (Exec id false ph l4) rp false) (l4_post id rel).
Proof.
  intros Hrp Hph. unfold smoke_done. wp. use (deleteAndConfirmGone_spec id false); [done..|].
  intros r s' (ph' & l4' & Hs' & _ & _ & Hr).
  assert (∀ o, o = classifySmokeRun deadline (Err CtxCanceled) [] → o_success o = false) as Ho.
  { intros o ->. by rewrite classifySmokeRun_success. }
  destruct r as [[]|e]; wp.
  - destruct Hs' as (rp' & -> & Hrp'). rewrite Hr by done.
    use markExecutionTerminal_spec; [set_solver|done|]. intros _ s' Hs'. wp.
    eapply l4_post_failed; [by apply Ho|done].
  - eapply l4_post_failed; [by apply Ho|done].
Qed.

Lemma classify_failed_spec name conds x rp :
  asked rp = false →
  wp_ (classify_failed E name conds) (PS false x rp false)
    (λ o s', live x s' ∧ o_success o = existsb (condition_true "Complete") conds).
Proof.
  intros Hrp. unfold classify_failed. wp.
  destruct (existsb (condition_true "Complete") conds) eqn:Hc; cbn [orb].
  { wp. split; [by exists rp|]. by rewrite classifySmokeRun_success, Hc. }
  match goal with |- wpm _ _ (if ?b then _ else _) _ _ => destruct b end; wp.
  - split; [by exists rp|]. by rewrite classifySmokeRun_success, Hc.
  - use kube_list_pods_spec; [done|]. intros pods s' Hs'. wp. split; [done|].
    by rewrite classifySmokeRun_success, Hc.
Qed.

Context (Hexcl : conditions_exclusive E).

Lemma failed_not_complete conds :
  answer_of E e_get (Ok conds) → has_condition "Failed" conds = true → has_condition "Complete" conds = false.
Proof.
  intros [Hr|[n Hr]] Hf; [done|]. destruct (has_condition "Complete" conds) eqn:Hc; [|done].
  by rewrite (Hexcl n conds) in Hf.
Qed.

(** What the loop knows between rounds. *)
Definition known_phase (confirmed : bool) (ph : exec_phase) (l4 : bool) : Prop :=
  if confirmed then ph ∈ [Present; Over] else ph = Unseen ∧ l4 = false.

Lemma smoke_poll_spec id rel confirmed again ph l4 rp :
  asked rp = false → known_phase confirmed ph l4 →
  (∀ ph l4 rp, asked rp = false → known_phase true ph l4 →
     wp_ (again true) (PS false (Exec id false ph l4) rp false) (l4_post id rel)) →
  wp_ (smoke_poll E (set_ExecutionID id job) (buildSmokeJobSpec (set_ExecutionID id job)) rel confirmed again)
    (PS false (Exec id false ph l4) rp false) (l4_post id rel).
Proof.
  intros Hrp Hph Hagain. unfold smoke_poll. wp.
  use (kube_get_spec AttemptCtx id false); [destruct confirmed; cbn in Hph; set_solver|done|]. cbn [stage_name].
  intros r s' [(rp' & -> & Hrp') Hr]. destruct r as [conds|e]; cbn [observed l4_evidence].
  - destruct (decisive conds) as [[c [] ]|] eqn:Hdec.
    + apply decisive_some in Hdec as Hcomp. rewrite has_condition_true in Hcomp. rewrite Hcomp.
      rewrite (proj1 (decisive_ended conds)) by by rewrite Hdec.
      rewrite bool_decide_eq_true_2 by done. rewrite orb_true_r.
      replace (match ph with Released => Released | _ => Over end) with Over
        by (destruct ph, confirmed; cbn in Hph; set_solver).
      assert (∀ ph' rp0, asked rp0 = false → ph' = (if rel then Released else Over) →
        wp_ (deleteJob E (smoke_name job id)) (PS false (Exec id false ph' true) rp0 false)
          (λ _ s', l4_post id rel success s')) as Hdel.
      { intros ph' rp0 Hrp0 ->. use (kube_delete_spec id false); [destruct rel; set_solver|done|]. intros _ s' Hs'.
        right. eexists _, _. split; [exact Hs'|]. by destruct rel. }
      wp. destruct rel.
      * use markExecutionTerminal_spec; [set_solver|done|]. intros _ s' (rp2 & -> & Hrp2). wp.
        use Hdel; [done|done|]. intros _ s' Hs'. by wp.
      * wp. use Hdel; [done|done|]. intros _ s' Hs'. by wp.
    + apply decisive_some in Hdec as Hfail. rewrite has_condition_true in Hfail.
      rewrite (proj1 (decisive_ended conds)) by by rewrite Hdec.
      replace (match ph with Released => Released | _ => Over end) with Over
        by (destruct ph, confirmed; cbn in Hph; set_solver).
      pose proof (failed_not_complete _ Hr Hfail) as Hc.
      wp. use classify_failed_spec; [done|]. intros o s' [(rp2 & -> & Hrp2) Ho].
      wp. use markExecutionTerminal_spec; [set_solver|done|]. intros _ s' (rp3 & -> & Hrp3).
      wp. use (kube_delete_spec id false); [set_solver|done|]. intros _ s' Hs'.
      wp. eapply l4_post_failed; [by rewrite Ho, has_condition_true, Hc|exact Hs'].
    + rewrite not_ended by done. apply Hagain; [done|]. destruct ph, confirmed; cbn in Hph |- *; set_solver.
  - rewrite orb_false_r. destruct (is_api ApiNotFound e) eqn:He.
    + destruct confirmed; cbn [andb negb].
      * wp. replace (match ph with Present | Deleting => Over | ph => ph end) with Over
          by (destruct ph; cbn in Hph; set_solver).
        use markExecutionTerminal_spec; [set_solver|done|]. intros _ s' Hs'. wp.
        by eapply l4_post_failed.
      * destruct Hph as [-> ->]. wp. use (createSmokeJob_spec id false); [done|].
        intros [o|] s' (ph' & l4' & Hs' & H); [wp; by eapply l4_post_failed|].
        destruct Hs' as (rp2 & -> & Hrp2). by apply Hagain.
    + cbn [andb]. wp. eapply l4_post_failed; [done|by exists rp'].
Qed.

Lemma lost_get c name s (Q : res error (list jobCondition) → pstate → Prop) :
  c = AttemptCtx → p_lost s = true → Q (Err CtxCanceled) s → wp_ (kube_get E c name) s Q.
Proof. intros -> Hl HQ. by apply wpm_api_lost. Qed.

Lemma smoke_loop_lost fuel J spec rel confirmed s :
  p_lost s = true → wp_ (smoke_loop E wk rounds fuel J spec rel confirmed) s (λ _ s', s' = s).
Proof.
  intros Hl. induction fuel as [|fuel IH]; cbn [smoke_loop]; unfold smoke_done; wp.
  - rewrite Hl. by wp.
  - destruct ev; wp.
    + rewrite Hl. by wp.
    + use heartbeat_lost; [done|]. by intros _ s' ->.
    + unfold smoke_poll. wp. apply lost_get; [done..|].
      change (is_api ApiNotFound CtxCanceled) with false. cbn [andb]. by wp.
Qed.

Lemma smoke_loop_spec fuel id rel confirmed ph l4 rp :
  asked rp = false → known_phase confirmed ph l4 →
  wp_ (smoke_loop E wk rounds fuel (set_ExecutionID id job) (buildSmokeJobSpec (set_ExecutionID id job)) rel confirmed)
    (PS false (Exec id false ph l4) rp false) (l4_post id rel).
Proof.
  revert confirmed ph l4 rp. induction fuel as [|fuel IH]; intros confirmed ph l4 rp Hrp Hph;
    (assert (ph ∉ [Adopted; Ambiguous; Released]) as Hnr by (destruct confirmed; cbn in Hph; set_solver));
    cbn [smoke_loop]; [by apply smoke_done_spec|].
  wp. destruct ev.
  - by apply smoke_done_spec.
  - wp. use heartbeat_spec; [apply same_job_set|]. intros _ s' [->| ->].
    + use smoke_loop_lost; [done|]. intros o s' ->. by left.
    + apply IH; [by destruct rp|done].
  - apply smoke_poll_spec; [done..|]. intros. by apply IH.
Qed.

Lemma runSmokeRun_spec id (adopted rel : bool) rp :
  asked rp = false →
  wp_ (runSmokeRun E wk rounds (set_ExecutionID id job) (buildSmokeJobSpec (set_ExecutionID id job)) adopted rel)
    (PS false (Exec id false (if adopted then Unseen else Unused) false) rp false) (l4_post id rel).
Proof.
  intros Hrp. unfold runSmokeRun. destruct adopted; [by apply smoke_loop_spec|].
  wp. use (createSmokeJob_spec id true); [done|]. intros [o|] s' (ph & l4 & Hs' & H).
  - wp. by eapply l4_post_failed.
  - destruct Hs' as (rp' & -> & Hrp'). by apply smoke_loop_spec.
Qed.

End Stages.
