(* ===== verification/Process.v ===== *)
(** * Process: an attempt keeps to the protocol

    L5-a, L5-b, finishAfterL4 and process against the automaton of Protocol.v,
    and what that means for the actions of an attempt. *)

From S2P Require Import Prelude GoTime Errors Work Db Fingerprint Store StoreSpec StoreRun StoreStep.
From S2P Require Import Retry Names Failure World Worker Pipeline Protocol Attempt Stages.

Section Attempts.
Context {SO : SqlOrder} {AJ : ActionsJson} {DJ : DeliveryJson}.
Context (E : nat → step_env) (wk : worker) (job : Job) (rounds : nat).
Context (valid_label_value : string → bool) (float_overflow : Z → Z).

#[local] Abbreviation wp_ := (wpm wk job).
#[local] Abbreviation jobx id := (set_ExecutionID id job).

(** *** L5-a *)

Lemma reconcile_create_spec k first id rp :
  l5a_follows wk job = true → asked rp = false →
  wp_ (reconcile_create E k first (buildL5aJobSpec (jobx id))) (PS false (Exec id true Ambiguous true) rp false)
    (λ b s', live (Exec id true (if b : bool then Present else Ambiguous) true) s').
Proof.
  intros Hf. revert first rp. induction k as [|k IH]; intros first rp Hrp; cbn [reconcile_create];
    [wp; by exists rp|].
  assert (∀ ev : select_event, wp_ match ev with
     | EvDone _ => mret false
     | _ => r ← kube_create E AttemptCtx false (buildL5aJobSpec (jobx id));
            match r with Ok _ => mret true
            | Err e => if is_api ApiAlreadyExists e then mret true
                       else reconcile_create E k false (buildL5aJobSpec (jobx id)) end
     end (PS false (Exec id true Ambiguous true) rp false)
     (λ b s', live (Exec id true (if b : bool then Present else Ambiguous) true) s')) as Hround.
  { intros ev.
    assert (wp_ (r ← kube_create E AttemptCtx false (buildL5aJobSpec (jobx id));
      match r with Ok _ => mret true
      | Err e => if is_api ApiAlreadyExists e then mret true
                 else reconcile_create E k false (buildL5aJobSpec (jobx id)) end)
      (PS false (Exec id true Ambiguous true) rp false)
      (λ b s', live (Exec id true (if b : bool then Present else Ambiguous) true) s')) as Hc.
    { wp. use kube_create_l5a_spec; [done|set_solver|by left|done|]. intros [[]|e] s'; cbn [error_of created].
      - intros Hs'. by wp.
      - destruct (is_api ApiAlreadyExists e); [intros Hs'; by wp|].
        destruct (refused e); cbn [andb negb bool_decide];
          rewrite ?bool_decide_eq_true_2 by done; intros (rp' & -> & Hrp'); by apply IH. }
    destruct ev; [wp; by exists rp|exact Hc..]. }
  apply wpm_bind. destruct first; [apply wpm_ret, (Hround EvPoll)|apply wpm_select; apply Hround].
Qed.

(** The L5-a Job was seen, or its identity released. *)
Definition after_l4 (id : string) (s : pstate) : Prop :=
  p_lost s = true ∨ ∃ ph, live (Exec id true ph true) s ∧ (seen_phase ph ∨ ph = Released).

Lemma l5a_done_spec id ph rp :
  asked rp = false → ph ∈ [Present; Over] →
  wp_ (l5a_done E rounds (jobx id) (l5a_name job id)) (PS false (Exec id true ph true) rp false)
    (λ _ s', after_l4 id s').
Proof.
  intros Hrp Hph. unfold l5a_done. wp.
  use (deleteAndConfirmGone_spec E wk job rounds id true); [done|set_solver|].
  intros r s' (ph' & l4' & Hs' & Hph' & Hl4 & Hr).
  rewrite Hl4 in Hs' by done. destruct r as [[]|e]; wp; [|right; exists ph'; auto].
  destruct Hs' as (rp' & -> & Hrp'). rewrite Hr by done.
  use markExecutionTerminal_spec; [set_solver|done|]. intros _ s' Hs'. wp. right. exists Released. auto.
Qed.

Lemma waitL5aJob_lost fuel J name s :
  p_lost s = true → wp_ (waitL5aJob E wk rounds fuel J name) s (λ _ s', p_lost s' = true).
Proof.
  intros Hl. induction fuel as [|fuel IH]; cbn [waitL5aJob]; unfold l5a_done; wp.
  - rewrite Hl. by wp.
  - destruct ev; wp.
    + rewrite Hl. by wp.
    + use heartbeat_lost; [done|]. by intros _ s' ->.
    + unfold l5a_poll. wp. apply lost_get; [done..|]. by wp.
Qed.

Lemma waitL5aJob_spec fuel id ph rp :
  asked rp = false → ph ∈ [Present; Over] →
  wp_ (waitL5aJob E wk rounds fuel (jobx id) (l5a_name job id)) (PS false (Exec id true ph true) rp false)
    (λ _ s', after_l4 id s').
Proof.
  revert ph rp. induction fuel as [|fuel IH]; intros ph rp Hrp Hph; cbn [waitL5aJob];
    [by apply l5a_done_spec|].
  wp. destruct ev.
  - by apply l5a_done_spec.
  - wp. use heartbeat_spec; [apply same_job_set|]. intros _ s' [->| ->].
    + use waitL5aJob_lost; [done|]. intros r s' Hs'. by left.
    + apply IH; [by destruct rp|done].
  - unfold l5a_poll, extractPodExitCode_call. wp.
    use (kube_get_spec E wk job AttemptCtx id true); [intros ->; set_solver|done|].
    intros [conds|e] s' [(rp' & -> & Hrp') _]; cbn [observed orb].
    + replace (match ph with Released => Released | _ =>
        if ended conds then Over else Present end)
        with (if ended conds then Over else Present) by (destruct ph; set_solver).
      destruct (decisive conds) as [[c [] ]|] eqn:Hdec;
        [rewrite (proj1 (decisive_ended conds)) by by rewrite Hdec..|rewrite not_ended by done].
      * wp. use markExecutionTerminal_spec; [set_solver|done|]. intros _ s' Hs'. wp. right. exists Released. auto.
      * wp. use kube_list_pods_spec; [done|]. intros pods s' (rp2 & -> & Hrp2). wp.
        use kube_list_pods_spec; [done|]. intros pods' s' (rp3 & -> & Hrp3). wp.
        use markExecutionTerminal_spec; [set_solver|done|]. intros _ s' Hs'. wp. right. exists Released. auto.
      * apply IH; [done|]. set_solver.
    + wp. right. eexists. split; [by exists rp'|]. left.
      unfold seen_phase. destruct (is_api ApiNotFound e), ph; set_solver.
Qed.

(** The lease is lost, or the stage is over: L4 is known to have succeeded and
    the terminal slot was asked for as given. *)
Definition stage_done (id : string) (b : bool) (s : pstate) : Prop :=
  p_lost s = true ∨ ∃ l5a ph rp, s = PS false (Exec id l5a ph true) rp false ∧ asked rp = b.

Lemma submit_stage_done id l5a ph rp sub :
  asked rp = false →
  wp_ (submitCheckRecord E wk (jobx id) sub) (PS false (Exec id l5a ph true) rp false)
    (λ _ s', stage_done id (terminal sub) s').
Proof.
  intros Hrp. use submitCheckRecord_spec; [apply same_job_set|done|].
  intros _ s' [Hs'|(r' & -> & Hr')]; [by left|right; by exists l5a, ph, r'].
Qed.

Lemma l5a_observe_spec id checkID_ (t : bool) ph rp :
  asked rp = false → ph ∈ [Present; Over] →
  wp_ (l5a_observe E wk rounds (jobx id) checkID_ (l5a_name job id) t)
    (PS false (Exec id true ph true) rp false) (λ _ s', stage_done id t s').
Proof.
  intros Hrp Hph. unfold l5a_observe. wp. use waitL5aJob_spec; [done..|].
  intros [[code result] runErr] s' Hs'. wp. destruct Hs' as [Hl|(ph' & (rp' & -> & Hrp') & Hph')].
  { rewrite Hl. wp. by left. }
  cbn [p_lost]. wp. use (kube_delete_spec E wk job id true);
    [unfold seen_phase in Hph'; set_solver|done|]. intros _ s' (rp2 & -> & Hrp2).
  destruct runErr; [unfold noteClassification; wp; apply inc_spec; unfold l5aFailureSubmission;
    destruct (wireStatus (o_class result))|]; by apply submit_stage_done.
Qed.

Lemma l5a_not_created_spec id checkID_ (t : bool) noted reason ph rp :
  asked rp = false →
  wp_ (l5a_not_created E wk (jobx id) checkID_ t noted reason) (PS false (Exec id true ph true) rp false)
    (λ _ s', stage_done id t s').
Proof.
  intros Hrp. unfold l5a_not_created, noteClassification. wp. apply inc_spec. by apply submit_stage_done.
Qed.

(** L5-a starts once the L4 Job is over, or on an L5-a Job that was found. *)
Definition l5a_ready (l5a : bool) (ph : exec_phase) : Prop :=
  l5a_follows wk job = true ∧ if l5a then ph ∈ [Present; Over] else ph = Over.

Lemma runL5a_spec id (t l5a : bool) ph rp :
  asked rp = false → (vaultClient wk = true → l5a_ready l5a ph) →
  wp_ (runL5a E wk rounds (jobx id) t) (PS false (Exec id l5a ph true) rp false)
    (λ _ s', stage_done id (vaultClient wk && t) s').
Proof.
  intros Hrp Hph. unfold runL5a. destruct (vaultClient wk); cbn [negb andb];
    [|wp; right; by exists l5a, ph, rp].
  specialize (Hph eq_refl). destruct Hph as [Hf Hph].
  assert (ph ∈ [Present; Over] ∧ (l5a = true ∨ ph = Over)) as [Hph1 Hph2]
    by (destruct l5a; [auto|subst; set_solver]).
  wp. use kube_create_l5a_spec; [done|set_solver|done|done|].
  intros [[]|e] s' (rp' & -> & Hrp'); cbn [error_of created]; [apply l5a_observe_spec; set_solver|].
  destruct (is_api ApiAlreadyExists e); [apply l5a_observe_spec; set_solver|].
  rewrite createRejected_refused. destruct (refused e).
  - rewrite bool_decide_eq_false_2 by (intros ->; set_solver). cbn [andb negb].
    wp. use markExecutionTerminal_spec; [set_solver|done|]. intros _ s' (rp2 & -> & Hrp2).
    by apply l5a_not_created_spec.
  - wp. use reconcile_create_spec; [done..|]. intros [] s' (rp2 & -> & Hrp2).
    + apply l5a_observe_spec; set_solver.
    + by apply l5a_not_created_spec.
Qed.

(** *** L5-b *)

Lemma runL5b_spec id l5a ph rp :
  asked rp = false →
  wp_ (runL5b E wk float_overflow (jobx id)) (PS false (Exec id l5a ph true) rp false)
    (λ _ s', stage_done id (vaultClient wk) s').
Proof.
  intros Hrp.
  assert (∀ rp s src pol, asked rp = false →
    wp_ (submit_scan E wk (jobx id) (scan_record (jobx id) s src pol))
      (PS false (Exec id l5a ph true) rp false) (λ _ s', stage_done id true s')) as Hsubmit.
  { intros rp' s src pol Hrp'. use submit_scan_spec; [apply same_job_set|done|done|done|].
    intros _ s' [Hs'|(r' & -> & Hr')]; [by left|right; by exists l5a, ph, r']. }
  unfold runL5b, submitNotAvailableScanRecord.
  destruct (vaultClient wk); cbn [negb]; [|wp; right; by exists l5a, ph, rp].
  destruct (dynamicKube wk); cbn [negb]; [|by apply Hsubmit].
  wp. use kube_list_reports_spec; [done|]. intros [items|e] s' (rp' & -> & Hrp'); [|by apply Hsubmit].
  destruct (matching_report _ _ _) as [s|]; [|by apply Hsubmit].
  destruct (bool_decide (Scanner s = "")); by apply Hsubmit.
Qed.

(** *** The end of an attempt *)

Lemma optional_stage_spec id planned run m1 m2 b l5a ph rp :
  (planned = true → asked rp = false ∧
     wp_ run (PS false (Exec id l5a ph true) Checked false) (λ _ s', stage_done id b s')) →
  wp_ (optional_stage E wk (jobx id) planned run m1 m2) (PS false (Exec id l5a ph true) rp false)
    (λ res s', match res with
     | None => p_lost s' = true
     | Some _ => ∃ l5a' ph' rp', s' = PS false (Exec id l5a' ph' true) rp' false ∧
         if planned then asked rp' = b else rp' = rp
     end).
Proof.
  intros Hrun. unfold optional_stage. destruct planned; cbn [negb]; [|wp; by exists l5a, ph, rp].
  destruct (Hrun eq_refl) as [Hrp Hr]. wp. use stillLeased_spec; [apply same_job_set|].
  intros [] s' Hs'; cbn [negb]; [|by wp]. rewrite check_report_unasked in Hs' by done. subst s'.
  wp. use Hr. intros e s' [Hl|(l5a' & ph' & rp' & -> & Hb)]; wp; [by rewrite Hl; wp|].
  cbn [p_lost]. wp. apply inc_spec. wp. by exists l5a', ph', rp'.
Qed.

Lemma complete_job_spec id l5a ph rp summary :
  implb (vaultClient wk) (asked rp) = true →
  wp_ (complete_job E wk (jobx id) summary) (PS false (Exec id l5a ph true) rp false) ends.
Proof.
  intros Hrp. unfold complete_job. wp.
  apply wpm_store with (s' := λ _, PS false (Exec id l5a ph true) rp true); [done|].
  intros r. split; [cbn; rewrite bool_decide_eq_true_2 by done; by rewrite Hrp|].
  split; [done|]. destruct r; [by apply inc_spec|by wp].
Qed.

(** A planned L5-a needs the identity; the last stage takes the terminal slot. *)
Lemma finishAfterL4_spec id plan l5a ph rp :
  (runL5a_ plan = true → vaultClient wk = true → l5a_ready l5a ph) →
  asked rp = vaultClient wk && negb (runL5a_ plan || runL5b_ plan) →
  wp_ (finishAfterL4 E wk rounds float_overflow (jobx id) plan (runL5a_ plan && negb (runL5b_ plan)))
    (PS false (Exec id l5a ph true) rp false) ends.
Proof.
  intros Hph Hrp. unfold finishAfterL4. wp.
  use (optional_stage_spec id (runL5a_ plan) _ _ _ (vaultClient wk && negb (runL5b_ plan))).
  { intros Hp. rewrite Hp in Hrp |- *. cbn [orb negb andb] in Hrp |- *. rewrite andb_false_r in Hrp.
    split; [done|]. apply runL5a_spec; auto. }
  intros [l5aErr|] s' Hs'; [|by wp]. destruct Hs' as (l1 & ph1 & rp1 & -> & H1).
  assert (asked rp1 = vaultClient wk && negb (runL5b_ plan)) as Hrp1.
  { destruct (runL5a_ plan); [done|]. by subst. }
  wp. use (optional_stage_spec id (runL5b_ plan) _ _ _ (vaultClient wk)).
  { intros Hp. rewrite Hp, andb_false_r in Hrp1. split; [done|]. by apply runL5b_spec. }
  intros [l5bErr|] s' Hs'; [|by wp]. destruct Hs' as (l2 & ph2 & rp2 & -> & H2).
  apply complete_job_spec.
  assert (asked rp2 = vaultClient wk) as Hrp2.
  { destruct (runL5b_ plan); [done|]. subst. by rewrite Hrp1, andb_true_r. }
  rewrite Hrp2. by destruct (vaultClient wk).
Qed.

Lemma finishAfterL4_lost id plan last s :
  p_lost s = true →
  wp_ (finishAfterL4 E wk rounds float_overflow (jobx id) plan last) s ends.
Proof.
  intros Hl.
  assert (∀ planned run m1 m2, wp_ (optional_stage E wk (jobx id) planned run m1 m2) s (λ _ s', s' = s)) as Hopt.
  { intros planned run m1 m2. unfold optional_stage. destruct planned; cbn [negb]; [|by wp].
    wp. use stillLeased_lost; [done|]. intros _ s' [-> ->]. cbn [negb]. by wp. }
  unfold finishAfterL4. wp. use Hopt. intros [e1|] s' ->; [|by wp].
  wp. use Hopt. intros [e2|] s' ->; [|by wp]. unfold complete_job. wp. rewrite Hl. by wp.
Qed.

(** *** An attempt *)

Context (Hexcl : conditions_exclusive E).

Lemma failed_spec id x rp st cmd class what e :
  asked rp = false →
  wp_ (failed E wk (jobx id) st cmd class what e) (PS false x rp false) ends.
Proof. intros Hrp. unfold failed. by apply fail_attempt_spec; [apply same_job_set|]. Qed.

Lemma failed_spec0 x rp st cmd class what e :
  asked rp = false → wp_ (failed E wk job st cmd class what e) (PS false x rp false) ends.
Proof. intros Hrp. unfold failed. by apply fail_attempt_spec; [apply same_job_refl|]. Qed.

Context (plan : stagePlan) (Hplan : planStages (RequestedActions job) = Ok plan).

Lemma l5a_follows_plan : l5a_follows wk job = runL5a_ plan && vaultClient wk.
Proof. unfold l5a_follows. by rewrite Hplan. Qed.

Lemma run_l4_spec id (adopted l5aFollows : bool) rp :
  asked rp = false → l5aFollows = runL5a_ plan && vaultClient wk →
  wp_ (run_l4 E wk rounds float_overflow (jobx id) plan adopted l5aFollows)
    (PS false (Exec id false (if adopted then Unseen else Unused) false) rp false) ends.
Proof.
  intros Hrp ->. unfold run_l4. wp. use runSmokeRun_spec; [done..|].
  intros o s' [Hl|(ph & l4 & (rp' & -> & Hrp') & Ho)]; wp; [by rewrite Hl; wp|].
  cbn [p_lost]. destruct (o_success o); cbn [negb].
  - destruct (Ho eq_refl) as [-> ->].
    assert (runL5a_ plan = true → vaultClient wk = true →
      l5a_ready false (if negb (runL5a_ plan && vaultClient wk) then Released else Over)) as Hph.
    { intros Hp Hv. split; [by rewrite l5a_follows_plan, Hp, Hv|by rewrite Hp, Hv]. }
    wp. destruct (negb (runL5a_ plan) && negb (runL5b_ plan)) eqn:Hnone;
      rewrite <- negb_orb in Hnone.
    + use reportTerminalSuccess_spec; [apply same_job_set|done|].
      intros _ s' [Hl|(r' & -> & Hr')]; [by apply finishAfterL4_lost|].
      apply finishAfterL4_spec; [done|]. by rewrite Hr', Hnone, andb_true_r.
    + wp. apply finishAfterL4_spec; [done|]. by rewrite Hnone, andb_false_r.
  - by apply fail_attempt_spec; [apply same_job_set|].
Qed.

Lemma run_l3_spec id (adopted l5aFollows : bool) rp :
  asked rp = false → l5aFollows = runL5a_ plan && vaultClient wk →
  wp_ (run_l3 E wk rounds float_overflow (jobx id) plan adopted l5aFollows)
    (PS false (Exec id false (if adopted then Unseen else Unused) false) rp false) ends.
Proof.
  intros Hrp Hf. unfold run_l3. destruct adopted; [by apply run_l4_spec|].
  unfold runDryRun, kube_create. wp.
  apply wpm_api with (s' := λ _, PS false (Exec id false Unused false) Idle false); [done|].
  intros r Hans. split; [cbn; rewrite bool_decide_eq_true_2 by done; by destruct rp|]. split; [done|].
  destruct r as [[]|e]; [by apply (run_l4_spec id false)|].
  wp. use markExecutionTerminal_spec; [set_solver|done|]. intros _ s' (rp' & -> & Hrp').
  by apply failed_spec.
Qed.

Lemma run_execution_spec id (adopted : bool) rp :
  asked rp = false →
  wp_ (run_execution E wk rounds float_overflow job plan id adopted)
    (PS false (Exec id false (adopted_phase wk job adopted) false) rp false) ends.
Proof.
  intros Hrp. unfold run_execution, adopted_phase. rewrite l5a_follows_plan.
  destruct adopted; cbn [andb]; [|by apply (run_l3_spec id false)].
  pose proof (λ rp Hrp, run_l3_spec id true (runL5a_ plan && vaultClient wk) rp Hrp eq_refl) as Hl3.
  destruct (runL5a_ plan && vaultClient wk) eqn:Hf; [|by apply Hl3].
  wp. use (jobExists_adopted E wk job); [done|]. intros [[]|e] s' Hs'.
  - destruct Hs' as (ph & (rp' & -> & Hrp') & Hph).
    apply finishAfterL4_spec; [by split; [rewrite l5a_follows_plan|]|].
    apply andb_true_iff in Hf as [-> _]. by rewrite andb_false_r.
  - destruct Hs' as (rp' & -> & Hrp'). by apply Hl3.
  - destruct Hs' as (ph & rp' & -> & Hrp'). by apply failed_spec.
Qed.

Lemma ensure_execution_spec rp :
  asked rp = false →
  wp_ (ensure_execution E wk rounds float_overflow job plan) (PS false NoExecution rp false) ends.
Proof.
  intros Hrp. unfold ensure_execution. wp.
  apply wpm_store with (s' := λ r, match r with
    | Ok (x, adopted) => PS false (Exec x false (adopted_phase wk job adopted) false) Idle false
    | Err _ => PS false NoExecution Idle false end); [done|].
  intros r. split.
  { cbn. rewrite bool_decide_eq_true_2 by done. destruct rp, r as [[x []]|]; done. }
  split; [by destruct r as [[]|]|].
  destruct r as [[x adopted]|e]; [by apply run_execution_spec|by apply failed_spec0].
Qed.

End Attempts.

Section Whole.
Context {SO : SqlOrder} {AJ : ActionsJson} {DJ : DeliveryJson}.
Context (E : nat → step_env) (wk : worker) (job : Job) (rounds : nat).
Context (valid_label_value : string → bool) (float_overflow : Z → Z).
Context (Hexcl : conditions_exclusive E).

#[local] Abbreviation wp_ := (wpm wk job).

(** What follows once the fresh context is in place. *)
Lemma process_body_spec :
  wp_ (match planStages (RequestedActions job) with
    | Err e => failed E wk job StageL3 "validate requested_actions" FailureClassDeterministic
                 "invalid requested_actions" e
    | Ok plan =>
        if bool_decide (ExecutionID job = "") then
          r ← retireLegacyExecutions E wk valid_label_value rounds job;
          match r with
          | Err e => lost ← leaseLost;
              if lost : bool then mret tt
              else failed E wk job StageL3 "retire legacy execution" FailureClassTransientInfra
                     "retire legacy execution" e
          | Ok _ => ensure_execution E wk rounds float_overflow job plan
          end
        else ensure_execution E wk rounds float_overflow job plan
    end) p_init ends.
Proof.
  destruct (planStages _) as [plan|e] eqn:Hplan; [|by apply failed_spec0].
  destruct (bool_decide (ExecutionID job = "")); [|by apply ensure_execution_spec].
  wp. use retireLegacyExecutions_spec; [done|]. intros [[]|e] s' Hs'.
  - destruct Hs' as (rp & -> & Hrp). by apply ensure_execution_spec.
  - wp. destruct Hs' as [Hl|(rp & -> & Hrp)]; [by rewrite Hl; wp|by apply failed_spec0].
Qed.

Lemma process_prun w :
  w_trace w = [] →
  is_Some (prun wk job (w_trace (process E wk valid_label_value rounds float_overflow job w).2)).
Proof.
  intros Htr. unfold process. unfold mbind at 1, W_bind at 1. cbn [set_lost].
  destruct (process_body_spec (World (w_db w) false (w_step w) (w_trace w))) as (s' & [Hs' _] & _).
  - split; [by cbn; rewrite Htr|done].
  - by eexists.
Qed.

End Whole.
