(* ===== verification/AttemptSafe.v ===== *)
(** * AttemptSafe: what an attempt never does

    The consequences of the protocol, in terms of the actions of process and
    what precedes each of them. *)

From S2P Require Import Prelude GoTime Errors Work Db Fingerprint Store StoreSpec StoreRun StoreStep.
From S2P Require Import Retry Names Failure World Worker Pipeline Protocol Attempt Stages Process.
From S2P Require Import Instances RowInv RowRead Samples.

(** ** Reading a trace *)

(** A heartbeat was answered that the lease is gone. *)
Definition lease_lost_in (h : list action) : Prop :=
  ∃ id w n ttl e, AStore (OpHeartbeat id w n ttl) (Some e) ∈ h ∧ errors_is e ErrNotFound = true.

(** [a] was done when [h] had already been done. *)
Definition did_after (tr : list action) (a : action) (h : list action) : Prop := a :: h `suffix_of` tr.

Definition terminal_record (a : action) : bool :=
  match a with
  | ASubmitCheck r _ => cr_Terminal r
  | ASubmitScan r _ => sr_Terminal r
  | _ => false
  end.

Definition report_sent (a : action) : bool :=
  match a with ASubmitCheck _ _ | ASubmitScan _ _ => true | _ => false end.

(** The terminal slot was asked for, and with which answers. *)
Definition claim_asked (h : list action) : Prop := ∃ id w n r, AClaim id w n r ∈ h.
Definition claim_granted (id w : string) (n : Z) (h : list action) : Prop :=
  ∃ r, AClaim id w n r ∈ h ∧ r ≠ Ok false.
Definition lease_checked (id w : string) (n : Z) (h : list action) : Prop :=
  ∃ ttl e, AStore (OpHeartbeat id w n ttl) e ∈ h ∧ lease_gone e = false.

(** The job was closed, by a call the store got. *)
Definition closes (a : action) : bool :=
  match a with
  | AStore (OpFailJob _ _ _ _ _ _) e | AStore (OpCompleteJob _ _ _ _) e => negb (cancelled e)
  | _ => false
  end.

Definition rejected (e : option error) : bool :=
  match e with Some e => refused e | None => false end.

Section Traces.
Context {DJ : DeliveryJson}.
Context (wk : worker) (job : Job).

(** A Job of execution [x] is known to have been persisted, or was deleted. *)
Definition seen_or_deleted (x : string) (h : list action) : Prop :=
  (∃ name conds, AGet name (Ok conds) ∈ h ∧ own_name job x name = true) ∨
  (∃ name e, ADelete name e ∈ h ∧ own_name job x name = true) ∨
  (∃ spec e, ACreate false spec e ∈ h ∧ (e = None ∨ ∃ e', e = Some e' ∧ is_api ApiAlreadyExists e' = true)).

(** [b], done after [h], is taken to mean that no Job of execution [x] runs: a
    lookup finds one finished, or finds none after one was seen or deleted; or
    the Create of the L5-a Job, which follows L4, is rejected. *)
Definition taken_for_end (x : string) (b : action) (h : list action) : Prop :=
  match b with
  | AGet name (Ok conds) => own_name job x name = true ∧ ended conds = true
  | AGet name (Err e) => own_name job x name = true ∧ is_api ApiNotFound e = true ∧ seen_or_deleted x h
  | ACreate false spec e => spec = buildL5aJobSpec (set_ExecutionID x job) ∧ rejected e = true
  | _ => False
  end.

Definition no_create (h : list action) : Prop :=
  ∀ spec e, ACreate false spec e ∈ h → rejected e = true.

(** The grounds on which an identity is released: this attempt minted it and
    created nothing, or the end of a Job was taken for granted and nothing was
    created since. *)
Definition release_ground (x : string) (h : list action) : Prop :=
  (∃ id, AEnsure id (Ok (x, false)) ∈ h ∧ no_create h) ∨
  (∃ h2 b h1, h = h2 ++ b :: h1 ∧ taken_for_end x b h1 ∧ no_create h2).

(** L4 was seen to succeed: its Job is complete, or the L5-a Job exists. *)
Definition l4_succeeded (x : string) (h : list action) : Prop :=
  ∃ name r, AGet name r ∈ h ∧ l4_evidence job x name r = true.


Definition no_mark (h : list action) : Prop :=
  ∀ id x e, AStore (OpMarkExecutionTerminal id x) e ∉ h.

Definition one_identity (x : string) (h : list action) : Prop :=
  (∃ id adopted, AEnsure id (Ok (x, adopted)) ∈ h) ∧
  ∀ id x' adopted, AEnsure id (Ok (x', adopted)) ∈ h → x' = x.

(** ** What the automaton's state says of the trace *)

Definition exec_says (x : string) (ph : exec_phase) (l4 : bool) (h : list action) : Prop :=
  one_identity x h ∧ (l4 = true → l4_succeeded x h) ∧ (ph ≠ Released → no_mark h) ∧
  match ph with
  | Unused => ∃ id, AEnsure id (Ok (x, false)) ∈ h ∧ no_create h
  | Present | Deleting => seen_or_deleted x h
  | Over => release_ground x h
  | Adopted | Unseen | Ambiguous | Released => True
  end.

Definition execution_inv (h : list action) (s : pstate) : Prop :=
  p_lost s = false →
  match p_exec s with
  | NoExecution => no_mark h ∧ (∀ id x adopted, AEnsure id (Ok (x, adopted)) ∉ h) ∧
                   (∀ spec e, ACreate false spec e ∉ h)
  | Exec x _ ph l4 => exec_says x ph l4 h
  end.

Lemma seen_or_deleted_cons x a h : seen_or_deleted x h → seen_or_deleted x (a :: h).
Proof.
  intros [(n & c & H & Ho)|[(n & e & H & Ho)|(sp & e & H & He)]];
    [left; exists n, c|right; left; exists n, e|right; right; exists sp, e];
    (split; [by right|done]).
Qed.

Lemma l4_succeeded_cons x a h : l4_succeeded x h → l4_succeeded x (a :: h).
Proof. intros (n & r & H & He). exists n, r. split; [by right|done]. Qed.

Lemma one_identity_cons x a h :
  (∀ id x' ad, a ≠ AEnsure id (Ok (x', ad))) → one_identity x h → one_identity x (a :: h).
Proof.
  intros Ha [(id & ad & H) Hu]. split; [exists id, ad; by right|].
  intros id' x' ad' [He|Hin]%elem_of_cons; [by edestruct Ha|eauto].
Qed.

Lemma no_mark_cons a h :
  (∀ id x e, a ≠ AStore (OpMarkExecutionTerminal id x) e) → no_mark h → no_mark (a :: h).
Proof. intros Ha H id x e [He|Hin]%elem_of_cons; [by edestruct Ha|by eapply H]. Qed.

Lemma no_create_cons a h :
  (∀ spec e, a = ACreate false spec e → rejected e = true) → no_create h → no_create (a :: h).
Proof. intros Ha H spec e [He|Hin]%elem_of_cons; eauto. Qed.

Lemma release_ground_cons x a h :
  (∀ spec e, a = ACreate false spec e → rejected e = true) →
  release_ground x h → release_ground x (a :: h).
Proof.
  intros Ha [(id & Hin & Hn)|(h2 & b & h1 & -> & Hb & Hn)].
  - left. exists id. split; [by right|by apply no_create_cons].
  - right. exists (a :: h2), b, h1. split; [done|]. split; [done|by apply no_create_cons].
Qed.

Lemma release_ground_now x b h : taken_for_end x b h → release_ground x (b :: h).
Proof. intros Hb. right. exists [], b, h. split; [done|]. split; [done|]. intros ? ? []%not_elem_of_nil. Qed.

(** An action that is not a Create, a MarkExecutionTerminal or an
    EnsureExecution keeps what is known. *)
Definition plain (a : action) : bool :=
  match a with
  | AEnsure _ (Ok _) | ACreate false _ _ | AStore (OpMarkExecutionTerminal _ _) _ => false
  | _ => true
  end.

Lemma plain_not a : plain a = true →
  (∀ id x' ad, a ≠ AEnsure id (Ok (x', ad))) ∧
  (∀ id x e, a ≠ AStore (OpMarkExecutionTerminal id x) e) ∧ (∀ spec e, a ≠ ACreate false spec e).
Proof. intros Ha. split_and!; intros; intros ->; done. Qed.

Lemma exec_says_plain x ph l4 a h : plain a = true → exec_says x ph l4 h → exec_says x ph l4 (a :: h).
Proof.
  intros (Ha1 & Ha2 & Ha3)%plain_not (H1 & H2 & H3 & H4).
  assert (∀ spec e, a = ACreate false spec e → rejected e = true) as Ha4 by (intros; by edestruct Ha3).
  split; [by apply one_identity_cons|]. split; [intros Hl; apply l4_succeeded_cons; auto|].
  split; [intros Hp; apply no_mark_cons; auto|].
  destruct ph; try done; auto using seen_or_deleted_cons, release_ground_cons.
  destruct H4 as (id & Hin & Hn). exists id. split; [by right|by apply no_create_cons].
Qed.

Lemma no_execution_plain a h : plain a = true →
  (no_mark h ∧ (∀ id x adopted, AEnsure id (Ok (x, adopted)) ∉ h) ∧ (∀ spec e, ACreate false spec e ∉ h)) →
  no_mark (a :: h) ∧ (∀ id x adopted, AEnsure id (Ok (x, adopted)) ∉ a :: h) ∧
  (∀ spec e, ACreate false spec e ∉ a :: h).
Proof.
  intros (Ha1 & Ha2 & Ha3)%plain_not (H1 & H2 & H3). split; [by apply no_mark_cons|].
  split.
  - intros id x ad [He|Hin]%elem_of_cons; [by edestruct Ha1|by eapply H2].
  - intros sp e [He|Hin]%elem_of_cons; [by edestruct Ha3|by eapply H3].
Qed.

(** What a step can do to the execution, by kind. *)
Definition exec_step (a : action) (x : string) (l5a : bool) (ph : exec_phase) (l4 : bool)
    (ex : execution) : Prop :=
  (∃ e, a = AStore (OpMarkExecutionTerminal (JobID job) x) e ∧ ph ∈ [Unused; Over] ∧
     ex = Exec x l5a Released l4) ∨
  (∃ e, a = ACreate false (buildSmokeJobSpec (set_ExecutionID x job)) e ∧
     ph ∈ [Unused; Unseen] ∧ l5a = false ∧ ex = Exec x false (created false e ph) l4) ∨
  (∃ e, a = ACreate false (buildL5aJobSpec (set_ExecutionID x job)) e ∧
     ph ∉ [Released; Unused; Adopted; Unseen] ∧ (l5a = true ∨ ph = Over) ∧ l4 = true ∧
     l5a_follows wk job = true ∧ ex = Exec x true (created true e ph) l4) ∨
  (∃ r, a = AGet (l5a_name job x) r ∧ ph = Adopted ∧ ex = looked_for_l5a x r) ∨
  (∃ r, a = AGet (stage_name job x l5a) r ∧ ph ≠ Adopted ∧
     ex = Exec x l5a (observed r ph) (l4 || l4_evidence job x (stage_name job x l5a) r)) ∨
  (∃ e, a = ADelete (stage_name job x l5a) e ∧ ph ∉ [Adopted; Ambiguous] ∧
     ex = Exec x l5a (deleted ph) l4).

Lemma pstep_exec s a s' :
  pstep wk job s a = Some s' → p_lost s' = false →
  p_lost s = false ∧
  ((plain a = true ∧ p_exec s' = p_exec s) ∨
   (∃ id x adopted, a = AEnsure id (Ok (x, adopted)) ∧ p_exec s = NoExecution ∧
      p_exec s' = Exec x false (adopted_phase wk job adopted) false) ∨
   (∃ x l5a ph l4, p_exec s = Exec x l5a ph l4 ∧ p_closed s = false ∧ exec_step a x l5a ph l4 (p_exec s'))).
Proof.
  unfold pstep, exec_step. destruct (p_lost s) eqn:Hl.
  { destruct (harmless a); [|done]. intros [= <-]. congruence. }
  intros H Hl'. split; [done|]. destruct (p_closed s) eqn:Hcl.
  { left. destruct a; try done. by injection H as <-. }
  destruct a as [o e|id r|id w n r|dry spec e|name r|id r|name r|name e|r|r e|r e|m]; cbn [plain]; cbn beta iota in H.
  - destruct o; cbn in H; unfold with_exec, with_report, closing in H;
      repeat case_match; simplify_eq; try by (left; auto).
    match goal with H : bool_decide _ = true |- _ => apply bool_decide_eq_true_1 in H as (-> & -> & Hph) end.
    right. right. eexists _, _, _, _. do 2 (split; [done|]). left. eexists. by split_and!.
  - destruct (p_exec s) eqn:Hx; [|done]. destruct (bool_decide (id = JobID job)); [|done].
    destruct r as [[x ad]|e]; injection H as <-; [|by left].
    right. left. by exists id, x, ad.
  - unfold with_report in H. repeat case_match; simplify_eq; by left.
  - destruct (p_exec s) as [|x l5a ph l4] eqn:Hx; [done|].
    destruct dry; [case_bool_decide; [injection H as <-; by left|done]|].
    right. right. exists x, l5a, ph, l4. do 2 (split; [done|]).
    case_bool_decide as Hs.
    { injection H as <-. destruct Hs as (Hph & -> & ->). right. left. by exists e. }
    destruct l4; [|done]. destruct (l5a_follows wk job) eqn:Hf; [|done]. cbn [andb] in H.
    case_bool_decide as Hl5; [|done]. injection H as <-. destruct Hl5 as (Hph & Hst & ->). right. right. left. by exists e.
  - destruct (p_exec s) as [|x l5a ph l4] eqn:Hx; [injection H as <-; by left|].
    right. right. exists x, l5a, ph, l4. do 2 (split; [done|]).
    case_bool_decide as Hph.
    + case_bool_decide as Hn; [|done]. injection H as <-. do 3 right. left. subst. by exists r.
    + case_bool_decide as Hn; [|done]. injection H as <-. do 4 right. left. subst. by exists r.
  - destruct (p_exec s) eqn:Hx; injection H as <-; by left.
  - destruct (p_exec s) eqn:Hx; injection H as <-; by left.
  - destruct (p_exec s) as [|x l5a ph l4] eqn:Hx.
    { destruct (isLegacyJobName name (JobID job)); [injection H as <-; by left|done]. }
    case_bool_decide as Hn; [|done]. injection H as <-. destruct Hn as [Hph ->].
    right. right. exists x, l5a, ph, l4. do 2 (split; [done|]). do 5 right. by exists e.
  - destruct (p_exec s) eqn:Hx; injection H as <-; by left.
  - unfold submitted, with_report in H. repeat case_match; simplify_eq; by left.
  - unfold submitted, with_report in H. repeat case_match; simplify_eq; by left.
  - injection H as <-. by left.
Qed.

Lemma exec_says_l4 x ph l4 b h :
  exec_says x ph l4 h → (b = true → l4_succeeded x h) → exec_says x ph (l4 || b) h.
Proof.
  intros (H1 & H2 & H3 & H4) Hb. split; [done|]. split; [|done].
  intros [Hl|Hl]%orb_true_iff; auto.
Qed.

(** A new phase, known to hold after [a]. *)
Lemma exec_says_phase x ph ph' l4 a h :
  (∀ id x' ad, a ≠ AEnsure id (Ok (x', ad))) → (∀ id x e, a ≠ AStore (OpMarkExecutionTerminal id x) e) →
  ph ≠ Released → exec_says x ph l4 h →
  match ph' with
  | Unused => ∃ id, AEnsure id (Ok (x, false)) ∈ a :: h ∧ no_create (a :: h)
  | Present | Deleting => seen_or_deleted x (a :: h)
  | Over => release_ground x (a :: h)
  | Adopted | Unseen | Ambiguous | Released => True
  end → exec_says x ph' l4 (a :: h).
Proof.
  intros Ha Hm Hph (H1 & H2 & H3 & _) H. split; [by apply one_identity_cons|].
  split; [intros Hl; apply l4_succeeded_cons; auto|]. split; [intros _; apply no_mark_cons; auto|done].
Qed.

Lemma exec_says_create x ph l4 l5a spec e h :
  exec_says x ph l4 h → ph ≠ Released → (l5a = true → spec = buildL5aJobSpec (set_ExecutionID x job)) →
  exec_says x (created l5a e ph) l4 (ACreate false spec e :: h).
Proof.
  intros Hs Hph Hspec. apply exec_says_phase with (ph := ph); [done..|].
  assert (∀ e', e = None ∨ e = Some e' ∧ is_api ApiAlreadyExists e' = true →
    seen_or_deleted x (ACreate false spec e :: h)) as Hseen.
  { intros e' He. right. right. exists spec, e. split; [by left|].
    destruct He as [He|[He He']]; [by left|right; by exists e']. }
  destruct e as [e|]; cbn [created]; [|apply (Hseen ErrNotFound); by left].
  destruct (is_api ApiAlreadyExists e) eqn:Hex; [apply (Hseen e); by right|].
  destruct (refused e) eqn:Hrej; [|done].
  assert (rejected (Some e) = true) as Hr by exact Hrej.
  assert (∀ spec' e', ACreate false spec (Some e) = ACreate false spec' e' → rejected e' = true) as Ha
    by (by intros ? ? [= _ <-]).
  destruct Hs as (_ & _ & _ & Hs).
  destruct (l5a && negb (bool_decide (ph = Ambiguous))) eqn:Hl5.
  - apply andb_true_iff in Hl5 as [Hl5 _]. apply release_ground_now. by split; [apply Hspec|].
  - destruct ph; try done; auto using seen_or_deleted_cons, release_ground_cons.
    destruct Hs as (id & Hin & Hn). exists id. split; [by right|by apply no_create_cons].
Qed.

Lemma own_stage_name x l5a : own_name job x (stage_name job x l5a) = true.
Proof.
  unfold own_name. destruct l5a; cbn [stage_name].
  - rewrite (bool_decide_eq_true_2 (l5a_name job x = l5a_name job x)) by done. apply orb_true_r.
  - by rewrite (bool_decide_eq_true_2 (smoke_name job x = smoke_name job x)) by done.
Qed.

Lemma exec_says_get x ph l4 name r h :
  exec_says x ph l4 h → own_name job x name = true →
  exec_says x (observed r ph) (l4 || l4_evidence job x name r) (AGet name r :: h).
Proof.
  intros Hs Hn. apply exec_says_l4; [|intros Hev; exists name, r; split; [by left|done]].
  assert (exec_says x ph l4 (AGet name r :: h)) as Hkeep by by apply exec_says_plain.
  destruct r as [conds|e]; cbn [observed].
  - destruct (decide (ph = Released)) as [->|Hph]; [exact Hkeep|].
    assert (observed (Ok conds) ph = if ended conds then Over else Present) as Ho.
    { by destruct ph. }
    cbn [observed] in Ho. rewrite Ho. apply exec_says_phase with (ph := ph); [done..|].
    destruct (ended conds) eqn:Hd.
    + apply release_ground_now. cbn. by rewrite Hd.
    + left. exists name, conds. split; [by left|done].
  - destruct (is_api ApiNotFound e) eqn:He; [|exact Hkeep].
    pose proof Hs as (_ & _ & _ & Hs').
    destruct ph; try exact Hkeep; (eapply exec_says_phase; [done|done| |exact Hs|by apply release_ground_now]);
      done.
Qed.

Lemma exec_says_looked x l4 r h :
  exec_says x Adopted l4 h →
  match looked_for_l5a x r with
  | NoExecution => False
  | Exec x' _ ph l4 => x' = x ∧ exec_says x ph l4 (AGet (l5a_name job x) r :: h)
  end.
Proof.
  intros Hs. pose proof (exec_says_get x Adopted l4 (l5a_name job x) r h Hs (own_stage_name x true)) as Hg.
  destruct r as [conds|e]; cbn [looked_for_l5a]; (split; [done|]).
  - cbn [l4_evidence] in Hg. rewrite (bool_decide_eq_true_2 (l5a_name job x = l5a_name job x)) in Hg by done.
    by rewrite !orb_true_r in Hg.
  - destruct Hg as (H1 & _ & H3 & _). split; [done|]. split; [done|].
    split; [intros _; apply H3; cbn; by destruct (is_api ApiNotFound e)|].
    by destruct (is_api ApiNotFound e).
Qed.

Lemma exec_says_delete x ph l4 name e h :
  exec_says x ph l4 h → own_name job x name = true →
  exec_says x (deleted ph) l4 (ADelete name e :: h).
Proof.
  intros Hs Hn. assert (exec_says x ph l4 (ADelete name e :: h)) as Hkeep by by apply exec_says_plain.
  assert (seen_or_deleted x (ADelete name e :: h)) as Hseen.
  { right. left. exists name, e. split; [by left|done]. }
  destruct ph; cbn [deleted]; try exact Hkeep;
    (eapply exec_says_phase; [done|done| |exact Hs|exact Hseen]); done.
Qed.

Lemma pruns_execution_inv h s : prun wk job h = Some s → execution_inv h s.
Proof.
  revert s. induction h as [|a h IH]; intros s.
  { intros [= <-] _. cbn. split; [intros ? ? ? []%not_elem_of_nil|].
    split; intros; apply not_elem_of_nil. }
  cbn [prun]. intros (s0 & Hs0 & Hstep)%bind_Some Hl. specialize (IH s0 Hs0).
  destruct (pstep_exec _ _ _ Hstep Hl) as [Hl0 Hcases]. specialize (IH Hl0).
  destruct Hcases as [[Hp ->]|[(id & x & ad & -> & Hx & ->)|(x & l5a & ph & l4 & Hx & _ & Hcases)]].
  { destruct (p_exec s0); [by apply no_execution_plain|by apply exec_says_plain]. }
  all: rewrite Hx in IH; clear Hx Hstep.
  - destruct IH as (Hm & He & Hc).
    assert (one_identity x (AEnsure id (Ok (x, ad)) :: h)) as H1.
    { split; [exists id, ad; by left|]. intros id' x' ad' [[= _ -> _]|Hin]%elem_of_cons; [done|].
      by edestruct He. }
    split; [done|]. split; [done|]. split; [intros _; by apply no_mark_cons|].
    unfold adopted_phase. destruct ad; [by destruct (l5a_follows wk job)|]. exists id. split; [by left|].
    apply no_create_cons; [done|]. intros sp e Hin. by edestruct Hc.
  - destruct Hcases as [(e & -> & Hph & ->)|[(e & -> & Hph & _ & ->)|[(e & -> & Hph & _ & -> & _ & ->)|
      [(r & -> & -> & ->)|[(r & -> & Hph & ->)|(e & -> & Hph & ->)]]]]].
    + destruct IH as (H1 & H2 & _). split; [by apply one_identity_cons|].
      split; [intros Hl4; apply l4_succeeded_cons; auto|done].
    + apply exec_says_create; [done|intros ->; set_solver|done].
    + apply exec_says_create; [done|intros ->; set_solver|done].
    + pose proof (exec_says_looked x l4 r h IH) as Hlook.
      destruct (looked_for_l5a x r); [done|]. by destruct Hlook as [-> Hlook].
    + apply exec_says_get; [done|apply own_stage_name].
    + apply exec_says_delete; [done|apply own_stage_name].
Qed.

(** *** Reports, the lease and the end of the attempt *)

Definition terminal_records (h : list action) : nat :=
  length (filter (λ a, terminal_record a = true) h).
Definition closings (h : list action) : nat := length (filter (λ a, closes a = true) h).

Definition own_lease_checked (h : list action) : Prop :=
  lease_checked (JobID job) (workerName wk) (Attempt job) h.
Definition own_claim_granted (h : list action) : Prop :=
  claim_granted (JobID job) (workerName wk) (Attempt job) h.

Definition report_says (r : report) (h : list action) : Prop :=
  match r with
  | Idle => ¬ claim_asked h ∧ terminal_records h = 0%nat
  | Checked => (¬ claim_asked h ∧ terminal_records h = 0%nat) ∧ own_lease_checked h
  | Granted => terminal_records h = 0%nat ∧ own_claim_granted h ∧ own_lease_checked h
  | Refused => terminal_records h = 0%nat ∧ claim_asked h
  | Sent _ _ | Recorded => terminal_records h = 1%nat ∧ claim_asked h
  end.

Definition report_inv (h : list action) (s : pstate) : Prop :=
  (lease_lost_in h → p_lost s = true) ∧
  (terminal_records h ≤ 1)%nat ∧ (closings h ≤ 1)%nat ∧
  (p_lost s = false → report_says (p_report s) h ∧ (p_closed s = false → closings h = 0%nat)).

(** An action that asks for no terminal slot and sends no terminal record. *)
Definition quiet (a : action) : bool :=
  match a with AClaim _ _ _ _ => false | _ => negb (terminal_record a) end.

Lemma claim_asked_quiet a h : quiet a = true → claim_asked (a :: h) → claim_asked h.
Proof.
  intros Ha (id & w & n & r & [<-|Hin]%elem_of_cons); [done|]. by exists id, w, n, r.
Qed.
Lemma claim_asked_cons a h : claim_asked h → claim_asked (a :: h).
Proof. intros (id & w & n & r & Hin). exists id, w, n, r. by right. Qed.
Lemma claim_granted_asked id w n h : claim_granted id w n h → claim_asked h.
Proof. intros (r & Hin & _). by exists id, w, n, r. Qed.
Lemma claim_granted_cons id w n a h : claim_granted id w n h → claim_granted id w n (a :: h).
Proof. intros (r & Hin & Hr). exists r. split; [by right|done]. Qed.
Lemma lease_checked_cons id w n a h : lease_checked id w n h → lease_checked id w n (a :: h).
Proof. intros (ttl & e & Hin & He). exists ttl, e. split; [by right|done]. Qed.

Lemma terminal_records_cons a h :
  terminal_records (a :: h) = (if terminal_record a then S (terminal_records h) else terminal_records h).
Proof. unfold terminal_records. rewrite filter_cons. by destruct (terminal_record a). Qed.
Lemma closings_cons a h : closings (a :: h) = (if closes a then S (closings h) else closings h).
Proof. unfold closings. rewrite filter_cons. by destruct (closes a). Qed.

Lemma report_says_quiet r a h :
  quiet a = true → report_says r h → report_says r (a :: h) ∧ report_says (stale r) (a :: h).
Proof.
  intros Ha Hr.
  assert (terminal_records (a :: h) = terminal_records h) as Ht.
  { rewrite terminal_records_cons. destruct a; try done; cbn in Ha |- *; by rewrite (negb_true_iff _) in Ha; rewrite Ha. }
  assert (¬ claim_asked h → ¬ claim_asked (a :: h)) as Hc by eauto using claim_asked_quiet.
  destruct r; cbn [stale report_says] in *; rewrite Ht; destruct_and?; split_and!; auto;
    by (apply claim_asked_cons || apply claim_granted_cons || apply lease_checked_cons).
Qed.

Lemma report_says_asked r h :
  report_says r h → (asked r = true → claim_asked h) ∧ (asked r = false → ¬ claim_asked h).
Proof.
  destruct r; cbn; intros H; split; try done; intros _; destruct_and?; try done.
  by eapply claim_granted_asked.
Qed.

(** [a] sent the record stored as [p], with answer [e]. *)
Definition sent_as (a : action) (p : string) (e : option error) : Prop :=
  match a with
  | ASubmitCheck r e' => p = check_payload r ∧ e = e'
  | ASubmitScan r e' => p = scan_payload r ∧ e = e'
  | _ => False
  end.

(** What a step can do to the reports. *)
Definition report_step (s : pstate) (a : action) (s' : pstate) : Prop :=
  (quiet a = true ∧ (p_report s' = p_report s ∨ p_report s' = stale (p_report s) ∨
     (∃ p e, p_report s = Sent p e) ∧ p_report s' = Recorded)) ∨
  (∃ ttl e, a = AStore (OpHeartbeat (JobID job) (workerName wk) (Attempt job) ttl) e ∧
     lease_gone e = false ∧ p_report s' = check_report (p_report s)) ∨
  (∃ r, a = AClaim (JobID job) (workerName wk) (Attempt job) r ∧ p_report s = Checked ∧
     p_report s' = match r with Ok false => Refused | _ => Granted end) ∨
  (terminal_record a = true ∧ p_report s = Granted ∧ ∃ p e, p_report s' = Sent p e ∧ sent_as a p e).

Lemma pstep_report s a s' :
  pstep wk job s a = Some s' → p_lost s' = false →
  p_lost s = false ∧ report_step s a s' ∧
  (p_closed s' = false → closes a = false ∧ p_closed s = false) ∧
  (closes a = true → p_closed s = false).
Proof.
  unfold pstep. destruct (p_lost s) eqn:Hl.
  { destruct (harmless a); [|done]. intros [= <-]. congruence. }
  intros H Hl'. split; [done|]. unfold report_step. destruct (p_closed s) eqn:Hcl.
  { destruct a; try done. injection H as <-. rewrite Hcl. split; [left; auto|done]. }
  destruct a as [o e|id r|id w n r|dry spec e|name r|id r|name r|name e|r|r e|r e|m]; cbn [quiet terminal_record closes]; cbn beta iota in H.
  - destruct o; cbn in H; unfold with_exec, with_report, closing in H;
      repeat case_match; simplify_eq; cbn; split; try (split; [by auto|done]); eauto 8.
    match goal with H : bool_decide _ = true |- _ => apply bool_decide_eq_true_1 in H as (-> & -> & ->) end.
    right. left. eauto.
  - unfold with_exec in H. repeat case_match; simplify_eq; cbn; auto 6.
  - destruct (p_report s) eqn:Hr; try done. case_bool_decide as Hid; [|done].
    destruct Hid as (-> & -> & ->). injection H as <-. cbn. split; [|by rewrite Hcl].
    right. right. left. by exists r.
  - unfold with_exec in H. repeat case_match; simplify_eq; cbn; auto 6.
  - unfold with_exec in H. repeat case_match; simplify_eq; cbn; auto 6.
  - unfold with_exec in H. repeat case_match; simplify_eq; cbn; auto 6.
  - unfold with_exec in H. repeat case_match; simplify_eq; cbn; auto 6.
  - unfold with_exec in H. repeat case_match; simplify_eq; cbn; auto 6.
  - unfold with_exec in H. repeat case_match; simplify_eq; cbn; auto 6.
  - unfold submitted, with_report in H. case_bool_decide; [|done]. destruct (p_report s) eqn:Hr; try done;
      destruct (cr_Terminal r) eqn:Ht; try done; injection H as <-; cbn; (split; [|done]).
    + left. auto.
    + right. right. right. eauto 10.
  - unfold submitted, with_report in H. case_bool_decide; [|done]. destruct (p_report s) eqn:Hr; try done;
      destruct (sr_Terminal r) eqn:Ht; try done; injection H as <-; cbn; (split; [|done]).
    + left. auto.
    + right. right. right. eauto 10.
  - injection H as <-. auto 6.
Qed.

Lemma pstep_lost s a s' :
  pstep wk job s a = Some s' → p_lost s' = true →
  terminal_record a = false ∧ closes a = false ∧ (p_lost s = true → harmless a = true).
Proof.
  unfold pstep. destruct (p_lost s) eqn:Hl.
  { destruct (harmless a) eqn:Hh; [|done]. intros _ _.
    destruct a as [o e| | | | | | | | | | |]; try done. destruct o; try done; cbn in Hh |- *; by rewrite Hh. }
  intros H Hl'. destruct (p_closed s); [destruct a; try done; by injection H as <-|].
  destruct a as [o e|id r|id w n r|dry spec e|name r|id r|name r|name e|r|r e|r e|m];
    cbn [terminal_record closes]; cbn beta iota in H; try done.
  1: destruct o; try done; cbn in H; unfold with_exec, with_report, closing in H;
    repeat case_match; simplify_eq; cbn in Hl'; congruence.
  all: exfalso; unfold submitted, with_report in H; repeat case_match; simplify_eq;
    cbn in Hl'; congruence.
Qed.

Lemma pstep_lease_lost s id w n ttl e s' :
  pstep wk job s (AStore (OpHeartbeat id w n ttl) (Some e)) = Some s' →
  errors_is e ErrNotFound = true → p_lost s' = true.
Proof.
  intros H He. unfold pstep in H. destruct (p_lost s) eqn:Hl.
  { destruct (harmless _); [|done]. by injection H as <-. }
  destruct (p_closed s); [done|]. cbn in H. case_bool_decide; [|done].
  rewrite He in H. by injection H as <-.
Qed.

(** What the automaton says of the reports follows the trace. *)
Lemma report_says_step s0 a s h :
  report_step s0 a s → report_says (p_report s0) h → report_says (p_report s) (a :: h).
Proof.
  intros Hr Hsays.
  destruct Hr as [[Hq Hr]|[(ttl & e & -> & He & Hr)|[(r & -> & Hr0 & Hr)|(Ht & Hr0 & p & e & Hr & _)]]].
  - pose proof (report_says_quiet _ _ _ Hq Hsays) as [H1 H2].
    destruct Hr as [->|[->|[(p & e & He) ->]]]; [done|done|]. by rewrite He in H1.
  - pose proof (report_says_quiet _ (AStore (OpHeartbeat (JobID job) (workerName wk) (Attempt job) ttl) e)
      _ eq_refl Hsays) as [H1 _].
    rewrite Hr. destruct (p_report s0); try exact H1. split; [exact H1|].
    exists ttl, e. split; [by left|done].
  - rewrite Hr0 in Hsays. destruct Hsays as [[_ Ht] Hch]. rewrite Hr.
    assert (terminal_records (AClaim (JobID job) (workerName wk) (Attempt job) r :: h) = 0%nat) as Ht'
      by (by rewrite terminal_records_cons).
    assert (r = Ok false ∨ r ≠ Ok false) as [->|Hne] by (destruct r as [[]|]; auto).
    { split; [done|]. eexists _, _, _, _. by left. }
    assert (report_says Granted (AClaim (JobID job) (workerName wk) (Attempt job) r :: h)) as Hg.
    { split; [done|]. split; [exists r; split; [by left|done]|by apply lease_checked_cons]. }
    by destruct r as [[]|].
  - rewrite Hr0 in Hsays. destruct Hsays as (Htz & Hg & _). rewrite Hr. split.
    + by rewrite terminal_records_cons, Ht, Htz.
    + by apply claim_asked_cons, (claim_granted_asked _ _ _ _ Hg).
Qed.

Lemma pruns_report_inv h s : prun wk job h = Some s → report_inv h s.
Proof.
  revert s. induction h as [|a h IH]; intros s.
  { intros [= <-]. split; [|split_and!; cbn; try lia].
    - by intros (? & ? & ? & ? & ? & []%not_elem_of_nil & _).
    - intros _. split; [|done]. split; [|done]. by intros (? & ? & ? & ? & []%not_elem_of_nil). }
  cbn [prun]. intros (s0 & Hs0 & Hstep)%bind_Some.
  destruct (IH s0 Hs0) as (Hlost & Hterm & Hclos & Hlive). clear IH.
  unfold report_inv. rewrite terminal_records_cons, closings_cons.
  assert (lease_lost_in (a :: h) → p_lost s = true) as Hlost'.
  { intros (id & w & n & ttl & e & [<-|Hin]%elem_of_cons & He); [by eapply pstep_lease_lost|].
    assert (p_lost s0 = true) as Hl0 by (apply Hlost; by exists id, w, n, ttl, e).
    unfold pstep in Hstep. rewrite Hl0 in Hstep. destruct (harmless a); [|done].
    by injection Hstep as <-. }
  split; [exact Hlost'|]. destruct (p_lost s) eqn:Hl.
  { destruct (pstep_lost _ _ _ Hstep Hl) as (-> & -> & _). done. }
  destruct (pstep_report _ _ _ Hstep Hl) as (Hl0 & Hr & Hopen & Hcl).
  destruct (Hlive Hl0) as [Hsays Hnone]. clear Hlive.
  assert ((if closes a then S (closings h) else closings h) ≤ 1)%nat as Hc.
  { destruct (closes a); [|done]. by rewrite (Hnone (Hcl eq_refl)). }
  assert (p_closed s = false → (if closes a then S (closings h) else closings h) = 0%nat) as Hc0.
  { intros Ho. destruct (Hopen Ho) as [-> Ho0]. auto. }
  assert (report_says (p_report s) (a :: h)) as Hs by (by eapply report_says_step).
  split_and!; [|done|done].
  destruct (p_report s) eqn:Hrs; cbn [report_says] in Hs; rewrite terminal_records_cons in Hs;
    destruct_and?; lia.
Qed.

(** A record on record as sent was sent. *)
Lemma prun_sent h s p e :
  prun wk job h = Some s → p_lost s = false → p_report s = Sent p e →
  ∃ a, a ∈ h ∧ terminal_record a = true ∧ sent_as a p e.
Proof.
  revert s. induction h as [|a h IH]; intros s; [by intros [= <-]|].
  cbn [prun]. intros (s0 & Hs0 & Hstep)%bind_Some Hl Hs.
  destruct (pstep_report _ _ _ Hstep Hl) as (Hl0 & Hr & _).
  enough (p_report s0 = Sent p e ∨ terminal_record a = true ∧ sent_as a p e) as [H0|H0].
  { destruct (IH _ Hs0 Hl0 H0) as (b & Hb & Hb'). exists b. split; [by right|done]. }
  { exists a. split; [by left|done]. }
  destruct Hr as [[_ [E|[E|[_ E]]]]|[(ttl & e' & _ & _ & E)|[(r & _ & _ & E)|(Ht & _ & p' & e' & E & Ha)]]];
    rewrite Hs in E.
  - by left.
  - left. by destruct (p_report s0).
  - done.
  - left. by destruct (p_report s0).
  - by destruct r as [[]|].
  - right. by injection E as <- <-.
Qed.

Lemma prun_suffix a h tr s :
  prun wk job tr = Some s → did_after tr a h →
  ∃ s0 s1, prun wk job h = Some s0 ∧ pstep wk job s0 a = Some s1.
Proof.
  intros Hs [l ->]. revert s Hs. induction l as [|b l IH]; intros s Hs.
  - apply bind_Some in Hs as (s0 & H0 & H1). by exists s0, s.
  - apply bind_Some in Hs as (s0 & H0 & H1). by eapply IH.
Qed.

End Traces.
