(* ===== verification/Codec.v ===== *)
(** * Codec: a concrete codec for stored deliveries

    The model takes encoding/json on a pendingDelivery as an interface; for the
    concrete runs it is implemented by a text of binary digits. *)

From S2P Require Import Prelude GoTime Errors Work Db Fingerprint Store StoreSpec StoreStep.
From S2P Require Import Failure World.

(** ** Deliveries as numbers *)

#[export] Instance check_request_eq_dec : EqDecision SubmitCheckRecordRequest.
Proof. solve_decision. Defined.
#[export] Instance scan_request_eq_dec : EqDecision SubmitScanRecordRequest.
Proof. solve_decision. Defined.
#[export] Instance delivery_eq_dec : EqDecision pendingDelivery.
Proof. solve_decision. Defined.

#[export] Program Instance check_request_countable : Countable SubmitCheckRecordRequest :=
  inj_countable'
    (λ r, (cr_CheckID r, cr_ToolSpecDigest r, cr_ImageDigest r, cr_ToolName r, cr_Version r,
           cr_ValidationRequestID r, cr_SentinelJobID r, cr_Stage r, cr_Terminal r,
           (cr_ValidationStatus r, cr_ValidationHash r, cr_Command r, cr_ExitCode r, cr_DurationSeconds r,
            cr_AllOutputsPresent r, cr_ContractResult r, cr_FailureKind r, cr_Retryable r,
            cr_FailureReason r)))
    (λ '(a, b, c, d, e, f, g, h, i, (j, k, l, m, n, o, p, q, r, s)),
      Build_SubmitCheckRecordRequest a b c d e f g h i j k l m n o p q r s) _.
Next Obligation. by intros []. Qed.

#[export] Program Instance scan_request_countable : Countable SubmitScanRecordRequest :=
  inj_countable'
    (λ r, (sr_ScanID r, sr_ImageDigest r, sr_ToolName r, sr_ValidationRequestID r, sr_SentinelJobID r,
           sr_Stage r, sr_Terminal r, sr_Scanner r, sr_ScannerVersion r,
           (sr_ScannedAt r, sr_Source r, sr_CriticalCount r, sr_HighCount r, sr_MediumCount r,
            sr_LowCount r, sr_PolicyMode r, sr_PolicyResult r)))
    (λ '(a, b, c, d, e, f, g, h, i, (j, k, l, m, n, o, p, q)),
      Build_SubmitScanRecordRequest a b c d e f g h i j k l m n o p q) _.
Next Obligation. by intros []. Qed.

#[export] Program Instance delivery_countable : Countable pendingDelivery :=
  inj_countable' (λ pd, (pd_Kind pd, pd_Check pd, pd_Scan pd))
    (λ '(k, c, s), Build_pendingDelivery k c s) _.
Next Obligation. by intros []. Qed.

(** ** Numbers as text *)

Fixpoint bits_text (p : positive) : string :=
  match p with
  | xH => ""
  | xO p => String "0" (bits_text p)
  | xI p => String "1" (bits_text p)
  end.

Fixpoint text_bits (s : string) : positive :=
  match s with
  | EmptyString => xH
  | String c s => if Ascii.eqb c "0" then xO (text_bits s) else xI (text_bits s)
  end.

Lemma text_bits_text p : text_bits (bits_text p) = p.
Proof. induction p as [p IH|p IH|]; cbn; by rewrite ?IH. Qed.

#[export] Program Instance bits_delivery : DeliveryJson := {|
  json_marshal_delivery pd := bits_text (encode pd);
  json_unmarshal_delivery s :=
    match decode (text_bits s) with
    | Some pd => Ok pd
    | None => Err (ErrText "invalid delivery")
    end;
|}.
Next Obligation. intros pd _. cbv beta. by rewrite text_bits_text, decode_encode. Qed.
