(* ===== verification/WorkerSafe.v ===== *)
(** * WorkerSafe: the safety of an attempt, and the outcome of a redelivery

    The claims on process: it keeps to the protocol of Protocol.v, and what
    follows for its actions (AttemptSafe.v); then the branches of redeliverOne. *)

From S2P Require Import Prelude GoTime Errors Work Db Fingerprint Store StoreSpec StoreRun StoreStep.
From S2P Require Import Retry Names Failure World Worker Pipeline Protocol Attempt Stages Process.
From S2P Require Import AttemptSafe Instances RowInv RowRead Samples Codec.

Section Claims.
Context {SO : SqlOrder} {AJ : ActionsJson} {DJ : DeliveryJson}.
Context (E : nat → step_env) (wk : worker) (job : Job) (rounds : nat).
Context (valid_label_value : string → bool) (float_overflow : Z → Z).

(** The actions of one attempt. *)
Definition attempt_trace (w : world) : list action :=
  w_trace (process E wk valid_label_value rounds float_overflow job w).2.

(** C2: an attempt keeps to the protocol. Whatever the store, Kubernetes,
    NodeVault, the clock and the other workers answer and do, and on every
    path through the stages, every action of process is one the automaton of
    Protocol.v allows in the state its earlier actions led to. *)
Theorem attempt_follows_protocol w :
  conditions_exclusive E → w_trace w = [] →
  is_Some (prun wk job (attempt_trace w)).
Proof. intros. by apply process_prun. Qed.

(** C11: an attempt that lost its lease stops. Once a heartbeat was answered
    that the lease is gone, it creates and deletes no Job, claims and sends no
    report, adopts or releases no execution and does not complete the job;
    all that follows is metrics and calls its cancelled context refuses. *)
Theorem lost_attempt_stops w a h :
  conditions_exclusive E → w_trace w = [] →
  did_after (attempt_trace w) a h → lease_lost_in h → harmless a = true.
Proof.
  intros HE Hw Hd Hlost. destruct (process_prun E wk job rounds valid_label_value float_overflow HE w Hw) as [s Hs].
  destruct (prun_suffix _ _ _ _ _ _ Hs Hd) as (s0 & s1 & H0 & H1).
  destruct (pruns_report_inv _ _ _ _ H0) as (Hl & _). specialize (Hl Hlost).
  unfold pstep in H1. rewrite Hl in H1. by destruct (harmless a).
Qed.

(** C10: reports. An attempt sends at most one terminal record; it sends each
    report only after a heartbeat of its own that did not lose the lease, and
    the terminal one only after it asked for the job's terminal slot and was
    not refused. *)
Theorem reports_fenced w :
  conditions_exclusive E → w_trace w = [] →
  (terminal_records (attempt_trace w) ≤ 1)%nat ∧
  ∀ a h, did_after (attempt_trace w) a h → report_sent a = true →
    lease_checked (JobID job) (workerName wk) (Attempt job) h ∧
    (terminal_record a = true → claim_granted (JobID job) (workerName wk) (Attempt job) h).
Proof.
  intros HE Hw. destruct (process_prun E wk job rounds valid_label_value float_overflow HE w Hw) as [s Hs].
  split; [by apply (pruns_report_inv _ _ _ _ Hs)|].
  intros a h Hd Ha. destruct (prun_suffix _ _ _ _ _ _ Hs Hd) as (s0 & s1 & H0 & H1).
  destruct (pruns_report_inv _ _ _ _ H0) as (_ & _ & _ & Hlive).
  unfold pstep in H1. destruct (p_lost s0); [by destruct a|]. destruct (Hlive eq_refl) as [Hsays _].
  destruct (p_closed s0); [by destruct a|].
  assert (∃ id p e, submitted job s0 id (terminal_record a) p e = Some s1) as (i & p & e & Hsub).
  { destruct a as [| | | | | | | | |r e|r e|]; try done; by eexists _, _, e. }
  unfold submitted in Hsub. case_bool_decide; [|done]. destruct (p_report s0); try done; cbn [report_says] in Hsays.
  - destruct Hsays as [_ Hc]. split; [exact Hc|]. by destruct (terminal_record a).
  - by destruct Hsays as (_ & Hg & Hc).
Qed.

(** C9: executions. A Job is created only under an execution identity the
    store gave this attempt, the only one it ever has, under the
    deterministic name of that identity, and never after the identity was
    released; the L5-a Job only once L4 was seen to succeed. *)
Theorem jobs_created_under_identity w dry spec e h :
  conditions_exclusive E → w_trace w = [] →
  did_after (attempt_trace w) (ACreate dry spec e) h →
  ∃ x, one_identity x h ∧ no_mark h ∧
    (spec = buildSmokeJobSpec (set_ExecutionID x job) ∨
     dry = false ∧ spec = buildL5aJobSpec (set_ExecutionID x job) ∧ l4_succeeded job x h).
Proof.
  intros HE Hw Hd. destruct (process_prun E wk job rounds valid_label_value float_overflow HE w Hw) as [s Hs].
  destruct (prun_suffix _ _ _ _ _ _ Hs Hd) as (s0 & s1 & H0 & H1).
  pose proof (pruns_execution_inv _ _ _ _ H0) as Hx. unfold execution_inv in Hx.
  unfold pstep in H1. destruct (p_lost s0); [done|]. destruct (p_closed s0); [done|].
  specialize (Hx eq_refl). cbn beta iota in H1. destruct (p_exec s0) as [|x l5a ph l4]; [done|].
  destruct Hx as (Hid & Hl4 & Hm & _). exists x. split; [done|].
  destruct dry.
  { case_bool_decide as Hp; [|done]. destruct Hp as [-> ->]. auto. }
  case_bool_decide as Hp; [destruct Hp as (Hph & _ & ->); split; [|auto]; apply Hm; set_solver|].
  destruct l4; [|done]. destruct (l5a_follows wk job); [|done]. cbn [andb] in H1.
  case_bool_decide as Hp'; [|done].
  destruct Hp' as (Hph & _ & ->). split; [apply Hm; set_solver|]. auto 6.
Qed.

(** C8: the grounds of a release. An attempt releases only its own execution
    identity, at most once, and only on one of these grounds: it minted the
    identity and every Create was rejected; or, and nothing was created since, a
    lookup found a Job of the identity finished, or found none after one had been
    seen or a Delete of it had been sent, or the Create of the L5-a Job was
    rejected. (Two of them do not prove that nothing runs: the Delete of a Job
    that was never seen, and the rejected Create: adopted_unseen_released,
    running_l5a_released.) *)
Theorem execution_released_when_over w id x e h :
  conditions_exclusive E → w_trace w = [] →
  did_after (attempt_trace w) (AStore (OpMarkExecutionTerminal id x) e) h →
  id = JobID job ∧ one_identity x h ∧ no_mark h ∧ release_ground job x h.
Proof.
  intros HE Hw Hd. destruct (process_prun E wk job rounds valid_label_value float_overflow HE w Hw) as [s Hs].
  destruct (prun_suffix _ _ _ _ _ _ Hs Hd) as (s0 & s1 & H0 & H1).
  pose proof (pruns_execution_inv _ _ _ _ H0) as Hx. unfold execution_inv in Hx.
  unfold pstep in H1. destruct (p_lost s0); [done|]. destruct (p_closed s0); [done|].
  specialize (Hx eq_refl). cbn in H1. destruct (p_exec s0) as [|x' l5a ph l4]; [done|].
  case_bool_decide as Hp; [|done]. destruct Hp as (-> & -> & Hph).
  destruct Hx as (Hid & _ & Hm & Hsays). split; [done|]. split; [done|].
  split; [apply Hm; set_solver|].
  assert (ph = Unused ∨ ph = Over) as [->| ->] by set_solver; [|done].
  by left.
Qed.

(** C12: closing the job. An attempt closes its job at most once. It completes
    it only when L4 was seen to succeed, and, if NodeVault is to be told, only
    after the terminal slot was asked for; a failure that will be retried has
    attempts left and never asked for the slot, so that the retry can; one that
    is final did. *)
Theorem job_closed_once w :
  conditions_exclusive E → w_trace w = [] →
  (closings (attempt_trace w) ≤ 1)%nat ∧
  ∀ o e h, did_after (attempt_trace w) (AStore o e) h → closes (AStore o e) = true →
    match o with
    | OpCompleteJob id wn n _ =>
        id = JobID job ∧ wn = workerName wk ∧ n = Attempt job ∧
        (∃ x, one_identity x h ∧ l4_succeeded job x h) ∧
        (vaultClient wk = true → claim_asked h)
    | OpFailJob id wn n _ retry _ =>
        id = JobID job ∧ wn = workerName wk ∧ n = Attempt job ∧
        if retry : bool then Attempt job < maxAttempts ∧ ¬ claim_asked h else (vaultClient wk = true → claim_asked h)
    | _ => False
    end.
Proof.
  intros HE Hw. destruct (process_prun E wk job rounds valid_label_value float_overflow HE w Hw) as [s Hs].
  split; [by apply (pruns_report_inv _ _ _ _ Hs)|].
  intros o e h Hd Hc. destruct (prun_suffix _ _ _ _ _ _ Hs Hd) as (s0 & s1 & H0 & H1).
  pose proof (pruns_report_inv _ _ _ _ H0) as (_ & _ & _ & Hlive).
  pose proof (pruns_execution_inv _ _ _ _ H0) as Hx. unfold execution_inv in Hx.
  unfold pstep in H1. destruct (p_lost s0).
  { destruct o; try done; cbn in Hc, H1; by destruct (cancelled e). }
  specialize (Hx eq_refl). destruct (Hlive eq_refl) as [Hr _].
  pose proof (report_says_asked _ _ _ _ Hr) as [Hask Hnot].
  destruct (p_closed s0); [done|]. destruct o; try done; cbn in H1.
  - destruct (p_exec s0) as [|x l5a ph l4]; [done|].
    case_bool_decide as Hp; [|done]. destruct Hp as (-> & -> & ->). destruct l4; [|done].
    split_and!; try done; [exists x; by destruct Hx as (? & ? & _); auto|].
    intros Hv. apply Hask. rewrite Hv in H1. by destruct (asked (p_report s0)).
  - case_bool_decide as Hp; [|done]. destruct Hp as (-> & -> & ->). split_and!; try done.
    destruct retryable; cbn in H1.
    + destruct (Attempt job <? maxAttempts) eqn:Hn; [|done]. split; [by apply Z.ltb_lt|].
      apply Hnot. by destruct (asked (p_report s0)).
    + intros Hv. apply Hask. rewrite Hv in H1. by destruct (asked (p_report s0)).
Qed.

End Claims.

(** ** Redelivery *)

Section Redelivery.
Context {SO : SqlOrder} {AJ : ActionsJson} {DJ : DeliveryJson}.
Context (E : nat → step_env).

Lemma store_call_trace {A} c (act : res error A → action) (m : instant → M A) w :
  ∃ r w', store_call E c act m w = (r, w') ∧ w_trace w' = act r :: w_trace w.
Proof.
  unfold store_call. cbn [step canceled].
  match goal with |- context [m ?t ?d] => destruct (m t d) as [r d'] end. by eexists _, _.
Qed.

Lemma api_call_trace {A} c (reply : step_env → res error A) act w :
  ∃ r w', api_call E c reply act w = (r, w') ∧ w_trace w' = act r :: w_trace w.
Proof. unfold api_call, mbind, W_bind. by eexists _, _. Qed.

Lemma resolve_trace j e dead w :
  ∃ r o, w_trace (resolveRedelivery E j e dead w).2 = AStore o r :: w_trace w ∧
    if dead || negb (Retryable e)
    then o = OpMarkResultDeliveryDeadLetter (JobID j) (ResultDeliveryClaimToken j) (error_text e)
    else ∃ n m, o = OpMarkResultDeliveryPending (JobID j) (ResultDeliveryClaimToken j) (error_text e)
           (time_add (e_now (E n)) (backoffDuration (wrap64 (ResultDeliveryAttempts j + 1)) (e_rnd (E m)))).
Proof.
  unfold resolveRedelivery. destruct (dead || negb (Retryable e)).
  - unfold mbind, W_bind.
    match goal with |- context [store_call E LoopCtx ?act ?m w] =>
      destruct (store_call_trace LoopCtx act m w) as (r & w' & -> & Hw) end.
    by eexists _, _.
  - unfold clock_now, jitter, mbind, W_bind, mret, W_ret. cbn [step].
    match goal with |- context [store_call E LoopCtx ?act ?m ?w0] =>
      destruct (store_call_trace LoopCtx act m w0) as (r & w' & -> & Hw) end.
    eexists _, _. split; [exact Hw|]. by eexists _, _.
Qed.

(** The request a redelivery sends, with its answer. *)
Definition sent (req : SubmitCheckRecordRequest + SubmitScanRecordRequest) (e : option error) : action :=
  match req with inl r => ASubmitCheck r e | inr r => ASubmitScan r e end.

(** C28: a redelivery sends the stored record once, unchanged, and settles the
    claim it holds with exactly one store call: acknowledged when NodeVault
    takes the record, dead-lettered when NodeVault rejects it for good, pending
    again after the backoff otherwise. A payload it cannot read is
    dead-lettered and nothing is sent. *)
Theorem redeliverOne_outcomes j w :
  let id := JobID j in let tok := ResultDeliveryClaimToken j in
  let tr := w_trace (redeliverOne E j w).2 in
  match redelivery (ResultDeliveryPayload j) with
  | Err e => ∃ r, tr = AStore (OpMarkResultDeliveryDeadLetter id tok (error_text e)) r :: w_trace w
  | Ok req => ∃ ans r o, tr = AStore o r :: sent req ans :: w_trace w ∧
      match ans with
      | None => o = OpMarkResultDeliveryAcknowledged id tok
      | Some e =>
          if Retryable e then
            ∃ n m, o = OpMarkResultDeliveryPending id tok (error_text e)
              (time_add (e_now (E n)) (backoffDuration (wrap64 (ResultDeliveryAttempts j + 1)) (e_rnd (E m))))
          else o = OpMarkResultDeliveryDeadLetter id tok (error_text e)
      end
  end.
Proof.
  cbv zeta. unfold redeliverOne. destruct (redelivery (ResultDeliveryPayload j)) as [req|e].
  - assert (∃ w1 ans, (match req with
       | inl req => vault_check E LoopCtx req
       | inr req => vault_scan E LoopCtx req end) w = (as_result ans, w1) ∧
       w_trace w1 = sent req ans :: w_trace w) as (w1 & ans & Hcall & Htr).
    { destruct req as [req|req];
        [destruct (api_call_trace LoopCtx (λ e, as_result (e_submit e)) (λ r, ASubmitCheck req (error_of r)) w)
           as (r & w1 & Hw & Htr)
        |destruct (api_call_trace LoopCtx (λ e, as_result (e_submit e)) (λ r, ASubmitScan req (error_of r)) w)
           as (r & w1 & Hw & Htr)];
        exists w1, (error_of r); (split; [|exact Htr]); by destruct r as [[]|]. }
    unfold mbind at 1, W_bind at 1. rewrite Hcall. destruct ans as [e|]; cbn [as_result].
    + destruct (resolve_trace j e false w1) as (r & o & Ho & Hr). cbn [orb] in Hr.
      exists (Some e), r, o. rewrite Ho, Htr. split; [done|]. by destruct (Retryable e).
    + unfold mbind, W_bind.
      match goal with |- context [store_call E LoopCtx ?act ?m w1] =>
        destruct (store_call_trace LoopCtx act m w1) as (r & w' & -> & Hw) end.
      eexists None, _, _. split; [cbn; by rewrite Hw, Htr|done].
  - destruct (resolve_trace j e true w) as (r & o & Ho & Hr). exists r. rewrite Ho. cbn in Hr. by rewrite Hr.
Qed.

End Redelivery.

(** ** Concrete runs *)

Definition sample_worker : worker :=
  {| workerName := "w1"; vaultClient := true; dynamicKube := false; withMetrics := false |}.

Definition true_condition (ty : string) : jobCondition :=
  {| cond_Type := ty; cond_Status := "True"; cond_Reason := ""; cond_Message := "" |}.

(** Everything works, and every Job is complete when it is looked up. *)
Definition env_ok : step_env := {|
  e_others := []; e_now := at_s 10; e_ended := false; e_faults := []; e_rng := [Some 7%N];
  e_create := None; e_get := Ok [true_condition "Complete"]; e_list := Ok []; e_pods := Ok [];
  e_delete := None; e_reports := Ok []; e_submit := None; e_event := EvPoll;
  e_rnd := λ _, 0; e_elapsed := 3 |}.

Definition sample_leased : Job :=
  match (GetJob "job-1" (Db (jobs d_leased) ∅ [] [])).1 with
  | Ok j => j
  | Err _ => sample_job 1 ""
  end.

Definition start : world := World d_leased false 0 [].
#[local] Abbreviation tr_ok :=
  (attempt_trace (λ _, env_ok) sample_worker sample_leased 3 (λ _, true) (λ _, 0) start).

(** Another worker leases the job while the first one's heartbeat is under way. *)
Definition env_lost (n : nat) : step_env :=
  match n with
  | 4%nat => {| e_others := []; e_now := at_s 10; e_ended := false; e_faults := []; e_rng := []; e_create := None;
                e_get := Ok []; e_list := Ok []; e_pods := Ok []; e_delete := None; e_reports := Ok [];
                e_submit := None; e_event := EvHeartbeat; e_rnd := λ _, 0; e_elapsed := 3 |}
  | 5%nat => {| e_others := [Foreign (OpLeaseJob "w2" (60 * second)) (at_s 200) [] []];
                e_now := at_s 200; e_ended := false; e_faults := []; e_rng := []; e_create := None;
                e_get := Ok []; e_list := Ok []; e_pods := Ok []; e_delete := None; e_reports := Ok [];
                e_submit := None; e_event := EvPoll; e_rnd := λ _, 0; e_elapsed := 3 |}
  | _ => env_ok
  end.

#[local] Abbreviation tr_lost :=
  (attempt_trace env_lost sample_worker sample_leased 3 (λ _, true) (λ _, 0) start).

Lemma env_ok_exclusive : conditions_exclusive (λ _, env_ok).
Proof. by intros n conds [= <-] _. Qed.

Lemma env_lost_exclusive : conditions_exclusive env_lost.
Proof. by intros [|[|[|[|[|[|n]]]]]] conds [= <-]. Qed.

Lemma did_after_drop k tr a h : drop k tr = a :: h → did_after tr a h.
Proof. intros H. exists (take k tr). by rewrite <- H, take_drop. Qed.

(** The action at position [k] from the end of the trace [tr]. *)
Tactic Notation "pick" constr(k) constr(tr) :=
  let x := eval vm_compute in (drop k tr) in
  lazymatch x with
  | ?a :: ?h =>
      let H := fresh "Hpick" in
      assert (did_after tr a h) as H by (apply (did_after_drop k); vm_compute; reflexivity)
  end.

Lemma attempt_follows_protocol_witness :
  conditions_exclusive (λ _, env_ok) ∧ is_Some (prun sample_worker sample_leased tr_ok) ∧
  length tr_ok = 11%nat.
Proof.
  split; [apply env_ok_exclusive|]. split; [|vm_compute; reflexivity].
  exact (attempt_follows_protocol (λ _, env_ok) sample_worker sample_leased 3 (λ _, true)
    (λ _, 0) start env_ok_exclusive eq_refl).
Defined.

Lemma lost_attempt_stops_witness :
  ∃ a h, did_after tr_lost a h ∧ lease_lost_in h ∧ harmless a = true.
Proof.
  pick 0%nat tr_lost.
  lazymatch goal with H : did_after tr_lost ?a ?h |- _ =>
    exists a, h; assert (lease_lost_in h) as Hl;
    [eexists _, _, _, _, _; split; [by left|vm_compute; reflexivity]|];
    split; [exact H|]; split; [exact Hl|];
    exact (lost_attempt_stops env_lost sample_worker sample_leased 3 (λ _, true) (λ _, 0) start
             a h env_lost_exclusive eq_refl H Hl)
  end.
Defined.

Lemma reports_fenced_witness :
  ∃ a h, did_after tr_ok a h ∧ terminal_record a = true ∧ claim_granted "job-1" "w1" 1 h.
Proof.
  pick 1%nat tr_ok. eexists _, _. split; [exact Hpick|]. split; [reflexivity|].
  destruct (reports_fenced (λ _, env_ok) sample_worker sample_leased 3 (λ _, true) (λ _, 0) start
    env_ok_exclusive eq_refl) as [_ H].
  destruct (H _ _ Hpick eq_refl) as [_ Hg]. exact (Hg eq_refl).
Defined.

Lemma jobs_created_under_identity_witness :
  ∃ spec e h, did_after tr_ok (ACreate false spec e) h ∧ ∃ x, one_identity x h ∧ no_mark h.
Proof.
  pick 7%nat tr_ok. eexists _, _, _. split; [exact Hpick|].
  destruct (jobs_created_under_identity (λ _, env_ok) sample_worker sample_leased 3 (λ _, true) (λ _, 0) start
    _ _ _ _ env_ok_exclusive eq_refl Hpick) as (x & H1 & H2 & _).
  exact (ex_intro _ x (conj H1 H2)).
Defined.

Lemma execution_released_when_over_witness :
  ∃ h, did_after tr_ok (AStore (OpMarkExecutionTerminal "job-1" "a1-0000000000000007") None) h ∧
       release_ground sample_leased "a1-0000000000000007" h.
Proof.
  pick 5%nat tr_ok. eexists _. split; [exact Hpick|].
  apply (execution_released_when_over (λ _, env_ok) sample_worker sample_leased 3 (λ _, true) (λ _, 0) start
    _ _ _ _ env_ok_exclusive eq_refl Hpick).
Defined.

Lemma job_closed_once_witness :
  ∃ o h, did_after tr_ok (AStore o None) h ∧ closes (AStore o None) = true ∧ claim_asked h.
Proof.
  pick 0%nat tr_ok. eexists _, _. split; [exact Hpick|]. split; [reflexivity|].
  destruct (job_closed_once (λ _, env_ok) sample_worker sample_leased 3 (λ _, true) (λ _, 0) start
    env_ok_exclusive eq_refl) as [_ H].
  destruct (H _ _ _ Hpick eq_refl) as (_ & _ & _ & _ & Hc). exact (Hc eq_refl).
Defined.

(** ** Two releases the comments rule out *)

(** The lease ran out under "w1"; "w2" adopts the execution. *)
Definition d_adoptable : db := after d_executing (OpLeaseJob "w2" (60 * second)) (at_s 100) [].
Definition second_worker : worker :=
  {| workerName := "w2"; vaultClient := true; dynamicKube := false; withMetrics := false |}.
Definition job_of (d : db) : Job :=
  match (GetJob "job-1" (Db (jobs d) ∅ [] [])).1 with Ok j => j | Err _ => sample_job 1 "" end.

(** The process is told to stop before the first poll; no Job is found. *)
Definition env_stopped (n : nat) : step_env := {|
  e_others := []; e_now := at_s 101; e_ended := (1 <=? n)%nat; e_faults := []; e_rng := []; e_create := None;
  e_get := Err (ApiError ApiNotFound "not found"); e_list := Ok []; e_pods := Ok [];
  e_delete := Some (ApiError ApiNotFound "not found"); e_reports := Ok []; e_submit := None;
  e_event := EvDone false; e_rnd := λ _, 0; e_elapsed := 3 |}.

#[local] Abbreviation tr_stopped :=
  (attempt_trace env_stopped second_worker (job_of d_adoptable) 3 (λ _, true) (λ _, 0)
    (World d_adoptable false 0 [])).

(** A Job was never seen: no Create, no lookup that found one. *)
Definition never_seen (h : list action) : bool :=
  forallb (λ a, match a with ACreate false _ _ | AGet _ (Ok _) => false | _ => true end) h.

(** The comment of runSmokeRun says that an adopted Job that was never seen is
    not gone. When the context ends before the first poll, its identity is
    released all the same: the NotFound of a Job nobody saw counts as gone. *)
Lemma adopted_unseen_released :
  ∃ h, did_after tr_stopped (AStore (OpMarkExecutionTerminal "job-1" "a1-0000000000000007") None) h ∧
       AEnsure "job-1" (Ok ("a1-0000000000000007", true)) ∈ h ∧ never_seen h = true.
Proof.
  pick 3%nat tr_stopped. eexists. split; [exact Hpick|]. split; [|reflexivity]. set_solver.
Qed.

(** A job that asked for L5-a, adopted while its L5-a Job runs; the API server
    forbids another Create, as a quota that the running Job uses up does. *)
Definition profile_req : JobRequest := {|
  req_JobID := "job-1"; req_ArtifactKind := "tool"; req_ImageRepository := "registry/tool";
  req_ImageDigest := "sha256:00"; req_StableRef := "tool@v1"; req_ToolName := "tool";
  req_Version := "v1"; req_CasHash := "cas"; req_RequestedActions := [ActionSmokeRun; ActionProfile];
  req_RequestedFixtureSet := ""; req_ValidationRequestID := "req-1" |}.

Definition d_profile : db :=
  after (after (after (after d_empty (OpCreateJob profile_req) t0 [])
    (OpLeaseJob "w1" (60 * second)) (at_s 1) [])
    (OpEnsureExecution "job-1") (at_s 2) [Some 7%N])
    (OpLeaseJob "w2" (60 * second)) (at_s 100) [].

Definition env_quota : step_env := {|
  e_others := []; e_now := at_s 101; e_ended := false; e_faults := []; e_rng := [];
  e_create := Some (ApiError ApiForbidden "exceeded quota"); e_get := Ok []; e_list := Ok [];
  e_pods := Ok []; e_delete := None; e_reports := Ok []; e_submit := None;
  e_event := EvPoll; e_rnd := λ _, 0; e_elapsed := 3 |}.

#[local] Abbreviation tr_quota :=
  (attempt_trace (λ _, env_quota) second_worker (job_of d_profile) 3 (λ _, true) (λ _, 0)
    (World d_profile false 0 [])).

(** runL5a releases the identity of an L5-a Job it has just seen running: a
    rejected Create is taken to mean that the Job was never created. *)
Lemma running_l5a_released :
  ∃ h spec e hb, did_after tr_quota (AStore (OpMarkExecutionTerminal "job-1" "a1-0000000000000007") None)
         (ACreate false spec (Some e) :: AStore hb None ::
          AGet "l5a-job-1-a1-0000000000000007" (Ok []) :: h) ∧
       createRejected e = true ∧
       kj_Name spec = "l5a-job-1-a1-0000000000000007" ∧
       forallb (λ a, match a with ADelete _ _ => false | _ => true end) h = true.
Proof. pick 4%nat tr_quota. eexists _, _, _, _. split; [exact Hpick|]. by split_and!. Qed.
