(* ===== verification/System.v ===== *)
(** * System: one Job at a time, across attempts, crashes and unknown outcomes

    The attempts at one job that follow each other, each cut short at any
    point, and the cluster that runs their Jobs. A cluster keeps the execution
    identity of the job as the store holds it, the Jobs that exist and whether
    they may still run, and the Creates whose outcome is unknown. [react] says
    which answers the store and the API server give, and what they change;
    [drift] what happens in the cluster meanwhile; [fresh_mint] and [telling]
    are what is assumed beyond that. *)

From S2P Require Import Prelude GoTime Errors Work Db Fingerprint Store StoreSpec StoreRun StoreStep.
From S2P Require Import Retry Names Failure World Worker Pipeline Protocol Attempt Stages Process.
From S2P Require Import AttemptSafe Codec WorkerSafe Instances RowInv RowRead Samples StoreExec.

(** ** The cluster *)

Record cluster := Cluster {
  c_exec : option (string * bool);  (* the identity in the store; whether it is terminal *)
  c_jobs : gmap string bool;        (* the Jobs that exist; whether one may still run *)
  c_flight : gset string;           (* names of Creates that may still be persisted *)
}.

(** The Job [n] runs, or may yet run. *)
Definition alive (c : cluster) (n : string) : Prop := c_jobs c !! n = Some true ∨ n ∈ c_flight c.
Definition known (c : cluster) (n : string) : Prop := is_Some (c_jobs c !! n) ∨ n ∈ c_flight c.
Definition nothing_alive (c : cluster) : Prop := ∀ n, ¬ alive c n.

(** A Job seen under a name leaves no Create of it in flight: what is still on
    its way meets AlreadyExists. *)
Definition settle (n : string) (c : cluster) : cluster :=
  Cluster (c_exec c) (c_jobs c) (c_flight c ∖ {[n]}).

(** ** What the store and the API server answer *)

Section Cluster.
Context (jobID : string).

Definition fresh_identity (c : cluster) (x : string) : bool :=
  forallb (λ n, bool_decide (c_jobs c !! n = None ∧ n ∉ c_flight c))
    [smokeJobName jobID x; l5aJobName jobID x].

(** An identity that is minted is that of no Job yet. *)
Definition fresh_mint (c : cluster) (a : action) : Prop :=
  match a with AEnsure _ (Ok (x, false)) => fresh_identity c x = true | _ => True end.

(** The Create of an L5-a Job is refused only while there is no such Job: an
    admission check or a quota that strikes first would tell nothing of it. *)
Definition telling (c : cluster) (a : action) : Prop :=
  match a with
  | ACreate false spec (Some e) =>
      kj_App spec = "nodevault-l5a" → refused e = true → is_api ApiAlreadyExists e = false →
      c_jobs c !! kj_Name spec = None
  | _ => True
  end.

(** The cluster after action [a] with its answer; [None] when it does not
    answer so. The identity is the store's (StoreExec.v): it is adopted while it
    is not terminal, replaced by a new one otherwise, and made terminal by its
    own name. A Create is persisted, meets a Job of that name, is refused, or its
    outcome is unknown. A Job with a Complete or Failed condition no longer runs;
    one that is not found does not exist. *)
Definition react (c : cluster) (a : action) : option cluster :=
  match a with
  | AEnsure _ (Ok (x, true)) => if bool_decide (c_exec c = Some (x, false)) then Some c else None
  | AEnsure _ (Ok (x, false)) =>
      match c_exec c with
      | Some (_, false) => None
      | _ => Some (Cluster (Some (x, false)) (c_jobs c) (c_flight c))
      end
  | AStore (OpMarkExecutionTerminal _ x) None =>
      match c_exec c with
      | Some (y, _) => if bool_decide (x = y) then Some (Cluster (Some (x, true)) (c_jobs c) (c_flight c)) else None
      | None => Some c
      end
  | ACreate false spec e =>
      let n := kj_Name spec in
      match e with
      | None =>
          match c_jobs c !! n with
          | None => Some (settle n (Cluster (c_exec c) (<[n := true]> (c_jobs c)) (c_flight c)))
          | Some _ => None
          end
      | Some e =>
          if is_api ApiAlreadyExists e then
            match c_jobs c !! n with Some _ => Some (settle n c) | None => None end
          else if refused e then Some c
          else Some (Cluster (c_exec c) (c_jobs c) ({[n]} ∪ c_flight c))
      end
  | AGet n (Ok conds) =>
      match c_jobs c !! n, ended conds with
      | None, _ | Some true, true => None
      | Some _, _ => Some (settle n c)
      end
  | AGet n (Err e) =>
      if is_api ApiNotFound e then match c_jobs c !! n with Some _ => None | None => Some c end else Some c
  | _ => Some c
  end.

(** *** The identity is the store's *)

(** The identity of a row, and whether it is terminal. *)
Definition store_identity (r : row) : option (string * bool) :=
  if bool_decide (execution_id (r_exec r) = "") then None
  else Some (execution_id (r_exec r), execution_terminal (r_exec r)).

(** The identity the cluster shows changes as the store's does: whatever
    statements fail, an EnsureExecution or a MarkExecutionTerminal that the
    store carries out is one [react] allows, and leaves the identity of the
    job's row where [react] does. *)
Theorem identity_refines_store `{SqlOrder, ActionsJson} now d r c :
  jobs d !! jobID = Some r → c_exec c = store_identity r →
  (∀ x adopted d', EnsureExecution jobID now d = (Ok (x, adopted), d') →
     ∃ c' r', react c (AEnsure jobID (Ok (x, adopted))) = Some c' ∧
       jobs d' !! jobID = Some r' ∧ c_exec c' = store_identity r') ∧
  (∀ x d', MarkExecutionTerminal jobID x now d = (Ok tt, d') →
     ∃ c' r', react c (AStore (OpMarkExecutionTerminal jobID x) None) = Some c' ∧
       jobs d' !! jobID = Some r' ∧ c_exec c' = store_identity r').
Proof.
  intros Hr Hc. split.
  - intros x adopted d' He. pose proof (EnsureExecution_cases jobID now d) as Hcase.
    rewrite He in Hcase. destruct Hcase as (r0 & Hr0 & Hcase). rewrite Hr in Hr0. injection Hr0 as <-.
    destruct (live_execution r) as [e0|] eqn:El.
    + destruct Hcase as (-> & -> & Hj). apply live_execution_some in El as (E1 & E2 & E3).
      exists c, r. cbn [react]. rewrite Hj.
      assert (c_exec c = Some (e0, false)) as Hx.
      { rewrite Hc. unfold store_identity. by rewrite E1, E3, bool_decide_eq_false_2. }
      by rewrite bool_decide_eq_true_2.
    + destruct Hcase as (-> & [v Hv] & Hj). cbn [react].
      exists (Cluster (Some (x, false)) (c_jobs c) (c_flight c)), (mint_row x now r).
      rewrite Hj, lookup_insert_eq. split; [|split; [done|]].
      * rewrite Hc. unfold store_identity, live_execution in *.
        destruct (bool_decide _); [done|]. by destruct (execution_terminal (r_exec r)).
      * unfold store_identity. cbn. rewrite bool_decide_eq_false_2; [done|]. by subst x.
  - intros x d' Hm. unfold MarkExecutionTerminal in Hm. bind_inv Hm n d1 H1.
    apply update_ok in H1. rewrite Hr in H1. cbn [react].
    destruct (executing x r) eqn:Hx.
    + destruct H1 as [-> Hj]. injection Hm as <-.
      unfold executing in Hx. apply andb_true_iff in Hx as [Hx Hne].
      apply bool_decide_eq_true_1 in Hx. apply negb_true_iff, bool_decide_eq_false_1 in Hne.
      rewrite Hc. unfold store_identity at 1. rewrite bool_decide_eq_false_2 by done.
      rewrite Hx, bool_decide_eq_true_2 by done.
      eexists _, (mark_terminal_row now r). split; [done|]. rewrite Hj, lookup_insert_eq. split; [done|].
      unfold store_identity. cbn. rewrite bool_decide_eq_false_2 by done. by rewrite Hx.
    + destruct H1 as [-> Hj]. cbn [Z.eqb] in Hm. bind_inv Hm r' d2 H2.
      apply get_ok in H2 as [-> ->]. rewrite Hj, Hr in Hm. case_bool_decide as Hid; [|done].
      injection Hm as <-. exists c, r. rewrite Hc. unfold store_identity.
      rewrite bool_decide_eq_true_2 by done. split; [done|]. split; [|done].
      unfold next_stmt. destruct (faults d1); cbn; by rewrite Hj.
Qed.

End Cluster.

(** A Job finishes or is removed, a Create in flight is persisted or lost. *)
Inductive drift : cluster → cluster → Prop :=
| drift_finish c n :
    c_jobs c !! n = Some true → drift c (Cluster (c_exec c) (<[n := false]> (c_jobs c)) (c_flight c))
| drift_remove c n : drift c (Cluster (c_exec c) (delete n (c_jobs c)) (c_flight c))
| drift_land c n :
    n ∈ c_flight c → c_jobs c !! n = None →
    drift c (Cluster (c_exec c) (<[n := true]> (c_jobs c)) (c_flight c))
| drift_drop c n : drift c (settle n c).

(** ** Attempts that follow each other *)

Section System.
Context {SO : SqlOrder} {AJ : ActionsJson} {DJ : DeliveryJson}.
Context (jobID : string) (actions : list string) (vault : bool).

(** The workers share one configuration; the attempts are at one job. *)
Definition deployed (wk : worker) (job : Job) : Prop :=
  JobID job = jobID ∧ RequestedActions job = actions ∧ vaultClient wk = vault.

(** [h] is what an attempt has done up to some point. *)
Definition attempt_prefix (wk : worker) (job : Job) (h : list action) : Prop :=
  ∃ E rounds vl fo w, conditions_exclusive E ∧ w_trace w = [] ∧
    h `suffix_of` attempt_trace E wk job rounds vl fo w.

(** The cluster after attempts of which the last, by [wk] with row [job], has
    done [h]. An attempt may stop anywhere; the next one begins when no Create
    of it is in flight any more, and two attempts do not overlap. (Overlap.v
    lets them, and proves that what is minted is fresh.) *)
Inductive evolves : cluster → worker → Job → list action → Prop :=
| evolves_start wk job : deployed wk job → evolves (Cluster None ∅ ∅) wk job []
| evolves_drift c c' wk job h : evolves c wk job h → drift c c' → evolves c' wk job h
| evolves_act c c' wk job a h :
    evolves c wk job h → attempt_prefix wk job (a :: h) →
    fresh_mint jobID c a → telling c a → react c a = Some c' →
    evolves c' wk job (a :: h)
| evolves_next c wk job h wk' job' :
    evolves c wk job h → c_flight c = ∅ → deployed wk' job' → evolves c wk' job' [].

(** *** The invariant *)

Definition smoke (x : string) : string := smokeJobName jobID x.
Definition l5a (x : string) : string := l5aJobName jobID x.

(** Between attempts: under a terminal identity nothing runs; under any other,
    only its own two Jobs, never the smoke run beside L5-a. *)
Definition identity_inv (follows : bool) (c : cluster) : Prop :=
  match c_exec c with
  | None | Some (_, true) => nothing_alive c
  | Some (x, false) =>
      (∀ n, alive c n → n = smoke x ∨ n = l5a x) ∧ (known c (l5a x) → ¬ alive c (smoke x)) ∧
      (follows = false → ¬ known c (l5a x))
  end.

(** At the L5-a stage nothing of L4 runs; before it there is no L5-a Job, unless
    the attempt adopted the identity and has not looked for one yet. *)
Definition stage_inv (follows : bool) (c : cluster) (x : string) (at_l5a : bool) (ph : exec_phase) : Prop :=
  (ph = Adopted → at_l5a = false ∧ follows = true) ∧
  (ph ≠ Adopted → if at_l5a then follows = true ∧ ¬ alive c (smoke x) else ¬ known c (l5a x)).

(** In an attempt, by what it knows of the Job of its stage. *)
Definition phase_inv (follows : bool) (c : cluster) (x : execution) : Prop :=
  match x with
  | NoExecution => c_flight c = ∅
  | Exec x at_l5a ph _ =>
      (∃ t, c_exec c = Some (x, t) ∧ (t = true → ph = Released)) ∧
      (ph ≠ Ambiguous → c_flight c = ∅) ∧
      stage_inv follows c x at_l5a ph ∧
      (ph ∈ [Unused; Over; Released] → nothing_alive c)
  end.

(** [c'] has no more than [c] running, existing or in flight. *)
Definition calmer (c' c : cluster) : Prop :=
  c_exec c' = c_exec c ∧ (∀ n, alive c' n → alive c n) ∧ (∀ n, known c' n → known c n) ∧
  c_flight c' ⊆ c_flight c.

Lemma alive_known c n : alive c n → known c n.
Proof. intros [H|H]; [left; by eexists|by right]. Qed.

Lemma stage_inv_next f c x s ph ph' :
  stage_inv f c x s ph → ph ≠ Adopted → ph' ≠ Adopted → stage_inv f c x s ph'.
Proof. intros [_ H] Hph Hph'. split; [done|]. intros _. by apply H. Qed.

Lemma calmer_inv f c c' x :
  calmer c' c → identity_inv f c → phase_inv f c x → identity_inv f c' ∧ phase_inv f c' x.
Proof.
  intros (He & Ha & Hk & Hf) Hi Hp.
  assert (nothing_alive c → nothing_alive c') as Hn by (intros Hn n Hn'; by apply (Hn n), Ha).
  assert (c_flight c = ∅ → c_flight c' = ∅) as Hf' by set_solver.
  split.
  - unfold identity_inv in *. rewrite He. destruct (c_exec c) as [[y []]|]; auto.
    destruct Hi as (H1 & H2 & H3). split_and!; [auto|intros ? ?; eapply H2; eauto|].
    intros ? ?. eapply H3; eauto.
  - destruct x as [|x s ph l4]; cbn in *; [auto|]. rewrite He.
    destruct Hp as (H1 & H2 & [H3 H3'] & H4). split_and!; auto. split; [done|].
    intros Hph. specialize (H3' Hph). destruct s; [destruct H3'; auto|auto].
Qed.

Lemma settle_calmer n c : calmer (settle n c) c.
Proof.
  split_and!; [done|..]; unfold alive, known; cbn; [intros m [H|H]; [by left|right]..|]; set_solver.
Qed.

Lemma drift_calmer c c' : drift c c' → calmer c' c.
Proof.
  destruct 1 as [c n Hn|c n|c n Hn _|c n]; [..|apply settle_calmer];
    (split_and!; [done|..|done]); unfold alive, known; cbn; intros m [H|H]; auto.
  - destruct (decide (n = m)) as [->|Hne]; [by rewrite lookup_insert_eq in H|].
    rewrite lookup_insert_ne in H by done. auto.
  - destruct (decide (n = m)) as [->|Hne]; [left; by eexists|].
    rewrite lookup_insert_ne in H by done. auto.
  - apply lookup_delete_Some in H as [_ H]. auto.
  - destruct H as [v H]. apply lookup_delete_Some in H as [_ H]. left. by exists v.
  - destruct (decide (n = m)) as [->|Hne]; [auto|]. rewrite lookup_insert_ne in H by done. auto.
  - destruct (decide (n = m)) as [->|Hne]; [auto|]. rewrite lookup_insert_ne in H by done. auto.
Qed.

(** *** Every action keeps it *)

Lemma smoke_not_l5a x y : smoke x ≠ l5a y.
Proof. unfold smoke, l5a, smokeJobName, l5aJobName. rewrite !string_app_cons. discriminate. Qed.

(** The Job of a stage is the only one that may be alive. *)
Definition stage_job (x : string) (at_l5a : bool) : string := if at_l5a then l5a x else smoke x.

Lemma stage_alive f c x s ph l4 n :
  identity_inv f c → phase_inv f c (Exec x s ph l4) → ph ≠ Adopted → alive c n → n = stage_job x s.
Proof.
  intros Hi (([] & He & Ht) & _ & Hs & Hn) Hph Ha; unfold identity_inv in Hi; rewrite He in Hi.
  { by edestruct Hi. }
  destruct Hi as (Hi & _). destruct (Hi n Ha) as [->| ->]; destruct s; cbn.
  all: destruct Hs as [_ Hs]; specialize (Hs Hph); try done.
  - by destruct Hs as [_ []].
  - destruct Hs. by apply alive_known.
Qed.

(** Settled, its stage has nothing in flight. *)
Lemma stage_settled f c x s ph l4 :
  identity_inv f c → phase_inv f c (Exec x s ph l4) → ph ≠ Adopted →
  c_flight (settle (stage_job x s) c) = ∅.
Proof.
  intros Hi Hp Hph. cbn. apply leibniz_equiv, set_equiv. intros n. split; [|set_solver].
  intros [Hn Hne]%elem_of_difference. destruct Hne. apply elem_of_singleton.
  eapply stage_alive; eauto. by right.
Qed.

Lemma stage_over f c x s ph l4 :
  identity_inv f c → phase_inv f c (Exec x s ph l4) → ph ≠ Adopted →
  c_flight c = ∅ → c_jobs c !! stage_job x s ≠ Some true → nothing_alive c.
Proof.
  intros Hi Hp Hph Hf Hj n Hn. pose proof (stage_alive _ _ _ _ _ _ _ Hi Hp Hph Hn) as ->.
  destruct Hn as [Hn|Hn]; [done|]. rewrite Hf in Hn. set_solver.
Qed.

Lemma plain_calmer a c c' : plain a = true → react c a = Some c' → calmer c' c.
Proof.
  intros Hp H. assert (calmer c c) as Hc by (split_and!; auto).
  destruct a as [o e|id [[x []]|e]|id w n r|[] spec e|n [conds|e]| | | | | | | ];
    try done; cbn in H; try (by injection H as <-).
  - destruct o; try done; by injection H as <-.
  - repeat case_match; simplify_eq; apply settle_calmer.
  - repeat case_match; by simplify_eq.
Qed.

Lemma pstep_lost_plain wk job s a s' :
  pstep wk job s a = Some s' → p_lost s' = true → p_exec s' = p_exec s ∧ plain a = true.
Proof.
  intros H Hl'. unfold pstep in H. destruct (p_lost s) eqn:Hl.
  { destruct (harmless a) eqn:Ha; [|done]. injection H as <-. split; [done|].
    destruct a as [[] e| | | | | | | | | | |]; done. }
  destruct (p_closed s); [destruct a; try done; injection H as <-; congruence|].
  destruct a as [o e|id r|id w n r|dry spec e|name r|id r|name r|name e|r|r e|r e|m]; cbn beta iota in H.
  1: destruct o; try done; cbn in H; unfold with_exec, with_report, closing in H;
    repeat case_match; simplify_eq; cbn in Hl'; congruence || done.
  all: exfalso; unfold submitted, with_report, with_exec in H; repeat case_match; simplify_eq;
    cbn in Hl'; congruence.
Qed.

Section Step.
Context (wk : worker) (job : Job) (Hdep : deployed wk job).
#[local] Abbreviation f := (l5a_follows wk job).

Lemma own_names x :
  smoke_name job x = smoke x ∧ l5a_name job x = l5a x ∧
  kj_Name (buildSmokeJobSpec (set_ExecutionID x job)) = smoke x ∧
  kj_Name (buildL5aJobSpec (set_ExecutionID x job)) = l5a x.
Proof. destruct Hdep as (Hid & _). unfold smoke, l5a. by rewrite <- Hid. Qed.

Lemma ensure_inv c c' id x adopted :
  react c (AEnsure id (Ok (x, adopted))) = Some c' → fresh_mint jobID c (AEnsure id (Ok (x, adopted))) →
  identity_inv f c → c_flight c = ∅ →
  identity_inv f c' ∧ phase_inv f c' (Exec x false (adopted_phase wk job adopted) false).
Proof.
  intros H Hfr Hi Hf. destruct adopted; cbn [react fresh_mint] in H, Hfr.
  - case_bool_decide as He; [|done]. injection H as <-. split; [done|]. unfold identity_inv in Hi.
    rewrite He in Hi. destruct Hi as (_ & _ & Hi). cbn.
    split; [by exists false|]. split; [done|].
    destruct f; (split; [split; [done|intros; auto; done]|set_solver]).
  - assert (nothing_alive c) as Hn by (unfold identity_inv in Hi; by destruct (c_exec c) as [[? []]|]).
    assert (c' = Cluster (Some (x, false)) (c_jobs c) (c_flight c) ∧ ¬ known c (l5a x)) as [-> Hk].
    { cbn in Hfr. apply andb_true_iff in Hfr as [_ Hfr]. rewrite andb_true_r in Hfr.
      apply bool_decide_eq_true_1 in Hfr as [Hj Hfl].
      split; [by destruct (c_exec c) as [[? []]|]; simplify_eq|]. by intros [[v Hv]|Hv]; [unfold l5a in Hv; congruence|]. }
    split.
    + cbn. split_and!; [intros n Hn'; by edestruct (Hn n)|intros _; apply Hn|auto].
    + cbn. split; [by exists false|]. split; [done|]. split; [by split|]. intros _. exact Hn.
Qed.

Lemma mark_inv c c' x s ph l4 e :
  react c (AStore (OpMarkExecutionTerminal (JobID job) x) e) = Some c' →
  ph ∈ [Unused; Over] → identity_inv f c → phase_inv f c (Exec x s ph l4) →
  identity_inv f c' ∧ phase_inv f c' (Exec x s Released l4).
Proof.
  intros H Hph Hi ((t & He & Ht) & Hf & Hs & Hn).
  assert (ph ≠ Ambiguous ∧ ph ≠ Adopted) as [Hph1 Hph2] by set_solver.
  assert (nothing_alive c) as Hn' by (apply Hn; set_solver).
  pose proof (stage_inv_next _ _ _ _ _ Released Hs Hph2 ltac:(done)) as Hs'.
  cbn [react] in H. destruct e.
  - injection H as <-. split; [done|]. split; [by exists t|]. auto.
  - rewrite He in H. case_bool_decide; [|done]. injection H as <-. split; [exact Hn'|].
    split; [by exists true|]. auto.
Qed.

Lemma delete_inv c n e x s ph l4 :
  ph ∉ [Adopted; Ambiguous] → phase_inv f c (Exec x s ph l4) →
  react c (ADelete n e) = Some c ∧ phase_inv f c (Exec x s (deleted ph) l4).
Proof.
  intros Hph ((t & He & Ht) & Hf & Hs & Hn). split; [done|].
  assert (c_flight c = ∅) as Hf' by (apply Hf; set_solver).
  split.
  { exists t. split; [done|]. intros Hr. by rewrite (Ht Hr). }
  split; [done|]. split.
  - eapply stage_inv_next; [exact Hs|set_solver|by destruct ph].
  - intros Hd. apply Hn. destruct ph; set_solver.
Qed.

(** The live identity of a phase that has not released it. *)
Lemma phase_identity c x s ph l4 :
  identity_inv f c → phase_inv f c (Exec x s ph l4) → ph ≠ Released →
  c_exec c = Some (x, false) ∧ (∀ n, alive c n → n = smoke x ∨ n = l5a x) ∧
  (known c (l5a x) → ¬ alive c (smoke x)) ∧ (f = false → ¬ known c (l5a x)).
Proof.
  intros Hi ((t & He & Ht) & _) Hph. destruct t; [by rewrite Ht in Hph|].
  split; [done|]. unfold identity_inv in Hi. by rewrite He in Hi.
Qed.

(** After a call that only settles the Job of its stage. *)
Lemma settled_inv c x s ph ph' l4 l4' :
  identity_inv f c → phase_inv f c (Exec x s ph l4) → ph ≠ Adopted → ph ≠ Released →
  (ph' = Over → c_jobs c !! stage_job x s ≠ Some true) → ph' ∈ [Present; Over] →
  let c' := settle (stage_job x s) c in
  identity_inv f c' ∧ phase_inv f c' (Exec x s ph' l4').
Proof.
  intros Hi Hp Hph1 Hph2 Hover Hph' c'.
  destruct (calmer_inv f c c' _ (settle_calmer _ _) Hi Hp) as [Hi' Hp']. split; [done|].
  assert (c_flight c' = ∅) as Hf by by eapply stage_settled.
  pose proof Hp' as ((t & He & Ht) & _ & Hs & _).
  split; [exists t; split; [done|]; intros Hr; by rewrite Ht in Hph2|].
  split; [done|]. split.
  - eapply stage_inv_next; [exact Hs|done|set_solver].
  - intros Hph. eapply stage_over; [exact Hi'|exact Hp'|done..|]. apply Hover. set_solver.
Qed.

Lemma get_inv c c' x s ph l4 l4' r :
  react c (AGet (stage_job x s) r) = Some c' → ph ≠ Adopted →
  identity_inv f c → phase_inv f c (Exec x s ph l4) →
  identity_inv f c' ∧ phase_inv f c' (Exec x s (observed r ph) l4').
Proof.
  intros H Hph Hi Hp. destruct (decide (ph = Released)) as [->|Hph'].
  { replace (observed r Released) with Released by (destruct r; cbn; by repeat case_match).
    by apply (calmer_inv f c c' (Exec x s Released l4)); [eapply plain_calmer; [|exact H]|..]. }
  destruct r as [conds|e]; cbn [react] in H.
  - assert (observed (Ok conds) ph = if ended conds then Over else Present)
      as -> by by destruct ph.
    assert (c' = settle (stage_job x s) c ∧ (ended conds = true → c_jobs c !! stage_job x s ≠ Some true))
      as [-> Hd].
    { repeat case_match; simplify_eq; (split; [done|]); intros ?; congruence. }
    eapply settled_inv; [done..| |]; destruct (ended conds); set_solver.
  - cbn [observed]. destruct (is_api ApiNotFound e); [|by injection H as <-].
    destruct (c_jobs c !! stage_job x s) eqn:Hj; [done|]. injection H as <-. split; [done|].
    assert (ph ∈ [Present; Deleting] → nothing_alive c) as Hn.
    { intros Hpd. eapply stage_over; [done..| |by rewrite Hj]. destruct Hp as (_ & Hf & _).
      apply Hf. set_solver. }
    destruct ph; try done; destruct Hp as (He & Hf & Hs & _);
      (split; [destruct He as (t & He & Ht); exists t; split; [done|intros Hr; by specialize (Ht Hr)]|]);
      (split; [intros _; by apply Hf|]); (split; [by eapply stage_inv_next|]);
      intros _; apply Hn; set_solver.
Qed.

(** Looking for the L5-a Job of an adopted identity. *)
Lemma looked_inv c c' x l4 r :
  react c (AGet (l5a x) r) = Some c' →
  identity_inv f c → phase_inv f c (Exec x false Adopted l4) →
  identity_inv f c' ∧ phase_inv f c' (looked_for_l5a x r).
Proof.
  intros H Hi Hp. pose proof (phase_identity _ _ _ _ _ Hi Hp) as (He & _ & Hk & Hnf); [done|].
  pose proof Hp as (_ & Hf & Hs & _). specialize (Hf ltac:(done)).
  destruct Hs as [Hs _]. destruct (Hs eq_refl) as [_ Hff].
  destruct r as [conds|e]; cbn [react looked_for_l5a] in *.
  - assert (is_Some (c_jobs c !! l5a x)) as Hj by (by destruct (c_jobs c !! l5a x)).
    assert (phase_inv f c (Exec x true Present l4)) as Hp'.
    { split; [by exists false|]. split; [done|]. split; [|set_solver]. split; [done|]. intros _. split; [done|].
      apply Hk. by left. }
    assert (observed (Ok conds) Adopted = observed (Ok conds) Present) as -> by done.
    by eapply (get_inv c c' x true Present l4).
  - destruct (is_api ApiNotFound e); [|injection H as <-; split; [done|]].
    + destruct (c_jobs c !! l5a x) eqn:Hj; [done|]. injection H as <-. split; [done|].
      split; [by exists false|]. split; [done|]. split; [|set_solver]. split; [done|].
      intros _ [[v Hv]|Hv]; [congruence|]. rewrite Hf in Hv. set_solver.
    + split; [by exists false|]. split; [done|]. split; [|set_solver]. by split.
Qed.

(** A Create of the Job [n] adds at most [n]. *)
Definition at_most (c c' : cluster) (n : string) : Prop :=
  c_exec c' = c_exec c ∧ (∀ m, alive c' m → m = n ∨ alive c m) ∧ (∀ m, known c' m → m = n ∨ known c m).

Lemma create_cases c c' spec e b ph :
  react c (ACreate false spec e) = Some c' → telling c (ACreate false spec e) →
  at_most c c' (kj_Name spec) ∧
  (created b e ph = Present ∧ c_flight c' = c_flight (settle (kj_Name spec) c) ∨
   created b e ph = (if b && negb (bool_decide (ph = Ambiguous)) then Over else ph) ∧
     c' = c ∧ (kj_App spec = "nodevault-l5a" → c_jobs c !! kj_Name spec = None) ∨
   created b e ph = Ambiguous).
Proof.
  unfold at_most. cbn [react telling]; unfold created. set (n := kj_Name spec).
  pose proof (settle_calmer n c) as (Hc1 & Hc2 & Hc3 & _).
  destruct e as [e|].
  - destruct (is_api ApiAlreadyExists e).
    { destruct (c_jobs c !! n); [|done]. intros [= <-] _. split; [auto|by left]. }
    destruct (refused e).
    { intros [= <-] Ht. split; [auto|]. right; left. auto. }
    intros [= <-] _. split; [|by right; right]. unfold alive, known. cbn. split; [done|].
    split; intros m [H|[H%elem_of_singleton|H]%elem_of_union]; auto.
  - destruct (c_jobs c !! n); [done|]. intros [= <-] _. split; [|by left]. unfold alive, known. cbn.
    split; [done|].
    split; intros m [H|[H _]%elem_of_difference]; auto; destruct (decide (m = n)) as [->|Hne]; auto;
      rewrite lookup_insert_ne in H by done; auto.
Qed.

(** A Create in the stage [s] keeps the invariant of the identity. *)
Lemma create_identity c c' x s :
  at_most c c' (stage_job x s) → identity_inv f c → c_exec c = Some (x, false) →
  (if s then f = true ∧ ¬ alive c (smoke x) else ¬ known c (l5a x)) →
  identity_inv f c' ∧ (if s then f = true ∧ ¬ alive c' (smoke x) else ¬ known c' (l5a x)).
Proof.
  intros (He & Ha & Hk) Hi Hx Hs. unfold identity_inv in *. rewrite Hx in Hi, He. rewrite He.
  destruct Hi as (H1 & H2 & H3).
  assert (if s then f = true ∧ ¬ alive c' (smoke x) else ¬ known c' (l5a x)) as Hs'.
  { destruct s; cbn in *.
    - destruct Hs as [Hf Hs]. split; [done|]. intros [E|Hn]%Ha; [by eapply smoke_not_l5a|done].
    - intros [E|Hn]%Hk; [by eapply smoke_not_l5a|done]. }
  split; [|done]. split_and!.
  - intros n [->|Hn]%Ha; [destruct s; auto|auto].
  - destruct s; [by destruct Hs'|done].
  - destruct s; [intros Hf; destruct Hs'; congruence|auto].
Qed.

Lemma create_smoke_inv c c' x ph l4 e :
  react c (ACreate false (buildSmokeJobSpec (set_ExecutionID x job)) e) = Some c' →
  telling c (ACreate false (buildSmokeJobSpec (set_ExecutionID x job)) e) →
  ph ∈ [Unused; Unseen] → identity_inv f c → phase_inv f c (Exec x false ph l4) →
  identity_inv f c' ∧ phase_inv f c' (Exec x false (created false e ph) l4).
Proof.
  intros H Htell Hph Hi Hp. destruct (own_names x) as (_ & _ & Hname & _).
  pose proof (phase_identity _ _ _ _ _ Hi Hp) as (He & _); [set_solver|].
  destruct (create_cases _ _ _ _ false ph H Htell) as [Hat Hcase]. rewrite Hname in Hat, Hcase.
  pose proof Hp as (_ & Hf & Hs & Hn).
  assert (¬ known c (l5a x)) as Hk by (apply Hs; set_solver).
  destruct (create_identity c c' x false Hat Hi He Hk) as [Hi' Hk']. split; [done|].
  assert (c_flight c = ∅) as Hf0 by (apply Hf; set_solver).
  destruct Hat as (He' & _). rewrite He in He'.
  destruct Hcase as [[-> Hfl]|[(-> & -> & Hj)| ->]].
  - split; [by exists false|]. split; [intros _; rewrite Hfl; cbn; rewrite Hf0; set_solver|].
    split; [by split|set_solver].
  - done.
  - split; [by exists false|]. split; [done|]. split; [by split|set_solver].
Qed.

Lemma create_l5a_inv c c' x s ph l4 e :
  react c (ACreate false (buildL5aJobSpec (set_ExecutionID x job)) e) = Some c' →
  telling c (ACreate false (buildL5aJobSpec (set_ExecutionID x job)) e) →
  ph ∉ [Released; Unused; Adopted; Unseen] → s = true ∨ ph = Over → f = true →
  identity_inv f c → phase_inv f c (Exec x s ph l4) →
  identity_inv f c' ∧ phase_inv f c' (Exec x true (created true e ph) l4).
Proof.
  intros H Htell Hph Hst Hff Hi Hp. destruct (own_names x) as (_ & _ & _ & Hname).
  pose proof (phase_identity _ _ _ _ _ Hi Hp) as (He & _); [set_solver|].
  destruct (create_cases _ _ _ _ true ph H Htell) as [Hat Hcase]. rewrite Hname in Hat, Hcase.
  assert (ph ≠ Adopted) as Hna by set_solver.
  assert (phase_inv f c (Exec x true ph l4)) as Hp'.
  { pose proof Hp as (H1 & H2 & H3 & H4). split; [done|]. split; [done|]. split; [|done].
    destruct Hst as [->| ->]; [done|]. split; [done|]. intros _. split; [done|]. apply H4. set_solver. }
  pose proof Hp' as (_ & Hf & [_ Hs] & Hn). specialize (Hs Hna).
  destruct (create_identity c c' x true Hat Hi He Hs) as [Hi' Hs']. split; [done|].
  assert (c_flight (settle (l5a x) c) = ∅) as Hfl'
    by (eapply (stage_settled f c x true); [done..|set_solver]).
  destruct Hat as (He' & _). rewrite He in He'.
  destruct Hcase as [[-> Hfl]|[(-> & -> & Hj)| ->]].
  - split; [by exists false|]. split; [by rewrite Hfl|]. split; [by split|set_solver].
  - case_bool_decide as Ha; cbn [andb negb]; [done|]. split; [by exists false|].
    split; [by intros _; apply Hf|]. split; [by split|]. intros _.
    eapply (stage_over f c x true); [done|exact Hp'|set_solver|by apply Hf|cbn; by rewrite Hj].
  - split; [by exists false|]. split; [done|]. split; [by split|set_solver].
Qed.

Lemma step_inv s a s' c c' :
  pstep wk job s a = Some s' → fresh_mint jobID c a → telling c a → react c a = Some c' →
  identity_inv f c → phase_inv f c (p_exec s) →
  identity_inv f c' ∧ phase_inv f c' (p_exec s').
Proof.
  intros Hst Hfr Htell Hre Hi Hp. destruct (own_names "") as (_ & _ & _ & _).
  destruct (p_lost s') eqn:Hl'.
  { destruct (pstep_lost_plain _ _ _ _ _ Hst Hl') as [-> Hpl].
    eapply calmer_inv; [by eapply plain_calmer|done..]. }
  destruct (pstep_exec _ _ _ _ _ Hst Hl') as [_ [[Hpl ->]|[(id & x & ad & -> & Hx & ->)|
    (x & l & ph & l4 & Hx & _ & Hcases)]]].
  - eapply calmer_inv; [by eapply plain_calmer|done..].
  - rewrite Hx in Hp. by eapply ensure_inv.
  - rewrite Hx in Hp. clear Hx Hst. destruct (own_names x) as (Hsm & Hl5 & _ & _).
    assert (∀ b, stage_name job x b = stage_job x b) as Hname by (by intros []).
    destruct Hcases as [(e & -> & Hph & ->)|[(e & -> & Hph & -> & ->)|[(e & -> & Hph & Hs & -> & Hf & ->)|
      [(r & -> & -> & ->)|[(r & -> & Hph & ->)|(e & -> & Hph & ->)]]]]].
    + by eapply mark_inv.
    + by eapply create_smoke_inv.
    + by eapply create_l5a_inv.
    + rewrite Hl5 in Hre. pose proof Hp as (_ & _ & [Had _] & _). destruct (Had eq_refl) as [-> _]. by eapply looked_inv.
    + rewrite Hname in Hre. by eapply get_inv.
    + destruct (delete_inv c (stage_name job x l) e x l ph l4 Hph Hp) as [Hr Hp'].
      rewrite Hr in Hre. by injection Hre as <-.
Qed.

End Step.

(** *** At most one Job *)

Definition follows : bool :=
  match planStages actions with Ok plan => runL5a_ plan && vault | Err _ => false end.

Lemma deployed_follows wk job : deployed wk job → l5a_follows wk job = follows.
Proof. intros (_ & Ha & Hv). unfold l5a_follows, follows. by rewrite Ha, Hv. Qed.

Lemma prefix_step wk job a h :
  attempt_prefix wk job (a :: h) →
  ∃ s s', prun wk job h = Some s ∧ pstep wk job s a = Some s' ∧ prun wk job (a :: h) = Some s'.
Proof.
  intros (E & rounds & vl & fo & w & HE & Hw & Hh).
  destruct (process_prun E wk job rounds vl fo HE w Hw) as [s Hs].
  destruct (prun_suffix _ _ _ _ _ _ Hs Hh) as (s0 & s1 & H0 & H1).
  exists s0, s1. split_and!; [done..|]. cbn. by rewrite H0.
Qed.

Lemma evolves_inv c wk job h :
  evolves c wk job h →
  deployed wk job ∧ ∃ s, prun wk job h = Some s ∧ identity_inv follows c ∧ phase_inv follows c (p_exec s).
Proof.
  induction 1 as [wk job Hd|c c' wk job h _ [Hd (s & Hs & Hi & Hp)] Hdr
    |c c' wk job a h _ [Hd (s & Hs & Hi & Hp)] Hpre Hfr Htell Hre
    |c wk job h wk' job' _ [_ (s & Hs & Hi & Hp)] Hf Hd]; (split; [done|]).
  - exists p_init. split; [done|]. split; [|done]. intros n [H|H]; cbn in H; [by rewrite lookup_empty in H|set_solver].
  - exists s. split; [done|]. eapply calmer_inv; [by apply drift_calmer|done..].
  - destruct (prefix_step _ _ _ _ Hpre) as (s0 & s1 & H0 & H1 & H2). exists s1. split; [done|].
    rewrite H0 in Hs. injection Hs as ->. rewrite <- (deployed_follows wk job Hd) in Hi, Hp |- *.
    by eapply step_inv.
  - by exists p_init.
Qed.

(** One Job at a time. However the attempts at a job are cut short, taken
    up again and repeated, and however Creates fail, time out or take effect
    late, at any moment at most one Kubernetes Job of it runs or may yet run;
    and none does under an execution identity that was released. This holds for
    attempts that do not overlap and mint fresh identities, when a Create in
    flight is persisted or lost before the next attempt begins, and the Create of
    an L5-a Job is refused only where there is no such Job. *)
Theorem one_job_at_a_time c wk job h :
  evolves c wk job h →
  (∀ n m, alive c n → alive c m → n = m) ∧ (∀ x, c_exec c = Some (x, true) → nothing_alive c).
Proof.
  intros H. destruct (evolves_inv _ _ _ _ H) as (_ & s & _ & Hi & _). unfold identity_inv in Hi.
  destruct (c_exec c) as [[x []]|]; (split; [|by try intros y [= <-]]).
  - intros n m Hn. by destruct (Hi n).
  - destruct Hi as (H1 & H2 & _). intros n m Hn Hm.
    destruct (H1 n Hn) as [->| ->], (H1 m Hm) as [->| ->]; [done|..|done];
      by destruct H2; [apply alive_known|].
  - intros n m Hn. by destruct (Hi n).
Qed.

(** A step that fulfils the assumptions. *)
Definition ordinary (c : cluster) (a : action) : bool :=
  match a with
  | AEnsure _ (Ok (x, false)) => fresh_identity jobID c x
  | ACreate false spec (Some _) => bool_decide (c_jobs c !! kj_Name spec = None)
  | _ => true
  end.

Lemma ordinary_assumed c a : ordinary c a = true → fresh_mint jobID c a ∧ telling c a.
Proof.
  destruct a as [|id [[x []]|]| |[] spec [e|]| | | | | | | | ]; try done. cbn. intros H%bool_decide_eq_true_1. auto.
Qed.

(** The cluster after the actions [l], latest first. *)
Fixpoint replay (c : cluster) (l : list action) : option cluster :=
  match l with
  | [] => Some c
  | a :: l => c' ← replay c l; if ordinary c' a then react c' a else None
  end.

Lemma evolves_replay l c wk job :
  deployed wk job → attempt_prefix wk job l → replay (Cluster None ∅ ∅) l = Some c → evolves c wk job l.
Proof.
  intros Hd. revert c. induction l as [|a l IH]; intros c Hp Hr; [injection Hr as <-; by apply evolves_start|].
  cbn in Hr. apply bind_Some in Hr as (c1 & Hr & Ha). destruct (ordinary c1 a) eqn:Ho; [|done].
  apply ordinary_assumed in Ho as [Hf Ht]. eapply evolves_act; [|exact Hp|exact Hf|exact Ht|exact Ha].
  apply IH; [|done]. destruct Hp as (E & rounds & vl & fo & w & HE & Hw & Hh).
  exists E, rounds, vl, fo, w. split_and!; [done..|]. eapply suffix_cons_l, Hh.
Qed.

End System.

(** ** A concrete run *)

#[local] Abbreviation tr_ok :=
  (attempt_trace (λ _, env_ok) sample_worker sample_leased 3 (λ _, true) (λ _, 0) start).

(** The attempt stops right after its Create: the smoke-run Job is the one alive. *)
Lemma one_job_at_a_time_witness :
  ∃ c h, evolves "job-1" [ActionSmokeRun] true c sample_worker sample_leased h ∧
    alive c "smoke-job-1-a1-0000000000000007" ∧
    ∀ n, alive c n → n = "smoke-job-1-a1-0000000000000007".
Proof.
  pick 7%nat tr_ok.
  lazymatch goal with H : did_after _ ?a ?h |- _ =>
    let c := eval vm_compute in (replay "job-1" (Cluster None ∅ ∅) (a :: h)) in
    lazymatch c with Some ?c =>
      assert (evolves "job-1" [ActionSmokeRun] true c sample_worker sample_leased (a :: h)) as He;
      [|exists c, (a :: h)]
    end
  end.
  - apply evolves_replay.
    + done.
    + exists (λ _, env_ok), 3%nat, (λ _, true), (λ _, 0), start.
      split; [apply env_ok_exclusive|]. by split.
    + vm_compute. reflexivity.
  - match goal with |- _ ∧ alive ?c ?n ∧ _ =>
      assert (alive c n) as Ha by (left; vm_compute; reflexivity) end.
    split; [exact He|]. split; [exact Ha|]. intros n Hn.
    exact (proj1 (one_job_at_a_time _ _ _ _ _ _ _ He) n _ Hn Ha).
Defined.

Lemma identity_refines_store_witness :
  ∃ c', react (Cluster (store_identity (sample_row d_executing)) ∅ ∅)
    (AStore (OpMarkExecutionTerminal "job-1" "a1-0000000000000007") None) = Some c' ∧
    c_exec c' = Some ("a1-0000000000000007", true).
Proof.
  destruct (identity_refines_store "job-1" (at_s 3) (Db (jobs d_executing) ∅ [] []) (sample_row d_executing)
    (Cluster (store_identity (sample_row d_executing)) ∅ ∅)) as [_ H].
  - apply sample_row_lookup. vm_compute. reflexivity.
  - reflexivity.
  - destruct (MarkExecutionTerminal "job-1" "a1-0000000000000007" (at_s 3) (Db (jobs d_executing) ∅ [] []))
      as [[[]|e] d'] eqn:E; [|exfalso; vm_compute in E; discriminate].
    destruct (H _ _ E) as (c' & r' & Hc & Hr & He). exists c'. split; [exact Hc|].
    rewrite He. vm_compute in E. injection E as <-. vm_compute in Hr. injection Hr as <-. vm_compute. reflexivity.
Defined.
