(* ===== verification/Ingress.v ===== *)
(** * Ingress: enqueueing validation work

    EnqueueValidationWork of [pkg/ingress/server.go]: the request is checked,
    given a random job ID and handed to the store's CreateJob; the answer is a
    gRPC response or status. *)

From S2P Require Import Prelude GoTime Errors Work Db Fingerprint Store Instances.
From S2P Require Import StoreSpec StoreRun StoreStep RowInv RowRead Samples StoreCreate.

(** ** Requests and answers *)

Inductive code := InvalidArgument | FailedPrecondition | Internal.

(** A gRPC status error. *)
Record status_error := StatusError { st_code : code; st_message : string }.

Record EnqueueValidationWorkRequest := {
  eq_ArtifactKind : string;
  eq_ImageRepository : string;
  eq_ImageDigest : string;
  eq_StableRef : string;
  eq_ToolName : string;
  eq_Version : string;
  eq_CasHash : string;
  eq_RequestedActions : list string;
  eq_RequestedFixtureSet : string;
  eq_ValidationRequestId : string;
}.

Record EnqueueValidationWorkResponse := Response { rs_JobId : string; rs_Status : string }.

(** ** strings.TrimSpace *)

(** The UTF-8 encodings of the code points with the White_Space property. *)
Definition white_space : list string :=
  let b (n : N) := ascii_of_N n in
  ((λ n, String (b n) "") <$> [9; 10; 11; 12; 13; 32])%N ++
  ((λ n, String (b 194) (String (b n) "")) <$> [133; 160])%N ++
  [String (b 225) (String (b 154) (String (b 128) ""))]%N ++
  ((λ n, String (b 226) (String (b 128) (String (b n) ""))) <$>
     [128; 129; 130; 131; 132; 133; 134; 135; 136; 137; 138; 168; 169; 175])%N ++
  [String (b 226) (String (b 129) (String (b 159) ""));
   String (b 227) (String (b 128) (String (b 128) ""))]%N.

Definition is_space (s : string) : bool := bool_decide (s ∈ white_space).

(** [strings.TrimSpace(s) == ""]: every rune of [s] is white space. *)
Fixpoint blank (s : string) : bool :=
  match s with
  | EmptyString => true
  | String a s1 =>
      if is_space (String a "") then blank s1
      else match s1 with
      | EmptyString => false
      | String b s2 =>
          if is_space (String a (String b "")) then blank s2
          else match s2 with
          | EmptyString => false
          | String c s3 => is_space (String a (String b (String c ""))) && blank s3
          end
      end
  end.

(** ** The handler *)

Definition required (req : EnqueueValidationWorkRequest) : list (string * string) :=
  [("artifact_kind", eq_ArtifactKind req);
   ("image_repository", eq_ImageRepository req);
   ("tool_name", eq_ToolName req);
   ("version", eq_Version req);
   ("validation_request_id", eq_ValidationRequestId req)].

Section Ingress.
Context {SO : SqlOrder} {AJ : ActionsJson}.

(** [order]: the order in which Go ranges over the map of required fields. *)
Definition validate (order : list (string * string) → list (string * string))
    (req : EnqueueValidationWorkRequest) : option status_error :=
  match filter (λ p, blank p.2 = true) (order (required req)) with
  | p :: _ => Some (StatusError InvalidArgument (p.1 +:+ " must not be empty"))
  | [] =>
      if bool_decide (eq_RequestedActions req = []) then
        Some (StatusError InvalidArgument "requested_actions must not be empty")
      else if existsb blank (eq_RequestedActions req) then
        Some (StatusError InvalidArgument "requested_actions must not contain blank entries")
      else None
  end.

(** [partial]: what the buffer holds when rand.Read fails. *)
Definition newJobID (partial : N) (d : db) : string * db :=
  match rand_hex 16 d with
  | (Ok s, d') => ("job-" +:+ s, d')
  | (Err _, d') => ("job-fallback-" +:+ hex_encode 32 partial, d')
  end.

Definition job_request (id : string) (req : EnqueueValidationWorkRequest) : JobRequest := {|
  req_JobID := id;
  req_ArtifactKind := eq_ArtifactKind req;
  req_ImageRepository := eq_ImageRepository req;
  req_ImageDigest := eq_ImageDigest req;
  req_StableRef := eq_StableRef req;
  req_ToolName := eq_ToolName req;
  req_Version := eq_Version req;
  req_CasHash := eq_CasHash req;
  req_RequestedActions := eq_RequestedActions req;
  req_RequestedFixtureSet := eq_RequestedFixtureSet req;
  req_ValidationRequestID := eq_ValidationRequestId req;
|}.

Definition create_error (req : EnqueueValidationWorkRequest) (e : error) : status_error :=
  if errors_is e ErrValidationRequestConflict then
    StatusError FailedPrecondition ("validation_request_id " +:+ quoted (eq_ValidationRequestId req) +:+
                                    " already used with a different request")
  else StatusError Internal ("create job: " +:+ error_text e).

(** A nil request is [None]. *)
Definition EnqueueValidationWork (order : list (string * string) → list (string * string)) (partial : N)
    (req : option EnqueueValidationWorkRequest) (now : instant) (d : db) :
    res status_error EnqueueValidationWorkResponse * db :=
  match req with
  | None => (Err (StatusError InvalidArgument "request must not be nil"), d)
  | Some req =>
      match validate order req with
      | Some st => (Err st, d)
      | None =>
          let '(id, d1) := newJobID partial d in
          match CreateJob (job_request id req) now d1 with
          | (Ok job, d2) => (Ok (Response (JobID job) (Status_text (JobStatus job))), d2)
          | (Err e, d2) => (Err (create_error req e), d2)
          end
      end
  end.

(** ** Blank texts *)

Lemma blank_cons w s : w ∈ white_space → blank (w +:+ s) = blank s.
Proof.
  intros H. assert (Forall (λ w, blank (w +:+ s) = blank s) white_space) as Hall.
  { repeat (constructor; [reflexivity|]). constructor. }
  by apply (proj1 (Forall_forall _ _) Hall).
Qed.

Lemma is_space_true s : is_space s = true → s ∈ white_space.
Proof. apply bool_decide_eq_true_1. Qed.

(** A field counts as blank exactly when it is a sequence of Unicode
    white-space runes in UTF-8. *)
Theorem blank_white_space s :
  blank s = true ↔ ∃ ws, Forall (λ w, w ∈ white_space) ws ∧ s = foldr String.append "" ws.
Proof.
  split.
  - remember (String.length s) as n eqn:En. revert s En.
    induction (lt_wf n) as [n _ IH]. intros s -> H.
    assert (∀ w s', w ∈ white_space → s = w +:+ s' → (String.length s' < String.length s)%nat →
      blank s' = true → ∃ ws, Forall (λ w, w ∈ white_space) ws ∧ s = foldr String.append "" ws) as Hcons.
    { intros w s' Hw Hs Hl Hb. destruct (IH _ Hl s' eq_refl Hb) as (ws & Hws & E).
      exists (w :: ws). split; [by constructor|]. by rewrite Hs, E. }
    destruct s as [|a s1]; [by exists []|]. cbn [blank] in H.
    destruct (is_space (String a "")) eqn:H1.
    { apply (Hcons (String a "") s1); [by apply is_space_true|done|cbn; lia|done]. }
    destruct s1 as [|b s2]; [done|]. destruct (is_space (String a (String b ""))) eqn:H2.
    { apply (Hcons (String a (String b "")) s2); [by apply is_space_true|done|cbn; lia|done]. }
    destruct s2 as [|c s3]; [done|]. apply andb_true_iff in H as [H3 H].
    apply (Hcons (String a (String b (String c ""))) s3); [by apply is_space_true|done|cbn; lia|done].
  - intros (ws & Hws & ->). induction Hws as [|w ws Hw _ IH]; [done|].
    cbn [foldr]. by rewrite blank_cons.
Qed.

(** ** Checking a request *)

(** What the handler accepts. *)
Definition acceptable (req : EnqueueValidationWorkRequest) : Prop :=
  Forall (λ p, blank p.2 = false) (required req) ∧
  eq_RequestedActions req ≠ [] ∧ Forall (λ a, blank a = false) (eq_RequestedActions req).

Lemma existsb_blank_false l : existsb blank l = false ↔ Forall (λ a, blank a = false) l.
Proof.
  induction l as [|a l IH]; cbn; [by split|]. rewrite orb_false_iff, IH.
  split; [intros []; by constructor|by inversion 1].
Qed.

(** The fields Go's range over the map finds blank. *)
Lemma blank_fields order req p :
  (∀ l, order l ≡ₚ l) →
  p ∈ filter (λ p, blank p.2 = true) (order (required req)) ↔ blank p.2 = true ∧ p ∈ required req.
Proof. intros Hord. rewrite list_elem_of_filter. by rewrite (Hord (required req)). Qed.

Lemma no_blank_field order req :
  (∀ l, order l ≡ₚ l) →
  filter (λ p, blank p.2 = true) (order (required req)) = [] ↔
  Forall (λ p, blank p.2 = false) (required req).
Proof.
  intros Hord. rewrite Forall_forall. split.
  - intros Hf p Hp. destruct (blank p.2) eqn:Hb; [|done]. exfalso.
    apply (not_elem_of_nil p). rewrite <- Hf. by apply blank_fields.
  - intros Hn. destruct (filter _ _) as [|p l] eqn:Hf; [done|]. exfalso.
    destruct (proj1 (blank_fields order req p Hord)) as [Hb Hp]; [rewrite Hf; by left|].
    rewrite (Hn p Hp) in Hb. done.
Qed.

Lemma validate_accepts order req :
  (∀ l, order l ≡ₚ l) → validate order req = None ↔ acceptable req.
Proof.
  intros Hord. unfold validate, acceptable. rewrite <- (no_blank_field order req Hord).
  destruct (filter _ _); [|by split; [|intros []]].
  case_bool_decide; [split; [done|by intros (_ & ? & _)]|].
  rewrite <- existsb_blank_false. destruct (existsb blank _); split; try done. by intros (_ & _ & ?).
Qed.

(** Validate accepts exactly the acceptable requests, whatever order Go
    ranges over the map in; a refusal is InvalidArgument and names a blank
    field, or the actions when every field is set. *)
Theorem validate_spec order req :
  (∀ l, order l ≡ₚ l) →
  match validate order req with
  | None => acceptable req
  | Some st =>
      ¬ acceptable req ∧ st_code st = InvalidArgument ∧
      ((∃ f v, (f, v) ∈ required req ∧ blank v = true ∧ st_message st = f +:+ " must not be empty") ∨
       (Forall (λ p, blank p.2 = false) (required req) ∧
          st_message st = if bool_decide (eq_RequestedActions req = [])
                          then "requested_actions must not be empty"
                          else "requested_actions must not contain blank entries"))
  end.
Proof.
  intros Hord. pose proof (validate_accepts order req Hord) as Hacc.
  destruct (validate order req) as [st|] eqn:Hv; [|by apply Hacc].
  split; [intros Ha; apply Hacc in Ha; done|]. unfold validate in Hv.
  destruct (filter _ _) as [|p l] eqn:Hf.
  - apply (no_blank_field order req Hord) in Hf.
    case_bool_decide; [|destruct (existsb blank _); [|done]]; injection Hv as <-; (split; [done|by right]).
  - injection Hv as <-. split; [done|]. left.
    destruct (proj1 (blank_fields order req p Hord)) as [Hb Hp]; [rewrite Hf; by left|].
    exists p.1, p.2. by destruct p.
Qed.

(** ** Enqueueing *)

Lemma newJobID_same p d :
  jobs (newJobID p d).2 = jobs d ∧ store_meta (newJobID p d).2 = store_meta d ∧
  faults (newJobID p d).2 = faults d.
Proof. unfold newJobID, rand_hex. by destruct (rng d) as [|[v|] vs]. Qed.

Lemma acceptable_request_id req : acceptable req → eq_ValidationRequestId req ≠ "".
Proof.
  intros (H & _) E. unfold required in H. rewrite !Forall_cons, E in H. by destruct H as (_ & _ & _ & _ & ? & _).
Qed.

(** The call that reaches the store. *)
Lemma Enqueue_accepted order p q now d :
  (∀ l, order l ≡ₚ l) → acceptable q →
  let '(id, d1) := newJobID p d in
  EnqueueValidationWork order p (Some q) now d =
    match CreateJob (job_request id q) now d1 with
    | (Ok job, d2) => (Ok (Response (JobID job) (Status_text (JobStatus job))), d2)
    | (Err e, d2) => (Err (create_error q e), d2)
    end.
Proof.
  intros Hord Ha. unfold EnqueueValidationWork. apply (validate_accepts order q Hord) in Ha as ->.
  by destruct (newJobID p d).
Qed.

Lemma Enqueue_history P order p q now d :
  (∀ l, order l ≡ₚ l) → acceptable q → (∀ id, P (OpCreateJob (job_request id q)) now) →
  history P d (EnqueueValidationWork order p (Some q) now d).2.
Proof.
  intros Hord Ha HP. pose proof (Enqueue_accepted order p q now d Hord Ha) as E.
  pose proof (newJobID_same p d) as (Hj & Hm & _).
  destruct (newJobID p d) as [id d1]. rewrite E. cbn in Hj, Hm.
  assert (d1 = Db (jobs d) (store_meta d) (faults d1) (rng d1)) as Hd1 by (destruct d1; cbn in *; congruence).
  pose proof (history_op P d d (OpCreateJob (job_request id q)) now (faults d1) (rng d1)
    (history_refl P d) I (HP id)) as Hh.
  rewrite <- Hd1 in Hh. cbn [run_op] in Hh. by destruct (CreateJob _ _ d1) as [[]].
Qed.

(** A response names the stored job that owns the request id. *)
Lemma Enqueue_ok order p q now d resp d' :
  (∀ l, order l ≡ₚ l) → acceptable q → table_keyed (jobs d) →
  EnqueueValidationWork order p (Some q) now d = (Ok resp, d') →
  ∃ r, jobs d' !! rs_JobId resp = Some r ∧ owns_request_id (eq_ValidationRequestId q) r = true ∧
    request_fingerprint (r_ident r) = requestFingerprint (job_request "" q) ∧
    rs_Status resp = Status_text (status (r_lease r)).
Proof.
  intros Hord Ha Hk H. pose proof (Enqueue_accepted order p q now d Hord Ha) as E.
  pose proof (newJobID_same p d) as (Hj & _). destruct (newJobID p d) as [id d1]. cbn in Hj.
  rewrite E in H. destruct (CreateJob _ now d1) as [[job|e] d2] eqn:Hc; [|done]. injection H as <- <-.
  apply CreateJob_ok in Hc as (r & Hr & Hs & Ho & Hf);
    [|by rewrite Hj|by apply acceptable_request_id].
  exists r. split_and!; [done|done|exact Hf|]. cbn. by rewrite (sc_status _ _ Hs).
Qed.

(** C33: what EnqueueValidationWork answers, whatever statements fail. It never
    touches an existing job. A response names a stored job that carries the
    request's validation_request_id and fingerprint, and that job's status.
    InvalidArgument means the request is not acceptable, and nothing changed;
    any other status, that it is. *)
Theorem EnqueueValidationWork_outcomes order p req now d :
  (∀ l, order l ≡ₚ l) → table_keyed (jobs d) →
  let '(out, d') := EnqueueValidationWork order p req now d in
  (∀ id r, jobs d !! id = Some r → jobs d' !! id = Some r) ∧
  match out with
  | Ok resp => ∃ q r, req = Some q ∧ acceptable q ∧ jobs d' !! rs_JobId resp = Some r ∧
      owns_request_id (eq_ValidationRequestId q) r = true ∧
      request_fingerprint (r_ident r) = requestFingerprint (job_request "" q) ∧
      rs_Status resp = Status_text (status (r_lease r))
  | Err st =>
      match st_code st with
      | InvalidArgument => d' = d ∧ ∀ q, req = Some q → ¬ acceptable q
      | _ => ∃ q, req = Some q ∧ acceptable q
      end
  end.
Proof.
  intros Hord Hk. destruct req as [q|]; [|by cbn].
  pose proof (validate_accepts order q Hord) as Hv.
  destruct (validate order q) as [st|] eqn:Ev.
  { cbn [EnqueueValidationWork]. rewrite Ev. split; [done|].
    assert (st_code st = InvalidArgument) as ->.
    { unfold validate in Ev. repeat case_match; by simplify_eq. }
    split; [done|]. intros q' [= <-] Ha. by apply Hv in Ha. }
  assert (acceptable q) as Ha by by apply Hv. clear Hv Ev.
  pose proof (Enqueue_accepted order p q now d Hord Ha) as E.
  destruct (EnqueueValidationWork order p (Some q) now d) as [out d'] eqn:Eo. split.
  - pose proof (newJobID_same p d) as (Hj & _). destruct (newJobID p d) as [id d1]. cbn in Hj.
    pose proof (CreateJob_step (job_request id q) now d1) as Hs.
    destruct (CreateJob _ now d1) as [cout d2].
    assert (d' = d2) as -> by by destruct cout; injection E as _ ->.
    cbn in Hs. rewrite Hj in Hs. intros id' r Hr. destruct (Hs id') as [Hs'|Hs']; [by rewrite Hs'|].
    rewrite Hr in Hs'. by inversion Hs'.
  - destruct out as [resp|st].
    + destruct (Enqueue_ok _ _ _ _ _ _ _ Hord Ha Hk Eo) as (r & ? & ? & ? & ?). by exists q, r.
    + destruct (newJobID p d) as [id d1]. destruct (CreateJob _ now d1) as [[job|e] d2]; [done|].
      injection E as -> _. unfold create_error. destruct (errors_is e _); by exists q.
Qed.

(** C21: a request is enqueued exactly once. Once a request was answered, sending
    one with its validation_request_id again, after anything the store did
    meanwhile and whichever statements fail, changes nothing; it is answered
    with the same job, or refused. With a healthy store it is answered when it
    is the same request and FailedPrecondition otherwise. *)
Theorem enqueue_exactly_once order p q now d resp d1 order' p' q' now' d2 :
  (∀ l, order l ≡ₚ l) → (∀ l, order' l ≡ₚ l) → acceptable q → acceptable q' →
  reachable op_in_range d → (∀ id, op_in_range (OpCreateJob (job_request id q)) now) →
  EnqueueValidationWork order p (Some q) now d = (Ok resp, d1) → history op_in_range d1 d2 →
  eq_ValidationRequestId q' = eq_ValidationRequestId q →
  let '(out, d3) := EnqueueValidationWork order' p' (Some q') now' d2 in
  jobs d3 = jobs d2 ∧
  (∀ resp', out = Ok resp' → rs_JobId resp' = rs_JobId resp) ∧
  (faults d2 = [] →
   if bool_decide (requestFingerprint (job_request "" q') = requestFingerprint (job_request "" q))
   then is_ok out = true
   else ∃ st, out = Err st ∧ st_code st = FailedPrecondition).
Proof.
  intros Hord Hord' Ha Ha' Hr HP He Hh Hid.
  destruct (Enqueue_ok _ _ _ _ _ _ _ Hord Ha (reachable_keyed _ _ Hr) He) as (r1 & H1 & Ho1 & Hf1 & _).
  pose proof (Enqueue_history op_in_range order p q now d Hord Ha HP) as Hh1. rewrite He in Hh1. cbn in Hh1.
  pose proof (reachable_history _ _ _ Hr Hh1) as Hr1. pose proof (reachable_history _ _ _ Hr1 Hh) as Hr2.
  destruct (history_row_keep op_in_range (rs_JobId resp) (λ r, r_ident r = r_ident r1))
    with (d := d1) (d' := d2) (r := r1) as (r2 & H2 & Ei); try done.
  { intros o t ra rb _ Ea Hs. by rewrite (row_step_ident _ _ _ _ _ Hs). }
  { by eapply reachable_keyed. }
  assert (owns_request_id (eq_ValidationRequestId q') r2 = true) as Ho2.
  { rewrite Hid, owns_request_id_true, Ei. by apply owns_request_id_true. }
  pose proof (reachable_keyed _ _ Hr2) as Hk2. pose proof (reachable_ids_unique _ _ Hr2) as Hu2.
  pose proof (Enqueue_accepted order' p' q' now' d2 Hord' Ha') as E.
  destruct (EnqueueValidationWork order' p' (Some q') now' d2) as [out d3] eqn:Eo.
  pose proof (newJobID_same p' d2) as (Hj & _ & Hfl). destruct (newJobID p' d2) as [id d2']. cbn in Hj, Hfl.
  assert (jobs d3 = jobs d2) as Hsame.
  { pose proof (CreateJob_jobs (job_request id q') now' d2') as Hc.
    destruct (CreateJob _ now' d2') as [cout d4].
    assert (d3 = d4) as -> by by destruct cout; injection E as _ ->. cbn [snd] in Hc. rewrite Hc, <- Hj.
    destruct (sql_insert_jobs (new_row (job_request id q') (requestFingerprint (job_request id q')) now') d2')
      as [Hi|(_ & _ & Hfresh)]; [exact Hi|]. exfalso.
    rewrite Hj in Hfresh. rewrite (Hfresh (eq_ValidationRequestId q') (rs_JobId resp) r2) in Ho2; [done| |done].
    rewrite new_row_request_id. rewrite bool_decide_eq_false_2; [done|]. by apply acceptable_request_id. }
  split; [done|]. split.
  - intros resp' ->. destruct (Enqueue_ok _ _ _ _ _ _ _ Hord' Ha' Hk2 Eo) as (r3 & H3 & Ho3 & _).
    rewrite Hsame in H3. by eapply Hu2.
  - intros Hf. rewrite (CreateJob_taken (job_request id q') now' d2' (rs_JobId resp) r2) in E;
      [|by rewrite Hfl|by rewrite Hj|by rewrite Hj|by rewrite Hj|done].
    rewrite Ei, Hf1 in E. change (requestFingerprint (job_request id q')) with
      (requestFingerprint (job_request "" q')) in E.
    rewrite (bool_decide_ext _ (requestFingerprint (job_request "" q') = requestFingerprint (job_request "" q)))
      in E by done.
    case_bool_decide.
    + rewrite GetJob_healthy, Hj, H2 in E by (by rewrite Hfl).
      destruct (scanJob_canonical r2) as (j & Hjj & _); [by eapply reachable_row_canonical|].
      rewrite Hjj in E. by injection E as -> _.
    + injection E as -> _. by eexists.
Qed.

End Ingress.

(** ** Concrete runs *)

Definition sample_enqueue : EnqueueValidationWorkRequest := {|
  eq_ArtifactKind := "tool"; eq_ImageRepository := "registry/tool"; eq_ImageDigest := "sha256:00";
  eq_StableRef := "tool@v1"; eq_ToolName := "tool"; eq_Version := "v1"; eq_CasHash := "cas";
  eq_RequestedActions := [ActionSmokeRun]; eq_RequestedFixtureSet := "";
  eq_ValidationRequestId := "req-1";
|}.

(** The same request, whose version is a no-break space. *)
Definition blank_version : EnqueueValidationWorkRequest := {|
  eq_ArtifactKind := "tool"; eq_ImageRepository := "registry/tool"; eq_ImageDigest := "sha256:00";
  eq_StableRef := "tool@v1"; eq_ToolName := "tool"; eq_Version := String "194" (String "160" "");
  eq_CasHash := "cas"; eq_RequestedActions := [ActionSmokeRun]; eq_RequestedFixtureSet := "";
  eq_ValidationRequestId := "req-1";
|}.

Lemma sample_acceptable : acceptable sample_enqueue.
Proof. split_and!; repeat constructor. done. Qed.

Definition d_random : db := Db ∅ ∅ [] [Some 7%N].

Lemma validate_spec_witness :
  ∃ st, validate (@rev _) blank_version = Some st ∧ ¬ acceptable blank_version ∧ st_code st = InvalidArgument.
Proof.
  pose proof (validate_spec (@rev _) blank_version (λ l, symmetry (Permutation_rev l))) as H.
  eexists. split; [vm_compute; reflexivity|].
  change (validate (@rev _) blank_version) with (Some (StatusError InvalidArgument "version must not be empty")) in H.
  destruct H as (H1 & H2 & _). split; [exact H1|exact H2].
Defined.

Lemma EnqueueValidationWork_outcomes_witness :
  ∃ resp d', EnqueueValidationWork id 0 (Some sample_enqueue) t0 d_random = (Ok resp, d') ∧
    is_Some (jobs d' !! rs_JobId resp).
Proof.
  pose proof (EnqueueValidationWork_outcomes id 0 (Some sample_enqueue) t0 d_random (λ l, reflexivity l)
    ltac:(by intros ? ? H; exfalso; exact (lookup_empty_Some _ _ H))) as H.
  destruct (EnqueueValidationWork id 0 (Some sample_enqueue) t0 d_random) as [[resp|st] d'] eqn:E.
  - destruct H as (_ & q & r & _ & _ & Hr & _). exists resp, d'. split; [done|]. by exists r.
  - exfalso. vm_compute in E. discriminate.
Defined.

(** Sent again with a new random job ID, after the job was leased. *)
Lemma enqueue_exactly_once_witness :
  ∃ resp d1 resp', EnqueueValidationWork id 0 (Some sample_enqueue) t0 d_random = (Ok resp, d1) ∧
    let d2 := after d1 (OpLeaseJob "w1" (60 * second)) (at_s 1) [Some 8%N] in
    (EnqueueValidationWork (@rev _) 0 (Some sample_enqueue) (at_s 2) d2).1 = Ok resp' ∧
    rs_JobId resp' = rs_JobId resp.
Proof.
  destruct (EnqueueValidationWork id 0 (Some sample_enqueue) t0 d_random) as [[resp|st] d1] eqn:E;
    [|exfalso; vm_compute in E; discriminate].
  set (d2 := after d1 (OpLeaseJob "w1" (60 * second)) (at_s 1) [Some 8%N]).
  assert (faults d2 = []) as Hf by (vm_compute in E; injection E as <- <-; vm_compute; reflexivity).
  pose proof (enqueue_exactly_once id 0 sample_enqueue t0 d_random resp d1 (@rev _) 0 sample_enqueue (at_s 2) d2
    (λ l, reflexivity l) (λ l, symmetry (Permutation_rev l)) sample_acceptable sample_acceptable) as H.
  destruct (EnqueueValidationWork (@rev _) 0 (Some sample_enqueue) (at_s 2) d2) as [out d3] eqn:Eo.
  destruct H as (_ & H & Hh).
  - exists [], [Some 7%N]. constructor.
  - intros id. in_range.
  - exact E.
  - unfold d2. apply history_after; [constructor|done|in_range].
  - done.
  - exists resp, d1. rewrite bool_decide_eq_true_2 in Hh by done.
    destruct out as [resp'|]; [|by specialize (Hh Hf)].
    exists resp'. split; [done|]. cbv zeta. unfold d2 in Eo. rewrite Eo. split; [done|]. by apply H.
Defined.
