(* ===== verification/Main.v ===== *)
(** * Main: configuration, identity and readiness of the process

    The parts of [cmd/nodesentinel/main.go] that decide something: parsing the
    ports, naming the lease owner, answering /readyz. *)

From S2P Require Import Prelude GoTime Errors Work Db Fingerprint Store Instances.
From S2P Require Import StoreSpec StoreRun StoreStep RowInv RowRead Samples StoreDelivery Names.

(** ** strconv.Atoi *)

Fixpoint parse_digits (acc : Z) (s : string) : option Z :=
  match s with
  | EmptyString => Some acc
  | String c s => if is_digit c then parse_digits (10 * acc + digit_val c) s else None
  end.

Definition ErrSyntax : error := ErrText "invalid syntax".
Definition ErrRange : error := ErrText "value out of range".

Definition num_error (s : string) (e : error) : error :=
  wrap_err ("strconv.Atoi: parsing " +:+ quoted s) e.

(** A sign and decimal digits, for a 64-bit int. *)
Definition Atoi (s : string) : res error Z :=
  let '(neg, ds) :=
    match s with
    | String "-" ds => (true, ds)
    | String "+" ds => (false, ds)
    | _ => (false, s)
    end in
  if bool_decide (ds = "") then Err (num_error s ErrSyntax)
  else match parse_digits 0 ds with
  | None => Err (num_error s ErrSyntax)
  | Some v =>
      let v := if neg : bool then - v else v in
      if (- 2 ^ 63 <=? v) && (v <? 2 ^ 63) then Ok v else Err (num_error s ErrRange)
  end.

(** [value]: the environment variable, empty when unset. *)
Definition parsePort (value : string) (fallback : Z) : res error Z :=
  let value := if bool_decide (value = "") then pretty fallback else value in
  try port <- Atoi value;
  if (port <? 1) || (65535 <? port) then Err ErrSyntax else Ok port.

Definition grpcPort (value : string) : res error Z := parsePort value 50052.
Definition httpPort (value : string) : res error Z := parsePort value 8080.

(** ** The lease owner *)

(** [rnd]: the six random bytes, or the error of rand.Read. *)
Definition workerIdentity (host : res error string) (rnd : res error N) : res error string :=
  let host := match host with Ok h => if bool_decide (h = "") then "unknown-host" else h
                            | Err _ => "unknown-host" end in
  match rnd with
  | Ok v => Ok ("nodesentinel-" +:+ host +:+ "-" +:+ hex_encode 12 v)
  | Err e => Err (wrap_err "generate worker identity suffix" e)
  end.

(** ** Readiness *)

Record readiness := Readiness {
  workerEnabled : bool;
  workerRunning : bool;
  deliveryRunning : bool;
}.

(** readiness.check, on the store the probe writes to. *)
Definition check (r : readiness) (now : instant) (d : db) : option error * db :=
  if negb (workerEnabled r) then (Some (ErrText "worker disabled: no Kubernetes client"), d)
  else if negb (workerRunning r) then (Some (ErrText "job worker loop is not running"), d)
  else if negb (deliveryRunning r) then (Some (ErrText "result delivery loop is not running"), d)
  else match CheckWritable now d with
  | (Err e, d') => (Some (wrap_err "work store is not writable" e), d')
  | (Ok _, d') => (None, d')
  end.

(** The /readyz handler: status code and body. *)
Definition readyz (ready : option error) : Z * string :=
  match ready with
  | Some e => (503, "not ready: " +:+ error_text e +:+ String "010" "")
  | None => (200, "ready")
  end.

(** ** Ports *)

Lemma parse_digits_app a b acc :
  parse_digits acc (a +:+ b) = v ← parse_digits acc a; parse_digits v b.
Proof.
  revert acc. induction a as [|c a IH]; intros acc; [done|]. rewrite string_app_cons. cbn [parse_digits].
  by destruct (is_digit c).
Qed.

Lemma pretty_N_char_digit n :
  (n < 10)%N → is_digit (pretty_N_char n) = true ∧ digit_val (pretty_N_char n) = Z.of_N n.
Proof.
  intros Hn. destruct (decide (n ∈ [0; 1; 2; 3; 4; 5; 6; 7; 8; 9]%N)) as [H|H].
  - repeat (apply elem_of_cons in H as [->|H]; [done|]). by apply not_elem_of_nil in H.
  - exfalso. apply H. rewrite !elem_of_cons. lia.
Qed.

Lemma pretty_N_go_value k x s :
  (x < 10 ^ N.of_nat k)%N →
  ∃ d, pretty_N_go x s = d +:+ s ∧ parse_digits 0 d = Some (Z.of_N x) ∧ ((0 < x)%N → d ≠ "").
Proof.
  revert x s. induction k as [|k IH]; intros x s Hx.
  { assert (x = 0%N) as -> by (simpl in Hx; lia). exists "". rewrite pretty_N_go_0. by split_and!. }
  destruct (decide (x = 0)%N) as [->|Hx0]; [exists ""; by rewrite pretty_N_go_0|].
  rewrite Nat2N.inj_succ, N.pow_succ_r' in Hx. rewrite pretty_N_go_step by lia.
  destruct (IH (x `div` 10)%N (String (pretty_N_char (x `mod` 10)) "" +:+ s)) as (d & Hd & Hv & _).
  { apply N.Div0.div_lt_upper_bound. lia. }
  exists (d +:+ String (pretty_N_char (x `mod` 10)) ""). split; [|split].
  - rewrite <- string_app_assoc in Hd. exact Hd.
  - rewrite parse_digits_app, Hv. cbn [mbind option_bind parse_digits].
    destruct (pretty_N_char_digit (x `mod` 10)) as [-> ->]; [apply N.mod_lt; lia|].
    f_equal. pose proof (N.div_mod x 10). lia.
  - intros _. by destruct d.
Qed.

Lemma pretty_value p : 1 ≤ p → parse_digits 0 (pretty p) = Some p ∧ pretty p ≠ "".
Proof.
  intros Hp. destruct p as [|p|p]; [lia| |lia].
  change (pretty (Zpos p)) with (pretty_N_go (Npos p) "").
  destruct (pretty_N_go_value (N.to_nat (N.size (Npos p))) (Npos p) "") as (d & -> & Hv & Hne).
  - rewrite N2Nat.id. eapply N.lt_le_trans; [apply N.size_gt|]. apply N.pow_le_mono_l. lia.
  - rewrite string_app_nil_r. split; [done|]. apply Hne. lia.
Qed.

(** [s] is decimal digits, at least one, with value [v]. *)
Definition decimal (s : string) (v : Z) : Prop := s ≠ "" ∧ parse_digits 0 s = Some v.

Lemma parse_digits_nonneg acc s v : 0 ≤ acc → parse_digits acc s = Some v → 0 ≤ v.
Proof.
  revert acc. induction s as [|c s IH]; intros acc Ha; cbn [parse_digits]; [by intros [= <-]|].
  destruct (is_digit c) eqn:Hc; [|done]. apply IH. unfold is_digit in Hc. unfold digit_val.
  apply andb_true_iff in Hc as [Hc _]. apply N.leb_le in Hc. lia.
Qed.

Lemma Atoi_ok s v :
  Atoi s = Ok v ↔ - 2 ^ 63 ≤ v < 2 ^ 63 ∧
    (decimal s v ∨ (∃ ds, s = "+" +:+ ds ∧ decimal ds v) ∨ (∃ ds, s = "-" +:+ ds ∧ decimal ds (- v))).
Proof.
  assert (∀ (neg : bool) ds,
    (if bool_decide (ds = "") then Err (num_error s ErrSyntax)
     else match parse_digits 0 ds with
     | None => Err (num_error s ErrSyntax)
     | Some v => if (- 2 ^ 63 <=? (if neg then - v else v)) && ((if neg then - v else v) <? 2 ^ 63)
                 then Ok (if neg then - v else v) else Err (num_error s ErrRange) end) = Ok v ↔
    - 2 ^ 63 ≤ v < 2 ^ 63 ∧ decimal ds (if neg then - v else v)) as H.
  { intros neg ds. unfold decimal. case_bool_decide as Hd; [by split; [|intros (_ & ? & _)]|].
    destruct (parse_digits 0 ds) as [u|]; [|by split; [|intros (_ & _ & ?)]].
    destruct (andb _ _) eqn:Hr.
    - apply andb_true_iff in Hr as [H1%Z.leb_le H2%Z.ltb_lt].
      split; [intros [= <-]|intros (Hv & _ & [= ->])]; destruct neg; split_and?; try done;
        try (f_equal; lia); lia.
    - split; [done|]. intros (Hv & _ & [= ->]). apply andb_false_iff in Hr.
      rewrite Z.leb_gt, Z.ltb_ge in Hr. destruct neg; lia. }
  assert (∀ c ds, is_digit c = false → ¬ decimal (String c ds) v) as Hns.
  { intros c ds Hc [_ Hp]. cbn [parse_digits] in Hp. by rewrite Hc in Hp. }
  unfold Atoi. destruct s as [|c ds].
  { rewrite (H false ""). split; [intros [? ?]; auto|]. intros [? [?|[(ds & E & _)|(ds & E & _)]]]; done. }
  destruct (decide (c = "-"%char)) as [->|Hm].
  { rewrite (H true ds). split; intros [Hv Hd]; (split; [done|]).
    - right. right. by exists ds.
    - destruct Hd as [Hd|[(ds' & E & _)|(ds' & E & Hd)]]; [by apply Hns in Hd|done|by injection E as ->]. }
  destruct (decide (c = "+"%char)) as [->|Hp].
  { rewrite (H false ds). split; intros [Hv Hd]; (split; [done|]).
    - right. left. by exists ds.
    - destruct Hd as [Hd|[(ds' & E & Hd)|(ds' & E & _)]]; [by apply Hns in Hd|by injection E as ->|done]. }
  assert ((match String c ds with String "-" ds => (true, ds) | String "+" ds => (false, ds)
           | _ => (false, String c ds) end) = (false, String c ds)) as ->.
  { destruct c as [[] [] [] [] [] [] [] []]; done. }
  rewrite (H false (String c ds)). split; intros [Hv Hd]; (split; [done|]); [by left|].
  destruct Hd as [Hd|[(ds' & E & _)|(ds' & E & _)]]; [done|by injection E as ->..].
Qed.

(** The port a value gives. parsePort accepts exactly the decimal numerals,
    with an optional plus sign, of the ports 1 to 65535, and returns the number
    they denote: nothing wraps around, however long the numeral; the empty value
    stands for the fallback. *)
Theorem parsePort_spec value fallback p :
  1 ≤ fallback ≤ 65535 →
  parsePort value fallback = Ok p ↔
    if bool_decide (value = "") then p = fallback
    else 1 ≤ p ≤ 65535 ∧ (decimal value p ∨ ∃ ds, value = "+" +:+ ds ∧ decimal ds p).
Proof.
  intros Hfb.
  assert (∀ s, (try port <- Atoi s; if (port <? 1) || (65535 <? port) then Err ErrSyntax else Ok port) = Ok p ↔
    1 ≤ p ≤ 65535 ∧ (decimal s p ∨ ∃ ds, s = "+" +:+ ds ∧ decimal ds p)) as H.
  { intros s. pose proof (Atoi_ok s) as Ha. destruct (Atoi s) as [v|e] eqn:Es; cbn [res_bind].
    - destruct (proj1 (Ha v) eq_refl) as [Hv Hd]. destruct ((v <? 1) || (65535 <? v)) eqn:Hr.
      + split; [done|]. intros [Hp Hs].
        assert (Ok v = Ok p) as [= ->] by (apply Ha; split; [lia|]; destruct Hs; auto).
        apply orb_true_iff in Hr as [Hr%Z.ltb_lt|Hr%Z.ltb_lt]; lia.
      + apply orb_false_iff in Hr as [H1%Z.ltb_ge H2%Z.ltb_ge]. split.
        * intros [= ->]. split; [lia|]. destruct Hd as [Hd|[Hd|(ds & _ & _ & Hd)]]; auto.
          apply parse_digits_nonneg in Hd; lia.
        * intros [Hp Hs]. apply Ha. split; [lia|]. destruct Hs; auto.
    - split; [done|]. intros [Hp Hs]. assert (@Err error Z e = Ok p) as E; [|done].
      apply Ha. split; [lia|]. destruct Hs; auto. }
  unfold parsePort. case_bool_decide as Hv; [|apply H].
  rewrite H. destruct (pretty_value fallback ltac:(lia)) as [Hval Hne].
  split; [|intros ->; split; [done|left; by split]].
  intros [_ [[_ Hd]|(ds & E & _)]]; [congruence|]. exfalso.
  rewrite E in Hval. rewrite string_app_cons in Hval. discriminate Hval.
Qed.

(** The decimal form of a port is read back. *)
Lemma parsePort_pretty p fallback :
  1 ≤ fallback ≤ 65535 → 1 ≤ p ≤ 65535 → parsePort (pretty p) fallback = Ok p.
Proof.
  intros Hf Hp. destruct (pretty_value p ltac:(lia)) as [Hv Hne].
  assert (Atoi (pretty p) = Ok p) as Ha by (apply Atoi_ok; split; [lia|]; left; by split).
  unfold parsePort. rewrite bool_decide_eq_false_2 by done. rewrite Ha. cbn [res_bind].
  by rewrite (proj2 (Z.ltb_ge p 1)), (proj2 (Z.ltb_ge 65535 p)) by lia.
Qed.

(** ** Lease owners *)

(** Lease owners. workerIdentity never gives an empty name, which the
    store would take for no owner; and two processes that drew different
    random bytes never share one, whatever their host names. It fails only
    when no random bytes could be had. *)
Theorem workerIdentity_distinct h1 h2 v1 v2 n1 n2 :
  workerIdentity h1 v1 = Ok n1 → workerIdentity h2 v2 = Ok n2 →
  n1 ≠ "" ∧ (∃ b1 b2, v1 = Ok b1 ∧ v2 = Ok b2 ∧
    ((b1 < 2 ^ 48)%N → (b2 < 2 ^ 48)%N → b1 ≠ b2 → n1 ≠ n2)).
Proof.
  unfold workerIdentity. destruct v1 as [b1|]; [|done]. destruct v2 as [b2|]; [|done].
  assert (∀ a b : string, @Ok error _ a = Ok b → a = b) as Hinj by congruence.
  intros <-%Hinj <-%Hinj. split; [done|]. exists b1, b2. split_and!; [done..|].
  intros H1 H2 Hne E. apply Hne.
  apply app_inj_length in E as [_ E]; [|done].
  apply app_inj_suffix in E as [_ E]; [|by rewrite !string_length_app, !hex_encode_length].
  apply app_inj_length in E as [_ E]; [|done].
  apply hex_encode_mod in E. by rewrite !N.mod_small in E.
Qed.

(** Readiness. The process is ready exactly when it has a Kubernetes
    client, both loops run, and a write to the store was just committed; then,
    and only then, /readyz answers 200. A check never touches the jobs. *)
Theorem check_ready r now d :
  let '(e, d') := check r now d in
  jobs d' = jobs d ∧
  ((readyz e).1 = 200 ↔ e = None) ∧
  (e = None ↔ workerEnabled r = true ∧ workerRunning r = true ∧ deliveryRunning r = true ∧
              is_ok (CheckWritable now d).1 = true) ∧
  (e = None → store_meta d' !! "readiness_probe" = Some (formatTS now)).
Proof.
  unfold check. destruct (workerEnabled r), (workerRunning r), (deliveryRunning r); cbn [negb];
    try by (split_and!; [done|by split..|split; [done|by intros (? & ? & ? & ?)]|done]).
  unfold CheckWritable, wrap. rewrite stmt_run. destruct (stmt_fault d) as [x|] eqn:Hf; cbn.
  - split_and!; [by unfold next_stmt; destruct (faults d)|by split|by split; [|intros (_ & _ & _ & ?)]|done].
  - split_and!; [by unfold next_stmt; destruct (faults d)|by split|by split|].
    intros _. apply lookup_insert_eq.
Qed.

(** ** Concrete runs *)

Lemma parsePort_spec_witness : parsePort "+8080" 50052 = Ok 8080 ∧ parsePort "65536" 50052 ≠ Ok 65536.
Proof.
  split.
  - apply (parsePort_spec "+8080" 50052 8080); [lia|]. rewrite bool_decide_eq_false_2 by done.
    split; [lia|]. right. exists "8080". split; [done|]. by split.
  - intros H. apply (parsePort_spec "65536" 50052 65536) in H; [|lia].
    rewrite bool_decide_eq_false_2 in H by done. lia.
Defined.

Lemma workerIdentity_distinct_witness :
  ∃ n1 n2, workerIdentity (Ok "pod-a") (Ok 1%N) = Ok n1 ∧ workerIdentity (Ok "pod-a") (Ok 2%N) = Ok n2 ∧ n1 ≠ n2.
Proof.
  eexists _, _. split; [reflexivity|]. split; [reflexivity|].
  edestruct (workerIdentity_distinct (Ok "pod-a") (Ok "pod-a") (Ok 1%N) (Ok 2%N)) as [_ (b1 & b2 & E1 & E2 & H)];
    [reflexivity|reflexivity|].
  injection E1 as <-. injection E2 as <-. by apply H.
Defined.
