(* ===== verification/Vault.v ===== *)
(** * Vault: sending a record to NodeVault

    The HTTP exchange of [pkg/vaultclient/client.go]: the address, one POST, and
    which failures are worth sending the same record again. *)

From S2P Require Import Prelude GoTime Errors Work Db Fingerprint Store StoreSpec StoreStep.
From S2P Require Import Failure Names World.

(** ** The address *)

(** strings.TrimRight(s, "/"). *)
Fixpoint trim_slashes (s : string) : string :=
  match s with
  | EmptyString => ""
  | String c s' =>
      match trim_slashes s' with
      | EmptyString => if Ascii.eqb c "/" then "" else String c ""
      | t => String c t
      end
  end.

Definition defaultVaultAPIAddr : string := "http://nodevault.nodevault-system.svc:8082".
Definition checkRecordsPath : string := "/v1/validation/check-records".
Definition scanRecordsPath : string := "/v1/validation/scan-records".

(** The base URL of the client; [addr] is NODEVAULT_API_ADDR, empty when unset. *)
Definition NewWithAddr (addr : string) : string := trim_slashes addr.
Definition New (addr : string) : string :=
  NewWithAddr (if bool_decide (addr = "") then defaultVaultAPIAddr else addr).

(** ** One POST *)

Record SubmitResponse := { RecordID : string; CertificationStatus : string }.

(** A response: its status, and its body up to its end or to a read error. *)
Record http_response := HttpResponse {
  hr_StatusCode : Z;
  hr_Body : string;
  hr_Fail : option error;
}.

Definition bodyLimit : Z := 2 ^ 16.

(** io.ReadAll(io.LimitReader(body, n)). *)
Definition read_limited (n : Z) (resp : http_response) : res error string :=
  if n <=? Z.of_nat (String.length (hr_Body resp)) then Ok (take_string (Z.to_nat n) (hr_Body resp))
  else match hr_Fail resp with Some e => Err e | None => Ok (hr_Body resp) end.

(** [new_request] is the error of http.NewRequestWithContext on a URL, [do]
    http.Client.Do, [decode] json.Unmarshal into a SubmitResponse. *)
Section Post.
Context (new_request : string → option error) (do : string → string → res error http_response)
        (decode : string → res error SubmitResponse).

(** [data]: what json.Marshal made of the record. *)
Definition post (url : string) (data : res error string) : res error SubmitResponse :=
  match data with
  | Err e => Err (wrap_err "vaultclient: marshal" e)
  | Ok data =>
      match new_request url with
      | Some e => Err (wrap_err "vaultclient: new request" e)
      | None =>
          match do url data with
          | Err e => Err (wrap_err ("vaultclient: POST " +:+ url) e)
          | Ok resp =>
              match read_limited bodyLimit resp with
              | Err e => Err (wrap_err "vaultclient: read response body" e)
              | Ok respBody =>
                  if (hr_StatusCode resp <? 200) || (300 <=? hr_StatusCode resp) then
                    Err (wrap_err ("vaultclient: POST " +:+ url) (SubmitError (hr_StatusCode resp) respBody))
                  else match decode respBody with
                  | Err e => Err (wrap_err "vaultclient: decode response" e)
                  | Ok result => Ok result
                  end
              end
          end
      end
  end.

Definition SubmitCheckRecord (base : string) (data : res error string) : res error SubmitResponse :=
  post (base +:+ checkRecordsPath) data.
Definition SubmitScanRecord (base : string) (data : res error string) : res error SubmitResponse :=
  post (base +:+ scanRecordsPath) data.

(** NodeVault answered a POST of [data] with a status in [status], its body read. *)
Definition answered (url : string) (data : res error string) (status : Z → Prop) : Prop :=
  ∃ text resp body, data = Ok text ∧ new_request url = None ∧ do url text = Ok resp ∧
    read_limited bodyLimit resp = Ok body ∧ status (hr_StatusCode resp).

Ltac not_answered := intros (t & r & b & ? & ? & ? & ? & _); congruence.

(** C32: the outcome of a submission. It succeeds only when NodeVault answered
    2xx with a body that decodes. Provided no error of the libraries is itself
    a SubmitError, a failure is final exactly when NodeVault answered with a
    status below 500 other than 2xx and the body of the answer was read; every
    other failure is worth sending the same record again: also a 4xx whose body
    cannot be read, and a 2xx whose body cannot be read or decoded. *)
Theorem post_outcomes url data :
  (∀ e, data = Err e → errors_as_submit e = None) →
  (∀ u e, new_request u = Some e → errors_as_submit e = None) →
  (∀ u t e, do u t = Err e → errors_as_submit e = None) →
  (∀ u t r e, do u t = Ok r → hr_Fail r = Some e → errors_as_submit e = None) →
  (∀ b e, decode b = Err e → errors_as_submit e = None) →
  match post url data with
  | Ok _ => answered url data (λ s, 200 ≤ s < 300)
  | Err e => Retryable e = false ↔ answered url data (λ s, s < 200 ∨ 300 ≤ s < 500)
  end.
Proof.
  intros Hdata Hreq Hdo Hfail Hdec. unfold post, answered.
  assert (∀ msg e P, errors_as_submit e = None → ¬ P → Retryable (wrap_err msg e) = false ↔ P) as Hr.
  { intros msg e P He HP. unfold Retryable, wrap_err. cbn [errors_as_submit]. by rewrite He. }
  destruct data as [text|e]; [|apply Hr; [by apply Hdata|not_answered]].
  destruct (new_request url) as [e|] eqn:Enr; [apply Hr; [by eapply Hreq|not_answered]|].
  destruct (do url text) as [resp|e] eqn:Edo; [|apply Hr; [by eapply Hdo|not_answered]].
  destruct (read_limited bodyLimit resp) as [body|e] eqn:Erd.
  2:{ apply Hr; [|not_answered]. eapply Hfail; [exact Edo|]. unfold read_limited in Erd.
      destruct (_ <=? _); [done|]. destruct (hr_Fail resp); congruence. }
  destruct ((hr_StatusCode resp <? 200) || (300 <=? hr_StatusCode resp)) eqn:Hs.
  - unfold Retryable, wrap_err. cbn [errors_as_submit]. rewrite orb_true_iff, Z.ltb_lt, Z.leb_le in Hs.
    rewrite Z.leb_gt. split.
    + intros Hlt. exists text, resp, body. split_and!; [done..|lia].
    + intros (t & r & b & [= <-] & _ & Hr' & _ & Hst). rewrite Edo in Hr'. injection Hr' as <-. lia.
  - rewrite orb_false_iff, Z.ltb_ge, Z.leb_gt in Hs.
    destruct (decode body) as [result|e] eqn:Ed.
    + exists text, resp, body. split_and!; [done..|lia|lia].
    + apply Hr; [by eapply Hdec|].
      intros (t & r & b & [= <-] & _ & Hr' & _ & Hst). rewrite Edo in Hr'. injection Hr' as <-. lia.
Qed.

End Post.

(** The base URL ends in no slash, and only slashes were dropped. *)
Lemma trim_slashes_spec s :
  (∃ t, s = trim_slashes s +:+ t ∧ all_chars (λ c, Ascii.eqb c "/") t = true) ∧
  ¬ ∃ t, trim_slashes s = t +:+ "/".
Proof.
  induction s as [|c s [(t & Hs & Ht) Hn]].
  { split; [by exists ""|]. by intros ([|? ?] & E). }
  cbn [trim_slashes]. destruct (trim_slashes s) as [|c' u] eqn:Eu.
  - change ("" +:+ t) with t in Hs. subst t. destruct (Ascii.eqb_spec c "/") as [->|Hc].
    + split; [|by intros ([|? ?] & E)]. by exists (String "/" s).
    + split; [by exists s|]. intros ([|c2 [|? ?]] & E); rewrite ?string_app_cons in E; by injection E.
  - split.
    + exists t. by rewrite Hs at 1.
    + intros ([|c2 t2] & E); [by injection E|]. rewrite string_app_cons in E. injection E as _ E.
      apply Hn. by exists t2.
Qed.

(** ** A concrete exchange *)

(** NodeVault rejects the record. *)
Lemma post_outcomes_witness :
  ∃ e, post (λ _, None) (λ _ _, Ok (HttpResponse 409 "conflict" None)) (λ _, Err (ErrText "decode"))
         (New "http://vault/" +:+ checkRecordsPath) (Ok "{}") = Err e ∧ Retryable e = false.
Proof.
  pose proof (post_outcomes (λ _, None) (λ _ _, Ok (HttpResponse 409 "conflict" None))
    (λ _, Err (ErrText "decode")) (New "http://vault/" +:+ checkRecordsPath) (Ok "{}")) as H.
  eexists. split; [reflexivity|]. apply H.
  - done.
  - done.
  - done.
  - by intros u t r e [= <-].
  - by intros b e [= <-].
  - exists "{}", (HttpResponse 409 "conflict" None), "conflict". split_and!; [done..|]. right; cbn; lia.
Defined.
