(* ===== verification/Migrate.v ===== *)
(** * Migrate: bringing an older database file up to date

    initSchema and the migrations of [pkg/work/sqlite/store.go]: a jobs table
    created by an earlier binary gains the columns and indexes the code uses,
    one transaction per migration. A row is a map from column names to values
    here; the rest of the development works on the rows [load] reads. *)

From S2P Require Import Prelude GoTime Errors Work Db Fingerprint Store.
From S2P Require Import StoreSpec StoreExec.

(** ** Raw tables *)

Inductive cell := Null | Text (s : string) | Int (n : Z).

#[export] Instance cell_eq_dec : EqDecision cell.
Proof. solve_decision. Defined.

Abbreviation raw_row := (gmap string cell).

(** The jobs table, by its columns (none when it does not exist), the indexes
    on it, and whether store_meta exists. *)
Record tables := Tables {
  t_columns : list string;
  t_rows : list raw_row;
  t_indexes : gset string;
  t_meta : bool;
}.

(** The tables and the script of failing statements. *)
Definition F (A : Type) : Type := tables * list (option error) → res error A * (tables * list (option error)).

#[export] Instance F_ret : MRet F := λ A a s, (Ok a, s).
#[export] Instance F_bind : MBind F := λ A B f m s,
  match m s with
  | (Ok a, s') => f a s'
  | (Err e, s') => (Err e, s')
  end.

Definition f_wrap {A} (msg : string) (m : F A) : F A := λ s,
  match m s with
  | (Ok a, s') => (Ok a, s')
  | (Err e, s') => (Err (wrap_err msg e), s')
  end.

Definition f_stmt {A} (run : tables → res error A * tables) : F A := λ '(t, fs),
  match fs with
  | Some e :: fs => (Err e, (t, fs))
  | None :: fs => let '(r, t') := run t in (r, (t', fs))
  | [] => let '(r, t') := run t in (r, (t', []))
  end.

(** BEGIN IMMEDIATE ... COMMIT, rolled back on any error. *)
Definition f_tx (body : F unit) : F unit := λ s,
  match f_wrap "begin migration tx" (f_stmt (λ t, (Ok tt, t))) s with
  | (Err e, s1) => (Err e, s1)
  | (Ok _, s1) =>
      match (_ ← body; f_wrap "commit migration tx" (f_stmt (λ t, (Ok tt, t)))) s1 with
      | (Err e, (_, fs)) => (Err e, (s1.1, fs))
      | (Ok _, s2) => (Ok tt, s2)
      end
  end.

(** ** Statements *)

(** CREATE TABLE IF NOT EXISTS jobs, with the defaults of its columns. *)
Definition schema : list (string * cell) :=
  [("job_id", Null); ("artifact_kind", Null); ("image_repository", Null); ("image_digest", Null);
   ("stable_ref", Null); ("tool_name", Null); ("version", Null); ("cas_hash", Null);
   ("requested_actions", Null); ("requested_fixture_set", Null); ("validation_request_id", Null);
   ("request_fingerprint", Text ""); ("result_delivery_status", Text "not_applicable");
   ("result_delivery_payload", Text ""); ("result_delivery_attempts", Int 0);
   ("result_delivery_last_error", Text ""); ("next_attempt_at", Null);
   ("result_delivery_claimed_until", Null); ("result_delivery_claim_token", Text "");
   ("terminal_submitted", Int 0); ("terminal_owner", Text ""); ("terminal_attempt", Int 0);
   ("execution_id", Text ""); ("execution_terminal", Int 0); ("retry_not_before", Null);
   ("status", Null); ("attempt", Int 0); ("lease_owner", Text ""); ("lease_until", Null);
   ("last_error", Text ""); ("result_summary", Text ""); ("created_at", Null); ("updated_at", Null)].

(** What a statement of initSchema leaves behind. *)
Inductive change :=
| CreateJobs
| CreateIndex (name : string) (on : list string) (unique : bool)
| CreateMeta
| AddColumn (name : string) (default_ : cell).

Definition is_done (c : change) (t : tables) : bool :=
  match c with
  | CreateJobs => negb (bool_decide (t_columns t = []))
  | CreateIndex n _ _ => bool_decide (n ∈ t_indexes t)
  | CreateMeta => t_meta t
  | AddColumn n _ => bool_decide (n ∈ t_columns t)
  end.

Definition make (c : change) (t : tables) : tables :=
  match c with
  | CreateJobs => Tables schema.*1 [] (t_indexes t) (t_meta t)
  | CreateIndex n _ _ => Tables (t_columns t) (t_rows t) ({[n]} ∪ t_indexes t) (t_meta t)
  | CreateMeta => Tables (t_columns t) (t_rows t) (t_indexes t) true
  | AddColumn n d => Tables (t_columns t ++ [n]) (insert n d <$> t_rows t) (t_indexes t) (t_meta t)
  end.

Definition make_once (c : change) (t : tables) : tables := if is_done c t then t else make c t.

(** The request ids the partial unique index covers. *)
Definition request_id (r : raw_row) : option string :=
  match r !! "validation_request_id" with
  | Some (Text s) => if bool_decide (s = "") then None else Some s
  | _ => None
  end.

(** Why SQLite refuses a change. *)
Definition refuses (c : change) (t : tables) : option error :=
  match c with
  | CreateJobs | CreateMeta => None
  | CreateIndex _ on unique =>
      if negb (forallb (λ n, bool_decide (n ∈ t_columns t)) on) then Some (ErrText "no such column")
      else if unique && negb (bool_decide (NoDup (omap request_id (t_rows t))))
      then Some (ErrText "UNIQUE constraint failed: jobs.validation_request_id")
      else None
  | AddColumn _ _ => if bool_decide (t_columns t = []) then Some (ErrText "no such table: jobs") else None
  end.

(** CREATE ... IF NOT EXISTS, or ALTER TABLE jobs ADD COLUMN. *)
Definition exec_change (c : change) : F unit := f_stmt (λ t,
  if is_done c t then
    match c with AddColumn n _ => (Err (ErrText ("duplicate column name: " +:+ n)), t) | _ => (Ok tt, t) end
  else match refuses c t with
  | Some e => (Err e, t)
  | None => (Ok tt, make c t)
  end).

(** PRAGMA table_info(jobs). *)
Definition hasColumn (name : string) : F bool :=
  f_wrap "pragma table_info(jobs)" (f_stmt (λ t, (Ok (bool_decide (name ∈ t_columns t)), t))).

(** ** Migrations *)

Definition ensure_column (col : string * cell) : F unit :=
  has ← hasColumn col.1;
  if has : bool then mret tt
  else f_wrap ("add " +:+ col.1 +:+ " column") (exec_change (AddColumn col.1 col.2)).

Fixpoint ensure_columns (cols : list (string * cell)) : F unit :=
  match cols with
  | [] => mret tt
  | col :: cols => _ ← ensure_column col; ensure_columns cols
  end.

Definition ensure_index (msg name : string) (on : list string) (unique : bool) : F unit :=
  f_wrap ("create " +:+ msg +:+ " index") (exec_change (CreateIndex name on unique)).

Definition migrateValidationRequestID : F unit := f_tx (
  _ ← ensure_columns [("validation_request_id", Null); ("request_fingerprint", Text "")];
  ensure_index "validation_request_id" "idx_jobs_validation_request_id" ["validation_request_id"] true).

Definition migrateResultDelivery : F unit := f_tx (
  _ ← ensure_columns
    [("result_delivery_status", Text "not_applicable"); ("result_delivery_payload", Text "");
     ("result_delivery_attempts", Int 0); ("result_delivery_last_error", Text "");
     ("next_attempt_at", Null); ("result_delivery_claimed_until", Null)];
  ensure_index "result_delivery_status" "idx_jobs_result_delivery_status"
    ["result_delivery_status"; "next_attempt_at"] false).

Definition migrateTerminalSubmitted : F unit := f_tx (ensure_columns [("terminal_submitted", Int 0)]).

Definition migrateExecutionIdentity : F unit := f_tx (
  ensure_columns [("execution_id", Text ""); ("execution_terminal", Int 0)]).

Definition migrateRetryNotBefore : F unit := f_tx (
  _ ← ensure_columns [("retry_not_before", Null)];
  ensure_index "retry_not_before" "idx_jobs_status_retry_not_before" ["status"; "retry_not_before"] false).

Definition migrateDeliveryOwnership : F unit := f_tx (
  ensure_columns [("result_delivery_claim_token", Text ""); ("terminal_owner", Text "");
                  ("terminal_attempt", Int 0)]).

(** The schema script of initSchema, statement by statement. *)
Definition create_tables : F unit :=
  _ ← exec_change CreateJobs;
  _ ← exec_change (CreateIndex "idx_jobs_status_updated_at" ["status"; "updated_at"] false);
  _ ← exec_change (CreateIndex "idx_jobs_lease_until" ["lease_until"] false);
  exec_change CreateMeta.

(** initSchema up to normalizeTimestamps (Normalize.v). *)
Definition migrate_schema : F unit :=
  _ ← f_wrap "init schema" create_tables;
  _ ← f_wrap "migrate validation_request_id" migrateValidationRequestID;
  _ ← f_wrap "migrate result_delivery" migrateResultDelivery;
  _ ← f_wrap "migrate terminal_submitted" migrateTerminalSubmitted;
  _ ← f_wrap "migrate execution_identity" migrateExecutionIdentity;
  _ ← f_wrap "migrate retry_not_before" migrateRetryNotBefore;
  f_wrap "migrate delivery ownership" migrateDeliveryOwnership.

(** ** What a run leaves behind *)

Definition apply_all (cs : list change) (t : tables) : tables := foldl (λ t c, make_once c t) t cs.

(** SQLite refuses none of the changes, made one after the other. *)
Fixpoint accepts (cs : list change) (t : tables) : Prop :=
  match cs with
  | [] => True
  | c :: cs => (is_done c t = true ∨ refuses c t = None) ∧ accepts cs (make_once c t)
  end.

(** [m] makes the changes [cs] in order: all of them when it succeeds, the
    first ones when it fails; and it succeeds if nothing fails or is refused. *)
Definition performs (m : F unit) (cs : list change) : Prop :=
  (∀ t fs, match m (t, fs) with
           | (Ok _, (t', _)) => t' = apply_all cs t
           | (Err _, (t', _)) => ∃ k, t' = apply_all (take k cs) t
           end) ∧
  (∀ t, accepts cs t → m (t, []) = (Ok tt, (apply_all cs t, []))).

Lemma apply_all_cons c cs t : apply_all (c :: cs) t = apply_all cs (make_once c t).
Proof. done. Qed.

Lemma apply_all_app cs1 cs2 t : apply_all (cs1 ++ cs2) t = apply_all cs2 (apply_all cs1 t).
Proof. apply foldl_app. Qed.

Lemma accepts_app cs1 cs2 t : accepts (cs1 ++ cs2) t ↔ accepts cs1 t ∧ accepts cs2 (apply_all cs1 t).
Proof.
  revert t. induction cs1 as [|c cs1 IH]; intros t; cbn; [naive_solver|]. rewrite IH. naive_solver.
Qed.

Lemma performs_ret : performs (mret tt) [].
Proof. by split. Qed.

Lemma performs_bind m1 m2 cs1 cs2 :
  performs m1 cs1 → performs m2 cs2 → performs (_ ← m1; m2) (cs1 ++ cs2).
Proof.
  intros [H1 S1] [H2 S2]. unfold mbind, F_bind. split.
  - intros t fs. specialize (H1 t fs). destruct (m1 (t, fs)) as [[[]|e] [t1 fs1]].
    + specialize (H2 t1 fs1). subst t1. destruct (m2 _) as [[[]|e] [t2 fs2]].
      * by rewrite apply_all_app.
      * destruct H2 as [k ->]. exists (length cs1 + k)%nat.
        by rewrite take_app_add, apply_all_app.
    + destruct H1 as [k ->]. exists (min k (length cs1)). rewrite take_app_le by lia.
      f_equal. destruct (Nat.min_spec k (length cs1)) as [[_ ->]|[Hk ->]]; [done|].
      by rewrite firstn_all, take_ge.
  - intros t [Ha1 Ha2]%accepts_app. rewrite S1 by done. rewrite S2 by done. by rewrite apply_all_app.
Qed.

Lemma performs_wrap msg m cs : performs m cs → performs (f_wrap msg m) cs.
Proof.
  intros [H S]. unfold f_wrap. split.
  - intros t fs. specialize (H t fs). by destruct (m (t, fs)) as [[[]|e] [t' fs']].
  - intros t Ha. by rewrite S.
Qed.

Lemma f_stmt_cases {A} (run : tables → res error A * tables) t fs :
  (∃ e fs', f_stmt run (t, fs) = (Err e, (t, fs'))) ∨
  (∃ fs', f_stmt run (t, fs) = ((run t).1, ((run t).2, fs'))).
Proof.
  unfold f_stmt. destruct fs as [|[e|] fs]; [right; exists []|left; by exists e, fs|right; exists fs];
    by destruct (run t).
Qed.

Lemma performs_exec c : (∀ n d, c ≠ AddColumn n d) → performs (exec_change c) [c].
Proof.
  intros Hc. split.
  - intros t fs. unfold exec_change.
    destruct (f_stmt_cases (λ t, if is_done c t then
        match c with AddColumn n _ => (Err (ErrText ("duplicate column name: " +:+ n)), t) | _ => (Ok tt, t) end
      else match refuses c t with Some e => (Err e, t) | None => (Ok tt, make c t) end) t fs)
      as [(e & fs' & ->)|(fs' & ->)]; [by exists 0%nat|].
    cbn [apply_all foldl]. unfold make_once. destruct (is_done c t).
    + by destruct c; [..|destruct (Hc name default_)].
    + destruct (refuses c t); [by exists 0%nat|done].
  - intros t [Ha _]. unfold exec_change, f_stmt. cbn [apply_all foldl]. unfold make_once.
    destruct (is_done c t); [by destruct c; [..|destruct (Hc name default_)]|].
    destruct Ha as [Ha|Ha]; [done|]. by rewrite Ha.
Qed.

Lemma performs_column n d : performs (ensure_column (n, d)) [AddColumn n d].
Proof.
  unfold ensure_column, hasColumn, exec_change. cbn [fst snd]. split.
  - intros t fs. unfold mbind, F_bind, f_wrap at 1.
    destruct (f_stmt_cases (λ t, (@Ok error bool (bool_decide (n ∈ t_columns t)), t)) t fs)
      as [(e & fs' & ->)|(fs' & ->)]; [by exists 0%nat|]. cbn [fst snd].
    cbn [apply_all foldl]. unfold make_once. cbn [is_done]. case_bool_decide as Hn; [done|].
    unfold f_wrap.
    match goal with |- context [f_stmt ?run (t, fs')] => destruct (f_stmt_cases run t fs')
      as [(e & fs2 & ->)|(fs2 & ->)] end; [by exists 0%nat|]. cbn [is_done].
    rewrite bool_decide_eq_false_2 by done. destruct (refuses _ t); [by exists 0%nat|done].
  - intros t [Ha _]. cbn [apply_all foldl]. unfold make_once, mbind, F_bind, f_wrap, f_stmt.
    cbn [is_done] in *. case_bool_decide as Hn; [done|]. rewrite ?bool_decide_eq_false_2 by done.
    destruct Ha as [Ha|Ha]; [done|]. by rewrite Ha.
Qed.

Lemma performs_columns cols : performs (ensure_columns cols) ((λ c, AddColumn c.1 c.2) <$> cols).
Proof.
  induction cols as [|[n d] cols IH]; [apply performs_ret|].
  apply (performs_bind _ _ [AddColumn n d]); [apply performs_column|done].
Qed.

Lemma performs_index msg n on u : performs (ensure_index msg n on u) [CreateIndex n on u].
Proof. by apply performs_wrap, performs_exec. Qed.

(** A failed transaction leaves the tables as they were. *)
Lemma performs_tx m cs : performs m cs → performs (f_tx m) cs.
Proof.
  intros [H S]. unfold f_tx. split.
  - intros t fs. unfold f_wrap at 1.
    destruct (f_stmt_cases (λ t, (@Ok error unit tt, t)) t fs) as [(e & fs' & ->)|(fs' & ->)];
      [by exists 0%nat|]. cbn [fst snd].
    unfold mbind, F_bind. specialize (H t fs'). destruct (m (t, fs')) as [[[]|e] [t1 fs1]]; [|by exists 0%nat].
    unfold f_wrap. destruct (f_stmt_cases (λ t, (@Ok error unit tt, t)) t1 fs1) as [(e & fs2 & ->)|(fs2 & ->)];
      [by exists 0%nat|done].
  - intros t Ha. unfold mbind, F_bind, f_wrap, f_stmt. by rewrite S.
Qed.

#[local] Hint Resolve performs_ret performs_bind performs_wrap performs_columns performs_index performs_tx : core.

(** *** The changes of initSchema, in order *)

Definition create_changes : list change :=
  [CreateJobs; CreateIndex "idx_jobs_status_updated_at" ["status"; "updated_at"] false;
   CreateIndex "idx_jobs_lease_until" ["lease_until"] false; CreateMeta].

Definition migrate_changes : list change :=
  [AddColumn "validation_request_id" Null; AddColumn "request_fingerprint" (Text "");
   CreateIndex "idx_jobs_validation_request_id" ["validation_request_id"] true;
   AddColumn "result_delivery_status" (Text "not_applicable");
   AddColumn "result_delivery_payload" (Text ""); AddColumn "result_delivery_attempts" (Int 0);
   AddColumn "result_delivery_last_error" (Text ""); AddColumn "next_attempt_at" Null;
   AddColumn "result_delivery_claimed_until" Null;
   CreateIndex "idx_jobs_result_delivery_status" ["result_delivery_status"; "next_attempt_at"] false;
   AddColumn "terminal_submitted" (Int 0);
   AddColumn "execution_id" (Text ""); AddColumn "execution_terminal" (Int 0);
   AddColumn "retry_not_before" Null;
   CreateIndex "idx_jobs_status_retry_not_before" ["status"; "retry_not_before"] false;
   AddColumn "result_delivery_claim_token" (Text ""); AddColumn "terminal_owner" (Text "");
   AddColumn "terminal_attempt" (Int 0)].

Definition all_changes : list change := create_changes ++ migrate_changes.

Lemma performs_create : performs create_tables create_changes.
Proof.
  unfold create_tables, create_changes.
  do 3 (apply (performs_bind _ _ [_]); [by apply performs_exec|]). by apply performs_exec.
Qed.

Lemma migrate_performs : performs migrate_schema all_changes.
Proof.
  unfold migrate_schema, all_changes.
  apply performs_bind; [apply performs_wrap, performs_create|]. unfold migrate_changes.
  apply (performs_bind _ _ [_; _; _]); [apply performs_wrap, performs_tx, (performs_bind _ _ [_; _] [_]); auto;
    apply performs_columns|].
  apply (performs_bind _ _ [_; _; _; _; _; _; _]);
    [apply performs_wrap, performs_tx, (performs_bind _ _ [_; _; _; _; _; _] [_]); auto; apply performs_columns|].
  apply (performs_bind _ _ [_]); [apply performs_wrap, performs_tx, performs_columns|].
  apply (performs_bind _ _ [_; _]); [apply performs_wrap, performs_tx, performs_columns|].
  apply (performs_bind _ _ [_; _]); [apply performs_wrap, performs_tx, (performs_bind _ _ [_] [_]); auto;
    apply performs_columns|].
  apply performs_wrap, performs_tx, performs_columns.
Qed.

(** ** Running it again *)

Lemma apply_done c t : is_done c (make_once c t) = true.
Proof.
  unfold make_once. destruct (is_done c t) eqn:Hd; [done|].
  destruct c; cbn [make is_done t_columns t_indexes t_meta]; try done; apply bool_decide_eq_true; set_solver.
Qed.

Lemma apply_keeps_done c c' t : is_done c t = true → is_done c (make_once c' t) = true.
Proof.
  unfold make_once. intros Hd. destruct (is_done c' t) eqn:Hd'; [done|].
  destruct c', c; cbn [make is_done t_columns t_indexes t_meta] in *; try done;
    rewrite ?negb_true_iff, ?negb_false_iff, ?bool_decide_eq_true, ?bool_decide_eq_false in *;
    try set_solver.
  - rewrite Hd' in Hd. set_solver.
  - by destruct (t_columns t).
Qed.

Lemma apply_all_keeps_done c cs t : is_done c t = true → is_done c (apply_all cs t) = true.
Proof. revert t. induction cs as [|c' cs IH]; intros t Hd; [done|]. by apply IH, apply_keeps_done. Qed.

Lemma apply_all_done cs t : Forall (λ c, is_done c (apply_all cs t) = true) cs.
Proof.
  revert t. induction cs as [|c cs IH]; intros t; constructor.
  - apply (apply_all_keeps_done c cs (make_once c t)), apply_done.
  - exact (IH (make_once c t)).
Qed.

Lemma done_noop cs t : Forall (λ c, is_done c t = true) cs → apply_all cs t = t ∧ accepts cs t.
Proof.
  induction 1 as [|c cs Hc Hcs [IH IHa]]; [done|].
  assert (make_once c t = t) as Hn by (unfold make_once; by rewrite Hc). cbn. rewrite Hn.
  split; [done|]. split; [by left|done].
Qed.

(** Done in part, the rest of the changes finish the job. *)
Lemma resume cs k t :
  apply_all cs (apply_all (take k cs) t) = apply_all cs t ∧
  (accepts cs t → accepts cs (apply_all (take k cs) t)).
Proof.
  set (x := apply_all (take k cs) t).
  destruct (done_noop (take k cs) x (apply_all_done _ _)) as [Hx Hax].
  assert (∀ y, apply_all cs y = apply_all (drop k cs) (apply_all (take k cs) y)) as Hsplit
    by (intros y; by rewrite <- apply_all_app, take_drop).
  split; [by rewrite Hsplit, Hx, (Hsplit t)|].
  intros Ha. rewrite <- (take_drop k cs) in Ha |- *. apply accepts_app in Ha as [_ Ha].
  apply accepts_app. split; [done|]. by rewrite Hx.
Qed.

(** The file an older binary left, brought up to date. *)
Definition upgraded (t : tables) : tables := apply_all all_changes t.

Lemma upgraded_eq t : apply_all all_changes t = upgraded t.
Proof. unfold upgraded. reflexivity. Qed.

(** A run of initSchema, failing or not, and what it leaves. *)
Definition attempted (t t' : tables) : Prop := ∃ r fs fs', migrate_schema (t, fs) = (r, (t', fs')).

Lemma attempted_run t fs : attempted t (migrate_schema (t, fs)).2.1.
Proof. unfold attempted. destruct (migrate_schema (t, fs)) as [r [t' fs']] eqn:E. exists r, fs, fs'. exact E. Qed.

Lemma attempted_prefix t t' : attempted t t' → ∃ k, t' = apply_all (take k all_changes) t.
Proof.
  intros (r & fs & fs' & H1). pose proof (proj1 migrate_performs t fs) as H. rewrite H1 in H.
  destruct r as [u|e]; [|exact H]. exists (length all_changes). rewrite firstn_all. exact H.
Qed.

(** Whatever was attempted, the upgrade is possible and leads to the same tables. *)
Lemma attempted_resumes t t' :
  accepts all_changes t → rtc attempted t t' → accepts all_changes t' ∧ upgraded t' = upgraded t.
Proof.
  intros Ha Hr. induction Hr as [t|t t1 t' H _ IH]; [by split|].
  apply attempted_prefix in H as [k ->].
  destruct (resume all_changes k t) as [Hk Hka]. destruct (IH (Hka Ha)) as [Ha' Ht].
  split; [exact Ha'|]. transitivity (upgraded (apply_all (take k all_changes) t)); [exact Ht|exact Hk].
Qed.

(** C22: opening resumes. However many runs of initSchema were interrupted, each
    at whichever statement of whichever migration, a run that succeeds leaves
    exactly the tables one uninterrupted run leaves, and on any file the full
    upgrade accepts the next undisturbed run succeeds; run again, it changes
    nothing. *)
Theorem migrate_resumes t t' :
  accepts all_changes t → rtc attempted t t' →
  (∀ fs t1 fs1, migrate_schema (t', fs) = (Ok tt, (t1, fs1)) → t1 = upgraded t) ∧
  migrate_schema (t', []) = (Ok tt, (upgraded t, [])) ∧
  upgraded (upgraded t) = upgraded t.
Proof.
  intros Ha Hr. destruct (attempted_resumes t t' Ha Hr) as [Ha' Ht]. split; [|split].
  - intros fs t1 fs1 H1. pose proof (proj1 migrate_performs t' fs) as H. rewrite H1 in H.
    transitivity (upgraded t'); [exact H|exact Ht].
  - rewrite (proj2 migrate_performs _ Ha'), upgraded_eq, Ht. reflexivity.
  - destruct (resume all_changes (length all_changes) t) as [Hi _]. rewrite firstn_all in Hi. exact Hi.
Qed.

(** ** What the upgrade does to a row *)

(** The value a migration gives a column that is missing. *)
Fixpoint added (n : string) (cs : list change) : option cell :=
  match cs with
  | [] => None
  | AddColumn m d :: cs => if bool_decide (n = m) then Some d else added n cs
  | _ :: cs => added n cs
  end.

Definition keeps_table (c : change) : Prop := c ≠ CreateJobs.

Lemma apply_all_rows cs t :
  Forall keeps_table cs → t_columns t ≠ [] →
  Forall2 (λ r r', ∀ n, r' !! n = if bool_decide (n ∈ t_columns t) then r !! n
                                 else match added n cs with Some d => Some d | None => r !! n end)
    (t_rows t) (t_rows (apply_all cs t)).
Proof.
  intros Hcs. revert t. induction Hcs as [|c cs Hc _ IH]; intros t Hne.
  { apply Forall_Forall2_diag, Forall_forall. intros r _ n. by case_bool_decide. }
  cbn [apply_all foldl]. unfold make_once. destruct (is_done c t) eqn:Hd.
  { eapply Forall2_impl; [by apply IH|]. cbn beta. intros r r' H n. rewrite H.
    case_bool_decide as Hn; [done|]. destruct c; try done. cbn [added].
    rewrite bool_decide_eq_false_2; [done|]. intros ->. cbn in Hd. by apply bool_decide_eq_true_1 in Hd. }
  destruct c as [|m on u| |m d]; [by destruct Hc|exact (IH (make (CreateIndex m on u) t) Hne)
    |exact (IH (make CreateMeta t) Hne)|].
  specialize (IH (make (AddColumn m d) t)). cbn [make t_columns t_rows] in IH.
  specialize (IH ltac:(by destruct (t_columns t))). rewrite Forall2_fmap_l in IH.
  eapply Forall2_impl; [exact IH|]. cbn beta. intros r r' H n. rewrite H. cbn in Hd.
  apply bool_decide_eq_false_1 in Hd. cbn [added].
  destruct (decide (n = m)) as [->|Hnm].
  - rewrite bool_decide_eq_true_2 by set_solver. rewrite bool_decide_eq_false_2 by done.
    rewrite bool_decide_eq_true_2 by done. by rewrite lookup_insert_eq.
  - rewrite lookup_insert_ne by done. rewrite (bool_decide_eq_false_2 (n = m)) by done.
    rewrite (bool_decide_ext (n ∈ t_columns t ++ [m]) (n ∈ t_columns t)) by set_solver. done.
Qed.

(** What an upgrade does. A successful initSchema on a file that has a jobs
    table keeps its rows, every value they had, and adds exactly the missing
    columns of the current schema, each with the value its migration documents;
    all columns of the current schema are then there. *)
Theorem migrate_upgrades t fs t' fs' :
  migrate_schema (t, fs) = (Ok tt, (t', fs')) → t_columns t ≠ [] →
  Forall2 (λ r r', ∀ n, r' !! n = if bool_decide (n ∈ t_columns t) then r !! n
                                 else match added n migrate_changes with Some d => Some d | None => r !! n end)
    (t_rows t) (t_rows t') ∧
  Forall (λ c, is_done c t' = true) all_changes.
Proof.
  intros H Hne. destruct migrate_performs as [Hp _]. specialize (Hp t fs). rewrite H in Hp. subst t'.
  split; [|apply apply_all_done].
  assert (make_once CreateJobs t = t) as Hc by (unfold make_once; cbn [is_done]; by rewrite bool_decide_eq_false_2).
  assert (all_changes = CreateJobs :: tail create_changes ++ migrate_changes) as -> by reflexivity.
  rewrite apply_all_cons, Hc.
  apply (apply_all_rows (tail create_changes ++ migrate_changes) t); [|done].
  repeat (constructor; [done|]). constructor.
Qed.

(** ** Reading a row *)

Definition text (r : raw_row) (c : string) : option string :=
  match r !! c with Some (Text s) => Some s | _ => None end.
Definition int (r : raw_row) (c : string) : option Z :=
  match r !! c with Some (Int n) => Some n | _ => None end.
Definition nullable_text (r : raw_row) (c : string) : option (option string) :=
  match r !! c with Some Null => Some None | Some (Text s) => Some (Some s) | _ => None end.
Definition nullable_int (r : raw_row) (c : string) : option (option Z) :=
  match r !! c with Some Null => Some None | Some (Int n) => Some (Some n) | _ => None end.

Definition status_of_text (s : string) : option Status :=
  head (filter (λ st, Status_text st = s)
    [StatusQueued; StatusLeased; StatusRunning; StatusSucceeded; StatusFailed]).

Definition delivery_status_of_text (s : string) : option DeliveryStatus :=
  (list_to_map [("not_applicable", DeliveryNotApplicable); ("pending", DeliveryPending);
     ("delivering", DeliveryDelivering); ("acknowledged", DeliveryAcknowledged);
     ("dead_letter", DeliveryDeadLetter)] : gmap string DeliveryStatus) !! s.

(** The columns the first schema had. *)
Definition first_columns : list string :=
  ["job_id"; "artifact_kind"; "image_repository"; "image_digest"; "stable_ref"; "tool_name"; "version";
   "cas_hash"; "requested_actions"; "requested_fixture_set"; "status"; "attempt"; "lease_owner";
   "lease_until"; "last_error"; "result_summary"; "created_at"; "updated_at"].

Definition load_first (r : raw_row) : option (ident_cols * lease_cols * string) :=
  id ← text r "job_id"; kind ← text r "artifact_kind"; repo ← text r "image_repository";
  digest ← text r "image_digest"; ref ← text r "stable_ref"; tool ← text r "tool_name";
  ver ← text r "version"; cas ← text r "cas_hash"; acts ← text r "requested_actions";
  fixture ← text r "requested_fixture_set"; st ← text r "status" ≫= status_of_text;
  n ← int r "attempt"; owner ← text r "lease_owner"; until ← nullable_text r "lease_until";
  err ← text r "last_error"; summary ← text r "result_summary";
  created ← text r "created_at"; updated ← text r "updated_at";
  Some (Ident id kind repo digest ref tool ver cas acts fixture None "" created,
        Lease st n owner until None err summary, updated).

(** The columns the migrations add. *)
Definition load_added (r : raw_row) :
    option (option string * string * option Z * delivery_cols * terminal_cols * exec_cols) :=
  vrid ← nullable_text r "validation_request_id"; fp ← text r "request_fingerprint";
  ds ← text r "result_delivery_status" ≫= delivery_status_of_text;
  payload ← text r "result_delivery_payload"; dn ← int r "result_delivery_attempts";
  derr ← text r "result_delivery_last_error"; next ← nullable_text r "next_attempt_at";
  until ← nullable_text r "result_delivery_claimed_until"; tok ← text r "result_delivery_claim_token";
  sub ← int r "terminal_submitted"; towner ← text r "terminal_owner"; tn ← int r "terminal_attempt";
  x ← text r "execution_id"; xt ← int r "execution_terminal"; due ← nullable_int r "retry_not_before";
  Some (vrid, fp, due, Delivery ds payload dn derr next until tok,
        Terminal (negb (sub =? 0)) towner tn, Exec x (negb (xt =? 0))).

Definition load (r : raw_row) : option row :=
  '(i, l, updated) ← load_first r;
  '(vrid, fp, due, d, t, x) ← load_added r;
  Some (Row (Ident (job_id i) (artifact_kind i) (image_repository i) (image_digest i) (stable_ref i)
               (tool_name i) (version i) (cas_hash i) (requested_actions i) (requested_fixture_set i)
               vrid fp (created_at i))
            (Lease (status l) (attempt l) (lease_owner l) (lease_until l) due (last_error l) (result_summary l))
            d t x updated).

(** Rows of the first schema. After an upgrade every row a binary of the
    first schema wrote is read with all it said, and as one that has no request
    id, no retry delay, no delivery, no terminal slot taken and no execution: no
    attempt owns its first delivery, no redelivery claims it, and the next
    EnsureExecution finds no identity to adopt. *)
Theorem first_rows_load t fs t' fs' k r i l updated :
  migrate_schema (t, fs) = (Ok tt, (t', fs')) → t_columns t = first_columns →
  t_rows t !! k = Some r → load_first r = Some (i, l, updated) →
  ∃ r' x, t_rows t' !! k = Some r' ∧ load r' = Some x ∧
    r_ident x = i ∧ r_lease x = l ∧ updated_at x = updated ∧
    live_execution x = None ∧ terminal_submitted (r_terminal x) = false ∧
    (∀ w n, firstDeliveryFence w n x = false) ∧ (∀ tok, redeliveryFence tok x = false) ∧
    (∀ now, claimable now x = false).
Proof.
  intros H Hc Hr Hl. destruct migrate_performs as [Hp _]. specialize (Hp t fs). rewrite H in Hp.
  assert (t_columns t ≠ []) as Hne by by rewrite Hc.
  assert (make_once CreateJobs t = t) as Hcj by (unfold make_once; cbn [is_done]; by rewrite bool_decide_eq_false_2).
  assert (all_changes = CreateJobs :: tail create_changes ++ migrate_changes) as E by reflexivity.
  rewrite E, apply_all_cons, Hcj in Hp.
  pose proof (apply_all_rows (tail create_changes ++ migrate_changes) t) as Hrows.
  rewrite <- Hp in Hrows. specialize (Hrows ltac:(repeat (constructor; [done|]); constructor) Hne).
  destruct (Forall2_lookup_l _ _ _ _ _ Hrows Hr) as (r' & Hr' & Hcells). rewrite Hc in Hcells.
  assert (∀ c, c ∈ first_columns → r' !! c = r !! c) as Hkeep.
  { intros c Hin. rewrite Hcells. by rewrite bool_decide_eq_true_2. }
  assert (load_first r' = load_first r) as Hlf.
  { unfold load_first, text, int, nullable_text.
    by repeat (rewrite Hkeep by (apply (bool_decide_unpack _); vm_compute; exact I)). }
  assert (load_added r' = Some (None, "", None, Delivery DeliveryNotApplicable "" 0 "" None None "",
    Terminal false "" 0, Exec "" false)) as Hla.
  { unfold load_added, text, int, nullable_text, nullable_int. rewrite !Hcells. vm_compute. reflexivity. }
  exists r'. eexists. split; [done|]. split; [unfold load; rewrite Hlf, Hl, Hla; reflexivity|].
  unfold load_first in Hl. repeat (apply bind_Some in Hl as (? & _ & Hl)). injection Hl as <- <- <-.
  by split_and!.
Qed.

(** ** A concrete file *)

Definition first_row : raw_row := list_to_map
  [("job_id", Text "job-1"); ("artifact_kind", Text "tool"); ("image_repository", Text "registry/tool");
   ("image_digest", Text "sha256:00"); ("stable_ref", Text "tool@v1"); ("tool_name", Text "tool");
   ("version", Text "v1"); ("cas_hash", Text "cas"); ("requested_actions", Text "[]");
   ("requested_fixture_set", Text ""); ("status", Text "running"); ("attempt", Int 1);
   ("lease_owner", Text "w1"); ("lease_until", Text "2024-07-03T09:47:40Z"); ("last_error", Text "");
   ("result_summary", Text ""); ("created_at", Text "2024-07-03T09:46:40Z");
   ("updated_at", Text "2024-07-03T09:46:40Z")].

Definition first_file : tables := Tables first_columns [first_row] ∅ false.

(** The disk is full at the eighteenth statement. *)
Definition disk_full : list (option error) :=
  replicate 17 None ++ [Some (ErrText "database or disk is full")].
(** ... and at the twenty-fifth. *)
Definition busy_later : list (option error) :=
  replicate 24 None ++ [Some (ErrText "database or disk is full")].

Lemma first_file_accepted : accepts all_changes first_file.
Proof.
  cbn [accepts all_changes create_changes migrate_changes app].
  repeat (split; [first [left; vm_compute; reflexivity | right; vm_compute; reflexivity]|]). exact I.
Qed.

(** The disk is full, later another statement fails, and then nothing does. *)
Lemma migrate_resumes_witness :
  let t1 := (migrate_schema (first_file, disk_full)).2.1 in
  let t2 := (migrate_schema (t1, busy_later)).2.1 in
  (is_ok (migrate_schema (first_file, disk_full)).1 || is_ok (migrate_schema (t1, busy_later)).1 = false ∧ t1 ≠ t2) ∧
  migrate_schema (t2, []) = (Ok tt, (upgraded first_file, [])).
Proof.
  intros t1 t2. split; [split; vm_compute; [reflexivity|discriminate]|].
  refine (proj1 (proj2 (migrate_resumes first_file t2 first_file_accepted _))).
  eapply rtc_l; [|eapply rtc_l; [|reflexivity]].
  - exact (attempted_run first_file disk_full).
  - exact (attempted_run t1 busy_later).
Defined.

Lemma first_file_upgraded : ∃ t', migrate_schema (first_file, []) = (Ok tt, (t', [])).
Proof. eexists. apply (proj2 migrate_performs), first_file_accepted. Qed.

Lemma migrate_upgrades_witness :
  ∃ t', migrate_schema (first_file, []) = (Ok tt, (t', [])) ∧ Forall (λ c, is_done c t' = true) all_changes.
Proof.
  destruct first_file_upgraded as [t' H]. exists t'. split; [exact H|].
  apply (migrate_upgrades first_file [] t' [] H). done.
Defined.

Lemma first_rows_load_witness :
  ∃ t' r' x, migrate_schema (first_file, []) = (Ok tt, (t', [])) ∧ t_rows t' !! 0%nat = Some r' ∧
    load r' = Some x ∧ live_execution x = None.
Proof.
  destruct first_file_upgraded as [t' H].
  destruct (load_first first_row) as [[[i l] u]|] eqn:E; [|exfalso; vm_compute in E; discriminate].
  destruct (first_rows_load first_file [] t' [] 0 first_row i l u H eq_refl eq_refl E)
    as (r' & x & H1 & H2 & _ & _ & _ & H3 & _).
  exists t', r', x. exact (conj H (conj H1 (conj H2 H3))).
Defined.
