(* ===== verification/Opening.v ===== *)
(** * Opening: the one writer of a database file

    New, Close and the writer lock of [pkg/work/sqlite/store.go]. New is a
    program over calls into the file system and SQLite; any number of openers,
    in one process or several, run theirs step by step on one file. What SQLite
    documents of its file locks is a class; everything proved holds for every
    instance of it. *)

From S2P Require Import Prelude GoTime Errors.

(** ** Errors: several [%w], and errors.Join *)

Inductive open_error :=
| Cause (e : error)                                  (* of the file system or the driver *)
| ErrWriterLocked
| Wrap1 (before : string) (e : open_error) (after : string)
| Wrap2 (e1 : open_error) (between : string) (e2 : open_error)
| Join (e1 : open_error) (e2 : option open_error).   (* errors.Join(e1, e2); nil is dropped *)

(** [errors.Is(e, ErrWriterLocked)]. *)
Fixpoint is_writer_locked (e : open_error) : bool :=
  match e with
  | Cause _ => false
  | ErrWriterLocked => true
  | Wrap1 _ e _ => is_writer_locked e
  | Wrap2 e1 _ e2 => is_writer_locked e1 || is_writer_locked e2
  | Join e1 e2 => is_writer_locked e1 || match e2 with Some e2 => is_writer_locked e2 | None => false end
  end.

(** Whether [c] is in the chain, as errors.Is finds it. *)
Fixpoint has_cause (c : error) (e : open_error) : bool :=
  match e with
  | Cause e => errors_is e c
  | ErrWriterLocked => false
  | Wrap1 _ e _ => has_cause c e
  | Wrap2 e1 _ e2 => has_cause c e1 || has_cause c e2
  | Join e1 e2 => has_cause c e1 || match e2 with Some e2 => has_cause c e2 | None => false end
  end.

Fixpoint open_error_text (e : open_error) : string :=
  match e with
  | Cause e => error_text e
  | ErrWriterLocked => "workstore is held by another writer"
  | Wrap1 b e a => b +:+ open_error_text e +:+ a
  | Wrap2 e1 m e2 => open_error_text e1 +:+ m +:+ open_error_text e2
  | Join e1 (Some e2) => open_error_text e1 +:+ String "010" (open_error_text e2)
  | Join e1 None => open_error_text e1
  end.

(** ** filepath.Dir *)

(** The elements between the separators. *)
Fixpoint elements_of (cur path : string) : list string :=
  match path with
  | EmptyString => [cur]
  | String "/" rest => cur :: elements_of "" rest
  | String c rest => elements_of (cur +:+ String c "") rest
  end.

(** The elements of a clean path, last first. *)
Fixpoint clean_elements (rooted : bool) (els acc : list string) : list string :=
  match els with
  | [] => acc
  | el :: els =>
      if bool_decide (el = "" ∨ el = ".") then clean_elements rooted els acc
      else if bool_decide (el = "..") then
        match acc with
        | last :: acc' =>
            if bool_decide (last = "..") then clean_elements rooted els (el :: acc)
            else clean_elements rooted els acc'
        | [] => clean_elements rooted els (if rooted then [] else [el])
        end
      else clean_elements rooted els (el :: acc)
  end.

Definition is_rooted (path : string) : bool :=
  match path with String "/" _ => true | _ => false end.

(** filepath.Clean, on Unix. *)
Definition filepath_Clean (path : string) : string :=
  let body := String.concat "/" (rev (clean_elements (is_rooted path) (elements_of "" path) [])) in
  if is_rooted path then "/" +:+ body
  else if bool_decide (body = "") then "." else body.

(** Everything up to the last separator, which is included. *)
Fixpoint up_to_last_separator (path : string) : string :=
  match path with
  | EmptyString => ""
  | String c rest =>
      let r := up_to_last_separator rest in
      if bool_decide (c = "/"%char ∨ r ≠ "") then String c r else ""
  end.

Definition filepath_Dir (path : string) : string := filepath_Clean (up_to_last_separator path).

Example filepath_Dir_examples :
  map filepath_Dir ["./nodesentinel.db"; "nodesentinel.db"; "/data/nodesentinel.db"; "/db"; "a/../b//c/./d/x"; ""]
  = ["."; "."; "/data"; "/"; "b/c/d"; "."].
Proof. reflexivity. Qed.

(** ** Programs over calls *)

(** The statements of acquireWriterLock. *)
Inductive lock_stmt := PragmaNormal | BeginExclusive | PragmaExclusive | Rollback | Commit.

(** The calls New and Close make, with the type of their answers. *)
Inductive sys : Type → Type :=
| OsStat (dir : string) : sys (res error bool)               (* info.IsDir() *)
| OsCreateTemp (dir pattern : string) : sys (res error string)
| FileClose (name : string) : sys (option error)
| OsRemove (name : string) : sys (option error)
| SqlOpen (dsn : string) : sys (option error)
| DbConn : sys (option error)                                (* takes the pool's one connection *)
| ConnExec (s : lock_stmt) : sys (option error)
| ConnClose : sys (option error)                             (* returns it to the pool *)
| InitSchema : sys (option error)                            (* Migrate.v, Normalize.v *)
| DbClose : sys (option error).

Inductive prog (A : Type) :=
| Ret (a : A)
| Call {R : Type} (c : sys R) (k : R → prog A).
Arguments Ret {A} a.
Arguments Call {A R} c k.

#[export] Instance prog_ret : MRet prog := @Ret.
#[export] Instance prog_bind : MBind prog := λ A B f, fix bind m :=
  match m with Ret a => f a | Call c k => Call c (λ r, bind (k r)) end.

Definition call {R} (c : sys R) : prog R := Call c Ret.

(** What the driver's errors say. *)
Inductive sqlite_errno := ErrBusy | ErrLocked | OtherErrno.

Section New.
(** errors.As into a sqlite3.Error, and its Code. *)
Context (sqlite_code : error → option sqlite_errno).

Definition busy (e : error) : bool :=
  match sqlite_code e with Some ErrBusy | Some ErrLocked => true | _ => false end.

Definition checkDirWritable (path : string) : prog (option open_error) :=
  let dir := filepath_Dir path in
  info ← call (OsStat dir);
  match info with
  | Err e =>
      mret (Some (Wrap1 ("workstore directory " +:+ quoted dir +:+ " is not usable: ") (Cause e)
        " (is the volume mounted at this path?)"))
  | Ok false =>
      mret (Some (Cause (ErrText ("workstore path " +:+ quoted path +:+ " resolves to a non-directory parent " +:+
        quoted dir +:+ "; NODESENTINEL_DB_PATH must name a file inside a mounted directory, " +:+
        "so SQLite can place its rollback journal beside the database"))))
  | Ok true =>
      probe ← call (OsCreateTemp dir ".writecheck-*");
      match probe with
      | Err e =>
          mret (Some (Wrap1 ("workstore directory " +:+ quoted dir +:+ " is not writable: ") (Cause e)
            (" — if this is a PersistentVolume, the Pod securityContext is most likely missing " +:+
             "fsGroup (a newly provisioned volume is owned by root, and this process does not " +:+
             "run as root); see deploy/03-nodesentinel.yaml")))
      | Ok name =>
          closed ← call (FileClose name);
          match closed with
          | Some e => mret (Some (Wrap1 ("close write probe in " +:+ quoted dir +:+ ": ") (Cause e) ""))
          | None =>
              removed ← call (OsRemove name);
              mret ((λ e, Wrap1 ("remove write probe " +:+ quoted name +:+ ": ") (Cause e) "") <$> removed)
          end
      end
  end.

Definition lock_error (path : string) (e : open_error) : open_error :=
  Wrap1 ("take workstore writer lock on " +:+ quoted path +:+ ": ") e "".

Definition writerLockError (path : string) (e : error) : open_error :=
  if busy e then
    Wrap2 ErrWriterLocked
      (": " +:+ quoted path +:+ " (only one NodeSentinel process may open a workstore): ") (Cause e)
  else lock_error path (Cause e).

(** The statements of acquireWriterLock on the connection it took. *)
Definition lock_statements (path : string) : prog (option open_error) :=
  normal ← call (ConnExec PragmaNormal);
  match normal with
  | Some e => mret (Some (lock_error path (Cause e)))
  | None =>
      begun ← call (ConnExec BeginExclusive);
      match begun with
      | Some e => mret (Some (writerLockError path e))
      | None =>
          exclusive ← call (ConnExec PragmaExclusive);
          match exclusive with
          | Some e =>
              rollbackErr ← call (ConnExec Rollback);
              mret (Some (lock_error path (Join (Cause e) (Cause <$> rollbackErr))))
          | None =>
              committed ← call (ConnExec Commit);
              mret ((λ e, lock_error path (Cause e)) <$> committed)
          end
      end
  end.

Definition acquireWriterLock (path : string) : prog (option open_error) :=
  conn ← call DbConn;
  match conn with
  | Some e => mret (Some (writerLockError path e))
  | None =>
      err ← lock_statements path;
      closeErr ← call ConnClose;
      mret (match closeErr, err with
            | Some e, None => Some (Wrap1 "return workstore lock connection to the pool: " (Cause e) "")
            | _, _ => err
            end)
  end.

Definition dsn (path : string) : string :=
  "file:" +:+ path +:+ "?_busy_timeout=5000&_foreign_keys=on&_txlock=immediate&_locking_mode=EXCLUSIVE".

(** What New returns beside the store: no error is [None]. *)
Definition New (path : string) : prog (option open_error) :=
  dir ← checkDirWritable path;
  match dir with
  | Some e => mret (Some e)
  | None =>
      opened ← call (SqlOpen (dsn path));
      match opened with
      | Some e => mret (Some (Wrap1 "open sqlite: " (Cause e) ""))
      | None =>
          locked ← acquireWriterLock path;
          match locked with
          | Some e => _ ← call DbClose; mret (Some e)
          | None =>
              inited ← call InitSchema;
              match inited with
              | Some e => _ ← call DbClose; mret (Some (Cause e))
              | None => mret None
              end
          end
      end
  end.

End New.

(** ** One file, many openers *)

(** SQLite's locks on one database file, for connections named by numbers, as
    "File Locking And Concurrency" and "PRAGMA locking_mode" describe them. *)
Class FileLock := {
  lock_state : Type;
  touches : lock_state → nat → Prop;      (* the connection has a lock, SHARED or stronger *)
  holds : lock_state → nat → Prop;        (* it has the EXCLUSIVE lock *)
  keeps_locks : lock_state → nat → Prop;  (* its locking_mode is EXCLUSIVE *)
  (** Connecting, with the pragmas of the DSN; the statements of
      acquireWriterLock; any other statements; closing. *)
  attach : nat → lock_state → option error → lock_state → Prop;
  exec : nat → lock_stmt → lock_state → option error → lock_state → Prop;
  use : nat → lock_state → lock_state → Prop;
  close : nat → lock_state → lock_state → Prop;
  sqlite_code : error → option sqlite_errno;
  (** The EXCLUSIVE lock is a lock, and no other coexists with it. *)
  holds_touches l c : holds l c → touches l c;
  holds_alone l c c' : holds l c → touches l c' → c = c';
  (** A connection moves no lock but its own. *)
  others_kept c l l' c' :
    (∃ o, attach c l o l') ∨ (∃ s o, exec c s l o l') ∨ use c l l' ∨ close c l l' →
    c' ≠ c → (touches l' c' ↔ touches l c') ∧ (holds l' c' ↔ holds l c') ∧ (keeps_locks l' c' ↔ keeps_locks l c');
  attach_free c l o l' : attach c l o l' → ¬ touches l c → ¬ touches l' c;
  normal_free c l o l' : exec c PragmaNormal l o l' → ¬ touches l c → ¬ touches l' c;
  normal_set c l l' : exec c PragmaNormal l None l' → ¬ keeps_locks l' c;
  (** BEGIN EXCLUSIVE takes the lock, or in NORMAL mode leaves none; it is
      refused as busy only when another connection has a lock. *)
  begin_granted c l l' : exec c BeginExclusive l None l' → holds l' c;
  begin_refused c l e l' :
    exec c BeginExclusive l (Some e) l' → ¬ keeps_locks l c → ¬ touches l c → ¬ touches l' c;
  begin_busy c l e l' :
    exec c BeginExclusive l (Some e) l' → busy sqlite_code e = true → ∃ c', c' ≠ c ∧ touches l c';
  exclusive_holds c l o l' : exec c PragmaExclusive l o l' → holds l c → holds l' c;
  exclusive_set c l l' : exec c PragmaExclusive l None l' → keeps_locks l' c;
  (** In EXCLUSIVE mode a lock outlives its transaction. *)
  commit_kept c l l' :
    exec c Commit l None l' → holds l c → keeps_locks l c → holds l' c ∧ keeps_locks l' c;
  use_kept c l l' : use c l l' → holds l c → keeps_locks l c → holds l' c ∧ keeps_locks l' c;
  close_free c l l' : close c l l' → ¬ touches l' c;
}.

(** ** The openers *)

Inductive opener :=
| Opening (p : prog (option open_error))
| Opened                       (* New returned a store *)
| Refused (e : open_error)     (* New returned this error *)
| Closed.

Definition advance (p : prog (option open_error)) : opener :=
  match p with Ret None => Opened | Ret (Some e) => Refused e | _ => Opening p end.

Section Openers.
Context `{FileLock} (path : string).

(** The answer [r] to a call of connection [c]. *)
Definition responds {R} (q : sys R) (c : nat) (l : lock_state) : R → lock_state → Prop :=
  match q in sys R return R → lock_state → Prop with
  | DbConn => λ o l', attach c l o l'
  | ConnExec s => λ o l', exec c s l o l'
  | InitSchema => λ _ l', use c l l'
  | DbClose => λ _ l', close c l l'
  | _ => λ _ l', l' = l
  end.

(** Whom BEGIN EXCLUSIVE was last granted and who has not closed since. *)
Definition granted_next {R} (q : sys R) (c : nat) (g : option nat) : R → option nat :=
  match q in sys R return R → option nat with
  | ConnExec BeginExclusive => λ o, match o with None => Some c | Some _ => g end
  | DbClose => λ _, if bool_decide (g = Some c) then None else g
  | _ => λ _, g
  end.

Record openers := Openers {
  o_locks : lock_state;
  o_granted : option nat;
  o_procs : gmap nat opener;
}.

(** An opener begins New, makes its next call, uses its store or closes it. *)
Inductive opener_step : openers → openers → Prop :=
| os_begin l g ps c :
    ps !! c = None → opener_step (Openers l g ps) (Openers l g (<[c := Opening (New sqlite_code path)]> ps))
| os_call {R} l g ps c (q : sys R) k r l' :
    ps !! c = Some (Opening (Call q k)) → responds q c l r l' →
    opener_step (Openers l g ps) (Openers l' (granted_next q c g r) (<[c := advance (k r)]> ps))
| os_use l g ps c l' :
    ps !! c = Some Opened → use c l l' → opener_step (Openers l g ps) (Openers l' g ps)
| os_close l g ps c l' :
    ps !! c = Some Opened → close c l l' →
    opener_step (Openers l g ps) (Openers l' (granted_next DbClose c g None) (<[c := Closed]> ps)).

(** ** What a position in New knows of its lock *)

Inductive grip :=
| NoLock           (* it has no lock *)
| NoLockNormal     (* ... and its locking mode is NORMAL *)
| Gripped          (* it has the EXCLUSIVE lock *)
| GrippedForGood   (* ... and its locking mode is EXCLUSIVE *)
| Unknown.

Definition grips (l : lock_state) (c : nat) (g : grip) : Prop :=
  match g with
  | NoLock => ¬ touches l c
  | NoLockNormal => ¬ touches l c ∧ ¬ keeps_locks l c
  | Gripped => holds l c
  | GrippedForGood => holds l c ∧ keeps_locks l c
  | Unknown => True
  end.

Definition grip_next {R} (q : sys R) (g : grip) : R → grip :=
  match q in sys R return R → grip with
  | ConnExec s => λ o,
      match s, g, o with
      | PragmaNormal, (NoLock | NoLockNormal), None => NoLockNormal
      | PragmaNormal, (NoLock | NoLockNormal), Some _ => NoLock
      | BeginExclusive, _, None => Gripped
      | BeginExclusive, NoLockNormal, Some _ => NoLock
      | PragmaExclusive, (Gripped | GrippedForGood), None => GrippedForGood
      | PragmaExclusive, (Gripped | GrippedForGood), Some _ => Gripped
      | Commit, GrippedForGood, None => GrippedForGood
      | _, _, _ => Unknown
      end
  | DbConn => λ _, match g with NoLock => NoLock | _ => Unknown end
  | InitSchema => λ _, match g with GrippedForGood => GrippedForGood | _ => Unknown end
  | DbClose => λ _, NoLock
  | _ => λ _, g
  end.

Lemma grips_next {R} (q : sys R) c l r l' g :
  responds q c l r l' → grips l c g → grips l' c (grip_next q g r).
Proof.
  destruct q as [| | | | | |s| | |]; cbn [responds grip_next]; intros Hr Hg; try (by subst).
  - destruct g; try done. by eapply attach_free.
  - destruct s, g, r as [e|]; cbn in Hg |- *; try done; destruct_and?;
      eauto using normal_free, normal_set, begin_granted, begin_refused, exclusive_holds, exclusive_set, commit_kept.
  - destruct g; try done. cbn in *. destruct_and?. by eapply use_kept.
  - by eapply close_free.
Qed.

(** Which calls are made in which position. *)
Definition may_call {R} (q : sys R) (g : grip) : Prop :=
  match q with
  | DbConn | ConnExec PragmaNormal => g = NoLock
  | ConnExec BeginExclusive => g = NoLockNormal
  | ConnExec PragmaExclusive | ConnExec Rollback => g = Gripped
  | ConnExec Commit | InitSchema => g = GrippedForGood
  | _ => True
  end.

(** A program that returns a store only with a lock that lasts, and an error
    only without one. *)
Fixpoint sound (g : grip) (p : prog (option open_error)) : Prop :=
  match p with
  | Ret None => g = GrippedForGood
  | Ret (Some _) => g = NoLock
  | Call q k => may_call q g ∧ ∀ r, sound (grip_next q g r) (k r)
  end.

Lemma New_sound code : sound NoLock (New code path).
Proof.
  unfold New, checkDirWritable, acquireWriterLock, lock_statements. cbn.
  repeat match goal with
  | |- _ ∧ _ => split; [done|]
  | |- ∀ r : option error, _ => intros [?|]; cbn
  | |- ∀ r : res error bool, _ => intros [[]|?]; cbn
  | |- ∀ r : res error string, _ => intros [?|?]; cbn
  end; done.
Qed.

(** ** The invariant *)

Lemma responds_others {R} (q : sys R) c l r l' c' :
  responds q c l r l' → c' ≠ c →
  (touches l' c' ↔ touches l c') ∧ (holds l' c' ↔ holds l c') ∧ (keeps_locks l' c' ↔ keeps_locks l c').
Proof.
  destruct q; cbn [responds]; intros Hr Hne; try (by subst); eapply others_kept; eauto 10.
Qed.

(** The opener has what its state says. *)
Definition opener_ok (l : lock_state) (c : nat) (p : option opener) : Prop :=
  match p with
  | Some (Opening p) => ∃ g, grips l c g ∧ sound g p
  | Some Opened => holds l c ∧ keeps_locks l c
  | None | Some (Refused _) | Some Closed => ¬ touches l c
  end.

Record openers_ok (s : openers) : Prop := {
  ok_granted c : touches (o_locks s) c → o_granted s = Some c;
  ok_process c : opener_ok (o_locks s) c (o_procs s !! c);
}.

Lemma opener_ok_kept l l' c p :
  (touches l' c ↔ touches l c) ∧ (holds l' c ↔ holds l c) ∧ (keeps_locks l' c ↔ keeps_locks l c) →
  opener_ok l c p → opener_ok l' c p.
Proof.
  intros (Ht & Hh & Hk). destruct p as [[p| |e|]|]; cbn; try tauto.
  intros (g & Hg & Hp). exists g. split; [|done]. destruct g; cbn in *; tauto.
Qed.

Lemma advance_ok l c g p : grips l c g → sound g p → opener_ok l c (Some (advance p)).
Proof.
  intros Hg Hp. destruct p as [[e|]|R q k]; cbn in Hp |- *; [by subst|by subst|by exists g].
Qed.

(** What a lock owes to a granted BEGIN EXCLUSIVE. *)
Lemma granted_touches {R} (q : sys R) c l r l' g gr c' :
  responds q c l r l' → may_call q g → grips l c g →
  (∀ c, touches l c → gr = Some c) → touches l' c' → granted_next q c gr r = Some c'.
Proof.
  intros Hr Hm Hg Hgr Ht. destruct (decide (c' = c)) as [->|Hne].
  - assert (touches l c → granted_next q c gr r = Some c) as Hown.
    { intros Hc. apply Hgr in Hc. destruct q as [| | | | | |[]| | |]; cbn; try done.
      - by destruct r.
      - by apply close_free in Hr. }
    destruct q as [| | | | | |[]| | |]; cbn in Hr, Hm |- *; subst; cbn in Hg; try (by apply Hown).
    + exfalso. by apply (attach_free _ _ _ _ Hr).
    + exfalso. by apply (normal_free _ _ _ _ Hr).
    + destruct r as [e|]; [|done]. exfalso. destruct Hg. by apply (begin_refused _ _ _ _ Hr).
    + apply Hown. by apply holds_touches.
    + apply Hown. by apply holds_touches.
    + apply Hown. by apply holds_touches, Hg.
    + apply Hown. by apply holds_touches, Hg.
    + exfalso. by apply close_free in Hr.
  - pose proof (responds_others _ _ _ _ _ _ Hr Hne) as (Ht' & _). apply Ht' in Ht as Htl. apply Hgr in Htl.
    destruct q as [| | | | | |[]| | |]; cbn; try done.
    + destruct r as [e|]; [done|]. exfalso. apply Hne. symmetry.
      eapply holds_alone; [|exact Ht]. by eapply begin_granted.
    + rewrite bool_decide_eq_false_2; [done|]. intros E. congruence.
Qed.

Lemma opener_step_ok s s' : opener_step s s' → openers_ok s → openers_ok s'.
Proof.
  intros Hs [Hgr Hps].
  destruct Hs as [l g ps c Hc|R l g ps c q k r l' Hc Hr|l g ps c l' Hc Hr|l g ps c l' Hc Hr];
    cbn [o_locks o_granted o_procs] in *.
  - constructor; cbn; [done|]. intros c'. destruct (decide (c' = c)) as [->|Hne].
    + rewrite lookup_insert_eq. specialize (Hps c). rewrite Hc in Hps. exists NoLock. split; [done|apply New_sound].
    + rewrite lookup_insert_ne by done. apply Hps.
  - pose proof (Hps c) as Hpc. rewrite Hc in Hpc. destruct Hpc as (gr & Hg & [Hm Hk]). constructor; cbn.
    + intros c' Ht. by eapply granted_touches.
    + intros c'. destruct (decide (c' = c)) as [->|Hne].
      * rewrite lookup_insert_eq. eapply advance_ok; [|apply Hk]. by eapply grips_next.
      * rewrite lookup_insert_ne by done. eapply opener_ok_kept; [|apply Hps]. by eapply responds_others.
  - assert (responds InitSchema c l None l') as Hr' by done.
    pose proof (Hps c) as Hpc. rewrite Hc in Hpc. constructor; cbn.
    + intros c' Ht. by eapply (granted_touches InitSchema c l None l' GrippedForGood g).
    + intros c'. destruct (decide (c' = c)) as [->|Hne].
      * rewrite Hc. destruct Hpc. by eapply use_kept.
      * eapply opener_ok_kept; [|apply Hps]. by eapply responds_others.
  - assert (responds DbClose c l None l') as Hr' by done. constructor; cbn.
    + intros c' Ht. by eapply (granted_touches DbClose c l None l' Unknown g).
    + intros c'. destruct (decide (c' = c)) as [->|Hne].
      * rewrite lookup_insert_eq. by eapply close_free.
      * rewrite lookup_insert_ne by done. eapply opener_ok_kept; [|apply Hps]. by eapply responds_others.
Qed.

(** C19: one writer. However many processes open the file, concurrently or one
    after the other, at any moment at most one of them has a store, and it keeps
    the file locked for as long as it is open; one whose New failed, or that
    closed its store, keeps no lock at all. And nobody is locked out without
    cause: BEGIN EXCLUSIVE is refused as busy only to an opener beside which
    another one was granted it and has not closed since. *)
Theorem one_writer l0 s :
  (∀ c, ¬ touches l0 c) → rtc opener_step (Openers l0 None ∅) s →
  (∀ c c', o_procs s !! c = Some Opened → o_procs s !! c' = Some Opened → c = c') ∧
  (∀ c, o_procs s !! c = Some Opened → holds (o_locks s) c) ∧
  (∀ c p, o_procs s !! c = Some p → p = Closed ∨ (∃ e, p = Refused e) → ¬ touches (o_locks s) c) ∧
  (∀ c k e l', o_procs s !! c = Some (Opening (Call (ConnExec BeginExclusive) k)) →
     exec c BeginExclusive (o_locks s) (Some e) l' → busy sqlite_code e = true →
     ∃ c', c' ≠ c ∧ o_granted s = Some c' ∧
       (o_procs s !! c' = Some Opened ∨ ∃ p, o_procs s !! c' = Some (Opening p))).
Proof.
  intros H0 Hs. assert (openers_ok s) as [Hgr Hps].
  { remember (Openers l0 None ∅) as s0 eqn:E. assert (openers_ok s0) as Hok.
    { subst. constructor; cbn; [intros c Hc; by apply H0 in Hc|]. intros c. rewrite lookup_empty. apply H0. }
    clear E. induction Hs as [|s0 s1 s2 Hst _ IH]; [done|]. by apply IH, (opener_step_ok _ _ Hst). }
  assert (∀ c, o_procs s !! c = Some Opened → holds (o_locks s) c) as Hopen.
  { intros c Hc. specialize (Hps c). rewrite Hc in Hps. by destruct Hps. }
  split_and!; [|done|..].
  - intros c c' Hc Hc'. eapply holds_alone; [by apply Hopen|by apply holds_touches, Hopen].
  - intros c p Hc Hp. specialize (Hps c). rewrite Hc in Hps. by destruct Hp as [->|[e ->]].
  - intros c k e l' Hc He Hb. destruct (begin_busy _ _ _ _ He Hb) as (c' & Hne & Ht). exists c'.
    split; [done|]. split; [by apply Hgr|]. specialize (Hps c').
    destruct (o_procs s !! c') as [[p| |e'|]|]; eauto; by apply Hps in Ht.
Qed.

End Openers.

(** ** What New returns *)

(** A program run against answers that depend on the call alone. *)
Fixpoint run {A} (h : ∀ R, sys R → R) (p : prog A) : A :=
  match p with Ret a => a | Call q k => run h (k (h _ q)) end.

(** Whether it makes a call that [f] picks. *)
Fixpoint made {A} (f : ∀ R, sys R → bool) (h : ∀ R, sys R → R) (p : prog A) : bool :=
  match p with Ret _ => false | Call q k => f _ q || made f h (k (h _ q)) end.

Definition closes_db (R : Type) (q : sys R) : bool := match q with DbClose => true | _ => false end.

Lemma run_bind {A B} h (m : prog A) (f : A → prog B) : run h (m ≫= f) = run h (f (run h m)).
Proof. induction m as [a|R q k IH]; [done|]. cbn. apply IH. Qed.

Lemma made_bind {A B} f h (m : prog A) (k : A → prog B) :
  made f h (m ≫= k) = made f h m || made f h (k (run h m)).
Proof. induction m as [a|R q k' IH]; [done|]. cbn. rewrite <- orb_assoc. f_equal. apply IH. Qed.

Lemma run_call {R B} h (q : sys R) (k : R → prog B) : run h (call q ≫= k) = run h (k (h _ q)).
Proof. done. Qed.
Lemma made_call {R B} f h (q : sys R) (k : R → prog B) :
  made f h (call q ≫= k) = f R q || made f h (k (h _ q)).
Proof. done. Qed.
Lemma run_ret {A} h (a : A) : run h (mret a) = a.
Proof. done. Qed.
Lemma made_ret {A} f h (a : A) : made f h (mret a) = false.
Proof. done. Qed.

Section Outcomes.
Context (code : error → option sqlite_errno) (h : ∀ R, sys R → R) (path : string).
#[local] Abbreviation ask q := (h _ q).

(** The directory of the file exists and a file can be made and removed in it. *)
Definition dir_usable : Prop :=
  ask (OsStat (filepath_Dir path)) = Ok true ∧
  ∃ name, ask (OsCreateTemp (filepath_Dir path) ".writecheck-*") = Ok name ∧
    ask (FileClose name) = None ∧ ask (OsRemove name) = None.

Lemma checkDirWritable_ok : run h (checkDirWritable path) = None ↔ dir_usable.
Proof.
  unfold checkDirWritable, dir_usable. cbn.
  destruct (ask (OsStat _)) as [[]|e]; cbn; [|by split; [|intros []]..].
  destruct (ask (OsCreateTemp _ _)) as [name|e]; cbn; [|by split; [|intros (_ & ? & ? & _)]].
  destruct (ask (FileClose name)) eqn:Hc; cbn.
  { split; [done|]. intros (_ & n & [= <-] & Hn & _). congruence. }
  destruct (ask (OsRemove name)) eqn:Hr; cbn.
  - split; [done|]. intros (_ & n & [= <-] & _ & Hn). congruence.
  - split; [|done]. intros _. eauto 10.
Qed.

Lemma checkDirWritable_not_locked e :
  run h (checkDirWritable path) = Some e → is_writer_locked e = false ∧ made closes_db h (checkDirWritable path) = false.
Proof.
  unfold checkDirWritable. cbn. destruct (ask (OsStat _)) as [[]|e0]; cbn; [|by intros [= <-]..].
  destruct (ask (OsCreateTemp _ _)) as [name|e0]; cbn; [|by intros [= <-]].
  destruct (ask (FileClose name)); cbn; [by intros [= <-]|].
  destruct (ask (OsRemove name)); cbn; [by intros [= <-]|done].
Qed.

(** Everything acquireWriterLock asks for is granted. *)
Definition lock_granted : Prop :=
  ask DbConn = None ∧ ask (ConnExec PragmaNormal) = None ∧ ask (ConnExec BeginExclusive) = None ∧
  ask (ConnExec PragmaExclusive) = None ∧ ask (ConnExec Commit) = None ∧ ask ConnClose = None.

(** The lock is refused because somebody else has it. *)
Definition lock_contended : Prop :=
  ∃ e, busy code e = true ∧
    (ask DbConn = Some e ∨
     ask DbConn = None ∧ ask (ConnExec PragmaNormal) = None ∧ ask (ConnExec BeginExclusive) = Some e).

Lemma writerLockError_locked e : is_writer_locked (writerLockError code path e) = busy code e.
Proof. unfold writerLockError. by destruct (busy code e). Qed.

Lemma acquireWriterLock_outcome :
  match run h (acquireWriterLock code path) with
  | None => lock_granted
  | Some e => ¬ lock_granted ∧ (is_writer_locked e = true ↔ lock_contended)
  end ∧ made closes_db h (acquireWriterLock code path) = false.
Proof.
  unfold acquireWriterLock, lock_statements, lock_granted, lock_contended. cbn.
  destruct (ask DbConn) as [e|] eqn:Hc; cbn.
  { split; [|done]. split; [by intros []|]. rewrite writerLockError_locked.
    split; [eauto|]. by intros (e' & Hb & [[= ->]|(? & _)]). }
  destruct (ask (ConnExec PragmaNormal)) as [e|] eqn:Hn; cbn.
  { destruct (ask ConnClose); cbn; (split; [|done]); (split; [by intros (_ & ? & _)|]);
      (split; [done|]); by intros (e' & _ & [?|(_ & ? & _)]). }
  destruct (ask (ConnExec BeginExclusive)) as [e|] eqn:Hb; cbn.
  { destruct (ask ConnClose); cbn; (split; [|done]); (split; [by intros (_ & _ & ? & _)|]);
      rewrite writerLockError_locked; (split; [eauto 10|]); by intros (e' & Hb' & [?|(_ & _ & [= ->])]). }
  assert (¬ ∃ e, busy code e = true ∧ (@None error = Some e ∨ @None error = None ∧ @None error = None ∧ @None error = Some e)) as Hno
    by (by intros (e & _ & [?|(_ & _ & ?)])).
  destruct (ask (ConnExec PragmaExclusive)) as [e|] eqn:He; cbn.
  { destruct (ask (ConnExec Rollback)), (ask ConnClose); cbn; (split; [|done]);
      (split; [by intros (_ & _ & _ & ? & _)|by split]). }
  destruct (ask (ConnExec Commit)) as [e|] eqn:Hm; cbn.
  { destruct (ask ConnClose); cbn; (split; [|done]); (split; [by intros (_ & _ & _ & _ & ? & _)|by split]). }
  destruct (ask ConnClose) as [e|] eqn:Hcl; cbn; (split; [|done]); [|done].
  split; [by intros (_ & _ & _ & _ & _ & ?)|by split].
Qed.

(** C29: what New answers, whatever the file system and SQLite answer. It returns
    a store exactly when the directory is usable, the writer lock is granted and
    the schema is brought up to date. Its error is ErrWriterLocked, for
    errors.Is, exactly when the lock was refused to it because another opener
    has it. And an error leaves no connection behind: the database is closed
    exactly when it had been opened. *)
Theorem New_outcomes :
  match run h (New code path) with
  | None =>
      dir_usable ∧ ask (SqlOpen (dsn path)) = None ∧ lock_granted ∧ ask InitSchema = None ∧
      made closes_db h (New code path) = false
  | Some e =>
      ¬ (dir_usable ∧ ask (SqlOpen (dsn path)) = None ∧ lock_granted ∧ ask InitSchema = None) ∧
      (is_writer_locked e = true ↔ dir_usable ∧ ask (SqlOpen (dsn path)) = None ∧ lock_contended) ∧
      (made closes_db h (New code path) = true ↔ dir_usable ∧ ask (SqlOpen (dsn path)) = None)
  end.
Proof.
  pose proof checkDirWritable_ok as Hdir. pose proof checkDirWritable_not_locked as Hnl.
  pose proof acquireWriterLock_outcome as [Hlock Hmade].
  assert (made closes_db h (checkDirWritable path) = false) as Hmd.
  { unfold checkDirWritable. cbn. by repeat (case_match; cbn). }
  unfold New. rewrite run_bind, made_bind, Hmd. cbn [orb].
  destruct (run h (checkDirWritable path)) as [e|].
  { rewrite run_ret, made_ret. destruct (Hnl e eq_refl) as [-> _]. assert (¬ dir_usable) by (intros H%Hdir; done).
    split_and!; naive_solver. }
  assert dir_usable as Hd by (by apply Hdir). rewrite run_call, made_call. cbn [closes_db orb].
  destruct (ask (SqlOpen (dsn path))) as [e|].
  { rewrite run_ret, made_ret. split_and!; naive_solver. }
  rewrite run_bind, made_bind, Hmade. cbn [orb]. destruct (run h (acquireWriterLock code path)) as [e|].
  { rewrite run_call, made_call, run_ret. cbn [closes_db orb]. destruct Hlock as [Hng Hl]. split_and!; naive_solver. }
  assert (¬ lock_contended) as Hnc.
  { destruct Hlock as (H1 & H2 & H3 & _). intros (e & _ & [?|(_ & _ & ?)]); congruence. }
  rewrite run_call, made_call. cbn [closes_db orb]. destruct (ask InitSchema) as [e|].
  - rewrite run_call, made_call, run_ret. cbn [closes_db orb is_writer_locked]. split_and!; naive_solver.
  - by rewrite run_ret, made_ret.
Qed.
End Outcomes.

(** ** SQLite's locks *)

Module Sqlite.

(** SHARED locks, or one EXCLUSIVE lock; and whose locking mode is NORMAL. *)
Inductive file_locks := Shared (cs : gset nat) | Exclusive (c : nat).
Record locks := Locks { held : file_locks; normal : gset nat }.

Definition touching (l : locks) (c : nat) : Prop :=
  match held l with Shared cs => c ∈ cs | Exclusive c' => c' = c end.

Definition release (c : nat) (l : locks) : locks :=
  Locks (match held l with
         | Shared cs => Shared (cs ∖ {[c]})
         | Exclusive c' => if bool_decide (c' = c) then Shared ∅ else Exclusive c'
         end) (normal l).

(** A transaction has ended. *)
Definition end_tx (c : nat) (l : locks) : locks := if bool_decide (c ∈ normal l) then release c l else l.

Definition is_busy (e : error) : option sqlite_errno :=
  if bool_decide (e = ErrText "database is locked") then Some ErrBusy else None.

(** The outcomes of a statement. A BEGIN EXCLUSIVE that fails gives up the
    SHARED lock it took on the way in NORMAL mode, and keeps it in EXCLUSIVE mode. *)
Definition answered (c : nat) (s : lock_stmt) (l : locks) (o : option error) (l' : locks) : Prop :=
  match s, o with
  | PragmaNormal, None => l' = Locks (held l) ({[c]} ∪ normal l)
  | PragmaExclusive, None => l' = Locks (held l) (normal l ∖ {[c]})
  | BeginExclusive, None => (∀ c', touching l c' → c' = c) ∧ l' = Locks (Exclusive c) (normal l)
  | BeginExclusive, Some e =>
      (busy is_busy e = true → ∃ c', c' ≠ c ∧ touching l c') ∧
      (l' = l ∨ c ∉ normal l ∧ ∃ cs, held l = Shared cs ∧ l' = Locks (Shared ({[c]} ∪ cs)) (normal l))
  | Rollback, _ | Commit, Some _ => l' = l ∨ l' = release c l
  | Commit, None => l' = end_tx c l
  | _, Some _ => l' = l
  end.

Definition connect (c : nat) (l : locks) (o : option error) (l' : locks) : Prop :=
  l' = Locks (held l) (normal l ∖ {[c]}).

Lemma release_others c c' l :
  c' ≠ c →
  (touching (release c l) c' ↔ touching l c') ∧ (held (release c l) = Exclusive c' ↔ held l = Exclusive c') ∧
  (c' ∉ normal (release c l) ↔ c' ∉ normal l).
Proof.
  intros Hne. unfold touching, release. destruct (held l) as [cs|x]; cbn; [set_solver|].
  case_bool_decide as Hx; [|done]. subst. split_and!; [set_solver|naive_solver|done].
Qed.

Lemma release_free c l : ¬ touching (release c l) c.
Proof. unfold touching, release. destruct (held l) as [cs|x]; cbn; [|case_bool_decide]; set_solver. Qed.

Lemma end_tx_others c c' l :
  c' ≠ c →
  (touching (end_tx c l) c' ↔ touching l c') ∧ (held (end_tx c l) = Exclusive c' ↔ held l = Exclusive c') ∧
  (c' ∉ normal (end_tx c l) ↔ c' ∉ normal l).
Proof. intros Hne. unfold end_tx. case_bool_decide; [by apply release_others|done]. Qed.

Lemma answered_others c s l o l' c' :
  answered c s l o l' → c' ≠ c →
  (touching l' c' ↔ touching l c') ∧ (held l' = Exclusive c' ↔ held l = Exclusive c') ∧
  (c' ∉ normal l' ↔ c' ∉ normal l).
Proof.
  intros Ho Hne. destruct s, o as [e|]; cbn in Ho; subst; try done;
    try (destruct Ho as [->| ->]; [done|by apply release_others]).
  - split_and!; [done..|cbn; set_solver].
  - destruct Ho as [_ [->|(_ & cs & Hcs & ->)]]; [done|]. unfold touching. rewrite Hcs. cbn. set_solver.
  - destruct Ho as [Ho ->]. split_and!; [|cbn; split; [congruence|]|done].
    + split; [intros H; cbn in H; congruence|]. intros H. by apply Ho in H.
    + intros H. assert (touching l c') as Ht by (unfold touching; by rewrite H). by apply Ho in Ht.
  - split_and!; [done..|cbn; set_solver].
  - by apply end_tx_others.
Qed.

Program Definition file_lock : FileLock := {|
  lock_state := locks;
  touches := touching;
  holds l c := held l = Exclusive c;
  keeps_locks l c := c ∉ normal l;
  attach := connect;
  exec := answered;
  use c l l' := l' = end_tx c l;
  close c l l' := l' = release c l;
  sqlite_code := is_busy |}.
Next Obligation. intros l c H. unfold touching. by rewrite H. Qed.
Next Obligation. intros l c c' H Ht. unfold touching in Ht. by rewrite H in Ht. Qed.
Next Obligation.
  intros c l l' c' [[o H]|[(s & o & H)|[H|H]]] Hne; [..|by eapply answered_others| |]; subst.
  - rewrite H. split_and!; [done..|cbn; set_solver].
  - by apply end_tx_others.
  - by apply release_others.
Qed.
Next Obligation. intros c l o l' ->. done. Qed.
Next Obligation. intros c l [e|] l'; cbn; by intros ->. Qed.
Next Obligation. intros c l l' ->. cbn. set_solver. Qed.
Next Obligation. by intros c l l' [_ ->]. Qed.
Next Obligation. intros c l e l' [_ [->|(H & _)]]; [done|]. intros H'. done. Qed.
Next Obligation. by intros c l e l' [H _]. Qed.
Next Obligation. intros c l [e|] l'; cbn; by intros ->. Qed.
Next Obligation. intros c l l' ->. cbn. set_solver. Qed.
Next Obligation. intros c l l' -> Hh Hk. unfold end_tx. by rewrite bool_decide_eq_false_2. Qed.
Next Obligation. intros c l l' -> Hh Hk. unfold end_tx. by rewrite bool_decide_eq_false_2. Qed.
Next Obligation. intros c l l' ->. apply release_free. Qed.

End Sqlite.

(** ** A concrete run *)

#[local] Existing Instance Sqlite.file_lock.

(** The next call of opener [c] is answered [r]. *)
Tactic Notation "answer" constr(c) uconstr(r) tactic3(tac) :=
  eapply rtc_l; [eapply (os_call _ _ _ _ c _ _ r); [apply lookup_insert_eq|cbn; tac]
                |cbn -[quoted insert filepath_Dir dsn String.app]; rewrite ?insert_insert_eq].

Definition database_locked : error := ErrText "database is locked".

#[local] Abbreviation unlocked := (Sqlite.Locks (Sqlite.Shared ∅) ∅).
#[local] Abbreviation steps := (rtc (opener_step "/data/ns.db")).

(** The first opener gets the store; the second is refused, and leaves. *)
Lemma two_openers : ∃ s,
  steps (Openers unlocked None ∅) s ∧ o_procs s !! 0%nat = Some Opened ∧
  ∃ e, o_procs s !! 1%nat = Some (Refused e) ∧ is_writer_locked e = true ∧ has_cause database_locked e = true.
Proof.
  eexists. split.
  - eapply rtc_l; [by apply (os_begin _ _ _ _ 0%nat)|].
    answer 0%nat (Ok true) (reflexivity).
    answer 0%nat (Ok "/data/.writecheck-1") (reflexivity).
    answer 0%nat None (reflexivity).
    answer 0%nat None (reflexivity).
    answer 0%nat None (reflexivity).
    answer 0%nat None (reflexivity).
    answer 0%nat None (reflexivity).
    answer 0%nat None (split; [intros c' Hc; vm_compute in Hc; set_solver|reflexivity]).
    answer 0%nat None (reflexivity).
    answer 0%nat None (vm_compute; reflexivity).
    answer 0%nat None (reflexivity).
    answer 0%nat None (vm_compute; reflexivity).
    eapply rtc_l; [by apply (os_begin _ _ _ _ 1%nat)|].
    answer 1%nat (Ok true) (reflexivity).
    answer 1%nat (Ok "/data/.writecheck-2") (reflexivity).
    answer 1%nat None (reflexivity).
    answer 1%nat None (reflexivity).
    answer 1%nat None (reflexivity).
    answer 1%nat None (reflexivity).
    answer 1%nat None (reflexivity).
    answer 1%nat (Some database_locked) (split; [intros _; by exists 0%nat|by left]).
    answer 1%nat None (reflexivity).
    answer 1%nat None (vm_compute; reflexivity).
    apply rtc_refl.
  - cbn [o_procs]. split; [by rewrite lookup_insert_ne, lookup_insert_eq|].
    eexists. split; [apply lookup_insert_eq|]. split; reflexivity.
Qed.

Lemma one_writer_witness : ∃ s,
  steps (Openers unlocked None ∅) s ∧ o_procs s !! 0%nat = Some Opened ∧
  (∀ c, o_procs s !! c = Some Opened → c = 0%nat) ∧ ¬ touches (o_locks s) 1%nat.
Proof.
  destruct two_openers as (s & Hs & H0 & e & H1 & _).
  destruct (@one_writer Sqlite.file_lock "/data/ns.db" unlocked s) as (Hone & _ & Hfree & _).
  - intros c Hc. cbn in Hc. set_solver.
  - exact Hs.
  - exists s. split; [exact Hs|]. split; [exact H0|]. split.
    + intros c Hc. exact (Hone c 0%nat Hc H0).
    + apply (Hfree 1%nat (Refused e) H1). right. by exists e.
Defined.

(** Why the lock is contended for in NORMAL mode. Two openers that began in
    EXCLUSIVE mode may each keep a SHARED lock after a refused BEGIN EXCLUSIVE,
    and then neither can ever be granted it. *)
Lemma exclusive_mode_deadlock :
  let l := Sqlite.Locks (Sqlite.Shared {[0%nat; 1%nat]}) ∅ in
  (∃ l1, Sqlite.answered 0 BeginExclusive unlocked (Some (ErrText "interrupted")) l1 ∧
         Sqlite.answered 1 BeginExclusive l1 (Some database_locked) l) ∧
  ∀ c l', c = 0%nat ∨ c = 1%nat → ¬ Sqlite.answered c BeginExclusive l None l'.
Proof.
  cbn zeta. split.
  - exists (Sqlite.Locks (Sqlite.Shared {[0%nat]}) ∅). split; (split; [|right; split; [set_solver|eexists; split; [done|]]]).
    + intros H. vm_compute in H. done.
    + reflexivity.
    + intros _. exists 0%nat. split; [done|]. cbn. set_solver.
    + reflexivity.
  - intros c l' Hc [H _]. destruct Hc as [->| ->].
    + specialize (H 1%nat). cbn in H. set_solver.
    + specialize (H 0%nat). cbn in H. set_solver.
Qed.
