(* ===== verification/Kube.v ===== *)
(** * Kube: how the Kubernetes clients are configured

    [pkg/worker/k8sclient.go]. client-go and the environment of the process are
    parameters. *)

From S2P Require Import Prelude Errors Opening.

(** filepath.Join: the non-empty elements, cleaned. *)
Definition filepath_Join (elems : list string) : string :=
  match filter (λ e, e ≠ "") elems with
  | [] => ""
  | elems => filepath_Clean (String.concat "/" elems)
  end.

Section Kube.
Context {config kube dynamic : Type}.
Context (InClusterConfig : res error config) (BuildConfigFromFlags : string → string → res error config).
Context (kubernetes_NewForConfig : config → res error kube) (dynamic_NewForConfig : config → res error dynamic).
Context (Getenv : string → string) (UserHomeDir : res error string).

Definition buildOutOfClusterConfig : res error config :=
  let kubeconfigPath := Getenv "KUBECONFIG" in
  if bool_decide (kubeconfigPath = "") then
    match UserHomeDir with
    | Err e => Err (wrap_err "resolve home dir" e)
    | Ok home => BuildConfigFromFlags "" (filepath_Join [home; ".kube"; "config"])
    end
  else BuildConfigFromFlags "" kubeconfigPath.

(** The configuration both clients start from. *)
Definition restCfg : res error config :=
  match InClusterConfig with
  | Ok cfg => Ok cfg
  | Err _ =>
      match buildOutOfClusterConfig with
      | Ok cfg => Ok cfg
      | Err e => Err (wrap_err "load kube config" e)
      end
  end.

Definition NewKubeClient : res error kube :=
  match restCfg with
  | Err e => Err e
  | Ok cfg =>
      match kubernetes_NewForConfig cfg with
      | Ok c => Ok c
      | Err e => Err (wrap_err "build k8s client" e)
      end
  end.

Definition NewDynamicKubeClient : res error dynamic :=
  match restCfg with
  | Err e => Err e
  | Ok cfg =>
      match dynamic_NewForConfig cfg with
      | Ok c => Ok c
      | Err e => Err (wrap_err "build dynamic k8s client" e)
      end
  end.

(** The cluster's own credentials win; else $KUBECONFIG; else the file in the
    home directory, which is looked at only then. *)
Lemma restCfg_source cfg :
  restCfg = Ok cfg ↔
    InClusterConfig = Ok cfg ∨
    (∃ e, InClusterConfig = Err e) ∧
    ((Getenv "KUBECONFIG" ≠ "" ∧ BuildConfigFromFlags "" (Getenv "KUBECONFIG") = Ok cfg) ∨
     (Getenv "KUBECONFIG" = "" ∧ ∃ home, UserHomeDir = Ok home ∧
        BuildConfigFromFlags "" (filepath_Join [home; ".kube"; "config"]) = Ok cfg)).
Proof.
  assert (∀ (r : res error config) msg, match r with Ok c => Ok c | Err e => Err (wrap_err msg e) end = Ok cfg ↔
    r = Ok cfg) as Hw by (by intros [c|e] msg; split; intros [= ->]).
  unfold restCfg. destruct InClusterConfig as [c|e]; [split; [by left|by intros [?|[[? ?] _]]]|].
  rewrite Hw. unfold buildOutOfClusterConfig. case_bool_decide as Hk.
  - destruct UserHomeDir as [home|e']; split; try done.
    + intros H. right. split; [by exists e|]. right. split; [done|]. by exists home.
    + intros [?|[_ [[? _]|(_ & h & [= <-] & H)]]]; done.
    + intros [?|[_ [[? _]|(_ & h & ? & _)]]]; done.
  - split; [intros H; right; split; [by exists e|by left]|]. by intros [?|[_ [[_ ?]|[? _]]]].
Qed.

(** Both clients are made from one configuration. *)
Lemma clients_agree c d :
  NewKubeClient = Ok c → NewDynamicKubeClient = Ok d →
  ∃ cfg, restCfg = Ok cfg ∧ kubernetes_NewForConfig cfg = Ok c ∧ dynamic_NewForConfig cfg = Ok d.
Proof.
  unfold NewKubeClient, NewDynamicKubeClient. destruct restCfg as [cfg|e]; [|done].
  destruct (kubernetes_NewForConfig cfg) eqn:Hk; [|done]. destruct (dynamic_NewForConfig cfg) eqn:Hd; [|done].
  intros [= <-] [= <-]. by exists cfg.
Qed.

End Kube.

Example kubeconfig_in_home : filepath_Join ["/root/"; ".kube"; "config"] = "/root/.kube/config".
Proof. reflexivity. Qed.
