(* ===== verification/Progress.v ===== *)
(** * Progress: retries end, and due jobs are reached

    That a job cannot cycle through the queue for ever, because a retry is only
    asked for while attempts are left, and that a due job is leased once as many
    workers have asked as there are due jobs before it. *)

From S2P Require Import Prelude GoTime Errors Work Db Fingerprint Store Instances.
From S2P Require Import StoreSpec StoreRun StoreStep RowInv RowRead Samples Failure.

(** ** Retries *)

Section Retries.
Context {SO : SqlOrder} {AJ : ActionsJson}.

(** Histories in which a failure is only retried while attempts are left, as
    process does (WorkerSafe.v). *)
Definition bounded_retry (o : op) (_ : instant) : Prop :=
  match o with OpFailJob _ _ n _ true _ => n < maxAttempts | _ => True end.

(** What is left of a job's retries: two steps per attempt, one of them spent
    when the attempt begins. *)
Definition budget (r : row) : Z :=
  2 * (maxAttempts - attempt (r_lease r)) + (if status_held (status (r_lease r)) then 1 else 0).

(** Queued, held or finished. *)
Inductive phase := Queued | Held | Finished.

Definition phase_of (r : row) : phase :=
  match status (r_lease r) with
  | StatusQueued => Queued
  | StatusLeased | StatusRunning => Held
  | StatusSucceeded | StatusFailed => Finished
  end.

Definition same_lease (r r' : row) : Prop :=
  attempt (r_lease r') = attempt (r_lease r) ∧ phase_of r' = phase_of r.

(** Every step keeps the attempt and the phase, or spends some of the budget. *)
Definition spends (r r' : row) : Prop :=
  row_ok r → row_ok r' ∧ (same_lease r r' ∨ budget r' < budget r).

Lemma budget_same r r' : same_lease r r' → budget r' = budget r.
Proof.
  intros [Ha Hp]. unfold budget. rewrite Ha. unfold phase_of in Hp.
  by destruct (status (r_lease r)), (status (r_lease r')).
Qed.

#[export] Instance spends_refl : Reflexive spends.
Proof. intros r Hok. split; [done|]. by left. Qed.

#[export] Instance spends_trans : Transitive spends.
Proof.
  intros r1 r2 r3 H12 H23 Hok. destruct (H12 Hok) as [Hok2 H]. destruct (H23 Hok2) as [Hok3 H'].
  split; [done|]. destruct H as [H|H], H' as [H'|H'].
  - left. destruct H, H'. split; congruence.
  - right. rewrite <- (budget_same _ _ H). done.
  - right. rewrite (budget_same _ _ H'). done.
  - right. lia.
Qed.

(** The attempt of a fence that holds, and that the job is held. *)
Ltac take_held Hn Hh :=
  match goal with H : held_generation _ _ _ = true |- _ =>
    apply held_generation_iff in H as (_ & Hn & Hh) end.

Lemma held_phase r : status_held (status (r_lease r)) = true → phase_of r = Held.
Proof. unfold phase_of. by destruct (status (r_lease r)). Qed.

Lemma row_step_spends o now id r r' : row_step o now id (Some r) (Some r') → spends r r'.
Proof.
  intros Hs Hok. split; [by eapply row_ok_step|].
  inversion Hs; subst; try (by left).
  - right. unfold budget. cbn. unfold_fences. destruct (status_held (status (r_lease r))); lia.
  - left. split; [done|]. take_held Hn Hh. by rewrite (held_phase _ Hh).
  - right. rewrite generation_held in * by (done || apply Hok). take_held Hn Hh.
    unfold budget. cbn. rewrite Hh. lia.
  - right. rewrite generation_held in * by (done || apply Hok). take_held Hn Hh.
    unfold budget. cbn. rewrite Hh. lia.
  - right. take_held Hn Hh. unfold budget. cbn. rewrite Hh. lia.
Qed.

(** C23: retries end. Each lease, requeue and finish of a job spends some of a
    budget that starts at twice maxAttempts and that nothing ever refills; and
    as long as failures are only retried while attempts are left, a queued job
    has budget left, so that no job goes through the queue more than
    maxAttempts times. Only a lease that expires can take a job further. *)
Theorem retries_end d id r :
  reachable bounded_retry d → jobs d !! id = Some r →
  budget r ≤ 2 * maxAttempts ∧
  (status (r_lease r) = StatusQueued → 2 ≤ budget r) ∧
  ∀ d', history any_op d d' →
    ∃ r', jobs d' !! id = Some r' ∧ (same_lease r r' ∨ budget r' < budget r).
Proof.
  intros Hr Hid. pose proof (reachable_row_ok _ _ _ _ Hr Hid) as Hok. split; [|split].
  - unfold budget. destruct (status_held (status (r_lease r))) eqn:Hh.
    + pose proof (ok_attempt_held _ (row_lease_ok _ Hok) Hh). lia.
    + pose proof (ok_attempt _ (row_lease_ok _ Hok)). lia.
  - intros Hq. assert (attempt (r_lease r) < maxAttempts) as Ha.
    { revert Hq. apply (reachable_row_ind bounded_retry
        (λ _ r, status (r_lease r) = StatusQueued → attempt (r_lease r) < maxAttempts)) with (3 := Hr) (4 := Hid).
      - done.
      - intros o now id' r0 r1 HP HQ Hs. inversion Hs; subst; cbn; try exact HQ; try done.
        intros _. take_held Hn Hh. by rewrite Hn. }
    unfold budget. rewrite Hq. cbn. lia.
  - intros d' Hh.
    destruct (history_row_ind any_op id spends) with (d := d) (d' := d') (r := r) as (r' & Hr' & HR); try done.
    { intros o now r0 r1 _ Hs. by eapply row_step_spends. }
    { by eapply reachable_keyed. }
    exists r'. split; [done|]. by apply HR.
Qed.

End Retries.

(** ** Leases *)

Section Leases.
Context {SO : SqlOrder} {AJ : ActionsJson}.

(** The workers [ws] ask for a job, one after the other, at the instant [now]. *)
Fixpoint lease_calls (ws : list string) (ttl : Z) (now : instant) (d : db) : db :=
  match ws with
  | [] => d
  | w :: ws => lease_calls ws ttl now (LeaseJob w ttl now d).2
  end.

(** The due jobs created no later than [r], itself included. *)
Definition ahead (now : instant) (r : row) (t : gmap string row) : nat :=
  length (matching (λ r', leaseable now r' && text_leb (created_at (r_ident r')) (created_at (r_ident r))) t).

Lemma matching_length p t id r x :
  t !! id = Some r → p r = true → p x = false →
  length (matching p t) = S (length (matching p (<[id := x]> t))).
Proof.
  intros Hid Hp Hx. unfold matching, table_rows.
  rewrite <- (insert_delete_id t id r Hid) at 1. rewrite <- (insert_delete_eq t id x).
  rewrite !map_to_list_insert by apply lookup_delete_eq. rewrite !fmap_cons. cbn [snd].
  rewrite filter_cons_True, filter_cons_False by (done || by rewrite Hx). done.
Qed.

Lemma lease_row_held worker ttl now r :
  ts_in_range now → ts_in_range (time_add now ttl) → 0 ≤ ttl →
  leaseable now (lease_row worker ttl now r) = false.
Proof.
  intros Hn Hu Ht. unfold leaseable. cbn. rewrite formatTS_ltb by done.
  unfold time_add. by rewrite (proj2 (Z.ltb_ge _ _)) by lia.
Qed.

(** One call: the first due job in order of creation is leased. *)
Lemma LeaseJob_first worker ttl now d :
  faults d = [] → table_keyed (jobs d) →
  let d' := (LeaseJob worker ttl now d).2 in
  faults d' = [] ∧
  ((jobs d' = jobs d ∧ ∀ id r, jobs d !! id = Some r → leaseable now r = false) ∨
   ∃ id r, jobs d !! id = Some r ∧ leaseable now r = true ∧
     (∀ id' r', jobs d !! id' = Some r' → leaseable now r' = true →
        text_leb (created_at (r_ident r)) (created_at (r_ident r')) = true) ∧
     jobs d' = <[id := lease_row worker ttl now r]> (jobs d)).
Proof.
  intros Hf Hk. cbv zeta. rewrite LeaseJob_healthy by done.
  pose proof (select_one (leaseable now) (λ r, created_at (r_ident r)) (jobs d)) as Hs.
  destruct (select_rows _ _ _ _) as [|r rest]; [by split; [|left]|].
  destruct Hs as (Hl & [id Hid] & Hmin). rewrite GetJob_healthy by done.
  rewrite (Hk _ _ Hid). cbn [jobs set_jobs]. rewrite lookup_insert_eq. cbn [snd faults set_jobs jobs].
  split; [done|]. right. by exists id, r.
Qed.

Lemma lease_keyed worker ttl now t id r :
  table_keyed t → t !! id = Some r → table_keyed (<[id := lease_row worker ttl now r]> t).
Proof. intros Hk Hid. by eapply table_keyed_insert. Qed.

(** A job that is not due stays as it is. *)
Lemma lease_calls_keep ws ttl now d id r :
  faults d = [] → table_keyed (jobs d) → jobs d !! id = Some r → leaseable now r = false →
  jobs (lease_calls ws ttl now d) !! id = Some r.
Proof.
  revert d. induction ws as [|w ws IH]; intros d Hf Hk Hid Hl; [done|]. cbn [lease_calls].
  destruct (LeaseJob_first w ttl now d Hf Hk) as [Hf' [[Hj _]|(id0 & r0 & Hid0 & Hl0 & _ & Hj)]].
  - apply IH; [done|by rewrite Hj..|done].
  - apply IH; [done|rewrite Hj; by apply lease_keyed| |done]. rewrite Hj.
    rewrite lookup_insert_ne; [done|]. intros ->. congruence.
Qed.

(** A due job is reached. When no statement fails and at least as many
    workers ask for a job as there are due jobs created no later, whatever ties
    SQLite breaks in whatever order, one of them gets this one. *)
Theorem due_job_leased ws ttl now d id r :
  faults d = [] → table_keyed (jobs d) → ts_in_range now → ts_in_range (time_add now ttl) → 0 ≤ ttl →
  jobs d !! id = Some r → leaseable now r = true → (ahead now r (jobs d) ≤ length ws)%nat →
  ∃ w, w ∈ ws ∧ jobs (lease_calls ws ttl now d) !! id = Some (lease_row w ttl now r).
Proof.
  intros Hf Hk Hn Hu Ht. revert d Hf Hk. induction ws as [|w ws IH]; intros d Hf Hk Hid Hl Hahead.
  - exfalso. unfold ahead in Hahead.
    erewrite (matching_length _ (jobs d) id r (lease_row "" ttl now r)) in Hahead;
      [cbn in Hahead; lia|done|by rewrite Hl, text_leb_refl|by rewrite lease_row_held].
  - cbn [lease_calls].
    destruct (LeaseJob_first w ttl now d Hf Hk) as [Hf' [[_ Hno]|(id0 & r0 & Hid0 & Hl0 & Hmin & Hj)]];
      [by rewrite (Hno _ _ Hid) in Hl|].
    assert (table_keyed (jobs (LeaseJob w ttl now d).2)) as Hk' by (rewrite Hj; by apply lease_keyed).
    destruct (decide (id0 = id)) as [->|Hne].
    + rewrite Hid in Hid0. injection Hid0 as <-. exists w. split; [by left|].
      apply lease_calls_keep; [done|done| |by apply lease_row_held]. rewrite Hj. apply lookup_insert_eq.
    + destruct (IH (LeaseJob w ttl now d).2 Hf' Hk') as (w' & Hw' & Hres).
      * rewrite Hj. by rewrite lookup_insert_ne.
      * done.
      * unfold ahead in *. rewrite Hj.
        erewrite (matching_length _ (jobs d) id0 r0 (lease_row w ttl now r0)) in Hahead;
          [cbn in Hahead; lia|done|by rewrite Hl0, (Hmin _ _ Hid)|by rewrite lease_row_held].
      * exists w'. split; [by right|done].
Qed.

End Leases.

(** ** Concrete runs *)

Lemma retries_end_witness :
  ∃ r', jobs d_leased !! "job-1" = Some r' ∧ budget r' < budget (sample_row d_created).
Proof.
  destruct (retries_end d_created "job-1" (sample_row d_created)) as (_ & _ & H).
  - unfold d_created. apply reachable_after; [apply reachable_empty|done|done].
  - apply sample_row_lookup. vm_compute. reflexivity.
  - destruct (H d_leased) as (r' & Hr' & [[Ha _]|Hb]).
    + unfold d_leased. by apply history_after; [constructor|..].
    + exfalso. vm_compute in Hr'. injection Hr' as <-. vm_compute in Ha. discriminate.
    + exists r'. split; [exact Hr'|exact Hb].
Defined.

Lemma due_job_leased_witness :
  ∃ w, w ∈ ["w1"; "w2"] ∧
    jobs (lease_calls ["w1"; "w2"] (60 * second) (at_s 1) d_created) !! "job-1"
    = Some (lease_row w (60 * second) (at_s 1) (sample_row d_created)).
Proof.
  apply (due_job_leased ["w1"; "w2"] (60 * second) (at_s 1) d_created "job-1" (sample_row d_created)).
  - reflexivity.
  - eapply reachable_keyed, created_reachable.
  - in_range.
  - in_range.
  - vm_compute. discriminate.
  - apply sample_row_lookup. vm_compute. reflexivity.
  - vm_compute. reflexivity.
  - vm_compute. lia.
Defined.
