(* ===== verification/Service.v ===== *)
(** * Service: many attempts on one store

    An attempt of World.v acts on the store together with others. Here its
    trace is tied to the table: every answer it saw is one the store gave, in
    that order, on the table as the others left it. Logs of several attempts on
    one store follow, and what holds of them together. *)

From S2P Require Import Prelude GoTime Errors Work Db Fingerprint Store StoreSpec StoreRun StoreStep.
From S2P Require Import Retry Names Failure World Worker Pipeline Protocol Attempt Stages Process.
From S2P Require Import AttemptSafe Codec WorkerSafe Instances RowInv RowRead Samples StoreLease StoreDelivery StoreSafe System.
From S2P Require Import Follow.

Section Log.
Context {SO : SqlOrder} {AJ : ActionsJson}.

(** ** The answers of the store *)

(** The store, on [d], gives action [a] its answer and leaves [d']. *)
Definition answers (a : action) (now : instant) (d d' : db) : Prop :=
  match a with
  | AStore o e => op_ok o ∧ op_error o now d = e ∧ d' = run_op o now d
  | AEnsure id r => EnsureExecution id now d = (r, d')
  | AClaim id w n r => ClaimTerminal id w n now d = (r, d')
  | _ => False
  end.

(** [logged d l d']: from [d], the store answered the store calls among the
    actions [l], latest first, in their order; others called it in between. *)
Inductive logged (d : db) : list action → db → Prop :=
| logged_nil : logged d [] d
| logged_foreign l d' f : logged d l d' → op_ok (f_op f) → logged d l (run_foreign f d')
| logged_call l d' a now fs vs d'' :
    logged d l d' → answers a now (Db (jobs d') (store_meta d') fs vs) d'' → logged d (a :: l) d''
| logged_other l d' a : logged d l d' → calls_store a = false → logged d (a :: l) d'.

Lemma answers_op a now d d' :
  answers a now d d' → ∃ o, op_ok o ∧ d' = run_op o now d.
Proof.
  destruct a as [o e|id r|id w n r| | | | | | | | | ]; cbn [answers]; try done.
  - intros (Hok & _ & ->). by exists o.
  - intros H. exists (OpEnsureExecution id). cbn. by rewrite H.
  - intros H. exists (OpClaimTerminal id w n). cbn. by rewrite H.
Qed.

Lemma logged_history d l d' : logged d l d' → history any_op d d'.
Proof.
  induction 1 as [|l d' f H IH Hok|l d' a now fs vs d'' H IH Ha|l d' a H IH Ha]; [constructor|..|done].
  - by constructor.
  - destruct (answers_op _ _ _ _ Ha) as (o & Hok & ->). by constructor.
Qed.

Lemma logged_trans d l1 d1 l2 d2 : logged d l1 d1 → logged d1 l2 d2 → logged d (l2 ++ l1) d2.
Proof.
  intros H1. induction 1 as [|l d' f H IH Hok|l d' a now fs vs d'' H IH Ha|l d' a H IH Ha]; [done|..].
  - by apply logged_foreign.
  - eapply logged_call; eauto.
  - by apply logged_other.
Qed.

Lemma logged_others d l d' fs :
  logged d l d' → Forall (λ f, op_ok (f_op f)) fs → logged d l (foldl (λ d f, run_foreign f d) d' fs).
Proof.
  intros H Hfs. revert d' H. induction Hfs as [|f fs Hf Hfs IH]; intros d' H; [done|].
  cbn. apply IH. by constructor.
Qed.

End Log.

(** ** A worker's calls are logged *)

Section Worker.
Context {SO : SqlOrder} {AJ : ActionsJson} {DJ : DeliveryJson}.
Context (E : nat → step_env) (HE : ∀ n, Forall (λ f, op_ok (f_op f)) (e_others (E n))).

Definition logged_on (w w' : world) : Prop :=
  ∃ l, w_trace w' = l ++ w_trace w ∧ logged (w_db w) l (w_db w').

Lemma logged_still (w w' : world) : w_trace w' = w_trace w → w_db w' = w_db w → logged_on w w'.
Proof. intros Ht Hd. exists []. split; [done|]. rewrite Hd. constructor. Qed.

#[export] Instance logged_on_preorder : PreOrder logged_on.
Proof.
  split; [intros w; by apply logged_still|]. intros w1 w2 w3 (l1 & Ht1 & H1) (l2 & Ht2 & H2).
  exists (l2 ++ l1). split; [by rewrite Ht2, Ht1, app_assoc|by eapply logged_trans].
Qed.

Abbreviation Logged := (Does logged_on).

(** A store call whose action tells its operation. *)
Class Answered {A} (act : res error A → action) (m : instant → M A) : Prop :=
  answered now d r d' : m now d = (r, d') → answers (act r) now d d'.

#[export] Instance did_answered {A} o (m : instant → M A) :
  op_ok o → (∀ now d, op_error o now d = err_of (m now d) ∧ run_op o now d = (m now d).2) →
  Answered (did o) m.
Proof.
  intros Hok H now d r d' Hm. destruct (H now d) as [He Hr]. rewrite Hm in He, Hr.
  split; [done|]. split; [by rewrite He; destruct r|done].
Qed.

#[export] Instance ensure_answered id : Answered (AEnsure id) (EnsureExecution id).
Proof. by intros now d r d' H. Qed.
#[export] Instance claim_answered id w n : Answered (AClaim id w n) (ClaimTerminal id w n).
Proof. by intros now d r d' H. Qed.

#[export] Instance set_lost_logged b : Logged (set_lost b).
Proof. intros w. by apply logged_still. Qed.
#[export] Instance step_logged : Logged (step E).
Proof.
  intros w. exists []. split; [done|]. apply logged_others; [constructor|apply HE].
Qed.

#[export] Instance quiet_logged : Quiet E logged_on.
Proof.
  split; [apply _|]. intros a Ha w. exists [a]. split; [done|]. apply logged_other; [constructor|].
  by destruct a as [| | | | | | | | | | |[]].
Qed.

#[export] Instance store_logged {A} c act (m : instant → M A) :
  Answered act m → Logged (store_call E c act m).
Proof.
  intros Ha w. unfold store_call. destruct (step_logged w) as (l0 & Ht0 & H0).
  destruct (step E w) as [e w1]. destruct (canceled_does logged_on c e w1) as (l1 & Ht1 & H1).
  destruct (canceled c e w1) as [b w2]. cbn [fst snd] in *.
  match goal with |- context [m ?t ?d] => pose proof (Ha t d) as Hm; destruct (m t d) as [r d'] end.
  exists (act r :: l1 ++ l0). cbn [fst snd w_trace w_db]. split; [by rewrite Ht1, Ht0, app_assoc|].
  eapply logged_call; [by eapply logged_trans|]. by apply Hm.
Qed.

Lemma call_logged {A} c (o : op) (m : instant → M A) :
  op_ok o → (∀ now d, op_error o now d = err_of (m now d) ∧ run_op o now d = (m now d).2) →
  Logged (store_call E c (did o) m).
Proof. intros Hok H. by apply store_logged, did_answered. Qed.

Context (wk : worker) (Hwk : workerName wk ≠ "").
Context (valid_label_value : string → bool) (rounds : nat) (float_overflow : Z → Z).

Ltac log :=
  repeat match goal with
  | |- Logged (mbind _ _) => apply bind_does; [apply _| |intros ?]
  | |- Logged (store_call _ _ (did _) _) => apply call_logged; [done|by split]
  | |- Logged (match ?x with _ => _ end) => destruct x
  | |- Logged (let '_ := ?x in _) => destruct x
  | |- Logged _ => apply _
  end.

#[local] Instance attempt_logged job : Acts E wk job logged_on.
Proof.
  split; [apply _| |].
  - intros J _. unfold heartbeat. log.
  - intros A c J act m _ Hm. destruct Hm; try (apply call_logged; [done|by split]); apply _.
Qed.
Lemma inc_logged m : Logged (inc wk m).
Proof.
  unfold inc. destruct (withMetrics wk); [|apply _]. intros w. exists [AMetric m].
  split; [done|]. apply logged_other; [constructor|done].
Qed.
#[local] Existing Instance inc_logged.
#[local] Instance close_logged job : Closes E wk job logged_on.
Proof. split; [apply _| |]; intros; [unfold FailJob_call|unfold complete_job]; log. Qed.

Lemma process_logged job : Logged (process E wk valid_label_value rounds float_overflow job).
Proof. apply _. Qed.
#[local] Existing Instance process_logged.
#[local] Instance ctx_Err_logged : Logged (ctx_Err E).
Proof. intros w. by apply logged_still. Qed.
#[local] Instance wait_logged : Logged (wait_or_done E).
Proof. unfold wait_or_done. log. Qed.
#[export] Instance Run_logged fuel : Logged (Run E wk valid_label_value rounds float_overflow fuel).
Proof. induction fuel; cbn [Run]; [apply _|]. unfold Run_once. log. Qed.

#[local] Instance resolve_logged job e b : Logged (resolveRedelivery E job e b).
Proof. unfold resolveRedelivery. log. Qed.
#[export] Instance redeliverOne_logged job : Logged (redeliverOne E job).
Proof. unfold redeliverOne. log. Qed.
#[local] Instance redeliver_all_logged l : Logged (redeliver_all E l).
Proof. induction l; cbn [redeliver_all]; log. Qed.
#[export] Instance retry_logged : Logged (retryPendingDeliveries E wk).
Proof. unfold retryPendingDeliveries. log. Qed.
#[export] Instance delivery_loop_logged fuel : Logged (RunDeliveryLoop E wk fuel).
Proof. induction fuel; cbn [RunDeliveryLoop]; log. Qed.

End Worker.

(** ** The service *)

Section Service.
Context {SO : SqlOrder} {AJ : ActionsJson} {DJ : DeliveryJson}.

(** ** Several attempts at a time *)

(** The actions of attempt [i] in a common log. *)
Definition acts_of (i : nat) (G : list (nat * action)) : list action := (filter (λ x, x.1 = i) G).*2.

Definition count {A} (P : A → bool) (l : list A) : nat := length (filter (λ a, P a = true) l).

Lemma count_app {A} (P : A → bool) l1 l2 : count P (l1 ++ l2) = (count P l1 + count P l2)%nat.
Proof. unfold count. by rewrite filter_app, length_app. Qed.

Lemma count_cons {A} (P : A → bool) a l : count P (a :: l) = (Nat.b2n (P a) + count P l)%nat.
Proof. unfold count. rewrite filter_cons. by destruct (P a). Qed.

Lemma count_fmap {A B} (f : A → B) (P : B → bool) l : count P (f <$> l) = count (λ a, P (f a)) l.
Proof. induction l as [|a l IH]; [done|]. by rewrite fmap_cons, !count_cons, IH. Qed.

Lemma count_elem {A} (P : A → bool) l :
  (0 < count P l)%nat ↔ ∃ a, a ∈ l ∧ P a = true.
Proof.
  induction l as [|b l IH]; [split; [cbn; lia|by intros (a & Ha%elem_of_nil & _)]|].
  rewrite count_cons. split.
  - intros H. destruct (P b) eqn:Hb; [exists b; split; [left|done]|].
    destruct IH as [IH _]. destruct IH as (a & Ha & HP); [done|]. exists a. split; [by right|done].
  - intros (a & [->|Ha]%elem_of_cons & HP); [rewrite HP; cbn; lia|].
    assert (0 < count P l)%nat by (apply IH; by exists a). lia.
Qed.

Lemma count_orb {A} (P Q : A → bool) l : (count (λ a, P a || Q a) l ≤ count P l + count Q l)%nat.
Proof. induction l as [|a l IH]; [done|]. rewrite !count_cons. destruct (P a), (Q a); cbn; lia. Qed.

Lemma count_perm {A} (P : A → bool) l1 l2 : l1 ≡ₚ l2 → count P l1 = count P l2.
Proof. intros H. unfold count. by rewrite H. Qed.

Lemma count_tagged (P : nat * action → bool) i G :
  count P (filter (λ x, x.1 = i) G) = count (λ a, P (i, a)) (acts_of i G).
Proof.
  unfold count, acts_of. induction G as [|[j a] G IH]; [done|]. rewrite !filter_cons. cbn [fst].
  destruct (decide (j = i)) as [->|]; [|done]. rewrite fmap_cons, !filter_cons. cbn [snd].
  destruct (decide (P (i, a) = true)); cbn [length]; by rewrite IH.
Qed.

Lemma acts_of_others i j G :
  acts_of j (filter (λ x, x.1 ≠ i) G) = if decide (j = i) then [] else acts_of j G.
Proof.
  unfold acts_of. induction G as [|[k a] G IH]; [by case_decide|].
  rewrite !filter_cons. cbn [fst]. destruct (decide (j = i)) as [->|Hne].
  - destruct (decide (k ≠ i)); [|exact IH]. rewrite filter_cons. cbn [fst]. by rewrite decide_False.
  - destruct (decide (k ≠ i)) as [Hk|Hk].
    + rewrite filter_cons. cbn [fst]. case_decide; [|exact IH]. by rewrite !fmap_cons, IH.
    + rewrite decide_False by (intros ->; apply Hk; by intros ->). exact IH.
Qed.

(** What holds attempt by attempt holds of the common log. *)
Lemma count_by_attempt (P Q : nat * action → bool) G :
  (∀ i, count (λ a, P (i, a)) (acts_of i G) ≤ count (λ a, Q (i, a)) (acts_of i G))%nat →
  (count P G ≤ count Q G)%nat.
Proof.
  remember (length G) as n eqn:Hn. revert G Hn.
  induction n as [n IH] using lt_wf_ind. intros G -> H.
  destruct G as [|[i a] G']; [done|]. set (G := (i, a) :: G') in *.
  assert (G ≡ₚ filter (λ x, x.1 = i) G ++ filter (λ x, x.1 ≠ i) G) as Hp
    by (symmetry; apply filter_app_complement).
  rewrite (count_perm P _ _ Hp), (count_perm Q _ _ Hp), !count_app, !count_tagged.
  apply Nat.add_le_mono; [apply H|]. eapply IH; [|reflexivity|].
  - unfold G. rewrite filter_cons. cbn [fst]. rewrite decide_False by (intros []; done).
    pose proof (length_filter (λ x : nat * action, x.1 ≠ i) G'). cbn. lia.
  - intros j. rewrite acts_of_others. case_decide; [done|]. apply H.
Qed.

(** ** What happens to a job at most once *)

(** A job's row, where there is one, passes [P]. *)
Definition row_flag (P : row → bool) (id : string) (d : db) : bool :=
  match jobs d !! id with Some r => P r | None => false end.

Definition kept (P : row → bool) : Prop :=
  ∀ o now id r r', P r = true → row_step o now id (Some r) (Some r') → P r' = true.

Lemma flag_kept P id d d' :
  kept P → table_keyed (jobs d) → history any_op d d' → row_flag P id d = true → row_flag P id d' = true.
Proof.
  intros HP Hk Hh. unfold row_flag. destruct (jobs d !! id) as [r|] eqn:Hr; [|done]. intros Ht.
  destruct (history_row_keep any_op id (λ r, P r = true)) with (d := d) (d' := d') (r := r)
    as (r' & -> & H'); [|done..]. intros o now r1 r2 _. apply HP.
Qed.

(** An answer that only an unset flag gets, and that sets it, is given once. *)
Lemma answered_once P id (won : action → bool) d l d' :
  kept P →
  (∀ a, won a = true → calls_store a = true) →
  (∀ a now d d', won a = true → answers a now d d' → row_flag P id d = false ∧ row_flag P id d' = true) →
  table_keyed (jobs d) → logged d l d' →
  (count won l + Nat.b2n (row_flag P id d) ≤ Nat.b2n (row_flag P id d'))%nat.
Proof.
  intros HP Hstore Hwon Hk H.
  induction H as [|l d' f H IH Hok|l d' a now fs vs d'' H IH Ha|l d' a H IH Ha]; [done|..].
  - pose proof (history_keyed _ _ _ Hk (logged_history _ _ _ H)) as Hk'.
    destruct (row_flag P id d') eqn:Ht; [|cbn in IH; lia].
    rewrite (flag_kept P id d' (run_foreign f d')); [done..|by constructor; [constructor|..]|done].
  - pose proof (history_keyed _ _ _ Hk (logged_history _ _ _ H)) as Hk'. rewrite count_cons.
    destruct (won a) eqn:Hw.
    + destruct (Hwon _ _ _ _ Hw Ha) as [E1 E2]. change (row_flag P id d' = false) in E1.
      rewrite E1 in IH. rewrite E2. cbn in *. lia.
    + etrans; [exact IH|]. destruct (row_flag P id d') eqn:Ht; [|cbn; lia].
      destruct (answers_op _ _ _ _ Ha) as (o & Hok & ->).
      rewrite (flag_kept P id d' (run_op o now (Db (jobs d') (store_meta d') fs vs)));
        [done..|by constructor; [constructor|..]|done].
  - rewrite count_cons. destruct (won a) eqn:Hw; [|exact IH]. by rewrite (Hstore _ Hw) in Ha.
Qed.

(** An answered fenced write found its row and left it changed. *)
Lemma fenced_none (m : M unit) msg e id p f d :
  m = fenced msg e id p f → err_of (m d) = None →
  ∃ r, jobs d !! id = Some r ∧ p r = true ∧ jobs (m d).2 !! id = Some (f r).
Proof.
  intros ->. rewrite fenced_run. destruct (stmt_fault d); [done|]. destruct (jobs d !! id) as [r|]; [|done].
  destruct (p r) eqn:Hp; [|done]. intros _. exists r. cbn. by rewrite lookup_insert_eq.
Qed.

(** *** The terminal slot *)

Definition slot_taken : string → db → bool := row_flag (λ r, terminal_submitted (r_terminal r)).

Definition claim_won (id : string) (a : action) : bool :=
  match a with AClaim id' _ _ (Ok true) => bool_decide (id' = id) | _ => false end.
Definition claim_failed (id : string) (a : action) : bool :=
  match a with AClaim id' _ _ (Err _) => bool_decide (id' = id) | _ => false end.

Lemma claim_won_once id d l d' :
  table_keyed (jobs d) → logged d l d' →
  (count (claim_won id) l + Nat.b2n (slot_taken id d) ≤ Nat.b2n (slot_taken id d'))%nat.
Proof.
  apply answered_once.
  - intros o now id' r r' H Hs. by rewrite (terminal_step _ _ _ _ _ H Hs).
  - by intros [].
  - intros a now d0 d1 Hw Ha. destruct a as [| |id' w n [[]|]| | | | | | | | | ]; try done.
    apply bool_decide_eq_true_1 in Hw as ->. cbn [answers] in Ha. rewrite ClaimTerminal_run in Ha.
    destruct (stmt_fault d0); [done|]. unfold row_flag.
    destruct (jobs d0 !! id) as [r|] eqn:Hr; [|by destruct (stmt_fault (next_stmt d0))].
    destruct (terminal_submitted (r_terminal r)); [by destruct (stmt_fault (next_stmt d0))|].
    injection Ha as <-. cbn. by rewrite lookup_insert_eq.
Qed.

(** *** The end of a job, and the first outcome of its delivery *)

Definition ended_row (r : row) : bool :=
  bool_decide (status (r_lease r) = StatusSucceeded ∨ status (r_lease r) = StatusFailed) &&
  bool_decide (lease_owner (r_lease r) = "").
Definition recorded_row (r : row) : bool :=
  negb (bool_decide (result_delivery_status (r_delivery r) = DeliveryNotApplicable)).

(** The store finished the job. *)
Definition finish_won (id : string) (a : action) : bool :=
  match a with
  | AStore (OpCompleteJob id' _ _ _) None | AStore (OpFailJob id' _ _ _ false _) None => bool_decide (id' = id)
  | _ => false
  end.
(** The store recorded how the first delivery went. *)
Definition record_won (id : string) (a : action) : bool :=
  match a with
  | AStore (OpMarkFirstDeliveryPending id' _ _ _ _ _) None
  | AStore (OpMarkFirstDeliveryDeadLetter id' _ _ _ _) None => bool_decide (id' = id)
  | _ => false
  end.

Lemma finish_won_once id d l d' :
  table_keyed (jobs d) → logged d l d' →
  (count (finish_won id) l + Nat.b2n (row_flag ended_row id d) ≤ Nat.b2n (row_flag ended_row id d'))%nat.
Proof.
  apply answered_once.
  - intros o now id' r r' H Hs. unfold ended_row in *. rewrite (finished_step _ _ _ _ _) with (2 := Hs); [done|].
    by apply andb_true_iff in H as [?%bool_decide_eq_true_1 ?%bool_decide_eq_true_1].
  - by intros [].
  - assert (∀ w n r, w ≠ "" → generation w n r = true → ended_row r = false) as Hheld.
    { intros w n r Hw [<- _]%generation_true. unfold ended_row. by rewrite andb_comm, bool_decide_eq_false_2. }
    intros a now d0 d1 Hw Ha. destruct a as [o [e|]| | | | | | | | | | |]; [by destruct o as [| | | |? ? ? ? []| | | | | | | | | | | |]| |done..].
    destruct Ha as (Hok & He & ->). unfold row_flag.
    destruct o as [| | |id' w n s|id' w n le [] delay| | | | | | | | | | | |]; try done;
      apply bool_decide_eq_true_1 in Hw as ->; cbn [op_error run_op] in *;
      (eapply fenced_none in He as (r & -> & Hp & ->); [|reflexivity]); split; eauto.
Qed.

Lemma record_won_once id d l d' :
  table_keyed (jobs d) → logged d l d' →
  (count (record_won id) l + Nat.b2n (row_flag recorded_row id d) ≤ Nat.b2n (row_flag recorded_row id d'))%nat.
Proof.
  apply answered_once.
  - intros o now id' r r' H Hs. unfold recorded_row in *.
    apply negb_true_iff, bool_decide_eq_false_1 in H. apply negb_true_iff, bool_decide_eq_false_2.
    by eapply recorded_step.
  - by intros [].
  - assert (∀ w n r, firstDeliveryFence w n r = true → recorded_row r = false) as Hnew.
    { intros w n r H. unfold firstDeliveryFence in H. fence_props. unfold recorded_row.
      by rewrite bool_decide_eq_true_2. }
    intros a now d0 d1 Hw Ha. destruct a as [o [e|]| | | | | | | | | | |]; [by destruct o| |done..].
    destruct Ha as (_ & He & ->). unfold row_flag.
    destruct o as [| | | | | | |id' w n p le at_|id' w n p le| | | | | | | |]; try done;
      apply bool_decide_eq_true_1 in Hw as ->; cbn [op_error run_op] in *;
      (eapply fenced_none in He as (r & -> & Hp & ->); [|reflexivity]); split; eauto.
Qed.

(** C14: done once. Whatever any number of attempts, redelivery loops and clients
    ask of the store, in any order and whatever statements fail, it finishes a
    job at most once, grants its terminal slot at most once and records the
    outcome of its first delivery at most once; and it does none of these again
    that was already done. *)
Theorem settled_once id d l d' :
  table_keyed (jobs d) → logged d l d' →
  (count (finish_won id) l + Nat.b2n (row_flag ended_row id d) ≤ 1 ∧
   count (claim_won id) l + Nat.b2n (slot_taken id d) ≤ 1 ∧
   count (record_won id) l + Nat.b2n (row_flag recorded_row id d) ≤ 1)%nat.
Proof.
  intros Hk H.
  assert (∀ b, (Nat.b2n b ≤ 1)%nat) as Hb by (intros []; cbn; lia).
  split_and!; (etrans; [|apply Hb]).
  - by apply finish_won_once.
  - by apply claim_won_once.
  - by apply record_won_once.
Qed.


(** No claim is both won and unanswered. *)
Lemma claims_apart id l :
  (count (claim_won id) l + count (claim_failed id) l ≤
   count (λ a, claim_won id a || claim_failed id a) l)%nat.
Proof.
  induction l as [|a l IH]; [done|]. rewrite !count_cons.
  destruct a as [| |id' w n [[]|]| | | | | | | | | ]; cbn; try case_bool_decide; cbn; lia.
Qed.

(** A terminal record follows the attempt's own claim. *)
Lemma terminal_granted wk job h s a s' :
  prun wk job h = Some s → pstep wk job s a = Some s' → terminal_record a = true →
  claim_granted (JobID job) (workerName wk) (Attempt job) h.
Proof.
  intros H1 H2 Ha. destruct (pruns_report_inv _ _ _ _ H1) as (_ & _ & _ & Hlive). unfold pstep in H2.
  destruct (p_lost s); [by destruct a|]. destruct (Hlive eq_refl) as [Hsays _].
  destruct (p_closed s); [by destruct a|].
  assert (∃ id p e, submitted job s id true p e = Some s') as (i & p & e & Hsub).
  { destruct a as [| | | | | | | | |r e|r e|]; try done; cbn in Ha; rewrite Ha in H2; by eexists _, _, e. }
  unfold submitted in Hsub. case_bool_decide; [|done]. destruct (p_report s); try done. by destruct Hsays as (_ & ? & _).
Qed.

(** An attempt sends a terminal record at most once, after a claim of its own
    that the store granted or could not answer. *)
Lemma terminal_sent_claimed wk job h :
  attempt_prefix wk job h →
  (count terminal_record h ≤ count (claim_won (JobID job)) h + count (claim_failed (JobID job)) h)%nat.
Proof.
  intros (E & rounds & vl & fo & w & HE & Hw & [k Hh]).
  destruct (process_prun E wk job rounds vl fo HE w Hw) as [s Hs].
  assert (∃ s0, prun wk job h = Some s0) as [s0 H0].
  { destruct h as [|a h]; [by exists p_init|].
    destruct (prun_suffix wk job a h _ s Hs) as (s0 & s1 & H0 & H1); [by exists k|].
    exists s1. cbn. by rewrite H0. }
  destruct (pruns_report_inv _ _ _ _ H0) as (_ & Hone & _). change (terminal_records h) with (count terminal_record h) in Hone.
  destruct (decide (0 < count terminal_record h)%nat) as [Hpos|]; [|lia].
  apply count_elem in Hpos as (a & (h2 & h1 & ->)%list_elem_of_split & Hta).
  destruct (prun_suffix wk job a h1 _ s0 H0) as (s1 & s2 & H1 & H2); [by exists h2|].
  destruct (terminal_granted _ _ _ _ _ _ H1 H2 Hta) as (r & Hin & Hr).
  assert (0 < count (claim_won (JobID job)) h1 + count (claim_failed (JobID job)) h1)%nat.
  { destruct r as [[]|e]; [|done|];
      [assert (0 < count (claim_won (JobID job)) h1)%nat|assert (0 < count (claim_failed (JobID job)) h1)%nat];
      try lia; apply count_elem; (eexists; split; [exact Hin|by apply bool_decide_eq_true_2]). }
  rewrite !count_app, !count_cons. rewrite count_app, count_cons in Hone. lia.
Qed.

(** Attempts at any jobs, at the same time or not, some cut short. *)
Section Attempts.
Context (att : nat → worker * Job).

Definition service_log (G : list (nat * action)) (d d' : db) : Prop :=
  logged d G.*2 d' ∧ ∀ i, attempt_prefix (att i).1 (att i).2 (acts_of i G).

Definition terminal_sends (id : string) (G : list (nat * action)) : nat :=
  count (λ x, bool_decide (JobID (att x.1).2 = id) && terminal_record x.2) G.

(** C3: one terminal record per job. However many attempts at a job run, at the
    same time or after each other, and wherever they are cut short, they send
    at most one terminal record of it to NodeVault, and none when the slot was
    taken before; except that each claim of the slot which the store could not
    answer may let one more through. *)
Theorem terminal_record_once G d d' id :
  table_keyed (jobs d) → service_log G d d' →
  (terminal_sends id G + Nat.b2n (slot_taken id d) ≤ 1 + count (claim_failed id) G.*2)%nat.
Proof.
  intros Hk [Hl Hatt].
  pose proof (claim_won_once id d _ d' Hk Hl) as Hw. rewrite !count_fmap in *.
  pose proof (count_orb (λ x : nat * action, claim_won id x.2) (λ x, claim_failed id x.2) G) as Hor.
  enough (terminal_sends id G ≤ count (λ x, claim_won id x.2 || claim_failed id x.2) G)%nat
    by (destruct (slot_taken id d'); cbn in Hw; lia).
  apply count_by_attempt. intros i. cbn [fst snd].
  destruct (bool_decide_reflect (JobID (att i).2 = id)) as [<-|Hne].
  - etrans; [exact (terminal_sent_claimed _ _ _ (Hatt i))|]. apply claims_apart.
  - apply Nat.le_ngt. intros Hpos. assert (0 < count (λ a, false && terminal_record a) (acts_of i G))%nat
      as (a & _ & Ha)%count_elem by lia. done.
Qed.

End Attempts.
End Service.

(** ** Concrete runs *)

Lemma env_ok_foreign n : Forall (λ f, op_ok (f_op f)) (e_others ((λ _ : nat, env_ok) n)).
Proof. constructor. Qed.

#[local] Abbreviation first_attempt :=
  (process (λ _, env_ok) sample_worker (λ _, true) 3 (λ _, 0) sample_leased start).

Lemma first_attempt_logged :
  logged (w_db start) (w_trace first_attempt.2) (w_db first_attempt.2).
Proof.
  destruct (process_logged (λ _, env_ok) env_ok_foreign sample_worker ltac:(done) (λ _, true) 3 (λ _, 0)
    sample_leased start) as (l & Ht & Hl).
  replace (w_trace first_attempt.2) with l; [exact Hl|]. by rewrite Ht, app_nil_r.
Qed.

Lemma settled_once_witness :
  count (finish_won "job-1") (w_trace first_attempt.2) = 1%nat ∧
  count (claim_won "job-1") (w_trace first_attempt.2) = 1%nat.
Proof.
  destruct (settled_once "job-1" (w_db start) (w_trace first_attempt.2) (w_db first_attempt.2)) as (H1 & H2 & _).
  - apply (reachable_keyed op_in_range), leased_reachable.
  - apply first_attempt_logged.
  - split; vm_compute; reflexivity.
Defined.

(** "w1" sends the terminal record, but the store cannot complete the job; its
    lease runs out, "w2" takes the job over and goes through its stages again. *)
Definition env_full (n : nat) : step_env :=
  match n with
  | 11%nat => {| e_others := []; e_now := at_s 10; e_ended := false; e_faults := [Some (ErrText "disk is full")];
                 e_rng := []; e_create := None; e_get := Ok []; e_list := Ok []; e_pods := Ok [];
                 e_delete := None; e_reports := Ok []; e_submit := None; e_event := EvPoll;
                 e_rnd := λ _, 0; e_elapsed := 3 |}
  | _ => env_ok
  end.
Definition env_later (_ : nat) : step_env := {|
  e_others := []; e_now := at_s 1001; e_ended := false; e_faults := []; e_rng := [Some 8%N];
  e_create := None; e_get := Ok [true_condition "Complete"]; e_list := Ok []; e_pods := Ok [];
  e_delete := None; e_reports := Ok []; e_submit := None; e_event := EvPoll;
  e_rnd := λ _, 0; e_elapsed := 3 |}.

Lemma env_full_exclusive : conditions_exclusive env_full.
Proof. intros n conds. do 12 (destruct n as [|n]; [by intros [= <-]|]). by intros [= <-]. Qed.
Lemma env_later_exclusive : conditions_exclusive env_later.
Proof. by intros n conds [= <-]. Qed.

#[local] Abbreviation cut_short :=
  (process env_full sample_worker (λ _, true) 3 (λ _, 0) sample_leased start).
Definition d_overtaken : db := after (w_db cut_short.2) (OpLeaseJob "w2" (60 * second)) (at_s 1000) [].
Definition second_lease : Job := job_of d_overtaken.
#[local] Abbreviation taken_up :=
  (process env_later second_worker (λ _, true) 3 (λ _, 0) second_lease (World d_overtaken false 0 [])).

Definition two_workers (i : nat) : worker * Job :=
  match i with O => (sample_worker, sample_leased) | _ => (second_worker, second_lease) end.

Definition common_log : list (nat * action) :=
  (pair 1%nat <$> w_trace taken_up.2) ++ (pair 0%nat <$> w_trace cut_short.2).

Lemma acts_of_tagged i j l : acts_of i (pair j <$> l) = if decide (j = i) then l else [].
Proof.
  unfold acts_of. induction l as [|a l IH]; [by case_decide|].
  rewrite fmap_cons, filter_cons. cbn [fst]. case_decide; [|exact IH]. by rewrite fmap_cons, IH.
Qed.

Lemma acts_of_app i G1 G2 : acts_of i (G1 ++ G2) = acts_of i G1 ++ acts_of i G2.
Proof. unfold acts_of. by rewrite filter_app, fmap_app. Qed.

Lemma common_log_acts i :
  acts_of i common_log =
    match i with O => w_trace cut_short.2 | 1%nat => w_trace taken_up.2 | _ => [] end.
Proof.
  unfold common_log. rewrite acts_of_app, !acts_of_tagged. destruct i as [|[|i]]; cbn [decide]; [done| |done].
  by rewrite app_nil_r.
Qed.

Lemma after_foreign d o now vs : after d o now vs = run_foreign (Foreign o now [] vs) d.
Proof. reflexivity. Qed.

Lemma common_log_served : service_log two_workers common_log (w_db start) (w_db taken_up.2).
Proof.
  split.
  - unfold common_log. rewrite fmap_app, <- !list_fmap_compose, !list_fmap_id.
    destruct (process_logged env_full ltac:(intros n; do 12 (destruct n as [|n]; [constructor|]); constructor)
      sample_worker ltac:(done) (λ _, true) 3 (λ _, 0) sample_leased start) as (l1 & Ht1 & Hl1).
    destruct (process_logged env_later ltac:(constructor) second_worker ltac:(done) (λ _, true) 3
      (λ _, 0) second_lease (World d_overtaken false 0 [])) as (l2 & Ht2 & Hl2).
    rewrite Ht1, Ht2, !app_nil_r. eapply logged_trans; [|exact Hl2].
    cbn [w_db]. unfold d_overtaken. rewrite after_foreign. apply logged_foreign; [exact Hl1|done].
  - intros [|[|i]]; rewrite common_log_acts; cbn [two_workers fst snd].
    + exists env_full, 3%nat, (λ _, true), (λ _, 0), start. by split; [apply env_full_exclusive|].
    + exists env_later, 3%nat, (λ _, true), (λ _, 0), (World d_overtaken false 0 []).
      by split; [apply env_later_exclusive|].
    + exists env_later, 3%nat, (λ _, true), (λ _, 0), (World d_overtaken false 0 []).
      split; [apply env_later_exclusive|]. split; [done|]. apply suffix_nil.
Qed.

(** Both attempts complete their stages; the first sends the one record. *)
Lemma terminal_record_once_witness :
  terminal_sends two_workers "job-1" common_log = 1%nat ∧
  count (finish_won "job-1") common_log.*2 = 1%nat ∧
  (terminal_sends two_workers "job-1" common_log + 0 ≤ 1 + 0)%nat.
Proof.
  split; [vm_compute; reflexivity|]. split; [vm_compute; reflexivity|].
  exact (terminal_record_once two_workers common_log (w_db start) (w_db taken_up.2) "job-1"
    (reachable_keyed _ _ leased_reachable) common_log_served).
Defined.
