(* ===== verification/Overlap.v ===== *)
(** * Overlap: attempts that overlap, on one store and one cluster

    The workers of a deployment, the store they share and the cluster they act
    on. An attempt whose lease ran out may still be running when the next one
    begins, and goes on until a heartbeat tells it. Here the leases, the
    execution identity and the answers of the store are those of Store.v; the
    cluster is the one of System.v. That a minted identity is fresh is proved
    here: it bears the number of its attempt, and an attempt mints once. What is
    assumed is in the rules of [moves]: a call that creates a Job, or that takes
    or releases the execution identity, is answered before the lease its attempt
    last obtained runs out (the comment of stillLeased leaves this open); no
    Create is in flight when the job is leased again; an L5-a Create is not
    refused while its Job exists ([telling]). *)

From S2P Require Import Prelude GoTime Errors Work Db Fingerprint Store StoreSpec StoreRun StoreStep.
From S2P Require Import Retry Names Failure World Worker Pipeline Protocol Attempt Stages Process.
From S2P Require Import AttemptSafe Codec WorkerSafe Instances RowInv RowRead Samples.
From S2P Require Import StoreLease StoreDelivery StoreExec StoreSafe System Follow Service.

(** An attempt that has begun: what it has done, latest first, and until when it
    holds the lease it last obtained. *)
Record attempt_run := Run {
  rn_worker : worker;
  rn_job : Job;
  rn_done : list action;
  rn_until : instant;
}.

Record site := Site {
  s_db : db;
  s_now : instant;
  s_cluster : cluster;
  s_runs : gmap Z attempt_run;  (* by attempt number *)
}.

(** An accepted heartbeat extends the lease. *)
Definition lease_end (a : action) (now until : instant) : instant :=
  match a with AStore (OpHeartbeat _ _ _ ttl) None => time_add now ttl | _ => until end.

Definition proceed (x : attempt_run) (a : action) (now : instant) : attempt_run :=
  Run (rn_worker x) (rn_job x) (a :: rn_done x) (lease_end a now (rn_until x)).

Section Overlap.
Context {SO : SqlOrder} {AJ : ActionsJson} {DJ : DeliveryJson}.
Context (jobID : string) (actions : list string) (vault : bool).

(** The store's part in action [a]: its answer, if it was asked. *)
Definition store_part (a : action) (now : instant) (d d' : db) : Prop :=
  if calls_store a then
    match a with AStore o _ => op_in_range o now | _ => ts_in_range now end ∧
    ∃ fs vs, answers a now (Db (jobs d) (store_meta d) fs vs) d'
  else d' = d.

(** What others do: anything but what only an attempt at this job does under
    its own name. *)
Definition outside (o : op) : Prop :=
  match o with
  | OpHeartbeat id _ _ _ | OpCompleteJob id _ _ _ | OpFailJob id _ _ _ _ _
  | OpEnsureExecution id | OpMarkExecutionTerminal id _ => id ≠ jobID
  | _ => True
  end.

(** One step: time passes; the cluster moves; others use the store; a worker
    leases the job, when no Create is in flight; an attempt, stale or not, takes
    its next step, when it is one whose answer has no deadline or its lease has
    not run out. *)
Inductive moves : site → site → Prop :=
| mv_tick d now now' c xs :
    now ≤ now' → moves (Site d now c xs) (Site d now' c xs)
| mv_drift d now c c' xs :
    drift c c' → moves (Site d now c xs) (Site d now c' xs)
| mv_other d now c xs o fs vs :
    op_ok o → op_in_range o now → outside o →
    moves (Site d now c xs) (Site (run_op o now (Db (jobs d) (store_meta d) fs vs)) now c xs)
| mv_lease d now c xs wk j fs vs d' :
    op_in_range (OpLeaseJob (workerName wk) leaseDuration) now → workerName wk ≠ "" →
    LeaseJob (workerName wk) leaseDuration now (Db (jobs d) (store_meta d) fs vs) = (Ok j, d') →
    deployed jobID actions vault wk j → c_flight c = ∅ →
    moves (Site d now c xs)
      (Site d' now c (<[Attempt j := Run wk j [] (time_add now leaseDuration)]> xs))
| mv_act d now c xs i x a d' c' :
    xs !! i = Some x → attempt_prefix (rn_worker x) (rn_job x) (a :: rn_done x) →
    (plain a = false → now ≤ rn_until x) →
    store_part a now d d' → telling c a → react c a = Some c' →
    moves (Site d now c xs) (Site d' now c' (<[i := proceed x a now]> xs)).

(** The job was just stored; there is no attempt, and no Job of it. *)
Definition opens (s : site) : Prop :=
  reachable op_in_range (s_db s) ∧ s_cluster s = Cluster None ∅ ∅ ∧ s_runs s = ∅ ∧
  ∃ r, jobs (s_db s) !! jobID = Some r ∧ store_identity r = None.

(** ** What the rows show of an attempt *)

(** The attempt holds the row, until the end of its lease. *)
Definition current (r : row) (x : attempt_run) : Prop :=
  held_generation (workerName (rn_worker x)) (Attempt (rn_job x)) r = true ∧
  lease_until (r_lease r) = Some (formatTS (rn_until x)) ∧ ts_in_range (rn_until x).

Definition closed (x : attempt_run) : Prop :=
  ∃ s, prun (rn_worker x) (rn_job x) (rn_done x) = Some s ∧ p_closed s = true.

(** It has closed the job, or another attempt followed it. *)
Definition spent (now : instant) (r : row) (x : attempt_run) : Prop :=
  closed x ∨ (rn_until x < now ∧ Attempt (rn_job x) < attempt (r_lease r)).

Definition tracked (now : instant) (r : row) (wk : worker) (j : Job) (h : list action)
    (i : Z) (x : attempt_run) : Prop :=
  Attempt (rn_job x) = i ∧ workerName (rn_worker x) ≠ "" ∧ JobID (rn_job x) = jobID ∧
  i ≤ attempt (r_lease r) ∧
  (spent now r x ∨ (current r x ∧ wk = rn_worker x ∧ j = rn_job x ∧ h = rn_done x)).

(** Attempt [k] has got an execution identity. *)
Definition executing_run (xs : gmap Z attempt_run) (k : Z) : Prop :=
  ∃ x s, xs !! k = Some x ∧ prun (rn_worker x) (rn_job x) (rn_done x) = Some s ∧ p_exec s ≠ NoExecution.

(** Every identity, and every Job, comes from an attempt that got one; its
    number is in the name. *)
Record minted_by (c : cluster) (xs : gmap Z attempt_run) : Prop := {
  mb_exec y t : c_exec c = Some (y, t) → ∃ k v, y = minted k v ∧ executing_run xs k;
  mb_known n : known c n → ∃ k v,
    (n = smokeJobName jobID (minted k v) ∨ n = l5aJobName jobID (minted k v)) ∧ executing_run xs k;
}.

Definition site_inv (s : site) : Prop :=
  reachable op_in_range (s_db s) ∧ minted_by (s_cluster s) (s_runs s) ∧
  ∃ r wk j h,
    jobs (s_db s) !! jobID = Some r ∧ c_exec (s_cluster s) = store_identity r ∧
    evolves jobID actions vault (s_cluster s) wk j h ∧
    ∀ i x, s_runs s !! i = Some x → tracked (s_now s) r wk j h i x.

(** ** The store's side *)

Lemma run_op_row d o now fs vs r :
  reachable op_in_range d → op_ok o → op_in_range o now → jobs d !! jobID = Some r →
  let d' := run_op o now (Db (jobs d) (store_meta d) fs vs) in
  reachable op_in_range d' ∧
  ∃ r', jobs d' !! jobID = Some r' ∧ (r' = r ∨ row_step o now jobID (Some r) (Some r')).
Proof.
  intros Hd Hok Hin Hr d'. split.
  { eapply reachable_history; [exact Hd|]. constructor; [constructor|done..]. }
  pose proof (reachable_keyed _ _ Hd) as Hk.
  destruct (run_op_step o now (Db (jobs d) (store_meta d) fs vs) Hok Hk jobID) as [E|E]; cbn [jobs] in E;
    rewrite Hr in E; fold d' in E.
  - exists r. auto.
  - destruct (row_step_some _ _ _ _ _ E) as [r' E']. rewrite E' in E. exists r'. auto.
Qed.

Lemma row_step_outside o now r r' :
  outside o → row_step o now jobID (Some r) (Some r') →
  r_exec r' = r_exec r ∧
  (r_lease r' = r_lease r ∨ leaseable now r = true ∧ attempt (r_lease r') = attempt (r_lease r) + 1).
Proof. intros Ho Hs. inversion Hs; subst; cbn in Ho |- *; try done; auto. Qed.

Lemma same_exec_identity r r' : r_exec r' = r_exec r → store_identity r' = store_identity r.
Proof. unfold store_identity. by intros ->. Qed.

Lemma tracked_same now r r' wk j h i x :
  r_lease r' = r_lease r → tracked now r wk j h i x → tracked now r' wk j h i x.
Proof.
  unfold tracked, spent, current. rewrite !held_generation_iff. by intros ->.
Qed.

Lemma tracked_later now now' r wk j h i x :
  now ≤ now' → tracked now r wk j h i x → tracked now' r wk j h i x.
Proof.
  intros Hle (H1 & H2 & H3 & H4 & [[H5|[H5 H6]]|H5]); (split_and!; [done..|]).
  - left. by left.
  - left. right. split; [lia|done].
  - by right.
Qed.

(** Leasing the job again leaves no attempt current. *)
Lemma tracked_leased now r r' wk j h wk' j' h' i x :
  ts_in_range now → leaseable now r = true → attempt (r_lease r') = attempt (r_lease r) + 1 →
  tracked now r wk j h i x → tracked now r' wk' j' h' i x ∧ i < attempt (r_lease r').
Proof.
  intros Hnow Hl Ha (H1 & H2 & H3 & H4 & H5). assert (i < attempt (r_lease r')) as Hlt by lia.
  split; [|done]. split_and!; [done..|lia|]. left.
  destruct H5 as [[H5|[H5 H6]]|[(Hg & Hu & Hin) _]]; [by left|right; split; [done|lia]|].
  right. split; [|lia]. apply held_generation_iff in Hg as (_ & _ & Hst).
  unfold leaseable in Hl. rewrite Hu, Hst in Hl. rewrite formatTS_ltb in Hl by done.
  apply orb_true_iff in Hl as [Hl|Hl]; [|by apply Z.ltb_lt].
  by destruct (status (r_lease r)).
Qed.

Lemma some_deployed : ∃ wk j, deployed jobID actions vault wk j.
Proof.
  exists {| workerName := ""; vaultClient := vault; dynamicKube := false; withMetrics := false |}.
  exists {| JobID := jobID; ArtifactKind := ""; ImageRepository := ""; ImageDigest := ""; StableRef := "";
    ToolName := ""; Version := ""; CasHash := ""; RequestedActions := actions; RequestedFixtureSet := "";
    ValidationRequestID := ""; JobStatus := StatusQueued; Attempt := 0; LeaseOwner := "";
    LeaseUntil := None; LastError := ""; ResultSummary := ""; CreatedAt := 0; UpdatedAt := 0;
    ResultDeliveryStatus := DeliveryNotApplicable; ResultDeliveryPayload := ""; ResultDeliveryAttempts := 0;
    ResultDeliveryLastError := ""; NextAttemptAt := None; ResultDeliveryClaimToken := "";
    TerminalSubmitted := false; ExecutionID := ""; ExecutionTerminal := false; RetryNotBefore := None |}.
  done.
Qed.

(** ** What an attempt's action does to the row *)

Lemma row_step_exec o now id r r' :
  row_step o now id (Some r) (Some r') →
  match o with OpEnsureExecution _ | OpMarkExecutionTerminal _ _ => True | _ => r_exec r' = r_exec r end.
Proof. by inversion 1. Qed.

Lemma row_step_attempt o now id r r' :
  row_step o now id (Some r) (Some r') →
  match o with
  | OpLeaseJob _ _ => True
  | OpHeartbeat _ _ _ _ | OpCompleteJob _ _ _ _ | OpFailJob _ _ _ _ _ _ =>
      attempt (r_lease r') = attempt (r_lease r)
  | _ => r_lease r' = r_lease r
  end.
Proof. by inversion 1. Qed.

(** A failed call of these leaves the row alone. *)
Lemma failed_row o now d e :
  op_error o now d = Some e →
  match o with OpLeaseJob _ _ | OpCreateJob _ => True | _ => jobs (run_op o now d) = jobs d end.
Proof.
  intros He. destruct (failed_operation_changes_nothing _ _ _ _ He) as [H|[[(w & ttl & ->)|(q & ->)] _]];
    [by destruct o|done|done].
Qed.

(** What one store call of an attempt does to the row of the job. *)
Lemma store_part_row a now d d' r :
  reachable op_in_range d → jobs d !! jobID = Some r → store_part a now d d' →
  reachable op_in_range d' ∧
  ∃ r', jobs d' !! jobID = Some r' ∧
    (r' = r ∨ ∃ o, row_step o now jobID (Some r) (Some r') ∧
       match a with
       | AStore o' e => o = o' ∧
           ((∃ w ttl, o = OpLeaseJob w ttl) ∨ (∃ q, o = OpCreateJob q) ∨ e = None)
       | AEnsure id res => o = OpEnsureExecution id ∧ is_ok res = true
       | AClaim id w n _ => o = OpClaimTerminal id w n
       | _ => False
       end).
Proof.
  intros Hd Hr Hp. unfold store_part in Hp. destruct (calls_store a) eqn:Hc; [|subst d'; eauto].
  destruct Hp as (Hin & fs & vs & Ha).
  destruct a as [o e|id res|id w n res| | | | | | | | | ]; try done; cbn [answers] in Ha.
  - destruct Ha as (Hok & He & ->). destruct (run_op_row d o now fs vs r Hd Hok Hin Hr) as (H1 & r' & Hr' & H2).
    split; [done|]. exists r'. split; [done|]. destruct H2 as [->|H2]; [by left|].
    destruct e as [e|]; [|by right; eauto 10].
    pose proof (failed_row _ _ _ _ He) as Hf.
    assert (r' = r ∨ (∃ w ttl, o = OpLeaseJob w ttl) ∨ (∃ q, o = OpCreateJob q)) as [->|Ho];
      [|by left|right; exists o; split; [done|]; split; [done|]; tauto].
    destruct o; try (left; rewrite Hf in Hr'; cbn [jobs] in Hr'; congruence); eauto.
  - assert (d' = run_op (OpEnsureExecution id) now (Db (jobs d) (store_meta d) fs vs)) as -> by (cbn; by rewrite Ha).
    destruct (run_op_row d (OpEnsureExecution id) now fs vs r Hd I) as (H1 & r' & Hr' & H2); [by split|done|].
    split; [done|]. exists r'. split; [done|]. destruct H2 as [->|H2]; [by left|].
    destruct res as [res|e]; [by right; eauto|]. left.
    assert (op_error (OpEnsureExecution id) now (Db (jobs d) (store_meta d) fs vs) = Some e) as He
      by (cbn; by rewrite Ha).
    rewrite (failed_row _ _ _ _ He) in Hr'. cbn [jobs] in Hr'. congruence.
  - assert (d' = run_op (OpClaimTerminal id w n) now (Db (jobs d) (store_meta d) fs vs)) as -> by (cbn; by rewrite Ha).
    destruct (run_op_row d (OpClaimTerminal id w n) now fs vs r Hd I) as (H1 & r' & Hr' & H2); [by split|done|].
    split; [done|]. exists r'. split; [done|]. destruct H2 as [->|H2]; [by left|by right; eauto].
Qed.

Lemma accepted_heartbeat w n ttl now d d' r :
  jobs d !! jobID = Some r → store_part (AStore (OpHeartbeat jobID w n ttl) None) now d d' →
  held_generation w n r = true ∧ jobs d' !! jobID = Some (heartbeat_row ttl now r) ∧
  ts_in_range (time_add now ttl).
Proof.
  intros Hr ([_ Hin] & fs & vs & _ & He & ->). cbn [op_error run_op] in *. rewrite Heartbeat_fenced in *.
  rewrite fenced_run in *. destruct (stmt_fault _); [done|]. cbn [jobs] in *. rewrite Hr in *.
  destruct (held_generation w n r); [|done]. cbn. by rewrite lookup_insert_eq.
Qed.

(** ** What the protocol allows *)

Lemma pstep_owns wk job s a s' :
  pstep wk job s a = Some s' →
  match a with
  | AStore (OpHeartbeat id w n _) e =>
      e = None → id = JobID job ∧ w = workerName wk ∧ n = Attempt job
  | AStore (OpFailJob id w n _ _ _) e | AStore (OpCompleteJob id w n _) e =>
      e = None → id = JobID job ∧ w = workerName wk ∧ n = Attempt job ∧ p_closed s' = true
  | AStore (OpMarkExecutionTerminal id _) _ | AEnsure id _ => id = JobID job
  | AStore (OpGetJob _) _ | AStore (OpMarkFirstDeliveryPending _ _ _ _ _ _) _
  | AStore (OpMarkFirstDeliveryDeadLetter _ _ _ _ _) _ => True
  | AStore _ _ => False
  | _ => True
  end.
Proof.
  intros H. unfold pstep in H. destruct (p_lost s).
  { destruct (harmless a) eqn:Hh; [|done]. destruct a as [[] []| | | | | | | | | | |]; done. }
  destruct (p_closed s); [by destruct a|].
  destruct a as [o e|id res| | | | | | | | | | ]; try done.
  - destruct o; cbn in H; unfold with_exec, with_report, closing in H; try done.
    + case_bool_decide as Hown; [|done]. by intros _.
    + destruct (p_exec s); [done|]. destruct (_ && _) eqn:E; [|done]. injection H as <-.
      intros _. rewrite !andb_true_iff, bool_decide_eq_true in E. by destruct E as [[(-> & -> & ->) _] _].
    + destruct (_ && _) eqn:E; [|done]. injection H as <-.
      intros _. rewrite andb_true_iff, bool_decide_eq_true in E. by destruct E as [(-> & -> & ->) _].
    + destruct (p_exec s); [done|]. by case_bool_decide as Hown; [destruct Hown|].
  - destruct (p_exec s); [|done]. by case_bool_decide.
Qed.

Lemma pstep_closed wk job s a s' :
  pstep wk job s a = Some s' → p_closed s = true →
  p_closed s' = true ∧ plain a = true ∧ ∀ o, a ≠ AStore o None.
Proof.
  intros H Hc. unfold pstep in H. destruct (p_lost s).
  { destruct (harmless a) eqn:Hh; [|done]. injection H as <-. destruct a as [[] []| | | | | | | | | | |]; done. }
  rewrite Hc in H. destruct a; try done. by injection H as <-.
Qed.

Lemma plain_drift a c c' : plain a = true → react c a = Some c' → c' = c ∨ drift c c'.
Proof.
  intros Hp H.
  destruct a as [o e|id [[x []]|e]|id w n r|[] spec e|n [conds|e]| | | | | | | ];
    try done; cbn in H; try (left; by injection H as <-).
  - left. destruct o; try done; by injection H as <-.
  - right. repeat case_match; simplify_eq; apply drift_drop.
  - left. repeat case_match; by simplify_eq.
Qed.

Lemma react_exec c a c' :
  react c a = Some c' →
  match a with
  | AEnsure _ (Ok _) | AStore (OpMarkExecutionTerminal _ _) None => True
  | _ => c_exec c' = c_exec c
  end.
Proof.
  intros H.
  destruct a as [o e|id [[x ad]|e]|id w n r|[] spec e|n [conds|e]| | | | | | | ];
    try done; cbn in H; try (by injection H as <-).
  - destruct o, e; try done; by injection H as <-.
  - by repeat case_match; simplify_eq.
  - by repeat case_match; simplify_eq.
  - by repeat case_match; simplify_eq.
Qed.

(** ** The action of an attempt, in store and cluster *)

Section Act.
Context (wk : worker) (job : Job) (s s' : pstate) (a : action).
Context (Hjob : JobID job = jobID) (Hp : pstep wk job s a = Some s').
Context (now : instant) (d d' : db) (r r' : row).
Context (Hd : reachable op_in_range d) (Hr : jobs d !! jobID = Some r) (Hr' : jobs d' !! jobID = Some r').
Context (Hs : store_part a now d d').

(** The cluster goes on showing the identity of the row. *)
Lemma act_exec c c' :
  react c a = Some c' → c_exec c = store_identity r → c_exec c' = store_identity r'.
Proof.
  intros Hre Hc. pose proof (pstep_owns _ _ _ _ _ Hp) as Hown.
  assert ((match a with AEnsure _ (Ok _) | AStore (OpMarkExecutionTerminal _ _) None => False | _ => True end) →
    c_exec c' = store_identity r') as Hplain.
  { intros Ha. assert (c_exec c' = c_exec c) as -> by (pose proof (react_exec _ _ _ Hre); by repeat case_match).
    rewrite Hc. symmetry. apply same_exec_identity.
    destruct (store_part_row _ _ _ _ _ Hd Hr Hs) as (_ & r1 & Hr1 & H). rewrite Hr' in Hr1. injection Hr1 as <-.
    destruct H as [->|(o & Hst & Ho)]; [done|]. pose proof (row_step_exec _ _ _ _ _ Hst) as He.
    destruct a as [o' e|id [res|e]|id w n res| | | | | | | | | ]; try done.
    - destruct Ho as [-> He']. destruct o'; try done. destruct e; [|done].
      destruct He' as [(? & ? & ?)|[(? & ?)|?]]; done.
    - by destruct Ho.
    - by subst o. }
  destruct a as [o e|id [[x ad]|e]|id w n res| | | | | | | | | ]; try by apply Hplain.
  - destruct o; try by apply Hplain. destruct e; [by apply Hplain|]. clear Hplain.
    cbn beta iota in Hown. subst. destruct Hs as (_ & fs & vs & _ & He & ->). cbn [op_error run_op] in *.
    destruct (MarkExecutionTerminal _ _ _ _) as [[[]|e] d2] eqn:E; [|done].
    destruct (identity_refines_store (JobID job) now (Db (jobs d) (store_meta d) fs vs) r c Hr Hc) as [_ H].
    destruct (H _ _ E) as (c2 & r2 & Hc2 & Hr2 & Hx). cbn [snd] in Hr'. congruence.
  - clear Hplain. cbn beta iota in Hown. subst. destruct Hs as (_ & fs & vs & He). cbn [answers] in He.
    destruct (identity_refines_store (JobID job) now (Db (jobs d) (store_meta d) fs vs) r c Hr Hc) as [H _].
    destruct (H _ _ _ He) as (c2 & r2 & Hc2 & Hr2 & Hx). congruence.
Qed.

(** The row's lease changes only under the lease of the attempt itself. *)
Lemma act_lease :
  reachable op_in_range d' ∧ attempt (r_lease r') = attempt (r_lease r) ∧
  (r_lease r' = r_lease r ∨
   attempt (r_lease r) = Attempt job ∧
   (p_closed s' = true ∨ ∃ w n ttl, a = AStore (OpHeartbeat jobID w n ttl) None)).
Proof.
  pose proof (pstep_owns _ _ _ _ _ Hp) as Hown.
  destruct (store_part_row _ _ _ _ _ Hd Hr Hs) as (Hd' & r1 & Hr1 & H). rewrite Hr' in Hr1. injection Hr1 as <-.
  split; [done|]. destruct H as [->|(o & Hst & Ho)]; [by split; [|left]|].
  pose proof (row_step_attempt _ _ _ _ _ Hst) as Ha.
  destruct a as [o' e|id res|id w n res| | | | | | | | | ]; try done.
  - destruct Ho as [-> He].
    assert (attempt (r_lease r') = attempt (r_lease r)) as Hatt by (destruct o'; try done; by rewrite Ha).
    split; [done|]. destruct o'; try (by left); try done.
    all: assert (e = None) as -> by (destruct He as [(? & ? & ?)|[(? & ?)|?]]; done).
    all: specialize (Hown eq_refl); destruct_and? Hown; subst; right; inversion Hst; subst.
    + take held_generation Hf. apply held_generation_iff in Hf as (_ & Hn & _). eauto 10.
    + take generation Hf. apply generation_true in Hf as [_ Hn]. auto.
    + take generation Hf. apply generation_true in Hf as [_ Hn]. auto.
    + take held_generation Hf. apply held_generation_iff in Hf as (_ & Hn & _). auto.
  - destruct Ho as [-> _]. rewrite Ha. auto.
  - subst o. rewrite Ha. auto.
Qed.

End Act.

(** ** What is minted is fresh *)

Lemma minted_attempt k v k' v' : minted k v = minted k' v' → k = k'.
Proof.
  unfold minted. intros E. rewrite <- !string_app_assoc in E.
  apply app_inj_suffix in E as [E _]; [|by rewrite !hex_encode_length].
  apply app_inj_suffix in E as [E _]; [|done]. apply app_inj_length in E as [_ E]; [|done]. by apply (inj pretty) in E.
Qed.

Lemma job_name_identity n x y :
  n ∈ [smokeJobName jobID x; l5aJobName jobID x] → n = smokeJobName jobID y ∨ n = l5aJobName jobID y → x = y.
Proof.
  unfold smokeJobName, l5aJobName.
  intros [->|[->|[]%elem_of_nil]%elem_of_cons]%elem_of_cons [E|E];
    try (rewrite !string_app_cons in E; discriminate E);
    (apply app_inj_length in E as [_ E]; [|done]; apply app_inj_length in E as [_ E]; [|done];
     by apply app_inj_length in E as [_ E]).
Qed.

Lemma minted_by_calmer c c' xs : calmer c' c → minted_by c xs → minted_by c' xs.
Proof. intros (He & _ & Hk & _) [H1 H2]. split; [by rewrite He|]. intros n Hn. by apply H2, Hk. Qed.

Lemma minted_by_runs c xs xs' :
  (∀ k, executing_run xs k → executing_run xs' k) → minted_by c xs → minted_by c xs'.
Proof.
  intros Hxs [H1 H2]. split; [intros y t Hy|intros n Hn].
  - destruct (H1 _ _ Hy) as (k & v & ? & ?). eauto.
  - destruct (H2 _ Hn) as (k & v & ? & ?). eauto.
Qed.

(** A new attempt has a number of its own. *)
Lemma executing_run_leased xs i x k : xs !! i = None → executing_run xs k → executing_run (<[i := x]> xs) k.
Proof.
  intros Hi (y & s & Hk & H). exists y, s. split; [|done]. rewrite lookup_insert_ne by congruence. done.
Qed.

(** An attempt that got an identity keeps one. *)
Lemma pstep_executing wk job s a s' : pstep wk job s a = Some s' → p_exec s ≠ NoExecution → p_exec s' ≠ NoExecution.
Proof.
  intros Hst Hx. destruct (p_lost s') eqn:Hl.
  { by destruct (pstep_lost_plain _ _ _ _ _ Hst Hl) as [-> _]. }
  destruct (pstep_exec _ _ _ _ _ Hst Hl) as [_ [[_ ->]|[(id & x & ad & _ & ? & _)|
    (x & l & ph & l4 & _ & _ & Hcases)]]]; [done..|].
  destruct Hcases as [(? & _ & _ & ->)|[(? & _ & _ & _ & ->)|[(? & _ & _ & _ & _ & _ & ->)|
    [(r & _ & _ & ->)|[(? & _ & _ & ->)|(? & _ & _ & ->)]]]]]; try done. by destruct r.
Qed.

Lemma executing_run_acted xs i x a now s0 s1 k :
  xs !! i = Some x → prun (rn_worker x) (rn_job x) (rn_done x) = Some s0 →
  pstep (rn_worker x) (rn_job x) s0 a = Some s1 →
  executing_run xs k → executing_run (<[i := proceed x a now]> xs) k.
Proof.
  intros Hi H0 Hst (y & s & Hk & Hs & Hx). destruct (decide (i = k)) as [->|Hne].
  - rewrite Hi in Hk. injection Hk as <-. rewrite H0 in Hs. injection Hs as <-.
    exists (proceed x a now), s1. rewrite lookup_insert_eq. split; [done|]. split; [|by eapply pstep_executing].
    cbn. by rewrite H0.
  - exists y, s. split; [|done]. by rewrite lookup_insert_ne.
Qed.

(** The Jobs of a cluster are those it had and the one an attempt creates. *)
Lemma react_known c a c' n :
  react c a = Some c' → known c' n →
  known c n ∨ ∃ spec e, a = ACreate false spec e ∧ n = kj_Name spec.
Proof.
  intros H Hn. destruct (plain a) eqn:Hp.
  { left. by apply (plain_calmer _ _ _ Hp H). }
  destruct a as [o e|id [[x ad]|e]|id w k r|[] spec e|m [conds|e]| | | | | | | ]; try done; cbn in H.
  - left. destruct o, e; try done; repeat case_match; by simplify_eq.
  - left. destruct ad; repeat case_match; by simplify_eq.
  - unfold known, settle in *. repeat case_match; simplify_eq; cbn in Hn; auto.
    + destruct Hn as [Hn|Hn]; [auto|]. left. right. set_solver.
    + destruct Hn as [Hn|[->%elem_of_singleton|Hn]%elem_of_union]; eauto.
    + destruct Hn as [Hn|Hn]; [|left; right; set_solver].
      destruct (decide (kj_Name spec = n)) as [<-|Hne]; [eauto|]. rewrite lookup_insert_ne in Hn by done. auto.
Qed.

(** The attempt that holds the row takes a step. *)
Section Mint.
Context (c : cluster) (xs : gmap Z attempt_run) (i : Z) (x : attempt_run) (a : action) (s0 s1 : pstate).
Context (now : instant) (d d' : db) (r : row).
Context (Hd : reachable op_in_range d) (Hr : jobs d !! jobID = Some r) (Hs : store_part a now d d').
Context (Hi : xs !! i = Some x) (Hown : attempt (r_lease r) = i).
Context (Hev : evolves jobID actions vault c (rn_worker x) (rn_job x) (rn_done x)).
Context (H0 : prun (rn_worker x) (rn_job x) (rn_done x) = Some s0).
Context (Hst : pstep (rn_worker x) (rn_job x) s0 a = Some s1).
Context (Hmb : minted_by c xs).
#[local] Abbreviation xs' := (<[i := proceed x a now]> xs).

Lemma act_executing : p_exec s1 ≠ NoExecution → executing_run xs' i.
Proof.
  intros Hx. exists (proceed x a now), s1. rewrite lookup_insert_eq. split; [done|]. split; [|done].
  cbn. by rewrite H0.
Qed.

Lemma act_ensures id y ad : a = AEnsure id (Ok (y, ad)) →
  p_exec s0 = NoExecution ∧ p_exec s1 ≠ NoExecution ∧ (ad = false → ∃ v, y = minted i v).
Proof.
  intros ->. destruct (p_lost s1) eqn:Hl.
  { by destruct (pstep_lost_plain _ _ _ _ _ Hst Hl) as [_ ?]. }
  destruct (pstep_exec _ _ _ _ _ Hst Hl) as [_ [[? _]|[(? & ? & ? & _ & Hx & ->)|
    (? & ? & ? & ? & _ & _ & Hcases)]]]; [done| |by unfold exec_step in Hcases; naive_solver].
  split; [done|]. split; [done|]. intros ->. pose proof (pstep_owns _ _ _ _ _ Hst) as Hid. cbn in Hid.
  destruct (evolves_inv _ _ _ _ _ _ _ Hev) as [(HJ & _) _]. rewrite HJ in Hid. subst id.
  destruct Hs as (_ & fs & vs & He). cbn [answers] in He.
  pose proof (EnsureExecution_cases jobID now (Db (jobs d) (store_meta d) fs vs)) as Hc. rewrite He in Hc.
  destruct Hc as (r0 & Hr0 & Hc). cbn [jobs] in Hr0. rewrite Hr in Hr0. injection Hr0 as <-.
  destruct (live_execution r); [by destruct Hc as (_ & ? & _)|]. destruct Hc as (_ & [v ->] & _).
  exists v. by rewrite Hown.
Qed.

(** The number of the attempt is in the name of what it mints, and it mints once. *)
Lemma act_fresh : fresh_mint jobID c a.
Proof.
  assert (∀ id y, a = AEnsure id (Ok (y, false)) → fresh_identity jobID c y = true) as H;
    [|by destruct a as [|id [[y []]|]| | | | | | | | | | ]; try done; eapply H].
  intros id y Ha. destruct (act_ensures id y false Ha) as (Hno & _ & Hv). destruct (Hv eq_refl) as [v Hy].
  assert (∀ n, n ∈ [smokeJobName jobID y; l5aJobName jobID y] → ¬ known c n) as Hun.
  { intros n Hn (k & v' & Hk & (x0 & s & Hx0 & Hs0 & Hex))%(mb_known _ _ Hmb).
    pose proof (job_name_identity _ _ _ Hn Hk) as Hyk. rewrite Hy in Hyk. apply minted_attempt in Hyk as <-.
    rewrite Hi in Hx0. injection Hx0 as <-. rewrite H0 in Hs0. by injection Hs0 as <-. }
  unfold fresh_identity. apply forallb_forall. intros n Hn%list_elem_of_In. apply bool_decide_eq_true_2.
  specialize (Hun n Hn). split; [|by intros ?; apply Hun; right].
  destruct (c_jobs c !! n) eqn:E; [|done]. destruct Hun. left. by eexists.
Qed.

Context (c' : cluster) (Hre : react c a = Some c').

Lemma act_exec_minted y t : c_exec c' = Some (y, t) → ∃ k v, y = minted k v ∧ executing_run xs' k.
Proof.
  assert (c_exec c' = c_exec c ∨ (∃ z b, c_exec c = Some (z, b) ∧ c_exec c' = Some (z, true)) ∨
    ∃ id z, a = AEnsure id (Ok (z, false)) ∧ c_exec c' = Some (z, false)) as [E|[(z & b & E & ->)|(id & z & Ha & ->)]].
  { clear -Hre. pose proof (react_exec _ _ _ Hre) as H. destruct a as [o e|id [[z []]|e]| | | | | | | | | | ]; auto.
    - destruct o; auto. destruct e; [auto|]. cbn in Hre. destruct (c_exec c) as [[z b]|] eqn:Ec; [|left; by injection Hre as <-].
      case_bool_decide; [|done]. injection Hre as <-. subst. right. left. eauto.
    - cbn in Hre. left. case_bool_decide; [|done]. by injection Hre as <-.
    - right. right. exists id, z. split; [done|]. cbn in Hre. destruct (c_exec c) as [[? []]|]; [by injection Hre as <-|done|by injection Hre as <-]. }
  - rewrite E. intros (k & v & -> & Hk)%(mb_exec _ _ Hmb). exists k, v. split; [done|]. by eapply executing_run_acted.
  - intros [= -> _]. apply (mb_exec _ _ Hmb) in E as (k & v & -> & Hk). exists k, v. split; [done|].
    by eapply executing_run_acted.
  - intros [= -> _]. destruct (act_ensures id y false Ha) as (_ & Hx & Hv). destruct (Hv eq_refl) as [v ->].
    exists i, v. split; [done|]. by apply act_executing.
Qed.

(** A Job it creates bears the identity it has. *)
Lemma act_creates spec e : a = ACreate false spec e →
  ∃ k v, (kj_Name spec = smokeJobName jobID (minted k v) ∨ kj_Name spec = l5aJobName jobID (minted k v)) ∧
    executing_run xs' k.
Proof.
  intros Ha. destruct (p_lost s1) eqn:Hl.
  { rewrite Ha in Hst. by destruct (pstep_lost_plain _ _ _ _ _ Hst Hl) as [_ ?]. }
  destruct (evolves_inv _ _ _ _ _ _ _ Hev) as [Hdep (s & Hs0 & _ & Hp)]. rewrite H0 in Hs0. injection Hs0 as <-.
  destruct (pstep_exec _ _ _ _ _ Hst Hl) as [_ [[? _]|[(? & ? & ? & ? & _)|
    (z & l & ph & l4 & Hx & _ & Hcases)]]]; [by subst a..|].
  rewrite Hx in Hp. destruct Hp as ((t & Hz & _) & _). apply (mb_exec _ _ Hmb) in Hz as (k & v & -> & Hk).
  exists k, v. split; [|by eapply executing_run_acted]. rewrite Ha in Hcases. clear Ha.
  destruct (own_names _ _ _ _ _ Hdep (minted k v)) as (_ & _ & N1 & N2).
  destruct Hcases as [(? & ? & _)|[(? & [= -> _] & _)|[(? & [= -> _] & _)|
    [(? & ? & _)|[(? & ? & _)|(? & ? & _)]]]]]; try done; auto.
Qed.

Lemma act_minted : minted_by c' xs'.
Proof.
  split; [exact act_exec_minted|]. intros n Hn.
  destruct (react_known _ _ _ _ Hre Hn) as [Hk|(spec & e & Ha & ->)]; [|by eapply act_creates].
  apply (mb_known _ _ Hmb) in Hk as (k & v & H & Hk). exists k, v. split; [done|]. by eapply executing_run_acted.
Qed.
End Mint.

(** ** Every step keeps the invariant *)

(** Beside the attempt that holds the row, every other is spent. *)
Lemma others_tracked now r r' wk j h wk' j' h' i k y :
  attempt (r_lease r') = attempt (r_lease r) → attempt (r_lease r) = i → k ≠ i →
  tracked now r wk j h k y → tracked now r' wk' j' h' k y.
Proof.
  intros Ha Hi Hne (H1 & H2 & H3 & H4 & H5). split_and!; [done..|lia|]. left.
  destruct H5 as [[H5|[H5 H6]]|[(Hg & _) _]]; [by left|right; split; [done|lia]|].
  apply held_generation_iff in Hg as (_ & Hn & _). lia.
Qed.

Lemma lease_end_same a now u :
  (∀ w n ttl id, a ≠ AStore (OpHeartbeat id w n ttl) None) → lease_end a now u = u.
Proof. intros H. destruct a as [[] []| | | | | | | | | | |]; try done. by edestruct H. Qed.

Lemma mv_act_inv d now c xs i x a d' c' :
  site_inv (Site d now c xs) →
  xs !! i = Some x → attempt_prefix (rn_worker x) (rn_job x) (a :: rn_done x) →
  (plain a = false → now ≤ rn_until x) → store_part a now d d' → telling c a → react c a = Some c' →
  site_inv (Site d' now c' (<[i := proceed x a now]> xs)).
Proof.
  intros (Hd & Hmb & r & wk & j & h & Hr & Hx & Hev & Htr) Hi Hpre Htime Hs Htell Hre. cbn [s_db s_now s_cluster s_runs] in *.
  pose proof (Htr _ _ Hi) as (H1 & H2 & H3 & H4 & H5).
  destruct (prefix_step _ _ _ _ Hpre) as (s0 & s1 & Hs0 & Hst & Hs1).
  destruct (store_part_row _ _ _ _ _ Hd Hr Hs) as (Hd' & r' & Hr' & _).
  pose proof (act_exec _ _ _ _ _ H3 Hst _ _ _ _ _ Hd Hr Hr' Hs _ _ Hre Hx) as Hx'.
  destruct (act_lease _ _ _ _ _ H3 Hst _ _ _ _ _ Hd Hr Hr' Hs) as (_ & Ha & Hl).
  assert (closed x → closed (proceed x a now) ∧ plain a = true ∧ ∀ o, a ≠ AStore o None) as Hcl.
  { intros (s & Hrun & Hc). rewrite Hs0 in Hrun. injection Hrun as <-.
    destruct (pstep_closed _ _ _ _ _ Hst Hc) as (Hc' & Hpl & Hno). split; [by exists s1|done]. }
  assert (p_closed s1 = true → closed (proceed x a now)) as Hcl1 by (intros Hc; by exists s1).
  assert (∀ wk' j' h', minted_by c' (<[i := proceed x a now]> xs) → evolves jobID actions vault c' wk' j' h' →
    attempt (r_lease r) = i ∨ (r_lease r' = r_lease r ∧ wk' = wk ∧ j' = j ∧ h' = h) →
    spent now r' (proceed x a now) ∨
      (current r' (proceed x a now) ∧ wk' = rn_worker x ∧ j' = rn_job x ∧ h' = a :: rn_done x) →
    site_inv (Site d' now c' (<[i := proceed x a now]> xs))) as Hdone.
  { intros wk' j' h' Hmb' Hev' Hsame Hown. split; [done|]. split; [done|]. exists r', wk', j', h'. split_and!; [done..|].
    intros k y Hy. cbn [s_runs s_now] in *. apply lookup_insert_Some in Hy as [[<- <-]|[Hne Hy]].
    { split_and!; [done..|lia|exact Hown]. }
    destruct Hsame as [Hsame|(Hsame & -> & -> & ->)]; [|eapply tracked_same; [exact Hsame|auto]].
    eapply (others_tracked now r r'); [done|exact Hsame|done|auto]. }
  destruct H5 as [Hsp|(Hcur & -> & -> & ->)].
  - assert (plain a = true) as Hpl.
    { destruct Hsp as [Hsp|[Hsp _]]; [by apply Hcl in Hsp as (_ & ? & _)|].
      destruct (plain a); [done|]. specialize (Htime eq_refl). lia. }
    apply (Hdone wk j h); [| | |left].
    + eapply minted_by_calmer; [by eapply plain_calmer|]. eapply minted_by_runs; [|done].
      intros k. by eapply executing_run_acted.
    + destruct (plain_drift _ _ _ Hpl Hre) as [->|Hdr]; [done|]. by eapply evolves_drift.
    + destruct Hl as [Hl|[Hl _]]; [by right|left; lia].
    + destruct Hsp as [Hsp|[Hsp1 Hsp2]]; [left; by apply Hcl|]. right. cbn [proceed rn_job rn_until].
      rewrite Ha. split; [|done]. rewrite lease_end_same; [done|]. intros w n ttl id ->.
      pose proof (pstep_owns _ _ _ _ _ Hst eq_refl) as (-> & -> & ->). rewrite H3 in Hs.
      destruct (accepted_heartbeat _ _ _ _ _ _ _ Hr Hs) as (Hg & _).
      apply held_generation_iff in Hg as (_ & Hn & _). lia.
  - destruct Hcur as (Hg & Hu & Hin). pose proof Hg as Hg'. apply held_generation_iff in Hg' as (Hw & Hn & Hh).
    assert (attempt (r_lease r) = i) as Hi' by lia.
    pose proof (act_fresh c xs i x a s0 s1 now d d' r Hr Hs Hi Hi' Hev Hs0 Hst Hmb) as Hfr.
    apply (Hdone (rn_worker x) (rn_job x) (a :: rn_done x)); [|by eapply evolves_act|left; lia|].
    { exact (act_minted c xs i x a s0 s1 now d d' r Hr Hs Hi Hi' Hev Hs0 Hst Hmb c' Hre). }
    destruct (decide (p_closed s1 = true)) as [Hc|Hc]; [left; left; auto|right].
    split; [|done]. unfold current. cbn [proceed rn_worker rn_job rn_until].
    destruct a as [[] []| | | | | | | | | | |]; cbn [lease_end].
    all: try (destruct Hl as [Hl|[_ [Hl|(? & ? & ? & ?)]]]; [|done..];
      rewrite held_generation_iff, Hl; by split_and!).
    pose proof (pstep_owns _ _ _ _ _ Hst eq_refl) as (-> & -> & ->). rewrite H3 in Hs.
    destruct (accepted_heartbeat _ _ _ _ _ _ _ Hr Hs) as (_ & Hj & Hv). rewrite Hr' in Hj. injection Hj as ->.
    split_and!; [|done..]. by apply held_generation_iff.
Qed.

(** A lease that was handed out. *)
Lemma LeaseJob_ok w ttl now d j d' :
  table_keyed (jobs d) → LeaseJob w ttl now d = (Ok j, d') →
  ∃ r, jobs d !! JobID j = Some r ∧ leaseable now r = true ∧
    jobs d' !! JobID j = Some (lease_row w ttl now r) ∧ Attempt j = attempt (r_lease r) + 1.
Proof.
  intros Hk H. rewrite LeaseJob_body in H. apply bind_ok in H as (id & d1 & H1 & H2).
  destruct (in_tx_jobs "begin lease tx" (λ _, "commit lease tx") (lease_body w ttl now) d)
    as [[_ He]|(id' & d2 & Hb & He)]; [by rewrite H1 in He|].
  rewrite H1 in He. injection He as <- ->. apply lease_body_ok in Hb as (r & rest & _ & _ & Hr & Hl & Hj); [|done].
  unfold GetJob in H2. apply bind_ok in H2 as (o & d3 & H2 & H3). apply wrap_ok, get_ok in H2 as [-> ->].
  cbn [jobs next_stmt] in *. rewrite Hj, lookup_insert_eq in H3. apply wrap_ok in H3.
  destruct (scanJob (lease_row w ttl now r)) as [j'|e] eqn:Hs; [|done]. injection H3 as <- <-.
  apply scanJob_scanned in Hs. pose proof (sc_id _ _ Hs) as Hid. pose proof (sc_attempt _ _ Hs) as Ha.
  cbn in Hid. rewrite (Hk _ _ Hr) in Hid. rewrite Hid. exists r. split_and!; [done..| |done].
  cbn. by rewrite Hj, lookup_insert_eq.
Qed.

Lemma mv_lease_inv d now c xs wk j fs vs d' :
  site_inv (Site d now c xs) →
  op_in_range (OpLeaseJob (workerName wk) leaseDuration) now → workerName wk ≠ "" →
  LeaseJob (workerName wk) leaseDuration now (Db (jobs d) (store_meta d) fs vs) = (Ok j, d') →
  deployed jobID actions vault wk j → c_flight c = ∅ →
  site_inv (Site d' now c (<[Attempt j := Run wk j [] (time_add now leaseDuration)]> xs)).
Proof.
  intros (Hd & Hmb & r & wk0 & j0 & h0 & Hr & Hx & Hev & Htr) Hin Hw HL Hdep Hfl. cbn [s_db s_now s_cluster s_runs] in *.
  destruct (LeaseJob_ok _ _ _ (Db (jobs d) (store_meta d) fs vs) _ _ (reachable_keyed _ _ Hd) HL)
    as (r0 & Hr0 & Hl & Hr' & Ha).
  rewrite (proj1 Hdep) in Hr0, Hr'. cbn [jobs] in Hr0. rewrite Hr in Hr0. injection Hr0 as <-.
  destruct (run_op_row d (OpLeaseJob (workerName wk) leaseDuration) now fs vs r Hd Hw Hin Hr) as [Hd' _].
  cbn [run_op] in Hd'. rewrite HL in Hd'.
  assert (xs !! Attempt j = None) as Hnew.
  { destruct (xs !! Attempt j) eqn:E; [|done]. destruct (Htr _ _ E) as (_ & _ & _ & ? & _). lia. }
  split; [done|]. split; [eapply minted_by_runs; [|done]; intros k; by apply executing_run_leased|].
  exists (lease_row (workerName wk) leaseDuration now r), wk, j, [].
  split_and!; [done|exact Hx|by eapply evolves_next|].
  intros i x Hi. cbn [s_runs s_now] in *. apply lookup_insert_Some in Hi as [[<- <-]|[Hne Hi]].
  - split_and!; [done..|apply Hdep|rewrite Ha; done|]. right. split; [|done]. unfold current. cbn [rn_worker rn_job rn_until].
    split_and!; [|done|apply Hin]. apply held_generation_iff. by rewrite Ha.
  - eapply tracked_leased; [apply Hin|exact Hl|done|by apply Htr].
Qed.

Lemma moves_inv s s' : moves s s' → site_inv s → site_inv s'.
Proof.
  intros Hm Hs. destruct Hm as [d now now' c xs Hle|d now c c' xs Hdr|d now c xs o fs vs Hok Hin Ho|
    d now c xs wk j fs vs d' Hin Hw HL Hdep Hfl|d now c xs i x a d' c' Hi Hpre Ht Hst Htell Hre].
  - destruct Hs as (Hd & Hmb & r & wk & j & h & Hr & Hx & Hev & Htr). split; [done|]. split; [done|]. exists r, wk, j, h.
    split_and!; [done..|]. intros i x Hi. eapply tracked_later; [exact Hle|by apply Htr].
  - destruct Hs as (Hd & Hmb & r & wk & j & h & Hr & Hx & Hev & Htr). split; [done|].
    split; [eapply minted_by_calmer; [by apply drift_calmer|done]|]. exists r, wk, j, h.
    split_and!; [done| |by eapply evolves_drift|done]. cbn [s_cluster] in *. rewrite <- Hx. by destruct Hdr.
  - destruct Hs as (Hd & Hmb & r & wk & j & h & Hr & Hx & Hev & Htr). cbn [s_db s_now s_cluster s_runs] in *.
    destruct (run_op_row d o now fs vs r Hd Hok Hin Hr) as (Hd' & r' & Hr' & H). split; [done|]. split; [done|].
    exists r', wk, j, h. destruct H as [->|H]; [done|].
    destruct (row_step_outside _ _ _ _ Ho H) as [He Hl]. split_and!; [done| |done|].
    + cbn [s_cluster]. by rewrite (same_exec_identity _ _ He).
    + intros i x Hi. specialize (Htr _ _ Hi). destruct Hl as [Hl|[Hl Ha]].
      * by eapply tracked_same.
      * eapply tracked_leased; [apply Hin|exact Hl|exact Ha|exact Htr].
  - by eapply mv_lease_inv.
  - by eapply mv_act_inv.
Qed.

Lemma opens_inv s : opens s → site_inv s.
Proof.
  intros (Hd & Hc & Hx & r & Hr & Hi). split; [done|]. split.
  { rewrite Hc. split; [done|]. intros n [[v Hn]|Hn]; cbn in Hn; [by rewrite lookup_empty in Hn|set_solver]. }
  destruct some_deployed as (wk & j & Hdep).
  exists r, wk, j, []. rewrite Hc, Hx. split_and!; [done..|by apply evolves_start|]. intros i x Hix.
  by rewrite lookup_empty in Hix.
Qed.

(** C1: one Job at a time, under three conditions: a call that creates a Job, or
    that takes or releases the execution identity, is answered before the lease
    of its attempt runs out; a Create of unknown outcome is persisted or lost
    before the job is leased again; and the Create of an L5-a Job is refused only
    while there is no such Job. Then, however else the attempts at a job overlap,
    stall, are cut short and repeated, whichever Creates are refused, fail or time
    out, and whatever else is asked of the store, with whatever failing
    statements: at any moment at most one Kubernetes Job of it runs or may yet
    run; none does under an execution identity that the store has released; and
    an attempt that neither closed the job nor outlived its lease is the one the
    store says holds it. (adopted_identity_released and running_l5a_released are
    runs without the first condition and without the third.) *)
Theorem one_job_at_a_time_overlapping s0 s :
  opens s0 → rtc moves s0 s →
  ∃ r, jobs (s_db s) !! jobID = Some r ∧
    (∀ n m, alive (s_cluster s) n → alive (s_cluster s) m → n = m) ∧
    (execution_id (r_exec r) = "" ∨ execution_terminal (r_exec r) = true → nothing_alive (s_cluster s)) ∧
    ∀ i x, s_runs s !! i = Some x → ¬ closed x → s_now s ≤ rn_until x →
      i = attempt (r_lease r) ∧ held_generation (workerName (rn_worker x)) i r = true.
Proof.
  intros Ho Hm.
  assert (site_inv s) as (_ & _ & r & wk & j & h & Hr & Hx & Hev & Htr).
  { apply opens_inv in Ho. induction Hm as [|s1 s2 s3 H _ IH]; [done|]. apply IH. by eapply moves_inv. }
  destruct (one_job_at_a_time _ _ _ _ _ _ _ Hev) as [Hone Hrel]. exists r. split_and!; [done..| |].
  - intros Hover. unfold store_identity in Hx. destruct (evolves_inv _ _ _ _ _ _ _ Hev) as (_ & s1 & _ & Hi & _).
    unfold identity_inv in Hi. rewrite Hx in Hi. case_bool_decide as He; [done|].
    destruct Hover as [?|Ht]; [done|]. by rewrite Ht in Hi.
  - intros i x Hi Hc Ht. destruct (Htr _ _ Hi) as (H1 & _ & _ & _ & [[H5|[H5 _]]|[(Hg & _) _]]); [done|lia|].
    rewrite H1 in Hg. split; [|done]. by apply held_generation_iff in Hg as (_ & Hn & _).
Qed.

End Overlap.

(** ** A concrete run *)

(** "w1" leases the job and creates the smoke-run Job; its lease runs out, "w2"
    leases the job, and the heartbeat of "w1" is refused. *)
Definition d_first : db := (LeaseJob "w1" leaseDuration (at_s 1) (Db (jobs d_created) (store_meta d_created) [] [])).2.
Definition first_job : Job :=
  match (LeaseJob "w1" leaseDuration (at_s 1) (Db (jobs d_created) (store_meta d_created) [] [])).1 with
  | Ok j => j
  | Err _ => sample_job 1 ""
  end.

#[local] Abbreviation tr_stale :=
  (attempt_trace env_lost sample_worker first_job 3 (λ _, true) (λ _, 0) (World d_first false 0 [])).
#[local] Abbreviation s_opened := (Site d_created (at_s 1) (Cluster None ∅ ∅) ∅).
#[local] Abbreviation Moves := (moves "job-1" [ActionSmokeRun] true).

Lemma stale_prefix h : h `suffix_of` tr_stale → attempt_prefix sample_worker first_job h.
Proof.
  intros Hh. exists env_lost, 3%nat, (λ _, true), (λ _, 0), (World d_first false 0 []).
  split; [apply env_lost_exclusive|]. split; [reflexivity|exact Hh].
Qed.

(** The first attempt when [k] of its actions are still to come. *)
Definition first_run (k : nat) : attempt_run :=
  Run sample_worker first_job (drop k tr_stale) (time_add (at_s 1) leaseDuration).

Lemma first_act k a d d' c c' t xs :
  drop k tr_stale = a :: drop (S k) tr_stale → lease_end a t (rn_until (first_run k)) = rn_until (first_run k) →
  xs !! 1 = Some (first_run (S k)) → (plain a = false → t ≤ rn_until (first_run k)) →
  store_part a t d d' → telling c a → react c a = Some c' →
  Moves (Site d t c xs) (Site d' t c' (<[1 := first_run k]> xs)).
Proof.
  intros Ha Hu Hx Ht Hs Htell Hr. assert (first_run k = proceed (first_run (S k)) a t) as ->.
  { unfold first_run, proceed in *. cbn in *. by rewrite Hu, Ha. }
  eapply mv_act; [exact Hx| |exact Ht|exact Hs|exact Htell|exact Hr]. cbn [rn_worker rn_job rn_done first_run].
  rewrite <- Ha. apply stale_prefix. exists (take k tr_stale). symmetry. apply take_drop.
Qed.

Tactic Notation "act_next" constr(k) tactic3(store) :=
  let x := eval vm_compute in (drop k tr_stale) in
  lazymatch x with
  | ?a :: _ =>
      eapply rtc_l; [eapply (first_act k a);
        [vm_compute; reflexivity|reflexivity|apply lookup_insert_eq|vm_compute; discriminate
        |store|exact I|vm_compute; reflexivity]|]
  end.

Lemma overlapping_run : ∃ s x1 x2,
  rtc Moves s_opened s ∧ s_now s = at_s 200 ∧
  c_jobs (s_cluster s) !! "smoke-job-1-a1-0000000000000007" = Some true ∧
  s_runs s !! 1 = Some x1 ∧ rn_until x1 < at_s 200 ∧ hd_error (rn_done x1) =
    Some (AStore (OpHeartbeat "job-1" "w1" 1 leaseDuration) (Some ErrNotFound)) ∧
  s_runs s !! 2 = Some x2 ∧ rn_worker x2 = second_worker ∧ rn_done x2 = [] ∧ at_s 200 ≤ rn_until x2.
Proof.
  eexists _, _, _. split.
  - eapply rtc_l; [eapply (mv_lease _ _ _ _ _ _ _ sample_worker first_job [] [] d_first)|].
    { in_range. } { discriminate. } { vm_compute. reflexivity. } { by split_and!. } { reflexivity. }
    change (Run sample_worker first_job [] (time_add (at_s 1) leaseDuration)) with (first_run 6).
    change (Attempt first_job) with 1.
    eapply rtc_l; [apply (mv_tick _ _ _ _ _ (at_s 10)); vm_compute; discriminate|].
    act_next 5%nat (reflexivity).
    act_next 4%nat (split; [in_range|exists [], [Some 7%N]; vm_compute; reflexivity]).
    act_next 3%nat (reflexivity).
    act_next 2%nat (reflexivity).
    eapply rtc_l; [apply (mv_tick _ _ _ _ _ (at_s 200)); vm_compute; discriminate|].
    eapply rtc_l; [eapply (mv_lease _ _ _ _ _ _ _ second_worker _ [] [])|].
    { in_range. } { discriminate. } { vm_compute. reflexivity. } { by split_and!. } { reflexivity. }
    eapply rtc_l; [eapply (first_act 1)|].
    { vm_compute. reflexivity. } { reflexivity. } { vm_compute. reflexivity. } { vm_compute. discriminate. }
    { split; [in_range|]. exists [], []. split; [exact I|]. split; [vm_compute; reflexivity|reflexivity]. }
    { exact I. } { vm_compute. reflexivity. }
    apply rtc_refl.
  - cbn [s_now s_cluster s_runs]. split_and!.
    + reflexivity.
    + vm_compute. reflexivity.
    + apply lookup_insert_eq.
    + vm_compute. reflexivity.
    + vm_compute. reflexivity.
    + vm_compute. reflexivity.
    + vm_compute. reflexivity.
    + vm_compute. reflexivity.
    + vm_compute. discriminate.
Qed.

Lemma one_job_at_a_time_overlapping_witness : ∃ s,
  rtc Moves s_opened s ∧ is_Some (s_runs s !! 1) ∧
  (∃ r, jobs (s_db s) !! "job-1" = Some r ∧ held_generation "w2" 2 r = true) ∧
  ∀ n, alive (s_cluster s) n → n = "smoke-job-1-a1-0000000000000007".
Proof.
  destruct overlapping_run as (s & x1 & x2 & Hm & Hnow & Hj & H1 & Hu1 & _ & H2 & Hw2 & Hd2 & Hu2).
  destruct (one_job_at_a_time_overlapping "job-1" [ActionSmokeRun] true s_opened s) as (r & Hr & Hone & _ & Hheld).
  - split_and!; [apply created_reachable|reflexivity|reflexivity|].
    exists (sample_row d_created). split; [apply sample_row_lookup; vm_compute; reflexivity|vm_compute; reflexivity].
  - exact Hm.
  - exists s. split; [exact Hm|]. split; [exists x1; exact H1|]. split.
    + exists r. split; [exact Hr|].
      destruct (Hheld 2 x2 H2) as [_ Hh]; [|rewrite Hnow; exact Hu2|rewrite Hw2 in Hh; exact Hh].
      intros (st & Hst & Hc). rewrite Hd2 in Hst. injection Hst as <-. discriminate.
    + intros n Hn. eapply Hone; [exact Hn|]. left. exact Hj.
Defined.

(** ** Without the timing assumption *)

(** The first attempt's context ends, it deletes its Job and sees it gone; before
    it releases the identity it stalls: its lease runs out, "w2" leases the job
    and adopts the execution. *)
Definition env_stalled (n : nat) : step_env := {|
  e_others := if bool_decide (n = 7%nat)
    then [Foreign (OpLeaseJob "w2" leaseDuration) (at_s 200) [] [];
          Foreign (OpEnsureExecution "job-1") (at_s 201) [] [Some 9%N]] else [];
  e_now := if (n <? 7)%nat then at_s 10 else at_s 202; e_ended := false; e_faults := []; e_rng := [Some 7%N]; e_create := None;
  e_get := Err (ApiError ApiNotFound "not found"); e_list := Ok []; e_pods := Ok []; e_delete := None;
  e_reports := Ok []; e_submit := None; e_event := EvDone true; e_rnd := λ _, 0; e_elapsed := 3 |}.

#[local] Abbreviation tr_stalled :=
  (attempt_trace env_stalled sample_worker first_job 3 (λ _, true) (λ _, 0) (World d_first false 0 [])).

Definition d_stalled : db :=
  w_db (process env_stalled sample_worker (λ _, true) 3 (λ _, 0) first_job (World d_first false 0 [])).2.

(** MarkExecutionTerminal is fenced by the identity, not by the lease. The first
    attempt, no longer the holder, still releases the identity that the second
    one has adopted and runs its Job under; the next EnsureExecution mints
    another beside it. *)
Lemma adopted_identity_released :
  (∃ h, did_after tr_stalled (AStore (OpMarkExecutionTerminal "job-1" "a1-0000000000000007") None)
     (AGet "smoke-job-1-a1-0000000000000007" (Err (ApiError ApiNotFound "not found")) :: h)) ∧
  (∃ r, jobs d_stalled !! "job-1" = Some r ∧ held_generation "w2" 2 r = true ∧
     execution_id (r_exec r) = "a1-0000000000000007" ∧ execution_terminal (r_exec r) = true) ∧
  (EnsureExecution "job-1" (at_s 500) (Db (jobs d_stalled) ∅ [] [Some 8%N])).1 = Ok ("a2-0000000000000008", false).
Proof.
  split_and!.
  - pick 2%nat tr_stalled. eexists. exact Hpick.
  - exists (sample_row d_stalled). split_and!; [apply sample_row_lookup|..]; vm_compute; reflexivity.
  - vm_compute. reflexivity.
Qed.
