(* ===== verification/Redelivery.v ===== *)
(** * Redelivery: what was not taken is sent again, unchanged

    The first delivery of a terminal record and its redelivery
    ([pkg/worker/delivery.go]) put together: the record that comes back from the
    table is the record whose first delivery failed. And the pool of goroutines
    in which retryPendingDeliveries redelivers a batch. *)

From S2P Require Import Prelude GoTime Errors Work Db Fingerprint Store StoreSpec StoreRun StoreStep.
From S2P Require Import Retry Names Failure World Worker Pipeline Protocol Attempt Stages Process.
From S2P Require Import AttemptSafe Codec WorkerSafe Instances RowInv RowRead Samples StoreDelivery StoreSafe System Service.

Section Stored.
Context {SO : SqlOrder} {AJ : ActionsJson} {DJ : DeliveryJson}.

(** ** The stored record *)

(** A claim hands out the record as it was stored. *)
Lemma claimed_payload id p limit ttl now d d1 js d2 j r :
  table_keyed (jobs d) → jobs d !! id = Some r → keeps_payload p r → history any_op d d1 →
  ClaimPendingDeliveries limit ttl now d1 = (Ok js, d2) → j ∈ js → JobID j = id →
  ResultDeliveryPayload j = p.
Proof.
  intros Hk Hr Hp Hh Hc Hj <-. pose proof (history_keyed _ _ _ Hk Hh) as Hk1.
  destruct (history_row_keep any_op (JobID j) (keeps_payload p)) with (d := d) (d' := d1) (r := r)
    as (r1 & Hr1 & _ & Hp1); [|done..|].
  { intros o t r1 r2 _. apply keeps_payload_step. }
  rewrite ClaimPendingDeliveries_body in Hc.
  destruct (in_tx_jobs "begin claim tx" (λ out : list Job, match out with
    | [] => "commit empty claim tx" | _ => "commit claim tx" end) (claim_body limit ttl now) d1)
    as [[_ Hok]|(js' & d3 & Hb & E)]; [by rewrite Hc in Hok|].
  rewrite Hc in E. injection E as <- _. apply claim_body_ok in Hb as [Hin _]; [|done].
  apply list_elem_of_lookup in Hj as [i Hi].
  destruct (Forall2_lookup_r _ _ _ _ _ Hin Hi) as (id & Hid & r2 & v & Hr2 & _ & Hscan).
  apply list_elem_of_lookup_2, select_ids_lookup in Hid as (r3 & Hr3 & Hcl); [|done].
  pose proof (scanJob_scanned _ _ Hscan) as Hs.
  assert (id = JobID j) as ->. { rewrite (sc_id _ _ Hs). symmetry. exact (Hk1 _ _ Hr2). }
  rewrite (sc_payload _ _ Hs). cbn [jobs next_stmt] in *.
  assert (r2 = r1) as -> by congruence. assert (r3 = r1) as -> by congruence.
  destruct Hp1 as [Hp1|Hp1]; [done|]. unfold claimable in Hcl. by rewrite Hp1 in Hcl.
Qed.

(** ** The first delivery *)

(** The store recorded that the delivery of job [id]'s record failed. *)
Definition failure_recorded (id p : string) (a : action) : Prop :=
  match a with
  | AStore (OpMarkFirstDeliveryPending id' _ _ p' _ _) None
  | AStore (OpMarkFirstDeliveryDeadLetter id' _ _ p' _) None => id' = id ∧ p' = p
  | _ => False
  end.

Lemma recorded_answer id p a now d d' :
  failure_recorded id p a → answers a now d d' → ∃ r, jobs d' !! id = Some r ∧ keeps_payload p r.
Proof.
  intros Hf Ha. destruct a as [o [e|]| | | | | | | | | | |]; try done; [by destruct o|].
  destruct Ha as (_ & He & ->).
  destruct o as [| | | | | | |id' w n p' le at_|id' w n p' le| | | | | | | |]; try done;
    destruct Hf as [-> ->]; cbn [op_error run_op] in *;
    (eapply fenced_none in He as (r & _ & _ & ->); [|reflexivity]); eexists; split; [done| |done|];
    (split; [done|by left]).
Qed.

Lemma recorded_kept id p a d l d' :
  table_keyed (jobs d) → logged d l d' → a ∈ l → failure_recorded id p a →
  ∃ r, jobs d' !! id = Some r ∧ keeps_payload p r.
Proof.
  intros Hk H. intros Hin Hf.
  assert (∀ d1 d2 r, table_keyed (jobs d1) → history any_op d1 d2 → jobs d1 !! id = Some r →
    keeps_payload p r → ∃ r', jobs d2 !! id = Some r' ∧ keeps_payload p r') as Hkeep.
  { intros d1 d2 r Hk1 Hh Hr Hp. eapply (history_row_keep any_op id (keeps_payload p)); try done.
    intros o t r1 r2 _. apply keeps_payload_step. }
  induction H as [|l d' f H IH Hok|l d' b now fs vs d'' H IH Hb|l d' b H IH Hb]; [by apply elem_of_nil in Hin|..];
    pose proof (history_keyed _ _ _ Hk (logged_history _ _ _ H)) as Hk'.
  - destruct (IH Hin) as (r & Hr & Hp). eapply Hkeep; [exact Hk'| |done..].
    by constructor; [constructor|..].
  - apply elem_of_cons in Hin as [->|Hin]; [by eapply recorded_answer|].
    destruct (IH Hin) as (r & Hr & Hp). destruct (answers_op _ _ _ _ Hb) as (o & Hok & ->).
    eapply Hkeep; [exact Hk'| |done..]. by constructor; [constructor|..].
  - apply elem_of_cons in Hin as [->|Hin]; [|by apply IH].
    destruct b as [[] e| | | | | | | | | | |]; done.
Qed.

(** An attempt records as failed the record it sent. *)
Lemma recorded_sent wk job h id p a :
  attempt_prefix wk job h → a ∈ h → failure_recorded id p a →
  id = JobID job ∧ ∃ b e, b ∈ h ∧ terminal_record b = true ∧ sent_as b p (Some e).
Proof.
  intros (E & rounds & vl & fo & w & HE & Hw & [k Hh]) (h2 & h1 & ->)%list_elem_of_split Hf.
  destruct (process_prun E wk job rounds vl fo HE w Hw) as [s Hs].
  destruct (prun_suffix wk job a h1 _ s Hs) as (s0 & s1 & H0 & H1).
  { exists (k ++ h2). change (w_trace _) with (attempt_trace E wk job rounds vl fo w).
    by rewrite Hh, app_assoc. }
  assert (p_lost s0 = false ∧ id = JobID job ∧ ∃ e, p_report s0 = Sent p (Some e)) as (Hl & -> & e & Hr).
  { unfold pstep in H1. destruct a as [o [e|]| | | | | | | | | | |]; try done; [by destruct o|].
    destruct (p_lost s0); [by destruct o|]. destruct (p_closed s0); [done|].
    destruct o as [| | | | | | |id' w' n p' le at_|id' w' n p' le| | | | | | | |]; try done;
      destruct Hf as [-> ->]; cbn [pstep_store] in H1;
      destruct (p_report s0) as [| | | |p0 [e|]|]; try done;
      case_bool_decide as Hp; try done; destruct Hp as (-> & _ & _ & -> & _); eauto. }
  split; [done|]. destruct (prun_sent _ _ _ _ _ _ H0 Hl Hr) as (b & Hb & Hb').
  exists b, e. split; [|done]. apply elem_of_app. right. by right.
Qed.

(** ** From the failed delivery to the redelivery *)

Definition record_plain (req : SubmitCheckRecordRequest + SubmitScanRecordRequest) : bool :=
  match req with inl r => check_plain r | inr r => scan_plain r end.

Lemma redelivery_sent b p e req :
  sent_as b p e → b = sent req e → record_plain req = true → redelivery p = Ok req.
Proof.
  intros Hb -> Hp. unfold redelivery. destruct req as [r|r]; cbn in Hb; destruct Hb as [-> _]; cbn in Hp;
    unfold check_payload, scan_payload;
    (rewrite json_delivery_roundtrip; [reflexivity|unfold delivery_plain; cbn; by rewrite Hp]).
Qed.

(** C30: a record that NodeVault did not take is sent again unchanged. When an
    attempt's terminal record failed and the store recorded that, then whatever
    happens until a redelivery loop claims the job, what it will send is the
    very record the attempt sent, at least when its texts are ASCII. *)
Theorem redelivered_as_sent att G d d1 i id p a d2 limit ttl now js d3 j :
  table_keyed (jobs d) → service_log att G d d1 → a ∈ acts_of i G → failure_recorded id p a →
  history any_op d1 d2 → ClaimPendingDeliveries limit ttl now d2 = (Ok js, d3) → j ∈ js → JobID j = id →
  id = JobID (att i).2 ∧
  ∃ req e, sent req (Some e) ∈ acts_of i G ∧ terminal_record (sent req (Some e)) = true ∧
    (record_plain req = true → redelivery (ResultDeliveryPayload j) = Ok req).
Proof.
  intros Hk [Hl Hatt] Ha Hf Hh Hc Hj Hid.
  assert (a ∈ G.*2) as HG.
  { unfold acts_of in Ha. apply list_elem_of_fmap in Ha as ([k b] & -> & Hin).
    apply list_elem_of_filter in Hin as [_ Hin]. apply list_elem_of_fmap. by exists (k, b). }
  destruct (recorded_kept _ _ _ _ _ _ Hk Hl HG Hf) as (r & Hr & Hp).
  pose proof (history_keyed _ _ _ Hk (logged_history _ _ _ Hl)) as Hk1.
  pose proof (claimed_payload _ _ _ _ _ _ _ _ _ _ _ Hk1 Hr Hp Hh Hc Hj Hid) as ->.
  destruct (recorded_sent _ _ _ _ _ _ (Hatt i) Ha Hf) as (-> & b & e & Hb & Ht & Hs). split; [done|].
  assert (∃ req, b = sent req (Some e)) as [req ->].
  { destruct b as [| | | | | | | | |r' e'|r' e'|]; try done; destruct Hs as [_ <-]; [by exists (inl r')|by exists (inr r')]. }
  exists req, e. split; [done|]. split; [done|]. intros Hplain. by eapply redelivery_sent.
Qed.

End Stored.

(** ** The pool of retryPendingDeliveries

    The loop over the claimed jobs starts a goroutine for each: it adds to the
    wait group, takes a place in the channel [sem], and starts; the goroutine
    redelivers its job, then gives its place back, then leaves the wait group.
    After the loop [wg.Wait] waits until the group is empty. The steps of the
    loop and of the goroutines interleave in any order. *)

Definition deliveryConcurrency : nat := 4.

Record pool := Pool {
  p_todo : list Job;        (* what the loop has not come to *)
  p_blocked : option Job;   (* counted in the group, waiting for a place *)
  p_running : list Job;     (* in redeliverOne *)
  p_leaving : list Job;     (* redelivered, place given back, still counted *)
  p_redelivered : list Job;
  p_sem : nat;              (* places taken *)
  p_group : nat;            (* the counter of the wait group *)
  p_returned : bool;
}.

Inductive pool_step : pool → pool → Prop :=
| pool_add j todo run leave done_ sem wg :
    pool_step (Pool (j :: todo) None run leave done_ sem wg false)
              (Pool todo (Some j) run leave done_ sem (S wg) false)
| pool_start j todo run leave done_ sem wg :
    (sem < deliveryConcurrency)%nat →
    pool_step (Pool todo (Some j) run leave done_ sem wg false)
              (Pool todo None (run ++ [j]) leave done_ (S sem) wg false)
| pool_redeliver j todo b run1 run2 leave done_ sem wg r :
    pool_step (Pool todo b (run1 ++ j :: run2) leave done_ (S sem) wg r)
              (Pool todo b (run1 ++ run2) (leave ++ [j]) done_ sem wg r)
| pool_leave j todo b run leave1 leave2 done_ sem wg r :
    pool_step (Pool todo b run (leave1 ++ j :: leave2) done_ sem (S wg) r)
              (Pool todo b run (leave1 ++ leave2) (done_ ++ [j]) sem wg r)
| pool_return run leave done_ sem :
    pool_step (Pool [] None run leave done_ sem 0 false) (Pool [] None run leave done_ sem 0 true).

Definition pool_init (claimed : list Job) : pool := Pool claimed None [] [] [] 0 0 false.

(** What the channel and the group count, and where the claimed jobs are. *)
Definition pool_ok (claimed : list Job) (s : pool) : Prop :=
  p_sem s = length (p_running s) ∧ (p_sem s ≤ deliveryConcurrency)%nat ∧
  p_group s = (length (option_list (p_blocked s)) + length (p_running s) + length (p_leaving s))%nat ∧
  p_todo s ++ option_list (p_blocked s) ++ p_running s ++ p_leaving s ++ p_redelivered s ≡ₚ claimed ∧
  (p_returned s = true → p_todo s = [] ∧ p_blocked s = None ∧ p_running s = [] ∧ p_leaving s = []).

Lemma pool_init_ok claimed : pool_ok claimed (pool_init claimed).
Proof. split_and!; cbn; try done; [lia|]. by rewrite !app_nil_r. Qed.

Lemma pool_step_ok claimed s s' : pool_step s s' → pool_ok claimed s → pool_ok claimed s'.
Proof.
  intros Hs (H1 & H2 & H3 & H4 & H5).
  destruct Hs as [j todo run leave dn sem wg|j todo run leave dn sem wg Hlt|j todo b run1 run2 leave dn sem wg r
    |j todo b run leave1 leave2 dn sem wg r|run leave dn sem];
    unfold pool_ok; cbn in *; rewrite ?length_app in *; cbn in *; split_and!; try done; try lia.
  - rewrite <- H4. solve_Permutation.
  - rewrite <- H4. solve_Permutation.
  - rewrite <- H4. solve_Permutation.
  - intros ->. destruct (H5 eq_refl) as (_ & _ & E & _). by apply app_nil in E as [_ ?].
  - rewrite <- H4. solve_Permutation.
  - intros ->. destruct (H5 eq_refl) as (_ & _ & _ & E). by apply app_nil in E as [_ ?].
  - intros _. split_and!; try done; apply length_zero_iff_nil; lia.
Qed.

(** What is left to do. *)
Definition pool_left (s : pool) : nat :=
  (4 * length (p_todo s) + 3 * length (option_list (p_blocked s)) + 2 * length (p_running s) +
   length (p_leaving s) + if p_returned s then 0 else 1)%nat.

Lemma pool_step_left s s' : pool_step s s' → (pool_left s' < pool_left s)%nat.
Proof. destruct 1; unfold pool_left; cbn; rewrite ?length_app; cbn; lia. Qed.

Lemma pool_progress claimed s :
  pool_ok claimed s → p_returned s = false → ∃ s', pool_step s s'.
Proof.
  destruct s as [todo b run leave dn sem wg r]. intros (H1 & H2 & H3 & _) Hr. cbn in *. subst r sem.
  destruct leave as [|j leave].
  2:{ cbn in H3. rewrite Nat.add_succ_r in H3. subst wg. eexists.
      exact (pool_leave j todo b run [] leave dn (length run) _ false). }
  destruct run as [|j run]; [|eexists; exact (pool_redeliver j todo b [] run [] dn (length run) wg false)].
  destruct b as [j|]; [eexists; by apply pool_start; cbn; unfold deliveryConcurrency; lia|].
  destruct todo as [|j todo]; [|eexists; apply pool_add]. cbn in H3. subst wg. eexists. apply pool_return.
Qed.

(** C31: the pool redelivers every claimed job exactly once. However the loop and
    its goroutines interleave, at most deliveryConcurrency jobs are in
    redeliverOne at a time; something can always happen until the function
    returns, which it does after at most four steps for each job and one; and
    then every claimed job was redelivered once and no goroutine is left. *)
Theorem pool_redelivers_all claimed n s :
  nsteps pool_step n (pool_init claimed) s →
  (length (p_running s) ≤ deliveryConcurrency)%nat ∧
  (p_returned s = false → ∃ s', pool_step s s') ∧
  (n ≤ 4 * length claimed + 1)%nat ∧
  (p_returned s = true → p_redelivered s ≡ₚ claimed ∧ p_running s = [] ∧ p_leaving s = []).
Proof.
  intros Hn. assert (∀ m s0 s1, nsteps pool_step m s0 s1 → pool_ok claimed s0 →
    pool_ok claimed s1 ∧ (m + pool_left s1 ≤ pool_left s0)%nat) as Hsteps.
  { induction 1 as [s0|m s0 s1 s2 Hs Hss IH]; intros Hok; [auto|].
    destruct (IH (pool_step_ok _ _ _ Hs Hok)) as [H1 H2]. pose proof (pool_step_left _ _ Hs).
    split; [done|lia]. }
  destruct (Hsteps _ _ _ Hn (pool_init_ok claimed)) as [Hok Hleft].
  pose proof Hok as (H1 & H2 & H3 & H4 & H5). split_and!.
  - by rewrite <- H1.
  - by eapply pool_progress.
  - unfold pool_left, pool_init in Hleft. cbn in Hleft. lia.
  - intros Hr. destruct (H5 Hr) as (E1 & E2 & E3 & E4). rewrite E1, E2, E3, E4 in H4. done.
Qed.

(** ** Concrete runs *)

(** NodeVault is down while "w1" runs its attempt. *)
Definition env_down (_ : nat) : step_env := {|
  e_others := []; e_now := at_s 10; e_ended := false; e_faults := []; e_rng := [Some 7%N];
  e_create := None; e_get := Ok [true_condition "Complete"]; e_list := Ok []; e_pods := Ok [];
  e_delete := None; e_reports := Ok []; e_submit := Some (ErrText "connection refused");
  e_event := EvPoll; e_rnd := λ _, 0; e_elapsed := 3 |}.

Lemma env_down_exclusive : conditions_exclusive env_down.
Proof. by intros n conds [= <-]. Qed.

#[local] Abbreviation down_attempt :=
  (process env_down sample_worker (λ _, true) 3 (λ _, 0) sample_leased start).
Definition down_log : list (nat * action) := pair 0%nat <$> w_trace down_attempt.2.
Definition d_down : db := after (w_db down_attempt.2) OpCheckWritable (at_s 400) [Some 9%N].
Definition down_claim : res error (list Job) := (ClaimPendingDeliveries 10 (30 * second) (at_s 500) d_down).1.

Definition recorded_failure (id : string) (a : action) : bool :=
  match a with
  | AStore (OpMarkFirstDeliveryPending id' _ _ _ _ _) None => bool_decide (id' = id)
  | _ => false
  end.
Definition sends_plain (a : action) : bool :=
  match a with ASubmitCheck r _ => check_plain r | ASubmitScan r _ => scan_plain r | _ => true end.

Lemma recorded_failure_found id l :
  existsb (recorded_failure id) l = true → ∃ a p, a ∈ l ∧ failure_recorded id p a.
Proof.
  intros (a & Ha & Hf)%existsb_exists. apply list_elem_of_In in Ha.
  destruct a as [o [e|]| | | | | | | | | | |]; try done; destruct o; try done.
  apply bool_decide_eq_true_1 in Hf as ->. by eexists _, _.
Qed.

Lemma down_log_served : service_log (λ _, (sample_worker, sample_leased)) down_log (w_db start) (w_db down_attempt.2).
Proof.
  split.
  - destruct (process_logged env_down ltac:(constructor) sample_worker ltac:(done) (λ _, true) 3 (λ _, 0)
      sample_leased start) as (l & Ht & Hl).
    unfold down_log. rewrite <- list_fmap_compose, list_fmap_id, Ht, app_nil_r. exact Hl.
  - intros i. unfold down_log. rewrite acts_of_tagged.
    exists env_down, 3%nat, (λ _, true), (λ _, 0), start. split; [apply env_down_exclusive|]. split; [done|].
    case_decide; [done|apply suffix_nil].
Qed.

Lemma one_claimed id (r : res error (list Job)) :
  match r with Ok [j] => bool_decide (JobID j = id) | _ => false end = true → ∃ j, r = Ok [j] ∧ JobID j = id.
Proof. destruct r as [[|j [|]]|]; try done. intros H%bool_decide_eq_true_1. by exists j. Qed.

Lemma claim_pair limit ttl now d js :
  (ClaimPendingDeliveries limit ttl now d).1 = Ok js →
  ClaimPendingDeliveries limit ttl now d = (Ok js, (ClaimPendingDeliveries limit ttl now d).2).
Proof. intros H. rewrite <- H. by destruct (ClaimPendingDeliveries limit ttl now d). Qed.

Lemma sends_plain_elem l req e :
  forallb sends_plain l = true → sent req e ∈ l → record_plain req = true.
Proof.
  rewrite forallb_forall. intros Hall Hin. apply list_elem_of_In in Hin. specialize (Hall _ Hin). by destruct req.
Qed.

Lemma redelivered_as_sent_witness :
  ∃ js j req e, down_claim = Ok js ∧ j ∈ js ∧ sent req (Some e) ∈ acts_of 0 down_log ∧
    redelivery (ResultDeliveryPayload j) = Ok req.
Proof.
  destruct (one_claimed "job-1" down_claim) as (j & Hc & Hj); [vm_compute; reflexivity|].
  destruct (recorded_failure_found "job-1" (acts_of 0 down_log)) as (a & p & Ha & Hf);
    [vm_compute; reflexivity|].
  destruct (redelivered_as_sent (λ _, (sample_worker, sample_leased)) down_log (w_db start)
    (w_db down_attempt.2) 0 "job-1" p a d_down 10 (30 * second) (at_s 500) [j] _ j
    (reachable_keyed op_in_range _ leased_reachable) down_log_served Ha Hf
    (history_after any_op _ _ OpCheckWritable (at_s 400) [Some 9%N] (history_refl any_op _) I I)
    (claim_pair _ _ _ _ _ Hc) (list_elem_of_here _ _) Hj)
    as (_ & req & e & Hin & _ & Hplain).
  exists [j], j, req, e. split; [exact Hc|]. split; [by left|]. split; [exact Hin|].
  apply Hplain. eapply sends_plain_elem; [|exact Hin]. vm_compute. reflexivity.
Defined.

Lemma pool_redelivers_all_witness :
  ∃ n s, nsteps pool_step n (pool_init [sample_leased; sample_leased]) s ∧ p_returned s = true ∧
    p_redelivered s ≡ₚ [sample_leased; sample_leased].
Proof.
  set (j := sample_leased).
  assert (nsteps pool_step 9 (pool_init [j; j]) (Pool [] None [] [] [j; j] 0 0 true)) as Hn.
  { eapply nsteps_l; [apply pool_add|]. eapply nsteps_l; [apply pool_start; unfold deliveryConcurrency; lia|].
    eapply nsteps_l; [apply pool_add|]. eapply nsteps_l; [apply pool_start; unfold deliveryConcurrency; lia|].
    eapply nsteps_l; [exact (pool_redeliver j [] None [] [j] [] [] 1 2 false)|].
    eapply nsteps_l; [exact (pool_leave j [] None [j] [] [] [] 1 1 false)|].
    eapply nsteps_l; [exact (pool_redeliver j [] None [] [] [] [j] 0 1 false)|].
    eapply nsteps_l; [exact (pool_leave j [] None [] [] [] [j] 0 0 false)|].
    eapply nsteps_l; [apply pool_return|]. constructor. }
  exists 9%nat, (Pool [] None [] [] [j; j] 0 0 true). split; [exact Hn|]. split; [reflexivity|].
  destruct (pool_redelivers_all [j; j] 9 _ Hn) as (_ & _ & _ & H). by destruct (H eq_refl) as [H' _].
Defined.
