(* ===== verification/Shared.v ===== *)
(** * Shared: steps on a store that others use too

    At every step of an attempt, or of a loop, the other users of the store act
    first. What holds between the tables before and after each of their
    operations holds across them all. Also the clock that the steps read. *)

From S2P Require Import Prelude GoTime Errors Work Db Fingerprint Store StoreSpec StoreRun StoreStep.
From S2P Require Import Retry Names Failure World Worker Pipeline RowRead.

Section Shared.
Context {SO : SqlOrder} {AJ : ActionsJson} {DJ : DeliveryJson}.
Context (E : nat → step_env).

Definition clock (n : nat) : instant := e_now (E n).

(** ** The others *)

Class Others (R : db → db → Prop) : Prop :=
  others_do n : Forall (λ f, ∀ d, R d (run_foreign f d)) (e_others (E n)).

(** A store call is recorded. *)
Lemma call_records {A} c act (m : instant → M A) w :
  w_trace (store_call E c act m w).2 = act (store_call E c act m w).1 :: w_trace w.
Proof.
  unfold store_call, step. destruct c; cbn; by match goal with |- context [m ?t ?d] => destruct (m t d) end.
Qed.

Section Relation.
Context (R : db → db → Prop) {HR : PreOrder R} {HO : Others R}.

Lemma others_through fs d : Forall (λ f, ∀ d, R d (run_foreign f d)) fs → R d (foldl (λ d f, run_foreign f d) d fs).
Proof.
  intros Hfs. revert d. induction Hfs as [|f fs Hf _ IH]; intros d; [done|]. etrans; [apply Hf|apply IH].
Qed.

Lemma step_through w : ∃ d',
  step E w = (E (w_step w), World d' (w_lost w) (S (w_step w)) (w_trace w)) ∧ R (w_db w) d'.
Proof. eexists. split; [reflexivity|]. apply others_through, others_do. Qed.

(** A store call acts on the table as the others left it. *)
Lemma store_call_through {A} c act (m : instant → M A) w : ∃ d1 fs vs, R (w_db w) d1 ∧
  w_db (store_call E c act m w).2 = (m (clock (w_step w)) (Db (jobs d1) (store_meta d1) fs vs)).2 ∧
  w_step (store_call E c act m w).2 = S (w_step w).
Proof.
  unfold store_call, clock. destruct (step_through w) as (d1 & -> & Hd1). exists d1. destruct c; cbn;
    match goal with |- context [m ?t (Db _ _ ?fs ?vs)] => exists fs, vs; by destruct (m t (Db _ _ fs vs)) end.
Qed.

(** On a context that is not cancelled, the loop's for instance, it is the store
    that answers. *)
Lemma store_call_open {A} c act (m : instant → M A) w :
  c ≠ AttemptCtx → e_ended (E (w_step w)) = false → ∃ d1,
  let d := Db (jobs d1) (store_meta d1) (e_faults (E (w_step w))) (e_rng (E (w_step w))) in
  let a := m (clock (w_step w)) d in
  R (w_db w) d1 ∧
  store_call E c act m w = (a.1, World a.2 (w_lost w) (S (w_step w)) (act a.1 :: w_trace w)).
Proof.
  intros Hc He. unfold store_call, clock. destruct (step_through w) as (d1 & -> & Hd1). exists d1. split; [done|].
  destruct c; [done|..]; cbn; rewrite ?He; by destruct (m _ _).
Qed.

Lemma api_call_open {A} c (reply : step_env → res error A) act w :
  c ≠ AttemptCtx → e_ended (E (w_step w)) = false → ∃ d1,
  R (w_db w) d1 ∧
  api_call E c reply act w =
    (reply (E (w_step w)), World d1 (w_lost w) (S (w_step w)) (act (reply (E (w_step w))) :: w_trace w)).
Proof.
  intros Hc He. unfold api_call, mbind, W_bind. destruct (step_through w) as (d1 & -> & Hd1). exists d1.
  split; [done|]. destruct c; [done|..]; cbn; by rewrite ?He.
Qed.

Lemma wait_through w : R (w_db w) (w_db (wait_or_done E w).2) ∧
  w_step (wait_or_done E w).2 = S (w_step w) ∧ w_trace (wait_or_done E w).2 = w_trace w.
Proof. unfold wait_or_done, mbind, W_bind. by destruct (step_through w) as (d1 & -> & Hd1). Qed.

Lemma wait_open w : e_ended (E (w_step w)) = false → (wait_or_done E w).1 = None.
Proof.
  intros He. unfold wait_or_done, mbind, W_bind. destruct (step_through w) as (d1 & -> & _). cbn.
  unfold ctx_err. rewrite He. by destruct (e_event _).
Qed.
End Relation.

(** ** The clock *)

(** It never goes back and stays between 1970 and 2116. *)
Record clock_ok : Prop := {
  ck_next n : clock n ≤ clock (S n);
  ck_range n : 0 ≤ clock n ≤ 2 ^ 62;
}.

Section Clock.
Context (CK : clock_ok).

Lemma clock_mono n m : (n ≤ m)%nat → clock n ≤ clock m.
Proof. induction 1 as [|m _ IH]; [done|]. pose proof (ck_next CK m). lia. Qed.

Lemma horizon_in_range t : 0 ≤ t ≤ 2 ^ 62 + 10 * minute → ts_in_range t.
Proof. apply ts_in_range_between; vm_compute; split; discriminate. Qed.

Lemma clock_later n delay : 0 ≤ delay ≤ 10 * minute → ts_in_range (time_add (clock n) delay).
Proof. intros Hd. apply horizon_in_range. pose proof (ck_range CK n). unfold time_add. lia. Qed.

Lemma clock_in_range n : ts_in_range (clock n).
Proof. apply horizon_in_range. pose proof (ck_range CK n). unfold minute, second. lia. Qed.
End Clock.

End Shared.

Lemma run_op_reachable {SO : SqlOrder} {AJ : ActionsJson} o now d fs vs :
  reachable op_in_range d → op_ok o → op_in_range o now →
  reachable op_in_range (run_op o now (Db (jobs d) (store_meta d) fs vs)).
Proof. intros (f & v & H) Hok Hin. exists f, v. by constructor. Qed.
