(* ===== verification/Own.v ===== *)
(** * Own: the operations of an attempt

    Every call of an attempt to the store is one of nine operations on its own
    job, in range of the text of the timestamps. What such operations, what the
    others do in between and what leaves the store alone respect, the whole
    attempt respects. *)

From S2P Require Import Prelude GoTime Errors Work Db Fingerprint Store StoreSpec StoreRun StoreStep.
From S2P Require Import Retry Names Failure World Worker Pipeline RowRead StoreDelivery Follow Shared.

Section Own.
Context {SO : SqlOrder} {AJ : ActionsJson} {DJ : DeliveryJson}.
Context (E : nat → step_env) (CK : clock_ok E) (Hrnd : ∀ n, int63n_ok (e_rnd (E n))).
Context (wk : worker) (Hwk : workerName wk ≠ "").
#[local] Abbreviation clock := (clock E).

Section Job.
Context (job : Job).

Inductive attempt_op : op → Prop :=
| at_heartbeat : attempt_op (OpHeartbeat (JobID job) (workerName wk) (Attempt job) leaseDuration)
| at_complete s : attempt_op (OpCompleteJob (JobID job) (workerName wk) (Attempt job) s)
| at_fail le rt delay : delay ≤ RetryMaxDelay → attempt_op (OpFailJob (JobID job) (workerName wk) (Attempt job) le rt delay)
| at_claim : attempt_op (OpClaimTerminal (JobID job) (workerName wk) (Attempt job))
| at_first_pending p le n m :
    attempt_op (OpMarkFirstDeliveryPending (JobID job) (workerName wk) (Attempt job) p le
      (time_add (clock n) (backoffDuration 1 (e_rnd (E m)))))
| at_first_dead p le : attempt_op (OpMarkFirstDeliveryDeadLetter (JobID job) (workerName wk) (Attempt job) p le)
| at_mark x : attempt_op (OpMarkExecutionTerminal (JobID job) x)
| at_get : attempt_op (OpGetJob (JobID job))
| at_ensure : attempt_op (OpEnsureExecution (JobID job)).

Lemma attempt_op_ok o : attempt_op o → op_ok o.
Proof. by destruct 1. Qed.

Lemma attempt_op_in_range o n : attempt_op o → op_in_range o (clock n).
Proof.
  intros Ho. split; [apply (clock_in_range E CK)|]. destruct Ho as [| | | |p le n' m'| | | |]; try exact I.
  - apply (clock_later E CK). unfold leaseDuration, minute, second. lia.
  - destruct (backoffDuration_bounds 1 _ (Hrnd m')) as (Hb & Hb' & _). apply (clock_later E CK).
    unfold deliveryBaseBackoff, deliveryMaxBackoff, minute, second in *. lia.
Qed.

Lemma attempt_op_only o now id r r' :
  attempt_op o → row_step o now id r r' → id = JobID job ∧ ∃ r0 r1, r = Some r0 ∧ r' = Some r1.
Proof. intros Ho Hs. destruct Ho; inversion Hs; subst; split; try done; by eexists _, _. Qed.

(** A preorder that an attempt respects on account of what its calls do to the
    store. *)
Class OnStore (R : world → world → Prop) : Prop := {
  on_preorder :: PreOrder R;
  on_step : Does R (step E);
  on_record a : Does R (record a);
  on_lost b : Does R (set_lost b);
  on_store {A} c (act : res error A → action) (m : instant → M A) o :
    attempt_op o → (∀ now d, (m now d).2 = run_op o now d) → Does R (store_call E c act m);
}.

Section OnStore.
Context (R : world → world → Prop) {HR : OnStore R}.

#[export] Instance on_store_acts : Acts E wk job R.
Proof.
  split; [split; [apply on_step|intros a _; apply on_record]| |].
  - intros J [HI HA]. unfold heartbeat. rewrite HI, HA. apply bind_does; [apply _|by eapply on_store; [constructor|]|].
    intros [[]|e]; [apply _|]. destruct (errors_is _ _); [apply on_lost|apply _].
  - intros A c J act m [HI HA] Hm. destruct Hm; rewrite ?HI, ?HA.
    + by apply (on_store c _ _ _ at_claim).
    + apply (on_store c _ _ _ (at_first_pending p le n m)). done.
    + by apply (on_store c _ _ _ (at_first_dead p le)).
    + by apply (on_store c _ _ _ (at_mark x)).
    + by apply (on_store c _ _ _ at_get).
    + by apply (on_store c _ _ _ at_ensure).
Qed.

Lemma inc_on_store m : Does R (inc wk m).
Proof. unfold inc, metric_inc. destruct (withMetrics wk); [apply on_record|apply _]. Qed.

Lemma decideRetry_delay n class (J : Job) reason : rd_Delay (decideRetry (e_rnd (E n)) class J reason) ≤ RetryMaxDelay.
Proof.
  unfold decideRetry, retryDelayFor. destruct (retry_delay_range (Attempt J) _ (Hrnd n)) as [_ Hr].
  destruct class; try done; [|destruct (strings_contains _ _); [done|]]; by destruct (_ <=? _).
Qed.

#[export] Instance on_store_closes : Closes E wk job R.
Proof.
  split; [apply on_lost| |].
  - intros J n class reason [HI HA]. apply bind_does; [apply _| |intros _; apply inc_on_store].
    unfold FailJob_call. rewrite HI, HA. by eapply on_store; [apply at_fail, decideRetry_delay|].
  - intros J s [HI HA]. unfold complete_job. rewrite HI, HA. apply bind_does; [apply _|apply _|]. intros []; [apply _|].
    apply bind_does; [apply _|by eapply on_store; [apply at_complete|]|intros []; [apply inc_on_store|apply _]].
Qed.
End OnStore.
End Job.
End Own.
