(* ===== verification/Triple.v ===== *)
(** * Triple: what an attempt does while the store works

    Triples over the worlds of an attempt, in an environment in which the
    statements of the attempt succeed, for as long as the context of Run is not
    cancelled: a triple promises its postcondition of a part of the attempt that
    ends before. The other users of the store in its process, the redelivery
    loop, the ingress and the readiness probe, act at any time; what the
    Kubernetes API and NodeVault answer is left open. *)

From S2P Require Import Prelude GoTime Errors Work Db Fingerprint Store StoreSpec StoreRun StoreStep.
From S2P Require Import Retry Names Failure World Worker Pipeline Shared Protocol Attempt Stages Process.
From S2P Require Import AttemptSafe Codec WorkerSafe Instances RowInv RowRead Samples.
From S2P Require Import StoreLease StoreDelivery StoreExec System Follow.

(** What the redelivery loop, the ingress and the probe ask of the store. *)
Definition spares (o : op) : bool :=
  match o with
  | OpCreateJob _ | OpGetJob _ | OpListJobs _ | OpMarkResultDeliveryPending _ _ _ _
  | OpMarkResultDeliveryAcknowledged _ _ | OpMarkResultDeliveryDeadLetter _ _ _
  | OpClaimPendingDeliveries _ _ | OpCheckWritable => true
  | _ => false
  end.

Record store_works (e : step_env) : Prop := {
  sw_others : Forall (λ f, spares (f_op f) = true) (e_others e);
  sw_faults : e_faults e = [];
  sw_rng : ∃ v vs, e_rng e = Some v :: vs;
}.

Class StoreWorks (E : nat → step_env) : Prop := works n : store_works (E n).

(** No delivery of the job's record has failed yet. *)
Definition undelivered (r : row) : Prop := result_delivery_status (r_delivery r) = DeliveryNotApplicable.

(** They leave a job's lease, its terminal slot and its execution alone, and
    keep a record that is owed. *)
Record same_work (r r' : row) : Prop := {
  same_lease : r_lease r' = r_lease r;
  same_terminal : r_terminal r' = r_terminal r;
  same_exec : r_exec r' = r_exec r;
  same_undelivered : undelivered r → undelivered r';
  same_payload p : keeps_payload p r → keeps_payload p r';
}.

#[export] Instance same_work_preorder : PreOrder same_work.
Proof.
  split; [by intros r|]. intros r1 r2 r3 [] []. constructor; [congruence..| |]; eauto.
Qed.

(** What is said of a job's row and of what the attempt did holds on, whatever
    the others do and the attempt does beside it. *)
Class Stable (P : row → list action → Prop) : Prop :=
  stable r r' tr l : same_work r r' → P r tr → P r' (l ++ tr).

(** Of the row alone. *)
Class RowStable (P : row → Prop) : Prop := row_stable r r' : same_work r r' → P r → P r'.

Section Spares.
Context {SO : SqlOrder} {AJ : ActionsJson}.

Lemma spares_ok o : spares o = true → op_ok o.
Proof. by destruct o. Qed.

Lemma row_step_spares o now id r r' : spares o = true → row_step o now id (Some r) (Some r') → same_work r r'.
Proof.
  intros Ho Hs. constructor; [by inversion Hs; subst..| |intros p Hp; by eapply keeps_payload_step].
  unfold undelivered. intros Hu. inversion Hs; subst; try done; exfalso.
  all: try (take redeliveryFence Hf; apply redeliveryFence_true in Hf as (Hd & _); congruence).
  take claimable Hf. unfold claimable in Hf. by rewrite Hu in Hf.
Qed.

Definition spared (d d' : db) : Prop :=
  table_keyed (jobs d) → table_keyed (jobs d') ∧
  ∀ id r, jobs d !! id = Some r → ∃ r', jobs d' !! id = Some r' ∧ same_work r r'.

Lemma foreign_spared f d : spares (f_op f) = true → spared d (run_foreign f d).
Proof.
  intros Hf Hk.
  pose proof (run_op_step (f_op f) (f_now f) (Db (jobs d) (store_meta d) (f_faults f) (f_rng f)) (spares_ok _ Hf) Hk) as Hs.
  split; [by eapply table_step_keyed|]. intros id r Hr. cbn [jobs] in Hs.
  destruct (Hs id) as [E1|E1]; rewrite Hr in E1; [by exists r|].
  destruct (row_step_some _ _ _ _ _ E1) as [r' Er]. rewrite Er in E1. exists r'. split; [done|].
  by eapply row_step_spares.
Qed.

#[export] Instance spared_preorder : PreOrder spared.
Proof.
  split; [intros d Hk; split; [done|]; intros id r Hr; by exists r|]. intros d1 d2 d3 H1 H2 Hk1.
  destruct (H1 Hk1) as [Hk2 R1]. destruct (H2 Hk2) as [Hk3 R2]. split; [done|].
  intros id r Hr. destruct (R1 _ _ Hr) as (r1 & Hr1 & S1). destruct (R2 _ _ Hr1) as (r2 & Hr2 & S2).
  exists r2. split; [done|]. by etrans.
Qed.
End Spares.

(** ** The context of Run

    Once it is cancelled the calls of an attempt fail, so a triple speaks of an
    attempt, or of a part of one, that ends before. *)

Definition later (w w' : world) : Prop := (w_step w ≤ w_step w')%nat.

#[export] Instance later_preorder : PreOrder later.
Proof. unfold later. split; [intros w; lia|intros w1 w2 w3; lia]. Qed.

Section Later.
Context {SO : SqlOrder} {AJ : ActionsJson} {DJ : DeliveryJson}.
Context (E : nat → step_env).

(** The context was cancelled by the last step done. *)
Definition cut (w : world) : Prop := ∃ n, (n < w_step w)%nat ∧ e_ended (E n) = true.

Lemma cut_later w w' : later w w' → ¬ cut w' → ¬ cut w.
Proof. intros Hl Hw (n & Hn & He). apply Hw. exists n. unfold later in Hl. split; [lia|done]. Qed.

Lemma not_cut_at w n : (n < w_step w)%nat → ¬ cut w → e_ended (E n) = false.
Proof. intros Hn Hw. destruct (e_ended (E n)) eqn:He; [|done]. destruct Hw. by exists n. Qed.

#[export] Instance cut_dec w : Decision (cut w).
Proof.
  destruct (decide (Exists (λ n, e_ended (E n) = true) (seq 0 (w_step w)))) as [H|H]; rewrite Exists_exists in H.
  - left. destruct H as (n & Hn%elem_of_seq & He). exists n. split; [lia|done].
  - right. intros (n & Hn & He). apply H. exists n. rewrite elem_of_seq. split; [lia|done].
Qed.

#[export] Instance later_step : Does later (step E).
Proof. intros w. unfold later, step. cbn. lia. Qed.
#[export] Instance later_record a : Does later (record a).
Proof. intros w. unfold later. done. Qed.
#[export] Instance later_lost b : Does later (set_lost b).
Proof. intros w. unfold later. done. Qed.
#[export] Instance later_store {A} c act (m : instant → M A) : Does later (store_call E c act m).
Proof. intros w. unfold later, store_call, step. cbn. destruct (m _ _) as [r d']. cbn. lia. Qed.
#[export] Instance later_api {A} c (reply : step_env → res error A) act : Does later (api_call E c reply act).
Proof. intros w. unfold later, api_call, step, record, mbind, W_bind. cbn. lia. Qed.
#[export] Instance later_inc wk m : Does later (inc wk m).
Proof. unfold inc, metric_inc. destruct (withMetrics wk); apply _. Qed.

#[export] Instance later_quiet : Quiet E later.
Proof. split; apply _. Qed.

#[export] Instance later_acts wk job : Acts E wk job later.
Proof.
  split; [apply _| |intros; apply _]. intros J _. unfold heartbeat. apply bind_does; [apply _..|].
  intros [[]|e]; [apply _|]. destruct (errors_is _ _); apply _.
Qed.

#[export] Instance later_closes wk job : Closes E wk job later.
Proof.
  split; [apply _| |].
  - intros J n cl reason _. unfold FailJob_call. apply _.
  - intros J s _. unfold complete_job. apply bind_does; [apply _..|]. intros []; [apply _|].
    apply bind_does; [apply _..|]. intros [[]|e]; apply _.
Qed.

#[export] Instance later_complete wk J s : Does later (complete_job E wk J s).
Proof. apply (closes_complete E wk J later J s), _. Qed.
End Later.

(** Programs by their tests; Follow.v has the functions they call. *)
#[export] Hint Extern 3 (Does later _) =>
  cbn beta iota zeta;
  match goal with
  | |- Does _ (match ?x with _ => _ end) => destruct x
  | |- Does _ (let '_ := ?x in _) => destruct x
  end : typeclass_instances.

Section Parts.
Context {SO : SqlOrder} {AJ : ActionsJson} {DJ : DeliveryJson}.
Context (E : nat → step_env) (wk : worker).

#[export] Instance later_optional J b m k1 k2 : Does later m → Does later (optional_stage E wk J b m k1 k2).
Proof. intros Hm. unfold optional_stage. apply _. Qed.
#[export] Instance later_fail_attempt J st cmd cl reason : Does later (fail_attempt E wk J st cmd cl reason).
Proof. unfold fail_attempt, FailJob_call, noteClassification. apply _. Qed.
#[export] Instance later_failed J st cmd cl what e : Does later (failed E wk J st cmd cl what e).
Proof. unfold failed. apply _. Qed.
#[export] Instance later_send_check J sub : Does later (send_check E wk J sub).
Proof. unfold send_check, markCheckDeliveryPending. apply _. Qed.
#[export] Instance later_scan_pending J req e : Does later (markScanDeliveryPending E wk J req e).
Proof. unfold markScanDeliveryPending. apply _. Qed.
#[export] Instance later_delete n : Does later (deleteJob E n).
Proof. unfold deleteJob. apply _. Qed.
#[export] Instance later_not_created J id b b' s : Does later (l5a_not_created E wk J id b b' s).
Proof. unfold l5a_not_created, noteClassification. apply _. Qed.

Context (rounds : nat) (float_overflow : Z → Z).
#[export] Instance later_run_execution J plan x a : Does later (run_execution E wk rounds float_overflow J plan x a).
Proof. unfold run_execution. apply _. Qed.
#[export] Instance later_ensure_execution J plan : Does later (ensure_execution E wk rounds float_overflow J plan).
Proof. unfold ensure_execution. apply _. Qed.
End Parts.

(** ** Triples over worlds *)

Definition triple {A} (E : nat → step_env) (P : world → Prop) (m : W A) (Q : A → world → Prop) : Prop :=
  ∀ w, P w → ¬ cut E (m w).2 → Q (m w).1 (m w).2.

Section Rules.
Context (E : nat → step_env).

Lemma t_ret {A} (a : A) P (Q : A → world → Prop) : (∀ w, P w → Q a w) → triple E P (mret a) Q.
Proof. intros H w Hw _. by apply H. Qed.

Lemma t_bind {A B} (m : W A) (k : A → W B) P R (Q : B → world → Prop) :
  (∀ a, Does later (k a)) →
  triple E P m R → (∀ a, triple E (R a) (k a) Q) → triple E P (m ≫= k) Q.
Proof.
  intros HL Hm Hk w Hw. specialize (Hm w Hw). unfold mbind, W_bind. destruct (m w) as [a w']. intros Hc.
  apply Hk; [|done]. apply Hm. eapply cut_later; [apply HL|done].
Qed.

Lemma t_conseq {A} (m : W A) (P P' : world → Prop) (Q Q' : A → world → Prop) :
  triple E P m Q → (∀ w, P' w → P w) → (∀ a w, Q a w → Q' a w) → triple E P' m Q'.
Proof. intros Hm HP HQ w Hw Hc. apply HQ, Hm; [apply HP, Hw|done]. Qed.

(** A first part that answers [v] and establishes [R]. *)
Lemma t_then {A B} (m : W A) (k : A → W B) P (v : A) R (Q : B → world → Prop) :
  (∀ a, Does later (k a)) →
  triple E P m (λ a w, a = v ∧ R w) → triple E R (k v) Q → triple E P (m ≫= k) Q.
Proof.
  intros HL Hm Hk. eapply t_bind; [exact HL|exact Hm|]. intros a w [-> Hw]. by apply Hk.
Qed.

Lemma t_ok {A B} (P : A → world → Prop) (k : res error A → W B) (Q : B → world → Prop) :
  (∀ a, triple E (P a) (k (Ok a)) Q) → ∀ r, triple E (λ w, ∃ a, r = Ok a ∧ P a w) (k r) Q.
Proof. intros H r w (a & -> & Hw). by apply H. Qed.

Lemma t_pure {A} (φ : Prop) P (m : W A) Q : (φ → triple E P m Q) → triple E (λ w, φ ∧ P w) m Q.
Proof. intros H w [Hφ Hw]. by apply H. Qed.
End Rules.

Tactic Notation "t_bind" := eapply t_bind; [typeclasses eauto| |].
Tactic Notation "t_bind" uconstr(R) := eapply (t_bind _ _ _ _ R); [typeclasses eauto| |].
Tactic Notation "t_then" := eapply t_then; [typeclasses eauto| |].
Tactic Notation "t_then" uconstr(v) "," uconstr(R) := eapply (t_then _ _ _ _ v R); [typeclasses eauto| |].

Section Triple.
Context {SO : SqlOrder} {AJ : ActionsJson} {DJ : DeliveryJson}.
Context (E : nat → step_env) {HS : StoreWorks E}.
Context (wk : worker) (job : Job).
#[local] Abbreviation triple := (triple E).

(** The lease is not lost, and [P] holds of the job's row and of what was done. *)
Definition at_job (P : row → list action → Prop) (w : world) : Prop :=
  (w_lost w = false ∧ table_keyed (jobs (w_db w))) ∧
  ∃ r, jobs (w_db w) !! JobID job = Some r ∧ P r (w_trace w).

(** The attempt holds the job; [slot]: whether the terminal slot is taken;
    [ex]: the execution identity and whether it is terminal. *)
Definition working (slot : bool) (ex : option (string * bool)) (r : row) : Prop :=
  held_generation (workerName wk) (Attempt job) r = true ∧
  terminal_submitted (r_terminal r) = slot ∧ store_identity r = ex.

#[export] Instance working_stable slot ex : RowStable (working slot ex).
Proof.
  intros r r' [Hl Ht Hx _ _] (H1 & H2 & H3). unfold working, held_generation, generation, store_identity in *.
  by rewrite Hl, Ht, Hx.
Qed.

#[export] Instance others_spared : Others E spared.
Proof. intros n. eapply Forall_impl; [apply (sw_others _ (works n))|]. intros f Hf d. by apply foreign_spared. Qed.

Definition step_spared := step_through E spared.

Lemma api_call_healthy {A} c (reply : step_env → res error A) act w :
  w_lost w = false → ¬ cut E (api_call E c reply act w).2 → ∃ n w', api_call E c reply act w = (reply (E n), w') ∧
    spared (w_db w) (w_db w') ∧ w_lost w' = false ∧ w_trace w' = act (reply (E n)) :: w_trace w.
Proof.
  intros Hl Hc. apply (not_cut_at E _ (w_step w)) in Hc;
    [|unfold api_call, step, mbind, W_bind; destruct c; cbn; lia].
  unfold api_call, mbind, W_bind. destruct (step_spared w) as (d' & -> & Hd).
  destruct c; cbn [canceled w_lost mret W_ret]; rewrite ?Hl, ?Hc; by eexists _, _.
Qed.

(** The table as the others left it, and the call on it. *)
Lemma store_call_healthy {A} c (act : res error A → action) (m : instant → M A) w :
  w_lost w = false → ¬ cut E (store_call E c act m w).2 → ∃ now v vs d1 w', let d := Db (jobs d1) (store_meta d1) [] (Some v :: vs) in
    spared (w_db w) d1 ∧
    store_call E c act m w = ((m now d).1, w') ∧
    w_db w' = (m now d).2 ∧ w_lost w' = false ∧ w_trace w' = act (m now d).1 :: w_trace w.
Proof.
  intros Hl Hc. apply (not_cut_at E _ (w_step w)) in Hc;
    [|unfold store_call, step; destruct c; cbn; destruct (m _ _); cbn; lia].
  unfold store_call. destruct (step_spared w) as (d1 & -> & Hd).
  destruct (sw_rng _ (works (w_step w))) as (v & vs & Hrng). exists (e_now (E (w_step w))), v, vs, d1.
  destruct c; cbn [canceled w_lost mret W_ret]; rewrite ?Hl, ?Hc, (sw_faults _ (works _)), Hrng; cbn zeta;
    cbn [w_db w_step w_trace];
    (destruct (m _ _) as [r d']; eexists; split; [exact Hd|]; split; [reflexivity|]; cbn; rewrite ?Hl; done).
Qed.

(** *** Calls *)

Section State.
Context (P : row → list action → Prop) {HP : Stable P}.
#[local] Abbreviation here := (at_job P).

Lemma at_job_quiet w w' :
  here w → spared (w_db w) (w_db w') → w_lost w' = false → (∃ l, w_trace w' = l ++ w_trace w) → here w'.
Proof.
  intros ((Hl & Hk) & r & Hr & HPr) Hdb Hlost [l Ht]. destruct (Hdb Hk) as [Hk' Hrows].
  destruct (Hrows _ _ Hr) as (r' & Hr' & Hsame). split; [done|]. exists r'. split; [done|].
  rewrite Ht. by eapply stable.
Qed.

Lemma t_step : triple here (step E) (λ _, here).
Proof.
  intros w Hw _. destruct (step_spared w) as (d' & -> & Hd).
  eapply at_job_quiet; [exact Hw|exact Hd|apply Hw|by exists []].
Qed.

Lemma t_leaseLost : triple here leaseLost (λ b w, b = false ∧ here w).
Proof. intros w Hw _. split; [apply Hw|done]. Qed.

Lemma t_elapsed : triple here (elapsed_seconds E) (λ _ w, here w).
Proof.
  unfold elapsed_seconds. t_bind; [apply t_step|]. intros e. by apply t_ret.
Qed.

Lemma t_inc m : triple here (inc wk m) (λ _ w, here w).
Proof.
  intros w Hw _. unfold inc. destruct (withMetrics wk); [|done].
  eapply at_job_quiet; [exact Hw|intros Hk; split; [done|]; intros id r Hr; by exists r|apply Hw|by exists [AMetric m]].
Qed.

Lemma t_anything : triple here (select E) (λ _, here).
Proof.
  unfold select. t_bind; [apply t_step|]. intros e. by apply t_ret.
Qed.

Lemma t_api {A} c (reply : step_env → res error A) act (R : res error A → Prop) :
  (∀ n, R (reply (E n))) →
  triple here (api_call E c reply act) (λ r w, R r ∧ here w ∧ act r ∈ w_trace w).
Proof.
  intros HR w Hw Hc. destruct (api_call_healthy c reply act w (proj1 (proj1 Hw)) Hc) as (n & w' & -> & Hdb & Hl & Ht).
  split; [apply HR|]. split; [|cbn; rewrite Ht; by left].
  eapply at_job_quiet; [exact Hw|done..|]. eexists [_]. exact Ht.
Qed.
End State.

(** A store call that takes a row in [P] to one in [P' a]. *)
Definition takes {A} (m : instant → M A) (P : row → Prop) (P' : A → row → Prop) : Prop :=
  ∀ now d r, faults d = [] → (∃ v vs, rng d = Some v :: vs) → table_keyed (jobs d) →
  jobs d !! JobID job = Some r → P r →
  ∃ a d' r', m now d = (Ok a, d') ∧ table_keyed (jobs d') ∧ jobs d' !! JobID job = Some r' ∧ P' a r'.

Lemma t_store {A} c (act : res error A → action) (m : instant → M A) P {HP : Stable P} P' :
  (∀ tr, takes m (λ r, P r tr) (λ a r, P' a r (act (Ok a) :: tr))) →
  triple (at_job P) (store_call E c act m) (λ r w, ∃ a, r = Ok a ∧ at_job (P' a) w).
Proof.
  intros Hm w ((Hl & Hk) & r & Hr & HPr) Hc.
  destruct (store_call_healthy c act m w Hl Hc) as (now & v & vs & d1 & w' & Hsp & -> & Hdb & Hl' & Htr). cbv zeta in *.
  destruct (Hsp Hk) as [Hk1 Hrows]. destruct (Hrows _ _ Hr) as (r1 & Hr1 & Hsame).
  destruct (Hm (w_trace w) now (Db (jobs d1) (store_meta d1) [] (Some v :: vs)) r1) as (a & d' & r' & E1 & Hk' & Hr' & HP');
    [done|by eexists _, _|done..|exact (stable _ _ _ [] Hsame HPr)|].
  rewrite E1 in Hdb, Htr |- *. cbn [fst snd] in *. exists a. split; [done|]. split; [by rewrite Hdb|].
  exists r'. by rewrite Hdb, Htr.
Qed.

(** A fenced write whose fence holds. *)
Lemma takes_fenced msg e (p : row → bool) (f : instant → row → row) P (P' : unit → row → Prop) :
  (∀ r, P r → p r = true) → (∀ now r, r_ident (f now r) = r_ident r) → (∀ now r, P r → P' tt (f now r)) →
  takes (λ now, fenced msg e (JobID job) p (f now)) P P'.
Proof.
  intros Hp Hi Hf now d r Hfaults _ Hk Hr HP. rewrite fenced_run. unfold stmt_fault. rewrite Hfaults, Hr, Hp by done.
  eexists _, _, (f now r). split; [done|]. cbn. rewrite lookup_insert_eq. split; [by eapply table_keyed_insert|].
  split; [done|]. by apply Hf.
Qed.

Lemma heartbeat_takes slot ex ttl :
  takes (Heartbeat (JobID job) (workerName wk) (Attempt job) ttl) (working slot ex) (λ _, working slot ex).
Proof.
  apply (takes_fenced "heartbeat" ErrNotFound _ (heartbeat_row ttl)); [by intros r []|done|].
  intros now r (Hh & Ht & Hx). split; [|done].
  apply held_generation_iff in Hh as (H1 & H2 & H3). by apply held_generation_iff.
Qed.

Lemma CompleteJob_takes slot ex s :
  takes (CompleteJob (JobID job) (workerName wk) (Attempt job) s) (working slot ex)
    (λ _ r, status (r_lease r) = StatusSucceeded ∧ terminal_submitted (r_terminal r) = slot ∧ store_identity r = ex).
Proof.
  apply (takes_fenced "finish job" ErrNotFound _ (finish_row StatusSucceeded "" s)).
  - intros r (Hh & _). unfold held_generation in Hh. by apply andb_true_iff in Hh as [? _].
  - done.
  - by intros now r (_ & Ht & Hx).
Qed.

Lemma ClaimTerminal_takes ex :
  takes (ClaimTerminal (JobID job) (workerName wk) (Attempt job)) (working false ex)
    (λ b r, b = true ∧ working true ex r).
Proof.
  intros now d r Hf _ Hk Hr (Hh & Ht & Hx). rewrite ClaimTerminal_run. unfold stmt_fault. rewrite Hf, Hr, Ht.
  eexists _, _, _. split; [done|]. cbn. rewrite lookup_insert_eq. split; [by eapply table_keyed_insert|]. done.
Qed.

Lemma MarkExecutionTerminal_takes slot x b :
  x ≠ "" →
  takes (MarkExecutionTerminal (JobID job) x) (working slot (Some (x, b))) (λ _, working slot (Some (x, true))).
Proof.
  intros Hx now d r Hf _ Hk Hr (Hh & Ht & Hid). unfold store_identity in Hid.
  case_bool_decide as Hne; [done|]. injection Hid as Hid Hb.
  unfold MarkExecutionTerminal, mbind, M_bind, wrap. rewrite update_healthy, Hr by done.
  unfold executing. rewrite Hid, bool_decide_eq_true_2, bool_decide_eq_false_2 by done. cbn.
  eexists _, _, _. split; [done|]. cbn. rewrite lookup_insert_eq. split; [by eapply table_keyed_insert|].
  split; [done|]. split; [done|]. split; [done|].
  unfold store_identity. cbn. by rewrite Hid, bool_decide_eq_false_2.
Qed.

Lemma EnsureExecution_takes slot ex :
  takes (EnsureExecution (JobID job)) (working slot ex)
    (λ a r, a.1 ≠ "" ∧ working slot (Some (a.1, false)) r).
Proof.
  intros now d r Hf Hrng Hk Hr (Hh & Ht & Hx).
  pose proof (EnsureExecution_cases (JobID job) now d) as Hc.
  destruct (ensure_body_healthy (JobID job) now d r Hf Hr Hrng) as (x & d2 & Hb & Hf2).
  assert (EnsureExecution (JobID job) now d = (Ok x, d2)) as E1.
  { rewrite EnsureExecution_body, in_tx_healthy, Hb by done. unfold stmt_fault. by rewrite Hf2, next_stmt_no_faults. }
  rewrite E1 in Hc. destruct x as [e adopted]. destruct Hc as (r0 & Hr0 & Hc).
  rewrite Hr in Hr0. injection Hr0 as <-. exists (e, adopted), d2. cbn [fst].
  assert (table_keyed (jobs d2)) as Hk2.
  { pose proof (EnsureExecution_step (JobID job) now d) as Hs. rewrite E1 in Hs. by eapply table_step_keyed. }
  destruct (live_execution r) as [e0|] eqn:El.
  - destruct Hc as (-> & _ & Hj). apply live_execution_some in El as (E2 & E3 & E4).
    exists r. split_and!; [done..|by rewrite Hj|done|]. split; [done|]. split; [done|].
    unfold store_identity. by rewrite E2, E4, bool_decide_eq_false_2.
  - destruct Hc as (_ & [v ->] & Hj). exists (mint_row (minted (attempt (r_lease r)) v) now r).
    split_and!; [done..|by rewrite Hj, lookup_insert_eq|done|]. done.
Qed.

(** Calls whose answer does not matter. *)
Lemma t_any {A} P {HP : Stable P} c (reply : step_env → res error A) act :
  triple (at_job P) (api_call E c reply act) (λ _, at_job P).
Proof. eapply t_conseq; [by apply (t_api P (HP := HP) c reply act (λ _, True))|done|]. by intros r w (_ & ? & _). Qed.

(** ** A row and a delivery

    The job's row satisfies [P], and if [del], a terminal record was delivered. *)
Definition with_del (P : row → Prop) (del : bool) (r : row) (tr : list action) : Prop :=
  P r ∧ (del = true → ∃ req, sent req None ∈ tr ∧ terminal_record (sent req None) = true).

#[export] Instance with_del_stable P del : RowStable P → Stable (with_del P del).
Proof.
  intros HP r r' tr l Hs [HPr Hd]. split; [by eapply row_stable|]. intros Hdel.
  destruct (Hd Hdel) as (req & Hin & Hreq). exists req. split; [|done]. apply elem_of_app. by right.
Qed.

Lemma t_store_row {A} c (act : res error A → action) (m : instant → M A) P {HP : RowStable P} P' del :
  takes m P P' →
  triple (at_job (with_del P del)) (store_call E c act m) (λ r w, ∃ a, r = Ok a ∧ at_job (with_del (P' a) del) w).
Proof.
  intros Hm. apply (t_store c act m (with_del P del) (λ a, with_del (P' a) del)).
  intros tr now d r Hf Hrng Hk Hr [HPr Hd].
  destruct (Hm now d r Hf Hrng Hk Hr HPr) as (a & d' & r' & ? & ? & ? & ?). exists a, d', r'. split_and!; [done..|].
  split; [done|]. intros Hdel. destruct (Hd Hdel) as (req & Hin & Hreq). exists req. split; [by right|done].
Qed.

End Triple.

Abbreviation at_work job P del := (at_job job (with_del P del)).

(** A lemma on a state that the others respect, and the store call that a
    [takes] describes. *)
Tactic Notation "t_use" uconstr(lem) := eapply lem; try typeclasses eauto.
Tactic Notation "t_call" uconstr(lem) := t_use t_store_row; apply lem.
