(* ===== verification/Round.v ===== *)
(** * Round: one round of Run on a store that works

    Asked for a job, the store that works hands out one that is due, or none
    is. What the others do just before is any preorder on tables they respect. *)

From S2P Require Import Prelude GoTime Errors Work Db Fingerprint Store StoreSpec StoreRun StoreStep.
From S2P Require Import Retry Names Failure World Worker Pipeline Shared Follow.
From S2P Require Import RowInv RowRead StoreLease Triple.

Section Round.
Context {SO : SqlOrder} {AJ : ActionsJson} {DJ : DeliveryJson}.
Context (E : nat → step_env) {HS : StoreWorks E} (CK : clock_ok E).
Context (wk : worker) (Hwk : workerName wk ≠ "").
Context (valid_label_value : string → bool) (rounds : nat) (float_overflow : Z → Z).

#[local] Abbreviation clock := (clock E).
#[local] Abbreviation round := (Run_once E wk valid_label_value rounds float_overflow).

Lemma lease_in_range n : op_in_range (OpLeaseJob (workerName wk) leaseDuration) (clock n).
Proof. split; [apply (clock_in_range E CK)|]. apply (clock_later E CK). unfold leaseDuration, minute, second. lia. Qed.

(** In [w1], job [j], in [d0] the due row [r], is leased. *)
Record leased (w : world) (d0 : db) (j : Job) (r : row) (w1 : world) : Prop := {
  ls_row : jobs d0 !! JobID j = Some r;
  ls_due : leaseable (clock (w_step w)) r = true;
  ls_attempt : Attempt j = attempt (r_lease r) + 1;
  ls_jobs : jobs (w_db w1) = <[JobID j := lease_row (workerName wk) leaseDuration (clock (w_step w)) r]> (jobs d0);
  ls_reachable : reachable op_in_range (w_db w1);
  ls_step : w_step w1 = S (w_step w);
  ls_trace : ∃ l, w_trace w1 = l ++ w_trace w;
}.

(** In [w1], the store has answered that nothing in [d0] is due. *)
Record refused (w : world) (d0 : db) (w1 : world) : Prop := {
  rf_due id r : jobs d0 !! id = Some r → leaseable (clock (w_step w)) r = false;
  rf_jobs : jobs (w_db w1) = jobs d0;
  rf_reachable : reachable op_in_range (w_db w1);
  rf_step : w_step w1 = S (w_step w);
  rf_trace : ∃ l, w_trace w1 = l ++ w_trace w;
}.

Section Others.
Context (R : db → db → Prop) {HR : PreOrder R} {HO : Others E R}.

(** A round processes the job it leased, or waits. *)
Lemma round_splits w :
  e_ended (E (w_step w)) = false → (∀ d0, R (w_db w) d0 → reachable op_in_range d0) →
  ∃ d0, R (w_db w) d0 ∧
    ((∃ j r w1, leased w d0 j r w1 ∧
        round w = (None, (process E wk valid_label_value rounds float_overflow j w1).2)) ∨
     ∃ w1, refused w d0 w1 ∧ round w = wait_or_done E w1).
Proof.
  intros He HRr. unfold Run_once, ctx_Err, ctx_err, mbind, W_bind. rewrite He.
  destruct (store_call_open E R LoopCtx (did (OpLeaseJob (workerName wk) leaseDuration))
    (LeaseJob (workerName wk) leaseDuration) w ltac:(done) He) as (d0 & Hd0 & ->). exists d0. split; [done|].
  specialize (HRr _ Hd0). cbv zeta. rewrite (sw_faults _ (works _)).
  set (d := Db (jobs d0) (store_meta d0) [] (e_rng (E (w_step w)))).
  pose proof (LeaseJob_answers (workerName wk) leaseDuration (clock (w_step w)) d (reachable_keyed _ _ HRr)
    (λ id r, reachable_row_canonical d0 id r HRr) eq_refl (lease_in_range _)) as Ha.
  assert (reachable op_in_range (LeaseJob (workerName wk) leaseDuration (clock (w_step w)) d).2) as Hr1
    by exact (run_op_reachable (OpLeaseJob (workerName wk) leaseDuration) _ d0 _ _ HRr Hwk (lease_in_range _)).
  destruct (LeaseJob _ _ _ d) as [[j|e] d1]; cbn [fst snd] in Ha, Hr1 |- *; [left|right].
  - destruct Ha as (r & Hid & Hl & _ & Hj & _ & Hsc). pose proof (sc_attempt _ _ Hsc) as Hat.
    match goal with |- context [inc wk JobsLeased ?w0] => exists j, r, (inc wk JobsLeased w0).2;
      assert (w_db (inc wk JobsLeased w0).2 = d1 ∧ w_step (inc wk JobsLeased w0).2 = S (w_step w) ∧
        ∃ l, w_trace (inc wk JobsLeased w0).2 = l ++ w_trace w) as (Hdb & Hst & Htr)
        by (unfold inc, metric_inc; destruct (withMetrics wk); (split_and!; [done..|]); [by eexists [_; _]|by eexists [_]]);
      destruct (inc wk JobsLeased w0) as [u w1] end.
    cbn [fst snd] in *. split; [by constructor; rewrite ?Hdb|].
    by destruct (process E wk valid_label_value rounds float_overflow j w1).
  - destruct Ha as (_ & -> & Hno). eexists. split; [|reflexivity]. constructor; [exact Hno|done..|by eexists [_]].
Qed.
End Others.
End Round.
