(* ===== verification/Healthy.v ===== *)
(** * Healthy: an attempt that nothing disturbs succeeds

    The protocol says what an attempt must not do. Here is what it does when the
    store, the API server and NodeVault answer and the Job completes: whatever
    stages the job asked for, process finishes it as succeeded, releases its
    execution and delivers its terminal record. *)

From S2P Require Import Prelude GoTime Errors Work Db Fingerprint Store StoreSpec StoreRun StoreStep.
From S2P Require Import Retry Names Failure World Worker Pipeline Protocol Attempt Stages Process.
From S2P Require Import AttemptSafe Codec WorkerSafe Instances RowInv RowRead Samples.
From S2P Require Import StoreLease StoreDelivery StoreExec System Follow Triple.

(** ** An environment without disturbances *)

(** The worker's calls succeed, nobody else leases, each select polls, a Job that
    is looked up is complete, and the context of Run is not cancelled. No Job of
    the old naming scheme is left. *)
Record healthy_env (e : step_env) : Prop := {
  h_store : store_works e;
  h_create : e_create e = None;
  h_get : ∃ conds, e_get e = Ok conds ∧ decisive conds ≠ None ∧ ∀ c, decisive conds ≠ Some (c, false);
  h_list : e_list e = Ok [];
  h_submit : e_submit e = None;
  h_event : e_event e = EvPoll;
  h_open : e_ended e = false;
}.

Section Healthy.
Context {SO : SqlOrder} {AJ : ActionsJson} {DJ : DeliveryJson}.
Context (E : nat → step_env) (HE : ∀ n, healthy_env (E n)).
Context (wk : worker) (job : Job).

#[local] Abbreviation triple := (triple E).
#[local] Abbreviation at_work P del := (at_job job (with_del P del)).
#[local] Abbreviation working := (working wk job).

#[local] Instance healthy_works : StoreWorks E.
Proof. intros n. apply HE. Qed.

Lemma t_select P {HP : Stable P} :
  triple (at_job job P) (select E) (λ ev w, ev = EvPoll ∧ at_job job P w).
Proof.
  intros w Hw _. unfold select, mbind, W_bind. destruct (step_spared E w) as (d' & -> & Hd). cbn.
  rewrite (h_event _ (HE _)). split; [done|].
  apply (at_job_quiet job P w); [exact Hw|exact Hd|apply Hw|by exists []].
Qed.

(** *** The functions of the worker *)

#[local] Abbreviation on s ex del := (at_work (working s ex) del).

(** [m] answers [v] and leaves the state as given. *)
#[local] Abbreviation gives P m v P' := (triple P m (λ a w, a = v ∧ P' w)).

Definition about (J : Job) : Prop := JobID J = JobID job ∧ Attempt J = Attempt job.

Lemma heartbeat_gives J s ex del : about J → gives (on s ex del) (heartbeat E wk J) tt (on s ex del).
Proof.
  intros [HI HA]. unfold heartbeat. rewrite HI, HA.
  t_bind; [t_call heartbeat_takes|]. apply t_ok. intros []. by apply t_ret.
Qed.

Lemma stillLeased_gives J s ex del : about J → gives (on s ex del) (stillLeased E wk J) true (on s ex del).
Proof.
  intros HJ. unfold stillLeased. t_then; [apply t_leaseLost|]. cbn beta iota.
  t_then; [by apply heartbeat_gives|]. t_then; [apply t_leaseLost|]. by apply t_ret.
Qed.

Lemma claimTerminal_gives J ex del :
  about J → gives (on false ex del) (claimTerminal E wk J) true (on true ex del).
Proof.
  intros [HI HA]. unfold claimTerminal. rewrite HI, HA.
  t_bind; [t_call ClaimTerminal_takes|]. apply t_ok. intros b. apply t_ret.
  intros w (Hl & r & Hr & (-> & HP) & Hd). split; [done|]. split; [done|]. by exists r.
Qed.

(** A record that is sent is taken. *)
Lemma submit_gives P {HP : RowStable P} del c req (m : W (res error unit)) :
  m = match req with inl r => vault_check E c r | inr r => vault_scan E c r end →
  gives (at_work P del) m (Ok tt) (at_work P (del || terminal_record (sent req None))).
Proof.
  intros ->.
  assert (∀ act, (act (Ok tt) = sent req None) →
    gives (at_work P del) (api_call E c (λ e, as_result (e_submit e)) act) (Ok tt)
      (at_work P (del || terminal_record (sent req None)))) as H.
  { intros act Hact. eapply t_conseq; [apply (t_api E job (with_del P del) c _ act (λ r, r = Ok tt))|done|].
    - intros n. by rewrite (h_submit _ (HE n)).
    - intros r w (-> & (Hl & r0 & Hr & HPr & Hd) & Hin). split; [done|]. split; [done|]. exists r0. split; [done|].
      split; [done|]. intros [Hdel|Ht]%orb_true_iff; [by apply Hd|]. exists req. split; [by rewrite <- Hact|done]. }
  destruct req as [r|r]; by apply H.
Qed.

Lemma send_check_gives J sub P {HP : RowStable P} del :
  gives (at_work P del) (send_check E wk J sub) None (at_work P (del || terminal sub)).
Proof.
  unfold send_check. t_then; [by apply (submit_gives P del AttemptCtx (inl (check_request J sub)))|].
  by apply t_ret.
Qed.

Lemma submitCheckRecord_gives J sub s ex t :
  about J → terminal sub = t → (t = true → s = false) →
  gives (on s ex s) (submitCheckRecord E wk J sub) None (on (s || t) ex (s || t)).
Proof.
  intros HJ Ht Hs. unfold submitCheckRecord. t_then; [by apply stillLeased_gives|]. cbn [negb].
  rewrite Ht. destruct t.
  - rewrite Hs by done. cbn [orb]. t_then; [by apply claimTerminal_gives|]. cbn [negb].
    pose proof (send_check_gives J sub (working true ex) false) as H. by rewrite Ht in H.
  - pose proof (send_check_gives J sub (working s ex) s) as H. rewrite Ht, orb_false_r in H. by rewrite orb_false_r.
Qed.

Lemma mark_gives J c s x b del :
  about J → ExecutionID J = x → x ≠ "" →
  gives (on s (Some (x, b)) del) (markExecutionTerminal E c J) tt (on s (Some (x, true)) del).
Proof.
  intros [HI _] HX Hx. unfold markExecutionTerminal. rewrite HI, HX.
  t_bind; [by t_call MarkExecutionTerminal_takes|]. apply t_ok. intros []. by apply t_ret.
Qed.

Lemma create_gives P {HP : Stable P} dry spec :
  gives (at_job job P) (kube_create E AttemptCtx dry spec) (Ok tt) (at_job job P).
Proof.
  eapply t_conseq; [apply (t_api E job P _ _ _ (λ r, r = Ok tt))|done|by intros r w (? & ? & _)].
  intros n. by rewrite (h_create _ (HE n)).
Qed.

(** A lookup finds the Job complete. *)
Lemma get_gives P {HP : Stable P} c name :
  triple (at_job job P) (kube_get E c name)
    (λ r w, ∃ conds, r = Ok conds ∧ ((∃ x, decisive conds = Some (x, true)) ∧ at_job job P w)).
Proof.
  eapply t_conseq; [apply (t_api E job P _ _ _ (λ r, ∃ conds, r = Ok conds ∧ ∃ x, decisive conds = Some (x, true)))|done|].
  - intros n. destruct (h_get _ (HE n)) as (conds & Hg & Hne & Hno). exists conds. split; [done|].
    destruct (decisive conds) as [[x []]|]; [by exists x|by destruct (Hno x)|done].
  - intros r w ((conds & -> & Hx) & Hw & _). by exists conds.
Qed.

Context (valid_label_value : string → bool) (float_overflow : Z → Z).
Context (rounds : nat) (Hrounds : (0 < rounds)%nat).

(** With execution identity [x] in hand. *)
Section Execution.
Context (x : string) (Hx : x ≠ "").
#[local] Abbreviation J := (set_ExecutionID x job).
#[local] Abbreviation held s b := (on s (Some (x, b)) s).

Lemma J_about : about J.
Proof. done. Qed.

Lemma retire_gives s ex : gives (on s ex s) (retireLegacyExecutions E wk valid_label_value rounds job) (Ok tt) (on s ex s).
Proof.
  unfold retireLegacyExecutions. destruct (valid_label_value _); cbn [negb]; [|by apply t_ret].
  t_then.
  - eapply t_conseq; [apply (t_api E job (with_del (working s ex) s) _ _ _ (λ r, r = Ok []))|done|by intros r w (? & ? & _)].
    intros n. by rewrite (h_list _ (HE n)).
  - by apply t_ret.
Qed.

Lemma smoke_loop_gives s spec release confirmed :
  gives (held s false) (smoke_loop E wk rounds rounds J spec release confirmed) success
    (held s release).
Proof.
  destruct rounds as [|n]; [lia|]. cbn [smoke_loop].
  t_then; [t_use t_select|]. cbn beta iota. unfold smoke_poll.
  t_bind; [t_use get_gives|]. apply t_ok. intros conds. apply t_pure. intros [c ->].
  t_then tt, (held s release).
  - destruct release; [by apply mark_gives|by apply t_ret].
  - t_bind; [t_use (t_any E)|]. intros ?. by apply t_ret.
Qed.

Lemma runSmokeRun_gives s spec adopted release :
  gives (held s false) (runSmokeRun E wk rounds J spec adopted release) success (held s release).
Proof.
  unfold runSmokeRun. destruct adopted; [apply smoke_loop_gives|].
  t_then None, (held s false); [|apply smoke_loop_gives].
  unfold createSmokeJob. t_then; [t_use create_gives|]. by apply t_ret.
Qed.

Lemma waitL5aJob_gives s b name :
  triple (held s b) (waitL5aJob E wk rounds rounds J name)
    (λ r w, (r.1.2 = success ∧ r.2 = None) ∧ held s true w).
Proof.
  destruct rounds as [|n]; [lia|]. cbn [waitL5aJob].
  t_then; [t_use t_select|]. cbn beta iota. unfold l5a_poll.
  t_bind; [t_use get_gives|]. apply t_ok. intros conds. apply t_pure. intros [c ->].
  t_then; [by apply mark_gives|]. by apply t_ret.
Qed.

(** The L5-a stage; [t]: its record is the job's last. *)
Lemma runL5a_gives s b (t : bool) :
  vaultClient wk = true → (t = true → s = false) →
  gives (held s b) (runL5a E wk rounds J t) None (held (s || t) true).
Proof.
  intros Hv Hs. unfold runL5a. rewrite Hv. cbn [negb].
  t_then; [t_use create_gives|]. cbn beta iota. unfold l5a_observe.
  t_bind; [apply waitL5aJob_gives|]. intros [[code result] err]. apply t_pure. intros [_ Herr].
  cbn in Herr. subst err. t_bind; [t_use (t_elapsed E)|]. intros dur.
  t_then; [apply t_leaseLost|]. cbn beta iota.
  t_bind; [t_use (t_any E)|]. intros ?. by apply submitCheckRecord_gives.
Qed.

Lemma submit_scan_gives b req :
  sr_Terminal req = true →
  gives (held false b) (submit_scan E wk J req) None (held true b).
Proof.
  intros Ht. unfold submit_scan. t_then; [by apply stillLeased_gives|]. cbn [negb].
  t_then; [by apply claimTerminal_gives|]. cbn [negb].
  pose proof (submit_gives (working true (Some (x, b))) false AttemptCtx (inr req) _ eq_refl) as H.
  cbn [sent terminal_record] in H. rewrite Ht in H. t_then; [exact H|]. by apply t_ret.
Qed.

Lemma runL5b_gives b :
  vaultClient wk = true → gives (held false b) (runL5b E wk float_overflow J) None (held true b).
Proof.
  intros Hv. unfold runL5b, submitNotAvailableScanRecord. rewrite Hv. cbn [negb].
  destruct (dynamicKube wk); cbn [negb]; [|by apply submit_scan_gives].
  t_bind; [t_use (t_any E)|]. intros [items|e]; [|by apply submit_scan_gives].
  destruct (matching_report _ _ _) as [summary|]; [|by apply submit_scan_gives].
  destruct (bool_decide _); by apply submit_scan_gives.
Qed.

Lemma optional_stage_gives s b s' b' planned run m1 m2 :
  Does later run →
  (planned = true → gives (held s b) run None (held s' b')) →
  (planned = false → s' = s ∧ b' = b) →
  gives (held s b) (optional_stage E wk J planned run m1 m2) (Some None) (held s' b').
Proof.
  intros Hlater Hrun Hno. unfold optional_stage. destruct planned; cbn [negb].
  - t_then; [by apply stillLeased_gives|]. cbn [negb].
    t_then; [by apply Hrun|]. t_then; [apply t_leaseLost|]. cbn beta iota.
    t_bind; [t_use t_inc|]. intros ?. by apply t_ret.
  - destruct (Hno eq_refl) as [-> ->]. by apply t_ret.
Qed.

(** The job's row in the end. *)
Definition succeeded (y : string) (r : row) : Prop :=
  status (r_lease r) = StatusSucceeded ∧ terminal_submitted (r_terminal r) = vaultClient wk ∧
  store_identity r = Some (y, true).

#[local] Instance succeeded_stable y : RowStable (succeeded y).
Proof. intros r r' [Hl Ht Hex _ _] H. unfold succeeded, store_identity in *. by rewrite Hl, Ht, Hex. Qed.

Lemma complete_job_gives s del summary :
  s = vaultClient wk → triple (on s (Some (x, true)) del) (complete_job E wk J summary) (λ _, at_work (succeeded x) del).
Proof.
  intros ->. unfold complete_job. t_then; [apply t_leaseLost|]. cbn beta iota.
  t_bind (λ r w, ∃ a, r = Ok a ∧ at_work (succeeded x) del w); [t_call (CompleteJob_takes wk job)|].
  apply t_ok. intros []. t_use t_inc.
Qed.

(** After L4; [s]: L4 was the last stage and its record was sent. *)
Lemma finishAfterL4_gives s b plan :
  s = vaultClient wk && negb (runL5a_ plan) && negb (runL5b_ plan) →
  (runL5a_ plan && vaultClient wk = false → b = true) →
  triple (held s b) (finishAfterL4 E wk rounds float_overflow J plan (runL5a_ plan && negb (runL5b_ plan)))
    (λ _, at_work (succeeded x) (vaultClient wk)).
Proof.
  intros Hs Hb. unfold finishAfterL4.
  t_then (Some None), (held (vaultClient wk && negb (runL5b_ plan)) true).
  - apply optional_stage_gives; [apply _|..]; intros HA; rewrite HA in *; cbn [andb negb] in *.
    + destruct (vaultClient wk) eqn:Hv; cbn in Hs; subst s.
      * by apply (runL5a_gives false).
      * rewrite (Hb eq_refl). unfold runL5a. rewrite Hv. by apply t_ret.
    + rewrite andb_true_r in Hs. split; [done|]. symmetry. by apply Hb.
  - t_then (Some None), (held (vaultClient wk) true); [|by apply complete_job_gives].
    apply optional_stage_gives; [apply _|..]; intros HB; rewrite HB; cbn [negb].
    + rewrite andb_false_r. destruct (vaultClient wk) eqn:Hv; [by apply runL5b_gives|].
      unfold runL5b. rewrite Hv. by apply t_ret.
    + by rewrite andb_true_r.
Qed.

Lemma reportTerminalSuccess_gives b st cmd :
  gives (held false b) (reportTerminalSuccess E wk J st cmd) tt (held (vaultClient wk) b).
Proof.
  unfold reportTerminalSuccess. destruct (vaultClient wk); cbn [negb]; [|by apply t_ret].
  t_then None, (held true b); [|by apply t_ret]. by apply (submitCheckRecord_gives J _ false _ true).
Qed.

Lemma run_l4_gives plan adopted :
  triple (held false false) (run_l4 E wk rounds float_overflow J plan adopted (runL5a_ plan && vaultClient wk))
    (λ _, at_work (succeeded x) (vaultClient wk)).
Proof.
  unfold run_l4. t_then; [apply runSmokeRun_gives|]. t_then; [apply t_leaseLost|].
  cbn [success o_success negb]. cbn beta iota.
  t_then tt, (held (vaultClient wk && negb (runL5a_ plan) && negb (runL5b_ plan))
    (negb (runL5a_ plan && vaultClient wk))).
  - destruct (runL5a_ plan), (runL5b_ plan); cbn [negb andb]; rewrite ?andb_false_r; try by apply t_ret.
    rewrite !andb_true_r. apply reportTerminalSuccess_gives.
  - apply finishAfterL4_gives; [done|]. by intros ->.
Qed.

Lemma run_execution_gives plan adopted :
  triple (held false false) (run_execution E wk rounds float_overflow job plan x adopted)
    (λ _, at_work (succeeded x) (vaultClient wk)).
Proof.
  assert (triple (held false false)
    (run_l3 E wk rounds float_overflow J plan adopted (runL5a_ plan && vaultClient wk))
    (λ _, at_work (succeeded x) (vaultClient wk))) as Hl3.
  { unfold run_l3. destruct adopted; [apply run_l4_gives|]. unfold runDryRun.
    t_then; [t_use create_gives|]. apply run_l4_gives. }
  unfold run_execution. destruct adopted; [|exact Hl3]. cbn [andb].
  destruct (runL5a_ plan && vaultClient wk) eqn:Hf; [|exact Hl3].
  t_then (Ok true), (held false false).
  - unfold Worker.jobExists. t_bind; [t_use get_gives|]. apply t_ok. intros conds.
    apply t_pure. intros _. by apply t_ret.
  - cbn beta iota. apply andb_true_iff in Hf as [HA Hv]. apply finishAfterL4_gives; rewrite HA, Hv; done.
Qed.

End Execution.

(** C4: an attempt that nothing disturbs succeeds. When no call of it fails,
    every Job looked up is Complete, every select finds its timer and neither a
    heartbeat nor the end of its context, no Job of the old naming scheme is left,
    the job is held by this attempt with its terminal slot free and its requested
    actions are known, then, whatever the redelivery loop, the ingress and the
    probes do to the store meanwhile, whatever stages are asked for and whether or
    not an execution is adopted, process finishes the job as succeeded: its
    execution is released, and, if there is a NodeVault, its terminal record was
    taken. *)
Theorem healthy_attempt_succeeds w r plan :
  planStages (RequestedActions job) = Ok plan → table_keyed (jobs (w_db w)) →
  jobs (w_db w) !! JobID job = Some r → held_generation (workerName wk) (Attempt job) r = true →
  terminal_submitted (r_terminal r) = false →
  let w' := (process E wk valid_label_value rounds float_overflow job w).2 in
  ∃ r' x, jobs (w_db w') !! JobID job = Some r' ∧ status (r_lease r') = StatusSucceeded ∧
    store_identity r' = Some (x, true) ∧
    (vaultClient wk = true → terminal_submitted (r_terminal r') = true ∧
       ∃ req, sent req None ∈ w_trace w' ∧ terminal_record (sent req None) = true).
Proof.
  intros Hplan Hk Hr Hh Ht. cbv zeta.
  assert (triple (on false (store_identity r) false) (process E wk valid_label_value rounds float_overflow job)
    (λ _ w', ∃ x, at_work (succeeded x) (vaultClient wk) w')) as Hproc.
  { unfold process. rewrite Hplan.
    t_then tt, (on false (store_identity r) false).
    { intros w0 ((_ & Hk0) & H1) _. by split. }
    assert (triple (on false (store_identity r) false) (ensure_execution E wk rounds float_overflow job plan)
      (λ _ w', ∃ x, at_work (succeeded x) (vaultClient wk) w')) as Hens.
    { unfold ensure_execution. t_bind; [t_call EnsureExecution_takes|]. apply t_ok.
      intros [x adopted]. intros w0 (Hl & r0 & Hr0 & (Hx & HP) & Hd) Hc.
      exists x. apply (run_execution_gives x Hx plan adopted); [|exact Hc]. split; [done|]. by exists r0. }
    destruct (bool_decide _); [|exact Hens].
    t_then; [apply retire_gives|exact Hens]. }
  destruct (Hproc (World (w_db w) false (w_step w) (w_trace w))) as (x & _ & r' & Hr' & (H1 & H2 & H3) & Hd).
  { split; [done|]. by exists r. }
  { intros (n & _ & He). by rewrite (h_open _ (HE n)) in He. }
  exists r', x. split; [exact Hr'|]. split; [done|]. split; [done|]. intros Hv. rewrite Hv in *.
  split; [done|]. by apply Hd.
Qed.

End Healthy.

(** ** A concrete run *)

Lemma env_ok_healthy n : healthy_env ((λ _ : nat, env_ok) n).
Proof.
  constructor; try reflexivity; [constructor; [constructor|reflexivity|by eexists _, _]|].
  exists [true_condition "Complete"]. split; [reflexivity|]. by split.
Qed.

Lemma healthy_attempt_succeeds_witness :
  ∃ r' x, jobs (w_db (process (λ _, env_ok) sample_worker (λ _, true) 3 (λ _, 0) sample_leased start).2)
      !! "job-1" = Some r' ∧ status (r_lease r') = StatusSucceeded ∧ store_identity r' = Some (x, true) ∧
    terminal_submitted (r_terminal r') = true.
Proof.
  destruct (healthy_attempt_succeeds (λ _, env_ok) env_ok_healthy sample_worker sample_leased (λ _, true)
    (λ _, 0) 3 ltac:(lia) start (sample_row d_leased) {| runL5a_ := false; runL5b_ := false |})
    as (r' & x & H1 & H2 & H3 & H4).
  - vm_compute. reflexivity.
  - exact (reachable_keyed _ _ leased_reachable).
  - apply sample_row_lookup. vm_compute. reflexivity.
  - vm_compute. reflexivity.
  - vm_compute. reflexivity.
  - exists r', x. split; [exact H1|]. split; [exact H2|]. split; [exact H3|].
    exact (proj1 (H4 eq_refl)).
Defined.
