(* ===== verification/Keeps.v ===== *)
(** * Keeps: an attempt from its lease to its end, by what it keeps

    What is said of the job's row and of what the attempt did holds on while
    the attempt works, until it reports, and then until it closes the job. The
    functions of an attempt are followed once, for any such states: the states
    before the report, after it and at the end are the parameters of a class,
    which Settles.v and Accounts.v fill in. *)

From S2P Require Import Prelude GoTime Errors Work Db Fingerprint Store StoreSpec StoreRun StoreStep.
From S2P Require Import Retry Names Failure World Worker Pipeline Protocol Attempt Stages Process.
From S2P Require Import AttemptSafe RowInv RowRead StoreLease StoreDelivery StoreExec Follow Triple.

(** Operations that leave the leases alone. *)
Definition leaves_leases (o : op) : bool :=
  match o with
  | OpGetJob _ | OpMarkFirstDeliveryPending _ _ _ _ _ _ | OpMarkFirstDeliveryDeadLetter _ _ _ _ _
  | OpEnsureExecution _ | OpMarkExecutionTerminal _ _ | OpClaimTerminal _ _ _ => true
  | _ => false
  end.

Lemma leaves_leases_step {SO : SqlOrder} {AJ : ActionsJson} o now id r r' :
  leaves_leases o = true → row_step o now id (Some r) (Some r') → r_lease r' = r_lease r.
Proof. intros Ho Hs. by inversion Hs; subst. Qed.

Section Keeps.
Context {SO : SqlOrder} {AJ : ActionsJson} {DJ : DeliveryJson}.
Context (E : nat → step_env) {HS : StoreWorks E}.
Context (wk : worker) (job : Job).
#[local] Abbreviation triple := (triple E).

Definition holds (r : row) : Prop := held_generation (workerName wk) (Attempt job) r = true.

Lemma held_is_own r : holds r → generation (workerName wk) (Attempt job) r = true.
Proof. unfold holds, held_generation. by intros [? _]%andb_true_iff. Qed.

(** A state of an attempt that holds its job and neither reports nor closes. *)
Class Kept (P : row → list action → Prop) : Prop := {
  kept_stable :: Stable P;
  kept_holds r tr : P r tr → holds r;
  kept_beat r tr ttl now : P r tr → P (heartbeat_row ttl now r) tr;
  kept_exec r tr f ts : P r tr → P (set_exec f ts r) tr;
}.

Definition keeps (P : row → list action → Prop) (w w' : world) : Prop :=
  later w w' ∧ (at_job job P w → ¬ cut E w' → at_job job P w').

#[export] Instance keeps_preorder P : PreOrder (keeps P).
Proof.
  split; [by intros w|]. intros w1 w2 w3 [L1 H1] [L2 H2]. split; [by etrans|].
  intros Hw Hc. apply H2, Hc. apply H1; [done|]. by eapply cut_later.
Qed.

Lemma t_keeps {A} P (m : W A) : Does (keeps P) m → triple (at_job job P) m (λ _, at_job job P).
Proof. intros H w. apply H. Qed.

Lemma keeps_triple {A} P (m : W A) {HL : Does later m} :
  triple (at_job job P) m (λ _, at_job job P) → Does (keeps P) m.
Proof. intros H w. split; [apply HL|apply H]. Qed.

(** A store call whose operation keeps the row in [P]. *)
Lemma store_keeps {A} P {HP : Stable P} c act (m : instant → M A) o :
  (∀ now d, table_step o now (jobs d) (jobs (m now d).2)) →
  (∀ now r r' tr, row_step o now (JobID job) (Some r) (Some r') → P r tr → P r' tr) →
  Does (keeps P) (store_call E c act m).
Proof.
  intros Hm Ho. apply keeps_triple; [apply _|]. intros w ((Hl & Hk) & r & Hr & HPr) Hc.
  destruct (store_call_healthy E c act m w Hl Hc) as (now & v & vs & d1 & w' & Hsp & -> & Hdb & Hl' & Htr). cbv zeta in *.
  destruct (Hsp Hk) as [Hk1 Hrows]. destruct (Hrows _ _ Hr) as (r1 & Hr1 & Hsame). cbn [snd]. unfold at_job. rewrite Hdb, Htr.
  match goal with |- context [m now ?d] => pose proof (Hm now d) as Hs end.
  split; [split; [done|by eapply table_step_keyed]|].
  pose proof (stable _ _ _ [] Hsame HPr) as H1. cbn in H1.
  assert (∀ r2 a, P r2 (w_trace w) → P r2 (a :: w_trace w)) as Hmore.
  { intros r2 a. apply (stable r2 r2 _ [a]). reflexivity. }
  destruct (Hs (JobID job)) as [->|H2]; [exists r1; auto|]. cbn [jobs] in H2. rewrite Hr1 in H2.
  destruct (row_step_some _ _ _ _ _ H2) as [r' Er]. rewrite Er in *. exists r'. split; [done|].
  eapply Hmore, Ho; [exact H2|done].
Qed.

Lemma heartbeat_keeps P {HP : Kept P} tr ttl :
  takes job (Heartbeat (JobID job) (workerName wk) (Attempt job) ttl) (λ r, P r tr) (λ _ r, P r tr).
Proof.
  apply (takes_fenced job "heartbeat" ErrNotFound _ (heartbeat_row ttl)); [intros r Hr; by eapply kept_holds|done|].
  intros now r. apply kept_beat.
Qed.

#[export] Instance keeps_works P {HP : Kept P} : Works E wk job (keeps P).
Proof.
  split; [split| |].
  - apply keeps_triple; [apply _|]. exact (t_step E job P).
  - intros a _. apply keeps_triple; [apply _|]. intros w ((Hl & Hk) & r & Hr & HPr) _. split; [done|]. exists r. split; [done|]. by apply (stable r r _ [a]).
  - intros J [HI HA]. apply keeps_triple; [apply _|]. unfold heartbeat. rewrite HI, HA.
    t_bind (λ r w, ∃ u, r = Ok u ∧ at_job job P w); [|apply t_ok; intros []; by apply t_ret].
    apply (t_store E job _ _ _ P (λ _, P)). intros tr now d r Hf Hv Hk Hr HPr.
    destruct (heartbeat_keeps P tr leaseDuration now d r Hf Hv Hk Hr HPr) as (a & d' & r' & ? & ? & ? & H).
    exists a, d', r'. split_and!; [done..|]. by apply (stable r' r' _ [_]).
  - intros A c J act m _ Hm. destruct Hm.
    + apply (store_keeps P c _ _ (OpMarkExecutionTerminal (JobID J) x)); [intros now d; apply MarkExecutionTerminal_step|].
      intros now r r' tr Hs. inversion Hs; subst. apply kept_exec.
    + apply (store_keeps P c _ _ (OpGetJob (JobID J))); [intros now d; apply read_only_step, _|].
      intros now r r' tr Hs. by inversion Hs.
    + apply (store_keeps P c _ _ (OpEnsureExecution (JobID J))); [intros now d; apply EnsureExecution_step|].
      intros now r r' tr Hs. inversion Hs; subst. apply kept_exec.
Qed.

(** The lease is there each time it is looked at. *)
Lemma stillLeased_true P {HP : Kept P} J : About job J →
  triple (at_job job P) (stillLeased E wk J) (λ b w, b = true ∧ at_job job P w).
Proof.
  intros HJ. unfold stillLeased. t_then; [apply t_leaseLost|]. cbn beta iota.
  t_bind; [apply t_keeps, _|]. intros []. t_then; [apply t_leaseLost|]. by apply t_ret.
Qed.

(** ** From the lease to the end *)

Context (valid_label_value : string → bool) (rounds : nat) (float_overflow : Z → Z).

(** [P]: before the report; [P1]: after it; [Q]: in the end. *)
Class Ends (P P1 Q : row → list action → Prop) : Prop := {
  ends_before :: Kept P;
  ends_after :: Kept P1;
  ends_fail J st cmd cl reason : About job J → KnownStage st →
    triple (at_job job P) (fail_attempt E wk J st cmd cl reason) (λ _, at_job job Q);
  ends_report J : About job J →
    triple (at_job job P) (reportTerminalSuccess E wk J StageL4 "smoke-run") (λ _, at_job job P1);
  ends_l5a J (last : bool) : About job J →
    triple (at_job job P) (runL5a E wk rounds J last) (λ _, at_job job (if last then P1 else P));
  ends_l5b J : About job J →
    triple (at_job job P) (runL5b E wk float_overflow J) (λ _, at_job job P1);
  ends_complete J s : About job J →
    triple (at_job job P1) (complete_job E wk J s) (λ _, at_job job Q);
}.

Section Ends.
Context (P P1 Q : row → list action → Prop) {HE : Ends P P1 Q}.
#[local] Abbreviation here := (at_job job P).
#[local] Abbreviation over := (λ _, at_job job Q).

Lemma optional_stage_some J S S' planned run m1 m2 : About job J → Kept S → Kept S' → Does later run →
  (planned = true → triple (at_job job S) run (λ _, at_job job S')) → (planned = false → S = S') →
  triple (at_job job S) (optional_stage E wk J planned run m1 m2) (λ o w, o ≠ None ∧ at_job job S' w).
Proof.
  intros HJ HS1 HS2 Hlater Hrun Hno. unfold optional_stage. destruct planned; cbn [negb]; [|rewrite (Hno eq_refl); by apply t_ret].
  t_then; [apply (stillLeased_true S), _|]. cbn [negb]. t_bind; [by apply Hrun|]. intros e.
  t_then; [apply t_leaseLost|]. cbn beta iota. t_bind; [t_use t_inc|]. intros []. by apply t_ret.
Qed.

Lemma finishAfterL4_ends J plan : About job J →
  triple (at_job job (if runL5a_ plan || runL5b_ plan then P else P1))
    (finishAfterL4 E wk rounds float_overflow J plan (runL5a_ plan && negb (runL5b_ plan))) over.
Proof.
  intros HJ. unfold finishAfterL4.
  t_bind; [apply (optional_stage_some J _ (if runL5b_ plan then P else P1))|].
  - done.
  - destruct (_ || _); apply _.
  - destruct (runL5b_ plan); apply _.
  - apply _.
  - intros ->. cbn [andb orb]. pose proof (ends_l5a J (negb (runL5b_ plan)) HJ) as H. by destruct (runL5b_ plan).
  - intros ->. done.
  - intros [l5a|]; apply t_pure; [|done]. intros _.
    t_bind; [apply (optional_stage_some J _ P1)|].
    + done.
    + destruct (runL5b_ plan); apply _.
    + apply _.
    + apply _.
    + intros ->. by apply ends_l5b.
    + by intros ->.
    + intros [l5b|]; apply t_pure; [|done]. intros _. by apply (ends_complete (P := P)).
Qed.

Lemma run_l4_ends J plan a b : About job J → triple here (run_l4 E wk rounds float_overflow J plan a b) over.
Proof.
  intros HJ. unfold run_l4. t_bind; [apply t_keeps, _|]. intros result.
  t_then; [apply t_leaseLost|]. cbn beta iota. destruct (negb (o_success result)).
  - apply (ends_fail (P1 := P1)); apply _.
  - t_bind; [|intros ?; by apply finishAfterL4_ends].
    destruct (runL5a_ plan), (runL5b_ plan); cbn [negb andb orb]; try by apply t_ret. by apply (ends_report (Q := Q)).
Qed.

Lemma run_l3_ends J plan a b : About job J → triple here (run_l3 E wk rounds float_overflow J plan a b) over.
Proof.
  intros HJ. unfold run_l3. destruct a; [by apply run_l4_ends|]. unfold runDryRun, kube_create.
  t_bind; [apply t_keeps, _|]. intros [[]|e]; [by apply run_l4_ends|].
  t_bind; [apply t_keeps, _|]. intros []. apply (ends_fail (P1 := P1)); apply _.
Qed.

Lemma run_execution_ends plan x a : triple here (run_execution E wk rounds float_overflow job plan x a) over.
Proof.
  unfold run_execution. destruct (a && (runL5a_ plan && vaultClient wk)) eqn:Hf; [|by apply run_l3_ends, _].
  t_bind; [apply t_keeps, _|]. intros [[]|e].
  - apply andb_true_iff in Hf as [_ [HA _]%andb_true_iff].
    pose proof (finishAfterL4_ends (set_ExecutionID x job) plan _) as H. by rewrite HA in *.
  - by apply run_l3_ends, _.
  - apply (ends_fail (P1 := P1)); apply _.
Qed.

Lemma ensure_execution_ends plan : triple here (ensure_execution E wk rounds float_overflow job plan) over.
Proof.
  unfold ensure_execution. t_bind; [apply t_keeps, _|]. intros [[x a]|e].
  - apply run_execution_ends.
  - apply (ends_fail (P1 := P1)); apply _.
Qed.

(** The attempt as a whole, from a context of its own. *)
Lemma process_ends w r :
  table_keyed (jobs (w_db w)) → jobs (w_db w) !! JobID job = Some r → P r (w_trace w) →
  let w' := (process E wk valid_label_value rounds float_overflow job w).2 in
  ¬ cut E w' → ∃ r', jobs (w_db w') !! JobID job = Some r' ∧ Q r' (w_trace w').
Proof.
  intros Hk Hr HPr w' Hc. subst w'.
  assert (triple here (process E wk valid_label_value rounds float_overflow job) over) as Hproc.
  { unfold process. t_then tt, here.
    { intros w0 ((_ & Hk0) & H1) _. by split. }
    destruct (planStages _) as [plan|e]; [|apply (ends_fail (P1 := P1)); apply _].
    destruct (bool_decide _); [|apply ensure_execution_ends].
    t_bind; [apply t_keeps, _|]. intros [[]|e]; [apply ensure_execution_ends|].
    t_then; [apply t_leaseLost|]. cbn beta iota. apply (ends_fail (P1 := P1)); apply _. }
  destruct (Hproc (World (w_db w) false (w_step w) (w_trace w))) as (_ & r' & Hr' & Hb); [|exact Hc|by exists r'].
  split; [done|]. by exists r.
Qed.
End Ends.

End Keeps.
