(* ===== verification/Settles.v ===== *)
(** * Settles: no attempt leaves its job hanging

    While the store works, whatever Kubernetes and NodeVault answer, however
    long things take and whatever the other users of the store in its process
    do: an attempt that holds its job, and that no shutdown cuts short, gives it
    back finished or queued for a retry. *)

From S2P Require Import Prelude GoTime Errors Work Db Fingerprint Store StoreSpec StoreRun StoreStep.
From S2P Require Import Retry Names Failure World Worker Pipeline Protocol Attempt Stages Process.
From S2P Require Import AttemptSafe Codec WorkerSafe Instances RowInv RowRead Samples.
From S2P Require Import StoreLease StoreDelivery StoreExec System Follow Triple Keeps.

Section Settles.
Context {SO : SqlOrder} {AJ : ActionsJson} {DJ : DeliveryJson}.
Context (E : nat → step_env) {HS : StoreWorks E}.
Context (wk : worker) (job : Job).
#[local] Abbreviation triple := (triple E).

(** The attempt holds the job. *)
Definition held (r : row) (_ : list action) : Prop := holds wk job r.
#[local] Abbreviation here := (at_job job held).

#[export] Instance held_kept : Kept wk job held.
Proof.
  unfold held, holds. split; [| done| |done].
  - intros r r' tr l [Hl _ _ _ _] H. unfold held, holds, held_generation, generation in *. by rewrite Hl.
  - intros r _ ttl now (H1 & H2 & H3)%held_generation_iff. by apply held_generation_iff.
Qed.

(** The job was given back: finished, or queued while attempts are left. *)
Definition given_back (r : row) : Prop :=
  (status (r_lease r) = StatusSucceeded ∨ status (r_lease r) = StatusFailed ∨
   status (r_lease r) = StatusQueued ∧ Attempt job < maxAttempts) ∧
  attempt (r_lease r) = Attempt job ∧ lease_owner (r_lease r) = "" ∧ lease_until (r_lease r) = None.
Definition back (r : row) (_ : list action) : Prop := given_back r.

#[local] Instance back_stable : Stable back.
Proof. intros r r' tr l [Hl _ _ _ _] H. unfold back, given_back in *. by rewrite Hl. Qed.

Lemma held_attempt r : holds wk job r → attempt (r_lease r) = Attempt job.
Proof. by intros (_ & ? & _)%held_generation_iff. Qed.

Lemma FailJob_gives_back le (rt : bool) delay :
  (rt = true → Attempt job < maxAttempts) →
  takes job (FailJob (JobID job) (workerName wk) (Attempt job) le rt delay) (holds wk job) (λ _, given_back).
Proof.
  intros Hn now. rewrite FailJob_fenced. destruct rt.
  - apply (takes_fenced job _ _ _ (λ now, requeue_row le (retry_due delay now) now)); [done|done|].
    intros now' r Hh. split_and!; cbn; auto using held_attempt.
  - apply (takes_fenced job _ _ _ (λ now, finish_row StatusFailed le "" now)); [intros r; apply held_is_own|done|].
    intros now' r Hh. split_and!; cbn; auto using held_attempt.
Qed.

Lemma CompleteJob_gives_back s :
  takes job (CompleteJob (JobID job) (workerName wk) (Attempt job) s) (holds wk job) (λ _, given_back).
Proof.
  apply (takes_fenced job "finish job" ErrNotFound _ (finish_row StatusSucceeded "" s));
    [intros r; apply held_is_own|done|].
  intros now r Hh. split_and!; cbn; auto using held_attempt.
Qed.

(** Reports keep the lease. *)
#[local] Instance held_acts : Acts E wk job (keeps E job held).
Proof.
  split; [apply _..|]. intros A c J act m HJ Hm.
  assert (∀ o, (∀ now d, table_step o now (jobs d) (jobs (m now d).2)) → leaves_leases o = true →
    Does (keeps E job held) (store_call E c act m)) as Hkeep.
  { intros o Hs Ho. apply (store_keeps E job held c act m o Hs). intros now r r' tr Hr. unfold held, holds, held_generation, generation.
    by rewrite (leaves_leases_step _ _ _ _ _ Ho Hr). }
  destruct Hm; [..|by apply (works_call E wk job (keeps E job held) c J _ _ HJ); constructor
    |by apply (works_call E wk job (keeps E job held) c J _ _ HJ); constructor
    |by apply (works_call E wk job (keeps E job held) c J _ _ HJ); constructor].
  - apply (Hkeep (OpClaimTerminal (JobID J) (workerName wk) (Attempt J))); [|done]. intros now d. apply ClaimTerminal_step.
  - eapply (Hkeep (OpMarkFirstDeliveryPending _ _ _ _ _ _)); [|done].
    intros now d. apply fenced_step. intros r Hr. by constructor.
  - eapply (Hkeep (OpMarkFirstDeliveryDeadLetter _ _ _ _ _)); [|done].
    intros now d. apply fenced_step. intros r Hr. by constructor.
Qed.

Context (valid_label_value : string → bool) (rounds : nat) (float_overflow : Z → Z).

#[local] Instance held_ends : Ends E wk job rounds float_overflow held held back.
Proof.
  split; [apply _..| | | | |].
  - intros J st cmd cl reason HJ Hst. pose proof HJ as [HI HA]. unfold fail_attempt.
    t_bind; [apply t_keeps, (jitter_does E (keeps E job held))|]. intros rnd.
    do 2 (t_bind; [apply t_keeps, _|]; intros []).
    unfold FailJob_call. rewrite HI, HA. t_bind; [apply (t_store E job _ _ _ held (λ _, back))|].
    { intros tr. apply FailJob_gives_back. rewrite <- HA. apply decideRetry_bounded. }
    apply t_ok. intros []. t_use t_inc.
  - intros J HJ. apply t_keeps, _.
  - intros J last HJ. destruct last; apply t_keeps, _.
  - intros J HJ. apply t_keeps, _.
  - intros J s [HI HA]. unfold complete_job. t_then; [apply t_leaseLost|]. cbn beta iota. rewrite HI, HA.
    t_bind; [apply (t_store E job _ _ _ held (λ _, back)); intros tr; apply CompleteJob_gives_back|].
    apply t_ok. intros []. t_use t_inc.
Qed.

Lemma process_back w r :
  table_keyed (jobs (w_db w)) → jobs (w_db w) !! JobID job = Some r → holds wk job r →
  let w' := (process E wk valid_label_value rounds float_overflow job w).2 in
  ¬ cut E w' → ∃ r', jobs (w_db w') !! JobID job = Some r' ∧ given_back r'.
Proof. apply (process_ends E wk job valid_label_value rounds float_overflow held held back). Qed.

(** C6: no attempt leaves its job hanging, short of a shutdown. While the
    store's statements succeed, the attempt holds the lease and the context of
    Run is not cancelled before the attempt ends, then whatever the API server
    and NodeVault answer, whichever case each select takes, wherever the attempt's
    own deadlines fall, and whatever the redelivery loop, the ingress and the
    probes do to the store meanwhile, process ends with the job given back,
    without an owner: succeeded, failed, or, while attempts are left, queued for a
    retry. (After a cancellation the job stays leased until the lease expires:
    every call of the attempt fails, the one that gives it back included.) *)
Theorem attempt_gives_back w r :
  table_keyed (jobs (w_db w)) → jobs (w_db w) !! JobID job = Some r →
  held_generation (workerName wk) (Attempt job) r = true →
  let w' := (process E wk valid_label_value rounds float_overflow job w).2 in
  (∀ n, (n < w_step w')%nat → e_ended (E n) = false) →
  ∃ r', jobs (w_db w') !! JobID job = Some r' ∧ given_back r'.
Proof.
  intros Hk Hr Hh w' Ho. apply (process_back w r); [done..|]. intros (n & Hn & He). by rewrite Ho in He.
Qed.

End Settles.

(** ** A concrete run *)

(** Nothing but the store answers. *)
Definition env_hostile (_ : nat) : step_env := {|
  e_others := []; e_now := at_s 10; e_ended := false; e_faults := []; e_rng := [Some 7%N];
  e_create := Some (ApiError ApiOther "etcd leader changed"); e_get := Err (ErrText "timeout");
  e_list := Err (ErrText "timeout"); e_pods := Err (ErrText "timeout"); e_delete := Some (ErrText "timeout");
  e_reports := Err (ErrText "timeout"); e_submit := Some (ErrText "connection refused");
  e_event := EvDone true; e_rnd := λ _, 0; e_elapsed := 3 |}.

#[export] Instance env_hostile_works : StoreWorks env_hostile.
Proof. intros n. constructor; [constructor|reflexivity|by eexists _, _]. Qed.

Lemma attempt_gives_back_witness :
  ∃ r', jobs (w_db (process env_hostile sample_worker (λ _, true) 3 (λ _, 0) sample_leased start).2)
      !! "job-1" = Some r' ∧ given_back sample_leased r'.
Proof.
  apply (attempt_gives_back env_hostile sample_worker sample_leased (λ _, true) 3 (λ _, 0) start
    (sample_row d_leased)).
  - exact (reachable_keyed _ _ leased_reachable).
  - apply sample_row_lookup. vm_compute. reflexivity.
  - vm_compute. reflexivity.
  - by intros n _.
Defined.
