(* ===== verification/Accounts.v ===== *)
(** * Accounts: no verdict is lost

    What becomes of the verdict of an attempt. While the store works, an attempt
    that gives its job back finished has brought its terminal record to
    NodeVault or left it in the delivery ledger, and one that gives it back for
    a retry has left both to the retry. *)

From S2P Require Import Prelude GoTime Errors Work Db Fingerprint Store StoreSpec StoreRun StoreStep.
From S2P Require Import Retry Names Failure World Worker Pipeline Shared Protocol Attempt Stages Process.
From S2P Require Import AttemptSafe Codec WorkerSafe Instances RowInv RowRead Samples.
From S2P Require Import StoreLease StoreDelivery StoreExec Follow Triple Keeps.

Section Account.
Context {DJ : DeliveryJson}.

Definition record_job (req : SubmitCheckRecordRequest + SubmitScanRecordRequest) : string :=
  match req with inl r => cr_SentinelJobID r | inr r => sr_SentinelJobID r end.
Definition record_payload (req : SubmitCheckRecordRequest + SubmitScanRecordRequest) : string :=
  match req with inl r => check_payload r | inr r => scan_payload r end.

(** The terminal record of job [id] was taken by NodeVault, or it was not and
    the row keeps it. *)
Definition accounted (id : string) (r : row) (tr : list action) : Prop :=
  ∃ req, terminal_record (sent req None) = true ∧ record_job req = id ∧
    (sent req None ∈ tr ∨ ∃ e, sent req (Some e) ∈ tr ∧ keeps_payload (record_payload req) r).

Lemma accounted_more id r r' tr l :
  (∀ p, keeps_payload p r → keeps_payload p r') → accounted id r tr → accounted id r' (l ++ tr).
Proof.
  intros Hp (req & H1 & H2 & H3). exists req. split_and!; [done..|].
  destruct H3 as [H|(e & H & Hk)]; [left|right; exists e; split; [|by apply Hp]]; apply elem_of_app; by right.
Qed.

Lemma keeps_payload_delivery p r r' : r_delivery r' = r_delivery r → keeps_payload p r → keeps_payload p r'.
Proof. unfold keeps_payload. by intros ->. Qed.

Lemma accounted_delivery id r r' tr : r_delivery r' = r_delivery r → accounted id r tr → accounted id r' tr.
Proof. intros H. apply (accounted_more id r r' tr []). intros p. by apply keeps_payload_delivery. Qed.
End Account.

Section Attempt.
Context {SO : SqlOrder} {AJ : ActionsJson} {DJ : DeliveryJson}.
Context (E : nat → step_env) {HS : StoreWorks E}.
Context (wk : worker) (Hv : vaultClient wk = true) (job : Job).
#[local] Abbreviation triple := (triple E).

(** The attempt holds its job and its terminal slot is free; ... *)
Definition fresh (r : row) (_ : list action) : Prop :=
  holds wk job r ∧ terminal_submitted (r_terminal r) = false ∧ undelivered r.
(** the slot is its own; ... *)
Definition claimed (r : row) (_ : list action) : Prop :=
  holds wk job r ∧ r_terminal r = Terminal true (workerName wk) (Attempt job) ∧ undelivered r.
(** the record was sent; ... *)
Definition reported (r : row) (tr : list action) : Prop :=
  holds wk job r ∧ terminal_submitted (r_terminal r) = true ∧ accounted (JobID job) r tr.
(** the job was given back. *)
Definition concluded (r : row) (tr : list action) : Prop :=
  status (r_lease r) = StatusQueued ∧ terminal_submitted (r_terminal r) = false ∧ undelivered r ∨
  (status (r_lease r) = StatusSucceeded ∨ status (r_lease r) = StatusFailed) ∧
    terminal_submitted (r_terminal r) = true ∧ accounted (JobID job) r tr.

Lemma holds_same r r' : r_lease r' = r_lease r → holds wk job r → holds wk job r'.
Proof. unfold holds, held_generation, generation. by intros ->. Qed.
Lemma holds_beat ttl now r : holds wk job r → holds wk job (heartbeat_row ttl now r).
Proof. unfold holds. intros (H1 & H2 & H3)%held_generation_iff. by apply held_generation_iff. Qed.

#[local] Instance fresh_kept : Kept wk job fresh.
Proof.
  split; [|by intros r tr []| |done].
  - intros r r' tr l [Hl Ht _ Hu _] (H1 & H2 & H3). split; [by eapply holds_same|]. rewrite Ht. auto.
  - intros r tr ttl now (H1 & H2 & H3). split; [by apply holds_beat|done].
Qed.

#[local] Instance claimed_kept : Kept wk job claimed.
Proof.
  split; [|by intros r tr []| |done].
  - intros r r' tr l [Hl Ht _ Hu _] (H1 & H2 & H3). split; [by eapply holds_same|]. rewrite Ht. auto.
  - intros r tr ttl now (H1 & H2 & H3). split; [by apply holds_beat|done].
Qed.

#[local] Instance reported_kept : Kept wk job reported.
Proof.
  split; [|by intros r tr []| |].
  - intros r r' tr l [Hl Ht _ _ Hp] (H1 & H2 & H3). split; [by eapply holds_same|]. rewrite Ht.
    split; [done|]. by eapply accounted_more.
  - intros r tr ttl now (H1 & H2 & H3). split; [by apply holds_beat|]. split; [done|]. by apply (accounted_delivery _ r).
  - intros r tr f ts (H1 & H2 & H3). split; [by apply (holds_same r)|]. split; [done|]. by apply (accounted_delivery _ r).
Qed.

#[local] Instance concluded_stable : Stable concluded.
Proof.
  intros r r' tr l [Hl Ht _ Hu Hp]. unfold concluded. rewrite Hl, Ht. intros [(H1 & H2 & H3)|(H1 & H2 & H3)]; [left; auto|].
  right. split_and!; [done..|]. by eapply accounted_more.
Qed.

(** ** The report *)

Section Report.
Context (J : Job) {HJ : About job J}.

(** A state in which [e] was NodeVault's answer to [req]. *)
Definition answered (req : SubmitCheckRecordRequest + SubmitScanRecordRequest) (e : option error)
    (r : row) (tr : list action) : Prop := claimed r tr ∧ sent req e ∈ tr.

#[local] Instance answered_kept req e : Kept wk job (answered req e).
Proof.
  split; [|by intros r tr [[] _]| |].
  - intros r r' tr l Hs [H1 H2]. split; [by eapply stable|]. apply elem_of_app. by right.
  - intros r tr ttl now [H1 H2]. split; [by apply (kept_beat wk job (P := claimed))|done].
  - intros r tr f ts [H1 H2]. split; [by apply (kept_exec wk job (P := claimed))|done].
Qed.

Lemma claimTerminal_claims :
  triple (at_job job fresh) (claimTerminal E wk J) (λ b w, b = true ∧ at_job job claimed w).
Proof.
  destruct HJ as [HI HA]. unfold claimTerminal. rewrite HI, HA.
  t_bind; [apply (t_store E job _ _ _ fresh (λ b r tr, b = true ∧ claimed r tr))|].
  - intros tr now d r Hf _ Hk Hr (H1 & H2 & H3). rewrite ClaimTerminal_run. unfold stmt_fault. rewrite Hf, Hr, H2.
    eexists _, _, _. split; [done|]. cbn. rewrite lookup_insert_eq. split; [by eapply table_keyed_insert|]. done.
  - apply t_ok. intros b. apply t_ret. intros w (Hl & r & Hr & -> & HP). split; [done|]. split; [done|]. by exists r.
Qed.

(** A first delivery that failed is recorded. *)
Lemma first_failure_recorded req e : terminal_record (sent req None) = true → record_job req = JobID job →
  triple (at_job job (answered req (Some e))) (markFirstDeliveryFailure E wk J (record_payload req) e)
    (λ _, at_job job reported).
Proof.
  intros Ht Hj. pose proof HJ as [HI HA].
  assert (∀ msg f (act : res error unit → action), 
    (∀ now r, r_ident (f now r) = r_ident r ∧ r_lease (f now r) = r_lease r ∧ r_terminal (f now r) = r_terminal r) →
    (∀ now r, keeps_payload (record_payload req) (f now r)) →
    triple (at_job job (answered req (Some e)))
      (_ ← store_call E AttemptCtx act
         (λ now, fenced msg ErrDeliveryFenced (JobID job) (firstDeliveryFence (workerName wk) (Attempt job)) (f now)); mret tt)
      (λ _, at_job job reported)) as Hw.
  { intros msg f act Hf Hp. t_bind; [apply (t_store E job _ _ _ (answered req (Some e)) (λ _, reported))|].
    2: { apply t_ok. intros []. by apply t_ret. }
    intros tr. apply (takes_fenced job msg ErrDeliveryFenced _ f).
    - intros r [(_ & Hs & Hu) _]. unfold firstDeliveryFence. rewrite Hs, Hu. cbn.
      by rewrite !bool_decide_eq_true_2, Z.eqb_refl.
    - intros now r. apply Hf.
    - intros now r [(H1 & H2 & H3) H4]. destruct (Hf now r) as (_ & Hl & Hte). split; [by apply (holds_same r)|].
      rewrite Hte, H2. split; [done|]. exists req. split_and!; [done..|]. right. exists e. split; [by right|done]. }
  unfold markFirstDeliveryFailure. rewrite HI, HA. destruct (Retryable e).
  - t_bind; [apply t_keeps, _|]. intros now. t_bind; [apply t_keeps, _|]. intros rnd. cbv zeta.
    apply (Hw _ (first_pending_row _ _ _)); [done|]. intros now' r. split; [done|by left].
  - apply (Hw _ (first_dead_letter_row _ _)); [done|]. intros now' r. split; [done|by left].
Qed.

(** NodeVault's answer is accounted for, whatever it is. *)
Lemma delivery_accounted req : terminal_record (sent req None) = true → record_job req = JobID job →
  triple (at_job job claimed)
    (r ← match req with inl r => vault_check E AttemptCtx r | inr r => vault_scan E AttemptCtx r end;
     match r with
     | Ok _ => mret None
     | Err e => _ ← markFirstDeliveryFailure E wk J (record_payload req) e; mret (Some e)
     end) (λ _, at_job job reported).
Proof.
  intros Ht Hj. t_bind (λ r, at_job job (answered req (error_of r))).
  - assert (∀ act, (∀ r, act r = sent req (error_of r)) →
      triple (at_job job claimed) (api_call E AttemptCtx (λ e, as_result (e_submit e)) act)
        (λ r, at_job job (answered req (error_of r)))) as H.
    { intros act Hact. eapply t_conseq; [apply (t_api E job claimed AttemptCtx _ act (λ _, True)); done|done|].
      intros r w (_ & (Hl & r0 & Hr & HP) & Hin). split; [done|]. exists r0. split; [done|]. split; [done|]. by rewrite <- Hact. }
    destruct req as [r|r]; by apply H.
  - intros [u|e]; cbn [error_of].
    + apply t_ret. intros w (Hl & r & Hr & (H1 & H2 & H3) & H4). split; [done|]. exists r. split; [done|].
      split; [done|]. rewrite H2. split; [done|]. exists req. auto.
    + t_bind; [by apply first_failure_recorded|]. intros []. by apply t_ret.
Qed.

Lemma submitCheckRecord_reports sub :
  triple (at_job job fresh) (submitCheckRecord E wk J sub) (λ _, at_job job (if terminal sub then reported else fresh)).
Proof.
  unfold submitCheckRecord. t_then; [apply (stillLeased_true E wk job fresh), _|]. cbn [negb].
  destruct (terminal sub) eqn:Ht.
  - t_then; [apply claimTerminal_claims|]. cbn [negb]. unfold send_check. rewrite Ht.
    apply (delivery_accounted (inl (check_request J sub))); [exact Ht|]. by destruct HJ as [HI _].
  - unfold send_check. t_bind; [apply t_keeps, _|]. intros [u|e]; [by apply t_ret|]. rewrite Ht.
    t_bind; [apply t_keeps, _|]. intros []. by apply t_ret.
Qed.

Lemma submit_scan_reports req : sr_Terminal req = true → sr_SentinelJobID req = JobID job →
  triple (at_job job fresh) (submit_scan E wk J req) (λ _, at_job job reported).
Proof.
  intros Ht Hj. unfold submit_scan. t_then; [apply (stillLeased_true E wk job fresh), _|]. cbn [negb].
  t_then; [apply claimTerminal_claims|]. cbn [negb]. by apply (delivery_accounted (inr req)).
Qed.
End Report.

Context (valid_label_value : string → bool) (rounds : nat) (float_overflow : Z → Z).

Lemma runL5a_reports J last : About job J →
  triple (at_job job fresh) (runL5a E wk rounds J last) (λ _, at_job job (if last then reported else fresh)).
Proof.
  intros HJ. unfold runL5a. rewrite Hv. cbn [negb].
  assert (∀ sub, terminal sub = last →
    triple (at_job job fresh) (submitCheckRecord E wk J sub) (λ _, at_job job (if last then reported else fresh))) as Hsub.
  { intros sub <-. by apply submitCheckRecord_reports. }
  assert (∀ id n, triple (at_job job fresh) (l5a_observe E wk rounds J id n last)
    (λ _, at_job job (if last then reported else fresh))) as Hobs.
  { intros id n. unfold l5a_observe, deleteJob. t_bind; [apply t_keeps, _|]. intros [[code result] runErr].
    t_bind; [apply t_keeps, _|]. intros dur. t_then; [apply t_leaseLost|]. cbn beta iota.
    t_bind; [apply t_keeps, _|]. intros ?. destruct runErr; [|by apply Hsub].
    t_bind; [apply t_keeps, _|]. intros ?. apply Hsub. unfold l5aFailureSubmission. by destruct (wireStatus _). }
  assert (∀ id noted reason, triple (at_job job fresh) (l5a_not_created E wk J id last noted reason)
    (λ _, at_job job (if last then reported else fresh))) as Hnot.
  { intros id noted reason. unfold l5a_not_created. t_bind; [apply t_keeps, _|]. intros ?. by apply Hsub. }
  t_bind; [apply t_keeps, _|]. intros [u|e]; [apply Hobs|].
  destruct (is_api _ _); [apply Hobs|]. destruct (createRejected e).
  - t_bind; [apply t_keeps, _|]. intros ?. apply Hnot.
  - unfold reconcileL5aCreate. t_bind; [apply t_keeps, _|]. intros []; [apply Hobs|apply Hnot].
Qed.

Lemma runL5b_reports J : About job J →
  triple (at_job job fresh) (runL5b E wk float_overflow J) (λ _, at_job job reported).
Proof.
  intros HJ. pose proof HJ as [HI _]. unfold runL5b, submitNotAvailableScanRecord. rewrite Hv. cbn [negb].
  destruct (dynamicKube wk); cbn [negb]; [|by apply submit_scan_reports].
  t_bind; [apply t_keeps, _|]. intros [items|e]; [|by apply submit_scan_reports].
  destruct (matching_report _ _ _) as [summary|]; [|by apply submit_scan_reports].
  destruct (bool_decide _); by apply submit_scan_reports.
Qed.

Lemma FailJob_concludes le delay :
  takes job (FailJob (JobID job) (workerName wk) (Attempt job) le true delay) (λ r, fresh r []) (λ _ r, concluded r []).
Proof.
  intros now. rewrite FailJob_fenced. apply (takes_fenced job _ _ _ (λ now, requeue_row le (retry_due delay now) now));
    [by intros r []|done|]. intros now' r (_ & H2 & H3). by left.
Qed.

(** A final failure and a completion. *)
Lemma finish_concludes msg st le s tr : st = StatusSucceeded ∨ st = StatusFailed →
  takes job (λ now, fenced msg ErrNotFound (JobID job) (generation (workerName wk) (Attempt job)) (finish_row st le s now))
    (λ r, reported r tr) (λ _ r, concluded r tr).
Proof.
  intros Hst. apply (takes_fenced job msg ErrNotFound _ (finish_row st le s)); [intros r [H _]; by apply held_is_own|done|].
  intros now r (_ & H2 & H3). right. split; [destruct Hst as [->| ->]; auto|]. split; [done|]. by apply (accounted_delivery _ r).
Qed.

Lemma concluded_takes {A} (m : instant → M A) P (act : res error A → action) tr :
  takes job m P (λ _ r, concluded r tr) → takes job m P (λ a r, concluded r (act (Ok a) :: tr)).
Proof.
  intros H now d r Hf Hg Hk Hr HP. destruct (H now d r Hf Hg Hk Hr HP) as (a & d' & r' & ? & ? & ? & Hc).
  exists a, d', r'. split_and!; [done..|]. by apply (stable r' r' _ [_]).
Qed.

#[local] Instance accounts_ends : Ends E wk job rounds float_overflow fresh reported concluded.
Proof.
  split; [apply _..| | | | |].
  - intros J st cmd cl reason HJ Hst. pose proof HJ as [HI HA]. unfold fail_attempt.
    t_bind; [apply t_keeps, (jitter_does E (keeps E job fresh))|]. intros rnd. cbv zeta.
    set (d := decideRetry rnd cl J reason).
    t_bind; [apply t_keeps, _|]. intros [].
    t_bind (λ _, at_job job (if rd_Retry d then fresh else reported)).
    { unfold reportTerminalFailure. rewrite Hv. cbn [negb]. destruct (wireStatus _) as [vs fk].
      t_bind; [by apply submitCheckRecord_reports|]. intros o. apply t_ret. cbn [terminal]. by destruct (rd_Retry d). }
    intros []. unfold FailJob_call. rewrite HI, HA. destruct (rd_Retry d).
    + t_bind; [apply (t_store E job _ _ _ fresh (λ _, concluded))|apply t_ok; intros []; t_use t_inc].
      intros tr. apply concluded_takes. intros now d0 r Hf Hg Hk Hr HP.
      destruct (FailJob_concludes (rd_Reason d) (rd_Delay d) now d0 r Hf Hg Hk Hr HP) as (a & d' & r' & ? & ? & ? & Hc).
      exists a, d', r'. split_and!; [done..|]. rewrite <- (app_nil_r tr). by apply (stable r' r').
    + t_bind; [apply (t_store E job _ _ _ reported (λ _, concluded))|apply t_ok; intros []; t_use t_inc].
      intros tr. apply concluded_takes. intros now. rewrite FailJob_fenced. apply finish_concludes. by right.
  - intros J HJ. unfold reportTerminalSuccess. rewrite Hv. cbn [negb].
    t_bind; [by apply submitCheckRecord_reports|]. intros o. by apply t_ret.
  - apply runL5a_reports.
  - apply runL5b_reports.
  - intros J s [HI HA]. unfold complete_job. t_then; [apply t_leaseLost|]. cbn beta iota. rewrite HI, HA.
    t_bind; [apply (t_store E job _ _ _ reported (λ _, concluded))|apply t_ok; intros []; t_use t_inc].
    intros tr. apply concluded_takes. apply (finish_concludes "finish job"). by left.
Qed.

Lemma process_concludes w r :
  table_keyed (jobs (w_db w)) → jobs (w_db w) !! JobID job = Some r → fresh r (w_trace w) →
  let w' := (process E wk valid_label_value rounds float_overflow job w).2 in
  ¬ cut E w' → ∃ r', jobs (w_db w') !! JobID job = Some r' ∧ concluded r' (w_trace w').
Proof. apply (process_ends E wk job valid_label_value rounds float_overflow fresh reported concluded). Qed.

End Attempt.
