(* ===== verification/Drain.v ===== *)
(** * Drain: the queue is worked off

    Run, round after round, on a store that works, with no new job arriving
    and nobody else leasing (Opening.v: the file has one writer), while the
    redelivery loop, the reading handlers and the probes use the store too. Whatever
    Kubernetes and NodeVault answer, every job ends as succeeded or failed, in
    a number of rounds known beforehand. *)

From S2P Require Import Prelude GoTime Errors Work Db Fingerprint Store StoreSpec StoreRun StoreStep.
From S2P Require Import Retry Names Failure World Worker Pipeline Shared Follow Own.
From S2P Require Import Instances RowInv RowRead Samples StoreLease Codec WorkerSafe Triple Round Settles.

(** ** What is left to do *)

Definition unfinished (r : row) : bool :=
  match status (r_lease r) with StatusSucceeded | StatusFailed => false | _ => true end.

(** The rounds a job may still take: its attempts left, and a last one. *)
Definition weight (r : row) : nat :=
  if unfinished r then S (Z.to_nat (maxAttempts - attempt (r_lease r))) else 0.

Definition workload (t : gmap string row) : nat := sum_list (weight <$> table_rows t).

Definition leases (t : gmap string row) : gmap string lease_cols := r_lease <$> t.

Lemma leases_lookup t t' id r' :
  leases t' = leases t → t' !! id = Some r' → ∃ r, t !! id = Some r ∧ r_lease r = r_lease r'.
Proof.
  intros H Hid. assert (leases t' !! id = Some (r_lease r')) as Hl by (unfold leases; by rewrite lookup_fmap, Hid).
  rewrite H in Hl. unfold leases in Hl. rewrite lookup_fmap in Hl. destruct (t !! id) as [r|]; [|done].
  injection Hl as Hl. by exists r.
Qed.

(** It is a matter of the leases alone. *)
Lemma workload_leases t t' : leases t' = leases t → workload t' = workload t.
Proof.
  set (g := λ l : lease_cols, match status l with StatusSucceeded | StatusFailed => 0%nat | _ => S (Z.to_nat (maxAttempts - attempt l)) end).
  assert (∀ t, workload t = sum_list ((map_to_list (leases t)).*2 ≫= λ l, [g l])) as Hw; [|intros H; by rewrite !Hw, H].
  clear t t'. intros t. unfold workload, leases, table_rows. rewrite map_to_list_fmap.
  induction (map_to_list t) as [|[id r] l IH]; [done|]. cbn in *. rewrite IH. f_equal.
  unfold weight, unfinished, g. by destruct (status (r_lease r)).
Qed.

Lemma workload_insert t id r x :
  t !! id = Some r → (workload (<[id := x]> t) + weight r = workload t + weight x)%nat.
Proof.
  intros Hid. unfold workload, table_rows. rewrite <- (insert_delete_eq t id x).
  rewrite <- (insert_delete_id t id r Hid) at 2.
  rewrite !map_to_list_insert by apply lookup_delete_eq. cbn. lia.
Qed.

Lemma workload_finished t id r : workload t = 0%nat → t !! id = Some r → unfinished r = false.
Proof.
  intros Ht Hid. pose proof (workload_insert t id r r Hid) as H. rewrite (insert_id t id r Hid) in H.
  unfold workload, table_rows in Ht. rewrite <- (insert_delete_id t id r Hid) in Ht.
  rewrite map_to_list_insert in Ht by apply lookup_delete_eq. cbn in Ht. unfold weight in Ht.
  destruct (unfinished r); [lia|done].
Qed.

Lemma workload_some t : (0 < workload t)%nat → ∃ id r, t !! id = Some r ∧ unfinished r = true.
Proof.
  unfold workload. intros H. assert (∃ r, r ∈ table_rows t ∧ unfinished r = true) as (r & Hr & Hu).
  { induction (table_rows t) as [|r l IH]; cbn in H; [lia|]. unfold weight at 1 in H.
    destruct (unfinished r) eqn:Hu; [exists r; split; [left|done]|].
    destruct (IH H) as (r' & Hr' & ?). exists r'. split; [by right|done]. }
  unfold table_rows in Hr. apply list_elem_of_fmap in Hr as ([id r'] & -> & Hin%elem_of_map_to_list).
  by exists id, r'.
Qed.

(** ** How long a job waits *)

Section Waits.
Context {SO : SqlOrder}.

(** A queued job waits no longer than until [t] ... *)
Definition queued_by (t : instant) (r : row) : Prop :=
  status (r_lease r) = StatusQueued → match retry_not_before (r_lease r) with None => True | Some u => u ≤ t end.

(** ... and a held one, until its lease runs out. *)
Definition held_by (t : instant) (r : row) : Prop :=
  status_held (status (r_lease r)) = true →
  ∃ u, lease_until (r_lease r) = Some (formatTS u) ∧ ts_in_range u ∧ u ≤ t.

Definition due_after (t : instant) (r : row) : Prop := queued_by t r ∧ held_by t r.

Lemma due_after_le t t' r : t ≤ t' → due_after t r → due_after t' r.
Proof.
  intros Ht [H1 H2]. split.
  - intros Hq. specialize (H1 Hq). destruct (retry_not_before _); [lia|done].
  - intros Hh. destruct (H2 Hh) as (u & Hu & Hin & Hle). exists u. split_and!; [done..|lia].
Qed.

Lemma due_after_lease t r r' : r_lease r = r_lease r' → due_after t r → due_after t r'.
Proof. intros E0. unfold due_after, queued_by, held_by. by rewrite E0. Qed.

Lemma due_leaseable t now r :
  ts_in_range now → int64_range now → t < now → unfinished r = true → due_after t r → leaseable now r = true.
Proof.
  intros Hin Hi Ht Hu [H1 H2]. unfold leaseable. unfold queued_by, held_by, unfinished in *.
  destruct (status (r_lease r)); try done; cbn in *.
  - specialize (H1 eq_refl). rewrite orb_false_r. destruct (retry_not_before _); [|done].
    unfold unix_nano. rewrite wrap64_id by done. apply Z.leb_le. lia.
  - destruct (H2 eq_refl) as (u & -> & Hu' & Hle). rewrite formatTS_ltb by done. apply Z.ltb_lt. lia.
  - destruct (H2 eq_refl) as (u & -> & Hu' & Hle). rewrite formatTS_ltb by done. apply Z.ltb_lt. lia.
Qed.

Lemma leaseable_lease now r r' : r_lease r' = r_lease r → leaseable now r' = leaseable now r.
Proof. unfold leaseable. by intros ->. Qed.

Lemma leaseable_unfinished now r : leaseable now r = true → unfinished r = true.
Proof. unfold leaseable, unfinished. by destruct (status (r_lease r)). Qed.

End Waits.

Section Drain.
Context {SO : SqlOrder} {AJ : ActionsJson} {DJ : DeliveryJson}.
Context (E : nat → step_env) {HS : StoreWorks E}.

#[local] Abbreviation clock := (clock E).

(** No job arrives; the jitter is math/rand's. *)
Record drain_env : Prop := {
  de_others n : Forall (λ f, op_in_range (f_op f) (f_now f) ∧ ∀ req, f_op f ≠ OpCreateJob req) (e_others (E n));
  de_rnd n : int63n_ok (e_rnd (E n));
  de_open n : e_ended (E n) = false;
}.

Context (CK : clock_ok E) (DE : drain_env) (wk : worker) (Hwk : workerName wk ≠ "").
Context (valid_label_value : string → bool) (rounds : nat) (float_overflow : Z → Z).

(** ** What an attempt does to the table *)

(** Queued jobs are due within the longest retry delay. *)
Definition calm_at (n : nat) (d : db) : Prop :=
  reachable op_in_range d ∧ ∀ id r, jobs d !! id = Some r → queued_by (clock n + RetryMaxDelay) r.
Definition calm (w : world) : Prop := calm_at (w_step w) (w_db w).

(** The leases in [d'] are those in [d], but for [id]'s. *)
Definition lease_frame (id : string) (d d' : db) : Prop :=
  ∀ id', id' ≠ id → leases (jobs d') !! id' = leases (jobs d) !! id'.

(** What the others leave behind. *)
Definition untouched (d d' : db) : Prop :=
  reachable op_in_range d → reachable op_in_range d' ∧ leases (jobs d') = leases (jobs d).

Lemma row_step_leases o now id r r' :
  spares o = true → (∀ req, o ≠ OpCreateJob req) → row_step o now id r r' → r_lease <$> r' = r_lease <$> r.
Proof. intros Ho Hn Hs. inversion Hs; subst; try done. by destruct (Hn req). Qed.

Lemma foreign_untouched f d :
  spares (f_op f) = true → op_in_range (f_op f) (f_now f) → (∀ req, f_op f ≠ OpCreateJob req) →
  untouched d (run_foreign f d).
Proof.
  intros Hsp Hin Hn Hr. split; [apply run_op_reachable; [done|by apply spares_ok|done]|].
  apply map_eq. intros id. unfold leases. rewrite !lookup_fmap. symmetry.
  destruct (run_op_step (f_op f) (f_now f) (Db (jobs d) (store_meta d) (f_faults f) (f_rng f)) (spares_ok _ Hsp)
    (reachable_keyed _ _ Hr) id) as [H|H]; unfold run_foreign; [by rewrite H|].
  symmetry. by eapply row_step_leases.
Qed.

#[local] Instance untouched_preorder : PreOrder untouched.
Proof.
  split; [by intros d Hr|]. intros d1 d2 d3 H1 H2 Hr1. destruct (H1 Hr1) as [Hr2 L1].
  destruct (H2 Hr2) as [Hr3 L2]. split; [done|]. by rewrite L2.
Qed.

#[local] Instance others_untouched : Others E untouched.
Proof.
  intros n. pose proof (sw_others _ (works n)) as H1. pose proof (de_others DE n) as H2. rewrite Forall_forall in *.
  intros f Hf d. by apply foreign_untouched; [apply H1|apply H2|apply H2].
Qed.

Lemma queued_by_le t t' r : t ≤ t' → queued_by t r → queued_by t' r.
Proof. intros Ht H Hq. specialize (H Hq). destruct (retry_not_before _); [lia|done]. Qed.

Lemma calm_next n m d : (n ≤ m)%nat → calm_at n d → calm_at m d.
Proof.
  intros Hn [Hr Hq]. split; [done|]. intros id r Hid. eapply queued_by_le; [|by apply (Hq id)].
  by apply Z.add_le_mono_r, (clock_mono E CK).
Qed.

Lemma untouched_calm w d1 :
  untouched (w_db w) d1 → calm w → calm_at (w_step w) d1 ∧ leases (jobs d1) = leases (jobs (w_db w)).
Proof.
  intros Hd [Hr Hq]. destruct (Hd Hr) as [Hr1 Hl]. split; [split; [done|]|done]. intros id r Hid.
  destruct (leases_lookup _ _ _ _ Hl Hid) as (r0 & Hr0 & E0). unfold queued_by. rewrite <- E0. by apply (Hq id).
Qed.

Section Attempt.
Context (job : Job).

Definition tidy (w w' : world) : Prop :=
  (w_step w ≤ w_step w')%nat ∧ (calm w → calm w' ∧ lease_frame (JobID job) (w_db w) (w_db w')).

#[local] Instance tidy_preorder : PreOrder tidy.
Proof.
  split; [by intros w|]. intros w1 w2 w3 [L1 H1] [L2 H2]. split; [lia|]. intros Hc.
  destruct (H1 Hc) as [Hc2 F1]. destruct (H2 Hc2) as [Hc3 F2]. split; [done|]. intros id Hid.
  by rewrite F2, F1.
Qed.

(** No operation of an attempt requeues a job for longer than allowed. *)
Lemma attempt_op_queued o n id r r' :
  attempt_op E wk job o → row_step o (clock n) id (Some r) (Some r') →
  queued_by (clock n + RetryMaxDelay) r → queued_by (clock n + RetryMaxDelay) r'.
Proof.
  intros Ho Hs Hq. destruct Ho as [|s|le rt delay Hd| | | | | |]; inversion Hs; subst; try done.
  intros _. cbn. unfold retry_due. destruct (Z.ltb_spec 0 delay); [|done]. cbn.
  unfold unix_nano, time_add. pose proof (ck_range _ CK n). unfold RetryMaxDelay, second in *.
  rewrite wrap64_id; [lia|]. unfold int64_range. lia.
Qed.

#[local] Instance tidy_on_store : OnStore E wk job tidy.
Proof.
  split; [apply _| |by intros a w|by intros b w|].
  - intros w. destruct (step_through E untouched w) as (d1 & -> & Hd1). split; [cbn; lia|]. intros Hc.
    destruct (untouched_calm w d1 Hd1 Hc) as [Hc1 Hl]. split; [by eapply calm_next, Hc1; cbn; lia|].
    intros id _. cbn. by rewrite Hl.
  - intros A c act m o Ho Hm w.
    destruct (store_call_through E untouched c act m w) as (d1 & fs & vs & Hd1 & Hdb & Hst).
    rewrite Hm in Hdb. split; [lia|]. intros Hc. destruct (untouched_calm w d1 Hd1 Hc) as ([Hr Hq] & Hl).
    pose proof (attempt_op_ok E wk Hwk job o Ho) as Hok.
    pose proof (run_op_step o (clock (w_step w)) (Db (jobs d1) (store_meta d1) fs vs) Hok (reachable_keyed _ _ Hr)) as Ht.
    cbn [jobs] in Ht. split; [split|].
    + rewrite Hdb. apply run_op_reachable; [done..|]. by apply (attempt_op_in_range E CK (de_rnd DE) wk job).
    + intros id r Hid. rewrite Hst. rewrite Hdb in Hid. eapply queued_by_le; [apply Z.add_le_mono_r, (ck_next _ CK)|].
      destruct (Ht id) as [E1|E1]; rewrite Hid in E1; [by apply (Hq id)|].
      destruct (attempt_op_only _ _ _ _ _ _ _ _ Ho E1) as (_ & r0 & r1 & Er0 & [= <-]). rewrite Er0 in E1.
      eapply attempt_op_queued; [done..|]. by apply (Hq id).
    + intros id Hne. rewrite Hdb, <- Hl. unfold leases. rewrite !lookup_fmap.
      destruct (Ht id) as [E1|E1]; [by rewrite E1|]. by destruct (attempt_op_only _ _ _ _ _ _ _ _ Ho E1) as [-> _].
Qed.

#[local] Instance tidy_closes : Closes E wk job tidy.
Proof. apply (on_store_closes E (de_rnd DE)), _. Qed.

Lemma process_tidy : Does tidy (process E wk valid_label_value rounds float_overflow job).
Proof. apply _. Qed.
End Attempt.

(** ** A round *)

#[local] Abbreviation round := (Run_once E wk valid_label_value rounds float_overflow).
#[local] Abbreviation run := (Run E wk valid_label_value rounds float_overflow).

(** Nothing is due when the next round asks. *)
Definition idle (w : world) : Prop :=
  ∀ id r, jobs (w_db w) !! id = Some r → leaseable (clock (w_step w)) r = false.

(** No job waits longer than a lease. *)
Definition steady (w : world) : Prop :=
  calm w ∧ ∀ id r, jobs (w_db w) !! id = Some r → due_after (clock (w_step w) + leaseDuration) r.

(** The job a round leased, at its end. *)
Record round_done (w w' : world) (r r' : row) (id : string) : Prop := {
  rd_before : jobs (w_db w) !! id = Some r;
  rd_due : leaseable (clock (w_step w)) r = true;
  rd_after : leases (jobs (w_db w')) = leases (<[id := r']> (jobs (w_db w)));
  rd_ended : unfinished r' = false ∨
    status (r_lease r') = StatusQueued ∧ attempt (r_lease r') = attempt (r_lease r) + 1 ∧
    attempt (r_lease r') < maxAttempts;
}.

Lemma calm_leased n d d1 id r :
  calm_at n d →
  jobs d1 = <[id := lease_row (workerName wk) leaseDuration (clock n) r]> (jobs d) →
  reachable op_in_range d1 → calm_at n d1.
Proof.
  intros [Hr Hq] Hj Hr1. split; [done|]. intros id1 r1. rewrite Hj.
  intros [[<- <-]|[_ H]]%lookup_insert_Some; [done|]. by apply (Hq id1).
Qed.

(** What a leased job's attempt leaves of the leases. *)
Lemma leases_frame t t1 id r :
  (∀ id', id' ≠ id → leases t1 !! id' = leases t !! id') → t1 !! id = Some r → leases t1 = leases (<[id := r]> t).
Proof.
  intros Hf Hr. apply map_eq. intros id'. destruct (decide (id' = id)) as [->|Hne].
  - unfold leases. by rewrite !lookup_fmap, Hr, lookup_insert_eq.
  - rewrite Hf by done. unfold leases. by rewrite !lookup_fmap, lookup_insert_ne by done.
Qed.

(** Processing the job that was leased at step [n] from the table of [d]. *)
Lemma leased_round j n d w1 r :
  calm_at n d → jobs d !! JobID j = Some r → Attempt j = attempt (r_lease r) + 1 →
  jobs (w_db w1) = <[JobID j := lease_row (workerName wk) leaseDuration (clock n) r]> (jobs d) →
  reachable op_in_range (w_db w1) → w_step w1 = S n →
  let w2 := (process E wk valid_label_value rounds float_overflow j w1).2 in
  calm w2 ∧ (n < w_step w2)%nat ∧ ∃ r', leases (jobs (w_db w2)) = leases (<[JobID j := r']> (jobs d)) ∧
    (unfinished r' = false ∨
     status (r_lease r') = StatusQueued ∧ attempt (r_lease r') = attempt (r_lease r) + 1 ∧
     attempt (r_lease r') < maxAttempts).
Proof.
  intros Hc Hid Hat Hj Hr1 Hst w2. pose proof (calm_leased n d (w_db w1) _ r Hc Hj Hr1) as Hc1.
  assert (calm w1) as Hc1' by (eapply calm_next, Hc1; lia).
  destruct (process_tidy j w1) as [Hle Ht]. destruct (Ht Hc1') as [Hc2 Hframe]. fold w2 in Hle, Hc2, Hframe.
  destruct (process_back E wk j valid_label_value rounds float_overflow w1
    (lease_row (workerName wk) leaseDuration (clock n) r)) as (r' & Hr' & Hb).
  { by apply (reachable_keyed _ _ Hr1). }
  { by rewrite Hj, lookup_insert_eq. }
  { by apply held_generation_iff. }
  { intros (n' & _ & He). by rewrite (de_open DE) in He. }
  split; [done|]. split; [lia|]. exists r'. split.
  - apply leases_frame; [|done]. intros id' Hne. rewrite Hframe by done. unfold leases.
    by rewrite !lookup_fmap, Hj, lookup_insert_ne.
  - destruct Hb as ([Hs|[Hs|[Hs Hn]]] & Ha & _); [left; unfold unfinished; by rewrite Hs..|right].
    rewrite <- Hat. split_and!; [done..|by rewrite Ha].
Qed.

(** A round finds nothing due and waits, or gives a job it leased back. *)
Lemma round_cases w :
  calm w →
  let w' := (round w).2 in
  (round w).1 = None ∧ calm w' ∧ (w_step w < w_step w')%nat ∧
  (idle w ∧ leases (jobs (w_db w')) = leases (jobs (w_db w)) ∨ ∃ r r' id, round_done w w' r r' id).
Proof.
  intros Hc w'. subst w'.
  destruct (round_splits E CK wk Hwk valid_label_value rounds float_overflow untouched w (de_open DE _))
    as (d0 & Hd0 & [(j & r & w1 & [Hid Hl Hat Hj Hr1 Hst _] & ->)|(w1 & [Hno Hj Hr1 Hst _] & ->)]).
  - intros d0 Hd0. by apply Hd0, Hc.
  - destruct (untouched_calm w d0 Hd0 Hc) as [Hc0 Hl0].
    destruct (leased_round j (w_step w) d0 w1 r Hc0 Hid Hat Hj Hr1 Hst) as (Hc2 & Hlt & r' & Hl2 & Hend).
    split; [done|]. split; [done|]. split; [done|]. right.
    destruct (leases_lookup _ _ _ _ Hl0 Hid) as (r0 & Hr0 & E0).
    exists r0, r', (JobID j). constructor; [done|by rewrite (leaseable_lease _ r r0 E0)| |by rewrite E0].
    cbn [snd]. rewrite Hl2. unfold leases in *. by rewrite !fmap_insert, Hl0.
  - destruct (untouched_calm w d0 Hd0 Hc) as [Hc0 Hl0].
    destruct (wait_through E untouched w1) as (H2 & H3 & _). split; [apply (wait_open E untouched), (de_open DE)|].
    assert (calm w1) as Hc1.
    { split; [done|]. unfold calm_at in Hc0. rewrite Hst, Hj. exact (proj2 (calm_next _ (S (w_step w)) d0 (Nat.le_succ_diag_r _) Hc0)). }
    destruct (untouched_calm w1 _ H2 Hc1) as [Hc2 Hl2].
    split; [unfold calm; rewrite H3; eapply calm_next, Hc2; lia|]. split; [lia|]. left.
    split; [|by rewrite Hl2, Hj]. intros id r Hid. destruct (leases_lookup _ _ _ _ (eq_sym Hl0) Hid) as (r1 & Hr1' & E1).
    rewrite <- (Hno id r1 Hr1'). by apply leaseable_lease.
Qed.

Lemma round_steady w : steady w → steady (round w).2.
Proof.
  intros [Hc Hd]. destruct (round_cases w Hc) as (_ & Hc' & Hst & H). split; [done|].
  assert (clock (w_step w) ≤ clock (w_step (round w).2)) as Hle by (apply (clock_mono E CK); lia).
  intros id r' Hid. destruct H as [[_ Hj]|(r & r1 & id0 & [Hr _ Hj Hend])].
  - destruct (leases_lookup _ _ _ _ Hj Hid) as (r & Hr & E0).
    eapply due_after_le; [apply Z.add_le_mono_r, Hle|]. eapply due_after_lease, (Hd id), Hr; done.
  - destruct (leases_lookup _ _ _ _ Hj Hid) as (r2 & Hr2 & E0).
    apply lookup_insert_Some in Hr2 as [[<- <-]|[_ Hr2]].
    + pose proof (proj2 Hc' _ _ Hid) as Hq. split.
      * eapply queued_by_le; [|exact Hq]. unfold RetryMaxDelay, leaseDuration, second. lia.
      * unfold held_by. rewrite <- E0. intros Hh. destruct Hend as [Hu|[Hs _]]; [|by rewrite Hs in Hh].
        unfold unfinished in Hu. by destruct (status (r_lease r1)).
    + eapply due_after_le; [apply Z.add_le_mono_r, Hle|]. eapply due_after_lease, (Hd id), Hr2; done.
Qed.

Lemma round_workload w :
  calm w →
  (workload (jobs (w_db (round w).2)) < workload (jobs (w_db w)))%nat ∨
  idle w ∧ leases (jobs (w_db (round w).2)) = leases (jobs (w_db w)).
Proof.
  intros Hc. destruct (round_cases w Hc) as (_ & _ & _ & [H|(r & r' & id & [Hr Hl Hj Hend])]); [by right|left].
  pose proof (workload_insert _ id r r' Hr) as Hw. rewrite <- (workload_leases _ _ Hj) in Hw.
  apply leaseable_unfinished in Hl. unfold weight at 1 in Hw. rewrite Hl in Hw.
  assert (weight r' < S (Z.to_nat (maxAttempts - attempt (r_lease r))))%nat; [|lia].
  unfold weight. destruct Hend as [->|(Hs & Ha & Hn)]; [lia|]. rewrite Ha in *. case_match; lia.
Qed.

(** ** Rounds *)

Lemma run_S fuel w : calm w → run (S fuel) w = run fuel (round w).2.
Proof.
  intros Hc. cbn [Run]. unfold mbind, W_bind. destruct (round_cases w Hc) as [H _].
  destruct (round w) as [o w']. cbn in *. by rewrite H.
Qed.

Lemma run_steady fuel w : steady w → (run fuel w).1 = None ∧ steady (run fuel w).2.
Proof.
  revert w. induction fuel as [|fuel IH]; intros w Hs; [done|]. rewrite run_S by apply Hs.
  by apply IH, round_steady.
Qed.

Lemma run_add a b w : steady w → (run (a + b) w).2 = (run b (run a w).2).2.
Proof.
  revert w. induction a as [|a IH]; intros w Hs; [done|]. cbn [Nat.add]. rewrite !run_S by apply Hs.
  by apply IH, round_steady.
Qed.

Lemma run_last k w : steady w → (run (S k) w).2 = (round (run k w).2).2.
Proof.
  intros Hs. replace (S k) with (k + 1)%nat by lia. rewrite run_add by done.
  destruct (run_steady k w Hs) as [_ Hk]. by rewrite run_S by apply Hk.
Qed.

Lemma run_workload b w :
  steady w → (workload (jobs (w_db (run b w).2)) ≤ workload (jobs (w_db w)))%nat.
Proof.
  revert w. induction b as [|b IH]; intros w Hs; [done|]. rewrite run_S by apply Hs.
  etrans; [by apply IH, round_steady|]. destruct (round_workload w (proj1 Hs)) as [H|[_ H%workload_leases]]; lia.
Qed.

Lemma run_step a b w : steady w → (a < b)%nat → (w_step (run a w).2 < w_step (run b w).2)%nat.
Proof.
  intros Hs. assert (∀ k, (w_step (run k w).2 < w_step (run (S k) w).2)%nat) as H.
  { intros k. rewrite run_last by done. by destruct (round_cases _ (proj1 (proj2 (run_steady k w Hs)))) as (_ & _ & ? & _). }
  induction 1 as [|b _ IH]; [done|]. etrans; [exact IH|done].
Qed.

(** After an idle round of the first [fuel], the next comes pollFrequency later. *)
Definition paced (fuel : nat) (w : world) : Prop :=
  ∀ k, (k < fuel)%nat → idle (run k w).2 →
  clock (w_step (run k w).2) + pollFrequency ≤ clock (w_step (run (S k) w).2).

Lemma paced_add a b w : steady w → paced (a + b) w → paced b (run a w).2.
Proof.
  intros Hs Hp k Hk. rewrite <- !run_add by done. rewrite Nat.add_succ_r. apply Hp. lia.
Qed.

(** While nothing is leased, the rows stay and the clock advances. *)
Lemma idle_stretch m w :
  steady w → paced m w → workload (jobs (w_db (run m w).2)) = workload (jobs (w_db w)) →
  leases (jobs (w_db (run m w).2)) = leases (jobs (w_db w)) ∧
  clock (w_step w) + Z.of_nat m * pollFrequency ≤ clock (w_step (run m w).2).
Proof.
  intros Hs Hp. induction m as [|m IH]; intros Hw; [split; [done|cbn; lia]|].
  destruct (run_steady m w Hs) as [_ Hm]. pose proof (run_workload m w Hs) as H1.
  pose proof (run_workload 1 _ Hm) as H2. rewrite <- run_add, Nat.add_1_r in H2 by done.
  destruct IH as [Hj Hc]; [intros k Hk; apply Hp; lia|lia|]. destruct (round_workload _ (proj1 Hm)) as [H|[Hi H]];
    rewrite <- run_last in H by done; [lia|].
  split; [by rewrite H|]. pose proof (Hp m ltac:(lia) Hi). lia.
Qed.

(** The idle rounds that outlast a lease. *)
Definition patience : nat := 25.

Lemma some_work w :
  steady w → paced (S patience) w → (0 < workload (jobs (w_db w)))%nat →
  (workload (jobs (w_db (run (S patience) w).2)) < workload (jobs (w_db w)))%nat.
Proof.
  intros Hs Hp Hpos. destruct (run_steady patience w Hs) as [_ Hm]. pose proof (run_workload patience w Hs) as H1.
  pose proof (run_workload 1 _ Hm) as H2. rewrite <- run_add, Nat.add_1_r in H2 by done.
  destruct (decide (workload (jobs (w_db (run patience w).2)) = workload (jobs (w_db w)))) as [Heq|Hne];
    [|lia].
  destruct (idle_stretch patience w Hs) as [Hj Hc]; [intros k Hk; apply Hp; lia|done|].
  destruct (round_workload _ (proj1 Hm)) as [H|[Hi _]]; [rewrite <- run_last in H by done; lia|].
  exfalso. destruct (workload_some _ Hpos) as (id & r & Hr & Hu).
  destruct (leases_lookup _ _ _ _ (eq_sym Hj) Hr) as (r1 & Hr1 & E1). specialize (Hi id r1 Hr1).
  rewrite (leaseable_lease _ r r1), (due_leaseable (clock (w_step w) + leaseDuration)) in Hi; [done| | | |done|by eapply Hs|done].
  - apply (clock_in_range E CK).
  - pose proof (ck_range _ CK (w_step (run patience w).2)). unfold int64_range. lia.
  - unfold patience, pollFrequency, leaseDuration, second in *. lia.
Qed.

Lemma run_drains K fuel w :
  steady w → paced fuel w → (workload (jobs (w_db w)) ≤ K)%nat → (S patience * K ≤ fuel)%nat →
  workload (jobs (w_db (run fuel w).2)) = 0%nat.
Proof.
  revert fuel w. induction K as [|K IH]; intros fuel w Hs Hp HK Hf.
  - pose proof (run_workload fuel w Hs). lia.
  - destruct (decide (workload (jobs (w_db w)) = 0%nat)) as [H0|H0]; [pose proof (run_workload fuel w Hs); lia|].
    assert (fuel = S patience + (fuel - S patience))%nat as -> by lia. rewrite run_add by done.
    destruct (run_steady (S patience) w Hs) as [_ Hs']. assert (paced (S patience) w) as Hp' by (intros k Hk; apply Hp; lia).
    pose proof (some_work w Hs Hp' ltac:(lia)). apply (IH (fuel - S patience)%nat); [done| |lia|lia].
    apply (paced_add (S patience)); [done|]. by replace (S patience + (fuel - S patience))%nat with fuel by lia.
Qed.

Lemma run_keeps_jobs fuel w id r :
  steady w → jobs (w_db w) !! id = Some r → is_Some (jobs (w_db (run fuel w).2) !! id).
Proof.
  intros Hs Hid. revert w r Hs Hid. induction fuel as [|fuel IH]; intros w r Hs Hid; [by exists r|].
  rewrite run_S by apply Hs. destruct (round_cases w (proj1 Hs)) as (_ & _ & _ & H).
  assert (is_Some (jobs (w_db (round w).2) !! id)) as [r' Hr'].
  { assert (is_Some (leases (jobs (w_db (round w).2)) !! id)) as His;
      [|unfold leases in His; rewrite lookup_fmap in His; by apply fmap_is_Some in His].
    destruct H as [[_ ->]|(r0 & r1 & id0 & [_ _ -> _])]; unfold leases; rewrite lookup_fmap; apply fmap_is_Some;
      [by exists r|]. apply lookup_insert_is_Some'. right. by exists r. }
  eapply IH; [by apply round_steady|exact Hr'].
Qed.

Lemma run_finishes fuel w :
  reachable op_in_range (w_db w) →
  (∀ id r, jobs (w_db w) !! id = Some r →
     queued_by (clock (w_step w) + RetryMaxDelay) r ∧ held_by (clock (w_step w) + leaseDuration) r) →
  paced fuel w → (S patience * workload (jobs (w_db w)) ≤ fuel)%nat →
  (run fuel w).1 = None ∧
  ∀ id r, jobs (w_db w) !! id = Some r → ∃ r', jobs (w_db (run fuel w).2) !! id = Some r' ∧
    (status (r_lease r') = StatusSucceeded ∨ status (r_lease r') = StatusFailed).
Proof.
  intros Hr Hd Hp Hf.
  assert (steady w) as Hs.
  { split; [split; [done|]|]; intros id r Hid; destruct (Hd _ _ Hid) as [Hq Hh]; [done|]. split; [|done].
    eapply queued_by_le; [|exact Hq]. unfold RetryMaxDelay, leaseDuration, second. lia. }
  pose proof (run_drains _ fuel w Hs Hp (le_n _) Hf) as H0. split; [by apply run_steady|].
  intros id r Hid. destruct (run_keeps_jobs fuel w id r Hs Hid) as [r' Hr']. exists r'. split; [done|].
  pose proof (workload_finished _ _ _ H0 Hr') as Hu. unfold unfinished in Hu.
  destruct (status (r_lease r')); auto; done.
Qed.

(** C24: the queue is worked off. A worker, the only one on a working store, runs
    Run, whose context is not cancelled. No job waits for longer than a lease when
    it starts, no new job arrives, and whenever a round finds nothing due, the next comes pollFrequency
    later. Then, whatever the API server and NodeVault answer, wherever deadlines
    fall, and whatever the redelivery loop, the reading handlers and the probes do
    meanwhile, after 26 rounds for each attempt that is left and 26 more for each job,
    every job has succeeded or failed, and Run is still running. *)
Theorem queue_drains fuel w :
  reachable op_in_range (w_db w) →
  (∀ id r, jobs (w_db w) !! id = Some r →
     queued_by (clock (w_step w) + RetryMaxDelay) r ∧ held_by (clock (w_step w) + leaseDuration) r) →
  paced fuel w → (S patience * workload (jobs (w_db w)) ≤ fuel)%nat →
  (run fuel w).1 = None ∧
  ∀ id r, jobs (w_db w) !! id = Some r → ∃ r', jobs (w_db (run fuel w).2) !! id = Some r' ∧
    (status (r_lease r') = StatusSucceeded ∨ status (r_lease r') = StatusFailed).
Proof. apply run_finishes. Qed.

End Drain.

(** ** A concrete run *)

(** Nothing but the store answers, every step takes five seconds, and the
    redelivery loop claims deliveries all the time. *)
Definition env_slow (n : nat) : step_env := {|
  e_others := [Foreign (OpClaimPendingDeliveries deliveryBatchLimit deliveryClaimTTL) (at_s 1) [] [Some 9%N]];
  e_now := time_add (at_s 1) (Z.min (Z.of_nat n) (10 ^ 4) * pollFrequency);
  e_ended := false; e_faults := []; e_rng := [Some (N.of_nat n)];
  e_create := Some (ApiError ApiOther "etcd leader changed"); e_get := Err (ErrText "timeout");
  e_list := Err (ErrText "timeout"); e_pods := Err (ErrText "timeout"); e_delete := Some (ErrText "timeout");
  e_reports := Err (ErrText "timeout"); e_submit := Some (ErrText "connection refused");
  e_event := EvDone true; e_rnd := λ _, 0; e_elapsed := 3 |}.

#[export] Instance env_slow_works : StoreWorks env_slow.
Proof. intros n. constructor; [repeat constructor|reflexivity|by eexists _, _]. Qed.

Lemma slow_claim_in_range : op_in_range (OpClaimPendingDeliveries deliveryBatchLimit deliveryClaimTTL) (at_s 1).
Proof. split; split; vm_compute; discriminate. Qed.

Lemma env_slow_clock : clock_ok env_slow.
Proof.
  assert (∀ n, clock env_slow n = at_s 1 + Z.min (Z.of_nat n) (10 ^ 4) * pollFrequency) as Hc by done.
  split; intros n; rewrite !Hc; unfold pollFrequency, second in *.
  - lia.
  - change (at_s 1) with 1720000001000000000. lia.
Qed.

Lemma env_slow_drains : drain_env env_slow.
Proof.
  split; [|intros n m Hm; cbn; lia|done]. intros n. constructor; [split; [exact slow_claim_in_range|done]|constructor].
Qed.

#[local] Abbreviation w_slow := (World d_created false 0 []).
#[local] Abbreviation run_slow k := (Run env_slow sample_worker (λ _, true) 3 (λ _, 0) k w_slow).

Lemma created_only id r : jobs d_created !! id = Some r → id = "job-1" ∧ r = sample_row d_created.
Proof. apply only_sample. vm_compute. reflexivity. Qed.

Lemma created_waits t u id r : jobs d_created !! id = Some r → queued_by t r ∧ held_by u r.
Proof.
  intros Hid. apply created_only in Hid as [_ ->].
  assert (status (r_lease (sample_row d_created)) = StatusQueued) as Hs by (vm_compute; reflexivity).
  assert (retry_not_before (r_lease (sample_row d_created)) = None) as Hn by (vm_compute; reflexivity).
  unfold queued_by, held_by. rewrite Hs, Hn. split; [intros _; exact I|discriminate].
Qed.

Lemma env_slow_paced fuel : Z.of_nat (w_step (run_slow fuel).2) < 10 ^ 4 → paced env_slow sample_worker (λ _, true) 3 (λ _, 0) fuel w_slow.
Proof.
  intros Hb k Hk _. assert (steady env_slow w_slow) as Hs.
  { split; [split; [apply created_reachable|]|]; intros id r Hid;
      [exact (proj1 (created_waits _ 0 _ _ Hid))|exact (created_waits _ _ _ _ Hid)]. }
  pose proof (run_step env_slow env_slow_clock env_slow_drains sample_worker ltac:(done) (λ _, true) 3 (λ _, 0)) as Hstep.
  pose proof (Hstep k (S k) w_slow Hs ltac:(lia)) as H1.
  assert (w_step (run_slow (S k)).2 ≤ w_step (run_slow fuel).2)%nat as H2.
  { destruct (decide (S k = fuel)) as [<-|]; [done|]. apply Nat.lt_le_incl, Hstep; [done|lia]. }
  unfold clock. cbn [env_slow e_now]. unfold time_add, pollFrequency, second in *. lia.
Qed.

(** The job fails for good after its last attempt. *)
Lemma queue_drains_witness :
  (run_slow 156).1 = None ∧
  (∃ r', jobs (w_db (run_slow 156).2) !! "job-1" = Some r' ∧
     (status (r_lease r') = StatusSucceeded ∨ status (r_lease r') = StatusFailed)) ∧
  status (r_lease (sample_row (w_db (run_slow 156).2))) = StatusFailed ∧
  attempt (r_lease (sample_row (w_db (run_slow 156).2))) = maxAttempts.
Proof.
  destruct (queue_drains env_slow env_slow_clock env_slow_drains sample_worker ltac:(done) (λ _, true) 3 (λ _, 0) 156 w_slow)
    as [H1 H2].
  - apply created_reachable.
  - intros id r Hid. exact (created_waits _ _ _ _ Hid).
  - apply env_slow_paced. vm_compute. reflexivity.
  - apply Nat.leb_le. vm_compute. reflexivity.
  - split; [exact H1|]. split.
    + apply (H2 "job-1" (sample_row d_created)). apply sample_row_lookup. vm_compute. reflexivity.
    + split; vm_compute; reflexivity.
Defined.
