(* ===== verification/Verdicts.v ===== *)
(** * Verdicts: over Run, no verdict is lost

    What Accounts.v says of one attempt, over the loop that leases and processes
    jobs: at any time every finished job has its verdict at NodeVault or in the
    delivery ledger, and every other job can still report; but for the job in
    hand when the context of Run is cancelled. *)

From S2P Require Import Prelude GoTime Errors Work Db Fingerprint Store StoreSpec StoreRun StoreStep.
From S2P Require Import Retry Names Failure World Worker Pipeline Shared Own Follow Protocol Attempt Stages Process.
From S2P Require Import AttemptSafe Codec WorkerSafe Instances RowInv RowRead Samples.
From S2P Require Import StoreLease StoreDelivery StoreExec Triple Round Keeps Accounts Drain.

(** The verdict on job [id]: still to come, or accounted for. *)
Definition in_order {DJ : DeliveryJson} (id : string) (tr : list action) (r : row) : Prop :=
  if unfinished r then terminal_submitted (r_terminal r) = false ∧ undelivered r
  else terminal_submitted (r_terminal r) = true ∧ accounted id r tr.

(** A job that just arrived. *)
Definition newborn (r : row) : Prop :=
  status (r_lease r) = StatusQueued ∧ terminal_submitted (r_terminal r) = false ∧ undelivered r.

Section Verdicts.
Context {SO : SqlOrder} {AJ : ActionsJson} {DJ : DeliveryJson}.
Context (E : nat → step_env) {HS : StoreWorks E} (CK : clock_ok E).
Context (Hothers : ∀ n, Forall (λ f, op_in_range (f_op f) (f_now f)) (e_others (E n))).
Context (Hrnd : ∀ n, int63n_ok (e_rnd (E n))).
Context (wk : worker) (Hwk : workerName wk ≠ "") (Hv : vaultClient wk = true).
Context (valid_label_value : string → bool) (rounds : nat) (float_overflow : Z → Z).

Lemma in_order_same id tr l r r' : same_work r r' → in_order id tr r → in_order id (l ++ tr) r'.
Proof.
  intros [Hl Ht _ Hu Hp]. unfold in_order, unfinished. rewrite Hl, Ht.
  destruct (status (r_lease r)); intros [H1 H2]; (split; [done|]); auto; by eapply accounted_more.
Qed.

Lemma newborn_in_order id tr r : newborn r → in_order id tr r.
Proof. intros (H1 & H2 & H3). unfold in_order, unfinished. by rewrite H1. Qed.

Lemma concluded_in_order job r tr : concluded job r tr → in_order (JobID job) tr r.
Proof.
  unfold in_order, unfinished. intros [(H1 & H2 & H3)|([H1|H1] & H2 & H3)]; by rewrite H1.
Qed.

(** ** The others *)

Definition orderly (d d' : db) : Prop :=
  reachable op_in_range d → reachable op_in_range d' ∧
  ∀ id r', jobs d' !! id = Some r' → (∃ r, jobs d !! id = Some r ∧ same_work r r') ∨ newborn r'.

Lemma newborn_same r r' : same_work r r' → newborn r → newborn r'.
Proof. intros [Hl Ht _ Hu _] (H1 & H2 & H3). unfold newborn. rewrite Hl, Ht. auto. Qed.

#[local] Instance orderly_preorder : PreOrder orderly.
Proof.
  split; [intros d Hr; split; [done|]; intros id r Hid; left; by exists r|].
  intros d1 d2 d3 H12 H23 Hr1. destruct (H12 Hr1) as [Hr2 B12]. destruct (H23 Hr2) as [Hr3 B23]. split; [done|].
  intros id r3 H3. destruct (B23 _ _ H3) as [(r2 & H2 & S23)|?]; [|by right].
  destruct (B12 _ _ H2) as [(r1 & H1 & S12)|Hn]; [left|right; by eapply newborn_same].
  exists r1. split; [done|]. by etrans.
Qed.

Lemma row_step_new o now id r' : spares o = true → row_step o now id None (Some r') → newborn r'.
Proof. intros Ho Hs. by inversion Hs; subst. Qed.

#[local] Instance others_orderly : Others E orderly.
Proof.
  intros n. pose proof (sw_others _ (works n)) as H1. pose proof (Hothers n) as H2. rewrite Forall_forall in *.
  intros f Hf d Hr. specialize (H1 f Hf). specialize (H2 f Hf). cbv beta in H1, H2.
  pose proof (run_op_step (f_op f) (f_now f) (Db (jobs d) (store_meta d) (f_faults f) (f_rng f)) (spares_ok _ H1)
    (reachable_keyed _ _ Hr)) as Hs. split; [apply run_op_reachable; [done|by apply spares_ok|done]|].
  intros id r' Hid. unfold run_foreign in Hid. cbn [jobs] in Hs. destruct (Hs id) as [E1|E1]; rewrite Hid in E1.
  - left. exists r'. split; [done|]. reflexivity.
  - destruct (jobs d !! id) as [r|]; [left; exists r; split; [done|by eapply row_step_spares]|right; by eapply row_step_new].
Qed.

(** ** All jobs but [but] are in order *)

Definition ordered_at (but : option string) (d : db) (tr : list action) : Prop :=
  reachable op_in_range d ∧ ∀ id r, Some id ≠ but → jobs d !! id = Some r → in_order id tr r.
Definition ordered (but : option string) (w : world) : Prop := ordered_at but (w_db w) (w_trace w).

Lemma orderly_ordered but d d' tr l : orderly d d' → ordered_at but d tr → ordered_at but d' (l ++ tr).
Proof.
  intros Hd [Hr Ho]. destruct (Hd Hr) as [Hr' B]. split; [done|]. intros id r' Hne Hid.
  destruct (B _ _ Hid) as [(r & H & Hs)|Hn]; [|by apply newborn_in_order]. eapply in_order_same; [done|]. by apply Ho.
Qed.

Definition tended (job : Job) (w w' : world) : Prop := ordered (Some (JobID job)) w → ordered (Some (JobID job)) w'.

#[local] Instance tended_on_store job : OnStore E wk job (tended job).
Proof.
  split.
  - split; [by intros w H|]. intros w1 w2 w3 H12 H23 H. by apply H23, H12.
  - intros w H. destruct (step_through E orderly w) as (d1 & -> & Hd1). by apply (orderly_ordered _ _ _ _ [] Hd1).
  - intros a w H. apply (orderly_ordered _ (w_db w) _ (w_trace w) [a]); [reflexivity|done].
  - by intros b w H.
  - intros A c act m o Ho Hm w H. unfold ordered.
    destruct (store_call_through E orderly c act m w) as (d1 & fs & vs & Hd1 & Hdb & _).
    pose proof (call_records E c act m w) as Htr.
    rewrite Hdb, Htr, Hm. destruct (orderly_ordered _ _ _ _ [act (store_call E c act m w).1] Hd1 H) as [Hr Hord].
    pose proof (attempt_op_ok E wk Hwk job o Ho) as Hok. split.
    + apply run_op_reachable; [done..|]. by apply (attempt_op_in_range E CK Hrnd wk job).
    + intros id r Hne Hid.
      destruct (run_op_step o (clock E (w_step w)) (Db (jobs d1) (store_meta d1) fs vs) Hok (reachable_keyed _ _ Hr) id)
        as [E1|E1]; [rewrite E1 in Hid; by apply Hord|].
      destruct (attempt_op_only _ _ _ _ _ _ _ _ Ho E1) as [-> _]. done.
Qed.

#[local] Instance tended_closes job : Closes E wk job (tended job).
Proof. apply (on_store_closes E Hrnd), _. Qed.

(** ** Run *)

Context (Hends : ∀ n, e_ended (E n) = true → e_ended (E (S n)) = true).

Lemma ended_stays n m : (n ≤ m)%nat → e_ended (E n) = true → e_ended (E m) = true.
Proof. induction 1; auto. Qed.

(** Every job is in order, or the context was cancelled and every job but one is. *)
Definition ordered_but_one (w : world) : Prop := ∃ but, (but = None ∨ cut E w) ∧ ordered but w.

Lemma round_ordered w : ordered None w → e_ended (E (w_step w)) = false →
  ordered_but_one (Run_once E wk valid_label_value rounds float_overflow w).2.
Proof.
  intros H He.
  destruct (round_splits E CK wk Hwk valid_label_value rounds float_overflow orderly w He)
    as (d0 & Hd0 & [(j & r & w1 & [Hid Hl Hat Hj Hr1 _ [l Htr]] & ->)|(w1 & [_ Hj Hr1 _ [l Htr]] & ->)]).
  - intros d0 Hd0. by apply Hd0, H.
  - assert (∀ id r1, jobs d0 !! id = Some r1 → in_order id (w_trace w1) r1) as Ho1.
    { intros id r1. rewrite Htr. by apply (orderly_ordered None _ _ _ l Hd0 H). }
    assert (ordered (Some (JobID j)) w1) as Hw1.
    { split; [done|]. intros id r1 Hne. rewrite Hj, lookup_insert_ne by congruence. apply Ho1. }
    pose proof (process_does E wk j (tended j) valid_label_value rounds float_overflow w1 Hw1) as Hw2.
    cbn [snd]. set (w2 := (process _ _ _ _ _ j w1).2) in *.
    destruct (decide (cut E w2)) as [Hc|Hc]; [exists (Some (JobID j)); by split; [right|]|].
    exists None. split; [by left|]. destruct Hw2 as [Hr2 Ho2].
    destruct (process_concludes E wk Hv j valid_label_value rounds float_overflow w1
      (lease_row (workerName wk) leaseDuration (clock E (w_step w)) r)) as (r' & Hr' & Hcon); [| | |exact Hc|].
    { by apply (reachable_keyed _ _ Hr1). }
    { by rewrite Hj, lookup_insert_eq. }
    { specialize (Ho1 _ _ Hid). unfold in_order in Ho1. rewrite (leaseable_unfinished _ _ Hl) in Ho1.
      split; [by apply held_generation_iff|]. by destruct Ho1. }
    split; [done|]. intros id r2 _ Hid2. destruct (decide (id = JobID j)) as [->|Hne].
    + fold w2 in Hr'. rewrite Hr' in Hid2. injection Hid2 as <-. by apply concluded_in_order.
    + apply Ho2; [congruence|done].
  - exists None. split; [by left|].
    destruct (wait_through E orderly w1) as (Hd1 & _ & Htr1). unfold ordered. rewrite Htr1.
    apply (orderly_ordered None _ _ (w_trace w1) [] Hd1). split; [done|]. intros id r. rewrite Hj, Htr.
    by apply (orderly_ordered None _ _ _ l Hd0 H).
Qed.

Lemma run_ordered fuel w : ordered_but_one w →
  ordered_but_one (Run E wk valid_label_value rounds float_overflow fuel w).2.
Proof.
  revert w. induction fuel as [|fuel IH]; intros w Hw; [done|]. cbn [Run]. unfold mbind, W_bind.
  destruct (e_ended (E (w_step w))) eqn:He.
  - unfold Run_once, ctx_Err, ctx_err, mbind, W_bind. by rewrite He.
  - assert (ordered None w) as Hn.
    { destruct Hw as (but & [->|(n & Hn & Hc)] & H); [done|].
      by rewrite (ended_stays n (w_step w)) in He by (done || lia). }
    pose proof (round_ordered w Hn He) as H.
    destruct (Run_once E wk valid_label_value rounds float_overflow w) as [[e|] w1]; [done|by apply IH].
Qed.

Lemma run_in_order fuel w : (∀ n, e_ended (E n) = false) → ordered None w →
  ordered None (Run E wk valid_label_value rounds float_overflow fuel w).2.
Proof.
  intros Ho Hw. destruct (run_ordered fuel w) as (but & [->|(n & _ & Hn)] & H); [exists None; auto|done|].
  by rewrite Ho in Hn.
Qed.

(** C7: no verdict is lost, but to a shutdown. A worker with a NodeVault, the only
    one on a working store, runs Run, whose context stays cancelled once it is.
    Whatever the API server and NodeVault answer, wherever the attempts' deadlines
    fall, and whatever the redelivery loop, the ingress and the probes do
    meanwhile: if in the beginning every job is in order, then at any later time
    every job is, or Run's context was cancelled and every job but one is. In
    order is a finished job that took its terminal slot and whose terminal record
    was taken by NodeVault or is kept by the delivery ledger, exactly as it was
    sent, and a job that is not finished, has its terminal slot free and nothing
    in the ledger. The exception is the job in hand at the cancellation: its calls
    fail from then on, and verdict_lost_to_shutdown is a run in which its verdict
    reaches neither. *)
Theorem no_verdict_lost fuel w :
  reachable op_in_range (w_db w) →
  (∀ id r, jobs (w_db w) !! id = Some r → in_order id (w_trace w) r) →
  let w' := (Run E wk valid_label_value rounds float_overflow fuel w).2 in
  ∃ but, (but = None ∨ ∃ n, (n < w_step w')%nat ∧ e_ended (E n) = true) ∧
    ∀ id r, Some id ≠ but → jobs (w_db w') !! id = Some r → in_order id (w_trace w') r.
Proof.
  intros Hr Ho w'. destruct (run_ordered fuel w) as (but & Hb & _ & H).
  - exists None. split; [by left|]. split; [done|]. intros i x _. apply Ho.
  - by exists but.
Qed.

End Verdicts.

(** ** A concrete run *)

#[local] Abbreviation run_slow k :=
  (Run env_slow sample_worker (λ _, true) 3 (λ _, 0) k (World d_created false 0 [])).

Lemma env_slow_in_range n : Forall (λ f, op_in_range (f_op f) (f_now f)) (e_others (env_slow n)).
Proof. constructor; [exact slow_claim_in_range|constructor]. Qed.

(** NodeVault is down and no signal arrives: the verdict of the failed job is in
    the ledger. *)
Lemma no_verdict_lost_witness :
  let r := sample_row (w_db (run_slow 156).2) in
  jobs (w_db (run_slow 156).2) !! "job-1" = Some r ∧ status (r_lease r) = StatusFailed ∧
  accounted "job-1" r (w_trace (run_slow 156).2) ∧ existsb (λ a, terminal_record a) (w_trace (run_slow 156).2) = true.
Proof.
  cbv zeta.
  assert (jobs (w_db (run_slow 156).2) !! "job-1" = Some (sample_row (w_db (run_slow 156).2))) as Hid
    by (apply sample_row_lookup; vm_compute; reflexivity).
  pose proof (no_verdict_lost env_slow env_slow_clock env_slow_in_range (de_rnd _ env_slow_drains) sample_worker
    ltac:(done) eq_refl (λ _, true) 3 (λ _, 0) ltac:(done) 156 (World d_created false 0 []) created_reachable) as H.
  destruct (H ltac:(intros id r Hr; apply created_only in Hr as [_ ->]; vm_compute; split; reflexivity))
    as (but & [->|(n & _ & Hn)] & Ho); [|discriminate]. clear H. pose proof (Ho "job-1" _ ltac:(discriminate) Hid) as H.
  assert (unfinished (sample_row (w_db (run_slow 156).2)) = false) as Hu by (vm_compute; reflexivity).
  unfold in_order in H. rewrite Hu in H.
  split; [exact Hid|]. split; [vm_compute; reflexivity|]. split; [exact (proj2 H)|]. vm_compute. reflexivity.
Defined.

(** ** A shutdown at the wrong moment *)

(** SIGTERM arrives while the terminal record of job-1 is being sent; the next
    process leases the job once its lease has expired, and nothing fails. *)
Definition env_term (n : nat) : step_env := {|
  e_others := []; e_now := at_s 10; e_ended := (11 <=? n)%nat; e_faults := []; e_rng := [Some 7%N];
  e_create := None; e_get := Ok [true_condition "Complete"]; e_list := Ok []; e_pods := Ok [];
  e_delete := None; e_reports := Ok []; e_submit := None; e_event := EvPoll;
  e_rnd := λ _, 0; e_elapsed := 3 |}.
Definition env_restart (_ : nat) : step_env := {|
  e_others := []; e_now := at_s 1000; e_ended := false; e_faults := []; e_rng := [Some 8%N];
  e_create := None; e_get := Ok [true_condition "Complete"]; e_list := Ok []; e_pods := Ok [];
  e_delete := None; e_reports := Ok []; e_submit := None; e_event := EvPoll;
  e_rnd := λ _, 0; e_elapsed := 3 |}.

Definition w_term : option error * world :=
  Run env_term sample_worker (λ _, true) 3 (λ _, 0) 2 (World d_created false 0 []).
Definition w_restart : world :=
  (Run env_restart sample_worker (λ _, true) 3 (λ _, 0) 1 (World (w_db w_term.2) false 0 (w_trace w_term.2))).2.

Definition record_taken (a : action) : bool :=
  match a with ASubmitCheck r None => cr_Terminal r | ASubmitScan r None => sr_Terminal r | _ => false end.

Lemma verdict_lost_to_shutdown :
  let r := sample_row (w_db w_term.2) in let r' := sample_row (w_db w_restart) in
  w_term.1 = Some CtxCanceled ∧
  (status (r_lease r) = StatusRunning ∧ terminal_submitted (r_terminal r) = true ∧ undelivered r) ∧
  status (r_lease r') = StatusSucceeded ∧ undelivered r' ∧
  existsb terminal_record (w_trace w_term.2) = true ∧ existsb record_taken (w_trace w_restart) = false.
Proof. vm_compute. auto 10. Qed.
