(* ===== verification/Deliver.v ===== *)
(** * Deliver: every record that is owed reaches its end

    RunDeliveryLoop ([pkg/worker/delivery.go]) on a store that works, once
    NodeVault answers again: every record whose delivery failed is delivered,
    or dead-lettered for a reason, in a number of ticks known beforehand. *)

From S2P Require Import Prelude GoTime Errors Work Db Fingerprint Store StoreSpec StoreRun StoreStep.
From S2P Require Import Retry Names Failure World Worker Pipeline Shared Codec.
From S2P Require Import Instances RowInv RowRead Samples StoreDelivery WorkerSafe.

(** A delivery failed and is to be tried again. *)
Definition owed (r : row) : bool :=
  match result_delivery_status (r_delivery r) with DeliveryPending | DeliveryDelivering => true | _ => false end.

Definition owing (t : gmap string row) : gset string := dom (filter (λ x : string * row, owed x.2 = true) t).

Lemma elem_of_owing t id : id ∈ owing t ↔ ∃ r, t !! id = Some r ∧ owed r = true.
Proof.
  unfold owing. rewrite elem_of_dom. split.
  - intros [r Hr]. apply map_lookup_filter_Some in Hr as [Hr Ho]. by exists r.
  - intros (r & Hr & Ho). exists r. by apply map_lookup_filter_Some.
Qed.

Section Due.
Context {SO : SqlOrder}.

(** By [t] the record may be claimed. *)
Definition due_by (t : instant) (r : row) : Prop :=
  let l := r_delivery r in
  match result_delivery_status l with
  | DeliveryPending =>
      match next_attempt_at l with None => True | Some s => ∃ u, s = formatTS u ∧ ts_in_range u ∧ u ≤ t end
  | DeliveryDelivering => ∃ u, result_delivery_claimed_until l = Some (formatTS u) ∧ ts_in_range u ∧ u ≤ t
  | _ => True
  end.

Lemma due_claimable t now r :
  ts_in_range now → t < now → owed r = true → due_by t r → claimable (formatTS now) r = true.
Proof.
  intros Hin Ht Ho Hd. unfold claimable, owed, due_by in *. destruct (result_delivery_status _); try done; cbn in *.
  - rewrite orb_false_r. destruct (next_attempt_at _); [|done]. destruct Hd as (u & -> & Hu & Hle).
    rewrite formatTS_leb by done. apply Z.leb_le. lia.
  - destruct Hd as (u & -> & Hu & Hle). rewrite formatTS_ltb by done. apply Z.ltb_lt. lia.
Qed.

Lemma claimable_owed now r : claimable now r = true → owed r = true.
Proof. unfold claimable, owed. by destruct (result_delivery_status _). Qed.

Lemma size_list_to_set_le (l : list string) : (size (list_to_set l : gset string) ≤ length l)%nat.
Proof.
  induction l as [|x l IH]; [done|]. cbn. rewrite size_union_alt, size_singleton.
  pose proof (subseteq_size (list_to_set l ∖ {[x]} : gset string) (list_to_set l) ltac:(set_solver)). lia.
Qed.

(** All due records are claimed, or as many as are asked for. *)
Lemma owing_matching t now :
  table_keyed t → (∀ id r, t !! id = Some r → owed r = true → claimable now r = true) →
  (size (owing t) ≤ length (matching (claimable now) t))%nat.
Proof.
  intros Hk Hd. rewrite <- (length_fmap (λ r, job_id (r_ident r))).
  etrans; [|apply size_list_to_set_le].
  apply subseteq_size. intros id (r & Hr & Ho)%elem_of_owing. apply elem_of_list_to_set.
  apply list_elem_of_fmap. exists r. split; [by rewrite (Hk _ _ Hr)|]. apply elem_of_matching. eauto.
Qed.
End Due.

(** How the record [p] ended, as the row and the actions tell. *)
Definition verdict {AJ : ActionsJson} {DJ : DeliveryJson} (p : string) (r : row) (tr : list action) : Prop :=
  result_delivery_status (r_delivery r) = DeliveryAcknowledged ∧
    (∃ req, redelivery p = Ok req ∧ sent req None ∈ tr) ∨
  result_delivery_status (r_delivery r) = DeliveryDeadLetter ∧
    ((∃ e, redelivery p = Err e) ∨
     ∃ req e, redelivery p = Ok req ∧ sent req (Some e) ∈ tr ∧ Retryable e = false).

Section Deliver.
Context {SO : SqlOrder} {AJ : ActionsJson} {DJ : DeliveryJson}.
Context (E : nat → step_env) (wk : worker).
#[local] Abbreviation clock := (clock E).

(** What the others may do: anything but fail a first delivery, claim, or
    redeliver. *)
Definition bystander (o : op) : bool :=
  match o with
  | OpMarkFirstDeliveryPending _ _ _ _ _ _ | OpClaimPendingDeliveries _ _
  | OpMarkResultDeliveryPending _ _ _ _ | OpMarkResultDeliveryAcknowledged _ _
  | OpMarkResultDeliveryDeadLetter _ _ _ => false
  | _ => true
  end.

(** NodeVault takes a record or refuses it for good; no signal arrives. *)
Record delivers (e : step_env) : Prop := {
  dl_others : Forall (λ f, bystander (f_op f) = true ∧ op_ok (f_op f) ∧ op_in_range (f_op f) (f_now f)) (e_others e);
  dl_faults : e_faults e = [];
  dl_rng : (Z.to_nat deliveryBatchLimit ≤ length (e_rng e))%nat ∧
    Forall (λ v, is_Some v) (take (Z.to_nat deliveryBatchLimit) (e_rng e));
  dl_answer x : e_submit e = Some x → Retryable x = false;
  dl_open : e_ended e = false;
}.

Context (CK : clock_ok E) (HE : ∀ n, delivers (E n)).

(** ** The others *)

Definition unbothered (d d' : db) : Prop :=
  reachable op_in_range d → reachable op_in_range d' ∧
  (∀ id r, jobs d !! id = Some r → result_delivery_status (r_delivery r) ≠ DeliveryNotApplicable →
     ∃ r', jobs d' !! id = Some r' ∧ r_delivery r' = r_delivery r) ∧
  (∀ id r', jobs d' !! id = Some r' → owed r' = true → ∃ r, jobs d !! id = Some r ∧ r_delivery r' = r_delivery r).

#[local] Instance unbothered_preorder : PreOrder unbothered.
Proof.
  split; [intros d Hr; split_and!; eauto|]. intros d1 d2 d3 H12 H23 Hr1.
  destruct (H12 Hr1) as (Hr2 & F12 & B12). destruct (H23 Hr2) as (Hr3 & F23 & B23). split_and!; [done| |].
  - intros id r1 H1 Hn. destruct (F12 _ _ H1 Hn) as (r2 & H2 & E2).
    destruct (F23 _ _ H2) as (r3 & H3 & E3); [by rewrite E2|]. exists r3. by rewrite E3.
  - intros id r3 H3 Ho. destruct (B23 _ _ H3 Ho) as (r2 & H2 & E2).
    destruct (B12 _ _ H2) as (r1 & H1 & E1); [unfold owed in *; by rewrite <- E2|]. exists r1. by rewrite E2.
Qed.

Lemma row_step_bystander o now id r r' :
  bystander o = true → row_step o now id r (Some r') →
  (∃ r0, r = Some r0 ∧ r_delivery r' = r_delivery r0) ∨
  owed r' = false ∧ ∀ r0, r = Some r0 → result_delivery_status (r_delivery r0) = DeliveryNotApplicable.
Proof.
  intros Ho Hs. inversion Hs; subst; try done; try (left; by eexists); right; (split; [done|]); [done|].
  intros r1 [= <-]. take firstDeliveryFence Hf. unfold firstDeliveryFence in Hf. by fence_props.
Qed.

#[local] Instance others_unbothered : Others E unbothered.
Proof.
  intros n. eapply Forall_impl; [apply (dl_others _ (HE n))|]. intros f (Hb & Hok & Hin) d Hr.
  pose proof (run_op_step (f_op f) (f_now f) (Db (jobs d) (store_meta d) (f_faults f) (f_rng f)) Hok
    (reachable_keyed _ _ Hr)) as Hs. cbn [jobs] in Hs. unfold run_foreign. set (d' := run_op _ _ _) in *.
  split_and!; [by apply run_op_reachable| |].
  - intros id r Hid Hn. destruct (Hs id) as [H|H]; [rewrite Hid in H; by exists r|]. rewrite Hid in H.
    destruct (row_step_some _ _ _ _ _ H) as [r' Er]. rewrite Er in H. exists r'. split; [done|].
    destruct (row_step_bystander _ _ _ _ _ Hb H) as [(r0 & [= <-] & ?)|[_ H0]]; [done|]. by destruct (Hn (H0 r eq_refl)).
  - intros id r' Hid Ho. destruct (Hs id) as [H|H]; rewrite Hid in H; [by exists r'|].
    destruct (row_step_bystander _ _ _ _ _ Hb H) as [(r0 & Hr0 & ?)|[H0 _]]; [by exists r0|congruence].
Qed.

(** ** The ledger *)

Lemma bind_run {A B} (m : W A) (k : A → W B) w a w1 : m w = (a, w1) → (m ≫= k) w = k a w1.
Proof. intros H. unfold mbind, W_bind. by rewrite H. Qed.

Lemma snd_then {A} (m : W A) w : (_ ← m; mret tt : W unit) w = (tt, (m w).2).
Proof. unfold mbind, W_bind. by destruct (m w). Qed.

Lemma verdict_more p r tr l : verdict p r tr → verdict p r (l ++ tr).
Proof.
  intros [[H (req & H1 & H2)]|[H [He|(req & e & H1 & H2 & H3)]]]; [left|right|right]; (split; [done|]).
  - exists req. split; [done|]. apply elem_of_app. by right.
  - by left.
  - right. exists req, e. split; [done|]. split; [apply elem_of_app; by right|done].
Qed.

Lemma verdict_settled p r tr : verdict p r tr → owed r = false ∧ result_delivery_status (r_delivery r) ≠ DeliveryDelivering.
Proof. unfold owed. by intros [[-> _]|[-> _]]. Qed.

Section Ledger.
(** The records owed at the beginning, and when they are due. *)
Context (owed0 : gmap string string) (horizon : instant).

(** Claimed for [j]. *)
Definition claim_held (j : Job) (r : row) : Prop :=
  redeliveryFence (ResultDeliveryClaimToken j) r = true ∧
  result_delivery_payload (r_delivery r) = ResultDeliveryPayload j.

Definition tracked (p : string) (tr : list action) (r : row) : Prop :=
  owed r = true ∧ result_delivery_payload (r_delivery r) = p ∨ verdict p r tr.

(** Besides the jobs in [js], which are claimed, only those in [rest] owe. *)
Record ledger (rest : gset string) (js : list Job) (d : db) (tr : list action) : Prop := {
  l_reach : reachable op_in_range d;
  l_tracked id p : owed0 !! id = Some p → ∃ r, jobs d !! id = Some r ∧ tracked p tr r;
  l_owed id r : jobs d !! id = Some r → owed r = true → id ∈ JobID <$> js ∨ id ∈ rest ∧ due_by horizon r;
  l_claimed j : j ∈ js → ∃ r, jobs d !! JobID j = Some r ∧ claim_held j r;
}.

Lemma claim_held_owed j r : claim_held j r → owed r = true.
Proof. intros [(H & _)%redeliveryFence_true _]. unfold owed. by rewrite H. Qed.

Lemma tracked_delivery p tr r r' : r_delivery r' = r_delivery r → tracked p tr r → tracked p tr r'.
Proof. intros H. unfold tracked, verdict, owed. by rewrite H. Qed.

Lemma ledger_through rest js d d' tr l :
  unbothered d d' → ledger rest js d tr → ledger rest js d' (l ++ tr).
Proof.
  intros Hd [Hr Ht Ho Hc]. destruct (Hd Hr) as (Hr' & F & B). constructor; [done| | |].
  - intros id p Hp. destruct (Ht _ _ Hp) as (r & Hid & Htr).
    destruct (F _ _ Hid) as (r' & Hr1 & E1).
    { destruct Htr as [[H _]|H]; [unfold owed in H|destruct H as [[H _]|[H _]]]; intros Hn; by rewrite Hn in H. }
    exists r'. split; [done|]. apply (tracked_delivery _ _ r); [done|].
    destruct Htr as [H|H]; [by left|right; by apply verdict_more].
  - intros id r' Hid Hw. destruct (B _ _ Hid Hw) as (r & Hr1 & E1). unfold owed, due_by in *. rewrite E1 in *. eauto.
  - intros j Hj. destruct (Hc _ Hj) as (r & Hid & Hh). pose proof (claim_held_owed _ _ Hh) as Hw.
    destruct (F _ _ Hid) as (r' & Hr1 & E1); [intros Hn; unfold owed in Hw; by rewrite Hn in Hw|].
    exists r'. split; [done|]. unfold claim_held, redeliveryFence in *. by rewrite E1.
Qed.

(** A claim is settled. *)
Lemma settle_call rest j js w act o (m : instant → M unit) (f : instant → row → row) :
  ledger rest (j :: js) (w_db w) (w_trace w) → NoDup (JobID <$> j :: js) →
  (∀ now d, (m now d).2 = run_op o now d) → op_ok o → (∀ n, op_in_range o (clock n)) →
  (∀ now, redelivery_write (JobID j) (ResultDeliveryClaimToken j) (m now) (f now)) →
  (∀ now r, verdict (ResultDeliveryPayload j) (f now r) (w_trace w)) →
  let w' := (store_call E LoopCtx act m w).2 in ledger rest js (w_db w') (w_trace w') ∧ (w_step w ≤ w_step w')%nat.
Proof.
  intros HL Hnd Hm Hok Hin Hw Hv w'. subst w'.
  destruct (store_call_open E unbothered LoopCtx act m w ltac:(done) (dl_open _ (HE _))) as (d1 & Hd1 & ->). cbv zeta. cbn [snd w_db w_trace w_step].
  split; [|lia].
  rewrite (dl_faults _ (HE _)). set (now := clock (w_step w)). set (d := Db _ _ _ _).
  apply (ledger_through _ _ _ _ _ [act (m now d).1] Hd1) in HL as [Hr Ht Ho Hc].
  destruct (Hc j) as (r & Hid & Hh); [by left|].
  assert (jobs (m now d).2 = <[JobID j := f now r]> (jobs d1)) as Hj.
  { destruct (redelivery_write_fenced _ _ _ _ (Hw now)) as [[msg ->] _]. rewrite fenced_run. unfold stmt_fault. cbn.
    by rewrite Hid, (proj1 Hh). }
  apply NoDup_cons in Hnd as [Hnj Hnd]. constructor.
  - rewrite Hm. apply run_op_reachable; [done..|apply Hin].
  - intros id p Hp. rewrite Hj. destruct (Ht _ _ Hp) as (r0 & Hr0 & Htr).
    destruct (decide (id = JobID j)) as [->|Hne]; [|rewrite lookup_insert_ne by done; by exists r0].
    rewrite lookup_insert_eq. eexists. split; [done|]. right. rewrite Hid in Hr0. injection Hr0 as <-.
    destruct Htr as [[_ <-]|[_ Hn]%verdict_settled].
    + rewrite (proj2 Hh). apply (verdict_more _ _ _ [_]), Hv.
    + by destruct Hh as [[]%redeliveryFence_true _].
  - intros id r0. rewrite Hj. intros [[<- <-]|[Hne Hr0]]%lookup_insert_Some How.
    + destruct (verdict_settled _ _ _ (Hv now r)) as [Hno _]. congruence.
    + destruct (Ho _ _ Hr0 How) as [Hin'|?]; [|by right]. cbn in Hin'. apply elem_of_cons in Hin' as [->|?]; [done|by left].
  - intros j' Hj'. rewrite Hj, lookup_insert_ne; [apply Hc; by right|].
    intros Heq. apply Hnj. cbn in *. rewrite Heq. by apply (list_elem_of_fmap_2 JobID).
Qed.

Lemma redeliverOne_ledger rest j js w :
  ledger rest (j :: js) (w_db w) (w_trace w) → NoDup (JobID <$> j :: js) →
  let w' := (redeliverOne E j w).2 in ledger rest js (w_db w') (w_trace w') ∧ (w_step w ≤ w_step w')%nat.
Proof.
  intros HL Hnd w'. subst w'.
  assert (∀ e dead w1, ledger rest (j :: js) (w_db w1) (w_trace w1) → dead || negb (Retryable e) = true →
    (∀ now r, verdict (ResultDeliveryPayload j) (dead_letter_row (error_text e) now r) (w_trace w1)) →
    let w' := (resolveRedelivery E j e dead w1).2 in ledger rest js (w_db w') (w_trace w') ∧ (w_step w1 ≤ w_step w')%nat) as Hdead.
  { intros e dead w1 HL1 Hd Hv w'. subst w'. unfold resolveRedelivery. rewrite Hd. rewrite snd_then.
    apply (settle_call _ j _ _ _
      (OpMarkResultDeliveryDeadLetter (JobID j) (ResultDeliveryClaimToken j) (error_text e)) _ (dead_letter_row (error_text e)) HL1 Hnd); try done;
      [intros n; split; [apply (clock_in_range E CK)|done]|by constructor]. }
  unfold redeliverOne. destruct (redelivery (ResultDeliveryPayload j)) as [req|e] eqn:Hred.
  - assert (∃ d1, unbothered (w_db w) d1 ∧ (match req with
      | inl req => vault_check E LoopCtx req
      | inr req => vault_scan E LoopCtx req end) w =
      (as_result (e_submit (E (w_step w))),
       World d1 (w_lost w) (S (w_step w)) (sent req (e_submit (E (w_step w))) :: w_trace w))) as (d1 & Hd1 & Hcall).
    { destruct req as [req|req];
        [destruct (api_call_open E unbothered LoopCtx (λ e, as_result (e_submit e)) (λ r, ASubmitCheck req (error_of r)) w
             ltac:(done) (dl_open _ (HE _)))
           as (d1 & Hd1 & Hc)
        |destruct (api_call_open E unbothered LoopCtx (λ e, as_result (e_submit e)) (λ r, ASubmitScan req (error_of r)) w
             ltac:(done) (dl_open _ (HE _)))
           as (d1 & Hd1 & Hc)]; exists d1; (split; [done|]); etrans; try exact Hc; by destruct (e_submit _). }
    rewrite (bind_run _ _ _ _ _ Hcall). apply (ledger_through _ _ _ _ _ [sent req (e_submit (E (w_step w)))] Hd1) in HL.
    destruct (e_submit (E (w_step w))) as [x|] eqn:Hans; cbn [as_result].
    + edestruct (Hdead x false (World d1 (w_lost w) (S (w_step w)) (sent req (Some x) :: w_trace w))) as [H1 H2];
        [exact HL|by rewrite (dl_answer _ (HE _) _ Hans)| |split; [exact H1|etrans; [|exact H2]; cbn; lia]]. intros now r. right.
      split; [done|]. right. exists req, x. split; [done|]. split; [by left|]. by apply (dl_answer _ (HE _)) in Hans.
    + rewrite snd_then.
      edestruct (settle_call _ j _ (World d1 (w_lost w) (S (w_step w)) (sent req None :: w_trace w))
        (did (OpMarkResultDeliveryAcknowledged (JobID j) (ResultDeliveryClaimToken j)))
        (OpMarkResultDeliveryAcknowledged (JobID j) (ResultDeliveryClaimToken j))
        (MarkResultDeliveryAcknowledged (JobID j) (ResultDeliveryClaimToken j)) acknowledged_row HL Hnd) as [H1 H2];
        [done|done|intros n; split; [apply (clock_in_range E CK)|done]|intros now; apply write_acknowledged| |split; [exact H1|etrans; [|exact H2]; cbn; lia]].
      intros now r. left. split; [done|]. exists req. split; [done|by left].
  - apply Hdead; [done..|]. intros now r. right. split; [done|]. left. by exists e.
Qed.

Lemma redeliver_all_ledger rest js w :
  ledger rest js (w_db w) (w_trace w) → NoDup (JobID <$> js) →
  let w' := (redeliver_all E js w).2 in ledger rest [] (w_db w') (w_trace w') ∧ (w_step w ≤ w_step w')%nat.
Proof.
  revert w. induction js as [|j js IH]; intros w HL Hnd; [done|].
  cbn [redeliver_all]. unfold mbind, W_bind. destruct (redeliverOne_ledger rest j js w HL Hnd) as [H1 H2].
  destruct (redeliverOne E j w) as [u w1]. apply NoDup_cons in Hnd as [_ Hnd].
  destruct (IH w1 H1 Hnd) as [H3 H4]. split; [done|]. cbn in *. lia.
Qed.

(** ** A tick *)

Lemma claim_step limit ttl now id r r' :
  row_step (OpClaimPendingDeliveries limit ttl) now id r r' → ∃ r0 r1, r = Some r0 ∧ r' = Some r1 ∧
    owed r0 = true ∧ owed r1 = true ∧ result_delivery_payload (r_delivery r1) = result_delivery_payload (r_delivery r0).
Proof. intros Hs. inversion Hs; subst. eexists _, _. split_and!; [done..|by eapply claimable_owed|done|done]. Qed.

#[local] Abbreviation claims now d js d' :=
  (ClaimPendingDeliveries deliveryBatchLimit deliveryClaimTTL now d = (Ok js, d')).

Lemma claim_in_range n : op_in_range (OpClaimPendingDeliveries deliveryBatchLimit deliveryClaimTTL) (clock n).
Proof.
  split; [apply (clock_in_range E CK)|]. apply (clock_later E CK). unfold deliveryClaimTTL, minute, second. lia.
Qed.

Lemma claimed_ledger rest n d js d' tr :
  ledger rest [] d tr → claims (clock n) d js d' →
  ledger (owing (jobs d) ∖ list_to_set (JobID <$> js)) js d' tr ∧ NoDup (JobID <$> js) ∧
  list_to_set (JobID <$> js) ⊆ owing (jobs d) ∧
  length js = Nat.min (Z.to_nat deliveryBatchLimit) (length (matching (claimable (formatTS (clock n))) (jobs d))).
Proof.
  intros [Hr Ht Ho _] Hcl.
  pose proof (ClaimPendingDeliveries_answers deliveryBatchLimit deliveryClaimTTL (clock n) d Hr (claim_in_range n)
    ltac:(done)) as Ha. rewrite Hcl in Ha. destruct Ha as (Hlen & Hnd & Hjs & Hout).
  pose proof (run_op_step (OpClaimPendingDeliveries deliveryBatchLimit deliveryClaimTTL) (clock n) d I
    (reachable_keyed _ _ Hr)) as Hs.
  assert (run_op (OpClaimPendingDeliveries deliveryBatchLimit deliveryClaimTTL) (clock n) d = d') as Hop
    by (cbn [run_op]; by rewrite Hcl).
  rewrite Hop in Hs. split; [|split_and!; [done| |done]].
  - constructor.
    + destruct d as [j0 m0 fs vs]. rewrite <- Hop. apply (run_op_reachable _ _ (Db j0 m0 fs vs)); [done..|apply claim_in_range].
    + intros id p Hp. destruct (Ht _ _ Hp) as (r & Hid & Htr). destruct (Hs id) as [->|H]; [by exists r|].
      destruct (claim_step _ _ _ _ _ _ H) as (r0 & r1 & E0 & -> & Ho0 & Ho1 & Hpay). exists r1. split; [done|].
      rewrite Hid in E0. injection E0 as <-. left. split; [done|]. rewrite Hpay.
      destruct Htr as [[_ ?]|[Hno _]%verdict_settled]; [done|congruence].
    + intros id r Hid How. destruct (decide (id ∈ JobID <$> js)) as [|Hni]; [by left|right].
      rewrite Hout in Hid by done. destruct (Ho _ _ Hid How) as [H%elem_of_nil|[_ Hd]]; [done|]. split; [|done].
      apply elem_of_difference. rewrite elem_of_list_to_set, elem_of_owing. eauto.
    + intros j Hj. destruct (Hjs _ Hj) as (r & r' & Hid & _ & Hid' & (H1 & H2 & _) & Htok & Hp & _).
      exists r'. split; [done|]. split; [by apply redeliveryFence_true|]. rewrite Hp.
      destruct (Hs (JobID j)) as [E1|H]; [congruence|].
      destruct (claim_step _ _ _ _ _ _ H) as (r0 & r1 & E0 & E1 & _ & _ & Hpay). congruence.
  - intros id Hid. apply elem_of_list_to_set, list_elem_of_fmap in Hid as (j & -> & Hj).
    destruct (Hjs _ Hj) as (r & _ & Hid & [Hd _]%elem_of_matching & _). apply elem_of_owing.
    exists r. split; [done|by eapply claimable_owed].
Qed.

Lemma reachable_rescripted d vs : reachable op_in_range d → reachable op_in_range (Db (jobs d) (store_meta d) [] vs).
Proof.
  intros Hr. pose proof (run_op_reachable (OpGetJob "") 0 d [] vs Hr I (conj (horizon_in_range 0 ltac:(vm_compute; split; discriminate)) I)) as H.
  assert (run_op (OpGetJob "") 0 (Db (jobs d) (store_meta d) [] vs) = Db (jobs d) (store_meta d) [] vs) as <-; [|done].
  cbn [run_op]. rewrite GetJob_healthy by done. by destruct (jobs _ !! "").
Qed.

Lemma tick_ledger rest w :
  vaultClient wk = true → ledger rest [] (w_db w) (w_trace w) →
  let w' := (retryPendingDeliveries E wk w).2 in ∃ rest', ledger rest' [] (w_db w') (w_trace w') ∧
    (w_step w ≤ w_step w')%nat ∧ (size rest' ≤ size rest)%nat ∧
    (horizon < clock (w_step w) → (size rest' ≤ size rest - Z.to_nat deliveryBatchLimit)%nat).
Proof.
  intros Hv HL w'. subst w'. unfold retryPendingDeliveries. rewrite Hv. cbn [negb]. unfold mbind, W_bind.
  match goal with |- context [store_call E LoopCtx ?act ?m w] =>
    destruct (store_call_open E unbothered LoopCtx act m w ltac:(done) (dl_open _ (HE _))) as (d0 & Hd0 & ->) end.
  cbv zeta. rewrite (dl_faults _ (HE _)). set (d := Db _ _ _ _).
  assert (∀ l, ledger rest [] d (l ++ w_trace w)) as HL0.
  { intros l. destruct (ledger_through _ _ _ _ _ l Hd0 HL) as [Hr Ht Ho Hc].
    constructor; [by apply reachable_rescripted|done..]. }
  pose proof (ClaimPendingDeliveries_answers deliveryBatchLimit deliveryClaimTTL (clock (w_step w)) d
    (l_reach _ _ _ _ (HL0 [])) (claim_in_range _) ltac:(done)) as Ha.
  destruct (ClaimPendingDeliveries _ _ _ d) as [[js|e] d'] eqn:Hcl; cbn [fst snd].
  2: { exfalso. apply (proj2 Ha). split; [done|]. apply (dl_rng _ (HE _)). }
  match goal with |- context [redeliver_all E js ?x] => set (w1 := x) end.
  destruct (claimed_ledger _ _ _ _ _ _ (HL0 [did (OpClaimPendingDeliveries deliveryBatchLimit deliveryClaimTTL) (Ok js)]) Hcl)
    as (HL1 & Hnd & Hsub & Hlen).
  destruct (redeliver_all_ledger _ js w1 HL1 Hnd) as [HL2 Hst].
  assert (owing (jobs d) ⊆ rest) as Hrest.
  { intros id (r & Hid & How)%elem_of_owing. by destruct (l_owed _ _ _ _ (HL0 []) _ _ Hid How) as [?%elem_of_nil|[? _]]. }
  apply subseteq_size in Hrest. eexists. split; [exact HL2|]. split; [etrans; [|exact Hst]; cbn; lia|].
  rewrite size_difference, size_list_to_set, length_fmap by done. split; [lia|]. intros Hh.
  assert (size (owing (jobs d)) ≤ length (matching (claimable (formatTS (clock (w_step w)))) (jobs d)))%nat; [|lia].
  apply owing_matching; [apply (reachable_keyed _ _ (l_reach _ _ _ _ (HL0 [])))|]. intros id r Hid How.
  destruct (l_owed _ _ _ _ (HL0 []) _ _ Hid How) as [?%elem_of_nil|[_ Hdue]]; [done|].
  apply (due_claimable horizon); [apply (clock_in_range E CK)|done..].
Qed.
End Ledger.

(** ** The loop *)

Context (Hv : vaultClient wk = true).
#[local] Abbreviation loop := (RunDeliveryLoop E wk).

Definition deliveryPollInterval : Z := 5 * second.

(** The ticks of a time.Ticker come no earlier than every interval. *)
Definition ticking (fuel : nat) (w : world) : Prop :=
  ∀ k, (k ≤ fuel)%nat → clock (w_step w) + Z.of_nat k * deliveryPollInterval ≤ clock (w_step (loop k w).2).

(** The ticks that outlast the longest backoff. *)
Definition ticks_to_due : nat := 61.

Lemma loop_S k w : loop (S k) w = loop k (retryPendingDeliveries E wk (wait_or_done E w).2).2.
Proof.
  cbn [RunDeliveryLoop]. unfold mbind, W_bind. pose proof (wait_open E unbothered w (dl_open _ (HE _))) as H.
  destruct (wait_or_done E w) as [o w1]. cbn in *. subst o. by destruct (retryPendingDeliveries E wk w1).
Qed.

Lemma loop_last k w : (loop (S k) w).2 = (retryPendingDeliveries E wk (wait_or_done E (loop k w).2).2).2.
Proof. revert w. induction k as [|k IH]; intros w; rewrite loop_S; [done|]. by rewrite IH, loop_S. Qed.

Lemma loop_runs k w : (loop k w).1 = None.
Proof. revert w. induction k as [|k IH]; intros w; [done|]. rewrite loop_S. apply IH. Qed.

(** A round: what the wait and the tick leave. *)
Lemma round_ledger owed0 horizon rest w :
  ledger owed0 horizon rest [] (w_db w) (w_trace w) →
  let w' := (retryPendingDeliveries E wk (wait_or_done E w).2).2 in
  ∃ rest', ledger owed0 horizon rest' [] (w_db w') (w_trace w') ∧ (w_step w < w_step w')%nat ∧
    (size rest' ≤ size rest)%nat ∧
    (horizon < clock (w_step w) → (size rest' ≤ size rest - Z.to_nat deliveryBatchLimit)%nat).
Proof.
  intros HL. destruct (wait_through E unbothered w) as (Hd & Hst & Htr).
  set (w2 := (wait_or_done E w).2) in *.
  assert (ledger owed0 horizon rest [] (w_db w2) (w_trace w2)) as HL2
    by (rewrite Htr; exact (ledger_through _ _ _ _ _ _ _ [] Hd HL)).
  destruct (tick_ledger owed0 horizon rest w2 Hv HL2) as (rest' & HL3 & Hlt & Hle & Hdue). exists rest'.
  split_and!; [done|lia|done|]. intros Hh. apply Hdue.
  pose proof (clock_mono E CK (w_step w) (w_step w2) ltac:(lia)). lia.
Qed.

Lemma loop_steps owed0 horizon rest k w :
  ledger owed0 horizon rest [] (w_db w) (w_trace w) →
  (∃ rest', ledger owed0 horizon rest' [] (w_db (loop k w).2) (w_trace (loop k w).2)) ∧
  (w_step w + k ≤ w_step (loop k w).2)%nat.
Proof.
  intros HL. induction k as [|k [[r1 HL1] Hst]]; [split; [by exists rest|cbn; lia]|].
  destruct (round_ledger owed0 horizon r1 (loop k w).2 HL1) as (r2 & HL2 & Hlt & _). rewrite loop_last.
  split; [by exists r2|lia].
Qed.

Lemma loop_ledger owed0 rest k w :
  let horizon := clock (w_step w) + deliveryMaxBackoff in
  ledger owed0 horizon rest [] (w_db w) (w_trace w) → ticking k w →
  ∃ rest', ledger owed0 horizon rest' [] (w_db (loop k w).2) (w_trace (loop k w).2) ∧
    (size rest' ≤ size rest - Z.to_nat deliveryBatchLimit * (k - ticks_to_due))%nat.
Proof.
  intros horizon HL. induction k as [|k IH]; intros Ht; [exists rest; split; [exact HL|cbn; lia]|].
  destruct IH as (r1 & HL1 & Hsz); [intros m Hm; apply Ht; lia|].
  destruct (round_ledger owed0 horizon r1 (loop k w).2 HL1) as (r2 & HL2 & _ & Hle & Hdue). rewrite loop_last.
  exists r2. split; [done|]. change (Z.to_nat deliveryBatchLimit) with 10%nat in *.
  destruct (decide (k < ticks_to_due)%nat); [lia|].
  assert (horizon < clock (w_step (loop k w).2)) as Hh; [|specialize (Hdue Hh); lia].
  pose proof (Ht k ltac:(lia)) as Hk.
  unfold horizon, ticks_to_due, deliveryMaxBackoff, deliveryPollInterval, minute, second in *. lia.
Qed.

(** What is owed, by job. *)
Definition owed_records (t : gmap string row) : gmap string string :=
  (λ r, result_delivery_payload (r_delivery r)) <$> filter (λ x : string * row, owed x.2 = true) t.

Lemma owed_records_lookup t id p :
  owed_records t !! id = Some p ↔
  ∃ r, t !! id = Some r ∧ owed r = true ∧ p = result_delivery_payload (r_delivery r).
Proof.
  unfold owed_records. rewrite lookup_fmap, fmap_Some. split.
  - intros (r & [? ?]%map_lookup_filter_Some & ->). by exists r.
  - intros (r & ? & ? & ->). exists r. split; [by apply map_lookup_filter_Some|done].
Qed.

Lemma ledger_start horizon d tr :
  reachable op_in_range d → (∀ id r, jobs d !! id = Some r → owed r = true → due_by horizon r) →
  ledger (owed_records (jobs d)) horizon (owing (jobs d)) [] d tr.
Proof.
  intros Hr Hd. constructor; [done| | |intros j []%elem_of_nil].
  - intros id p (r & Hid & Ho & ->)%owed_records_lookup. exists r. split; [done|by left].
  - intros id r Hid Ho. right. split; [|by eapply Hd]. apply elem_of_owing. eauto.
Qed.

Lemma loop_settles fuel w :
  reachable op_in_range (w_db w) →
  (∀ id r, jobs (w_db w) !! id = Some r → owed r = true → due_by (clock (w_step w) + deliveryMaxBackoff) r) →
  ticking fuel w →
  (size (owing (jobs (w_db w))) ≤ Z.to_nat deliveryBatchLimit * (fuel - ticks_to_due))%nat →
  (loop fuel w).1 = None ∧
  ∀ id r, jobs (w_db w) !! id = Some r → owed r = true → ∃ r', jobs (w_db (loop fuel w).2) !! id = Some r' ∧
    verdict (result_delivery_payload (r_delivery r)) r' (w_trace (loop fuel w).2).
Proof.
  intros Hr Hd Ht Hsz. split; [apply loop_runs|].
  destruct (loop_ledger _ _ fuel w (ledger_start _ _ _ Hr Hd) Ht) as (rest & [_ Htr How _] & Hlen).
  assert (rest = ∅) as -> by (apply leibniz_equiv, size_empty_iff; lia).
  intros id r Hid Ho. destruct (Htr id (result_delivery_payload (r_delivery r))) as (r' & Hid' & Hv');
    [apply owed_records_lookup; eauto|].
  exists r'. split; [done|]. destruct Hv' as [[Hw _]|Hv']; [|done].
  destruct (How _ _ Hid' Hw) as [[]%elem_of_nil|[[]%elem_of_empty _]].
Qed.

(** C25: every record that is owed reaches its end. RunDeliveryLoop, which
    redelivers the records of a batch one after the other (in any interleaving:
    Redelivery.pool_redelivers_all), runs on a working store until a signal
    arrives; NodeVault takes each record or refuses it for good, no further delivery fails and no other loop
    redelivers. Then, whatever else is asked of the store meanwhile, after the 61
    ticks that the longest backoff lasts and one more for every ten records that
    were owed, each of those records is acknowledged and NodeVault took that very
    record, or is a dead letter because NodeVault refused it for good or nothing
    can be read from it; and the loop is still running. *)
Theorem deliveries_end fuel w :
  reachable op_in_range (w_db w) →
  (∀ id r, jobs (w_db w) !! id = Some r → owed r = true → due_by (clock (w_step w) + deliveryMaxBackoff) r) →
  ticking fuel w →
  (size (owing (jobs (w_db w))) ≤ Z.to_nat deliveryBatchLimit * (fuel - ticks_to_due))%nat →
  (loop fuel w).1 = None ∧
  ∀ id r, jobs (w_db w) !! id = Some r → owed r = true → ∃ r', jobs (w_db (loop fuel w).2) !! id = Some r' ∧
    verdict (result_delivery_payload (r_delivery r)) r' (w_trace (loop fuel w).2).
Proof. apply loop_settles. Qed.

End Deliver.

(** ** A concrete run *)

(** NodeVault is back after a day, every step takes five seconds, and a worker
    tries to extend its lease all the time. *)
Definition env_back (n : nat) : step_env := {|
  e_others := [Foreign (OpHeartbeat "job-1" "w1" 1 leaseDuration) (at_s 5) [] []];
  e_now := time_add (at_s 86400) (Z.min (Z.of_nat n) (10 ^ 6) * deliveryPollInterval);
  e_ended := false; e_faults := []; e_rng := (λ k, Some (N.of_nat (n + k))) <$> seq 0 10;
  e_create := None; e_get := Ok []; e_list := Ok []; e_pods := Ok []; e_delete := None;
  e_reports := Ok []; e_submit := None; e_event := EvPoll; e_rnd := λ _, 0; e_elapsed := 3 |}.

Lemma env_back_clock : clock_ok env_back.
Proof.
  assert (∀ n, clock env_back n = at_s 86400 + Z.min (Z.of_nat n) (10 ^ 6) * deliveryPollInterval) as Hc by done.
  split; intros n; rewrite !Hc; unfold deliveryPollInterval, second in *; [lia|].
  change (at_s 86400) with 1720086400000000000. lia.
Qed.

Lemma beat_in_range : op_in_range (OpHeartbeat "job-1" "w1" 1 leaseDuration) (at_s 5).
Proof. split; split; vm_compute; discriminate. Qed.

Lemma env_back_delivers n : delivers (env_back n).
Proof.
  split; [constructor; [split; [done|split; [done|exact beat_in_range]]|constructor]|done| |done|done].
  cbn [env_back e_rng]. split; [rewrite length_fmap, length_seq; vm_compute; lia|].
  apply Forall_take, Forall_fmap, Forall_forall. intros k _. by eexists.
Qed.

(** A record whose delivery failed. *)
Definition sample_record : SubmitCheckRecordRequest :=
  check_request sample_leased {|
    checkID := "check-1"; stage := "l4-smoke"; terminal := true; command := "run"; exitCode := 0;
    validationStatus := "succeeded"; validationHash := ""; failureKind := ""; failureReason := "";
    retryable := false; durationSec := 3; allOutputsPresent := true |}.
Definition d_owed : db :=
  after d_claimed (OpMarkFirstDeliveryPending "job-1" "w1" 1
    (json_marshal_delivery {| pd_Kind := "check"; pd_Check := Some sample_record; pd_Scan := None |})
    "connection refused" (at_s 10)) (at_s 4) [].

Lemma owed_reachable : reachable op_in_range d_owed.
Proof. apply reachable_after; [apply claimed_reachable|done|]. split; split; vm_compute; discriminate. Qed.

Lemma owed_only id r : jobs d_owed !! id = Some r → id = "job-1" ∧ r = sample_row d_owed.
Proof. apply only_sample. vm_compute. reflexivity. Qed.

Lemma due_from t u r :
  result_delivery_status (r_delivery r) = DeliveryPending → next_attempt_at (r_delivery r) = Some (formatTS u) →
  ts_in_range u → u ≤ t → due_by t r.
Proof. intros Hs Hn Hu Ht. unfold due_by. rewrite Hs, Hn. by exists u. Qed.

Lemma owed_due t id r : at_s 10 ≤ t → jobs d_owed !! id = Some r → due_by t r.
Proof. intros Ht [_ ->]%owed_only. revert Ht. apply due_from; [vm_compute; reflexivity..|split; vm_compute; discriminate]. Qed.

#[local] Abbreviation w_back := (World d_owed false 0 []).
#[local] Abbreviation loop_back k := (RunDeliveryLoop env_back sample_worker k w_back).

Lemma env_back_ticking horizon w fuel :
  reachable op_in_range (w_db w) → (∀ id r, jobs (w_db w) !! id = Some r → owed r = true → due_by horizon r) →
  (w_step w ≤ 5000)%nat → (fuel ≤ 1000)%nat → ticking env_back sample_worker fuel w.
Proof.
  intros Hr Hd Hw Hf k Hk. pose proof (ledger_start _ _ (w_trace w) Hr Hd) as HL.
  destruct (loop_steps env_back sample_worker env_back_clock env_back_delivers eq_refl _ _ _ k w HL) as [_ Hst].
  unfold clock. cbn [env_back e_now]. unfold time_add, deliveryPollInterval, second. clear HL Hr Hd. lia.
Qed.

(** NodeVault takes the very record that was stored. *)
Lemma deliveries_end_witness :
  (loop_back 62).1 = None ∧
  ∃ r', jobs (w_db (loop_back 62).2) !! "job-1" = Some r' ∧
    verdict (result_delivery_payload (r_delivery (sample_row d_owed))) r' (w_trace (loop_back 62).2).
Proof.
  destruct (deliveries_end env_back sample_worker env_back_clock env_back_delivers eq_refl 62 w_back) as [H1 H2].
  - exact owed_reachable.
  - intros id r Hid _. apply (owed_due _ id r); [vm_compute; discriminate|exact Hid].
  - apply (env_back_ticking (at_s 10)); [exact owed_reachable|intros id r Hid _; by apply (owed_due _ id r)|cbn [w_step]; lia|lia].
  - apply Nat.leb_le. vm_compute. reflexivity.
  - split; [exact H1|]. apply (H2 "job-1" (sample_row d_owed)); [|vm_compute; reflexivity].
    apply sample_row_lookup. vm_compute. reflexivity.
Defined.
