(* ===== verification/Prompt.v ===== *)
(** * Prompt: what Run leaves to be redelivered is due soon

    A delivery that fails while Run works is due again after the backoff, and a
    claim of the redelivery loop runs out when its holder said; both no later
    than a time known from the clocks. No record and no job comes from nowhere. *)

From S2P Require Import Prelude GoTime Errors Work Db Fingerprint Store StoreSpec StoreRun StoreStep.
From S2P Require Import Retry Names Failure World Worker Pipeline Shared Follow Own RowRead StoreDelivery Deliver.

(** What the operation leaves to be delivered is due by [t]. *)
Definition timely (t : instant) (o : op) (now : instant) : Prop :=
  match o with
  | OpClaimPendingDeliveries _ ttl => time_add now ttl ≤ t
  | OpMarkFirstDeliveryPending _ _ _ _ _ at_ | OpMarkResultDeliveryPending _ _ _ at_ => at_ ≤ t
  | _ => True
  end.

Lemma due_by_le t t' r : t ≤ t' → due_by t r → due_by t' r.
Proof.
  intros Ht. unfold due_by. destruct (result_delivery_status _); try done.
  - destruct (next_attempt_at _); [|done]. intros (u & ? & ? & ?). exists u. split_and!; [done..|lia].
  - intros (u & ? & ? & ?). exists u. split_and!; [done..|lia].
Qed.

Section Prompt.
Context {SO : SqlOrder} {AJ : ActionsJson} {DJ : DeliveryJson}.
Context (t : instant) (ids : gset string).

Definition prompt (r : row) : Prop := owed r = true → due_by t r.

Record prompt_by (d : db) : Prop := {
  pb_reachable : reachable op_in_range d;
  pb_ids : dom (jobs d) ⊆ ids;
  pb_prompt id r : jobs d !! id = Some r → prompt r;
}.

Lemma prompt_step o now id r r' :
  op_in_range o now → timely t o now → row_step o now id (Some r) (Some r') → prompt r → prompt r'.
Proof.
  intros [_ Hin] Ht Hs Hp. inversion Hs; subst; try exact Hp; cbn in Hin, Ht; intros _; unfold due_by; cbn; eauto.
Qed.

Lemma prompt_op o now d fs vs :
  op_ok o → op_in_range o now → timely t o now → (∀ req, o ≠ OpCreateJob req) →
  prompt_by d → prompt_by (run_op o now (Db (jobs d) (store_meta d) fs vs)).
Proof.
  intros Hok Hin Ht Hn [Hr Hi Hp].
  pose proof (run_op_step o now (Db (jobs d) (store_meta d) fs vs) Hok (reachable_keyed _ _ Hr)) as Hs. cbn [jobs] in Hs.
  split; [by apply run_op_reachable|..].
  - intros id [r Hid]%elem_of_dom. apply Hi, elem_of_dom. destruct (Hs id) as [E1|E1]; rewrite Hid in E1; [by exists r|].
    destruct (jobs d !! id); [done|]. inversion E1; subst. by destruct (Hn req).
  - intros id r Hid. destruct (Hs id) as [E1|E1]; rewrite Hid in E1; [by apply (Hp id)|].
    destruct (jobs d !! id) eqn:E0; [|inversion E1; subst; by destruct (Hn req)]. eapply prompt_step; [done..|by apply (Hp id)].
Qed.

Context (E : nat → step_env) (CK : clock_ok E) (Hrnd : ∀ n, int63n_ok (e_rnd (E n))).
Context (Hothers : ∀ n, Forall (λ f, op_ok (f_op f) ∧ op_in_range (f_op f) (f_now f) ∧
  timely t (f_op f) (f_now f) ∧ ∀ req, f_op f ≠ OpCreateJob req) (e_others (E n))).
Context (Hclock : ∀ n, clock E n + deliveryMaxBackoff ≤ t).
Context (wk : worker) (Hwk : workerName wk ≠ "").
Context (valid_label_value : string → bool) (rounds : nat) (float_overflow : Z → Z).

Definition stays (d d' : db) : Prop := prompt_by d → prompt_by d'.
Definition stays_on (w w' : world) : Prop := stays (w_db w) (w_db w').

#[local] Instance stays_preorder : PreOrder stays.
Proof. split; [by intros d H|]. intros d1 d2 d3 H12 H23 H. by apply H23, H12. Qed.
#[local] Instance stays_on_preorder : PreOrder stays_on.
Proof. split; [by intros w H|]. intros w1 w2 w3 H12 H23 H. by apply H23, H12. Qed.

#[local] Instance others_stay : Others E stays.
Proof. intros n. eapply Forall_impl; [apply (Hothers n)|]. intros f (H1 & H2 & H3 & H4) d H. by apply prompt_op. Qed.

(** The worker's own calls. *)
Lemma call_stays {A} c act (m : instant → M A) o :
  (∀ now d, (m now d).2 = run_op o now d) → op_ok o → (∀ n, op_in_range o (clock E n)) →
  (∀ n, timely t o (clock E n)) → (∀ req, o ≠ OpCreateJob req) → Does stays_on (store_call E c act m).
Proof.
  intros Hm Hok Hin Ht Hn w. destruct (store_call_through E stays c act m w) as (d1 & fs & vs & Hd1 & Hdb & _).
  intros H. rewrite Hdb, Hm. by apply prompt_op, Hd1.
Qed.

Lemma attempt_op_timely job o n : attempt_op E wk job o → timely t o (clock E n).
Proof.
  intros [| | | |p le k m| | | |]; try exact I. cbn.
  destruct (backoffDuration_bounds 1 _ (Hrnd m)) as ([_ Hb] & _).
  specialize (Hclock k). unfold time_add. lia.
Qed.

#[local] Instance stays_on_store job : OnStore E wk job stays_on.
Proof.
  split; [apply _| |by intros a w H|by intros b w H|].
  - intros w. destruct (step_through E stays w) as (d1 & -> & Hd1). exact Hd1.
  - intros A c act m o Ho Hm. apply (call_stays _ _ _ o); [done|by eapply attempt_op_ok|..].
    + intros n. by eapply attempt_op_in_range.
    + intros n. by eapply attempt_op_timely.
    + by destruct Ho.
Qed.
#[local] Instance stays_closes job : Closes E wk job stays_on.
Proof. apply (on_store_closes E Hrnd), _. Qed.

Lemma run_prompt fuel w :
  prompt_by (w_db w) → prompt_by (w_db (Run E wk valid_label_value rounds float_overflow fuel w).2).
Proof.
  enough (Does stays_on (Run E wk valid_label_value rounds float_overflow fuel)) as H by apply H.
  assert (Does stays_on (wait_or_done E)) as Hwait by (intros x; apply (wait_through E stays)).
  assert (Does stays_on (store_call E LoopCtx (did (OpLeaseJob (workerName wk) leaseDuration))
    (LeaseJob (workerName wk) leaseDuration))) as Hlease.
  { apply (call_stays _ _ _ (OpLeaseJob (workerName wk) leaseDuration)); [done..| |done|done].
    intros n. split; [apply (clock_in_range E CK)|apply (clock_later E CK)]. unfold leaseDuration, minute, second. lia. }
  induction fuel as [|fuel IH]; cbn [Run]; [apply _|]. apply bind_does; [apply _| |intros []; apply _].
  unfold Run_once. apply bind_does; [apply _|by intros x|intros []; [apply _|]].
  apply bind_does; [apply _..|]. intros [J|e]; [|apply _].
  apply bind_does; [apply _|apply (inc_on_store E wk J stays_on)|intros _].
  apply bind_does; [apply _|exact (process_does E wk J stays_on valid_label_value rounds float_overflow)|apply _].
Qed.

End Prompt.
