(* ===== verification/EndToEnd.v ===== *)
(** * EndToEnd: requests in, verdicts out

    The ingress, the worker and the redelivery loop put together: the jobs that
    requests left in the table, Run until the queue is worked off, and
    RunDeliveryLoop until nothing is owed. *)

From S2P Require Import Prelude GoTime Errors Work Db Fingerprint Store StoreSpec StoreRun StoreStep.
From S2P Require Import Retry Names Failure World Worker Pipeline Shared Own Follow Protocol Attempt Stages Process.
From S2P Require Import AttemptSafe Codec WorkerSafe Instances RowInv RowRead Samples.
From S2P Require Import StoreLease StoreDelivery StoreExec Service Triple Keeps Accounts Drain Verdicts Deliver Prompt.

(** What the ingress and the probes ask of the store. *)
Definition asked_only (o : op) (now : instant) : Prop :=
  op_in_range o now ∧
  match o with OpCreateJob _ | OpGetJob _ | OpListJobs _ | OpCheckWritable => True | _ => False end.

(** A job no worker has seen. *)
Definition waiting (r : row) : Prop :=
  newborn r ∧ attempt (r_lease r) = 0 ∧ retry_not_before (r_lease r) = None.

(** The rounds of Run that a job needs at most. *)
Definition rounds_per_job : nat := S patience * 6.

Section EndToEnd.
Context {SO : SqlOrder} {AJ : ActionsJson} {DJ : DeliveryJson}.

Lemma asked_waiting d id r : reachable asked_only d → jobs d !! id = Some r → waiting r.
Proof.
  intros (fs & vs & H). revert id r. remember (initial_db fs vs) as d0 eqn:E0.
  induction H as [d|d d' o now fs' vs' Hh IH Hok [_ Ho]]; intros id r Hid; subst; [done|].
  pose proof (history_keyed asked_only (initial_db fs vs) d' ltac:(done) Hh) as Hk.
  destruct (run_op_step o now (Db (jobs d') (store_meta d') fs' vs') Hok Hk id) as [E1|E1]; rewrite Hid in E1;
    [by apply (IH eq_refl id)|]. by inversion E1; subst.
Qed.

Lemma waiting_weight r : waiting r → weight r = 6%nat.
Proof. intros ((H1 & _) & H2 & _). unfold weight, unfinished. by rewrite H1, H2. Qed.

Lemma waiting_workload t : (∀ id r, t !! id = Some r → waiting r) → workload t = (6 * size t)%nat.
Proof.
  intros Hw. unfold workload, table_rows. rewrite <- length_map_to_list.
  assert (∀ x, x ∈ map_to_list t → waiting x.2) as Hl by (intros [id r] H%elem_of_map_to_list; by eapply Hw).
  induction (map_to_list t) as [|x l IH]; [done|]. cbn. rewrite IH by (intros y Hy; apply Hl; by right).
  rewrite waiting_weight by (apply Hl; by left). lia.
Qed.

(** First Run in [E1], then RunDeliveryLoop in [E2]. *)
Context (E1 E2 : nat → step_env) {HS : StoreWorks E1}.
Context (CK1 : clock_ok E1) (DE : drain_env E1) (CK2 : clock_ok E2) (HE : ∀ n, delivers (E2 n)).
Context (Hafter : ∀ n m, clock E1 n ≤ clock E2 m).
#[local] Abbreviation soon := (clock E2 0 + deliveryMaxBackoff).
Context (Htimely : ∀ n, Forall (λ f, timely soon (f_op f) (f_now f)) (e_others (E1 n))).
Context (wk : worker) (Hwk : workerName wk ≠ "") (Hv : vaultClient wk = true).
Context (valid_label_value : string → bool) (rounds : nat) (float_overflow : Z → Z).

#[local] Abbreviation run fuel w := (Run E1 wk valid_label_value rounds float_overflow fuel w).
#[local] Abbreviation loop fuel w := (RunDeliveryLoop E2 wk fuel w).

Lemma loop_logged fuel w : logged_on w (loop fuel w).2.
Proof.
  apply delivery_loop_logged. intros n. eapply Forall_impl; [apply (dl_others _ (HE n))|]. by intros f (_ & ? & _).
Qed.

(** What is in order stays accounted for, and in the end nothing is owed. *)
Lemma settled_account id r w fuel :
  table_keyed (jobs (w_db w)) → jobs (w_db w) !! id = Some r → accounted id r (w_trace w) →
  (owed r = true → ∃ r', jobs (w_db (loop fuel w).2) !! id = Some r' ∧
     verdict (result_delivery_payload (r_delivery r)) r' (w_trace (loop fuel w).2)) →
  ∃ req, terminal_record (sent req None) = true ∧ record_job req = id ∧
    (sent req None ∈ w_trace (loop fuel w).2 ∨
     (∃ e, sent req (Some e) ∈ w_trace (loop fuel w).2) ∧
     ∃ r', jobs (w_db (loop fuel w).2) !! id = Some r' ∧ delivery_settled r').
Proof.
  intros Hk Hid (req & H1 & H2 & H3) Hend. exists req. split; [done|]. split; [done|].
  destruct (loop_logged fuel w) as (l & Htr & Hlog). rewrite Htr in *.
  destruct H3 as [H3|(e & H3 & Hn & _)]; [left; apply elem_of_app; by right|right].
  split; [exists e; apply elem_of_app; by right|].
  destruct (owed r) eqn:Ho.
  - destruct (Hend eq_refl) as (r' & Hr' & Hv'). exists r'. split; [done|]. destruct Hv' as [[? _]|[? _]]; [by left|by right].
  - assert (delivery_settled r) as Hs.
    { unfold owed in Ho. unfold delivery_settled. destruct (result_delivery_status (r_delivery r)); auto; done. }
    destruct (history_row_keep any_op id delivery_settled) with (d := w_db w) (d' := w_db (loop fuel w).2) (r := r)
      as (r' & Hr' & Hs'); [|done|by eapply logged_history|done..|by exists r'].
    intros o now r1 r2 _ Hr1 Hstep. unfold delivery_settled. by rewrite (settled_step _ _ _ _ _ Hr1 Hstep).
Qed.

Lemma timely_others m : Forall (λ f, op_ok (f_op f) ∧ op_in_range (f_op f) (f_now f) ∧
  timely soon (f_op f) (f_now f) ∧ ∀ req, f_op f ≠ OpCreateJob req) (e_others (E1 m)).
Proof.
  pose proof (sw_others _ (works m)) as H1. pose proof (de_others _ DE m) as H2. pose proof (Htimely m) as H3.
  rewrite Forall_forall in *. intros f Hf. split; [by apply spares_ok, H1|]. destruct (H2 f Hf). auto.
Qed.

(** The records still owed are due soon, and no more than the jobs. *)
Lemma run_leaves fuel d lost n :
  let w := World d lost n [] in let w1 := (run fuel w).2 in
  reachable op_in_range d → (∀ id r, jobs d !! id = Some r → waiting r) →
  (∀ id r, jobs (w_db w1) !! id = Some r → owed r = true → due_by (clock E2 (w_step w1) + deliveryMaxBackoff) r) ∧
  (size (owing (jobs (w_db w1))) ≤ size (jobs d))%nat.
Proof.
  intros w w1 Hr Hw.
  assert (prompt_by soon (dom (jobs d)) d) as H0.
  { split; [done..|]. intros id r Hid. destruct (Hw _ _ Hid) as ((_ & _ & Hu) & _). unfold prompt, owed. by rewrite Hu. }
  apply (run_prompt _ _ E1 CK1 (de_rnd _ DE) timely_others (λ m, proj1 (Z.add_le_mono_r _ _ _) (Hafter m 0)) wk Hwk
    valid_label_value rounds float_overflow fuel w) in H0 as [_ Hi Hp]. fold w1 in Hi, Hp. split.
  - intros id r Hid Ho. eapply due_by_le; [|by apply (Hp id)]. apply Z.add_le_mono_r, (clock_mono E2 CK2). lia.
  - rewrite <- size_dom. apply subseteq_size. etrans; [|exact Hi].
    intros id (r & Hr1 & _)%elem_of_owing. by eapply elem_of_dom_2.
Qed.

(** C5: requests in, verdicts out. Requests left jobs in the table, which no
    worker has seen. The only worker, with a NodeVault, runs Run on a working
    store, and whenever a round finds nothing due the next comes pollFrequency
    later; later, RunDeliveryLoop runs while NodeVault takes each record or
    refuses it for good, and what others claimed before is free by then. What the
    API server answers, what NodeVault answered before, and where deadlines fall
    does not matter: after 156 rounds of Run per job every job has succeeded or
    failed, and after the 61 ticks that the longest backoff lasts and one more for
    every ten jobs, no signal having arrived, there is a terminal record of each job that NodeVault took, or
    that it did not take when it was first sent and whose delivery is over:
    acknowledged or a dead letter. *)
Theorem every_verdict_settled fuel1 fuel2 d lost n :
  let w := World d lost n [] in let w1 := (run fuel1 w).2 in let w2 := (loop fuel2 w1).2 in
  reachable asked_only d → paced E1 wk valid_label_value rounds float_overflow fuel1 w → ticking E2 wk fuel2 w1 →
  (rounds_per_job * size (jobs d) ≤ fuel1)%nat →
  (size (jobs d) ≤ Z.to_nat deliveryBatchLimit * (fuel2 - ticks_to_due))%nat →
  ∀ id r, jobs d !! id = Some r →
    (∃ r1, jobs (w_db w1) !! id = Some r1 ∧ (status (r_lease r1) = StatusSucceeded ∨ status (r_lease r1) = StatusFailed)) ∧
    ∃ req, terminal_record (sent req None) = true ∧ record_job req = id ∧
      (sent req None ∈ w_trace w2 ∨
       (∃ e, sent req (Some e) ∈ w_trace w2) ∧ ∃ r2, jobs (w_db w2) !! id = Some r2 ∧ delivery_settled r2).
Proof.
  intros w w1 w2 Hr Hp Ht Hf Hsz id r Hid.
  assert (∀ id r, jobs d !! id = Some r → waiting r) as Hw by (intros i x; by apply asked_waiting).
  assert (reachable op_in_range d) as Hr0.
  { destruct Hr as (fs & vs & H). exists fs, vs. eapply history_mono; [|exact H]. by intros o now []. }
  assert (∀ id r, jobs d !! id = Some r → queued_by (clock E1 n + RetryMaxDelay) r ∧ held_by (clock E1 n + leaseDuration) r) as Hwait.
  { intros i x Hx. destruct (Hw _ _ Hx) as ((Hs & _) & _ & Hn). unfold queued_by, held_by. by rewrite Hs, Hn. }
  destruct (run_finishes E1 CK1 DE wk Hwk valid_label_value rounds float_overflow fuel1 w Hr0 Hwait Hp) as [_ Hdone].
  { cbn [w w_db]. rewrite (waiting_workload _ Hw). unfold rounds_per_job in Hf. lia. }
  destruct (Hdone _ _ Hid) as (r1 & Hr1 & Hst). split; [by exists r1|]. fold w1 in Hr1.
  assert (ordered None w1) as [Hreach Hord].
  { apply (run_in_order E1 CK1); [intros m; eapply Forall_impl; [apply (de_others _ DE m)|by intros f []]|apply (de_rnd _ DE)|done..
      |intros m; by rewrite (de_open _ DE)|apply (de_open _ DE)|].
    split; [done|]. intros i x _ Hx. by apply newborn_in_order, (Hw _ _ Hx). }
  specialize (Hord id r1 ltac:(done) Hr1). unfold in_order, unfinished in Hord.
  apply (settled_account id r1 w1 fuel2); [by eapply reachable_keyed|done|destruct Hst as [Hst|Hst]; rewrite Hst in Hord; apply Hord|].
  intros Ho. destruct (run_leaves fuel1 d lost n Hr0 Hw) as [Hdue Howing].
  apply (loop_settles E2 wk CK2 HE Hv fuel2 w1); [done..|by etrans|done|done].
Qed.

End EndToEnd.

(** ** A concrete run *)

Lemma created_asked : reachable asked_only d_created.
Proof. apply reachable_after; [apply reachable_empty|done|]. split; [in_range|exact I]. Qed.

(** The only job is worked off and its verdict does not reach NodeVault. *)
Definition w_out : world :=
  (Run env_slow sample_worker (λ _, true) 3 (λ _, 0) 156 (World d_created false 0 [])).2.

#[local] Abbreviation loop_out k := (RunDeliveryLoop env_back sample_worker k w_out).

Lemma out_only id r : jobs (w_db w_out) !! id = Some r → id = "job-1" ∧ r = sample_row (w_db w_out).
Proof. apply only_sample. vm_compute. reflexivity. Qed.

(** The failed delivery is due soon after. *)
Lemma out_due t id r : at_s 161 ≤ t → jobs (w_db w_out) !! id = Some r → due_by t r.
Proof.
  intros Ht [_ ->]%out_only. revert Ht. apply due_from; [vm_compute; reflexivity..|split; vm_compute; discriminate].
Qed.

Lemma out_reachable : reachable op_in_range (w_db w_out).
Proof.
  assert (ordered None w_out) as [H _]; [|exact H].
  apply (run_in_order env_slow env_slow_clock env_slow_in_range (de_rnd _ env_slow_drains) sample_worker ltac:(done) eq_refl);
    [done..|].
  split; [apply created_reachable|]. intros id r _ [_ ->]%created_only. vm_compute. by split.
Qed.

Lemma back_after_slow n m : clock env_slow n ≤ clock env_back m.
Proof.
  change (clock env_slow n) with (at_s 1 + Z.min (Z.of_nat n) (10 ^ 4) * pollFrequency).
  change (clock env_back m) with (at_s 86400 + Z.min (Z.of_nat m) (10 ^ 6) * deliveryPollInterval).
  unfold at_s, pollFrequency, deliveryPollInterval, second. lia.
Qed.

Lemma slow_timely n : Forall (λ f, timely (clock env_back 0 + deliveryMaxBackoff) (f_op f) (f_now f)) (e_others (env_slow n)).
Proof. constructor; [vm_compute; discriminate|constructor]. Qed.

(** The job failed for good while NodeVault was down; its verdict arrives. *)
Lemma every_verdict_settled_witness :
  ∃ req, terminal_record (sent req None) = true ∧ record_job req = "job-1" ∧
    (sent req None ∈ w_trace (loop_out 62).2 ∨
     (∃ e, sent req (Some e) ∈ w_trace (loop_out 62).2) ∧
     ∃ r2, jobs (w_db (loop_out 62).2) !! "job-1" = Some r2 ∧ delivery_settled r2).
Proof.
  destruct (every_verdict_settled env_slow env_back env_slow_clock env_slow_drains env_back_clock
    env_back_delivers back_after_slow slow_timely sample_worker ltac:(done) eq_refl (λ _, true) 3 (λ _, 0) 156 62 d_created
    false 0 created_asked) with (id := "job-1") (r := sample_row d_created) as [_ H].
  - apply env_slow_paced. vm_compute. reflexivity.
  - apply (env_back_ticking (at_s 161)); [exact out_reachable| |apply Nat.leb_le; vm_compute; reflexivity|lia].
    intros id r Hid _. apply (out_due _ id r); [reflexivity|exact Hid].
  - apply Nat.leb_le. vm_compute. reflexivity.
  - apply Nat.leb_le. vm_compute. reflexivity.
  - apply sample_row_lookup. vm_compute. reflexivity.
  - exact H.
Defined.
