(* ===== verification/Metrics.v ===== *)
(** * Metrics: the counters of a worker

    [pkg/metrics/metrics.go]: the instruments New makes, and what the Inc
    functions add to them. OpenTelemetry's meter and its Prometheus exporter
    are a class. What the counters say of a worker's run follows from the
    places where the worker moves them. *)

From S2P Require Import Prelude GoTime Errors Work Db Fingerprint Store StoreSpec StoreRun StoreStep.
From S2P Require Import Retry Names Failure World Worker Pipeline Shared Follow.
From S2P Require Import Instances RowInv RowRead Samples Codec WorkerSafe Service.

(** ** OpenTelemetry *)

(** A meter provider with its registry; the series of a counter are named by the
    instrument and an attribute set. *)
Class Meter := {
  provider : Type;
  instrument : Type;
  promexporter_New : res error provider;
  Int64Counter : string → provider → res error instrument * provider;
  Add : instrument → Z → list (string * string) → provider → provider;
  exported : provider → string → list (string * string) → Z;
  named : instrument → string;
  counter_named name p c p' : Int64Counter name p = (Ok c, p') → named c = name;
  counter_quiet name p r p' : Int64Counter name p = (r, p') → ∀ n ls, exported p' n ls = exported p n ls;
  add_counts c k ls p n ls' :
    0 ≤ k →
    exported (Add c k ls p) n ls' = exported p n ls' + (if bool_decide (n = named c ∧ ls' = ls) then k else 0);
}.

(** FailureClass is a string in Go. *)
Definition class_text (c : FailureClass) : string :=
  match c with
  | FailureClassDeterministic => "DETERMINISTIC"
  | FailureClassTransientInfra => "TRANSIENT_INFRA"
  | FailureClassResourceObservation => "RESOURCE_OBSERVATION"
  | FailureClassUnknown => "UNKNOWN"
  end.

Section Metrics.
Context `{Meter}.

(** A counter is nil until New has made it. *)
Record Metrics := {
  jobsLeased : option instrument;
  jobsCompleted : option instrument;
  jobsFailed : option instrument;
  l5aSubmitted : option instrument;
  l5aErrors : option instrument;
  l5bSubmitted : option instrument;
  l5bErrors : option instrument;
  failuresClassified : option instrument;
}.

Definition no_counters : Metrics := {|
  jobsLeased := None; jobsCompleted := None; jobsFailed := None; l5aSubmitted := None; l5aErrors := None;
  l5bSubmitted := None; l5bErrors := None; failuresClassified := None |}.

(** The fields whose addresses New's table holds. *)
Inductive dest :=
| D_jobsLeased | D_jobsCompleted | D_jobsFailed | D_l5aSubmitted | D_l5aErrors | D_l5bSubmitted | D_l5bErrors
| D_failuresClassified.

Definition field (d : dest) (m : Metrics) : option instrument :=
  match d with
  | D_jobsLeased => jobsLeased m | D_jobsCompleted => jobsCompleted m | D_jobsFailed => jobsFailed m
  | D_l5aSubmitted => l5aSubmitted m | D_l5aErrors => l5aErrors m
  | D_l5bSubmitted => l5bSubmitted m | D_l5bErrors => l5bErrors m
  | D_failuresClassified => failuresClassified m
  end.

#[local] Instance dest_eq_dec : EqDecision dest.
Proof. solve_decision. Defined.

Definition set_field (d : dest) (c : option instrument) (m : Metrics) : Metrics :=
  let get d' := if decide (d' = d) then c else field d' m in
  {| jobsLeased := get D_jobsLeased; jobsCompleted := get D_jobsCompleted; jobsFailed := get D_jobsFailed;
     l5aSubmitted := get D_l5aSubmitted; l5aErrors := get D_l5aErrors;
     l5bSubmitted := get D_l5bSubmitted; l5bErrors := get D_l5bErrors;
     failuresClassified := get D_failuresClassified |}.

Definition name_of (d : dest) : string :=
  match d with
  | D_jobsLeased => "nodesentinel_jobs_leased" | D_jobsCompleted => "nodesentinel_jobs_completed"
  | D_jobsFailed => "nodesentinel_jobs_failed"
  | D_l5aSubmitted => "nodesentinel_l5a_check_records_submitted" | D_l5aErrors => "nodesentinel_l5a_submit_errors"
  | D_l5bSubmitted => "nodesentinel_l5b_scan_records_submitted" | D_l5bErrors => "nodesentinel_l5b_submit_errors"
  | D_failuresClassified => "nodesentinel_failures_classified"
  end.

Definition counters : list (dest * string) :=
  (λ d, (d, name_of d)) <$>
    [D_jobsLeased; D_jobsCompleted; D_jobsFailed; D_l5aSubmitted; D_l5aErrors; D_l5bSubmitted; D_l5bErrors;
     D_failuresClassified].

(** The loop over them, which ends at the first error. *)
Fixpoint make_counters (cs : list (dest * string)) (m : Metrics) (p : provider) : res error (Metrics * provider) :=
  match cs with
  | [] => Ok (m, p)
  | (d, name) :: cs =>
      match Int64Counter name p with
      | (Ok c, p) => make_counters cs (set_field d (Some c) m) p
      | (Err e, _) => Err e
      end
  end.

Definition New : res error (Metrics * provider) :=
  match promexporter_New with
  | Err e => Err e
  | Ok p => make_counters counters no_counters p
  end.

(** A nil counter panics: [None]. *)
Definition add_one (c : option instrument) (ls : list (string * string)) (p : provider) : option provider :=
  (λ c, Add c 1 ls p) <$> c.

Definition IncJobsLeased (m : Metrics) := add_one (jobsLeased m) [].
Definition IncJobsCompleted (m : Metrics) := add_one (jobsCompleted m) [].
Definition IncJobsFailed (m : Metrics) := add_one (jobsFailed m) [].
Definition IncL5aSubmitted (m : Metrics) := add_one (l5aSubmitted m) [].
Definition IncL5aErrors (m : Metrics) := add_one (l5aErrors m) [].
Definition IncL5bSubmitted (m : Metrics) := add_one (l5bSubmitted m) [].
Definition IncL5bErrors (m : Metrics) := add_one (l5bErrors m) [].
Definition IncFailureClassified (m : Metrics) (class stage : string) :=
  add_one (failuresClassified m) [("class", class); ("stage", stage)].

(** ** The worker's counters *)

(** The Inc function behind each counter of World.v. *)
Definition inc_of (m : Metrics) (x : metric) : provider → option provider :=
  match x with
  | World.JobsLeased => IncJobsLeased m
  | World.JobsCompleted => IncJobsCompleted m
  | World.JobsFailed => IncJobsFailed m
  | World.L5aSubmitted => IncL5aSubmitted m
  | World.L5aErrors => IncL5aErrors m
  | World.L5bSubmitted => IncL5bSubmitted m
  | World.L5bErrors => IncL5bErrors m
  | FailureClassified c st => IncFailureClassified m (class_text c) st
  end.

(** The actions [l], latest first, and the provider after them. *)
Fixpoint replay (m : Metrics) (l : list action) (p : provider) : option provider :=
  match l with
  | [] => Some p
  | AMetric x :: l => p' ← replay m l p; inc_of m x p'
  | _ :: l => replay m l p
  end.

(** The series a metric counts in. *)
Definition series (x : metric) : string * list (string * string) :=
  match x with
  | World.JobsLeased => (name_of D_jobsLeased, [])
  | World.JobsCompleted => (name_of D_jobsCompleted, [])
  | World.JobsFailed => (name_of D_jobsFailed, [])
  | World.L5aSubmitted => (name_of D_l5aSubmitted, [])
  | World.L5aErrors => (name_of D_l5aErrors, [])
  | World.L5bSubmitted => (name_of D_l5bSubmitted, [])
  | World.L5bErrors => (name_of D_l5bErrors, [])
  | FailureClassified c st => (name_of D_failuresClassified, [("class", class_text c); ("stage", st)])
  end.

(** All counters are there, under their names. *)
Definition complete (m : Metrics) : Prop := ∀ d, ∃ c, field d m = Some c ∧ named c = name_of d.

Lemma field_set d d' c m : field d (set_field d' c m) = if decide (d = d') then c else field d m.
Proof. by destruct d. Qed.

Lemma make_counters_ok cs m p m' p' :
  make_counters cs m p = Ok (m', p') →
  (∀ n ls, exported p' n ls = exported p n ls) ∧
  ∀ d, (∃ c, field d m' = Some c ∧ (d, named c) ∈ cs) ∨ (∀ name, (d, name) ∉ cs) ∧ field d m' = field d m.
Proof.
  revert m p. induction cs as [|[d0 name] cs IH]; intros m p Hm; cbn in Hm.
  { injection Hm as -> ->. split; [done|]. intros d. right. split; [intros ? []%elem_of_nil|done]. }
  destruct (Int64Counter name p) as [[c|e] p1] eqn:Hc; [|done]. apply IH in Hm as [Hq Hf]. split.
  - intros n ls. by rewrite Hq, (counter_quiet _ _ _ _ Hc).
  - intros d. destruct (Hf d) as [(c' & Hd & Hin)|[Hno Hd]]; [left; exists c'; split; [done|by right]|].
    rewrite field_set in Hd. destruct (decide (d = d0)) as [->|Hne].
    + left. exists c. split; [done|]. rewrite (counter_named _ _ _ _ Hc). left.
    + right. split; [|done]. intros name' [[= -> ->]|Hin]%elem_of_cons; [done|by eapply Hno].
Qed.

Lemma New_complete m p :
  New = Ok (m, p) → complete m ∧
  ∃ p0, promexporter_New = Ok p0 ∧ ∀ n ls, exported p n ls = exported p0 n ls.
Proof.
  unfold New. destruct promexporter_New as [p0|e]; [|done]. intros Hm. apply make_counters_ok in Hm as [Hq Hf].
  split; [|by exists p0]. intros d. destruct (Hf d) as [(c & Hc & Hin)|[Hno _]].
  - exists c. split; [done|]. by apply list_elem_of_fmap in Hin as (d' & [= <- ->] & _).
  - exfalso. apply (Hno (name_of d)), list_elem_of_fmap. exists d. split; [done|].
    apply list_elem_of_In. destruct d; cbn; tauto.
Qed.

Lemma inc_counts m x p :
  complete m → ∃ p', inc_of m x p = Some p' ∧
    ∀ n ls, exported p' n ls = exported p n ls + (if bool_decide ((n, ls) = series x) then 1 else 0).
Proof.
  intros Hm.
  assert (∀ d ls0, ∃ p', add_one (field d m) ls0 p = Some p' ∧ ∀ n ls, exported p' n ls =
    exported p n ls + (if bool_decide ((n, ls) = (name_of d, ls0)) then 1 else 0)) as Hd.
  { intros d ls0. destruct (Hm d) as (c & Hc & Hn). unfold add_one. rewrite Hc. eexists. split; [done|].
    intros n ls. rewrite add_counts by done. f_equal.
    by rewrite (bool_decide_ext _ ((n, ls) = (name_of d, ls0))) by (rewrite Hn; naive_solver). }
  destruct x; [apply (Hd D_jobsLeased)|apply (Hd D_jobsCompleted)|apply (Hd D_jobsFailed)|apply (Hd D_l5aSubmitted)
    |apply (Hd D_l5aErrors)|apply (Hd D_l5bSubmitted)|apply (Hd D_l5bErrors)|apply (Hd D_failuresClassified)].
Qed.

(** The increments of one series. *)
Definition counts (s : string * list (string * string)) (a : action) : bool :=
  match a with AMetric x => bool_decide (series x = s) | _ => false end.

Lemma replay_counts m l p :
  complete m → ∃ p', replay m l p = Some p' ∧
    ∀ n ls, exported p' n ls = exported p n ls + Z.of_nat (count (counts (n, ls)) l).
Proof.
  intros Hm. induction l as [|a l (p1 & Hp1 & He)]; [exists p; split; [done|]; intros; cbn; lia|].
  destruct a as [| | | | | | | | | | |x]; cbn [replay];
    try (exists p1; split; [exact Hp1|]; intros; rewrite count_cons; apply He).
  rewrite Hp1. destruct (inc_counts m x p1 Hm) as (p2 & Hp2 & He2). exists p2. split; [exact Hp2|].
  intros n ls. rewrite He2, He, count_cons. cbn [counts].
  rewrite (bool_decide_ext ((n, ls) = series x) (series x = (n, ls))) by done. case_bool_decide; cbn [Nat.b2n]; lia.
Qed.

(** ** What the counters tell *)

Definition lease_accepted (a : action) : bool := match a with AStore (OpLeaseJob _ _) None => true | _ => false end.
Definition complete_accepted (a : action) : bool :=
  match a with AStore (OpCompleteJob _ _ _ _) None => true | _ => false end.
(** The store was asked to record a failure, whatever it answered. *)
Definition fail_called (a : action) : bool := match a with AStore (OpFailJob _ _ _ _ _ _) _ => true | _ => false end.

Definition is_metric (x : metric) : action → bool := counts (series x).

Definition tallies : list (metric * (action → bool)) :=
  [(World.JobsLeased, lease_accepted); (World.JobsCompleted, complete_accepted); (World.JobsFailed, fail_called)].

(** The metrics that move beside a call to the store count these calls. *)
Definition balanced (l : list action) : Prop :=
  Forall (λ t, count (is_metric t.1) l = count t.2 l) tallies.

Definition labelled (a : action) : Prop :=
  match a with AMetric (FailureClassified _ st) => KnownStage st | _ => True end.

Lemma balanced_iff l :
  balanced l ↔
    count (is_metric World.JobsLeased) l = count lease_accepted l ∧
    count (is_metric World.JobsCompleted) l = count complete_accepted l ∧
    count (is_metric World.JobsFailed) l = count fail_called l.
Proof. unfold balanced, tallies. rewrite !Forall_cons, Forall_nil. naive_solver. Qed.

Lemma balanced_app l1 l2 : balanced l1 → balanced l2 → balanced (l1 ++ l2).
Proof. rewrite !balanced_iff, !count_app. lia. Qed.

End Metrics.

Section Told.
Context {SO : SqlOrder} {AJ : ActionsJson} {DJ : DeliveryJson}.
Context (E : nat → step_env) (wk : worker) (Hmetrics : withMetrics wk = true).

(** What happened in between is balanced, and its labels are known. *)
Definition told (w w' : world) : Prop :=
  ∃ l, w_trace w' = l ++ w_trace w ∧ balanced l ∧ Forall labelled l.

#[local] Instance told_preorder : PreOrder told.
Proof.
  split; [intros w; exists []; by repeat constructor|].
  intros w1 w2 w3 (l1 & Ht1 & Hb1 & Hl1) (l2 & Ht2 & Hb2 & Hl2). exists (l2 ++ l1).
  split_and!; [by rewrite Ht2, Ht1, app_assoc|by apply balanced_app|by apply Forall_app].
Qed.

Lemma told_by l w w' : w_trace w' = l ++ w_trace w → balanced l → Forall labelled l → told w w'.
Proof. by exists l. Qed.

Lemma told_same w w' : w_trace w' = w_trace w → told w w'.
Proof. intros Ht. apply (told_by []); [done|by apply balanced_iff|constructor]. Qed.

(** An action on its own. *)
Definition plain_action (a : action) : Prop := balanced [a] ∧ labelled a.

Lemma told_one a w w' : w_trace w' = a :: w_trace w → plain_action a → told w w'.
Proof. intros Ht [Hb Hl]. apply (told_by [a]); [done..|by constructor]. Qed.

Lemma store_told {A} c act (m : instant → M A) :
  (∀ r, plain_action (act r)) → Does told (store_call E c act m).
Proof. intros Ha w. by eapply told_one; [apply call_records|]. Qed.

Lemma inc_trace m w : w_trace (inc wk m w).2 = AMetric m :: w_trace w.
Proof. unfold inc. by rewrite Hmetrics. Qed.

Ltac plain := split; [by apply balanced_iff|done].

#[local] Instance quiet_told : Quiet E told.
Proof.
  split; [intros w; by apply told_same|]. intros a Ha w. eapply told_one; [done|].
  destruct a as [| | | | | | | | | | |[]]; cbn in Ha; try done; plain.
Qed.

#[local] Instance acts_told job : Acts E wk job told.
Proof.
  split; [apply _| |].
  - intros J _. unfold heartbeat. apply bind_does; [apply _| |].
    + apply store_told. intros r. plain.
    + intros [[]|e]; [apply _|]. destruct (errors_is _ _); [|apply _]. intros w. by apply told_same.
  - intros A c J act m _ Hm. destruct Hm; apply store_told; intros r; plain.
Qed.

(** A call and its counter. *)
Lemma told_pair {A} (x : metric) c act (m : instant → M A) (k : res error A → W unit) :
  (∀ r w, w_trace (k r w).2 = w_trace w ∧ plain_action (act r) ∨
     w_trace (k r w).2 = AMetric x :: w_trace w ∧ balanced [AMetric x; act r] ∧ Forall labelled [AMetric x; act r]) →
  Does told (r ← store_call E c act m; k r).
Proof.
  intros Hk w. unfold mbind, W_bind. pose proof (call_records E c act m w) as Ht.
  destruct (store_call E c act m w) as [r w1]. cbn [fst snd] in Ht.
  destruct (Hk r w1) as [[Hw Ha]|(Hw & Hb & Hl)].
  - eapply told_one; [by rewrite Hw, Ht|done].
  - by apply (told_by [AMetric x; act r]); [rewrite Hw, Ht|..].
Qed.

#[local] Instance closes_told job : Closes E wk job told.
Proof.
  split.
  - intros w. by apply told_same.
  - intros J n class reason _. apply (told_pair World.JobsFailed). intros r w. right.
    split_and!; [apply inc_trace|by apply balanced_iff|by repeat constructor].
  - intros J s _. unfold complete_job. apply bind_does; [apply _..|]. intros []; [apply _|].
    apply (told_pair World.JobsCompleted). intros [[]|e] w; [right|left; split; [done|plain]].
    split_and!; [apply inc_trace|by apply balanced_iff|by repeat constructor].
Qed.

Context (valid_label_value : string → bool) (rounds : nat) (float_overflow : Z → Z).

Lemma process_told job : Does told (process E wk valid_label_value rounds float_overflow job).
Proof. apply (process_does E wk job told); apply _. Qed.

Lemma ctx_Err_told : Does told (ctx_Err E).
Proof. intros w. by apply told_same. Qed.

Lemma Run_once_told : Does told (Run_once E wk valid_label_value rounds float_overflow).
Proof.
  unfold Run_once. apply bind_does; [apply _|apply ctx_Err_told|]. intros [e|]; [apply _|].
  assert (Does told (wait_or_done E)) as Hwait.
  { unfold wait_or_done. apply bind_does; apply _. }
  intros w. unfold mbind, W_bind.
  pose proof (call_records E LoopCtx (did (OpLeaseJob (workerName wk) leaseDuration))
    (LeaseJob (workerName wk) leaseDuration) w) as Ht.
  destruct (store_call E LoopCtx _ _ w) as [[j|e] w1]; cbn [fst snd] in Ht.
  - pose proof (inc_trace World.JobsLeased w1) as Hi. destruct (inc wk _ w1) as [u w2]. cbn [snd] in Hi.
    etrans; [|pose proof (process_told j w2) as Hp; by destruct (process _ _ _ _ _ j w2)].
    eapply (told_by [AMetric World.JobsLeased; AStore _ None]);
      [by rewrite Hi, Ht|by apply balanced_iff|by repeat constructor].
  - etrans; [|apply Hwait]. eapply told_one; [exact Ht|]. plain.
Qed.

Lemma Run_told fuel : Does told (Run E wk valid_label_value rounds float_overflow fuel).
Proof.
  induction fuel as [|fuel IH]; cbn [Run]; [apply _|]. apply bind_does; [apply _|apply Run_once_told|].
  by intros [e|]; [apply _|].
Qed.

(** ** The series *)

Definition stages : list string := [StageL3; StageL4; StageL5A].
Definition classes : list FailureClass :=
  [FailureClassDeterministic; FailureClassTransientInfra; FailureClassResourceObservation; FailureClassUnknown].

(** Nineteen series, whatever the jobs are. *)
Definition all_series : list (string * list (string * string)) :=
  (series <$> [World.JobsLeased; World.JobsCompleted; World.JobsFailed; World.L5aSubmitted; World.L5aErrors;
    World.L5bSubmitted; World.L5bErrors]) ++
  (c ← classes; st ← stages; [series (FailureClassified c st)]).

Example all_series_bounded : length all_series = 19%nat.
Proof. reflexivity. Qed.

Lemma labelled_series x : labelled (AMetric x) → series x ∈ all_series.
Proof.
  intros Hx. apply list_elem_of_In. destruct x as [| | | | | | |c st]; cbn in Hx; try (cbn; tauto).
  destruct Hx as [->|[->| ->]]; destruct c; cbn; tauto.
Qed.

Lemma counts_known s l : Forall labelled l → (0 < count (counts s) l)%nat → s ∈ all_series.
Proof.
  intros Hl (a & Ha & Hc)%count_elem. rewrite Forall_forall in Hl. specialize (Hl a Ha).
  destruct a; try done. apply bool_decide_eq_true_1 in Hc as <-. by apply labelled_series.
Qed.

(** C27: what the counters tell. Once New has made the counters, and however long
    Run runs in whatever environment, its increments all reach their counters,
    and: jobs_leased grows by the leases the store granted; jobs_completed, by
    the completions it accepted; jobs_failed, by the failures it was asked to
    record. And nothing but nineteen series is ever written, whatever the jobs
    and the cluster say. *)
Theorem counters_tell `{Meter} m p0 fuel w :
  New = Ok (m, p0) →
  ∃ l p, w_trace (Run E wk valid_label_value rounds float_overflow fuel w).2 = l ++ w_trace w ∧
    replay m l p0 = Some p ∧
    exported p "nodesentinel_jobs_leased" [] =
      exported p0 "nodesentinel_jobs_leased" [] + Z.of_nat (count lease_accepted l) ∧
    exported p "nodesentinel_jobs_completed" [] =
      exported p0 "nodesentinel_jobs_completed" [] + Z.of_nat (count complete_accepted l) ∧
    exported p "nodesentinel_jobs_failed" [] =
      exported p0 "nodesentinel_jobs_failed" [] + Z.of_nat (count fail_called l) ∧
    ∀ n ls, exported p n ls ≠ exported p0 n ls → (n, ls) ∈ all_series.
Proof.
  intros Hnew. destruct (New_complete _ _ Hnew) as [Hm _]. destruct (Run_told fuel w) as (l & Ht & Hb & Hl).
  destruct (replay_counts m l p0 Hm) as (p & Hp & He). exists l, p. apply balanced_iff in Hb as (H1 & H2 & H3).
  split; [done|]. split; [done|]. rewrite !He, <- H1, <- H2, <- H3. do 3 (split; [done|]).
  intros n ls Hne. apply (counts_known _ l); [done|]. rewrite He in Hne. lia.
Qed.

End Told.

(** ** A concrete meter *)

Module Registry.
(** What was added, and to which counter; a counter is its name. *)
Definition sum_of (n : string) (ls : list (string * string)) (p : list (string * list (string * string) * Z)) : Z :=
  foldr (λ x, Z.add (if bool_decide (n = x.1.1 ∧ x.1.2 = ls) then x.2 else 0)) 0 p.

#[export] Program Instance meter : Meter := {|
  provider := list (string * list (string * string) * Z);
  instrument := string;
  promexporter_New := Ok [];
  Int64Counter name p := (Ok name, p);
  Add c k ls p := (c, ls, k) :: p;
  exported p n ls := sum_of n ls p;
  named c := c |}.
Next Obligation. by intros name p c p' [= <-]. Qed.
Next Obligation. by intros name p r p' [= _ <-]. Qed.
Next Obligation.
  intros c k ls p n ls' _. cbn. rewrite Z.add_comm. f_equal.
  by rewrite (bool_decide_ext (n = c ∧ ls = ls') (n = c ∧ ls' = ls)) by naive_solver.
Qed.
End Registry.

#[local] Existing Instance Registry.meter.

Definition metered_worker : worker :=
  {| workerName := "w1"; vaultClient := true; dynamicKube := true; withMetrics := true |}.

(** One round in a healthy environment. *)
#[local] Abbreviation one_round :=
  (Run (λ _, env_ok) metered_worker (λ _, true) 3 (λ _, 0) 1 (World d_created false 0 [])).

Lemma counters_tell_witness : ∃ m p,
  New = Ok (m, []) ∧ replay m (w_trace one_round.2) [] = Some p ∧
  exported p "nodesentinel_jobs_leased" [] = 1 ∧ exported p "nodesentinel_jobs_completed" [] = 1 ∧
  exported p "nodesentinel_jobs_failed" [] = 0.
Proof.
  assert (∃ m, New = Ok (m, [])) as [m Hm] by (eexists; reflexivity).
  destruct (counters_tell (λ _, env_ok) metered_worker eq_refl (λ _, true) 3 (λ _, 0) m [] 1
    (World d_created false 0 []) Hm) as (l & p & Ht & Hp & H1 & H2 & H3 & _).
  cbn [w_trace] in Ht. rewrite app_nil_r in Ht. subst l. exists m, p. split; [exact Hm|]. split; [exact Hp|].
  rewrite H1, H2, H3. split; [vm_compute; reflexivity|]. split; vm_compute; reflexivity.
Defined.

(** ** What the counters do not tell *)

Definition unconnected_worker : worker :=
  {| workerName := "w1"; vaultClient := false; dynamicKube := true; withMetrics := true |}.

(** A request for every stage. *)
Definition every_req : JobRequest := {|
  req_JobID := "job-1"; req_ArtifactKind := "tool"; req_ImageRepository := "registry/tool";
  req_ImageDigest := "sha256:00"; req_StableRef := "tool@v1"; req_ToolName := "tool"; req_Version := "v1";
  req_CasHash := "cas"; req_RequestedActions := []; req_RequestedFixtureSet := ""; req_ValidationRequestID := "req-1" |}.
Definition d_every : db :=
  after (after d_empty (OpCreateJob every_req) t0 []) (OpLeaseJob "w1" (60 * second)) (at_s 1) [].

(** The API server refuses the Job, and another worker holds the job meanwhile. *)
Definition env_refused (_ : nat) : step_env := {|
  e_others := [Foreign (OpLeaseJob "w2" (60 * second)) (at_s 200) [] []]; e_now := at_s 200; e_ended := false; e_faults := [];
  e_rng := [Some 7%N]; e_create := Some (ApiError ApiInvalid "spec.template: Invalid value"); e_get := Ok [];
  e_list := Ok []; e_pods := Ok []; e_delete := None; e_reports := Ok []; e_submit := None; e_event := EvPoll;
  e_rnd := λ _, 0; e_elapsed := 3 |}.

#[local] Abbreviation trace_of env wk d :=
  (w_trace (process env wk (λ _, true) 3 (λ _, 0) (job_of d) (World d false 0 [])).2).

(** Without a NodeVault client nothing is submitted, and yet the submissions of
    L5-a and L5-b are counted. *)
Lemma submitted_without_vault :
  let l := trace_of (λ _, env_ok) unconnected_worker d_every in
  count (is_metric World.L5aSubmitted) l = 1%nat ∧ count (is_metric World.L5bSubmitted) l = 1%nat ∧
  count (λ a, match a with ASubmitCheck _ _ | ASubmitScan _ _ => true | _ => false end) l = 0%nat.
Proof. split_and!; vm_compute; reflexivity. Qed.

(** A failure the store refused to record is counted as one that ended the job. *)
Lemma failed_though_refused :
  let l := trace_of env_refused metered_worker d_leased in
  count (is_metric World.JobsFailed) l = 1%nat ∧
  count (λ a, match a with AStore (OpFailJob _ _ _ _ _ _) None => true | _ => false end) l = 0%nat.
Proof. split; vm_compute; reflexivity. Qed.
