(* ===== verification/Supervise.v ===== *)
(** * Supervise: starting the process, and keeping its parts together

    main of [cmd/nodesentinel/main.go]: what start-up needs, and the group of
    goroutines that lives until the first of them fails or a signal arrives. *)

From S2P Require Import Prelude GoTime Errors Work Db Fingerprint Store Instances.
From S2P Require Import StoreSpec StoreRun StoreStep RowInv RowRead Samples Names Main.
From S2P Require Import World Worker Pipeline.

(** ** Start-up *)

(** The environment variables and the answers of what main opens. *)
Record boot := Boot {
  b_grpc_port : string;
  b_http_port : string;
  b_metrics : option error;
  b_store : option error;
  b_kube : option error;
  b_listen : option error;
  b_host : res error string;
  b_rand : res error N;
}.

Definition needed (e : option error) : res error unit :=
  match e with Some e => Err e | None => Ok tt end.

(** [Err]: the process exits with status 1; [Ok]: it serves, with the lease
    owner of its worker where there is a Kubernetes client. *)
Definition startup (b : boot) : res error (option string) :=
  try _ <- grpcPort (b_grpc_port b);
  try _ <- httpPort (b_http_port b);
  try _ <- needed (b_metrics b);
  try _ <- needed (b_store b);
  try _ <- needed (b_listen b);
  match b_kube b with
  | Some _ => Ok None
  | None => try owner <- workerIdentity (b_host b) (b_rand b); Ok (Some owner)
  end.

(** ** The group *)

Inductive member := WorkerLoop | DeliveryLoop | GrpcStopper | GrpcServer | HttpStopper | HttpServer.

#[export] Instance member_eq_dec : EqDecision member.
Proof. solve_decision. Defined.

Record group := Group {
  g_members : list member;     (* those that have not returned *)
  g_signal : bool;             (* SIGINT or SIGTERM arrived *)
  g_err : option error;        (* the first error a member returned *)
  g_ready : readiness;
  g_grpc_stopped : bool;       (* GracefulStop was called *)
  g_http_stopped : bool;       (* Shutdown was called *)
}.

(** gCtx: cancelled by a signal or by the first error. *)
Definition ctx_done (g : group) : bool := g_signal g || bool_decide (g_err g ≠ None).

Definition group_init (workers : bool) : group :=
  Group ((if workers then [WorkerLoop; DeliveryLoop] else []) ++ [GrpcStopper; GrpcServer; HttpStopper; HttpServer])
    false None (Readiness workers false false) false false.

(** What member [m] may return: the loops return the error of their context
    once it is cancelled; the stoppers wait for that; a server returns nil once
    it was stopped, and at any time the error of its connections, which is not
    that of a context. *)
Definition may_return (g : group) (m : member) (e : option error) : Prop :=
  match m, e with
  | (WorkerLoop | DeliveryLoop), _ => ctx_done g = true ∧ e = Some CtxCanceled
  | GrpcStopper, None | HttpStopper, _ => ctx_done g = true
  | GrpcStopper, Some _ => False
  | GrpcServer, None => g_grpc_stopped g = true
  | GrpcServer, Some e => ∃ e0, e = wrap_err "serve grpc" e0 ∧ errors_is e0 CtxCanceled = false
  | HttpServer, None => g_http_stopped g = true
  | HttpServer, Some e => ∃ e0, e = wrap_err "serve http" e0 ∧ errors_is e0 CtxCanceled = false
  end.

(** What [may_return] says of the two loops is what Run and RunDeliveryLoop do:
    they return only once their context, gCtx, is cancelled, and then its error. *)
Section Loops.
Context {SO : SqlOrder} {AJ : ActionsJson} {DJ : DeliveryJson}.
Context (E : nat → step_env) (wk : worker).
Context (valid_label_value : string → bool) (rounds : nat) (float_overflow : Z → Z).

Definition loop_of (m : member) (fuel : nat) : W (option error) :=
  match m with
  | WorkerLoop => Run E wk valid_label_value rounds float_overflow fuel
  | DeliveryLoop => RunDeliveryLoop E wk fuel
  | _ => mret None
  end.

Lemma ctx_err_some n e : ctx_err (E n) = Some e → e = CtxCanceled ∧ e_ended (E n) = true.
Proof. unfold ctx_err. destruct (e_ended (E n)); [by intros [= <-]|done]. Qed.

Lemma wait_returns w e : (wait_or_done E w).1 = Some e → e = CtxCanceled ∧ ∃ n, e_ended (E n) = true.
Proof.
  unfold wait_or_done, step, mbind, W_bind. cbn. destruct (e_event _); [|done..].
  intros [-> H]%ctx_err_some. eauto.
Qed.

Lemma Run_once_returns w e :
  (Run_once E wk valid_label_value rounds float_overflow w).1 = Some e → e = CtxCanceled ∧ ∃ n, e_ended (E n) = true.
Proof.
  unfold Run_once, ctx_Err, mbind, W_bind. destruct (ctx_err (E (w_step w))) as [e0|] eqn:He.
  { apply ctx_err_some in He as [-> He]. intros [= <-]. eauto. }
  match goal with |- context [store_call E LoopCtx ?act ?m w] =>
    destruct (store_call E LoopCtx act m w) as [[j|e1] w1] end; [|apply wait_returns].
  destruct (inc wk World.JobsLeased w1) as [u w2]. by destruct (process _ _ _ _ _ j w2).
Qed.

Lemma loop_returns m fuel w e : (loop_of m fuel w).1 = Some e → e = CtxCanceled ∧ ∃ n, e_ended (E n) = true.
Proof.
  revert w. induction fuel as [|fuel IH]; intros w; [by destruct m|].
  destruct m; [| |done..]; cbn [loop_of Run RunDeliveryLoop] in *; unfold mbind, W_bind in *.
  - pose proof (Run_once_returns w) as H.
    destruct (Run_once E wk valid_label_value rounds float_overflow w) as [[e0|] w1]; [apply H|apply IH].
  - pose proof (wait_returns w) as H. destruct (wait_or_done E w) as [[e0|] w1]; [apply H|].
    destruct (retryPendingDeliveries E wk w1) as [u w2]. apply IH.
Qed.

Lemma loops_may_return g m fuel w e :
  m = WorkerLoop ∨ m = DeliveryLoop → (∀ n, e_ended (E n) = true → ctx_done g = true) →
  (loop_of m fuel w).1 = Some e → may_return g m (Some e).
Proof. intros Hm Hg (-> & n & Hn)%loop_returns. destruct Hm as [-> | ->]; split; eauto. Qed.
End Loops.

Definition stopped_loop (m : member) (r : readiness) : readiness :=
  match m with
  | WorkerLoop => Readiness (workerEnabled r) false (deliveryRunning r)
  | DeliveryLoop => Readiness (workerEnabled r) (workerRunning r) false
  | _ => r
  end.

Definition started_loop (m : member) (r : readiness) : readiness :=
  match m with
  | WorkerLoop => Readiness (workerEnabled r) true (deliveryRunning r)
  | DeliveryLoop => Readiness (workerEnabled r) (workerRunning r) true
  | _ => r
  end.

(** A member leaves the group with [e]. *)
Definition leave (g : group) (m : member) (e : option error) : group :=
  Group (filter (λ m', m' ≠ m) (g_members g)) (g_signal g)
    (match g_err g with Some e0 => Some e0 | None => e end) (stopped_loop m (g_ready g))
    (g_grpc_stopped g || bool_decide (m = GrpcStopper)) (g_http_stopped g || bool_decide (m = HttpStopper)).

Inductive group_step : group → group → Prop :=
| step_signal g :
    group_step g (Group (g_members g) true (g_err g) (g_ready g) (g_grpc_stopped g) (g_http_stopped g))
| step_started g m :
    m ∈ g_members g → m = WorkerLoop ∨ m = DeliveryLoop →
    group_step g (Group (g_members g) (g_signal g) (g_err g) (started_loop m (g_ready g))
                    (g_grpc_stopped g) (g_http_stopped g))
| step_return g m e : m ∈ g_members g → may_return g m e → group_step g (leave g m e).

(** The exit status, once the group is empty. *)
Definition exit_status (g : group) : Z :=
  match g_err g with
  | Some e => if errors_is e CtxCanceled then 0 else 1
  | None => 0
  end.

(** ** What the group guarantees *)

Record group_ok (workers : bool) (g : group) : Prop := {
  ok_together : ctx_done g = false → g_members g = g_members (group_init workers);
  ok_grpc : GrpcStopper ∉ g_members g → g_grpc_stopped g = true;
  ok_http : HttpStopper ∉ g_members g → g_http_stopped g = true;
  ok_stopped : g_grpc_stopped g || g_http_stopped g = true → ctx_done g = true;
  ok_worker : workerRunning (g_ready g) = true → WorkerLoop ∈ g_members g;
  ok_delivery : deliveryRunning (g_ready g) = true → DeliveryLoop ∈ g_members g;
  ok_canceled e : g_err g = Some e → errors_is e CtxCanceled = true → g_signal g = true;
}.

Lemma group_init_ok workers : group_ok workers (group_init workers).
Proof. constructor; try done; destruct workers; set_solver. Qed.

Lemma ctx_done_leave g m e : ctx_done g = true → ctx_done (leave g m e) = true.
Proof.
  unfold ctx_done, leave. cbn. rewrite !orb_true_iff, !bool_decide_eq_true. intros [H|H]; [by left|right].
  by destruct (g_err g).
Qed.

(** Nobody returns nil before the group is being stopped. *)
Lemma leave_done workers g m e :
  group_ok workers g → may_return g m e → ctx_done (leave g m e) = true.
Proof.
  intros Hok Hret. destruct (ctx_done g) eqn:Hd; [by apply ctx_done_leave|].
  assert (e ≠ None) as He.
  { destruct m, e; cbn in Hret; try done; try (by destruct Hret); try congruence;
      rewrite (ok_stopped _ _ Hok) in Hd; try done; by rewrite Hret, ?orb_true_r. }
  unfold ctx_done, leave in *. cbn. apply orb_false_iff in Hd as [_ Hd]. apply bool_decide_eq_false_1 in Hd.
  apply orb_true_iff. right. apply bool_decide_eq_true_2. by destruct (g_err g).
Qed.

Lemma leave_members g m e m' : m' ∈ g_members (leave g m e) ↔ m' ∈ g_members g ∧ m' ≠ m.
Proof. cbn. rewrite list_elem_of_filter. tauto. Qed.

Lemma group_step_ok workers g g' : group_step g g' → group_ok workers g → group_ok workers g'.
Proof.
  intros Hs Hok. destruct Hs as [g|g m Hm Hloop|g m e Hm Hret].
  - destruct Hok. constructor; cbn; auto. by intros [=].
  - destruct Hok. constructor; cbn; auto; destruct Hloop as [->| ->]; cbn; auto.
  - pose proof (leave_done _ _ _ _ Hok Hret) as Hd. constructor.
    + congruence.
    + rewrite leave_members. cbn. intros H. destruct (decide (m = GrpcStopper)) as [->|Hne].
      { by rewrite bool_decide_eq_true_2, orb_true_r. }
      rewrite (ok_grpc _ _ Hok); [done|]. intros Hin. by apply H.
    + rewrite leave_members. cbn. intros H. destruct (decide (m = HttpStopper)) as [->|Hne].
      { by rewrite bool_decide_eq_true_2, orb_true_r. }
      rewrite (ok_http _ _ Hok); [done|]. intros Hin. by apply H.
    + done.
    + rewrite leave_members. intros H. split.
      * apply (ok_worker _ _ Hok). by destruct m.
      * by intros <-.
    + rewrite leave_members. intros H. split.
      * apply (ok_delivery _ _ Hok). by destruct m.
      * by intros <-.
    + cbn. intros e' He Hc. destruct (g_err g) as [e0|] eqn:Herr.
      { injection He as ->. by apply (ok_canceled _ _ Hok e'). }
      destruct (g_signal g) eqn:Hsig; [done|]. exfalso.
      assert (ctx_done g = false) as Hnd by (unfold ctx_done; by rewrite Hsig, Herr).
      subst e. destruct m; cbn in Hret; try congruence; try (by destruct Hret as [? _]; congruence).
      all: destruct Hret as (e0 & -> & He0); cbn in Hc; by rewrite He0 in Hc.
Qed.

Lemma group_progress workers g :
  group_ok workers g → ctx_done g = true → g_members g ≠ [] → ∃ m e, m ∈ g_members g ∧ may_return g m e.
Proof.
  intros Hok Hd Hne.
  destruct (decide (GrpcStopper ∈ g_members g)); [by exists GrpcStopper, None|].
  destruct (decide (HttpStopper ∈ g_members g)); [by exists HttpStopper, None|].
  destruct (g_members g) as [|m l] eqn:Hm; [done|]. rewrite <- Hm in *.
  assert (m ∈ g_members g) as Hin by (rewrite Hm; left).
  destruct m; try done.
  - by exists WorkerLoop, (Some CtxCanceled).
  - by exists DeliveryLoop, (Some CtxCanceled).
  - exists GrpcServer, None. split; [done|]. by apply (ok_grpc _ _ Hok).
  - exists HttpServer, None. split; [done|]. by apply (ok_http _ _ Hok).
Qed.

(** C26: the process never runs on with a part missing. Until a signal arrives or
    a server fails, every part is running; after that, as long as one is left,
    one can return, so that the group ends; it exits with status 0 only if a
    signal arrived. And readiness counts a loop as running only while it is. *)
Theorem group_supervised workers g :
  rtc group_step (group_init workers) g →
  (ctx_done g = false → g_members g = g_members (group_init workers)) ∧
  (ctx_done g = true → g_members g ≠ [] →
     ∃ m e, may_return g m e ∧ (length (g_members (leave g m e)) < length (g_members g))%nat) ∧
  (g_members g = [] → ctx_done g = true ∧ (exit_status g = 0 → g_signal g = true)) ∧
  (∀ now d d', check (g_ready g) now d = (None, d') → WorkerLoop ∈ g_members g ∧ DeliveryLoop ∈ g_members g).
Proof.
  intros Hg. assert (group_ok workers g) as Hok.
  { remember (group_init workers) as g0 eqn:E. assert (group_ok workers g0) as H0 by (subst; apply group_init_ok).
    clear E. induction Hg as [|g0 g1 g2 Hs _ IH]; [done|]. by apply IH, (group_step_ok _ _ _ Hs). }
  split_and!.
  - apply (ok_together _ _ Hok).
  - intros Hd Hne. destruct (group_progress _ _ Hok Hd Hne) as (m & e & Hm & Hret). exists m, e. split; [done|].
    cbn. apply list_elem_of_split in Hm as (l1 & l2 & ->). rewrite filter_app, filter_cons, decide_False by auto.
    rewrite !length_app. cbn. pose proof (length_filter (λ m', m' ≠ m) l1). pose proof (length_filter (λ m', m' ≠ m) l2). lia.
  - intros Hnil. assert (ctx_done g = true) as Hd.
    { destruct (ctx_done g) eqn:Hd; [done|]. rewrite (ok_together _ _ Hok Hd) in Hnil. by destruct workers. }
    split; [done|]. unfold exit_status, ctx_done in *. destruct (g_err g) as [e|] eqn:He.
    + destruct (errors_is e CtxCanceled) eqn:Hc; [|done]. intros _. by apply (ok_canceled _ _ Hok e).
    + intros _. by rewrite orb_false_r in Hd.
  - intros now d d' Hc. unfold check in Hc. destruct (workerEnabled _); [|done].
    destruct (workerRunning _) eqn:Hw; [|done]. destruct (deliveryRunning _) eqn:Hdl; [|done].
    split; [by apply (ok_worker _ _ Hok)|by apply (ok_delivery _ _ Hok)].
Qed.

(** The process serves exactly when its ports are valid and everything it opens
    opens; it runs a worker exactly when there is a Kubernetes client, under an
    identity of its own. *)
Lemma startup_serves b o :
  startup b = Ok o ↔
  (is_ok (grpcPort (b_grpc_port b)) = true ∧ is_ok (httpPort (b_http_port b)) = true ∧
   b_metrics b = None ∧ b_store b = None ∧ b_listen b = None) ∧
  match b_kube b with
  | Some _ => o = None
  | None => ∃ owner, workerIdentity (b_host b) (b_rand b) = Ok owner ∧ o = Some owner
  end.
Proof.
  unfold startup. destruct (grpcPort _), (httpPort _), (b_metrics b), (b_store b), (b_listen b);
    cbn; try (by split; [|intros ((?&?&?&?&?)&_)]; done).
  destruct (b_kube b).
  - split; [by intros [= <-]|by intros [_ ->]].
  - destruct (workerIdentity _ _) as [owner|e]; cbn.
    + split; [intros [= <-]; eauto 10|by intros (_ & ? & [= <-] & ->)].
    + split; [done|by intros (_ & ? & [=] & _)].
Qed.

(** The gRPC server fails: the group is cancelled, everybody leaves, and the
    process exits with status 1. *)
Lemma group_supervised_witness :
  ∃ g, rtc group_step (group_init true) g ∧ g_members g = [] ∧ g_signal g = false ∧
    ctx_done g = true ∧ exit_status g = 1.
Proof.
  set (e := wrap_err "serve grpc" (ErrText "accept: too many open files")).
  set (g1 := leave (group_init true) GrpcServer (Some e)).
  set (g2 := leave (leave g1 WorkerLoop (Some CtxCanceled)) DeliveryLoop (Some CtxCanceled)).
  set (g3 := leave (leave (leave g2 GrpcStopper None) HttpStopper None) HttpServer None).
  assert (rtc group_step (group_init true) g3) as Hg.
  { eapply rtc_l; [apply (step_return _ GrpcServer (Some e)); [set_solver|by eexists]|].
    eapply rtc_l; [apply (step_return _ WorkerLoop (Some CtxCanceled)); [vm_compute; set_solver|done]|].
    eapply rtc_l; [apply (step_return _ DeliveryLoop (Some CtxCanceled)); [vm_compute; set_solver|done]|].
    eapply rtc_l; [apply (step_return _ GrpcStopper None); [vm_compute; set_solver|done]|].
    eapply rtc_l; [apply (step_return _ HttpStopper None); [vm_compute; set_solver|done]|].
    eapply rtc_l; [apply (step_return _ HttpServer None); [vm_compute; set_solver|done]|]. reflexivity. }
  exists g3. split; [exact Hg|]. split; [reflexivity|]. split; [reflexivity|].
  destruct (group_supervised true g3 Hg) as (_ & _ & H & _). split; [exact (proj1 (H eq_refl))|reflexivity].
Defined.
